(* ===== verification/_CoqProject ===== *)
-Q . S2P
Prelude.v
Moves.v
Crc32.v
LogFormat.v
Log.v
LogSpec.v
Hlc.v
Base64.v
Utf8.v
Text.v
StoreTypes.v
Store.v
StoreSpec.v
StoreFrame.v
ScanSpec.v
SyncSpec.v
Merge.v
Snapshot.v
SnapshotSpec.v
Recovery.v
StoreGaps.v
Json.v
Schema.v
SchemaSpec.v
Ident.v
Config.v
Caps.v
CapsToy.v
CapsSpec.v
Rotate.v
RotateSpec.v
Auth.v
AuthSpec.v
RateLimit.v
Net.v
NetSpec.v
NetRun.v
NetLive.v
NetGaps.v
Query.v
QuerySpec.v
Server.v
ServerDemo.v
ServerSpec.v
ServerFrame.v
ServerData.v
ServerCrash.v
Cluster.v
ServerBatch.v
Sse.v
ServerFeed.v
ServerGaps.v
Tls.v
Daemon.v
DaemonSpec.v
DaemonGaps.v
Fs.v
FsDemo.v
FsSpec.v
FsFile.v
FsRename.v
FsDir.v
FsInode.v
FsGaps.v
Cli.v
