(* ===== verification/Prelude.v ===== *)
(** * BunnyMeshDB in Rocq

    BunnyMeshDB is a multi-master key-value database.  A node keeps, per
    namespace, an append-only log whose records are chained by SHA-256 and
    framed by CRC32; its state in memory is an index derived from the logs.
    Clients reach it through an HTTP API guarded by signed capabilities; nodes
    pull each other's logs over libp2p.  This library models the Rust crate
    under [src/src] and proves it correct, component by component.

    ** How the parts correspond to the code

    Paths are below [src/src].  A component is one file with its data and
    operations and, beside it, the files with its theorems.  Functions, fields
    and constructors keep the names of the code.

    - Storage.
      [Crc32], [LogFormat] ([storage/log.rs], [Record]): the bytes of a record.
      [Log] ([storage/log.rs], [Log]): the segment files of a namespace;
      [LogSpec] states the abstract log, a list of records, and that [append],
      [recover] and [read_records] implement it, also from a torn write.
      [StoreTypes], [Store], [Snapshot] ([storage/mod.rs]): names and codec;
      the state with local writes, reads, the secondary index, replay and
      sync; checkpoint, open and compaction.  [StoreSpec], [StoreFrame],
      [ScanSpec], [SyncSpec], [SnapshotSpec], [Recovery] (opening what a crash
      leaves) and [StoreGaps] are its theorems.
    - Clock: [Hlc] ([core/hlc.rs]), concurrent callers as a step relation.
    - Text: [Base64] ([util.rs]), [Utf8] and [Text] (the standard library's
      string routines), [Json] ([serde_json::Value]).
    - Keys and rights.
      [Ident] ([core/ident.rs]), [Caps] ([caps.rs]) with [CapsSpec] and the
      instance [CapsToy]; [Rotate] ([core/meta.rs], [core/rotate.rs]) with
      [RotateSpec]; [Auth] ([ns.rs]) with [AuthSpec]; [RateLimit]
      ([server/ratelimit.rs]); [Config] ([server/config.rs]).
    - Schema: [Schema] ([schema/mod.rs]) with [SchemaSpec].
    - Query language: [Query] ([query/mod.rs]) with [QuerySpec].
    - Mesh: [Merge] ([net/merge.rs]) and [Net] ([net/mod.rs], [Runner]) with
      [NetSpec], [NetRun], [NetLive] and [NetGaps].
    - HTTP API: [Server] ([server/mod.rs]) with the example state
      [ServerDemo] and the theorems of [ServerSpec], [ServerFrame],
      [ServerData], [ServerCrash], [ServerBatch] and [ServerGaps]; [Sse]
      (event streams, same file) with [ServerFeed]; [Tls] ([server/tls.rs]),
      the listener.
    - Two nodes: [Cluster] joins the API and the mesh of both.
    - Daemon: [Daemon] ([bin/bunnymeshdbd.rs]), its start and its tasks, with
      [DaemonSpec] and [DaemonGaps].
    - File system: [Fs] ([fs/mod.rs]), one definition per callback of the
      mount, with the example [FsDemo] and the theorems of [FsSpec], [FsFile],
      [FsRename], [FsDir], [FsInode] and [FsGaps].
    - Command line: [Cli] ([bin/bunnymeshdb.rs]), backup, restore, clearing a
      pin and the interactive loop.

    The API calls [Auth] for the decision and the quota, [RateLimit] in its
    middleware, [Schema] before a write, [Query] for [/ql] and [Store] for the
    data; the mesh calls [Merge] on what it received and [Store] to apply and
    to serve it; [Query] and [Net] see the store through its operations only,
    and [StoreFrame] is what all three rely on to stay inside a namespace.

    ** Conventions

    A [u64], [u32] or [usize] is a [Z] with the wrap-around written where the
    code can reach it ([u64], as the release build computes).  Byte strings
    are lists of bytes, a [String] is its UTF-8.  A [HashMap] is a [gmap], a
    walk over one goes in an order that is a parameter; a [BTreeMap] is walked
    in key order.  A fallible function returns an [outcome]: [Ok], [Err] with
    the code's error as a constructor, or [Panic].  A method that changes
    [self] is a [method]: the state afterwards is returned also when it fails,
    so the changes made before an error are kept as in the code.

    Recursion is structural, or on fuel that is a length of the input: the
    record parser on the bytes left, the segment scan on the file length, the
    query parser on the tokens left.  Where a model has fuel, a lemma shows
    that it is enough ([parse_ops_fuel], [chunks_go_fuel],
    [parse_statement_total], ...), so no theorem holds for want of it.

    What the world decides is an argument: the clocks, the random bytes of a
    nonce, whether a lock is taken, whether a file can be written.  What other
    crates compute is a class of operations with the laws the code relies on,
    each with a concrete instance on which the theorems are evaluated:
    [Sha256] (no law beyond the length of a digest: a theorem that needs
    collision resistance assumes that the function gives different digests to
    the different texts of a list it names, [LogSpec.separates], which are
    those the code hashes in the case at hand), [HexCrate], [SerdeJson], [JsonFloat], [Ed25519], [CapJson]
    with [CapJsonLaws], [ConfigText] (toml and multiaddresses), [Libp2p] (the
    derivation of a peer id), [Rustls] (PEM files and key pairs), [HashOrder]
    and [InoOrder] (the order in which a hash map is walked).

    ** What is one step

    The store is reached under a lock, so a call of one of its methods is
    one step. An event of the mesh task is one step. An HTTP request, or a
    request of the kernel to the mount, is one step although it takes its
    locks one after the other: an authorization holds the revocation lock
    only while it decides. The clock and the count of event streams, which
    are shared without a lock, are modelled at the level of their atomic
    instructions, each of which reads the current value (the code's relaxed
    loads may read an earlier one, which the exchange that follows then
    rejects; [Sse.step] says what that leaves out). A crash is a prefix of the bytes of the write under way
    ([LogSpec]) or a point between two changes of the data directory
    ([Rotate]).

    ** What the theorems show

    - Durability: an append is atomic under a crash, recovery keeps exactly
      the intact records, reading and reopening return what was appended, a
      checkpoint and a backup restore the state but for the secondary index,
      which opening recomputes from the entries; one changed byte is detected,
      and equal heads mean equal histories.  After a crash at any byte the
      store opens to the checkpoint with the later records replayed,
      namespaces created since included, and a write that was acknowledged is
      read again unless its key was deleted, or is written at a later time,
      since the checkpoint (a write after a delete can be lost, [StoreGaps]).
    - Data: the store's invariant under every operation, what [put],
      [delete], a batch and [scan] do to what reads show, and nothing else.
    - Replication: applying is idempotent, independent of the order, and the
      same in bulk; whatever verifies applies; the mesh serves only peers it
      trusts, never changes a pin, writes only what was asked for, never
      panics on well-formed input, spends a bounded number of pulls, and a
      replica catches up, so that what is written on one node, to a key that
      was never deleted, is read on another.
    - Rights: the exact condition of authorization, that neither cache ever
      changes a decision, that the API changes nothing without a capability
      that grants it, that data requests and remote queries stay in their
      namespace, what issuing, expiry, revocation and rotation of keys do, and
      the exact accounting of the quota and of the rate limit; a revocation
      is final, through every cache and across orderly restarts.
    - Requests: what a write does on every branch, in shared and owned
      namespaces; what a batch answers, operation by operation, and exactly
      what it stores, against a specification that assigns the quota in the
      order of the request ([ServerBatch]); and that the
      change feed and the event streams skip and repeat nothing; who is served
      over TLS, and how long a client can wait for it.
    - Files: the mount stays below its prefix and commits nothing it was not
      asked to; what is written is what is read; a rename moves everything; a
      listing ends, is exact and agrees with lookups; inodes and write handles
      stay sound while the inode table is pruned.
    - Text: round trips of records, snapshots, base64, capabilities, scopes
      and query statements; schema validation accepts exactly what the
      keywords say.
    - Gaps: the theorems of [StoreGaps], [NetGaps], [ServerGaps],
      [DaemonGaps] and [FsGaps], and some beside the component they are about,
      prove behaviour that differs from what the code's comments promise.

    ** Not modelled

    The construction of the libp2p swarm ([build_swarm] in [net/mod.rs])
    configures a library.  The parsing of arguments by the two programs, and
    what they print, is left out.  Of the storage layer, [fsync] and failures
    of the disk other than missing files are left out; of the HTTP layer, what
    axum does before a handler runs (matching the path, percent-decoding,
    reading typed bodies).  Messages of errors are constructors, [Display] and
    logging are text only. *)

From Stdlib Require Import Strings.Byte.
From stdpp Require Export gmap strings list sorting.
From stdpp Require Import countable.

#[global] Open Scope Z_scope.

(** Rust's [Vec<u8>], [&[u8]], [String] and [[u8; N]] are all byte strings
    here; [bs] turns a literal into one.  A [String] is its UTF-8 bytes, so
    [as_bytes] and [into_bytes] are the identity. *)
Abbreviation byte := Byte.byte.
Abbreviation bytes := (list Byte.byte).

Definition bs (s : string) : bytes := String.list_byte_of_string s.
Arguments bs s%_string.

Create HintDb bmdb discriminated.
#[global] Hint Constants Opaque : bmdb.
#[global] Hint Variables Opaque : bmdb.

(** ** Bytes as integers *)

#[global] Instance byte_eq_dec : EqDecision byte := Byte.byte_eq_dec.

#[global] Program Instance byte_countable : Countable byte :=
  inj_countable Byte.to_N Byte.of_N _.
Next Obligation. intros b. apply Byte.of_to_N. Qed.

(** [b as u64] (or any wider integer). *)
Definition b2z (b : byte) : Z := Z.of_N (Byte.to_N b).

(** [z as u8]: the low eight bits. *)
Definition z2b (z : Z) : byte :=
  default x00 (Byte.of_N (Z.to_N (z mod 256))).

Lemma b2z_range b : 0 <= b2z b < 256.
Proof. unfold b2z. pose proof (Byte.to_N_bounded b). lia. Qed.

Lemma z2b_b2z b : z2b (b2z b) = b.
Proof.
  unfold z2b. pose proof (b2z_range b).
  rewrite Z.mod_small by lia. unfold b2z. by rewrite N2Z.id, Byte.of_to_N.
Qed.

Lemma b2z_z2b z : b2z (z2b z) = z mod 256.
Proof.
  unfold z2b, b2z. pose proof (Z.mod_pos_bound z 256 ltac:(lia)).
  destruct (Byte.of_N (Z.to_N (z mod 256))) as [b|] eqn:E; simpl.
  - apply Byte.to_of_N in E. lia.
  - apply Byte.of_N_None_iff in E. lia.
Qed.

#[global] Instance b2z_inj : Inj (=) (=) b2z.
Proof. intros a b E. by rewrite <-(z2b_b2z a), E, z2b_b2z. Qed.

(** ** Machine integers *)

Definition u64_max : Z := 2 ^ 64 - 1.

(** Release-mode [u64] arithmetic wraps. *)
Definition u64 (z : Z) : Z := z mod 2 ^ 64.
Definition u32 (z : Z) : Z := z mod 2 ^ 32.

Definition is_u64 (z : Z) : Prop := 0 <= z < 2 ^ 64.

Lemma u64_small z : is_u64 z -> u64 z = z.
Proof. unfold is_u64, u64. intros. by apply Z.mod_small. Qed.

Lemma u64_range z : is_u64 (u64 z).
Proof. unfold is_u64, u64. apply Z.mod_pos_bound. lia. Qed.

#[global] Hint Resolve u64_range : bmdb.

(** Joining bit fields that do not overlap is addition. *)
Lemma lor_low k a c : 0 <= k -> (2 ^ k | a) -> 0 <= c < 2 ^ k -> Z.lor a c = a + c.
Proof.
  intros Hk [q ->] Hc. rewrite <-(Z.add_lor_land (q * 2 ^ k) c).
  cut (Z.land (q * 2 ^ k) c = 0); [lia|]. apply Z.bits_inj'. intros n Hn.
  rewrite Z.land_spec, Z.bits_0. destruct (decide (n < k)).
  - by rewrite Z.mul_pow2_bits_low by lia.
  - rewrite andb_comm. destruct (decide (c = 0)) as [->|]; [by rewrite Z.testbit_0_l|].
    rewrite Z.bits_above_log2; [done|lia|].
    apply Z.log2_lt_pow2; [lia|]. eapply Z.lt_le_trans; [apply Hc|].
    apply Z.pow_le_mono_r; lia.
Qed.

(** ** Little-endian integers: [to_le_bytes] and [from_le_bytes] *)

Fixpoint le_bytes (n : nat) (z : Z) : bytes :=
  match n with
  | O => []
  | S n => z2b z :: le_bytes n (z / 256)
  end.

Fixpoint le_val (l : bytes) : Z :=
  match l with
  | [] => 0
  | b :: l => b2z b + 256 * le_val l
  end.

Lemma length_le_bytes n z : length (le_bytes n z) = n.
Proof. revert z. induction n; simpl; intros; auto. Qed.

Lemma le_val_range l : 0 <= le_val l < 256 ^ Z.of_nat (length l).
Proof.
  induction l as [|b l IH]; [simpl; lia|].
  cbn [le_val length]. rewrite Nat2Z.inj_succ, Z.pow_succ_r by lia.
  pose proof (b2z_range b). nia.
Qed.

Lemma le_val_bytes n z : le_val (le_bytes n z) = z mod 256 ^ Z.of_nat n.
Proof.
  revert z. induction n as [|n IH]; intros z; [by rewrite Z.mod_1_r|].
  cbn [le_bytes le_val]. rewrite IH, b2z_z2b, Nat2Z.inj_succ, Z.pow_succ_r by lia.
  rewrite Z.rem_mul_r; lia.
Qed.

Lemma le_bytes_val l : le_bytes (length l) (le_val l) = l.
Proof.
  induction l as [|b l IH]; [done|]. cbn [length le_val le_bytes].
  pose proof (b2z_range b).
  replace (b2z b + 256 * le_val l) with (le_val l * 256 + b2z b) by lia.
  rewrite Z.div_add_l, (Z.div_small (b2z b)), Z.add_0_r, IH by lia. f_equal.
  apply (inj b2z). rewrite b2z_z2b, Z.add_comm, Z.mod_add by lia.
  by apply Z.mod_small.
Qed.

Lemma le_val_bytes_small n z :
  0 <= z < 256 ^ Z.of_nat n -> le_val (le_bytes n z) = z.
Proof. intros. rewrite le_val_bytes. by apply Z.mod_small. Qed.

#[global] Arguments le_bytes : simpl never.
#[global] Arguments le_val : simpl never.

(** ** Results: [Result<A, E>] plus the panics of indexing and [unwrap] *)

Inductive outcome (E A : Type) : Type :=
| Ok (a : A)
| Err (e : E)
| Panic.
Arguments Ok {E A} a.
Arguments Err {E A} e.
Arguments Panic {E A}.

#[global] Instance outcome_ret E : MRet (outcome E) := fun A a => Ok a.
#[global] Instance outcome_bind E : MBind (outcome E) := fun A B k m =>
  match m with Ok a => k a | Err e => Err e | Panic => Panic end.
#[global] Instance outcome_fmap E : FMap (outcome E) := fun A B f m =>
  match m with Ok a => Ok (f a) | Err e => Err e | Panic => Panic end.

#[global] Instance outcome_eq_dec E A `{EqDecision E, EqDecision A} :
  EqDecision (outcome E A).
Proof. solve_decision. Defined.

(** [opt.ok_or(e)?] *)
Definition ok_or {E A} (e : E) (o : option A) : outcome E A :=
  match o with Some a => Ok a | None => Err e end.

(** An index or slice that must be in range, or the thread panics. *)
Definition or_panic {E A} (o : option A) : outcome E A :=
  match o with Some a => Ok a | None => Panic end.

(** [if c { return Err(e) }] *)
Definition guard_err {E} (c : bool) (e : E) : outcome E unit :=
  if c then Err e else Ok tt.

(** [r.map_err(f)] *)
Definition map_err {E E' A} (f : E -> E') (o : outcome E A) : outcome E' A :=
  match o with Ok a => Ok a | Err e => Err (f e) | Panic => Panic end.

Lemma map_err_ok {E E' A} (f : E -> E') (o : outcome E A) a :
  map_err f o = Ok a <-> o = Ok a.
Proof. destruct o; naive_solver. Qed.

Lemma bind_ok {E A B} (m : outcome E A) (k : A -> outcome E B) b :
  m ≫= k = Ok b <-> exists a, m = Ok a /\ k a = Ok b.
Proof. destruct m; cbn; naive_solver. Qed.

Lemma guard_err_ok {E} c (e : E) : guard_err c e = Ok tt <-> c = false.
Proof. destruct c; naive_solver. Qed.

Lemma bind_step {E A B} (m : outcome E A) a (k : A -> outcome E B) :
  m = Ok a -> m ≫= k = k a.
Proof. by intros ->. Qed.

(** ** Methods on [&mut self]

    A method that mutates its receiver and returns a [Result] maps a state to
    the state it leaves and its outcome; a [?] that fails leaves the mutations
    made so far in place. *)
Definition method (S E A : Type) : Type := S -> S * outcome E A.

#[global] Instance method_ret S E : MRet (method S E) := fun A a s => (s, Ok a).
#[global] Instance method_bind S E : MBind (method S E) := fun A B k m s =>
  match m s with
  | (s', Ok a) => k a s'
  | (s', Err e) => (s', Err e)
  | (s', Panic) => (s', Panic)
  end.

(** A computation that does not touch the state, the state, and an update. *)
Definition lift {S E A} (o : outcome E A) : method S E A := fun s => (s, o).
Definition self {S E} : method S E S := fun s => (s, Ok s).
Definition update {S E} (f : S -> S) : method S E unit := fun s => (f s, Ok tt).

(** [for x in l { m(x)?; }] *)
Fixpoint for_each {S E A} (m : A -> method S E unit) (l : list A) : method S E unit :=
  match l with
  | [] => mret tt
  | x :: l => m x ≫= fun _ => for_each m l
  end.

Lemma method_bind_ok {S E A B} (m : method S E A) (k : A -> method S E B) s s' b :
  (m ≫= k) s = (s', Ok b) <-> exists s1 a, m s = (s1, Ok a) /\ k a s1 = (s', Ok b).
Proof.
  unfold mbind, method_bind. destruct (m s) as [s1 [a|e|]]; naive_solver.
Qed.

Lemma method_bind_step {S E A B} (m : method S E A) (k : A -> method S E B) s s1 a :
  m s = (s1, Ok a) -> (m ≫= k) s = k a s1.
Proof. unfold mbind, method_bind. by intros ->. Qed.

Lemma for_each_one {S E A B} (m : A -> method S E unit) x (k : method S E B) s :
  (for_each m [x] ≫= fun _ => k) s = (m x ≫= fun _ => k) s.
Proof.
  unfold mbind, method_bind. cbn [for_each]. unfold mbind, method_bind.
  by destruct (m x s) as [s1 [[]|e|]].
Qed.

Lemma method_bind_ext {S E A B} (m : method S E A) (k k' : A -> method S E B) s :
  (forall a s', k a s' = k' a s') -> (m ≫= k) s = (m ≫= k') s.
Proof. intros Hk. unfold mbind, method_bind. by destruct (m s) as [s1 [a|e|]]. Qed.

(** An invariant kept by each step is kept by their composition, whatever
    the outcome. *)
Definition keeps {S E A} (I : S -> Prop) (m : method S E A) : Prop :=
  forall s, I s -> I (m s).1.

Lemma keeps_ret {S E A} (I : S -> Prop) (a : A) : keeps I (mret (M:=method S E) a).
Proof. intros s Hs. done. Qed.

Lemma keeps_lift {S E A} (I : S -> Prop) (o : outcome E A) : keeps (S:=S) I (lift o).
Proof. intros s Hs. done. Qed.

Lemma keeps_update {S E} (I : S -> Prop) f : (forall s, I s -> I (f s)) ->
  keeps (E:=E) I (update f).
Proof. intros Hf s Hs. by apply Hf. Qed.

Lemma keeps_bind {S E A B} (I : S -> Prop) (m : method S E A) (k : A -> method S E B) :
  keeps I m -> (forall s a s', I s -> m s = (s', Ok a) -> I s' -> I (k a s').1) ->
  keeps I (m ≫= k).
Proof.
  intros Hm Hk s Hs. specialize (Hm s Hs). unfold mbind, method_bind.
  destruct (m s) as [s1 [a|e|]] eqn:E1; simpl in *; try done. by eapply Hk.
Qed.

Lemma keeps_for_each {S E A} (I : S -> Prop) (m : A -> method S E unit) l :
  (forall x, x ∈ l -> keeps I (m x)) -> keeps I (for_each m l).
Proof.
  induction l as [|x l IH]; intros Hm; simpl; [apply keeps_ret|].
  apply keeps_bind; [apply Hm, list_elem_of_here|].
  intros s [] s' _ _ Hs'. apply IH; [|done]. intros y Hy. apply Hm. by right.
Qed.

(** Runs the first step of a chain, [tac] proving that it returns [Ok]. *)
Ltac step_by tac := etrans; [eapply bind_step; tac|cbv beta zeta].

(** Inverts a successful chain of [?]-style steps. *)
Ltac res_inv :=
  repeat match goal with
  | H : _ ≫= _ = Ok _ |- _ =>
      let a := fresh "a" in let H1 := fresh "Hm" in
      apply bind_ok in H; destruct H as (a & H1 & H)
  | H : guard_err _ _ = Ok ?u |- _ => destruct u; apply guard_err_ok in H
  | H : ok_or _ ?o = Ok _ |- _ => destruct o eqn:?; simpl in H; simplify_eq
  | H : or_panic ?o = Ok _ |- _ => destruct o eqn:?; simpl in H; simplify_eq
  | H : mret _ = Ok _ |- _ => simpl in H
  | H : map_err _ _ = Ok _ |- _ => apply map_err_ok in H
  | H : Ok _ = Ok _ |- _ => injection H as H; subst
  | H : Err _ = Ok _ |- _ => discriminate H
  | H : Panic = Ok _ |- _ => discriminate H
  end.

(** Decides a closed proposition by evaluation. *)
Ltac vm_decide := apply (bool_decide_unpack _); vm_compute; exact I.

(** ** Slices *)

Lemma mjoin_cons {A} (x : list A) l : mjoin (x :: l) = x ++ mjoin l.
Proof. reflexivity. Qed.

(** [&l[i..j]], which panics unless [i <= j <= l.len()]. *)
Definition slice {A} (l : list A) (i j : nat) : option (list A) :=
  if decide (i <= j /\ j <= length l)%nat
  then Some (take (j - i) (drop i l)) else None.

Lemma slice_app {A} (l1 l2 l3 : list A) i j :
  i = length l1 -> j = (length l1 + length l2)%nat ->
  slice (l1 ++ l2 ++ l3) i j = Some l2.
Proof.
  intros -> ->. unfold slice. rewrite decide_True by (rewrite !length_app; lia).
  f_equal. rewrite drop_app_length.
  replace (length l1 + length l2 - length l1)%nat with (length l2) by lia.
  apply take_app_length.
Qed.

Lemma slice_field {A} (a b c l : list A) i j :
  l = a ++ b ++ c -> i = length a -> j = (i + length b)%nat -> slice l i j = Some b.
Proof. intros -> -> ->. by apply slice_app. Qed.

Lemma slice_Some {A} (l : list A) i j s :
  slice l i j = Some s ->
  (i <= j <= length l)%nat /\ s = take (j - i) (drop i l) /\ length s = (j - i)%nat.
Proof.
  unfold slice. case_decide; intros; simplify_eq.
  split_and!; [lia..|done|]. rewrite length_take, length_drop. lia.
Qed.

Lemma slice_in_range {A} (l : list A) i j :
  (i <= j <= length l)%nat -> slice l i j = Some (take (j - i) (drop i l)).
Proof. intros. unfold slice. by rewrite decide_True. Qed.

(** [l.chunks(k)]: consecutive pieces of [k] elements, the last one shorter. *)
Fixpoint chunks_go {A} (fuel k : nat) (l : list A) : list (list A) :=
  match fuel, l with
  | S fuel, _ :: _ => take k l :: chunks_go fuel k (drop k l)
  | _, _ => []
  end.
Definition chunks {A} (k : nat) (l : list A) : list (list A) := chunks_go (length l) k l.

Lemma chunks_go_fuel {A} f1 f2 k (l : list A) : (0 < k)%nat ->
  (length l <= f1)%nat -> (length l <= f2)%nat -> chunks_go f1 k l = chunks_go f2 k l.
Proof.
  intros Hk. revert f2 l. induction f1 as [|f1 IH]; intros [|f2] [|x l]; simpl; intros;
    try done; try lia.
  f_equal. apply IH; rewrite length_drop; simpl; lia.
Qed.

Lemma chunks_nil {A} k : chunks k (@nil A) = [].
Proof. done. Qed.

Lemma chunks_app {A} k (a l : list A) : (0 < k)%nat -> length a = k ->
  chunks k (a ++ l) = a :: chunks k l.
Proof.
  intros Hk Ha. unfold chunks.
  destruct (a ++ l) as [|x r] eqn:E; [apply app_nil in E as [-> ->]; simpl in *; lia|].
  cbn [length chunks_go]. rewrite <-E, <-Ha, take_app_length, drop_app_length.
  f_equal. apply chunks_go_fuel; [lia| |done].
  apply (f_equal length) in E. rewrite length_app in E. simpl in E. lia.
Qed.

Lemma chunks_short {A} k (a : list A) : a <> [] -> (length a <= k)%nat -> chunks k a = [a].
Proof.
  intros Ha Hk. unfold chunks. destruct a as [|x a]; [done|]. cbn [length chunks_go].
  rewrite take_ge, drop_ge by done. by destruct (length a).
Qed.

Definition starts_with (p l : bytes) : bool :=
  bool_decide (take (length p) l = p).

Lemma starts_with_spec p l : starts_with p l = true <-> exists r, l = p ++ r.
Proof.
  unfold starts_with. rewrite bool_decide_eq_true. split.
  - intros E. exists (drop (length p) l). rewrite <-E at 1. by rewrite take_drop.
  - intros [r ->]. apply take_app_length.
Qed.

(** [s.strip_prefix(p)] *)
Definition strip_prefix (p l : bytes) : option bytes :=
  if starts_with p l then Some (drop (length p) l) else None.

Lemma strip_prefix_app p r : strip_prefix p (p ++ r) = Some r.
Proof.
  unfold strip_prefix.
  assert (starts_with p (p ++ r) = true) as -> by (apply starts_with_spec; eauto).
  by rewrite drop_app_length.
Qed.

(** ** Total orders: Rust's derived [Ord] *)

Class Ord (A : Type) := cmp : A -> A -> comparison.

Class OrdLaws (A : Type) `{Ord A} : Prop := {
  cmp_eq (a b : A) : cmp a b = Eq <-> a = b;
  cmp_opp (a b : A) : cmp b a = CompOpp (cmp a b);
  cmp_lt_trans (a b c : A) : cmp a b = Lt -> cmp b c = Lt -> cmp a c = Lt;
}.

(** [a >= b] and [a <= b] as Rust evaluates them. *)
Definition geb {A} `{Ord A} (a b : A) : bool :=
  match cmp a b with Lt => false | _ => true end.
Definition cle {A} `{Ord A} (a b : A) : Prop := cmp a b <> Gt.

#[global] Instance cle_dec {A} `{Ord A} (a b : A) : Decision (cle a b).
Proof. unfold cle. solve_decision. Defined.

#[global] Instance Z_Ord : Ord Z := Z.compare.
#[global] Instance Z_OrdLaws : OrdLaws Z.
Proof.
  constructor; unfold cmp, Z_Ord; intros.
  - apply Z.compare_eq_iff.
  - apply Z.compare_antisym.
  - rewrite !Z.compare_lt_iff in *. lia.
Qed.

#[global] Instance byte_Ord : Ord byte := fun a b => cmp (b2z a) (b2z b).
#[global] Instance byte_OrdLaws : OrdLaws byte.
Proof.
  constructor; unfold cmp, byte_Ord; intros.
  - rewrite cmp_eq. split; [apply (inj b2z)|congruence].
  - apply cmp_opp.
  - by eapply cmp_lt_trans.
Qed.

(** Tuples and byte strings compare lexicographically. *)
#[global] Instance prod_Ord {A B} `{Ord A, Ord B} : Ord (A * B) := fun x y =>
  match cmp x.1 y.1 with Eq => cmp x.2 y.2 | c => c end.

Fixpoint list_cmp {A} `{Ord A} (x y : list A) : comparison :=
  match x, y with
  | [], [] => Eq
  | [], _ :: _ => Lt
  | _ :: _, [] => Gt
  | a :: x, b :: y => match cmp a b with Eq => list_cmp x y | c => c end
  end.
#[global] Instance list_Ord {A} `{Ord A} : Ord (list A) := list_cmp.

Lemma cmp_refl {A} `{OrdLaws A} (a : A) : cmp a a = Eq.
Proof. by apply cmp_eq. Qed.

Lemma cmp_lt_gt {A} `{OrdLaws A} (a b : A) : cmp a b = Gt <-> cmp b a = Lt.
Proof. rewrite (cmp_opp a b). destruct (cmp a b); simpl; naive_solver. Qed.

Ltac cmp_eqs :=
  repeat match goal with
  | H : cmp _ _ = Eq |- _ => apply cmp_eq in H; subst
  | H : context [cmp ?a ?a] |- _ => rewrite (cmp_refl a) in H
  | |- context [cmp ?a ?a] => rewrite (cmp_refl a)
  end.

Lemma cmp_pair {A B} `{Ord A, Ord B} (x y : A * B) :
  cmp x y = match cmp x.1 y.1 with Eq => cmp x.2 y.2 | c => c end.
Proof. reflexivity. Qed.

#[global] Instance prod_OrdLaws {A B} `{OrdLaws A, OrdLaws B} : OrdLaws (A * B).
Proof.
  constructor; intros [a1 a2] [b1 b2]; [| |intros [c1 c2]]; rewrite ?cmp_pair; simpl.
  - destruct (cmp a1 b1) eqn:E1; cmp_eqs; [rewrite cmp_eq; naive_solver| |];
      (split; [done|]; intros [= -> ->]; cmp_eqs; done).
  - rewrite (cmp_opp a1 b1).
    destruct (cmp a1 b1) eqn:E1; simpl; [apply cmp_opp|done..].
  - destruct (cmp a1 b1) eqn:E1; cmp_eqs; [|intros _|done].
    + destruct (cmp b1 c1); eauto using cmp_lt_trans.
    + destruct (cmp b1 c1) eqn:E2; cmp_eqs; [by rewrite E1| |done].
      by rewrite (cmp_lt_trans _ _ _ E1 E2).
Qed.

#[global] Instance list_OrdLaws {A} `{OrdLaws A} : OrdLaws (list A).
Proof.
  constructor; unfold cmp, list_Ord.
  - induction a as [|x a IH]; intros [|y b]; simpl; try done.
    destruct (cmp x y) eqn:E; cmp_eqs; [rewrite IH; naive_solver| |];
      (split; [done|]; intros [= -> ->]; cmp_eqs; done).
  - induction a as [|x a IH]; intros [|y b]; simpl; try done.
    rewrite (cmp_opp x y). destruct (cmp x y); simpl; auto.
  - induction a as [|x a IH]; intros [|y b] [|z c]; simpl; try done.
    destruct (cmp x y) eqn:E1; cmp_eqs; [|intros _|done].
    + destruct (cmp y z); eauto.
    + destruct (cmp y z) eqn:E2; cmp_eqs; [by rewrite E1| |done].
      by rewrite (cmp_lt_trans _ _ _ E1 E2).
Qed.

#[global] Instance cle_trans {A} `{OrdLaws A} : Transitive (@cle A _).
Proof.
  intros a b c. unfold cle. intros Hab Hbc Hac. apply cmp_lt_gt in Hac.
  destruct (cmp a b) eqn:E1; cmp_eqs; [| |done].
  - by apply Hbc, cmp_lt_gt.
  - by apply Hbc, cmp_lt_gt; eapply cmp_lt_trans.
Qed.

#[global] Instance cle_total {A} `{OrdLaws A} : Total (@cle A _).
Proof.
  intros a b. unfold cle. rewrite (cmp_opp a b).
  destruct (cmp a b); simpl; auto; by left.
Qed.

Lemma cle_antisym {A} `{OrdLaws A} (a b : A) : cle a b -> cle b a -> a = b.
Proof.
  unfold cle. rewrite (cmp_opp a b). intros.
  apply cmp_eq. destruct (cmp a b); simpl in *; congruence.
Qed.

Lemma geb_cle {A} `{OrdLaws A} (a b : A) : geb a b = true <-> cle b a.
Proof.
  unfold geb, cle. rewrite (cmp_opp a b). destruct (cmp a b); simpl; naive_solver.
Qed.

Lemma geb_cle_false {A} `{OrdLaws A} (a b : A) : geb a b = false <-> ~ cle b a.
Proof. rewrite <-geb_cle. destruct (geb a b); naive_solver. Qed.

(** ** [BTreeMap] iteration: a finite map listed in ascending key order *)

Section btree.
Context {K V : Type} `{Countable K, Ord K}.

Definition key_le (a b : K * V) : Prop := cle a.1 b.1.

#[global] Instance key_le_dec a b : Decision (key_le a b).
Proof. unfold key_le. apply _. Defined.

Definition btree_iter (m : gmap K V) : list (K * V) :=
  merge_sort key_le (map_to_list m).

Lemma btree_iter_perm (m : gmap K V) : btree_iter m ≡ₚ map_to_list m.
Proof. apply merge_sort_Permutation. Qed.

Lemma elem_of_btree_iter (m : gmap K V) k v :
  (k, v) ∈ btree_iter m <-> m !! k = Some v.
Proof. rewrite btree_iter_perm. apply elem_of_map_to_list. Qed.

Lemma NoDup_fst_btree_iter (m : gmap K V) : NoDup (btree_iter m).*1.
Proof. rewrite btree_iter_perm. apply NoDup_fst_map_to_list. Qed.

Lemma btree_iter_sorted `{!OrdLaws K} (m : gmap K V) :
  StronglySorted key_le (btree_iter m).
Proof.
  apply StronglySorted_merge_sort.
  - intros a b c. unfold key_le. apply cle_trans.
  - intros a b. unfold key_le. apply cle_total.
Qed.

Lemma btree_iter_list_to_map (m : gmap K V) : list_to_map (btree_iter m) = m.
Proof.
  rewrite (list_to_map_proper _ (map_to_list m));
    [apply list_to_map_to_list|apply NoDup_fst_btree_iter|apply btree_iter_perm].
Qed.

Lemma length_btree_iter (m : gmap K V) : length (btree_iter m) = size m.
Proof. rewrite btree_iter_perm. apply length_map_to_list. Qed.
End btree.
