(* ===== verification/Moves.v ===== *)
(** Relations between the states before and after a method: a preorder that
    every update of a method respects holds of the whole run, whatever its
    outcome.  Shared by the two event-driven parts, the mesh and the server. *)

From S2P Require Import Prelude.

(** [m], run at [r], ends in a state related to [r]. *)
Definition moves {S E A} (R : relation S) (r : S) (m : method S E A) : Prop := R r (m r).1.
Abbreviation always R m := (forall r, moves R r m).

Section moves.
Context {S E : Type} (R : relation S) `{!PreOrder R}.

Lemma moves_ret {A} r (a : A) : moves R r (mret (M:=method S E) a).
Proof. by unfold moves. Qed.
Lemma moves_lift {A} r (o : outcome E A) : moves R r (lift o).
Proof. by unfold moves. Qed.
Lemma moves_update r f : R r (f r) -> moves (E:=E) R r (update f).
Proof. done. Qed.
Lemma moves_bind {A B} r (m : method S E A) (k : A -> method S E B) :
  moves R r m -> (forall r' a, m r = (r', Ok a) -> moves R r' (k a)) -> moves R r (m ≫= k).
Proof.
  unfold moves. intros Hm Hk. unfold mbind, method_bind.
  destruct (m r) as [r1 [a|x|]] eqn:E1; try done. etrans; [exact Hm|by apply Hk].
Qed.
Lemma moves_lift_bind {A B} r (o : outcome E A) (k : A -> method S E B) :
  (forall a, o = Ok a -> moves R r (k a)) -> moves R r (lift o ≫= k).
Proof. unfold moves, mbind, method_bind, lift. intros Hk. destruct o; [by apply Hk|done..]. Qed.
Lemma moves_self {B} r (k : S -> method S E B) : moves R r (k r) -> moves R r (self ≫= k).
Proof. done. Qed.
Lemma moves_for_each {A} r (m : A -> method S E unit) l :
  (forall x, always R (m x)) -> moves R r (for_each m l).
Proof.
  intros Hm. revert r. induction l as [|x l IH]; intros r; cbn [for_each]; [apply moves_ret|].
  apply moves_bind; [apply Hm|]. intros. apply IH.
Qed.

End moves.
