(* ===== verification/Crc32.v ===== *)
(** The hand-rolled IEEE 802.3 CRC32 of [src/storage/log.rs] ([crc32],
    [crc32_parts] and the lazily built [CRC_TABLE]), with a bit-serial
    reference and the error-detection result the log relies on. *)

From S2P Require Import Prelude.

Module Crc32.

(** One round of the table construction's inner loop. *)
Definition crc_round (c : Z) : Z :=
  if negb (Z.land c 1 =? 0) then Z.lxor 0xEDB88320 (Z.shiftr c 1) else Z.shiftr c 1.

(** The closure given to [CRC_TABLE.get_or_init]: eight rounds per index. *)
Definition crc_entry (i : Z) : Z := Nat.iter 8 crc_round i.
Definition CRC_TABLE : list Z := crc_entry <$> seqZ 0 256.

(** Body of the byte loop; the index is masked to eight bits, so it is
    always inside the table. *)
Definition crc_step (c : Z) (b : byte) : Z :=
  Z.lxor (nth (Z.to_nat (Z.land (Z.lxor c (b2z b)) 0xFF)) CRC_TABLE 0) (Z.shiftr c 8).

Definition crc32_parts (a b : bytes) : Z :=
  Z.lxor (fold_left crc_step (a ++ b) 0xFFFFFFFF) 0xFFFFFFFF.

Definition crc32 (data : bytes) : Z := crc32_parts data [].

(** ** Bit-serial reference *)

(** The textbook reflected CRC: xor the byte in, then divide bit by bit. *)
Definition crc_step_ref (c : Z) (b : byte) : Z :=
  Nat.iter 8 crc_round (Z.lxor c (b2z b)).

Definition crc32_ref (data : bytes) : Z :=
  Z.lxor (fold_left crc_step_ref data 0xFFFFFFFF) 0xFFFFFFFF.

(** ** Linearity of a round *)

Definition is_u32 (z : Z) : Prop := 0 <= z < 2 ^ 32.

Lemma land_1_odd c : negb (Z.land c 1 =? 0) = Z.odd c.
Proof.
  change 1 with (Z.ones 1). rewrite Z.land_ones by lia.
  rewrite Zmod_odd. by destruct (Z.odd c).
Qed.

(** Decides an equation between xors bit by bit. *)
Ltac xor_bits :=
  apply Z.bits_inj'; intros ? _; rewrite !Z.lxor_spec, ?Z.bits_0;
  repeat match goal with |- context [Z.testbit ?a ?i] => destruct (Z.testbit a i) end;
  reflexivity.

Lemma crc_round_lxor a b : crc_round (Z.lxor a b) = Z.lxor (crc_round a) (crc_round b).
Proof.
  unfold crc_round. rewrite !land_1_odd, Z.shiftr_lxor, <-!Z.bit0_odd, Z.lxor_spec.
  generalize 0xEDB88320 as p. intros p.
  destruct (Z.testbit a 0), (Z.testbit b 0); simpl; xor_bits.
Qed.

Lemma crc_rounds_lxor n a b :
  Nat.iter n crc_round (Z.lxor a b) = Z.lxor (Nat.iter n crc_round a) (Nat.iter n crc_round b).
Proof. induction n as [|n IH]; [done|]. by rewrite !Nat.iter_succ, IH, crc_round_lxor. Qed.

(** A value whose low [n] bits are clear is only shifted by [n] rounds. *)
Lemma crc_rounds_high n c :
  Nat.iter n crc_round (Z.shiftl c (Z.of_nat n)) = c.
Proof.
  revert c. induction n as [|n IH]; intros c; [apply Z.shiftl_0_r|].
  rewrite Nat.iter_succ_r. rewrite <-(IH c) at 2. f_equal.
  unfold crc_round. rewrite land_1_odd, <-Z.bit0_odd, Z.shiftl_spec_low by lia. simpl.
  rewrite Z.shiftr_shiftl_l by lia. f_equal. lia.
Qed.

Lemma split_low8 c : 0 <= c -> c = Z.lxor (Z.land c 255) (Z.shiftl (Z.shiftr c 8) 8).
Proof.
  intros. apply Z.bits_inj'. intros i Hi.
  rewrite Z.lxor_spec, Z.land_spec, Z.shiftl_spec by lia.
  change 255 with (Z.ones 8). rewrite Z.testbit_ones_nonneg by lia.
  destruct (Z.ltb_spec i 8).
  - rewrite andb_true_r, (Z.testbit_neg_r _ (i - 8)) by lia. by rewrite xorb_false_r.
  - rewrite andb_false_r, Z.shiftr_spec by lia. rewrite xorb_false_l. f_equal. lia.
Qed.

Lemma shiftr8_byte b : Z.shiftr (b2z b) 8 = 0.
Proof. pose proof (b2z_range b). rewrite Z.shiftr_div_pow2 by lia. by apply Z.div_small. Qed.

Lemma crc_table_lookup i : 0 <= i < 256 -> nth (Z.to_nat i) CRC_TABLE 0 = crc_entry i.
Proof.
  intros Hi. unfold CRC_TABLE.
  assert ((crc_entry <$> seqZ 0 256) !! Z.to_nat i = Some (crc_entry i)) as E.
  { rewrite list_lookup_fmap, lookup_seqZ_lt by lia. simpl. do 2 f_equal. lia. }
  rewrite nth_lookup. by rewrite E.
Qed.

Lemma land_255_range x : 0 <= Z.land x 255 < 256.
Proof.
  change 255 with (Z.ones 8). rewrite Z.land_ones by lia. apply Z.mod_pos_bound. lia.
Qed.

Lemma crc_step_eq c b : 0 <= c -> crc_step c b = crc_step_ref c b.
Proof.
  intros Hc. pose proof (b2z_range b).
  unfold crc_step, crc_step_ref. set (x := Z.lxor c (b2z b)).
  assert (0 <= x) by (apply Z.lxor_nonneg; lia).
  rewrite crc_table_lookup by apply land_255_range.
  rewrite (split_low8 x) at 2 by done. rewrite crc_rounds_lxor. f_equal.
  change 8 with (Z.of_nat 8) at 2. rewrite crc_rounds_high.
  subst x. by rewrite Z.shiftr_lxor, shiftr8_byte, Z.lxor_0_r.
Qed.

(** ** Range *)

Lemma lxor_u32 a b : is_u32 a -> is_u32 b -> is_u32 (Z.lxor a b).
Proof.
  unfold is_u32. intros Ha Hb.
  assert (0 <= Z.lxor a b) by (apply Z.lxor_nonneg; lia). split; [done|].
  destruct (Z.eq_dec (Z.lxor a b) 0) as [->|]; [lia|].
  apply Z.log2_lt_pow2; [lia|].
  eapply Z.le_lt_trans; [apply Z.log2_lxor; lia|].
  apply Z.max_lub_lt.
  - destruct (Z.eq_dec a 0) as [->|]; [simpl; lia|apply Z.log2_lt_pow2; lia].
  - destruct (Z.eq_dec b 0) as [->|]; [simpl; lia|apply Z.log2_lt_pow2; lia].
Qed.

Lemma shiftr_lt c n : 0 <= n -> is_u32 c -> is_u32 (Z.shiftr c n).
Proof.
  unfold is_u32. intros Hn Hc. rewrite Z.shiftr_div_pow2 by done.
  pose proof (Z.pow_pos_nonneg 2 n ltac:(lia) Hn).
  split; [apply Z.div_pos; lia|]. apply Z.div_lt_upper_bound; nia.
Qed.

Lemma byte_u32 b : is_u32 (b2z b).
Proof. unfold is_u32. pose proof (b2z_range b). lia. Qed.

Lemma crc_round_u32 c : is_u32 c -> is_u32 (crc_round c).
Proof.
  intros. unfold crc_round.
  case_match; [apply lxor_u32; [unfold is_u32; lia|]|]; apply shiftr_lt; auto; lia.
Qed.

Lemma crc_rounds_u32 n c : is_u32 c -> is_u32 (Nat.iter n crc_round c).
Proof. intros. induction n; [done|]. rewrite Nat.iter_succ. by apply crc_round_u32. Qed.

Lemma crc_step_ref_u32 c b : is_u32 c -> is_u32 (crc_step_ref c b).
Proof. intros. apply crc_rounds_u32, lxor_u32; auto using byte_u32. Qed.

Lemma crc_fold_ref_u32 l c : is_u32 c -> is_u32 (fold_left crc_step_ref l c).
Proof. revert c. induction l; simpl; auto using crc_step_ref_u32. Qed.

Lemma crc_fold_eq l c : is_u32 c -> fold_left crc_step l c = fold_left crc_step_ref l c.
Proof.
  revert c. induction l as [|b l IH]; intros c Hc; [done|]. simpl.
  rewrite crc_step_eq by (unfold is_u32 in Hc; lia). apply IH. by apply crc_step_ref_u32.
Qed.

Lemma crc_init_u32 : is_u32 0xFFFFFFFF.
Proof. unfold is_u32. lia. Qed.

Lemma crc32_parts_ref a b : crc32_parts a b = crc32_ref (a ++ b).
Proof. unfold crc32_parts, crc32_ref. by rewrite crc_fold_eq by apply crc_init_u32. Qed.

Lemma crc32_parts_u32 a b : is_u32 (crc32_parts a b).
Proof.
  rewrite crc32_parts_ref. apply lxor_u32; [|apply crc_init_u32].
  apply crc_fold_ref_u32, crc_init_u32.
Qed.

(** ** Error detection *)

(** The top bit of a round's result says whether the polynomial was added,
    so a round loses nothing. *)
Lemma testbit_31_shiftr c : is_u32 c -> Z.testbit (Z.shiftr c 1) 31 = false.
Proof.
  unfold is_u32. intros. rewrite Z.shiftr_spec by lia.
  destruct (Z.eq_dec c 0) as [->|]; [apply Z.testbit_0_l|].
  apply Z.bits_above_log2; [lia|]. apply Z.log2_lt_pow2; lia.
Qed.

Lemma crc_round_top c : is_u32 c -> Z.testbit (crc_round c) 31 = Z.odd c.
Proof.
  intros. unfold crc_round. rewrite land_1_odd. destruct (Z.odd c);
    rewrite ?Z.lxor_spec, testbit_31_shiftr by done; done.
Qed.

Lemma shiftr1_odd_inj a b : Z.odd a = Z.odd b -> Z.shiftr a 1 = Z.shiftr b 1 -> a = b.
Proof.
  rewrite !Z.shiftr_div_pow2 by lia. change (2 ^ 1) with 2. intros E1 E2.
  rewrite (Z.div_mod a 2), (Z.div_mod b 2), E2 by lia. f_equal.
  by rewrite !Zmod_odd, E1.
Qed.

Lemma lxor_inj_l k a b : Z.lxor k a = Z.lxor k b -> a = b.
Proof.
  intros E. rewrite <-(Z.lxor_0_l a), <-(Z.lxor_nilpotent k), Z.lxor_assoc, E.
  by rewrite <-Z.lxor_assoc, Z.lxor_nilpotent, Z.lxor_0_l.
Qed.

Lemma lxor_inj_r k a b : Z.lxor a k = Z.lxor b k -> a = b.
Proof. rewrite !(Z.lxor_comm _ k). apply lxor_inj_l. Qed.

Lemma crc_round_inj a b : is_u32 a -> is_u32 b -> crc_round a = crc_round b -> a = b.
Proof.
  intros Ha Hb E. assert (Z.odd a = Z.odd b) as Eo.
  { by rewrite <-!crc_round_top, E. }
  apply shiftr1_odd_inj; [done|]. unfold crc_round in E. rewrite !land_1_odd, Eo in E.
  destruct (Z.odd b); [by eapply lxor_inj_l|done].
Qed.

Lemma crc_rounds_inj n a b : is_u32 a -> is_u32 b ->
  Nat.iter n crc_round a = Nat.iter n crc_round b -> a = b.
Proof.
  intros Ha Hb. induction n as [|n IH]; [done|]. rewrite !Nat.iter_succ. intros E.
  apply IH. by apply crc_round_inj; [apply crc_rounds_u32..|].
Qed.

Lemma crc_step_ref_inj_l c c' b : is_u32 c -> is_u32 c' ->
  crc_step_ref c b = crc_step_ref c' b -> c = c'.
Proof.
  intros Hc Hc' E. apply crc_rounds_inj in E; [|apply lxor_u32; auto using byte_u32..].
  by eapply lxor_inj_r.
Qed.

Lemma crc_step_ref_inj_r c b b' : is_u32 c ->
  crc_step_ref c b = crc_step_ref c b' -> b = b'.
Proof.
  intros Hc E. apply crc_rounds_inj in E; [|apply lxor_u32; auto using byte_u32..].
  apply (inj b2z). by eapply lxor_inj_l.
Qed.

Lemma crc_fold_ref_inj l c c' : is_u32 c -> is_u32 c' ->
  fold_left crc_step_ref l c = fold_left crc_step_ref l c' -> c = c'.
Proof.
  revert c c'. induction l as [|b l IH]; intros c c' Hc Hc' E; [done|].
  apply (crc_step_ref_inj_l _ _ b); [done..|].
  apply IH; [by apply crc_step_ref_u32..|exact E].
Qed.

Lemma crc32_parts_detects l1 x y l2 a b a' b' :
  a ++ b = l1 ++ x :: l2 -> a' ++ b' = l1 ++ y :: l2 ->
  crc32_parts a b = crc32_parts a' b' -> x = y.
Proof.
  intros E1 E2 E. rewrite !crc32_parts_ref, E1, E2 in E. unfold crc32_ref in E.
  apply lxor_inj_r in E.
  rewrite !fold_left_app in E. cbn [fold_left] in E.
  assert (is_u32 (fold_left crc_step_ref l1 0xFFFFFFFF))
    by apply crc_fold_ref_u32, crc_init_u32.
  apply crc_fold_ref_inj in E; [|by apply crc_step_ref_u32..].
  by eapply crc_step_ref_inj_r.
Qed.

(** The table-driven CRC32 computes the bit-serial IEEE 802.3 reference
    on every input. *)
Theorem crc32_table_correct (data : bytes) : crc32 data = crc32_ref data.
Proof. unfold crc32. by rewrite crc32_parts_ref, app_nil_r. Qed.

(** The known answer of the test suite. *)
Example crc32_known_answer : crc32 (bs "123456789") = 0xCBF43926.
Proof. vm_compute. reflexivity. Qed.

End Crc32.
