(* ===== verification/LogFormat.v ===== *)
(** The record format of the append log: [Record] of [src/storage/log.rs]
    ([to_bytes], [payload_bytes], [parse_chain_impl], [parse_payload],
    [record_hash]) and the storage errors of [src/storage/mod.rs]. *)

From S2P Require Import Prelude Crc32.
Import Crc32.

(** ** Errors *)

(** The [std::io::Error]s that the code makes or tells apart. *)
Inductive io_error :=
| AlreadyExists (file : bytes)
| UnexpectedEof
| RefusingToCompact (peers : nat)
| FileNotFound.

(** [StorageError]; a [detail] is the message of a [Corrupt] with the values
    the code formats into it, [NonFinal...] and [RecordAt] being those of
    recovery and the last group those of [Store]. *)
Inductive StorageError :=
| Corrupt (ns : option bytes) (d : detail)
| Io (msg : io_error)
| NotFound (x : bytes)
| NoScope
| NamespaceExists (n : bytes)
| BadName (n : bytes)
| QuotaExceeded (ns : bytes) (limit : Z)
with detail :=
| ShortHeader | BadRecordTag (t : byte) | LenMismatch (declared actual : Z)
| CrcMismatch | ChainViolated
| BatchCountOverruns | BatchSubOpOverruns | BadSubOpTag (t : byte)
| KeyLenOverruns | HlcOverruns | KeysOverrun | ValLenOverruns | ExpiresOverruns
| NonFinalPartialHeader (seg : Z) (pos : nat)
| BadTagAt (t : byte) (off : Z)
| NonFinalLength (rec_len : Z) (seg : Z)
| RecordAt (seq off : Z) (e : StorageError)
| OffsetBeyondEnd (off : Z)
| SnapTruncated | SnapTrailing | SnapTooShort | SnapMagic
| BadPolicyByte (v : byte) | BadEntryTag (v : byte)
| SnapDirGone | PolicyDisagrees | NoPolicy | SnapAhead (snap log : Z)
| HeadMismatch | SidecarLength | NotRegister | BadTag (t : byte).

Abbreviation res := (outcome StorageError).

Definition corrupt (d : detail) : StorageError := Corrupt None d.

(** ** The hash of the [sha2] crate

    SHA-256 itself is a dependency; what the log uses of it is a function of
    the bytes fed to it whose digest has 32 bytes. *)
Class Sha256 := {
  sha256 : bytes -> bytes;
  sha256_length m : length (sha256 m) = 32%nat;
}.

(** A stand-in digest that lets the definitions be evaluated: the CRC32 of
    the message repeated eight times. *)
Program Definition toy_sha256 : Sha256 := {|
  sha256 m := mjoin (replicate 8 (le_bytes 4 (crc32 m)));
|}.
Next Obligation. intros m. cbn -[le_bytes]. rewrite !length_app, !length_le_bytes. done. Qed.

Module LogFormat.

(** ** Tags and layout constants *)

Definition TAG_PUT : byte := Byte.x01.
Definition TAG_DEL : byte := Byte.x02.
Definition TAG_PUT_TTL : byte := Byte.x03.
Definition TAG_SCHEMA : byte := Byte.x04.
Definition TAG_INDEX : byte := Byte.x05.
Definition TAG_BATCH : byte := Byte.x06.
Definition SEGMENT_BYTES : Z := 64 * 1024 * 1024.
Definition HEADER_LEN : nat := 41.

Definition zero32 : bytes := replicate 32 Byte.x00.

(** One parsed record; a batch carries its sub-ops in payload order. *)
Inductive record := mkRecord {
  tag : byte;
  key : bytes;
  hlc : Z;
  replica : bytes;
  author : bytes;
  value : bytes;
  expires_at : Z;
  ops : list record;
}.

(** The tag test shared by [parse_chain_impl] and recovery. *)
Definition valid_tag (t : byte) : bool :=
  negb (negb (bool_decide (t = TAG_PUT)) && negb (bool_decide (t = TAG_DEL))
        && negb (bool_decide (t = TAG_PUT_TTL)) && negb (bool_decide (t = TAG_SCHEMA))
        && negb (bool_decide (t = TAG_INDEX)) && negb (bool_decide (t = TAG_BATCH))).

Definition valid_sub_tag (t : byte) : bool :=
  negb (negb (bool_decide (t = TAG_PUT)) && negb (bool_decide (t = TAG_PUT_TTL))
        && negb (bool_decide (t = TAG_DEL))).

Lemma valid_tag_iff t : valid_tag t = true <->
  t = TAG_PUT \/ t = TAG_DEL \/ t = TAG_PUT_TTL \/ t = TAG_SCHEMA \/ t = TAG_INDEX \/ t = TAG_BATCH.
Proof. unfold valid_tag. repeat case_bool_decide; naive_solver. Qed.

Lemma valid_sub_tag_iff t : valid_sub_tag t = true <->
  t = TAG_PUT \/ t = TAG_PUT_TTL \/ t = TAG_DEL.
Proof. unfold valid_sub_tag. repeat case_bool_decide; naive_solver. Qed.

(** ** Serialization *)

Definition payload_bytes (r : record) : bytes :=
  let key_len := Z.of_nat (length (key r)) in
  let val_len := Z.of_nat (length (value r)) in
  le_bytes 4 key_len ++ key r ++ le_bytes 8 (hlc r) ++ replica r ++ author r
    ++ le_bytes 8 val_len ++ value r
    ++ (if bool_decide (tag r = TAG_PUT_TTL) then le_bytes 8 (expires_at r) else []).

Definition batch_payload (l : list record) : bytes :=
  le_bytes 4 (Z.of_nat (length l)) ++ mjoin ((fun op => tag op :: payload_bytes op) <$> l).

Definition to_bytes (r : record) (prev : bytes) : bytes :=
  let payload := if bool_decide (tag r = TAG_BATCH) then batch_payload (ops r)
                 else payload_bytes r in
  let out := tag r :: le_bytes 4 (Z.of_nat (length payload)) ++ replicate 4 Byte.x00
               ++ prev ++ payload in
  let crc := crc32_parts (take 1 out) (drop 9 out) in
  take 5 out ++ le_bytes 4 crc ++ drop 9 out.

(** ** Parsing *)

(** [u32::from_le_bytes(bytes[p..p + 4])] and its 64-bit form. *)
Definition get_u32 (l : bytes) (p : nat) : res Z := le_val <$> or_panic (slice l p (p + 4)).
Definition get_u64 (l : bytes) (p : nat) : res Z := le_val <$> or_panic (slice l p (p + 8)).

Definition parse_payload (t : byte) (l : bytes) (p : nat) : res (record * nat) :=
  _ ← guard_err (length l <? p + 4)%nat (corrupt KeyLenOverruns);
  key_len ← get_u32 l p;
  let p := (p + 4)%nat in
  _ ← guard_err (Z.of_nat (length l - p) <? key_len) (corrupt KeyLenOverruns);
  k ← or_panic (slice l p (p + Z.to_nat key_len));
  let p := (p + Z.to_nat key_len)%nat in
  _ ← guard_err (length l <? p + 8)%nat (corrupt HlcOverruns);
  h ← get_u64 l p;
  let p := (p + 8)%nat in
  _ ← guard_err (length l <? p + 64)%nat (corrupt KeysOverrun);
  rep ← or_panic (slice l p (p + 32));
  let p := (p + 32)%nat in
  aut ← or_panic (slice l p (p + 32));
  let p := (p + 32)%nat in
  (* no bound check precedes this read *)
  val_len ← get_u64 l p;
  let p := (p + 8)%nat in
  _ ← guard_err (Z.of_nat (length l - p) <? val_len) (corrupt ValLenOverruns);
  v ← or_panic (slice l p (p + Z.to_nat val_len));
  let p := (p + Z.to_nat val_len)%nat in
  if bool_decide (t = TAG_PUT_TTL) then
    _ ← guard_err (length l <? p + 8)%nat (corrupt ExpiresOverruns);
    exp ← get_u64 l p;
    Ok (mkRecord t k h rep aut v exp [], (p + 8)%nat)
  else Ok (mkRecord t k h rep aut v 0 [], p).

(** The sub-op loop.  Every iteration consumes at least a byte, so
    [length l] iterations reach the "sub-op overruns" exit; that is the fuel. *)
Fixpoint parse_ops (fuel : nat) (l : bytes) (count : Z) (p : nat) : res (list record * nat) :=
  if count <=? 0 then Ok ([], p) else
  match fuel with
  | O => Err (corrupt BatchSubOpOverruns)
  | S fuel =>
      _ ← guard_err (length l <=? p)%nat (corrupt BatchSubOpOverruns);
      sub_tag ← or_panic (l !! p);
      _ ← guard_err (negb (valid_sub_tag sub_tag)) (corrupt (BadSubOpTag sub_tag));
      '(sub, np) ← parse_payload sub_tag l (p + 1);
      '(rest, e) ← parse_ops fuel l (count - 1) np;
      Ok (sub :: rest, e)
  end.

Definition parse_batch (l : bytes) : res (record * nat) :=
  let p := HEADER_LEN in
  _ ← guard_err (length l <? p + 4)%nat (corrupt BatchCountOverruns);
  count ← get_u32 l p;
  '(os, e) ← parse_ops (length l) l count (p + 4);
  let '(b_hlc, b_replica, b_author) :=
    match os with
    | [] => (0, zero32, zero32)
    | o :: _ => (hlc o, replica o, author o)
    end in
  Ok (mkRecord TAG_BATCH [] b_hlc b_replica b_author [] 0 os, e).

Definition parse_chain (l : bytes) (expected_prev : option bytes) : res (record * bytes) :=
  _ ← guard_err (length l <? HEADER_LEN)%nat (corrupt ShortHeader);
  t ← or_panic (l !! 0%nat);
  _ ← guard_err (negb (valid_tag t)) (corrupt (BadRecordTag t));
  declared_len ← get_u32 l 1;
  let payload_len := Z.of_nat (length l - HEADER_LEN) in
  _ ← guard_err (negb (declared_len =? payload_len)) (corrupt (LenMismatch declared_len payload_len));
  stored_crc ← get_u32 l 5;
  let calc_crc := crc32_parts (take 1 l) (drop 9 l) in
  _ ← guard_err (negb (calc_crc =? stored_crc)) (corrupt CrcMismatch);
  prev ← or_panic (slice l 9 41);
  _ ← match expected_prev with
      | Some exp => guard_err (negb (bool_decide (prev = exp))) (corrupt ChainViolated)
      | None => Ok tt
      end;
  '(rec, _) ← if bool_decide (t = TAG_BATCH) then parse_batch l
              else parse_payload t l HEADER_LEN;
  Ok (rec, prev).

Definition parse (l : bytes) (expected_prev : bytes) : res (record * bytes) :=
  parse_chain l (Some expected_prev).

(** The chain link: sha256 over [prev || full_record_bytes]. *)
Definition record_hash `{Sha256} (prev l : bytes) : bytes := sha256 (prev ++ l).

(** ** Well-formed records: what the Rust types and [Store] guarantee *)

Definition wf_op (r : record) : Prop :=
  Z.of_nat (length (key r)) < 2 ^ 32 /\ is_u64 (hlc r)
  /\ length (replica r) = 32%nat /\ length (author r) = 32%nat
  /\ Z.of_nat (length (value r)) < 2 ^ 64 /\ is_u64 (expires_at r)
  /\ (tag r <> TAG_PUT_TTL -> expires_at r = 0) /\ ops r = [].

(** A standalone record, or a batch as [put_batch] builds it, mirroring its
    first sub-op (an empty one, which only a peer can send, has zeros); the
    payload fits the 32-bit length field. *)
Definition wf_record (r : record) : Prop :=
  (tag r <> TAG_BATCH /\ valid_tag (tag r) = true /\ wf_op r
   /\ Z.of_nat (length (payload_bytes r)) < 2 ^ 32)
  \/ (tag r = TAG_BATCH /\ key r = [] /\ value r = [] /\ expires_at r = 0
      /\ Forall (fun o => valid_sub_tag (tag o) = true /\ wf_op o) (ops r)
      /\ Z.of_nat (length (batch_payload (ops r))) < 2 ^ 32
      /\ match ops r with
         | [] => hlc r = 0 /\ replica r = zero32 /\ author r = zero32
         | o :: _ => hlc r = hlc o /\ replica r = replica o /\ author r = author o
         end).

(** ** The layout of a serialized record *)

Definition payload (r : record) : bytes :=
  if bool_decide (tag r = TAG_BATCH) then batch_payload (ops r) else payload_bytes r.

Lemma to_bytes_layout r prev :
  to_bytes r prev =
    [tag r] ++ le_bytes 4 (Z.of_nat (length (payload r)))
      ++ le_bytes 4 (crc32_parts [tag r] (prev ++ payload r)) ++ prev ++ payload r.
Proof. unfold to_bytes. fold (payload r). reflexivity. Qed.

Lemma length_to_bytes r prev : length prev = 32%nat ->
  length (to_bytes r prev) = (HEADER_LEN + length (payload r))%nat.
Proof.
  intros Hp. rewrite to_bytes_layout, !length_app, !length_le_bytes, Hp. unfold HEADER_LEN.
  simpl. lia.
Qed.

Lemma length_payload_bytes r : wf_op r ->
  length (payload_bytes r) =
    (84 + length (key r) + length (value r)
     + if bool_decide (tag r = TAG_PUT_TTL) then 8 else 0)%nat.
Proof.
  intros (?&?&?&?&?&?&?&?). unfold payload_bytes.
  rewrite !length_app, !length_le_bytes.
  case_bool_decide; rewrite ?length_le_bytes; simpl; lia.
Qed.

(** ** Reading back a payload section *)

#[local] Opaque le_bytes.

Ltac field_eq := subst; rewrite <-?app_assoc; reflexivity.
Ltac field_len :=
  subst; repeat (rewrite length_app || rewrite length_le_bytes); simpl in *; lia.

Lemma get_u32_field a z c l p :
  l = a ++ le_bytes 4 z ++ c -> p = length a -> 0 <= z < 2 ^ 32 -> get_u32 l p = Ok z.
Proof.
  intros -> -> Hz. unfold get_u32.
  erewrite slice_field; [|reflexivity..|by rewrite length_le_bytes].
  cbn -[le_val le_bytes]. by rewrite le_val_bytes_small by (simpl; lia).
Qed.

Lemma get_u64_field a z c l p :
  l = a ++ le_bytes 8 z ++ c -> p = length a -> is_u64 z -> get_u64 l p = Ok z.
Proof.
  unfold is_u64. intros -> -> Hz. unfold get_u64.
  erewrite slice_field; [|reflexivity..|by rewrite length_le_bytes].
  cbn -[le_val le_bytes]. by rewrite le_val_bytes_small by (simpl; lia).
Qed.

Lemma panic_field {E} a b c (l : bytes) i j :
  l = a ++ b ++ c -> i = length a -> j = (i + length b)%nat ->
  or_panic (E := E) (slice l i j) = Ok b.
Proof. intros. by erewrite slice_field. Qed.

Ltac step_guard :=
  step_by ltac:(apply guard_err_ok;
    first [apply Nat.ltb_ge | apply Nat.leb_gt | apply Z.ltb_ge]; field_len).
Ltac step_field lem :=
  step_by ltac:(apply lem; solve [field_eq | field_len | unfold is_u64 in *; lia]).

Lemma parse_payload_field r pre post p :
  wf_op r -> p = length pre ->
  parse_payload (tag r) (pre ++ payload_bytes r ++ post) p
    = Ok (r, (p + length (payload_bytes r))%nat).
Proof.
  intros Hwf ->. rewrite length_payload_bytes by done.
  destruct Hwf as (Hk & Hh & Hr & Ha & Hv & He & He0 & Ho).
  destruct r as [t k h rep aut v ex os]; simpl in *. subst os.
  unfold payload_bytes; simpl.
  set (kl := Z.of_nat (length k)). set (vl := Z.of_nat (length v)).
  set (tt' := if bool_decide (t = TAG_PUT_TTL) then le_bytes 8 ex else []).
  assert (length tt' = if bool_decide (t = TAG_PUT_TTL) then 8 else 0)%nat as Htt.
  { subst tt'. case_bool_decide; [apply length_le_bytes|done]. }
  remember (pre ++ (le_bytes 4 kl ++ k ++ le_bytes 8 h ++ rep ++ aut
    ++ le_bytes 8 vl ++ v ++ tt') ++ post) as l eqn:El.
  assert (length l = length pre + 4 + length k + 8 + 32 + 32 + 8 + length v
    + length tt' + length post)%nat as Hl by field_len.
  assert (Z.to_nat kl = length k) as Ekl by (subst kl; lia).
  assert (Z.to_nat vl = length v) as Evl by (subst vl; lia).
  unfold parse_payload. step_guard.
  step_field (get_u32_field pre kl (k ++ le_bytes 8 h ++ rep ++ aut ++ le_bytes 8 vl
    ++ v ++ tt' ++ post)). rewrite Ekl. step_guard.
  step_field (panic_field (E := StorageError) (pre ++ le_bytes 4 kl) k
    (le_bytes 8 h ++ rep ++ aut ++ le_bytes 8 vl ++ v ++ tt' ++ post)). step_guard.
  step_field (get_u64_field (pre ++ le_bytes 4 kl ++ k) h (rep ++ aut ++ le_bytes 8 vl
    ++ v ++ tt' ++ post)). step_guard.
  step_field (panic_field (E := StorageError) (pre ++ le_bytes 4 kl ++ k ++ le_bytes 8 h)
    rep (aut ++ le_bytes 8 vl ++ v ++ tt' ++ post)).
  step_field (panic_field (E := StorageError) (pre ++ le_bytes 4 kl ++ k ++ le_bytes 8 h
    ++ rep) aut (le_bytes 8 vl ++ v ++ tt' ++ post)).
  step_field (get_u64_field (pre ++ le_bytes 4 kl ++ k ++ le_bytes 8 h ++ rep ++ aut) vl
    (v ++ tt' ++ post)). rewrite Evl. step_guard.
  step_field (panic_field (E := StorageError) (pre ++ le_bytes 4 kl ++ k ++ le_bytes 8 h
    ++ rep ++ aut ++ le_bytes 8 vl) v (tt' ++ post)).
  subst tt'. case_bool_decide.
  - step_guard.
    step_field (get_u64_field (pre ++ le_bytes 4 kl ++ k ++ le_bytes 8 h ++ rep ++ aut
      ++ le_bytes 8 vl ++ v) ex post). do 2 f_equal. lia.
  - rewrite He0 by done. do 2 f_equal. lia.
Qed.

Lemma parse_ops_field l pre post fuel p :
  Forall (fun o => valid_sub_tag (tag o) = true /\ wf_op o) l ->
  p = length pre -> (length l <= fuel)%nat ->
  let body := mjoin ((fun op => tag op :: payload_bytes op) <$> l) in
  parse_ops fuel (pre ++ body ++ post) (Z.of_nat (length l)) p
    = Ok (l, (p + length body)%nat).
Proof.
  intros Hl. revert pre fuel p.
  induction Hl as [|o l [Ht Ho] Hl IH]; intros pre fuel p -> Hfuel body.
  { destruct fuel; simpl; do 2 f_equal; lia. }
  destruct fuel as [|fuel]; [simpl in Hfuel; lia|].
  subst body. cbn [fmap list_fmap mjoin list_join length parse_ops] in *.
  set (rest := mjoin ((fun op => tag op :: payload_bytes op) <$> l)) in *.
  destruct (Z.leb_spec (Z.of_nat (S (length l))) 0); [lia|].
  set (full := pre ++ _ ++ post).
  assert (full = pre ++ tag o :: payload_bytes o ++ rest ++ post) as Ef.
  { unfold full. by rewrite <-app_assoc. }
  step_by ltac:(apply guard_err_ok, Nat.leb_gt; rewrite Ef, length_app; simpl; lia).
  step_by ltac:(rewrite Ef, list_lookup_middle by done; reflexivity).
  step_by ltac:(apply guard_err_ok; by rewrite Ht).
  step_by ltac:(rewrite Ef; change (pre ++ tag o :: ?x) with (pre ++ [tag o] ++ x);
    rewrite app_assoc; apply parse_payload_field; [done|]; rewrite length_app; simpl; lia).
  replace (Z.of_nat (S (length l)) - 1) with (Z.of_nat (length l)) by lia.
  step_by ltac:(rewrite Ef;
    replace (pre ++ tag o :: payload_bytes o ++ rest ++ post)
      with ((pre ++ tag o :: payload_bytes o) ++ rest ++ post)
      by (by rewrite <-app_assoc);
    apply IH; [rewrite length_app; simpl; lia|lia]).
  do 2 f_equal. simpl. rewrite !length_app. fold rest. lia.
Qed.

Lemma length_ops_body (l : list record) :
  (length l <= length (mjoin ((fun op => tag op :: payload_bytes op) <$> l)))%nat.
Proof.
  induction l as [|o l IH]; [done|].
  rewrite fmap_cons, mjoin_cons, length_app. simpl. lia.
Qed.

Lemma parse_batch_field r pre :
  tag r = TAG_BATCH -> wf_record r -> length pre = HEADER_LEN ->
  exists e, parse_batch (pre ++ batch_payload (ops r)) = Ok (r, e).
Proof.
  intros Ht [(?&_)|(_ & Hk & Hv & He & Hops & Hlen & Hfirst)] Hpre; [done|].
  set (l := ops r) in *. unfold batch_payload in *.
  set (body := mjoin ((fun op => tag op :: payload_bytes op) <$> l)) in *.
  rewrite length_app, length_le_bytes in Hlen.
  pose proof (length_ops_body l) as Hbody. fold body in Hbody.
  exists (HEADER_LEN + 4 + length body)%nat. unfold parse_batch. cbv zeta.
  set (cnt := le_bytes 4 (Z.of_nat (length l))).
  assert (length cnt = 4%nat) as Hcnt by apply length_le_bytes.
  step_by ltac:(apply guard_err_ok, Nat.ltb_ge; rewrite !length_app; lia).
  step_by ltac:(apply (get_u32_field pre _ body); [done|done|lia]).
  step_by ltac:(
    replace (pre ++ cnt ++ body) with ((pre ++ cnt) ++ body ++ [])
      by (by rewrite app_nil_r, <-app_assoc);
    apply parse_ops_field; [done|rewrite length_app; lia|rewrite !length_app; lia]).
  subst l. destruct r as [t k h rep aut v ex os]; simpl in *. subst.
  destruct os as [|o os]; destruct Hfirst as (-> & -> & ->); reflexivity.
Qed.

(** ** The outer frame: tag, declared length and CRC *)

Definition frame_ok (l : bytes) : Prop :=
  (HEADER_LEN <= length l)%nat
  /\ (exists t, l !! 0%nat = Some t /\ valid_tag t = true)
  /\ le_val (take 4 (drop 1 l)) = Z.of_nat (length l - HEADER_LEN)
  /\ le_val (take 4 (drop 5 l)) = crc32_parts (take 1 l) (drop 9 l).

Lemma get_u32_range l p : (p + 4 <= length l)%nat ->
  get_u32 l p = Ok (le_val (take 4 (drop p l))).
Proof.
  intros. unfold get_u32. rewrite slice_in_range by lia.
  by replace (p + 4 - p)%nat with 4%nat by lia.
Qed.

(** What remains to be done once the frame is known to be good. *)
Definition parse_body (l : bytes) (t : byte) (ep : option bytes) : res (record * bytes) :=
  let prev := take 32 (drop 9 l) in
  _ ← match ep with
      | Some exp => guard_err (negb (bool_decide (prev = exp))) (corrupt ChainViolated)
      | None => Ok tt
      end;
  '(rec, _) ← if bool_decide (t = TAG_BATCH) then parse_batch l
              else parse_payload t l HEADER_LEN;
  Ok (rec, prev).

Lemma parse_chain_frame l ep t : frame_ok l -> l !! 0%nat = Some t ->
  parse_chain l ep = parse_body l t ep.
Proof.
  intros (Hlen & (t' & Ht & Hvt) & Hd & Hc) Et. simplify_eq. unfold parse_chain.
  assert (HEADER_LEN = 41%nat) by reflexivity.
  step_by ltac:(apply guard_err_ok, Nat.ltb_ge; lia).
  step_by ltac:(rewrite Ht; reflexivity).
  step_by ltac:(apply guard_err_ok; by rewrite Hvt).
  step_by ltac:(apply get_u32_range; lia).
  step_by ltac:(apply guard_err_ok; rewrite Hd, Z.eqb_refl; reflexivity).
  step_by ltac:(apply get_u32_range; lia).
  step_by ltac:(apply guard_err_ok; rewrite Hc, Z.eqb_refl; reflexivity).
  step_by ltac:(rewrite slice_in_range by lia; reflexivity).
  reflexivity.
Qed.

Lemma parse_chain_bad_frame l ep :
  frame_ok l \/ exists d, parse_chain l ep = Err (corrupt d).
Proof.
  unfold parse_chain.
  destruct (Nat.ltb_spec (length l) HEADER_LEN) as [|Hlen]; [by right; eexists|].
  destruct l as [|t l0] eqn:El; [unfold HEADER_LEN in Hlen; simpl in Hlen; lia|]. rewrite <-El in *.
  assert (l !! 0%nat = Some t) as Et by (by subst l).
  rewrite Et. cbn [guard_err or_panic mbind outcome_bind].
  destruct (valid_tag t) eqn:Ht; [|by right; eexists].
  assert (HEADER_LEN = 41%nat) by reflexivity.
  rewrite !get_u32_range by lia. cbn [negb guard_err mbind outcome_bind].
  destruct (Z.eqb_spec (le_val (take 4 (drop 1 l))) (Z.of_nat (length l - HEADER_LEN)))
    as [Hd|]; [|by right; eexists].
  destruct (Z.eqb_spec (crc32_parts (take 1 l) (drop 9 l)) (le_val (take 4 (drop 5 l))))
    as [Hc|]; [|by right; eexists].
  left. split_and!; eauto.
Qed.

Lemma to_bytes_frame r prev : length prev = 32%nat -> valid_tag (tag r) = true ->
  Z.of_nat (length (payload r)) < 2 ^ 32 -> frame_ok (to_bytes r prev).
Proof.
  intros Hp Ht Hlen. pose proof (length_to_bytes r prev Hp) as Hl.
  rewrite to_bytes_layout in *. set (pl := payload r) in *.
  pose proof (crc32_parts_u32 [tag r] (prev ++ pl)) as Hcrc. unfold is_u32 in Hcrc.
  set (crc := crc32_parts [tag r] (prev ++ pl)) in *.
  assert (length (le_bytes 4 (Z.of_nat (length pl))) = 4%nat) as L1 by apply length_le_bytes.
  assert (length (le_bytes 4 crc) = 4%nat) as L2 by apply length_le_bytes.
  split_and!.
  - lia.
  - by exists (tag r).
  - rewrite Hl. cbn [app drop]. rewrite drop_0, take_app_le, take_ge by lia.
    rewrite le_val_bytes_small; simpl; lia.
  - change (drop 5 ([tag r] ++ ?x)) with (drop 4 x).
    change (drop 9 ([tag r] ++ ?x)) with (drop 8 x).
    rewrite drop_app_length' by done. rewrite take_app_length' by done.
    rewrite le_val_bytes_small by (simpl; lia).
    reflexivity.
Qed.

Lemma wf_record_tag r : wf_record r -> valid_tag (tag r) = true.
Proof. intros [(_&?&_)|(Ht&_)]; [done|]. by rewrite Ht. Qed.

Lemma wf_record_payload r : wf_record r -> Z.of_nat (length (payload r)) < 2 ^ 32.
Proof.
  unfold payload. intros [(?&?&?&?)|(?&?&?&?&?&?&?)]; case_bool_decide; done.
Qed.

Lemma parse_chain_to_bytes r prev ep :
  wf_record r -> length prev = 32%nat -> (ep = None \/ ep = Some prev) ->
  parse_chain (to_bytes r prev) ep = Ok (r, prev).
Proof.
  intros Hwf Hp Hep.
  pose proof (to_bytes_frame r prev Hp (wf_record_tag r Hwf) (wf_record_payload r Hwf)) as Hf.
  rewrite (parse_chain_frame _ _ (tag r) Hf) by (by rewrite to_bytes_layout).
  set (hd := [tag r] ++ le_bytes 4 (Z.of_nat (length (payload r)))
               ++ le_bytes 4 (crc32_parts [tag r] (prev ++ payload r))).
  assert (to_bytes r prev = hd ++ prev ++ payload r) as El.
  { rewrite to_bytes_layout. unfold hd. by rewrite <-!app_assoc. }
  assert (length hd = 9%nat) as Hhd.
  { unfold hd. by rewrite !length_app, !length_le_bytes. }
  unfold parse_body. rewrite El, drop_app_length', take_app_length' by done. cbv zeta.
  step_by ltac:(destruct Hep as [->| ->]; [done|]; apply guard_err_ok;
    by rewrite bool_decide_eq_true_2).
  assert (length (hd ++ prev) = HEADER_LEN) as Hpre by (rewrite length_app; unfold HEADER_LEN; lia).
  rewrite app_assoc. unfold payload in *. case_bool_decide as Htag.
  - destruct (parse_batch_field r (hd ++ prev)) as [e ->]; done.
  - destruct Hwf as [(_&_&Ho&_)|(?&_)]; [|done].
    rewrite <-(app_nil_r (payload_bytes r)), parse_payload_field; done.
Qed.

(** ** Single-byte corruption *)

Lemma split_at {A} (l : list A) i b : l !! i = Some b ->
  l = take i l ++ b :: drop (S i) l /\ length (take i l) = i.
Proof.
  intros Hi. split; [by rewrite take_drop_middle|].
  apply lookup_lt_Some in Hi. rewrite length_take. lia.
Qed.

Lemma le_val_inj l l' : length l = length l' -> le_val l = le_val l' -> l = l'.
Proof.
  intros E Ev. by rewrite <-(le_bytes_val l), <-(le_bytes_val l'), E, Ev.
Qed.

(** A window that contains the changed position decodes differently. *)
Lemma window_changed (l : bytes) i b b' p n :
  l !! i = Some b -> b' <> b -> (p <= i < p + n)%nat -> (p + n <= length l)%nat ->
  le_val (take n (drop p (<[i:=b']> l))) <> le_val (take n (drop p l)).
Proof.
  intros Hi Hb Hp Hn E. apply le_val_inj in E.
  - apply (f_equal (.!! (i - p)%nat)) in E.
    rewrite !lookup_take_lt, !lookup_drop in E by lia.
    replace (p + (i - p))%nat with i in E by lia.
    rewrite list_lookup_insert_eq, Hi in E by (eapply lookup_lt_Some; eauto).
    by simplify_eq.
  - by rewrite !length_take, !length_drop, length_insert.
Qed.

Lemma window_same (l : bytes) i b' p n :
  (i < p \/ p + n <= i)%nat -> take n (drop p (<[i:=b']> l)) = take n (drop p l).
Proof.
  intros Hi. destruct Hi.
  - by rewrite drop_insert_lt.
  - rewrite drop_insert_ge by lia. by rewrite take_insert_ge by lia.
Qed.

Lemma crc_window_changed (l : bytes) i b b' :
  l !! i = Some b -> b' <> b -> (i = 0 \/ 9 <= i)%nat -> (9 <= length l)%nat ->
  crc32_parts (take 1 (<[i:=b']> l)) (drop 9 (<[i:=b']> l))
    <> crc32_parts (take 1 l) (drop 9 l).
Proof.
  intros Hi Hb Hr Hl E. destruct (split_at l i b Hi) as [El Ei].
  destruct Hr as [->|Hr].
  - destruct l as [|c l]; [done|]. simpl in Hi, E. simplify_eq.
    rewrite take_0 in E.
    apply Hb. by apply (crc32_parts_detects [] b' b (drop 8 l) [b'] (drop 8 l) [b] (drop 8 l)).
  - rewrite take_insert_ge, drop_insert_ge in E by lia.
    destruct (split_at (drop 9 l) (i - 9) b) as [Ed _].
    { rewrite lookup_drop. by replace (9 + (i - 9))%nat with i by lia. }
    apply Hb. eapply (crc32_parts_detects (take 1 l ++ take (i - 9) (drop 9 l)) b' b
      (drop (S (i - 9)) (drop 9 l))); [| |exact E].
    + rewrite <-app_assoc. f_equal. rewrite insert_take_drop; [done|].
      rewrite length_drop. apply lookup_lt_Some in Hi. lia.
    + by rewrite <-app_assoc, <-Ed.
Qed.

Lemma frame_ok_insert l i b b' :
  frame_ok l -> l !! i = Some b -> b' <> b -> ~ frame_ok (<[i:=b']> l).
Proof.
  intros (Hlen & _ & Hd & Hc) Hi Hb (_ & _ & Hd' & Hc').
  unfold HEADER_LEN in *. rewrite length_insert in Hd'.
  assert (i = 0 \/ 1 <= i < 5 \/ 5 <= i < 9 \/ 9 <= i)%nat as [Hr|[Hr|[Hr|Hr]]] by lia.
  - apply (crc_window_changed l i b b'); auto; [lia|].
    by rewrite <-Hc, <-Hc', window_same by lia.
  - apply (window_changed l i b b' 1 4); auto; [lia|]. by rewrite Hd, Hd'.
  - apply (window_changed l i b b' 5 4); auto; [lia|]. rewrite Hc, Hc'.
    rewrite take_insert_ge by lia. by rewrite drop_insert_lt by lia.
  - apply (crc_window_changed l i b b'); auto; [lia|].
    by rewrite <-Hc, <-Hc', window_same by lia.
Qed.

Lemma parse_chain_ok_frame l ep r p : parse_chain l ep = Ok (r, p) -> frame_ok l.
Proof. intros E. destruct (parse_chain_bad_frame l ep) as [|[d Hd]]; [done|congruence]. Qed.

(** ** The unchecked [val_len] read *)

(** The bytes of a record whose payload is [pl], with length and CRC right. *)
Definition framed (t : byte) (prev pl : bytes) : bytes :=
  [t] ++ le_bytes 4 (Z.of_nat (length pl)) ++ le_bytes 4 (crc32_parts [t] (prev ++ pl))
    ++ prev ++ pl.

(** [parse_payload] on a section that stops after the author. *)
Lemma parse_payload_no_val_len t pre k h rep aut p :
  p = length pre -> Z.of_nat (length k) < 2 ^ 32 -> is_u64 h ->
  length rep = 32%nat -> length aut = 32%nat ->
  parse_payload t (pre ++ le_bytes 4 (Z.of_nat (length k)) ++ k ++ le_bytes 8 h
                     ++ rep ++ aut) p = Panic.
Proof.
  intros -> Hk Hh Hr Ha. set (kl := Z.of_nat (length k)).
  remember (pre ++ le_bytes 4 kl ++ k ++ le_bytes 8 h ++ rep ++ aut) as l eqn:El.
  assert (length l = length pre + 4 + length k + 8 + 32 + 32)%nat as Hl by field_len.
  assert (Z.to_nat kl = length k) as Ekl by (subst kl; lia).
  unfold parse_payload. step_guard.
  step_field (get_u32_field pre kl (k ++ le_bytes 8 h ++ rep ++ aut)).
  rewrite Ekl. step_guard.
  step_field (panic_field (E := StorageError) (pre ++ le_bytes 4 kl) k
    (le_bytes 8 h ++ rep ++ aut)). step_guard.
  step_field (get_u64_field (pre ++ le_bytes 4 kl ++ k) h (rep ++ aut)). step_guard.
  step_field (panic_field (E := StorageError) (pre ++ le_bytes 4 kl ++ k ++ le_bytes 8 h)
    rep aut).
  step_by ltac:(apply (panic_field (E := StorageError) (pre ++ le_bytes 4 kl ++ k
    ++ le_bytes 8 h ++ rep) aut []);
    [rewrite app_nil_r; field_eq|field_len|field_len]).
  unfold get_u64, slice. rewrite decide_False by lia. reflexivity.
Qed.

Lemma framed_frame_ok t prev pl : length prev = 32%nat -> valid_tag t = true ->
  Z.of_nat (length pl) < 2 ^ 32 -> frame_ok (framed t prev pl).
Proof.
  intros Hp Ht Hlen. unfold framed.
  pose proof (crc32_parts_u32 [t] (prev ++ pl)) as Hcrc. unfold is_u32 in Hcrc.
  set (crc := crc32_parts [t] (prev ++ pl)) in *.
  assert (length (le_bytes 4 (Z.of_nat (length pl))) = 4%nat) as L1 by apply length_le_bytes.
  assert (length (le_bytes 4 crc) = 4%nat) as L2 by apply length_le_bytes.
  split_and!.
  - rewrite !length_app, L1, L2, Hp. unfold HEADER_LEN. simpl. lia.
  - by exists t.
  - rewrite !length_app, L1, L2, Hp. unfold HEADER_LEN.
    cbn [app drop length]. rewrite drop_0, take_app_le, take_ge by lia.
    rewrite le_val_bytes_small; simpl; lia.
  - change (drop 5 ([t] ++ ?x)) with (drop 4 x).
    change (drop 9 ([t] ++ ?x)) with (drop 8 x).
    rewrite drop_app_length', take_app_length', le_val_bytes_small by (done || simpl; lia).
    reflexivity.
Qed.

(** ** Fuel of the sub-op loop *)

Lemma parse_payload_advances t l p r np :
  parse_payload t l p = Ok (r, np) -> (p + 84 <= np <= length l)%nat.
Proof.
  unfold parse_payload, get_u64, get_u32. intros E. res_inv.
  repeat match goal with
  | H : _ <$> or_panic ?o = Ok _ |- _ => destruct o eqn:?; simpl in H; simplify_eq
  | H : slice _ _ _ = Some _ |- _ => apply slice_Some in H
  end.
  case_bool_decide; res_inv; simplify_eq; [|lia].
  destruct (slice l _ _) eqn:Es; simplify_eq/=. apply slice_Some in Es. lia.
Qed.

Lemma parse_ops_fuel fuel k l count p : (length l - p <= fuel)%nat ->
  parse_ops (fuel + k) l count p = parse_ops fuel l count p.
Proof.
  revert count p. induction fuel as [|fuel IH]; intros count p Hf.
  - destruct k as [|k]; [done|]. simpl. case_match; [done|].
    unfold guard_err. by rewrite (proj2 (Nat.leb_le _ _)) by lia.
  - simpl. case_match; [done|].
    destruct (guard_err _ _) as [| |]; [|done..]. simpl.
    destruct (or_panic _) as [t| |]; [|done..]. simpl.
    destruct (guard_err _ _) as [| |]; [|done..]. simpl.
    destruct (parse_payload t l (p + 1)) as [[sub np]| |] eqn:E; [|done..]. simpl.
    apply parse_payload_advances in E. by rewrite IH by lia.
Qed.

(** ** What the parser returns is well-formed *)

Lemma get_u32_inv l p z : get_u32 l p = Ok z ->
  (p + 4 <= length l)%nat /\ 0 <= z < 2 ^ 32.
Proof.
  unfold get_u32. intros E. destruct (slice l p (p + 4)) as [b|] eqn:Es; simplify_eq/=.
  apply slice_Some in Es as (? & _ & Hb). pose proof (le_val_range b) as Hr.
  rewrite Hb in Hr. replace (p + 4 - p)%nat with 4%nat in Hr by lia. simpl in Hr. lia.
Qed.

Lemma get_u64_inv l p z : get_u64 l p = Ok z -> (p + 8 <= length l)%nat /\ is_u64 z.
Proof.
  unfold get_u64. intros E. destruct (slice l p (p + 8)) as [b|] eqn:Es; simplify_eq/=.
  apply slice_Some in Es as (? & _ & Hb). pose proof (le_val_range b) as Hr.
  rewrite Hb in Hr. replace (p + 8 - p)%nat with 8%nat in Hr by lia.
  unfold is_u64. simpl in Hr. lia.
Qed.

Lemma parse_payload_wf t l p r e : parse_payload t l p = Ok (r, e) ->
  tag r = t /\ wf_op r /\ e = (p + length (payload_bytes r))%nat /\ (e <= length l)%nat
  /\ (t <> TAG_PUT_TTL -> expires_at r = 0).
Proof.
  intros E. assert (tag r = t /\ ops r = [] /\ wf_op r
    /\ e = (p + 84 + length (key r) + length (value r)
             + if bool_decide (tag r = TAG_PUT_TTL) then 8 else 0)%nat /\ (e <= length l)%nat)
    as (Ht & Ho & Hwf & He & Hl).
  { unfold parse_payload in E. res_inv.
    repeat match goal with
    | H : slice _ _ _ = Some _ |- _ => apply slice_Some in H
    | H : get_u32 _ _ = Ok _ |- _ => apply get_u32_inv in H
    | H : get_u64 _ _ = Ok _ |- _ => apply get_u64_inv in H
    end. unfold is_u64 in *.
    case_bool_decide as Ht.
    - res_inv. simplify_eq.
      match goal with H : get_u64 _ _ = Ok _ |- _ => apply get_u64_inv in H end.
      unfold wf_op, is_u64 in *. simpl. rewrite ?bool_decide_eq_true_2 by done. split_and!; try done; lia.
    - simplify_eq. unfold wf_op, is_u64. simpl. rewrite ?bool_decide_eq_false_2 by done.
      split_and!; try done; lia. }
  split_and!; try done; [|by destruct Hwf as (_ & _ & _ & _ & _ & _ & Hx & _); rewrite <-Ht].
  rewrite (length_payload_bytes r Hwf). lia.
Qed.

Lemma parse_ops_wf fuel l count p os e : (p <= length l)%nat -> parse_ops fuel l count p = Ok (os, e) ->
  Forall (fun o => valid_sub_tag (tag o) = true /\ wf_op o) os
  /\ e = (p + length (mjoin ((fun op => tag op :: payload_bytes op) <$> os)))%nat
  /\ (e <= length l)%nat.
Proof.
  revert count p os e. induction fuel as [|fuel IH]; intros count p os e Hp; simpl;
    (case_match; [intros; simplify_eq; simpl; split_and!; [constructor|lia|lia]|]); [done|].
  intros E. apply bind_ok in E as ([] & Hg%guard_err_ok & E). apply bind_ok in E as (t & _ & E).
  apply bind_ok in E as ([] & Hv%guard_err_ok%negb_false_iff & E).
  apply bind_ok in E as ([sub np] & Hsub & E). apply bind_ok in E as ([rest e'] & Hrest & E).
  simplify_eq. apply parse_payload_wf in Hsub as (Ht & Hwf & -> & Hl & _).
  apply IH in Hrest as (Hf & -> & Hl2); [|done].
  rewrite fmap_cons, mjoin_cons, length_app. simpl. split_and!; [|lia|lia].
  constructor; [|done]. by rewrite Ht.
Qed.

(** Every record the parser accepts can be appended again. *)
Lemma parse_chain_wf l ep r p : parse_chain l ep = Ok (r, p) -> wf_record r.
Proof.
  intros E. pose proof (parse_chain_ok_frame _ _ _ _ E) as Hf.
  pose proof Hf as (Hlen & (t & Ht & Hv) & Hd & _).
  rewrite (parse_chain_frame _ _ t Hf Ht) in E. unfold parse_body in E.
  pose proof (le_val_range (take 4 (drop 1 l))) as Hr. rewrite Hd in Hr.
  rewrite length_take, length_drop in Hr. unfold HEADER_LEN in Hlen.
  rewrite Nat.min_l in Hr by lia. change (256 ^ Z.of_nat 4) with (2 ^ 32) in Hr.
  apply bind_ok in E as ([] & _ & E). apply bind_ok in E as ([r' e] & Hp & E). simplify_eq.
  case_bool_decide as Hb.
  - right. unfold parse_batch in Hp. apply bind_ok in Hp as ([] & Hg%guard_err_ok%Nat.ltb_ge & Hp).
    apply bind_ok in Hp as (c & Hc & Hp). apply get_u32_inv in Hc.
    apply bind_ok in Hp as ([os e'] & Ho & Hp).
    apply parse_ops_wf in Ho as (Hall & -> & Hle); [|unfold HEADER_LEN in *; lia].
    destruct os as [|o os]; simplify_eq; cbn [tag key value expires_at ops hlc replica author];
      (split_and!; [done..| | |done|done|done]); try done;
      unfold batch_payload; rewrite length_app, length_le_bytes; unfold HEADER_LEN in *; lia.
  - left. apply parse_payload_wf in Hp as (Htag & Hwf & -> & Hle & _). rewrite Htag.
    split_and!; [done..|]. unfold HEADER_LEN in *. lia.
Qed.

(** ** Properties *)

(** C29: serialize then parse is the identity on every well-formed record,
    standalone or batch, whether or not the chain predecessor is checked. *)
Theorem record_roundtrip (r : record) (prev : bytes) :
  wf_record r -> length prev = 32%nat ->
  parse (to_bytes r prev) prev = Ok (r, prev)
  /\ parse_chain (to_bytes r prev) None = Ok (r, prev).
Proof. intros. split; apply parse_chain_to_bytes; auto. Qed.

(** C35: if a record parses, then the same bytes with any one byte changed are
    rejected with [Corrupt], whatever predecessor is expected. *)
Theorem single_byte_corruption_rejected (l : bytes) ep r p i b b' ep' :
  parse_chain l ep = Ok (r, p) -> l !! i = Some b -> b' <> b ->
  exists d, parse_chain (<[i:=b']> l) ep' = Err (corrupt d).
Proof.
  intros Ep Hi Hb. apply parse_chain_ok_frame in Ep.
  destruct (parse_chain_bad_frame (<[i:=b']> l) ep') as [Hf|]; [|done].
  by destruct (frame_ok_insert l i b b' Ep Hi Hb).
Qed.

(** A record whose payload ends after the author, with its length and
    CRC right, makes the parser index past the end and panic. *)
Theorem parse_panics_without_val_len t prev k h rep aut :
  valid_tag t = true -> t <> TAG_BATCH -> length prev = 32%nat ->
  Z.of_nat (length k) < 2 ^ 31 -> is_u64 h ->
  length rep = 32%nat -> length aut = 32%nat ->
  parse_chain (framed t prev (le_bytes 4 (Z.of_nat (length k)) ++ k ++ le_bytes 8 h
                                ++ rep ++ aut)) None = Panic.
Proof.
  intros Ht Hb Hp Hk Hh Hr Ha. set (pl := le_bytes 4 _ ++ _).
  assert (length pl = 76 + length k)%nat as Hpl by (unfold pl; field_len).
  rewrite (parse_chain_frame _ _ t);
    [|apply framed_frame_ok; [done..|lia]|done].
  unfold parse_body. cbv zeta. step_by ltac:(reflexivity).
  rewrite bool_decide_eq_false_2 by done. unfold framed.
  set (hd := [t] ++ le_bytes 4 (Z.of_nat (length pl)) ++ le_bytes 4 (crc32_parts [t] (prev ++ pl)) ++ prev).
  replace ([t] ++ _) with (hd ++ pl) by (unfold hd; by rewrite <-!app_assoc).
  unfold pl. rewrite parse_payload_no_val_len; [done| |lia|done..].
  unfold hd, HEADER_LEN. rewrite !length_app, !length_le_bytes, Hp. reflexivity.
Qed.

(** ** Concrete records *)

Definition demo_op (t : byte) (k v : string) (h ex : Z) : record :=
  mkRecord t (bs k) h (replicate 32 Byte.x07) (replicate 32 Byte.x09) (bs v) ex [].
Definition demo_batch : record :=
  mkRecord TAG_BATCH [] 10 (replicate 32 Byte.x07) (replicate 32 Byte.x09) [] 0
    [demo_op TAG_PUT "a" "av1" 10 0; demo_op TAG_PUT_TTL "t" "temp" 11 99;
     demo_op TAG_DEL "gone" "" 12 0].

Lemma demo_op_wf t k v h ex :
  Z.of_nat (length (bs k)) < 2 ^ 32 -> Z.of_nat (length (bs v)) < 2 ^ 32 ->
  is_u64 h -> is_u64 ex -> (t <> TAG_PUT_TTL -> ex = 0) -> wf_op (demo_op t k v h ex).
Proof. intros. unfold wf_op. simpl. split_and!; auto; lia. Qed.

Ltac demo_op :=
  apply demo_op_wf; [reflexivity|reflexivity|split; [discriminate|reflexivity]..|];
  try done; intros H; by destruct H.

Lemma demo_batch_wf : wf_record demo_batch.
Proof.
  right. split; [done|]. split; [done|]. split; [done|]. split; [done|]. split.
  { repeat (constructor; [split; [reflexivity|demo_op]|]). constructor. }
  split; [reflexivity|]. done.
Qed.

Lemma record_roundtrip_witness :
  parse (to_bytes demo_batch zero32) zero32 = Ok (demo_batch, zero32)
  /\ parse_chain (to_bytes demo_batch zero32) None = Ok (demo_batch, zero32).
Proof. apply (record_roundtrip demo_batch zero32); [apply demo_batch_wf|reflexivity]. Defined.

Lemma single_byte_corruption_witness :
  exists d, parse_chain (<[50%nat:=Byte.xff]> (to_bytes demo_batch zero32)) None
              = Err (corrupt d).
Proof.
  apply (single_byte_corruption_rejected (to_bytes demo_batch zero32) None demo_batch zero32
           50%nat Byte.x61 Byte.xff None); [|vm_compute; reflexivity|discriminate].
  apply parse_chain_to_bytes; [apply demo_batch_wf|reflexivity|by left].
Defined.

Lemma parse_panics_witness :
  parse_chain (framed TAG_PUT zero32 (le_bytes 4 1 ++ bs "k" ++ le_bytes 8 5
                 ++ zero32 ++ zero32)) None = Panic.
Proof.
  apply (parse_panics_without_val_len TAG_PUT zero32 (bs "k") 5 zero32 zero32);
    try reflexivity; try discriminate; split; [discriminate|reflexivity].
Defined.

End LogFormat.
