(* ===== verification/Log.v ===== *)
(** The per-namespace append log: [Log] of [src/storage/log.rs] ([append],
    [recover_durable], [read_records], [segment_at], [write_fresh]) over an
    explicit model of the segment files of one namespace directory. *)

From S2P Require Import Prelude Crc32 LogFormat.
Import LogFormat.

Module Log.

(** ** Files

    A namespace directory: its segment files [log.N.seg] and the policy
    sidecar.  The model covers the files' contents; an operating-system
    failure other than a missing or an existing file is not modelled. *)
Record nsdir := mkDir {
  segs : gmap nat bytes;
  sidecar : option bytes;
}.

Definition set_segs (d : nsdir) (m : gmap nat bytes) : nsdir := mkDir m (sidecar d).

(** [write_all] at a file position: overwrites, extends, zero-fills a gap. *)
Definition write_at (pos : nat) (data file : bytes) : bytes :=
  take pos file ++ replicate (pos - length file) Byte.x00 ++ data
    ++ drop (pos + length data) file.

(** ** State *)

Inductive RecoverWarning := TruncatedTail (records_dropped : Z).

(** [cur] is the open file: the segment it refers to and its position.  The
    directory is passed separately. *)
Record Log := mkLog {
  cur_seg : nat;
  cur : nat * nat;
  cur_len : nat;
  seg_lens : list (nat * nat);
  seq : Z;
  head : bytes;
  offsets : list nat;
  durable : bool;
}.

Section log.
Context `{Sha256}.

(** ** Append *)

(** Rolls to a fresh segment when the record would pass the 64 MiB cap. *)
Definition roll (d : nsdir) (L : Log) (n : nat) : nsdir * Log :=
  if (0 <? cur_len L)%nat && (SEGMENT_BYTES <? Z.of_nat (cur_len L + n)) then
    let s := S (cur_seg L) in
    (set_segs d (<[s := default [] (segs d !! s)]> (segs d)),
     mkLog s (s, 0%nat) 0 (seg_lens L ++ [(s, 0%nat)]) (seq L) (head L) (offsets L) (durable L))
  else (d, L).

Definition set_last_len (l : list (nat * nat)) (n : nat) : list (nat * nat) :=
  match last l with
  | Some (s, _) => take (length l - 1) l ++ [(s, n)]
  | None => l
  end.

(** The open file always exists: [recover] and [roll] created it. *)
Definition append (d : nsdir) (L : Log) (l : bytes) : res (nsdir * Log * Z) :=
  let '(d, L) := roll d L (length l) in
  let off := sum_list (seg_lens L).*2 in
  let file := default [] (segs d !! (cur L).1) in
  let d := set_segs d (<[(cur L).1 := write_at (cur L).2 l file]> (segs d)) in
  let cur_len' := (cur_len L + length l)%nat in
  prev ← or_panic (slice l 9 41);
  let L := mkLog (cur_seg L) ((cur L).1, ((cur L).2 + length l)%nat) cur_len'
    (set_last_len (seg_lens L) cur_len') (seq L + 1) (record_hash prev l)
    (offsets L ++ [off]) (durable L) in
  Ok (d, L, seq L).

(** ** Recovery *)

(** Contiguous segments log.0 .. log.N with their lengths. *)
Fixpoint discover (fuel : nat) (m : gmap nat bytes) (i : nat) : list (nat * nat) :=
  match fuel, m !! i with
  | S fuel, Some b => (i, length b) :: discover fuel m (S i)
  | _, _ => []
  end.

(** The loop variables of the replay. *)
Record rstate := mkR { r_seq : Z; r_head : bytes; r_offsets : list nat }.

Inductive scan_end :=
| SegEnd (st : rstate)
| TornAt (pos : nat) (st : rstate).

(** The [while pos < buf.len()] loop over one segment; a step consumes at
    least a header, so [length buf] iterations are enough. *)
Fixpoint scan_segment (fuel : nat) (dname : bytes) (is_last : bool) (seg_no seg_base : nat)
    (buf : bytes) (pos : nat) (st : rstate) : res scan_end :=
  if (length buf <=? pos)%nat then Ok (SegEnd st) else
  match fuel with
  | O => Ok (SegEnd st)
  | S fuel =>
    let remaining := (length buf - pos)%nat in
    if (remaining <? HEADER_LEN)%nat then
      if is_last then Ok (TornAt pos st)
      else Err (Corrupt (Some dname) (NonFinalPartialHeader (Z.of_nat seg_no) pos))
    else
    t ← or_panic (buf !! pos);
    _ ← guard_err (negb (valid_tag t))
          (Corrupt (Some dname) (BadTagAt t (Z.of_nat (seg_base + pos))));
    declared ← get_u32 buf (pos + 1);
    let rec_len := Z.of_nat HEADER_LEN + declared in
    if Z.of_nat remaining <? rec_len then
      if is_last then Ok (TornAt pos st)
      else Err (Corrupt (Some dname) (NonFinalLength rec_len (Z.of_nat seg_no)))
    else
    l ← or_panic (slice buf pos (pos + Z.to_nat rec_len));
    match parse l (r_head st) with
    | Ok (_, prev) =>
        scan_segment fuel dname is_last seg_no seg_base buf (pos + Z.to_nat rec_len)
          (mkR (r_seq st + 1) (record_hash prev l) (r_offsets st ++ [(seg_base + pos)%nat]))
    | Err e =>
        if is_last && (Z.of_nat remaining <=? rec_len) then Ok (TornAt pos st)
        else Err (Corrupt (Some dname) (RecordAt (r_seq st) (Z.of_nat (seg_base + pos)) e))
    | Panic => Panic
    end
  end.

(** The ['segments] loop; a torn tail stops it with the cut to make. *)
Fixpoint scan_all (dname : bytes) (m : gmap nat bytes) (l : list (nat * nat)) (total : nat)
    (st : rstate) : res (rstate * option (nat * nat)) :=
  match l with
  | [] => Ok (st, None)
  | (seg_no, _) :: rest =>
      let is_last := match rest with [] => true | _ => false end in
      let buf := default [] (m !! seg_no) in
      r ← scan_segment (length buf) dname is_last seg_no total buf 0 st;
      match r with
      | SegEnd st => scan_all dname m rest (total + length buf) st
      | TornAt pos st => Ok (st, Some (seg_no, pos))
      end
  end.

Definition recover (d : nsdir) (dname : bytes) (dur : bool)
    : res (nsdir * Log * option RecoverWarning) :=
  let found := discover (S (size (segs d))) (segs d) 0 in
  '(st, cut) ← scan_all dname (segs d) found 0 (mkR 0 zero32 []);
  let '(m, found, warn) :=
    match cut with
    | Some (seg_no, n) =>
        (<[seg_no := take n (default [] (segs d !! seg_no))]> (segs d),
         set_last_len found n, Some (TruncatedTail 1))
    | None => (segs d, found, None)
    end in
  let final_seg := default 0%nat (fst <$> last found) in
  let final_len := default 0%nat (snd <$> last found) in
  let found := match found with [] => [(final_seg, 0%nat)] | _ => found end in
  let m := <[final_seg := default [] (m !! final_seg)]> m in
  Ok (set_segs d m,
      mkLog final_seg (final_seg, final_len) final_len found (r_seq st) (r_head st)
        (r_offsets st) dur,
      warn).

(** ** Reading *)

Fixpoint segment_at_go (l : list (nat * nat)) (off acc : nat) : res (nat * nat) :=
  match l with
  | [] => Err (corrupt (OffsetBeyondEnd (Z.of_nat off)))
  | (seg_no, len) :: l =>
      if (off <? acc + len)%nat then Ok (seg_no, acc) else segment_at_go l off (acc + len)
  end.
Definition segment_at (L : Log) (off : nat) : res (nat * nat) :=
  segment_at_go (seg_lens L) off 0.

(** [read_exact] of [n] bytes at [p]. *)
Definition read_exact (f : bytes) (p n : nat) : res bytes :=
  match slice f p (p + n) with Some b => Ok b | None => Err (Io UnexpectedEof) end.

(** The length test answers what [read_exact] would, without a large [nat]. *)
Definition read_at (d : nsdir) (L : Log) (off : nat) : res bytes :=
  '(seg_no, seg_start) ← segment_at L off;
  f ← ok_or (Io FileNotFound) (segs d !! seg_no);
  hdr ← read_exact f (off - seg_start) HEADER_LEN;
  declared ← get_u32 hdr 1;
  if Z.of_nat (length f) <? declared then Err (Io UnexpectedEof) else
  rest ← read_exact f (off - seg_start + HEADER_LEN) (Z.to_nat declared);
  Ok (hdr ++ rest).

Fixpoint read_list (d : nsdir) (L : Log) (offs : list nat) (idx : Z) : res (list (Z * bytes)) :=
  match offs with
  | [] => Ok []
  | off :: offs =>
      l ← read_at d L off;
      rest ← read_list d L offs (idx + 1);
      Ok ((idx + 1, l) :: rest)
  end.

(** Records [from_seq, from_seq + max) with their sequence numbers;
    [max = 0] reads to the end. *)
Definition read_records (d : nsdir) (L : Log) (from_seq max : Z) : res (list (Z * bytes)) :=
  if (from_seq =? 0) || (seq L <? from_seq) then Ok [] else
  let start := from_seq - 1 in
  let n := Z.of_nat (length (offsets L)) in
  let stop := if max =? 0 then n else Z.min (u64 (start + max)) n in
  read_list d L (take (Z.to_nat (stop - start)) (drop (Z.to_nat start) (offsets L))) start.

(** ** Rewriting *)

(** The removal loop deletes log.0, log.1, ... up to the first gap. *)
Definition remove_segments (m : gmap nat bytes) : gmap nat bytes :=
  foldr delete m (discover (S (size m)) m 0).*1.

Fixpoint rechain (h : bytes) (l : list record) : bytes :=
  match l with
  | [] => []
  | r :: l => to_bytes r h ++ rechain (record_hash h (to_bytes r h)) l
  end.

Definition write_fresh (d : nsdir) (records : list record) : nsdir :=
  set_segs d (<[0%nat := rechain zero32 records]> (remove_segments (segs d))).

End log.

End Log.
