(* ===== verification/LogSpec.v ===== *)
(** What the append log promises: an abstract log is the list of its record
    byte strings, cut into segments; [log_rep] relates it to the segment
    files and the in-memory [Log].  [append], [recover] and [read_records]
    implement the abstract operations, also from a torn final write. *)

From S2P Require Import Prelude Crc32 LogFormat Log.
Import LogFormat Log.

Module LogSpec.

Section spec.
Context `{Sha256}.

(** ** The abstract log *)

(** Every record parses against the running head. *)
Fixpoint chain_ok (h : bytes) (rs : list bytes) : Prop :=
  match rs with
  | [] => True
  | l :: rs => (exists r, parse l h = Ok (r, h)) /\ chain_ok (record_hash h l) rs
  end.

Definition fhead (h : bytes) (rs : list bytes) : bytes := fold_left record_hash rs h.

(** Logical start offsets. *)
Fixpoint offs (base : nat) (rs : list bytes) : list nat :=
  match rs with
  | [] => []
  | l :: rs => base :: offs (base + length l) rs
  end.

Fixpoint lens (i : nat) (ss : list (list bytes)) : list (nat * nat) :=
  match ss with
  | [] => []
  | s :: ss => (i, length (mjoin s)) :: lens (S i) ss
  end.

(** The in-memory log of the closed segments [ss] and the live one [s]. *)
Definition log_of (dur : bool) (ss : list (list bytes)) (s : list bytes) : Log :=
  let all := mjoin ss ++ s in
  mkLog (length ss) (length ss, length (mjoin s)) (length (mjoin s))
    (lens 0 (ss ++ [s])) (Z.of_nat (length all)) (fhead zero32 all) (offs 0 all) dur.

Definition files_of (ss : list (list bytes)) (s : list bytes) : list bytes :=
  map (fun x : list bytes => mjoin x) ss ++ [mjoin s].

Definition log_rep (d : nsdir) (L : Log) (ss : list (list bytes)) (s : list bytes) : Prop :=
  segs d = map_seq 0 (files_of ss s)
  /\ chain_ok zero32 (mjoin ss ++ s)
  /\ L = log_of (durable L) ss s.

(** The records of a log, oldest first. *)
Definition log_records (ss : list (list bytes)) (s : list bytes) : list bytes := mjoin ss ++ s.

(** ** List facts *)

Lemma mjoin_app {A} (a b : list (list A)) : mjoin (a ++ b) = mjoin a ++ mjoin b.
Proof. induction a as [|x a IH]; [done|]. simpl. by rewrite IH, app_assoc. Qed.

Lemma mjoin_snoc {A} (a : list (list A)) x : mjoin (a ++ [x]) = mjoin a ++ x.
Proof. rewrite mjoin_app. simpl. by rewrite app_nil_r. Qed.

Lemma fhead_app h a b : fhead h (a ++ b) = fhead (fhead h a) b.
Proof. apply fold_left_app. Qed.

Lemma offs_app base a b : offs base (a ++ b) = offs base a ++ offs (base + length (mjoin a)) b.
Proof.
  revert base. induction a as [|x a IH]; intros base; [by rewrite Nat.add_0_r|].
  simpl. rewrite IH, length_app. do 3 f_equal. lia.
Qed.

Lemma length_offs base rs : length (offs base rs) = length rs.
Proof. revert base. induction rs; simpl; auto. Qed.

Lemma lens_app i a b : lens i (a ++ b) = lens i a ++ lens (i + length a) b.
Proof.
  revert i. induction a as [|x a IH]; intros i; [by rewrite Nat.add_0_r|].
  simpl. rewrite IH. do 3 f_equal. lia.
Qed.

Lemma length_lens i ss : length (lens i ss) = length ss.
Proof. revert i. induction ss; simpl; auto. Qed.

Lemma sum_lens i ss : sum_list (lens i ss).*2 = length (mjoin (mjoin ss)).
Proof.
  revert i. induction ss as [|s ss IH]; intros i; [done|].
  simpl. rewrite IH. by rewrite mjoin_app, length_app.
Qed.

Lemma chain_ok_app h a b : chain_ok h (a ++ b) <-> chain_ok h a /\ chain_ok (fhead h a) b.
Proof.
  revert h. induction a as [|l a IH]; intros h; simpl; [naive_solver|].
  rewrite IH. unfold fhead. simpl. naive_solver.
Qed.

Lemma set_last_len_snoc l i n n' : set_last_len (l ++ [(i, n)]) n' = l ++ [(i, n')].
Proof.
  unfold set_last_len. rewrite last_snoc, length_app. simpl.
  by rewrite Nat.add_sub, take_app_length.
Qed.

Lemma write_at_end f l : write_at (length f) l f = f ++ l.
Proof.
  unfold write_at. rewrite take_ge, drop_ge by lia.
  by rewrite Nat.sub_diag, app_nil_r.
Qed.

(** ** Facts about a record that parses *)

Lemma parse_ok_inv l h r p : parse l h = Ok (r, p) ->
  frame_ok l /\ p = h /\ take 32 (drop 9 l) = h.
Proof.
  intros E. assert (frame_ok l) as Hf by (eapply parse_chain_ok_frame, E).
  split; [done|]. pose proof Hf as (_ & (t & Ht & _) & _).
  unfold parse in E. rewrite (parse_chain_frame _ _ t Hf Ht) in E.
  unfold parse_body in E. apply bind_ok in E as ([] & Hg & E).
  apply guard_err_ok, negb_false_iff, bool_decide_eq_true in Hg.
  apply bind_ok in E as ([r0 e] & _ & E). by simplify_eq.
Qed.

Lemma parse_rec_frame l h r : parse l h = Ok (r, h) ->
  frame_ok l /\ take 32 (drop 9 l) = h.
Proof. intros E. apply parse_ok_inv in E. naive_solver. Qed.

Lemma rec_prev_slice l h r : parse l h = Ok (r, h) -> slice l 9 41 = Some h.
Proof.
  intros E. apply parse_rec_frame in E as [(Hlen & _) <-].
  unfold HEADER_LEN in Hlen. by rewrite slice_in_range by lia.
Qed.

(** ** Append *)

Lemma map_seq_update (m : gmap nat bytes) files f f' :
  m = map_seq 0 (files ++ [f]) -> <[length files := f']> m = map_seq 0 (files ++ [f']).
Proof.
  intros ->. rewrite insert_map_seq_0 by (rewrite length_app; simpl; lia).
  by rewrite insert_app_r_alt, Nat.sub_diag by lia.
Qed.

Lemma files_lookup ss s : files_of ss s !! length ss = Some (mjoin s).
Proof.
  unfold files_of. rewrite lookup_app_r by (by rewrite length_map).
  by rewrite length_map, Nat.sub_diag.
Qed.

Lemma log_of_snoc dur ss s l :
  mkLog (length ss) (length ss, (length (mjoin s) + length l)%nat)
    (length (mjoin s) + length l)%nat
    (set_last_len (lens 0 (ss ++ [s])) (length (mjoin s) + length l)%nat)
    (Z.of_nat (length (mjoin ss ++ s)) + 1)
    (record_hash (fhead zero32 (mjoin ss ++ s)) l)
    (offs 0 (mjoin ss ++ s) ++ [sum_list (lens 0 (ss ++ [s])).*2]) dur
  = log_of dur ss (s ++ [l]).
Proof.
  unfold log_of. rewrite sum_lens, !mjoin_snoc, !lens_app. cbn [lens].
  rewrite set_last_len_snoc, mjoin_snoc, app_assoc.
  rewrite (fhead_app _ _ [l]), (offs_app _ _ [l]), (length_app _ [l]).
  rewrite !length_app. f_equal; try done. simpl. lia.
Qed.

(** Appending to the live segment. *)
Lemma append_live d dur ss s l r :
  log_rep d (log_of dur ss s) ss s ->
  parse l (fhead zero32 (mjoin ss ++ s)) = Ok (r, fhead zero32 (mjoin ss ++ s)) ->
  roll d (log_of dur ss s) (length l) = (d, log_of dur ss s) ->
  exists d', append d (log_of dur ss s) l
    = Ok (d', log_of dur ss (s ++ [l]), Z.of_nat (length (mjoin ss ++ s)) + 1)
    /\ log_rep d' (log_of dur ss (s ++ [l])) ss (s ++ [l]) /\ sidecar d' = sidecar d.
Proof.
  intros (Hd & Hch & _) Hp Hroll. unfold append. rewrite Hroll.
  cbn [cur fst snd log_of cur_len seg_lens seq offsets cur_seg durable].
  rewrite (rec_prev_slice _ _ _ Hp). cbn [or_panic mbind outcome_bind].
  rewrite Hd, lookup_map_seq_0, files_lookup. cbn [default id]. rewrite write_at_end.
  eexists. split; [by rewrite log_of_snoc|].
  split; [split_and!|done]; simpl; [|rewrite app_assoc, chain_ok_app; simpl; eauto|done].
  unfold files_of. rewrite mjoin_snoc. rewrite <-(length_map (fun x : list bytes => mjoin x) ss).
  by eapply map_seq_update.
Qed.

(** The result of rolling is the same log with an empty live segment. *)
Lemma roll_rep d dur ss s n :
  log_rep d (log_of dur ss s) ss s ->
  (0 <? length (mjoin s))%nat && (SEGMENT_BYTES <? Z.of_nat (length (mjoin s) + n)) = true ->
  exists d', roll d (log_of dur ss s) n = (d', log_of dur (ss ++ [s]) [])
    /\ log_rep d' (log_of dur (ss ++ [s]) []) (ss ++ [s]) [] /\ sidecar d' = sidecar d.
Proof.
  intros (Hd & Hch & _) Hc. unfold roll.
  cbn [cur fst snd log_of cur_len seg_lens seq offsets cur_seg durable head].
  rewrite Hc, Hd, lookup_map_seq_0.
  assert (files_of ss s !! S (length ss) = None) as ->.
  { apply lookup_ge_None. unfold files_of. rewrite length_app, length_map. simpl. lia. }
  eexists. split; [f_equal|split; [split_and!|]]; simpl.
  - unfold log_of. rewrite mjoin_snoc, !app_nil_r, !lens_app, (length_app ss [s]). simpl.
    by rewrite Nat.add_1_r.
  - unfold files_of. rewrite map_app. simpl. rewrite (map_seq_snoc _ (_ ++ _)).
    f_equal. rewrite length_app, length_map. simpl. lia.
  - by rewrite mjoin_snoc, app_nil_r.
  - done.
  - done.
Qed.

Lemma roll_id d dur ss s n :
  (0 <? length (mjoin s))%nat && (SEGMENT_BYTES <? Z.of_nat (length (mjoin s) + n)) = false ->
  roll d (log_of dur ss s) n = (d, log_of dur ss s).
Proof. intros Hc. unfold roll. simpl. by rewrite Hc. Qed.

Lemma roll_idem d L n d' L' : roll d L n = (d', L') -> roll d' L' n = (d', L').
Proof.
  unfold roll. intros. case_match eqn:E; simplify_eq; simpl; [done|].
  by rewrite E.
Qed.

Lemma append_roll d L l d' L' :
  roll d L (length l) = (d', L') -> append d L l = append d' L' l.
Proof. intros E. unfold append. by rewrite E, (roll_idem _ _ _ _ _ E). Qed.

(** Either way the log has the same records. *)
Lemma roll_any d L ss s n : log_rep d L ss s ->
  exists d1 L1 ss1 s1, roll d L n = (d1, L1) /\ log_rep d1 L1 ss1 s1
    /\ log_records ss1 s1 = log_records ss s /\ head L1 = head L /\ seq L1 = seq L
    /\ durable L1 = durable L /\ sidecar d1 = sidecar d.
Proof.
  intros Hrep. pose proof Hrep as (_ & _ & EL). revert EL.
  generalize (durable L) at 1. intros dur ->.
  destruct ((0 <? length (mjoin s))%nat
            && (SEGMENT_BYTES <? Z.of_nat (length (mjoin s) + n))) eqn:Hc.
  - destruct (roll_rep _ _ _ _ _ Hrep Hc) as (d1 & Hr & Hrep1 & Hside).
    exists d1, (log_of dur (ss ++ [s]) []), (ss ++ [s]), [].
    unfold log_records. cbn [head seq log_of]. by rewrite mjoin_snoc, app_nil_r.
  - exists d, (log_of dur ss s), ss, s. by rewrite roll_id.
Qed.

(** Both cases together: one more record, in a fresh segment if it rolled. *)
Lemma append_rep d L ss s l r :
  log_rep d L ss s -> parse l (head L) = Ok (r, head L) ->
  exists d' L' ss' s', append d L l = Ok (d', L', seq L + 1)
    /\ log_rep d' L' ss' s' /\ sidecar d' = sidecar d
    /\ log_records ss' s' = log_records ss s ++ [l]
    /\ seq L' = seq L + 1 /\ head L' = record_hash (head L) l /\ durable L' = durable L.
Proof.
  intros Hrep Hp.
  destruct (roll_any _ _ _ _ (length l) Hrep)
    as (d1 & L1 & ss1 & s1 & Hr & Hrep1 & <- & Hh & Hs & Hdu & <-).
  rewrite (append_roll _ _ _ _ _ Hr). rewrite <-Hh in *. rewrite <-Hs, <-Hdu.
  apply roll_idem in Hr. clear Hrep Hh Hs Hdu. pose proof Hrep1 as (_ & _ & EL). revert EL.
  generalize (durable L1) at 1. intros dur ->. cbn [head log_of] in Hp.
  destruct (append_live d1 dur ss1 s1 l r Hrep1 Hp Hr) as (d2 & Ha & Hrep2 & Hside2).
  exists d2, (log_of dur ss1 (s1 ++ [l])), ss1, (s1 ++ [l]).
  rewrite Ha. unfold log_records. cbn [seq log_of head].
  rewrite app_assoc, fhead_app, (length_app (_ ++ _) [l]). simpl.
  split_and!; try done. lia.
Qed.

(** ** Recovery *)

Definition scanned (st : rstate) (base : nat) (rs : list bytes) : rstate :=
  mkR (r_seq st + Z.of_nat (length rs)) (fhead (r_head st) rs) (r_offsets st ++ offs base rs).

Lemma frame_lookup pre l rest (k : nat) : frame_ok l -> (0 < k)%nat ->
  exists t, (pre ++ take k l ++ rest) !! length pre = Some t /\ valid_tag t = true.
Proof.
  intros (Hlen & (t & Ht & Hv) & _) Hk. exists t. split; [|done]. unfold HEADER_LEN in Hlen.
  rewrite lookup_app_r, Nat.sub_diag, lookup_app_l by (rewrite ?length_take; lia).
  by rewrite lookup_take_lt.
Qed.

Lemma frame_declared pre l rest (k : nat) : frame_ok l -> (5 <= k <= length l)%nat ->
  get_u32 (pre ++ take k l ++ rest) (length pre + 1) = Ok (Z.of_nat (length l - HEADER_LEN)).
Proof.
  intros (Hlen & _ & Hd & _) Hk.
  rewrite get_u32_range by (rewrite !length_app, length_take; lia).
  rewrite drop_app_add' by done. rewrite drop_app_le by (rewrite length_take; lia).
  rewrite skipn_firstn_comm, take_app_le by (rewrite length_take, length_drop; lia).
  rewrite take_take, Nat.min_l by lia. by rewrite Hd.
Qed.

(** One iteration over a record that parses. *)
Lemma scan_step fuel dn il sn base pre l rest st r :
  parse l (r_head st) = Ok (r, r_head st) ->
  scan_segment (S fuel) dn il sn base (pre ++ l ++ rest) (length pre) st
  = scan_segment fuel dn il sn base ((pre ++ l) ++ rest) (length (pre ++ l))
      (scanned st (base + length pre) [l]).
Proof.
  intros Hp. destruct (parse_rec_frame _ _ _ Hp) as [Hf _].
  pose proof Hf as (Hlen & _). destruct (frame_lookup pre l rest (length l) Hf) as (t & Ht & Hv);
    [unfold HEADER_LEN in Hlen; lia|].
  pose proof (frame_declared pre l rest (length l) Hf ltac:(unfold HEADER_LEN in Hlen; lia)) as Hd.
  rewrite take_ge in Hd, Ht by lia. cbn [scan_segment].
  destruct (Nat.leb_spec (length (pre ++ l ++ rest)) (length pre)) as [Hl|_];
    [rewrite !length_app in Hl; unfold HEADER_LEN in Hlen; lia|].
  destruct (Nat.ltb_spec (length (pre ++ l ++ rest) - length pre) HEADER_LEN) as [Hl|_];
    [rewrite !length_app in Hl; lia|].
  step_by ltac:(rewrite Ht; reflexivity). rewrite Hv. cbn [negb guard_err mbind outcome_bind].
  rewrite Hd. cbn [mbind outcome_bind].
  destruct (Z.ltb_spec (Z.of_nat (length (pre ++ l ++ rest) - length pre))
     (Z.of_nat HEADER_LEN + Z.of_nat (length l - HEADER_LEN))) as [Hl|_];
    [rewrite !length_app in Hl; lia|].
  replace (Z.to_nat (Z.of_nat HEADER_LEN + Z.of_nat (length l - HEADER_LEN)))
    with (length l) by lia.
  rewrite slice_app by done. cbn [or_panic mbind outcome_bind].
  rewrite Hp, <-length_app, <-app_assoc. unfold scanned. simpl. done.
Qed.

Lemma scan_records fuel dn il sn base pre s rest st :
  chain_ok (r_head st) s ->
  scan_segment (length s + fuel) dn il sn base (pre ++ mjoin s ++ rest) (length pre) st
  = scan_segment fuel dn il sn base (pre ++ mjoin s ++ rest) (length (pre ++ mjoin s))
      (scanned st (base + length pre) s).
Proof.
  revert pre st. induction s as [|l s IH]; intros pre st.
  { intros _. unfold scanned. simpl. rewrite !app_nil_r, Z.add_0_r. by destruct st. }
  cbn [chain_ok]. intros [[r Hp] Hch]. rewrite mjoin_cons, <-app_assoc.
  cbn [length Nat.add]. rewrite (scan_step _ _ _ _ _ _ _ _ _ _ Hp).
  rewrite (IH (pre ++ l)) by done. rewrite <-!app_assoc. f_equal.
  unfold scanned. cbn [r_seq r_head r_offsets length offs fhead fold_left].
  rewrite <-!app_assoc, length_app. simpl. f_equal; [lia|]. do 3 f_equal. lia.
Qed.

Lemma chain_ok_length h s : chain_ok h s -> (length s <= length (mjoin s))%nat.
Proof.
  revert h. induction s as [|l s IH]; intros h; [simpl; lia|].
  intros [[r Hp] Hch]. apply parse_rec_frame in Hp as [(Hlen & _) _].
  apply IH in Hch. rewrite mjoin_cons, length_app. unfold HEADER_LEN in Hlen. simpl. lia.
Qed.

(** A segment whose end is the end of its last record. *)
Lemma scan_whole dn il sn base s st :
  chain_ok (r_head st) s ->
  scan_segment (length (mjoin s)) dn il sn base (mjoin s) 0 st = Ok (SegEnd (scanned st base s)).
Proof.
  intros Hch. pose proof (chain_ok_length _ _ Hch) as Hl.
  replace (length (mjoin s)) with (length s + (length (mjoin s) - length s))%nat at 1 by lia.
  pose proof (scan_records (length (mjoin s) - length s) dn il sn base [] s [] st Hch) as E.
  rewrite app_nil_r in E. simpl in E. rewrite E, Nat.add_0_r.
  destruct (length (mjoin s) - length s)%nat; simpl;
    (destruct (Nat.leb_spec (length (mjoin s)) (length (mjoin s))); [done|lia]).
Qed.

(** A segment that ends in a proper, nonempty prefix of a record. *)
Lemma scan_torn dn sn base s l k st r :
  chain_ok (r_head st) s -> parse l (fhead (r_head st) s) = Ok (r, fhead (r_head st) s) ->
  (0 < k < length l)%nat ->
  scan_segment (length (mjoin s ++ take k l)) dn true sn base (mjoin s ++ take k l) 0 st
  = Ok (TornAt (length (mjoin s)) (scanned st base s)).
Proof.
  intros Hch Hp Hk. pose proof (chain_ok_length _ _ Hch) as Hl.
  destruct (parse_rec_frame _ _ _ Hp) as [Hf _].
  assert (length (mjoin s ++ take k l) = length (mjoin s) + k)%nat as Hlen
    by (rewrite length_app, length_take; lia).
  assert (exists f, length (mjoin s ++ take k l) = length s + S f)%nat as [f Ef].
  { exists (length (mjoin s) + k - length s - 1)%nat. lia. }
  rewrite Ef. etrans; [apply (scan_records (S f) dn true sn base [] s (take k l) st Hch)|].
  rewrite (app_nil_l (mjoin s ++ take k l)), (app_nil_l (mjoin s)), Nat.add_0_r.
  cbn [scan_segment]. destruct (Nat.leb_spec (length (mjoin s ++ take k l)) (length (mjoin s)));
    [lia|]. rewrite Hlen.
  replace (length (mjoin s) + k - length (mjoin s))%nat with k by lia.
  destruct (Nat.ltb_spec k HEADER_LEN) as [|Hhd]; [done|].
  destruct (frame_lookup (mjoin s) l [] k Hf) as (t & Ht & Hv); [lia|].
  pose proof (frame_declared (mjoin s) l [] k Hf ltac:(unfold HEADER_LEN in Hhd; lia)) as Hd.
  rewrite app_nil_r in Ht, Hd.
  step_by ltac:(rewrite Ht; reflexivity). rewrite Hv. cbn [negb guard_err mbind outcome_bind].
  rewrite Hd. cbn [mbind outcome_bind].
  destruct (Z.ltb_spec (Z.of_nat k) (Z.of_nat HEADER_LEN + Z.of_nat (length l - HEADER_LEN)));
    [done|]. unfold HEADER_LEN in *. lia.
Qed.

(** Lengths of a list of segment files, numbered from [i]. *)
Fixpoint flens (i : nat) (fs : list bytes) : list (nat * nat) :=
  match fs with
  | [] => []
  | f :: fs => (i, length f) :: flens (S i) fs
  end.

Lemma lens_flens i ss : lens i ss = flens i (map (fun x : list bytes => mjoin x) ss).
Proof. revert i. induction ss as [|s ss IH]; intros i; simpl; [done|]. by rewrite IH. Qed.

Lemma flens_app i a b : flens i (a ++ b) = flens i a ++ flens (i + length a) b.
Proof.
  revert i. induction a as [|x a IH]; intros i; [by rewrite Nat.add_0_r|].
  simpl. rewrite IH. do 3 f_equal. lia.
Qed.

Lemma discover_flens fuel (m : gmap nat bytes) i fs :
  (forall j, m !! (i + j)%nat = fs !! j) -> (length fs < fuel)%nat ->
  discover fuel m i = flens i fs.
Proof.
  revert fuel i. induction fs as [|f fs IH]; intros fuel i Hm Hf;
    (destruct fuel as [|fuel]; [simpl in Hf; lia|]); simpl;
    pose proof (Hm 0%nat) as H0; rewrite Nat.add_0_r in H0; rewrite H0; simpl; [done|].
  f_equal. apply IH; [|simpl in Hf; lia].
  intros j. specialize (Hm (S j)). by rewrite Nat.add_succ_r in Hm.
Qed.

Lemma size_map_seq (i : nat) (fs : list bytes) : size (map_seq i fs : gmap nat bytes) = length fs.
Proof.
  revert i. induction fs as [|f fs IH]; intros i; [apply map_size_empty|].
  rewrite map_seq_cons, map_size_insert_None, IH; [done|].
  apply lookup_map_seq_None. lia.
Qed.

Lemma discover_files fs : discover (S (size (map_seq 0 fs : gmap nat bytes))) (map_seq 0 fs) 0
  = flens 0 fs.
Proof.
  apply discover_flens; [intros j; apply lookup_map_seq_0|].
  rewrite size_map_seq. lia.
Qed.

Definition st0 : rstate := mkR 0 zero32 [].

Lemma scanned_app st base a b :
  scanned (scanned st base a) (base + length (mjoin a)) b = scanned st base (a ++ b).
Proof.
  unfold scanned. simpl. rewrite fhead_app, offs_app, length_app, app_assoc.
  f_equal. lia.
Qed.

(** The closed segments replay; the last one decides. *)
Lemma scan_all_closed dn (m : gmap nat bytes) i ss f total st :
  (forall j, m !! (i + j)%nat = (map (fun x : list bytes => mjoin x) ss ++ [f]) !! j) ->
  chain_ok (r_head st) (mjoin ss) ->
  scan_all dn m (flens i (map (fun x : list bytes => mjoin x) ss ++ [f])) total st
  = (r ← scan_segment (length f) dn true (i + length ss)
           (total + length (mjoin (mjoin ss))) f 0 (scanned st total (mjoin ss));
     match r with
     | SegEnd st => Ok (st, None)
     | TornAt pos st => Ok (st, Some ((i + length ss)%nat, pos))
     end).
Proof.
  revert i total st. induction ss as [|s ss IH]; intros i total st Hm Hch;
    pose proof (Hm 0%nat) as H0; rewrite Nat.add_0_r in H0; simpl in H0.
  - simpl. rewrite H0. simpl. rewrite !Nat.add_0_r.
    unfold scanned. simpl. rewrite Z.add_0_r, app_nil_r. by destruct st.
  - rewrite mjoin_cons, chain_ok_app in Hch. destruct Hch as [Hs Hch].
    cbn [map app flens scan_all]. rewrite H0.
    replace (match flens (S i) (map (fun x : list bytes => mjoin x) ss ++ [f]) with
             | [] => true | _ => false end) with false by (by destruct ss).
    cbn [from_option id]. rewrite scan_whole by done. cbn [mbind outcome_bind].
    rewrite IH; [|intros j; specialize (Hm (S j)); by rewrite Nat.add_succ_r in Hm|done].
    rewrite (mjoin_cons s ss), mjoin_app, length_app, scanned_app. cbn [length].
    by rewrite !Nat.add_succ_r, Nat.add_assoc.
Qed.

Definition mfiles (ss : list (list bytes)) : list bytes :=
  map (fun x : list bytes => mjoin x) ss.

(** [recover] on files whose closed segments replay. *)
Lemma recover_run d dn dur ss f :
  segs d = map_seq 0 (mfiles ss ++ [f]) -> chain_ok zero32 (mjoin ss) ->
  recover d dn dur
  = (r ← scan_segment (length f) dn true (length ss) (length (mjoin (mjoin ss))) f 0
           (scanned st0 0 (mjoin ss));
     let n := length ss in
     match r with
     | SegEnd st => Ok (d, mkLog n (n, length f) (length f) (flens 0 (mfiles ss ++ [f]))
                          (r_seq st) (r_head st) (r_offsets st) dur, None)
     | TornAt k st => Ok (set_segs d (map_seq 0 (mfiles ss ++ [take k f])),
                          mkLog n (n, k) k (flens 0 (mfiles ss) ++ [(n, k)])
                            (r_seq st) (r_head st) (r_offsets st) dur,
                          Some (TruncatedTail 1))
     end).
Proof.
  intros Hd Hch. unfold recover. rewrite Hd, discover_files.
  assert (length (mfiles ss) = length ss) as Hlen by apply length_map.
  rewrite (scan_all_closed dn (map_seq 0 (mfiles ss ++ [f])) 0 ss f 0);
    [|intros j; by rewrite lookup_map_seq_0|done].
  rewrite !Nat.add_0_l. fold st0.
  destruct (scan_segment (length f) dn true (length ss) (length (mjoin (mjoin ss))) f 0
              (scanned st0 0 (mjoin ss))) as [[st|k st]|e|]; cbn [mbind outcome_bind]; try done;
    cbv beta zeta iota; rewrite flens_app, Nat.add_0_l, Hlen; cbn [flens];
    rewrite ?set_last_len_snoc, last_snoc;
    cbn [fmap option_fmap option_map fst snd from_option id];
    (destruct (flens 0 (mfiles ss) ++ _) eqn:E; [by apply app_nil in E as [_ ?]|rewrite <-E; clear E]);
    rewrite lookup_map_seq_0 || rewrite lookup_insert_eq;
    rewrite ?lookup_map_seq_0, <-?Hlen, ?list_lookup_middle by done;
    cbn [from_option id]; f_equal; do 2 f_equal.
  - rewrite (map_seq_update _ _ _ f eq_refl), <-Hd. by destruct d.
  - rewrite lookup_insert_eq. cbn [from_option id].
    by rewrite insert_insert_eq, (map_seq_update _ _ _ (take k f) eq_refl).
Qed.

Lemma log_rep_chain d L ss s : log_rep d L ss s ->
  chain_ok zero32 (mjoin ss) /\ chain_ok (fhead zero32 (mjoin ss)) s.
Proof. intros (_ & Hch & _). by apply chain_ok_app. Qed.

Lemma log_of_scanned dur ss s :
  let st := scanned (scanned st0 0 (mjoin ss)) (length (mjoin (mjoin ss))) s in
  mkLog (length ss) (length ss, length (mjoin s)) (length (mjoin s))
    (flens 0 (mfiles ss ++ [mjoin s])) (r_seq st) (r_head st) (r_offsets st) dur
  = log_of dur ss s.
Proof.
  simpl. unfold log_of. rewrite lens_flens, map_app. simpl.
  rewrite length_app, fhead_app, offs_app. f_equal. lia.
Qed.

(** Recovering a log that is on disk gives back that log. *)
Lemma recover_exact d L ss s dn :
  log_rep d L ss s -> recover d dn (durable L) = Ok (d, L, None).
Proof.
  intros Hrep. pose proof Hrep as (Hd & _ & HL). destruct (log_rep_chain _ _ _ _ Hrep) as [H1 H2].
  rewrite (recover_run d dn (durable L) ss (mjoin s) Hd H1), scan_whole by done.
  cbn [mbind outcome_bind]. rewrite log_of_scanned. by rewrite <-HL.
Qed.

(** A final segment cut inside a record loses that record only. *)
Lemma recover_torn d L ss s l k r dn :
  log_rep d L ss s -> parse l (head L) = Ok (r, head L) -> (0 < k < length l)%nat ->
  recover (set_segs d (map_seq 0 (mfiles ss ++ [mjoin s ++ take k l]))) dn (durable L)
  = Ok (d, L, Some (TruncatedTail 1)).
Proof.
  intros Hrep Hp Hk. pose proof Hrep as (Hd & Hch & HL).
  destruct (log_rep_chain _ _ _ _ Hrep) as [H1 H2].
  rewrite (recover_run _ dn (durable L) ss (mjoin s ++ take k l)) by done.
  rewrite HL in Hp. cbn [head log_of] in Hp. rewrite fhead_app in Hp.
  rewrite (scan_torn _ _ _ s l k _ r); [|done..]. cbn [mbind outcome_bind].
  rewrite take_app_length. f_equal. do 2 f_equal.
  - change (mfiles ss ++ [mjoin s]) with (files_of ss s). rewrite <-Hd. by destruct d.
  - rewrite HL at 2. rewrite <-log_of_scanned, flens_app. simpl.
    by rewrite (length_map _ ss : length (mfiles ss) = _).
Qed.

(** ** Crashes *)

(** The directory when [append] stops after writing [k] bytes of [l]. *)
Definition crash_append (d : nsdir) (L : Log) (l : bytes) (k : nat) : nsdir :=
  let '(d, L) := roll d L (length l) in
  set_segs d (<[(cur L).1 := write_at (cur L).2 (take k l)
                              (default [] (segs d !! (cur L).1))]> (segs d)).

Lemma crash_append_full d L l d' L' n :
  append d L l = Ok (d', L', n) -> crash_append d L l (length l) = d'.
Proof.
  unfold append, crash_append. destruct (roll d L (length l)) as [d1 L1].
  intros E. res_inv. simplify_eq. by rewrite take_ge.
Qed.

Lemma crash_append_segs d L l k d1 L1 ss1 s1 :
  roll d L (length l) = (d1, L1) -> log_rep d1 L1 ss1 s1 ->
  crash_append d L l k = set_segs d1 (map_seq 0 (mfiles ss1 ++ [mjoin s1 ++ take k l])).
Proof.
  intros Hr (Hd & _ & EL). unfold crash_append. rewrite Hr, EL. cbn [cur log_of fst snd].
  rewrite Hd, lookup_map_seq_0, files_lookup. cbn [from_option id].
  rewrite write_at_end. unfold files_of, mfiles.
  rewrite <-(length_map (fun x : list bytes => mjoin x) ss1).
  by erewrite map_seq_update by done.
Qed.

Lemma recover_crashed d L ss s l k r dn :
  log_rep d L ss s -> parse l (head L) = Ok (r, head L) -> (k < length l)%nat ->
  exists d' L' ss' s', log_rep d' L' ss' s' /\ log_records ss' s' = log_records ss s
    /\ recover (crash_append d L l k) dn (durable L)
       = Ok (d', L', if (k =? 0)%nat then None else Some (TruncatedTail 1)).
Proof.
  intros Hrep Hp Hk.
  destruct (roll_any _ _ _ _ (length l) Hrep)
    as (d1 & L1 & ss1 & s1 & Hr & Hrep1 & Hlr & Hh & _ & Hdu & _).
  rewrite <-Hh in Hp. rewrite (crash_append_segs _ _ _ k _ _ _ _ Hr Hrep1), <-Hdu.
  exists d1, L1, ss1, s1. split_and!; [done..|].
  destruct (Nat.eqb_spec k 0) as [->|Hk0]; [|eapply recover_torn; eauto; lia].
  rewrite take_0, app_nil_r. change (mfiles ss1 ++ [mjoin s1]) with (files_of ss1 s1).
  rewrite <-(proj1 Hrep1). replace (set_segs d1 (segs d1)) with d1 by (by destruct d1).
  by eapply recover_exact.
Qed.

(** ** What a successful recovery says about the files *)

Definition scan_result (il : bool) (base pos : nat) (st : rstate) (buf : bytes) (r : scan_end)
    : Prop :=
  exists s tail, drop pos buf = mjoin s ++ tail /\ chain_ok (r_head st) s
    /\ match r with
       | SegEnd st' => tail = [] /\ st' = scanned st (base + pos) s
       | TornAt p st' => il = true /\ tail <> [] /\ p = (pos + length (mjoin s))%nat
                         /\ st' = scanned st (base + pos) s
       end.

Lemma scanned_nil st base : scanned st base [] = st.
Proof. unfold scanned. simpl. rewrite Z.add_0_r, app_nil_r. by destruct st. Qed.

Lemma scan_result_end il base pos st buf :
  (length buf <= pos)%nat -> scan_result il base pos st buf (SegEnd st).
Proof. intros. exists [], []. by rewrite drop_ge, scanned_nil. Qed.

Lemma scan_result_torn base pos st buf : (pos < length buf)%nat ->
  scan_result true base pos st buf (TornAt pos st).
Proof.
  intros Hp. exists [], (drop pos buf). rewrite scanned_nil, Nat.add_0_r. split_and!; try done.
  intros E. apply (f_equal length) in E. rewrite length_drop in E. simpl in E. lia.
Qed.

Lemma scan_result_cons il base pos st buf l r0 r :
  parse l (r_head st) = Ok (r0, r_head st) ->
  slice buf pos (pos + length l) = Some l ->
  scan_result il base (pos + length l) (scanned st (base + pos) [l]) buf r ->
  scan_result il base pos st buf r.
Proof.
  intros Hp Hsl (s & tail & Hd & Hch & Hr).
  apply slice_Some in Hsl as (Hle & Hl & _).
  replace (pos + length l - pos)%nat with (length l) in Hl by lia.
  exists (l :: s), tail. split_and!.
  - rewrite <-(take_drop (length l) (drop pos buf)), <-Hl, drop_drop, Hd.
    by rewrite mjoin_cons, app_assoc.
  - simpl. eauto.
  - assert (scanned (scanned st (base + pos) [l]) (base + (pos + length l)) s
            = scanned st (base + pos) (l :: s)) as E.
    { etrans; [|apply (scanned_app st (base + pos) [l] s)]. f_equal. simpl.
      rewrite app_nil_r. lia. }
    destruct r; rewrite <-E; [done|]. destruct Hr as (-> & ? & -> & ->).
    rewrite mjoin_cons, length_app. split_and!; [done|done|lia|done].
Qed.

Lemma scan_inv fuel dn il sn base buf pos st r :
  scan_segment fuel dn il sn base buf pos st = Ok r -> (length buf <= pos + fuel)%nat ->
  scan_result il base pos st buf r.
Proof.
  revert pos st. induction fuel as [|fuel IH]; intros pos st; cbn [scan_segment];
    destruct (Nat.leb_spec (length buf) pos) as [Hle|Hgt]; intros E Hf; simplify_eq;
    try (by apply scan_result_end); [lia|].
  destruct (length buf - pos <? HEADER_LEN)%nat eqn:Hh.
  { destruct il; simplify_eq. by apply scan_result_torn. }
  res_inv. destruct (Z.of_nat (length buf - pos) <? _) eqn:Hr.
  { destruct il; simplify_eq. by apply scan_result_torn. }
  res_inv. set (n := Z.to_nat (Z.of_nat HEADER_LEN + a1)) in *.
  destruct (parse _ (r_head st)) as [[r0 prev]|e|] eqn:Ep; [| |done].
  - pose proof (parse_ok_inv _ _ _ _ Ep) as ((Hl & _) & -> & _).
    pose proof (slice_Some _ _ _ _ Heqo0) as (_ & _ & Hn).
    assert (n = length a0) as En by lia. rewrite En in *.
    eapply scan_result_cons; [done..|]. apply IH; [exact E|]. unfold HEADER_LEN in *; lia.
  - destruct (il && _) eqn:Hil; simplify_eq. apply andb_true_iff in Hil as [-> _].
    by apply scan_result_torn.
Qed.

Lemma scan_all_inv dn (m : gmap nat bytes) i fs total st r :
  (forall j, m !! (i + j)%nat = fs !! j) -> fs <> [] ->
  scan_all dn m (flens i fs) total st = Ok r ->
  exists ss f, fs = mfiles ss ++ [f] /\ chain_ok (r_head st) (mjoin ss).
Proof.
  revert i total st. induction fs as [|f fs IH]; intros i total st Hm Hne E; [done|].
  destruct fs as [|f2 fs]; [by exists [], f|].
  cbn [flens scan_all] in E. pose proof (Hm 0%nat) as H0. rewrite Nat.add_0_r in H0.
  rewrite H0 in E. cbn [lookup list_lookup from_option id] in E.
  apply bind_ok in E as (e & Es & E). apply scan_inv in Es as (s & tail & Hd & Hch & He); [|lia].
  destruct e; [|by destruct He]. destruct He as [-> ->]. rewrite drop_0, app_nil_r in Hd. subst f.
  apply IH in E as (ss & f & -> & Hss); [| |done].
  - exists (s :: ss), f. split; [done|]. rewrite mjoin_cons, chain_ok_app. done.
  - intros j. specialize (Hm (S j)). by rewrite Nat.add_succ_r in Hm.
Qed.

(** Whatever the segment files hold, a recovery that succeeds leaves the
    longest chain of whole records: all of every closed segment, and of the
    final one all but a tail that is dropped with a warning. *)
Lemma recover_inv d dn dur fs d' L w :
  segs d = map_seq 0 fs -> fs <> [] -> recover d dn dur = Ok (d', L, w) ->
  exists ss s tail, fs = mfiles ss ++ [mjoin s ++ tail]
    /\ log_rep d' L ss s /\ durable L = dur /\ sidecar d' = sidecar d
    /\ (w = None /\ tail = [] \/ w = Some (TruncatedTail 1) /\ tail <> []).
Proof.
  intros Hd Hne E.
  assert (exists ss f, fs = mfiles ss ++ [f] /\ chain_ok zero32 (mjoin ss)) as (ss & f & -> & Hss).
  { unfold recover in E. rewrite Hd, discover_files in E. apply bind_ok in E as (r & Es & _).
    eapply (scan_all_inv _ _ _ _ _ st0) in Es; [done| |done]. intros j. apply lookup_map_seq_0. }
  rewrite (recover_run _ _ _ _ _ Hd Hss) in E.
  apply bind_ok in E as (e & Es & E). apply scan_inv in Es as (s & tail & Hf & Hch & He); [|lia].
  rewrite drop_0 in Hf. subst f. exists ss, s, tail. split; [done|].
  assert (chain_ok zero32 (mjoin ss ++ s)) as Hall by (by apply chain_ok_app).
  destruct e as [st|p st]; [destruct He as [-> ->]|destruct He as (_ & Ht & -> & ->)];
    cbv beta zeta in E; injection E as <- <- <-; rewrite Nat.add_0_r.
  - rewrite !app_nil_r, log_of_scanned. rewrite app_nil_r in Hd.
    split_and!; try done. left. done.
  - rewrite take_app_length. split; [|naive_solver]. split_and!; [done..|].
    cbn [durable]. rewrite <-log_of_scanned, flens_app. simpl.
    by rewrite (length_map _ ss : length (mfiles ss) = _).
Qed.

(** ** Reading *)

Lemma mjoin_split {A} (ss : list (list A)) rs1 l rs2 :
  mjoin ss = rs1 ++ l :: rs2 ->
  exists a pre post b, ss = a ++ (pre ++ l :: post) :: b /\ rs1 = mjoin a ++ pre.
Proof.
  revert rs1. induction ss as [|s ss IH]; intros rs1; [by destruct rs1|].
  rewrite mjoin_cons. intros E. apply app_eq_inv in E as [(k & -> & E)|(k & -> & E)].
  - destruct k as [|x k].
    + rewrite app_nil_r. destruct (IH [] (eq_sym E)) as (a & pre & post & b & -> & Hr).
      exists (rs1 :: a), pre, post, b. rewrite mjoin_cons, <-app_assoc, <-Hr, app_nil_r. done.
    + injection E as <- _. exists [], rs1, k, ss. done.
  - destruct (IH _ E) as (a & pre & post & b & -> & ->).
    exists (s :: a), pre, post, b. by rewrite mjoin_cons, app_assoc.
Qed.

Lemma segment_at_find i fs1 f fs2 off acc :
  (acc + length (mjoin fs1) <= off < acc + length (mjoin fs1) + length f)%nat ->
  segment_at_go (flens i (fs1 ++ f :: fs2)) off acc
  = Ok ((i + length fs1)%nat, (acc + length (mjoin fs1))%nat).
Proof.
  revert i acc. induction fs1 as [|f1 fs1 IH]; intros i acc Ho; simpl in *.
  - destruct (Nat.ltb_spec off (acc + length f)); [|lia]. by rewrite !Nat.add_0_r.
  - rewrite length_app in *. destruct (Nat.ltb_spec off (acc + length f1)); [lia|].
    rewrite IH by lia. do 2 f_equal; lia.
Qed.

Lemma read_at_record d L off pre l post sn start :
  frame_ok l -> segment_at L off = Ok (sn, start) ->
  segs d !! sn = Some (pre ++ l ++ post) -> (off - start)%nat = length pre ->
  read_at d L off = Ok l.
Proof.
  intros Hf Hs Hseg Ho. pose proof Hf as (Hlen & _ & Hd & _). unfold read_at.
  rewrite Hs. cbn [mbind outcome_bind]. rewrite Hseg. cbn [ok_or mbind outcome_bind]. rewrite Ho.
  unfold read_exact. assert (pre ++ l ++ post
    = pre ++ take HEADER_LEN l ++ drop HEADER_LEN l ++ post) as El
    by (by rewrite (app_assoc (take _ _)), take_drop).
  rewrite El at 1. rewrite (slice_app pre (take HEADER_LEN l)) by (rewrite ?length_take; lia).
  cbn [mbind outcome_bind].
  rewrite get_u32_range by (unfold HEADER_LEN in *; rewrite length_take; lia).
  cbn [mbind outcome_bind].
  rewrite skipn_firstn_comm, take_take, Nat.min_l, Hd by (unfold HEADER_LEN; lia).
  destruct (Z.ltb_spec (Z.of_nat (length (pre ++ l ++ post))) (Z.of_nat (length l - HEADER_LEN)))
    as [Hl|_]; [rewrite !length_app in Hl; lia|].
  rewrite Nat2Z.id, El, app_assoc, slice_app by (rewrite ?length_app, ?length_take, ?length_drop; lia).
  simpl. by rewrite take_drop.
Qed.

(** The start offset of a record, and the record found there. *)
Lemma offs_lookup base rs1 l rs2 :
  offs base (rs1 ++ l :: rs2) = offs base rs1 ++ (base + length (mjoin rs1))%nat
    :: offs (base + length (mjoin rs1) + length l) rs2.
Proof. by rewrite offs_app. Qed.

Lemma read_at_rep d L ss s rs1 l rs2 :
  log_rep d L ss s -> log_records ss s = rs1 ++ l :: rs2 ->
  read_at d L (length (mjoin rs1)) = Ok l.
Proof.
  intros (Hd & Hch & HL) Hrs. unfold log_records in Hrs.
  rewrite Hrs, chain_ok_app in Hch. destruct Hch as [Hch1 [[r Hp] _]].
  apply parse_rec_frame in Hp as [Hf _].
  rewrite <-mjoin_snoc in Hrs. destruct (mjoin_split _ _ _ _ Hrs) as (a & pre & post & b & Es & ->).
  assert (files_of ss s = mfiles a ++ (mjoin pre ++ l ++ mjoin post) :: mfiles b) as Ef.
  { change (files_of ss s) with (mfiles ss ++ mfiles [s]). unfold mfiles.
    rewrite <-map_app, Es, map_app. simpl. by rewrite mjoin_app. }
  assert (length (mjoin (mfiles a)) = length (mjoin (mjoin a))) as Ea.
  { clear. induction a as [|x a IH]; [done|]. simpl. rewrite mjoin_app, !length_app. lia. }
  eapply (read_at_record _ _ _ (mjoin pre) l (mjoin post) (length (mfiles a))
            (length (mjoin (mjoin a)))); [done| | |].
  - unfold segment_at. rewrite HL. cbn [seg_lens log_of].
    rewrite lens_flens, map_app. change (map _ ss ++ map _ [s]) with (files_of ss s).
    rewrite Ef, segment_at_find; [by rewrite Ea|].
    rewrite Ea, mjoin_app, !length_app. pose proof Hf as (Hl & _). unfold HEADER_LEN in Hl. lia.
  - rewrite Hd, lookup_map_seq_0, Ef. by apply list_lookup_middle.
  - rewrite mjoin_app, length_app. lia.
Qed.

(** Records with their sequence numbers. *)
Definition numbered (from : Z) (rs : list bytes) : list (Z * bytes) :=
  zip (seqZ from (Z.of_nat (length rs))) rs.

Lemma numbered_cons from l rs : numbered from (l :: rs) = (from, l) :: numbered (from + 1) rs.
Proof.
  unfold numbered. cbn [length]. rewrite seqZ_cons by lia. simpl. do 3 f_equal; lia.
Qed.

Lemma numbered_snd from rs : (numbered from rs).*2 = rs.
Proof.
  revert from. induction rs as [|b rs IH]; intros from; [done|].
  rewrite numbered_cons. simpl. f_equal. apply IH.
Qed.

Lemma read_list_rep d L ss s rs1 rs2 rs3 :
  log_rep d L ss s -> log_records ss s = rs1 ++ rs2 ++ rs3 ->
  read_list d L (offs (length (mjoin rs1)) rs2) (Z.of_nat (length rs1))
  = Ok (numbered (Z.of_nat (length rs1) + 1) rs2).
Proof.
  intros Hrep. revert rs1. induction rs2 as [|l rs2 IH]; intros rs1 Hrs; [done|].
  cbn [offs read_list]. rewrite (read_at_rep _ _ _ _ rs1 l (rs2 ++ rs3) Hrep Hrs).
  cbn [mbind outcome_bind]. specialize (IH (rs1 ++ [l])).
  rewrite mjoin_snoc, !length_app, <-app_assoc in IH. cbn [length] in IH.
  rewrite Nat2Z.inj_add in IH. change (Z.of_nat 1) with 1 in IH. rewrite IH by done. cbn [mbind outcome_bind].
  by rewrite numbered_cons.
Qed.

Lemma read_records_rep d L ss s from max :
  log_rep d L ss s -> 1 <= from <= seq L -> 0 <= max -> is_u64 (from - 1 + max) ->
  read_records d L from max
  = Ok (numbered from
      (let rs := drop (Z.to_nat (from - 1)) (log_records ss s) in
       if max =? 0 then rs else take (Z.to_nat max) rs)).
Proof.
  intros Hrep Hfrom Hmax Hu. pose proof Hrep as (_ & _ & HL).
  assert (offsets L = offs 0 (log_records ss s)) as Eo by (by rewrite HL).
  assert (seq L = Z.of_nat (length (log_records ss s))) as Es by (by rewrite HL).
  unfold read_records. rewrite Eo, length_offs.
  destruct (Z.eqb_spec from 0); [lia|]. destruct (Z.ltb_spec (seq L) from); [lia|]. simpl.
  set (rs := log_records ss s) in *. set (k := Z.to_nat (from - 1)).
  set (rs2 := if max =? 0 then drop k rs else take (Z.to_nat max) (drop k rs)).
  assert (exists rs3, rs = take k rs ++ rs2 ++ rs3) as [rs3 E3].
  { unfold rs2. destruct (max =? 0).
    - exists []. by rewrite app_nil_r, take_drop.
    - exists (drop (Z.to_nat max) (drop k rs)). by rewrite !take_drop. }
  assert (length (take k rs) = k) as Hk by (rewrite length_take; lia).
  pose proof (read_list_rep d L ss s (take k rs) rs2 rs3 Hrep E3) as R. rewrite Hk in R.
  replace (Z.of_nat k) with (from - 1) in R by lia. rewrite Z.sub_add in R.
  rewrite <-R. f_equal.
  apply (f_equal (offs 0)) in E3. rewrite !offs_app in E3. rewrite E3, drop_app_length' by (rewrite length_offs; lia).
  rewrite take_app_length'; [done|]. rewrite length_offs. unfold rs2.
  destruct (Z.eqb_spec max 0); rewrite ?length_take, length_drop; [lia|].
  rewrite u64_small by done. lia.
Qed.

(** ** The contract other components use *)

(** [is_log d L rs]: the directory and the in-memory log hold exactly [rs]. *)
Definition is_log (d : nsdir) (L : Log) (rs : list bytes) : Prop :=
  exists ss s, log_rep d L ss s /\ log_records ss s = rs.

Lemma is_log_facts d L rs : is_log d L rs ->
  seq L = Z.of_nat (length rs) /\ head L = fhead zero32 rs /\ chain_ok zero32 rs.
Proof. intros (ss & s & (_ & Hch & ->) & <-). done. Qed.

Lemma length_fhead h rs : length h = 32%nat -> length (fhead h rs) = 32%nat.
Proof.
  revert h. induction rs as [|l rs IH]; intros h Hh; [done|]. apply IH, sha256_length.
Qed.

Lemma is_log_head d L rs : is_log d L rs -> length (head L) = 32%nat.
Proof. intros (_ & -> & _)%is_log_facts. by apply length_fhead. Qed.

Lemma append_is_log d L rs l r :
  is_log d L rs -> parse l (head L) = Ok (r, head L) ->
  exists d' L', append d L l = Ok (d', L', seq L + 1) /\ is_log d' L' (rs ++ [l])
    /\ sidecar d' = sidecar d /\ durable L' = durable L.
Proof.
  intros (ss & s & Hrep & <-) Hp.
  destruct (append_rep _ _ _ _ _ _ Hrep Hp) as (d' & L' & ss' & s' & ? & ? & ? & ? & _ & _ & ?).
  exists d', L'. unfold is_log. naive_solver.
Qed.

Lemma recover_is_log d L rs dn :
  is_log d L rs -> recover d dn (durable L) = Ok (d, L, None).
Proof. intros (ss & s & Hrep & _). by eapply recover_exact. Qed.

(** [recover] of a namespace directory with no segment yet. *)
Lemma recover_fresh d dn dur :
  segs d = ∅ -> exists d' L, recover d dn dur = Ok (d', L, None) /\ is_log d' L []
    /\ durable L = dur /\ sidecar d' = sidecar d.
Proof.
  intros Hd. unfold recover. rewrite Hd.
  assert (discover (S (size (∅ : gmap nat bytes))) ∅ 0 = []) as -> by done.
  cbn [scan_all mbind outcome_bind last fmap option_fmap option_map from_option].
  rewrite lookup_empty. eexists _, _. split; [done|]. split; [|done]. exists [], [].
  split; [|done]. by split; [|split; [exact I|]].
Qed.

(** Segment files numbered without a gap. *)
Definition contiguous (d : nsdir) : Prop := exists fs, segs d = map_seq 0 fs.

Lemma is_log_contiguous d L rs : is_log d L rs -> contiguous d.
Proof. intros (ss & s & (Hd & _) & _). by eexists. Qed.

Lemma recover_any d dn dur d' L w : contiguous d -> recover d dn dur = Ok (d', L, w) ->
  exists rs, is_log d' L rs /\ durable L = dur /\ sidecar d' = sidecar d.
Proof.
  intros [fs Hfs] E. destruct (decide (fs = [])) as [->|Hne].
  - destruct (recover_fresh d dn dur Hfs) as (d2 & L2 & E2 & ? & ? & ?).
    rewrite E2 in E. simplify_eq. eauto.
  - destruct (recover_inv _ _ _ _ _ _ _ Hfs Hne E) as (ss & s & tail & _ & Hrep & ? & ? & _).
    exists (log_records ss s). split_and!; [|done..]. by exists ss, s.
Qed.

Lemma crash_append_recovers d L rs l r k dn :
  is_log d L rs -> parse l (head L) = Ok (r, head L) -> (k <= length l)%nat ->
  exists d' L' w, recover (crash_append d L l k) dn (durable L) = Ok (d', L', w)
    /\ is_log d' L' (if (k =? length l)%nat then rs ++ [l] else rs)
    /\ (w = None <-> k = 0%nat \/ k = length l).
Proof.
  intros (ss & s & Hrep & <-) Hp Hk. destruct (Nat.eqb_spec k (length l)) as [->|Hne].
  - destruct (append_rep _ _ _ _ _ _ Hrep Hp)
      as (d' & L' & ss' & s' & Ha & Hrep' & _ & Hlr & _ & _ & Hdu).
    rewrite (crash_append_full _ _ _ _ _ _ Ha), <-Hdu.
    exists d', L', None. rewrite (recover_exact _ _ _ _ _ Hrep').
    split; [done|]. unfold is_log. naive_solver.
  - destruct (recover_crashed d L ss s l k r dn Hrep Hp ltac:(lia))
      as (d' & L' & ss' & s' & Hrep' & Hlr & Hrec).
    exists d', L', (if (k =? 0)%nat then None else Some (TruncatedTail 1)).
    split; [done|]. split; [by exists ss', s'|].
    destruct (Nat.eqb_spec k 0); naive_solver.
Qed.

Lemma recover_keeps d dn dur d' L w : recover d dn dur = Ok (d', L, w) -> sidecar d' = sidecar d /\ durable L = dur.
Proof.
  unfold recover. destruct (scan_all _ _ _ _ _) as [[st cut]|?|]; [|done..]. cbn [mbind outcome_bind].
  destruct (match cut with Some _ => _ | None => _ end) as [[m found] warn]. by intros [= <- <- _].
Qed.

Lemma crash_append_sidecar d L l k : sidecar (crash_append d L l k) = sidecar d.
Proof. unfold crash_append, roll. by destruct (_ && _). Qed.

(** The digest tells the strings of [l] apart.  What relies on it names the
    strings that were hashed. *)
Definition separates (l : list bytes) : Prop := forall x y, x ∈ l -> y ∈ l -> sha256 x = sha256 y -> x = y.

Lemma separates_sub l l' : l ⊆ l' -> separates l' -> separates l.
Proof. intros Hl Hs x y Hx Hy. apply Hs; by apply Hl. Qed.

#[global] Instance separates_dec l : Decision (separates l).
Proof.
  assert (Forall (fun x => Forall (fun y => sha256 x = sha256 y -> x = y) l) l <-> separates l) as E.
  { rewrite Forall_forall. setoid_rewrite Forall_forall. unfold separates. naive_solver. }
  destruct (decide (Forall (fun x => Forall (fun y => sha256 x = sha256 y -> x = y) l) l)) as [Hf|Hf];
    [left; by apply E|right; by rewrite <-E].
Defined.

(** What is hashed along a chain of records. *)
Fixpoint links (h : bytes) (rs : list bytes) : list bytes :=
  match rs with [] => [] | l :: rs => (h ++ l) :: links (record_hash h l) rs end.

Lemma links_app h rs l : links h (rs ++ [l]) = links h rs ++ [fhead h rs ++ l].
Proof. revert h. induction rs as [|l' rs IH]; intros h; [done|]. cbn. by rewrite IH. Qed.

Lemma fhead_inj rs1 rs2 : separates (links zero32 rs1 ++ links zero32 rs2) ->
  length rs1 = length rs2 -> fhead zero32 rs1 = fhead zero32 rs2 -> rs1 = rs2.
Proof.
  revert rs2. induction rs1 as [|l1 rs1 IH] using rev_ind; intros rs2 Hsep Hl E.
  { by destruct rs2. }
  destruct rs2 as [|l2 rs2 _] using rev_ind; [rewrite length_app in Hl; simpl in Hl; lia|].
  rewrite !length_app in Hl. simpl in Hl. rewrite !fhead_app in E. simpl in E.
  unfold record_hash in E. rewrite !links_app in Hsep.
  apply Hsep in E; [|set_solver..]. apply app_inj_1 in E as [Eh ->]; [|by rewrite !length_fhead].
  f_equal. apply IH; [|lia|done]. eapply separates_sub; [|exact Hsep]. set_solver.
Qed.

(** ** Properties *)

(** C1: appending a record and crashing after any number of its bytes have
    reached the file leaves a log from which [recover] rebuilds either the
    old record sequence (fewer than all bytes written; a partial write also
    reports a truncated tail) or the old sequence plus the record, in a state
    that again represents exactly those records; nothing else is lost. *)
Theorem append_crash_atomic d L rs l r k dn :
  is_log d L rs -> parse l (head L) = Ok (r, head L) -> (k <= length l)%nat ->
  exists d' L' w, recover (crash_append d L l k) dn (durable L) = Ok (d', L', w)
    /\ is_log d' L' (if (k =? length l)%nat then rs ++ [l] else rs)
    /\ (w = None <-> k = 0%nat \/ k = length l).
Proof. apply crash_append_recovers. Qed.

(** Whatever bytes the contiguous segment files hold, when [recover]
    succeeds the log it returns holds exactly the records it kept on disk,
    every closed segment is kept whole, and the final segment loses at most a
    tail, which is reported; the result recovers to itself. *)
Theorem recover_sound d dn dur fs d' L w :
  segs d = map_seq 0 fs -> fs <> [] -> recover d dn dur = Ok (d', L, w) ->
  exists closed kept tail rs, fs = closed ++ [kept ++ tail]
    /\ segs d' = map_seq 0 (closed ++ [kept]) /\ is_log d' L rs
    /\ mjoin (closed ++ [kept]) = mjoin rs
    /\ (w = None /\ tail = [] \/ w = Some (TruncatedTail 1) /\ tail <> [])
    /\ recover d' dn dur = Ok (d', L, None).
Proof.
  intros Hd Hne E.
  destruct (recover_inv _ _ _ _ _ _ _ Hd Hne E) as (ss & s & tail & -> & Hrep & <- & _ & Hw).
  exists (mfiles ss), (mjoin s), tail, (log_records ss s).
  split_and!; try done; [apply Hrep|by exists ss, s| |by eapply recover_exact].
  unfold log_records. rewrite mjoin_snoc, mjoin_app. f_equal.
  clear. induction ss as [|x ss IH]; [done|]. simpl. by rewrite mjoin_app, IH.
Qed.

(** Appending a well-formed record returns the next sequence number, and
    the log then holds the old records followed by the new one; reading at
    that sequence number gives back the record's bytes, and reopening gives
    back the same log. *)
Theorem append_read_reopen d L rs r dn :
  is_log d L rs -> wf_record r -> is_u64 (seq L + 1) ->
  exists d' L', append d L (to_bytes r (head L)) = Ok (d', L', seq L + 1)
    /\ is_log d' L' (rs ++ [to_bytes r (head L)])
    /\ read_records d' L' (seq L + 1) 1 = Ok [(seq L + 1, to_bytes r (head L))]
    /\ recover d' dn (durable L) = Ok (d', L', None).
Proof.
  intros Hlog Hwf Hu. set (l := to_bytes r (head L)).
  assert (parse l (head L) = Ok (r, head L)) as Hp.
  { apply parse_chain_to_bytes; [done|by eapply is_log_head|by right]. }
  destruct (append_is_log _ _ _ _ _ Hlog Hp) as (d' & L' & Ha & Hlog' & _ & Hdu).
  exists d', L'. rewrite <-Hdu, (recover_is_log _ _ _ _ Hlog'). split_and!; try done.
  destruct (is_log_facts _ _ _ Hlog) as (Hs & _ & _).
  destruct (is_log_facts _ _ _ Hlog') as (Hs' & _ & _). rewrite length_app in Hs'. simpl in Hs'.
  destruct Hlog' as (ss & s & Hrep & Hlr).
  rewrite (read_records_rep _ _ _ _ _ _ Hrep) by (rewrite ?Z.add_simpl_r; done || lia).
  rewrite Hlr, drop_app_length' by lia. done.
Qed.

(** Reading a window of an intact log returns exactly the records of that
    window, in order, with their sequence numbers; [max = 0] reads to the
    end. *)
Theorem read_records_exact d L rs from max :
  is_log d L rs -> 1 <= from <= seq L -> 0 <= max -> is_u64 (from - 1 + max) ->
  read_records d L from max
  = Ok (numbered from (let w := drop (Z.to_nat (from - 1)) rs in
                       if max =? 0 then w else take (Z.to_nat max) w)).
Proof. intros (ss & s & Hrep & <-). by apply read_records_rep. Qed.

(** The head commits to the whole history: two intact logs with as many
    records and the same head hold the same records, when the digest tells the
    strings hashed along the two chains apart. *)
Theorem head_commits_history d1 L1 rs1 d2 L2 rs2 :
  is_log d1 L1 rs1 -> is_log d2 L2 rs2 -> seq L1 = seq L2 -> head L1 = head L2 ->
  separates (links zero32 rs1 ++ links zero32 rs2) -> rs1 = rs2.
Proof.
  intros (Hs1 & Hh1 & _)%is_log_facts (Hs2 & Hh2 & _)%is_log_facts Hs Hh Hsep.
  apply fhead_inj; [done|lia|congruence].
Qed.

End spec.

(** ** A concrete log of one batch record *)

#[local] Existing Instance toy_sha256.

Definition demo_rec : bytes := to_bytes demo_batch zero32.
Definition demo_dir : nsdir := mkDir (map_seq 0 [demo_rec]) None.
Definition demo_log : Log := log_of false [] [demo_rec].

Lemma demo_parse : parse demo_rec zero32 = Ok (demo_batch, zero32).
Proof. apply parse_chain_to_bytes; [apply demo_batch_wf|done|by right]. Qed.

Lemma demo_is_log : is_log demo_dir demo_log [demo_rec].
Proof.
  exists [], [demo_rec]. split; [|done]. split_and!; [|split; [eexists; apply demo_parse|exact I]|done].
  unfold demo_dir, files_of. cbn [segs map app]. by rewrite mjoin_cons, app_nil_r.
Qed.

Lemma demo_next : parse (to_bytes demo_batch (head demo_log)) (head demo_log)
  = Ok (demo_batch, head demo_log).
Proof. apply parse_chain_to_bytes; [apply demo_batch_wf|reflexivity|by right]. Qed.

Lemma append_crash_atomic_witness :
  exists d' L' w, recover (crash_append demo_dir demo_log
                             (to_bytes demo_batch (head demo_log)) 50) (bs "ns") false
      = Ok (d', L', w)
    /\ is_log d' L' [demo_rec] /\ (w = None <-> 50%nat = 0%nat \/ 50%nat = 321%nat).
Proof.
  pose proof (append_crash_atomic demo_dir demo_log [demo_rec]
    (to_bytes demo_batch (head demo_log)) demo_batch 50 (bs "ns") demo_is_log demo_next) as W.
  vm_compute (length _) in W. simpl (50 =? _)%nat in W. exact (W ltac:(lia)).
Defined.

Lemma recover_sound_witness :
  exists closed kept tail rs, [demo_rec ++ bs "torn"] = closed ++ [kept ++ tail]
    /\ segs demo_dir = map_seq 0 (closed ++ [kept]) /\ is_log demo_dir demo_log rs
    /\ mjoin (closed ++ [kept]) = mjoin rs
    /\ (Some (TruncatedTail 1) = None /\ tail = []
        \/ Some (TruncatedTail 1) = Some (TruncatedTail 1) /\ tail <> [])
    /\ recover demo_dir (bs "ns") false = Ok (demo_dir, demo_log, None).
Proof.
  apply (recover_sound (mkDir (map_seq 0 [demo_rec ++ bs "torn"]) None) (bs "ns") false
           [demo_rec ++ bs "torn"]); [done|done|vm_compute; reflexivity].
Defined.

Lemma append_read_reopen_witness :
  exists d' L', append demo_dir demo_log (to_bytes demo_batch (head demo_log)) = Ok (d', L', 2)
    /\ is_log d' L' [demo_rec; to_bytes demo_batch (head demo_log)]
    /\ read_records d' L' 2 1 = Ok [(2, to_bytes demo_batch (head demo_log))]
    /\ recover d' (bs "ns") false = Ok (d', L', None).
Proof.
  apply (append_read_reopen demo_dir demo_log [demo_rec] demo_batch (bs "ns"));
    [apply demo_is_log|apply demo_batch_wf|split; [discriminate|reflexivity]].
Defined.

Lemma read_records_exact_witness :
  read_records demo_dir demo_log 1 0 = Ok [(1, demo_rec)].
Proof.
  apply (read_records_exact demo_dir demo_log [demo_rec] 1 0);
    [apply demo_is_log|split; discriminate|discriminate|split; [discriminate|reflexivity]].
Defined.

Lemma head_commits_history_witness : [demo_rec] = [demo_rec].
Proof.
  apply (head_commits_history demo_dir demo_log [demo_rec] demo_dir demo_log [demo_rec]);
    [apply demo_is_log|apply demo_is_log|reflexivity|reflexivity|vm_decide].
Defined.

End LogSpec.
