(* ===== verification/Hlc.v ===== *)
(** The hybrid logical clock of [src/core/hlc.rs]: [Hlc::now] as the atomic
    steps of concurrent callers on the process-wide watermark [LAST], its
    sequential meaning, and [observed]. *)

From S2P Require Import Prelude.

Module Hlc.

Definition COUNTER_MASK : Z := 65535.
Definition PHYS_SHIFT : Z := 16.

Definition ms (h : Z) : Z := Z.shiftr h PHYS_SHIFT.
Definition counter (h : Z) : Z := Z.land h COUNTER_MASK.

(** [ms << PHYS_SHIFT] drops the bits past the 64th. *)
Definition base_of (ms : Z) : Z := u64 (Z.shiftl ms PHYS_SHIFT).

(** ** [observed] *)

Definition observed (self other : Z) : Z :=
  let prev_phys := Z.shiftr self PHYS_SHIFT in
  let m := Z.max self other in
  if Z.shiftr m PHYS_SHIFT =? prev_phys then
    let c := Z.land m COUNTER_MASK + 1 in
    if COUNTER_MASK <? c then u64 (Z.shiftl (prev_phys + 1) PHYS_SHIFT)
    else Z.lor (Z.land m (Z.lxor u64_max COUNTER_MASK)) c
  else m.

(** ** [now], one caller at a time *)

(** The new watermark and the timestamp it returns. *)
Definition now (last ms : Z) : Z * Z :=
  let base := base_of ms in
  if last <? base then (base, base) else (u64 (last + 1), u64 (last + 1)).

(** ** [now], concurrent callers

    Where a caller that read [ms] from the system clock is in the body of
    [now].  [AtLoad] is the loop head; [AtCas ms cur] has loaded a watermark
    [cur] below its base; [AtAdd] has loaded one that is not. *)
Inductive phase :=
| AtLoad (ms : Z)
| AtCas (ms cur : Z)
| AtAdd (ms : Z).

Record clock := mkClock {
  last : Z;
  callers : gmap nat phase;
}.

(** What a step returns to its caller, if it is the last of the call. *)
Inductive event :=
| Tau
| Return (t : nat) (ms hlc : Z).

Inductive step : clock -> event -> clock -> Prop :=
| StepCall l cs t ms :
    cs !! t = None -> 0 <= ms ->
    step (mkClock l cs) Tau (mkClock l (<[t := AtLoad ms]> cs))
| StepLoadLess l cs t ms :
    cs !! t = Some (AtLoad ms) -> l < base_of ms ->
    step (mkClock l cs) Tau (mkClock l (<[t := AtCas ms l]> cs))
| StepLoadGeq l cs t ms :
    cs !! t = Some (AtLoad ms) -> base_of ms <= l ->
    step (mkClock l cs) Tau (mkClock l (<[t := AtAdd ms]> cs))
| StepCasOk l cs t ms :
    cs !! t = Some (AtCas ms l) ->
    step (mkClock l cs) (Return t ms (base_of ms)) (mkClock (base_of ms) (delete t cs))
(** The weak exchange may fail even when the watermark is the expected one. *)
| StepCasFail l cs t ms cur :
    cs !! t = Some (AtCas ms cur) ->
    step (mkClock l cs) Tau (mkClock l (<[t := AtLoad ms]> cs))
| StepAdd l cs t ms :
    cs !! t = Some (AtAdd ms) ->
    step (mkClock l cs) (Return t ms (u64 (l + 1))) (mkClock (u64 (l + 1)) (delete t cs)).

(** A run and the timestamps it returned, oldest first.  No step of it starts
    from the largest watermark, where [fetch_add] would wrap to zero. *)
Inductive run : clock -> list Z -> clock -> Prop :=
| RunNil c : run c [] c
| RunTau c1 c2 c3 hs :
    run c1 hs c2 -> last c2 < u64_max -> step c2 Tau c3 -> run c1 hs c3
| RunReturn c1 c2 c3 hs t ms h :
    run c1 hs c2 -> last c2 < u64_max -> step c2 (Return t ms h) c3 ->
    run c1 (hs ++ [h]) c3.

Definition init : clock := mkClock 0 ∅.

(** ** The invariant *)

Definition phase_ok (l : Z) (p : phase) : Prop :=
  match p with
  | AtLoad _ => True
  | AtCas ms cur => cur < base_of ms
  | AtAdd ms => base_of ms <= l
  end.

Definition clock_ok (c : clock) : Prop :=
  is_u64 (last c) /\ map_Forall (fun _ => phase_ok (last c)) (callers c).

Lemma phase_ok_mono l l' p : l <= l' -> phase_ok l p -> phase_ok l' p.
Proof. destruct p; simpl; intuition lia. Qed.

Lemma callers_ok_mono l l' (cs : gmap nat phase) : l <= l' ->
  map_Forall (fun _ => phase_ok l) cs -> map_Forall (fun _ => phase_ok l') cs.
Proof. intros Hl Hc t p Hp. eapply phase_ok_mono; [done|]. by eapply Hc. Qed.

Lemma init_ok : clock_ok init.
Proof. split; [by split|]. apply map_Forall_empty. Qed.

(** One step keeps the invariant, and a returning step is one atomic [now]. *)
Lemma step_ok c e c' : clock_ok c -> last c < u64_max -> step c e c' ->
  clock_ok c' /\
  match e with
  | Tau => last c' = last c
  | Return _ ms h => last c < last c' /\ h = last c' /\ now (last c) ms = (last c', h)
  end.
Proof.
  intros [Hl Hcs] Hmax Hs. unfold u64_max in Hmax.
  assert (u64 (last c + 1) = last c + 1) as Hu
    by (apply u64_small; unfold is_u64 in *; lia).
  destruct Hs as [l cs t m Ht Hm|l cs t b Ht Hlt|l cs t b Ht Hle|l cs t b Ht|l cs t b cu Ht|l cs t b Ht];
    simpl in *; try pose proof (Hcs _ _ Ht) as Hp; simpl in *.
  - split; [|done]. split; [done|]. by apply map_Forall_insert_2.
  - split; [|done]. split; [done|]. by apply map_Forall_insert_2.
  - split; [|done]. split; [done|]. by apply map_Forall_insert_2.
  - unfold now. rewrite (proj2 (Z.ltb_lt _ _) Hp). split; [|done].
    split; [apply u64_range|]. apply map_Forall_delete. eapply callers_ok_mono; [|done]. simpl. lia.
  - split; [|done]. split; [done|]. by apply map_Forall_insert_2.
  - unfold now. destruct (Z.ltb_spec l (base_of b)); [lia|]. rewrite Hu. split; [|split; [lia|done]].
    split; [rewrite <-Hu; apply u64_range|].
    apply map_Forall_delete. eapply callers_ok_mono; [|done]. simpl. lia.
Qed.

Lemma run_ok c hs c' : run c hs c' -> clock_ok c ->
  clock_ok c' /\ last c <= last c'
  /\ StronglySorted Z.lt hs /\ Forall (fun h => last c < h <= last c') hs.
Proof.
  induction 1 as [c|c1 c2 c3 hs Hr IH Hm Hs|c1 c2 c3 hs t b h Hr IH Hm Hs]; intros Hc.
  - split_and!; [done|lia|constructor|constructor].
  - destruct (IH Hc) as (H2 & Hle & Hss & Hfa).
    destruct (step_ok _ _ _ H2 Hm Hs) as [H3 ->]. done.
  - destruct (IH Hc) as (H2 & Hle & Hss & Hfa).
    destruct (step_ok _ _ _ H2 Hm Hs) as (H3 & Hlt & -> & _). split_and!; [done|lia| |].
    + apply StronglySorted_app. split_and!; [|done|repeat constructor].
      intros x y Hx Hy. apply list_elem_of_singleton in Hy as ->.
      rewrite Forall_forall in Hfa. apply Hfa in Hx. lia.
    + apply Forall_app. split; [|constructor; [lia|constructor]].
      eapply Forall_impl; [exact Hfa|]. simpl. lia.
Qed.

(** ** [observed] in closed form *)

Lemma land_mask m : Z.land m COUNTER_MASK = m mod 2 ^ 16.
Proof. apply (Z.land_ones m 16). lia. Qed.

Lemma land_high m : is_u64 m -> Z.land m (Z.lxor u64_max COUNTER_MASK) = m - m mod 2 ^ 16.
Proof.
  intros Hm.
  assert (Z.land m (Z.lxor u64_max COUNTER_MASK) = Z.ldiff m COUNTER_MASK) as ->.
  { apply Z.bits_inj'. intros n Hn. rewrite Z.land_spec, Z.lxor_spec, Z.ldiff_spec.
    change u64_max with (Z.ones 64). change COUNTER_MASK with (Z.ones 16).
    destruct (decide (n < 64)).
    - rewrite (Z.ones_spec_low 64) by lia. by destruct (Z.testbit m n), (Z.testbit (Z.ones 16) n).
    - replace (Z.testbit m n) with false; [done|]. symmetry.
      destruct (decide (m = 0)) as [->|]; [apply Z.testbit_0_l|].
      apply Z.bits_above_log2; [destruct Hm; lia|].
      apply Z.log2_lt_pow2; [destruct Hm; lia|]. destruct Hm.
      eapply Z.lt_le_trans; [done|]. apply Z.pow_le_mono_r; lia. }
  change COUNTER_MASK with (Z.ones 16). rewrite Z.ldiff_ones_r by lia.
  rewrite Z.shiftl_mul_pow2, Z.shiftr_div_pow2 by lia.
  pose proof (Z.div_mod m (2 ^ 16)). lia.
Qed.

Lemma observed_eq self other : is_u64 self -> is_u64 other -> Z.max self other < u64_max ->
  observed self other =
    (let m := Z.max self other in if ms m =? ms self then m + 1 else m).
Proof.
  intros Hs Ho Hm. unfold observed, ms. cbv zeta. set (m := Z.max self other) in *.
  assert (is_u64 m) as Hmu by (unfold m, is_u64 in *; lia).
  destruct (Z.eqb_spec (Z.shiftr m PHYS_SHIFT) (Z.shiftr self PHYS_SHIFT)) as [E|]; [|done].
  rewrite <-E, land_mask. pose proof (Z.mod_pos_bound m (2 ^ 16) ltac:(lia)) as Hb.
  pose proof (Z.div_mod m (2 ^ 16) ltac:(lia)) as Hdm.
  destruct (Z.ltb_spec COUNTER_MASK (m mod 2 ^ 16 + 1)) as [Hc|Hc]; unfold COUNTER_MASK in Hc.
  - unfold PHYS_SHIFT. rewrite Z.shiftl_mul_pow2, Z.shiftr_div_pow2 by lia.
    assert ((m / 2 ^ 16 + 1) * 2 ^ 16 = m + 1) as -> by lia.
    apply u64_small. unfold u64_max, is_u64 in *. lia.
  - rewrite land_high, (lor_low 16); [lia|lia| |lia|done].
    exists (m / 2 ^ 16). lia.
Qed.

(** ** Properties *)

(** In every interleaving of concurrent [now] calls (weak exchanges that
    fail spuriously included) the timestamps returned are strictly
    increasing in the order of return, so no two writes of a process carry the
    same HLC; each is above the watermark the run started from. *)
Theorem now_strictly_increasing c hs c' :
  clock_ok c -> run c hs c' -> StronglySorted Z.lt hs /\ Forall (fun h => last c < h) hs.
Proof.
  intros Hc Hr. destruct (run_ok _ _ _ Hr Hc) as (_ & _ & Hs & Hf).
  split; [done|]. eapply Forall_impl; [exact Hf|]. simpl. lia.
Qed.

(** C39: the retry loop is linearizable: the step at which a concurrent call
    returns changes the watermark and returns exactly as one uninterrupted
    [now] with that call's clock reading would at that moment; the other
    steps leave the watermark alone. *)
Theorem now_linearizable c e c' :
  clock_ok c -> last c < u64_max -> step c e c' ->
  clock_ok c' /\
  match e with
  | Tau => last c' = last c
  | Return _ ms h => now (last c) ms = (last c', h)
  end.
Proof.
  intros Hc Hm Hs. destruct (step_ok _ _ _ Hc Hm Hs) as [Hc' He]. split; [done|].
  destruct e as [|t m h]; [done|apply He].
Qed.

(** [observed] never decreases the clock nor falls below the other
    clock; within the same physical millisecond it is the successor of the
    larger of the two, with the counter's carry, and otherwise the larger. *)
Theorem observed_spec self other :
  is_u64 self -> is_u64 other -> Z.max self other < u64_max ->
  self <= observed self other /\ other <= observed self other
  /\ is_u64 (observed self other)
  /\ observed self other =
       (if ms (Z.max self other) =? ms self then Z.max self other + 1 else Z.max self other).
Proof.
  intros Hs Ho Hm. rewrite (observed_eq self other Hs Ho Hm). cbv zeta.
  unfold is_u64, u64_max in *. destruct (_ =? _); split_and!; lia.
Qed.

(** ** Concrete runs *)

(** Two callers in the same millisecond; the second loads before the first
    exchanges, loses the race and bumps the counter. *)
Definition demo_run : run init [327680; 327681] (mkClock 327681 ∅).
Proof.
  set (b := base_of 5).
  change [327680; 327681] with ([b] ++ [u64 (b + 1)]).
  eapply (RunReturn _ (mkClock b {[2%nat := AtAdd 5]}) _ [b] 2 5); [|reflexivity|].
  2: { pose proof (StepAdd b {[2%nat := AtAdd 5]} 2 5 eq_refl) as S.
       rewrite delete_singleton_eq in S. exact S. }
  eapply (RunTau _ (mkClock b {[2%nat := AtLoad 5]})); [|reflexivity|].
  2: { pose proof (StepLoadGeq b {[2%nat := AtLoad 5]} 2 5 eq_refl ltac:(lia)) as S.
       rewrite insert_singleton_eq in S. exact S. }
  eapply (RunTau _ (mkClock b {[2%nat := AtCas 5 0]})); [|reflexivity|].
  2: { pose proof (StepCasFail b {[2%nat := AtCas 5 0]} 2 5 0 eq_refl) as S.
       rewrite insert_singleton_eq in S. exact S. }
  eapply (RunReturn _ (mkClock 0 {[1%nat := AtCas 5 0; 2%nat := AtCas 5 0]}) _ [] 1 5);
    [|reflexivity|
     exact (StepCasOk 0 {[1%nat := AtCas 5 0; 2%nat := AtCas 5 0]} 1 5 eq_refl)].
  eapply (RunTau _ (mkClock 0 {[1%nat := AtLoad 5; 2%nat := AtCas 5 0]})); [|reflexivity|].
  2: { exact (StepLoadLess 0 {[1%nat := AtLoad 5; 2%nat := AtCas 5 0]} 1 5 eq_refl eq_refl). }
  eapply (RunTau _ (mkClock 0 {[2%nat := AtCas 5 0]})); [|reflexivity|].
  2: { exact (StepCall 0 {[2%nat := AtCas 5 0]} 1 5 eq_refl ltac:(lia)). }
  eapply (RunTau _ (mkClock 0 {[2%nat := AtLoad 5]})); [|reflexivity|].
  2: { exact (StepLoadLess 0 {[2%nat := AtLoad 5]} 2 5 eq_refl eq_refl). }
  eapply (RunTau _ init); [constructor|reflexivity|].
  exact (StepCall 0 ∅ 2 5 eq_refl ltac:(lia)).
Defined.

Lemma now_strictly_increasing_witness :
  StronglySorted Z.lt [327680; 327681] /\ Forall (fun h => 0 < h) [327680; 327681].
Proof. exact (now_strictly_increasing init _ _ init_ok demo_run). Defined.

Lemma now_linearizable_witness :
  clock_ok (mkClock 327680 ∅) /\ now 0 5 = (327680, 327680).
Proof.
  apply (now_linearizable (mkClock 0 {[1%nat := AtCas 5 0]})
           (Return 1 5 (base_of 5)) (mkClock 327680 ∅)).
  - split; [by split|]. by apply map_Forall_singleton.
  - reflexivity.
  - exact (StepCasOk 0 {[1%nat := AtCas 5 0]} 1 5 eq_refl).
Defined.

Lemma observed_spec_witness :
  65535 <= observed 65535 3 /\ 3 <= observed 65535 3 /\ is_u64 (observed 65535 3)
  /\ observed 65535 3 = 65536.
Proof.
  apply (observed_spec 65535 3); [split; [done|reflexivity]..|reflexivity].
Defined.

End Hlc.
