(* ===== verification/Base64.v ===== *)
(** The base64 and base64url codecs of [src/util.rs]. *)

From S2P Require Import Prelude.

Module Base64.

Definition B64 : bytes := bs "ABCDEFGHIJKLMNOPQRSTUVWXYZabcdefghijklmnopqrstuvwxyz0123456789+/".
Definition B64URL : bytes := bs "ABCDEFGHIJKLMNOPQRSTUVWXYZabcdefghijklmnopqrstuvwxyz0123456789-_".

(** The messages of the [Err] strings. *)
Inductive b64_error :=
| InvalidPadding
| NonAscii (b : byte)
| InvalidChar (b : byte)
| InvalidLength.

#[global] Instance b64_error_eq_dec : EqDecision b64_error.
Proof. solve_decision. Defined.

(** ** Encoding *)

(** [alpha[(n >> s) & 63]]; the index is below 64, the table's length. *)
Definition digit (alpha : bytes) (n s : Z) : byte :=
  nth (Z.to_nat (Z.land (Z.shiftr n s) 63)) alpha Byte.x00.

Definition encode_chunk (alpha chunk : bytes) : bytes :=
  let at_ i := b2z (nth i chunk Byte.x00) in
  let n := Z.lor (Z.lor (Z.shiftl (at_ 0%nat) 16) (Z.shiftl (at_ 1%nat) 8)) (at_ 2%nat) in
  [digit alpha n 18; digit alpha n 12]
  ++ (if (1 <? length chunk)%nat then [digit alpha n 6] else [])
  ++ (if (2 <? length chunk)%nat then [digit alpha n 0] else []).

Definition encode_impl (data alpha : bytes) : bytes :=
  mjoin (map (encode_chunk alpha) (chunks 3 data)).

(** ** Decoding *)

(** The reverse table: 255 marks a byte outside the alphabet. *)
Definition rev_table (alpha : bytes) : list Z :=
  fold_left (fun rev '(i, c) => <[Z.to_nat (b2z c) := Z.of_nat i]> rev)
    (imap pair alpha) (replicate 128 255).

Definition PAD : byte := Byte.x3d.

(** Drops up to [k] trailing ['='] of the reversed input. *)
Fixpoint strip_pad (k : nat) (rsrc : bytes) : bytes :=
  match k, rsrc with
  | S k, b :: rest => if bool_decide (b = PAD) then strip_pad k rest else rsrc
  | _, _ => rsrc
  end.

Definition decode_char (rev : list Z) (b : byte) : outcome b64_error Z :=
  if 128 <=? b2z b then Err (NonAscii b)
  else v ← or_panic (rev !! Z.to_nat (b2z b));
       if v =? 255 then Err (InvalidChar b) else Ok v.

Fixpoint decode_chars (rev : list Z) (l : bytes) : outcome b64_error (list Z) :=
  match l with
  | [] => Ok []
  | b :: l => v ← decode_char rev b; vs ← decode_chars rev l; Ok (v :: vs)
  end.

Definition decode_chunk (chunk : list Z) : bytes :=
  let n := fold_left (fun n '(i, c) => Z.lor n (Z.shiftl c (18 - 6 * Z.of_nat i)))
             (imap pair chunk) 0 in
  [z2b (Z.shiftr n 16)]
  ++ (if (3 <=? length chunk)%nat then [z2b (Z.shiftr n 8)] else [])
  ++ (if (length chunk =? 4)%nat then [z2b n] else []).

Definition decode_impl (s alpha : bytes) : outcome b64_error bytes :=
  let rev := rev_table alpha in
  let src := reverse (strip_pad 2 (reverse s)) in
  _ ← guard_err (bool_decide (PAD ∈ src)) InvalidPadding;
  valid ← decode_chars rev src;
  _ ← guard_err (length valid mod 4 =? 1)%nat InvalidLength;
  Ok (mjoin (map decode_chunk (chunks 4 valid))).

Definition b64_encode (data : bytes) : bytes := encode_impl data B64.
Definition b64_decode (s : bytes) : outcome b64_error bytes := decode_impl s B64.
Definition b64url_encode (data : bytes) : bytes := encode_impl data B64URL.
Definition b64url_decode (s : bytes) : outcome b64_error bytes := decode_impl s B64URL.

(** ** Digits *)

(** What the round trip needs of an alphabet; both tables pass the test. *)
Definition good_alpha (alpha : bytes) : bool :=
  forallb (fun i => let c := nth i alpha Byte.x00 in
                    bool_decide (decode_char (rev_table alpha) c = Ok (Z.of_nat i))
                    && negb (bool_decide (c = PAD))) (seq 0 64).

Lemma good_alpha_B64 : good_alpha B64 = true.
Proof. vm_compute. reflexivity. Qed.
Lemma good_alpha_B64URL : good_alpha B64URL = true.
Proof. vm_compute. reflexivity. Qed.

Section roundtrip.
Context (alpha : bytes) (Halpha : good_alpha alpha = true).

Definition sextet (n s : Z) : Z := (n / 2 ^ s) mod 64.

Lemma digit_ok n s : 0 <= s ->
  decode_char (rev_table alpha) (digit alpha n s) = Ok (sextet n s)
  /\ digit alpha n s <> PAD.
Proof.
  intros Hs. unfold digit, sextet.
  change 63 with (Z.ones 6). rewrite Z.land_ones, Z.shiftr_div_pow2 by lia.
  change (2 ^ 6) with 64. pose proof (Z.mod_pos_bound (n / 2 ^ s) 64 ltac:(lia)) as Hb.
  set (d := (n / 2 ^ s) mod 64) in *. pose proof Halpha as Hf. unfold good_alpha in Hf.
  rewrite forallb_forall in Hf. specialize (Hf (Z.to_nat d)).
  rewrite in_seq in Hf. specialize (Hf ltac:(lia)). cbv zeta in Hf.
  apply andb_true_iff in Hf as [Hd Hp]. apply bool_decide_eq_true in Hd.
  rewrite negb_true_iff, bool_decide_eq_false in Hp. rewrite Z2Nat.id in Hd by lia. done.
Qed.

(** One chunk of each length, in plain arithmetic. *)
Lemma pack3 x y z : 0 <= x < 256 -> 0 <= y < 256 -> 0 <= z < 256 ->
  Z.lor (Z.lor (Z.shiftl x 16) (Z.shiftl y 8)) z = x * 2 ^ 16 + y * 2 ^ 8 + z.
Proof.
  intros. rewrite !Z.shiftl_mul_pow2 by lia.
  rewrite (lor_low 16 (x * _)); [|lia|by exists x|lia].
  apply (lor_low 8); [lia| |lia]. exists (x * 2 ^ 8 + y). lia.
Qed.

Lemma unpack4 d0 d1 d2 d3 :
  0 <= d0 < 64 -> 0 <= d1 < 64 -> 0 <= d2 < 64 -> 0 <= d3 < 64 ->
  Z.lor (Z.lor (Z.lor (Z.lor 0 (Z.shiftl d0 18)) (Z.shiftl d1 12)) (Z.shiftl d2 6))
    (Z.shiftl d3 0) = d0 * 2 ^ 18 + d1 * 2 ^ 12 + d2 * 2 ^ 6 + d3.
Proof.
  intros. rewrite Z.lor_0_l, !Z.shiftl_mul_pow2, Z.mul_1_r by lia.
  rewrite (lor_low 18 (d0 * _)); [|lia|by exists d0|lia].
  rewrite (lor_low 12 _ (d2 * _)); [|lia|exists (d0 * 2 ^ 6 + d1); lia|lia].
  apply (lor_low 6); [lia| |lia]. exists (d0 * 2 ^ 12 + d1 * 2 ^ 6 + d2). lia.
Qed.

Lemma unpack3 d0 d1 d2 :
  0 <= d0 < 64 -> 0 <= d1 < 64 -> 0 <= d2 < 64 ->
  Z.lor (Z.lor (Z.lor 0 (Z.shiftl d0 18)) (Z.shiftl d1 12)) (Z.shiftl d2 6)
  = d0 * 2 ^ 18 + d1 * 2 ^ 12 + d2 * 2 ^ 6.
Proof.
  intros. pose proof (unpack4 d0 d1 d2 0) as E. rewrite Z.shiftl_0_l, Z.lor_0_r in E.
  rewrite E by lia. lia.
Qed.

Lemma unpack2 d0 d1 : 0 <= d0 < 64 -> 0 <= d1 < 64 ->
  Z.lor (Z.lor 0 (Z.shiftl d0 18)) (Z.shiftl d1 12) = d0 * 2 ^ 18 + d1 * 2 ^ 12.
Proof.
  intros. pose proof (unpack3 d0 d1 0) as E. rewrite Z.shiftl_0_l, Z.lor_0_r in E.
  rewrite E by lia. lia.
Qed.

Lemma sextet_range n s : 0 <= sextet n s < 64.
Proof. apply Z.mod_pos_bound. lia. Qed.

Lemma z2b_eq n b : n mod 256 = b2z b -> z2b n = b.
Proof. intros E. apply (inj b2z). by rewrite b2z_z2b. Qed.

Definition sextets (chunk : bytes) : list Z :=
  let at_ i := b2z (nth i chunk Byte.x00) in
  let n := at_ 0%nat * 2 ^ 16 + at_ 1%nat * 2 ^ 8 + at_ 2%nat in
  [sextet n 18; sextet n 12]
  ++ (if (1 <? length chunk)%nat then [sextet n 6] else [])
  ++ (if (2 <? length chunk)%nat then [sextet n 0] else []).

Ltac byte_ranges :=
  repeat match goal with
  | b : byte |- _ =>
      lazymatch goal with
      | _ : 0 <= b2z b < 256 |- _ => fail
      | _ => pose proof (b2z_range b)
      end
  end.

Ltac chunk_arith :=
  byte_ranges; unfold sextet; change (b2z Byte.x00) with 0;
  rewrite ?Z.shiftr_div_pow2 by lia; repeat f_equal; apply z2b_eq;
  Z.to_euclidean_division_equations; lia.

Lemma decode_chunk_2 d0 d1 : 0 <= d0 < 64 -> 0 <= d1 < 64 ->
  decode_chunk [d0; d1] = [z2b ((d0 * 2 ^ 18 + d1 * 2 ^ 12) / 2 ^ 16)].
Proof.
  intros. rewrite <-unpack2, <-Z.shiftr_div_pow2 by lia. reflexivity.
Qed.

Lemma decode_chunk_3 d0 d1 d2 : 0 <= d0 < 64 -> 0 <= d1 < 64 -> 0 <= d2 < 64 ->
  decode_chunk [d0; d1; d2] =
    (let n := d0 * 2 ^ 18 + d1 * 2 ^ 12 + d2 * 2 ^ 6 in
     [z2b (n / 2 ^ 16); z2b (n / 2 ^ 8)]).
Proof.
  intros. cbv zeta. rewrite <-unpack3, <-!Z.shiftr_div_pow2 by lia. reflexivity.
Qed.

Lemma decode_chunk_4 d0 d1 d2 d3 :
  0 <= d0 < 64 -> 0 <= d1 < 64 -> 0 <= d2 < 64 -> 0 <= d3 < 64 ->
  decode_chunk [d0; d1; d2; d3] =
    (let n := d0 * 2 ^ 18 + d1 * 2 ^ 12 + d2 * 2 ^ 6 + d3 in
     [z2b (n / 2 ^ 16); z2b (n / 2 ^ 8); z2b n]).
Proof.
  intros. cbv zeta. rewrite <-unpack4, <-!Z.shiftr_div_pow2 by lia. reflexivity.
Qed.

Lemma decode_chunk_sextets chunk : (1 <= length chunk <= 3)%nat ->
  decode_chunk (sextets chunk) = chunk.
Proof.
  intros Hl. destruct chunk as [|x [|y [|z [|? ?]]]]; simpl in Hl; try lia; unfold sextets;
    cbn [length Nat.ltb Nat.leb nth app];
    rewrite ?decode_chunk_2, ?decode_chunk_3, ?decode_chunk_4 by apply sextet_range;
    cbv zeta; chunk_arith.
Qed.

(** The characters of an encoded chunk decode to its sextets. *)
Lemma decode_chars_app rev a b va vb :
  decode_chars rev a = Ok va -> decode_chars rev b = Ok vb ->
  decode_chars rev (a ++ b) = Ok (va ++ vb).
Proof.
  revert va. induction a as [|c a IH]; intros va; simpl.
  - by intros [= <-].
  - intros E Hb. res_inv. rewrite Hm. simpl. by rewrite (IH a1).
Qed.

Lemma encode_chunk_ok chunk :
  decode_chars (rev_table alpha) (encode_chunk alpha chunk) = Ok (sextets chunk)
  /\ Forall (fun c => c <> PAD) (encode_chunk alpha chunk).
Proof.
  unfold encode_chunk, sextets. cbv zeta. rewrite pack3 by apply b2z_range.
  set (n := _ + _ + _).
  assert (forall s, 0 <= s ->
    decode_chars (rev_table alpha) [digit alpha n s] = Ok [sextet n s]
    /\ Forall (fun c => c <> PAD) [digit alpha n s]) as Hd.
  { intros s Hs. destruct (digit_ok n s Hs) as [E Hp]. simpl. rewrite E. eauto. }
  assert (forall (b : bool) s, 0 <= s ->
    decode_chars (rev_table alpha) (if b then [digit alpha n s] else [])
      = Ok (if b then [sextet n s] else [])
    /\ Forall (fun c => c <> PAD) (if b then [digit alpha n s] else [])) as Ho.
  { intros [] s Hs; [by apply Hd|done]. }
  change [digit alpha n 18; digit alpha n 12] with ([digit alpha n 18] ++ [digit alpha n 12]).
  change [sextet n 18; sextet n 12] with ([sextet n 18] ++ [sextet n 12]).
  split; [repeat apply decode_chars_app|rewrite !Forall_app; split_and!];
    first [apply Hd|apply Ho]; lia.
Qed.

Lemma length_sextets chunk : length (sextets chunk) =
  (2 + (if 1 <? length chunk then 1 else 0) + if 2 <? length chunk then 1 else 0)%nat.
Proof. unfold sextets. simpl. by destruct (_ <? _)%nat, (_ <? _)%nat. Qed.

(** Whole strings. *)
Lemma chunks3_ind (P : bytes -> Prop) :
  P [] -> (forall c, (1 <= length c <= 2)%nat -> P c) ->
  (forall c l, length c = 3%nat -> P l -> P (c ++ l)) -> forall l, P l.
Proof.
  intros H0 Hs Hc l. remember (length l) as n eqn:En. revert l En.
  induction n as [n IH] using lt_wf_ind. intros l ->.
  destruct (decide (length l < 3)%nat) as [Hl|Hl].
  - destruct l as [|x l]; [done|]. apply Hs. simpl in *. lia.
  - rewrite <-(take_drop 3 l). apply Hc; [rewrite length_take; lia|].
    eapply IH; [|done]. rewrite length_drop. lia.
Qed.

Lemma encode_impl_ok data : exists vs,
  decode_chars (rev_table alpha) (encode_impl data alpha) = Ok vs
  /\ Forall (fun c => c <> PAD) (encode_impl data alpha)
  /\ (length vs mod 4 <> 1)%nat /\ mjoin (map decode_chunk (chunks 4 vs)) = data.
Proof.
  unfold encode_impl. induction data as [|c Hc|c l Hc (vs & Hd & Hp & Hm & Hj)] using chunks3_ind.
  - by exists [].
  - exists (sextets c). rewrite chunks_short by (destruct c; simpl in *; done || lia).
    cbn [map]. rewrite mjoin_cons, app_nil_r. destruct (encode_chunk_ok c) as [Hd Hp].
    split_and!; [done|done| |].
    + rewrite length_sextets. destruct c as [|? [|? [|]]]; simpl in *; lia.
    + rewrite chunks_short.
      * cbn [map]. rewrite mjoin_cons, app_nil_r. apply decode_chunk_sextets. lia.
      * intros E. apply (f_equal length) in E. rewrite length_sextets in E. simpl in E. lia.
      * rewrite length_sextets. destruct c as [|? [|? [|]]]; simpl in *; lia.
  - exists (sextets c ++ vs). rewrite chunks_app by lia. cbn [map]. rewrite mjoin_cons.
    destruct (encode_chunk_ok c) as [Hd' Hp'].
    assert (length (sextets c) = 4%nat) as Hl by (rewrite length_sextets, Hc; done).
    split_and!; [by apply decode_chars_app|by apply Forall_app| |].
    + rewrite length_app, Hl. replace (4 + length vs)%nat with (length vs + 1 * 4)%nat by lia.
      by rewrite Nat.Div0.mod_add.
    + rewrite chunks_app by lia. cbn [map]. rewrite mjoin_cons, decode_chunk_sextets, Hj by lia.
      done.
Qed.

Lemma strip_pad_id k rsrc : Forall (fun c => c <> PAD) rsrc -> strip_pad k rsrc = rsrc.
Proof.
  intros Hf. destruct k, rsrc as [|b r]; try done. simpl.
  apply Forall_cons in Hf as [Hb _]. by rewrite bool_decide_eq_false_2.
Qed.

Lemma strip_pad_replicate k j rsrc : (j <= k)%nat -> Forall (fun c => c <> PAD) rsrc ->
  strip_pad k (replicate j PAD ++ rsrc) = rsrc.
Proof.
  revert j. induction k as [|k IH]; intros [|j] Hj Hf; try lia; try (by apply strip_pad_id).
  simpl. apply IH; [lia|done].
Qed.

Lemma decode_encode data j : (j <= 2)%nat ->
  decode_impl (encode_impl data alpha ++ replicate j PAD) alpha = Ok data.
Proof.
  intros Hj. destruct (encode_impl_ok data) as (vs & Hd & Hp & Hm & Hjn). unfold decode_impl.
  rewrite reverse_app, reverse_replicate, strip_pad_replicate, reverse_involutive
    by (done || by apply Forall_reverse).
  rewrite bool_decide_eq_false_2.
  - cbn [guard_err mbind outcome_bind]. rewrite Hd. cbn [mbind outcome_bind].
    apply Nat.eqb_neq in Hm. rewrite Hm. cbn [guard_err mbind outcome_bind]. by rewrite Hjn.
  - intros Hin. rewrite Forall_forall in Hp. by apply (Hp _ Hin).
Qed.

End roundtrip.

(** ** The size of what is decoded *)

Lemma strip_pad_length k rsrc : (length (strip_pad k rsrc) <= length rsrc)%nat.
Proof.
  revert rsrc. induction k as [|k IH]; intros [|b r]; cbn; try lia.
  destruct (bool_decide _); [|cbn; lia]. specialize (IH r). lia.
Qed.

Lemma decode_chars_length rev l vs : decode_chars rev l = Ok vs -> length vs = length l.
Proof.
  revert vs. induction l as [|b l IH]; intros vs E; cbn in E; [by simplify_eq|].
  apply bind_ok in E as (v & _ & E). apply bind_ok in E as (ws & Ew & [= <-]). cbn. f_equal. by apply IH.
Qed.

Lemma decode_chunks_length (vs : list Z) :
  (length (mjoin (map decode_chunk (chunks 4 vs))) <= (length vs + 3) / 4 * 3)%nat.
Proof.
  remember (length vs) as n eqn:En. revert vs En. induction n as [n IH] using lt_wf_ind. intros vs ->.
  assert (forall c, (length (decode_chunk c) <= 3)%nat) as Hc.
  { intros c. unfold decode_chunk. rewrite !length_app.
    destruct (3 <=? length c)%nat, (length c =? 4)%nat; cbn; lia. }
  destruct (decide (length vs <= 4)%nat) as [Hl|Hl].
  - destruct vs as [|v vs]; [cbn; lia|]. rewrite chunks_short by done. cbn [map].
    rewrite mjoin_cons, app_nil_r. specialize (Hc (v :: vs)).
    enough (1 <= (length (v :: vs) + 3) / 4)%nat by lia. apply Nat.div_le_lower_bound; cbn; lia.
  - rewrite <-(take_drop 4 vs) at 1. rewrite chunks_app by (rewrite ?length_take; lia). cbn [map].
    rewrite mjoin_cons, length_app.
    assert (length (drop 4 vs) = length vs - 4)%nat as Hd by apply length_drop.
    pose proof (IH (length vs - 4)%nat ltac:(lia) (drop 4 vs) (eq_sym Hd)) as IH'. specialize (Hc (take 4 vs)).
    assert ((length vs + 3) / 4 = (length vs - 4 + 3) / 4 + 1)%nat as -> by
      (rewrite <-Nat.div_add by lia; f_equal; lia).
    lia.
Qed.

(** Four characters hold at most three bytes. *)
Lemma b64_decode_length s b : b64_decode s = Ok b -> (length b <= (length s + 3) / 4 * 3)%nat.
Proof.
  unfold b64_decode, decode_impl. cbv zeta. set (src := reverse _). intros E.
  apply bind_ok in E as (_ & _ & E). apply bind_ok in E as (vs & Ev & E). apply bind_ok in E as (_ & _ & [= <-]).
  etrans; [apply decode_chunks_length|]. apply decode_chars_length in Ev. rewrite Ev.
  assert (length src <= length s)%nat as Hs.
  { unfold src. rewrite length_reverse. etrans; [apply strip_pad_length|]. by rewrite length_reverse. }
  apply Nat.mul_le_mono_r, Nat.Div0.div_le_mono. lia.
Qed.

(** ** Properties *)

(** Decoding an encoding, bare or with up to two ['='] of padding, gives
    the data back, in both alphabets. *)
Theorem base64_roundtrip data j : (j <= 2)%nat ->
  b64_decode (b64_encode data ++ replicate j PAD) = Ok data
  /\ b64url_decode (b64url_encode data ++ replicate j PAD) = Ok data.
Proof.
  intros Hj. split; apply decode_encode; auto using good_alpha_B64, good_alpha_B64URL.
Qed.

(** The table has an entry for every ASCII byte: decoding never panics. *)
Lemma b64_decode_total s : b64_decode s <> Panic.
Proof.
  assert (forall b, decode_char (rev_table B64) b <> Panic) as Hc.
  { intros b. unfold decode_char. destruct (128 <=? b2z b) eqn:E; [done|].
    apply Z.leb_gt in E. pose proof (b2z_range b).
    destruct (lookup_lt_is_Some_2 (rev_table B64) (Z.to_nat (b2z b))) as [v ->].
    { change (length (rev_table B64)) with 128%nat. lia. }
    cbn. by destruct (v =? 255). }
  assert (forall l, decode_chars (rev_table B64) l <> Panic) as Hcs.
  { induction l as [|b l IH]; cbn [decode_chars]; [done|].
    specialize (Hc b). destruct (decode_char _ b) as [v|x|]; [|done..]. cbn [mbind outcome_bind].
    by destruct (decode_chars _ l). }
  unfold b64_decode, decode_impl. cbv zeta. unfold guard_err. set (src := reverse _).
  destruct (bool_decide _); [done|]. cbn [mbind outcome_bind].
  specialize (Hcs src). destruct (decode_chars _ src) as [vs|x|]; [|done..]. cbn [mbind outcome_bind].
  by destruct (_ =? 1)%nat.
Qed.

Lemma base64_roundtrip_witness :
  b64_decode (bs "aGVsbG8=") = Ok (bs "hello") /\ b64url_decode (bs "aGVsbG8=") = Ok (bs "hello").
Proof. apply (base64_roundtrip (bs "hello") 1). lia. Defined.

Example b64_rejects : b64_decode (bs "a=b=") = Err InvalidPadding
  /\ b64_decode (bs "abcde") = Err InvalidLength
  /\ b64_decode (bs "ab_d") = Err (InvalidChar Byte.x5f).
Proof. by vm_compute. Qed.
End Base64.
