(* ===== verification/Utf8.v ===== *)
(** [String::from_utf8] and [String::from_utf8_lossy] of the Rust standard
    library, as the store uses them on keys, names and values. *)

From S2P Require Import Prelude.

Module Utf8.

Definition in_range (b : byte) (lo hi : Z) : bool := (lo <=? b2z b) && (b2z b <=? hi).
Definition cont (b : byte) : bool := in_range b 128 191.

(** The range of the second byte after a three- or four-byte lead. *)
Definition second_ok (b0 b1 : byte) : bool :=
  if in_range b0 224 224 then in_range b1 160 191
  else if in_range b0 225 236 then cont b1
  else if in_range b0 237 237 then in_range b1 128 159
  else if in_range b0 238 239 then cont b1
  else if in_range b0 240 240 then in_range b1 144 191
  else if in_range b0 241 243 then cont b1
  else in_range b0 244 244 && in_range b1 128 143.

(** The first character of [l]: [(true, n)] if its [n] bytes are well-formed,
    [(false, n)] if [n] bytes are to be replaced. *)
Definition first_char (l : bytes) : bool * nat :=
  match l with
  | [] => (true, 0%nat)
  | b0 :: l =>
      if b2z b0 <? 128 then (true, 1%nat)
      else if in_range b0 194 223 then
        match l with
        | b1 :: _ => if cont b1 then (true, 2%nat) else (false, 1%nat)
        | [] => (false, 1%nat)
        end
      else if in_range b0 224 239 then
        match l with
        | b1 :: l =>
            if second_ok b0 b1 then
              match l with
              | b2 :: _ => if cont b2 then (true, 3%nat) else (false, 2%nat)
              | [] => (false, 2%nat)
              end
            else (false, 1%nat)
        | [] => (false, 1%nat)
        end
      else if in_range b0 240 244 then
        match l with
        | b1 :: l =>
            if second_ok b0 b1 then
              match l with
              | b2 :: l =>
                  if cont b2 then
                    match l with
                    | b3 :: _ => if cont b3 then (true, 4%nat) else (false, 3%nat)
                    | [] => (false, 3%nat)
                    end
                  else (false, 2%nat)
              | [] => (false, 2%nat)
              end
            else (false, 1%nat)
        | [] => (false, 1%nat)
        end
      else (false, 1%nat)
  end.

(** U+FFFD. *)
Definition REPLACEMENT : bytes := [Byte.xef; Byte.xbf; Byte.xbd].

(** Every character takes at least one byte, so [length l] rounds suffice. *)
Fixpoint valid_go (fuel : nat) (l : bytes) : bool :=
  match fuel, l with
  | S fuel, _ :: _ => let '(ok, n) := first_char l in ok && valid_go fuel (drop n l)
  | _, _ => true
  end.
Definition utf8_valid (l : bytes) : bool := valid_go (length l) l.

Definition from_utf8 (l : bytes) : option bytes := if utf8_valid l then Some l else None.

Fixpoint lossy_go (fuel : nat) (l : bytes) : bytes :=
  match fuel, l with
  | S fuel, _ :: _ =>
      let '(ok, n) := first_char l in
      (if ok then take n l else REPLACEMENT) ++ lossy_go fuel (drop n l)
  | _, _ => []
  end.
Definition from_utf8_lossy (l : bytes) : bytes := lossy_go (length l) l.

Lemma first_char_advances b l : (1 <= (first_char (b :: l)).2)%nat.
Proof. unfold first_char. repeat case_match; simpl; lia. Qed.

Lemma lossy_go_valid fuel l : (length l <= fuel)%nat -> valid_go fuel l = true ->
  lossy_go fuel l = l.
Proof.
  revert l. induction fuel as [|fuel IH]; intros [|b l] Hf; try done; [simpl in Hf; lia|].
  cbn [valid_go lossy_go]. pose proof (first_char_advances b l) as Ha.
  destruct (first_char (b :: l)) as [ok n]; simpl in Ha.
  intros [-> Hv]%andb_true_iff. rewrite IH; [apply take_drop| |done].
  rewrite length_drop. simpl in *. lia.
Qed.

(** Lossy decoding leaves valid text alone. *)
Lemma from_utf8_lossy_valid l : utf8_valid l = true -> from_utf8_lossy l = l.
Proof. by apply lossy_go_valid. Qed.

Lemma valid_go_ascii fuel l : Forall (fun b => b2z b < 128) l -> valid_go fuel l = true.
Proof.
  revert l. induction fuel as [|fuel IH]; intros [|b l] Hl; try done.
  apply Forall_cons in Hl as [Hb Hl]. cbn [valid_go first_char].
  rewrite (proj2 (Z.ltb_lt _ _) Hb). simpl. by apply IH.
Qed.

Lemma utf8_valid_ascii l : Forall (fun b => b2z b < 128) l -> utf8_valid l = true.
Proof. apply valid_go_ascii. Qed.

End Utf8.
