(* ===== verification/Text.v ===== *)
(** The string routines of the Rust standard library that the capability and
    configuration code uses: [split] and [join], [lines], [trim], decimal
    [Display] and [parse]. *)

From S2P Require Import Prelude Utf8.
Import Utf8.

Module Text.

(** ** [s.split(c)] and [segs.join(c)] *)

Fixpoint split_on (c : byte) (l : bytes) : list bytes :=
  match l with
  | [] => [[]]
  | b :: l =>
      if bool_decide (b = c) then [] :: split_on c l
      else match split_on c l with
           | s :: rest => (b :: s) :: rest
           | [] => [[b]]
           end
  end.

Fixpoint join_with (c : byte) (segs : list bytes) : bytes :=
  match segs with
  | [] => []
  | [s] => s
  | s :: rest => s ++ [c] ++ join_with c rest
  end.

Lemma split_on_nonempty c l : split_on c l <> [].
Proof. destruct l as [|b l]; simpl; [done|]. case_bool_decide; [done|]. by destruct (split_on c l). Qed.

Lemma join_with_cons c s rest : rest <> [] -> join_with c (s :: rest) = s ++ [c] ++ join_with c rest.
Proof. by destruct rest. Qed.

Lemma join_with_app c a l : a <> [] -> l <> [] ->
  join_with c (a ++ l) = join_with c a ++ [c] ++ join_with c l.
Proof.
  intros Ha Hl. induction a as [|s [|s' a] IH]; [done|by destruct l|].
  cbn [app]. rewrite !(join_with_cons _ s) by done. rewrite <-!app_assoc. do 2 f_equal. by apply IH.
Qed.

Lemma join_split c l : join_with c (split_on c l) = l.
Proof.
  induction l as [|b l IH]; [done|]. cbn [split_on].
  pose proof (split_on_nonempty c l). case_bool_decide as Hb.
  - by rewrite join_with_cons, IH, Hb.
  - destruct (split_on c l) as [|s [|s' rest]]; simpl in *; congruence.
Qed.

(** A piece without the separator is split off whole. *)
Lemma split_on_sep c s l : c ∉ s -> split_on c (s ++ c :: l) = s :: split_on c l.
Proof.
  induction s as [|b s IH]; intros Hc; simpl; [by rewrite bool_decide_eq_true_2|].
  rewrite bool_decide_eq_false_2 by set_solver. by rewrite IH by set_solver.
Qed.

Lemma split_on_none c s : c ∉ s -> split_on c s = [s].
Proof.
  induction s as [|b s IH]; intros Hc; simpl; [done|].
  rewrite bool_decide_eq_false_2 by set_solver. by rewrite IH by set_solver.
Qed.

Lemma split_on_pieces c l : Forall (fun s => c ∉ s) (split_on c l).
Proof.
  induction l as [|b l IH]; cbn [split_on]; [repeat constructor; set_solver|].
  case_bool_decide; [constructor; [set_solver|done]|].
  destruct (split_on c l) as [|s rest]; [repeat constructor; set_solver|].
  apply Forall_cons in IH as [Hs IH]. constructor; [set_solver|done].
Qed.

Lemma split_join c segs : segs <> [] -> Forall (fun s => c ∉ s) segs ->
  split_on c (join_with c segs) = segs.
Proof.
  intros Hne Hf. induction Hf as [|s rest Hs Hf IH]; [done|].
  destruct rest as [|s' rest]; [by apply split_on_none|].
  rewrite join_with_cons by done. cbn [app]. rewrite split_on_sep by done. by rewrite IH by done.
Qed.

Lemma split_on_app c s l : split_on c (s ++ c :: l) = split_on c s ++ split_on c l.
Proof.
  induction s as [|b s IH]; [simpl; by rewrite bool_decide_eq_true_2|].
  cbn [app split_on]. rewrite IH. case_bool_decide; [done|].
  pose proof (split_on_nonempty c s). by destruct (split_on c s).
Qed.

(** ** [s.lines()]: pieces ended by a newline, a final carriage return of each
    removed; nothing after a last newline. *)

Definition NEWLINE : byte := Byte.x0a.
Definition CARRIAGE_RETURN : byte := Byte.x0d.

Definition strip_cr (l : bytes) : bytes :=
  match last l with
  | Some b => if bool_decide (b = CARRIAGE_RETURN) then take (length l - 1) l else l
  | None => l
  end.

(** A piece loses its carriage return only when a newline ended it. *)
Fixpoint lines_of (pieces : list bytes) : list bytes :=
  match pieces with
  | [] => []
  | [s] => if bool_decide (s = []) then [] else [s]
  | s :: rest => strip_cr s :: lines_of rest
  end.
Definition lines (l : bytes) : list bytes := lines_of (split_on NEWLINE l).

Lemma lines_cons s l : NEWLINE ∉ s -> lines (s ++ NEWLINE :: l) = strip_cr s :: lines l.
Proof.
  intros Hs. unfold lines. rewrite split_on_sep by done. cbn [lines_of].
  pose proof (split_on_nonempty NEWLINE l). by destruct (split_on NEWLINE l).
Qed.

Lemma strip_cr_id s : CARRIAGE_RETURN ∉ s -> strip_cr s = s.
Proof.
  intros Hs. unfold strip_cr. destruct (last s) as [b|] eqn:E; [|done].
  rewrite bool_decide_eq_false_2; [done|]. intros ->. apply Hs. by apply last_Some_elem_of.
Qed.

(** ** [s.trim()]: Unicode [White_Space], by its UTF-8 encodings *)

Definition white_space : list bytes :=
  [[Byte.x09]; [Byte.x0a]; [Byte.x0b]; [Byte.x0c]; [Byte.x0d]; [Byte.x20];
   [Byte.xc2; Byte.x85]; [Byte.xc2; Byte.xa0]; [Byte.xe1; Byte.x9a; Byte.x80];
   [Byte.xe2; Byte.x80; Byte.x80]; [Byte.xe2; Byte.x80; Byte.x81]; [Byte.xe2; Byte.x80; Byte.x82];
   [Byte.xe2; Byte.x80; Byte.x83]; [Byte.xe2; Byte.x80; Byte.x84]; [Byte.xe2; Byte.x80; Byte.x85];
   [Byte.xe2; Byte.x80; Byte.x86]; [Byte.xe2; Byte.x80; Byte.x87]; [Byte.xe2; Byte.x80; Byte.x88];
   [Byte.xe2; Byte.x80; Byte.x89]; [Byte.xe2; Byte.x80; Byte.x8a]; [Byte.xe2; Byte.x80; Byte.xa8];
   [Byte.xe2; Byte.x80; Byte.xa9]; [Byte.xe2; Byte.x80; Byte.xaf]; [Byte.xe2; Byte.x81; Byte.x9f];
   [Byte.xe3; Byte.x80; Byte.x80]].

(** Strips leading members of [ws], one per round. *)
Fixpoint strip_front (fuel : nat) (ws : list bytes) (l : bytes) : bytes :=
  match fuel with
  | O => l
  | S fuel => match List.find (fun w => starts_with w l) ws with
              | Some w => strip_front fuel ws (drop (length w) l)
              | None => l
              end
  end.
Definition trim_start (l : bytes) : bytes := strip_front (length l) white_space l.
Definition trim_end (l : bytes) : bytes :=
  reverse (strip_front (length l) (map reverse white_space) (reverse l)).
Definition trim (l : bytes) : bytes := trim_end (trim_start l).

(** Text whose first byte starts no white space keeps its front. *)
Lemma strip_front_id fuel ws l :
  (forall w b, w ∈ ws -> head l = Some b -> head w <> Some b) -> [] ∉ ws ->
  strip_front fuel ws l = l.
Proof.
  intros Hw Hn. destruct fuel as [|fuel]; [done|]. simpl.
  destruct (List.find _ ws) as [w|] eqn:E; [|done]. exfalso.
  apply List.find_some in E as [Hin Hs]. apply list_elem_of_In in Hin.
  apply starts_with_spec in Hs as [r ->].
  destruct w as [|b w]; [done|]. by apply (Hw (b :: w) b Hin).
Qed.

Definition plain (b : byte) : bool := in_range b 33 126.

Lemma white_space_heads w b : w ∈ white_space -> plain b = true -> head w <> Some b.
Proof.
  intros Hw Hb Eh.
  assert (forallb (fun w => match head w with Some b => negb (plain b) | None => true end)
            white_space = true) as Hf by (by vm_compute).
  rewrite forallb_forall in Hf. apply list_elem_of_In, Hf in Hw. rewrite Eh, Hb in Hw. done.
Qed.

Lemma white_space_ends w b : w ∈ map reverse white_space -> plain b = true -> head w <> Some b.
Proof.
  intros Hw Hb Eh.
  assert (forallb (fun w => match head w with Some b => negb (plain b) | None => true end)
            (map reverse white_space) = true) as Hf by (by vm_compute).
  rewrite forallb_forall in Hf. apply list_elem_of_In, Hf in Hw. rewrite Eh, Hb in Hw. done.
Qed.

Lemma trim_plain l : Forall (fun b => plain b = true) l -> trim l = l.
Proof.
  intros Hl. assert (trim_start l = l) as Hs.
  { apply strip_front_id; [|vm_decide]. intros w b Hw Hb. apply white_space_heads; [done|].
    destruct l; simplify_eq/=. by apply Forall_cons in Hl as [? _]. }
  unfold trim. rewrite Hs. unfold trim_end.
  rewrite strip_front_id, reverse_involutive; [done| |vm_decide].
  intros w b Hw Hb. apply white_space_ends; [done|].
  assert (b ∈ reverse l) as Hin by (destruct (reverse l); simplify_eq/=; by left).
  rewrite elem_of_reverse in Hin. rewrite Forall_forall in Hl. by apply Hl.
Qed.

(** ** Decimal [u64] *)

(** [format!("{n}")]: twenty digits cover a [u64]. *)
Definition dec_digit (d : Z) : byte := z2b (48 + d).
Fixpoint fmt_dec_go (fuel : nat) (n : Z) (acc : bytes) : bytes :=
  match fuel with
  | O => acc
  | S fuel => let acc := dec_digit (n mod 10) :: acc in
              if n / 10 =? 0 then acc else fmt_dec_go fuel (n / 10) acc
  end.
Definition fmt_dec (n : Z) : bytes := fmt_dec_go 20 n [].

Definition dec_val (b : byte) : option Z := if in_range b 48 57 then Some (b2z b - 48) else None.
Fixpoint dec_go (l : bytes) (acc : Z) : option Z :=
  match l with
  | [] => Some acc
  | b :: l => d ← dec_val b;
              let acc := acc * 10 + d in
              if acc <? 2 ^ 64 then dec_go l acc else None
  end.

(** [s.parse::<u64>().ok()] *)
Definition parse_u64 (s : bytes) : option Z :=
  match s with
  | [] => None
  | [b] => if bool_decide (b = Byte.x2b) || bool_decide (b = Byte.x2d) then None else dec_go s 0
  | b :: rest => dec_go (if bool_decide (b = Byte.x2b) then rest else s) 0
  end.

Lemma dec_val_digit d : 0 <= d < 10 -> dec_val (dec_digit d) = Some d.
Proof.
  intros Hd. unfold dec_val, dec_digit, in_range.
  rewrite b2z_z2b, Z.mod_small by lia.
  rewrite (proj2 (Z.leb_le _ _)), (proj2 (Z.leb_le _ _)) by lia. simpl. f_equal. lia.
Qed.

Lemma dec_go_fmt fuel n acc : 0 <= n < 2 ^ 64 -> n < 10 ^ Z.of_nat fuel ->
  dec_go (fmt_dec_go fuel n acc) 0 = dec_go acc n.
Proof.
  revert n acc. induction fuel as [|fuel IH]; intros n acc Hn Hf.
  { simpl in *. by replace n with 0 by lia. }
  rewrite Nat2Z.inj_succ, Z.pow_succ_r in Hf by lia. cbn [fmt_dec_go].
  pose proof (Z.div_mod n 10 ltac:(lia)). pose proof (Z.mod_pos_bound n 10 ltac:(lia)).
  assert (dec_go (dec_digit (n mod 10) :: acc) (n / 10) = dec_go acc n) as Hstep.
  { cbn [dec_go]. rewrite dec_val_digit by done. cbn [mbind option_bind].
    replace (n / 10 * 10 + n mod 10) with n by lia. by rewrite (proj2 (Z.ltb_lt _ _)) by lia. }
  destruct (Z.eqb_spec (n / 10) 0) as [E|_]; [by rewrite <-E|].
  rewrite IH; [done|lia|]. apply Z.div_lt_upper_bound; lia.
Qed.

Lemma fmt_dec_digits fuel n acc : Forall (fun b => is_Some (dec_val b)) acc ->
  Forall (fun b => is_Some (dec_val b)) (fmt_dec_go fuel n acc).
Proof.
  revert n acc. induction fuel as [|fuel IH]; intros n acc Ha; [done|]. cbn [fmt_dec_go].
  assert (Forall (fun b => is_Some (dec_val b)) (dec_digit (n mod 10) :: acc)) as Ha'.
  { constructor; [|done]. rewrite dec_val_digit; [by eexists|]. apply Z.mod_pos_bound. lia. }
  destruct (_ =? 0); [done|by apply IH].
Qed.

Lemma fmt_dec_go_length fuel n acc : (length acc <= length (fmt_dec_go fuel n acc))%nat.
Proof.
  revert n acc. induction fuel as [|fuel IH]; intros n acc; [done|]. cbn [fmt_dec_go].
  destruct (_ =? 0); [simpl; lia|]. etrans; [|apply IH]. simpl. lia.
Qed.

Lemma fmt_dec_go_nonempty fuel n acc : fmt_dec_go (S fuel) n acc <> [].
Proof.
  cbn [fmt_dec_go]. destruct (_ =? 0); [done|]. intros E.
  pose proof (fmt_dec_go_length fuel (n / 10) (dec_digit (n mod 10) :: acc)) as Hl.
  rewrite E in Hl. simpl in Hl. lia.
Qed.

Lemma parse_u64_fmt_dec n : is_u64 n -> parse_u64 (fmt_dec n) = Some n.
Proof.
  intros Hn. pose proof (fmt_dec_digits 20 n [] ltac:(constructor)) as Hd.
  assert (dec_go (fmt_dec n) 0 = Some n) as E.
  { unfold fmt_dec. rewrite dec_go_fmt; [done|exact Hn|]. unfold is_u64 in Hn.
    change (10 ^ Z.of_nat 20) with 100000000000000000000. lia. }
  assert (fmt_dec n <> []) as Hne by apply (fmt_dec_go_nonempty 19).
  fold (fmt_dec n) in Hd. destruct (fmt_dec n) as [|b rest]; [done|].
  apply Forall_cons in Hd as [[d Hb] _].
  assert (b <> Byte.x2b /\ b <> Byte.x2d) as [H1 H2].
  { split; intros ->; vm_compute in Hb; done. }
  unfold parse_u64. destruct rest.
  - rewrite !bool_decide_eq_false_2 by done. exact E.
  - rewrite bool_decide_eq_false_2 by done. exact E.
Qed.

End Text.
