(* ===== verification/StoreTypes.v ===== *)
(** Names, versions and the binary codec of the store ([src/storage/mod.rs]):
    [valid_ns], [ns_dir]/[parse_ns_dir], [ConflictPolicy], [Version], [Entry],
    the writer [W], the reader [R], [write_version]/[read_version]. *)

From S2P Require Import Prelude Crc32 LogFormat Utf8.
Import Utf8.

(** ** The [hex] crate

    What the code relies on: lower-case output, two digits a byte, and
    decoding inverts encoding. *)
Definition is_lower_hex (b : byte) : bool :=
  in_range b 48 57 || in_range b 97 102.

Class HexCrate := {
  hex_encode : bytes -> bytes;
  hex_decode : bytes -> option bytes;
  hex_encode_length l : length (hex_encode l) = (2 * length l)%nat;
  hex_encode_digits l : forallb is_lower_hex (hex_encode l) = true;
  hex_decode_encode l : hex_decode (hex_encode l) = Some l;
}.

(** An instance to evaluate with. *)
Definition nibble (d : Z) : byte := z2b (if d <? 10 then 48 + d else 87 + d).
Definition unnibble (b : byte) : option Z :=
  if in_range b 48 57 then Some (b2z b - 48)
  else if in_range b 97 102 then Some (b2z b - 87)
  else if in_range b 65 70 then Some (b2z b - 55) else None.
Definition hex_pair (b : byte) : bytes := [nibble (b2z b / 16); nibble (b2z b mod 16)].
Fixpoint unhex (l : bytes) : option bytes :=
  match l with
  | [] => Some []
  | [_] => None
  | a :: b :: l => x ← unnibble a; y ← unnibble b; r ← unhex l; Some (z2b (16 * x + y) :: r)
  end.

Lemma hex_pair_ok b : forallb is_lower_hex (hex_pair b) = true
  /\ forall l, unhex (hex_pair b ++ l) = (r ← unhex l; Some (b :: r)).
Proof. by destruct b. Qed.

#[program] Definition hex_plain : HexCrate := {|
  hex_encode l := mjoin (map hex_pair l);
  hex_decode l := unhex l;
|}.
Next Obligation.
  intros l. induction l as [|b l IH]; [done|]. cbn [map]. rewrite mjoin_cons, length_app, IH.
  simpl. lia.
Qed.
Next Obligation.
  intros l. induction l as [|b l IH]; [done|]. cbn [map]. rewrite mjoin_cons, forallb_app, IH.
  by rewrite (proj1 (hex_pair_ok b)).
Qed.
Next Obligation.
  intros l. induction l as [|b l IH]; [done|]. cbn [map].
  rewrite mjoin_cons, (proj2 (hex_pair_ok b)), IH. done.
Qed.

Module StoreTypes.

(** ** Character classes of the standard library *)

Definition is_ascii_lowercase (b : byte) : bool := in_range b 97 122.
Definition is_ascii_digit (b : byte) : bool := in_range b 48 57.
Definition is_ascii_hexdigit (b : byte) : bool :=
  in_range b 48 57 || in_range b 65 70 || in_range b 97 102.

(** ** Namespace names *)

Definition flat_name (name : bytes) : bool :=
  negb (bool_decide (name = [])) && (length name <=? 64)%nat
  && forallb (fun b => is_ascii_lowercase b || is_ascii_digit b
       || bool_decide (b = Byte.x2e) || bool_decide (b = Byte.x5f)
       || bool_decide (b = Byte.x2d)) name.

Definition valid_ns (name : bytes) : bool :=
  let l3_owner := match strip_prefix (bs "u/") name with
                  | Some rest => (length rest =? 64)%nat && forallb is_ascii_hexdigit rest
                  | None => false
                  end in
  flat_name name || l3_owner.

(** [format!("{n:x}")]: sixteen digits cover a [usize]. *)
Definition hex_digit (d : Z) : byte := z2b (if d <? 10 then 48 + d else 87 + d).
Fixpoint fmt_x_go (fuel : nat) (n : Z) (acc : bytes) : bytes :=
  match fuel with
  | O => acc
  | S fuel => let acc := hex_digit (n mod 16) :: acc in
              if n / 16 =? 0 then acc else fmt_x_go fuel (n / 16) acc
  end.
Definition fmt_x (n : Z) : bytes := fmt_x_go 16 n [].

(** [usize::from_str_radix(s, 16)]. *)
Definition digit_val (b : byte) : option Z :=
  if in_range b 48 57 then Some (b2z b - 48)
  else if in_range b 65 70 then Some (b2z b - 55)
  else if in_range b 97 102 then Some (b2z b - 87)
  else None.
Fixpoint radix16_go (l : bytes) (acc : Z) : option Z :=
  match l with
  | [] => Some acc
  | b :: l => d ← digit_val b;
              let acc := acc * 16 + d in
              if acc <? 2 ^ 64 then radix16_go l acc else None
  end.
Definition from_str_radix16 (s : bytes) : option Z :=
  match s with
  | [] => None
  | [b] => if bool_decide (b = Byte.x2b) || bool_decide (b = Byte.x2d) then None
           else radix16_go s 0
  | b :: rest => radix16_go (if bool_decide (b = Byte.x2b) then rest else s) 0
  end.

(** [name.split_once('_')]. *)
Fixpoint split_once (c : byte) (l : bytes) : option (bytes * bytes) :=
  match l with
  | [] => None
  | b :: l => if bool_decide (b = c) then Some ([], l)
              else '(x, y) ← split_once c l; Some (b :: x, y)
  end.

Definition UNDERSCORE : byte := Byte.x5f.

(** The name of a namespace's directory under the store root. *)
Definition ns_dir `{HexCrate} (ns : bytes) : bytes :=
  let hexlen := Z.of_nat (length ns * 2) in
  fmt_x hexlen ++ [UNDERSCORE] ++ hex_encode ns.

Definition parse_ns_dir `{HexCrate} (name : bytes) : option bytes :=
  '(len_s, rest) ← split_once UNDERSCORE name;
  hexlen ← from_str_radix16 len_s;
  if negb (forallb is_ascii_hexdigit len_s) then None else
  if negb (Z.of_nat (length rest) =? hexlen) || negb (forallb is_ascii_hexdigit rest) then None else
  decoded ← hex_decode rest;
  ns ← from_utf8 decoded;
  if valid_ns ns then Some ns else None.

(** ** Versions, entries, policies *)

Record Version := mkVersion {
  hlc : Z;
  replica : bytes;
  author : bytes;
  value : bytes;
  seq : Z;
  expires_at : Z;
}.

Inductive Entry :=
| Lww (v : Version)
| Register (vs : list Version).

Inductive ConflictPolicy := PLww | CrdtRegister.

#[global] Instance Version_eq_dec : EqDecision Version.
Proof. solve_decision. Defined.
#[global] Instance Entry_eq_dec : EqDecision Entry.
Proof. solve_decision. Defined.
#[global] Instance ConflictPolicy_eq_dec : EqDecision ConflictPolicy.
Proof. solve_decision. Defined.

(** [Iterator::max_by] keeps the last of several maxima. *)
Definition vkey (v : Version) : Z * bytes := (hlc v, replica v).
Definition max_version (vs : list Version) : option Version :=
  match vs with
  | [] => None
  | v :: vs => Some (fold_left (fun a b => if geb (vkey b) (vkey a) then b else a) vs v)
  end.

Definition latest_entry_value (e : Entry) : option Version :=
  match e with
  | Lww v => Some v
  | Register vs => max_version vs
  end.

Definition policy_to_u8 (p : ConflictPolicy) : byte :=
  match p with PLww => Byte.x00 | CrdtRegister => Byte.x01 end.

Definition policy_from_u8 (v : byte) : res ConflictPolicy :=
  match v with
  | Byte.x00 => Ok PLww
  | Byte.x01 => Ok CrdtRegister
  | _ => Err (corrupt (BadPolicyByte v))
  end.

(** ** The writer [W]: what each call appends *)

Definition w_u8 (v : byte) : bytes := [v].
Definition w_u32 (v : Z) : bytes := le_bytes 4 v.
Definition w_u64 (v : Z) : bytes := le_bytes 8 v.
Definition w_i64 (v : Z) : bytes := le_bytes 8 v.
Definition w_bytes (b : bytes) : bytes := w_u32 (Z.of_nat (length b)) ++ b.
Definition w_fixed (b : bytes) : bytes := b.

Definition write_version (v : Version) : bytes :=
  w_u64 (hlc v) ++ w_fixed (replica v) ++ w_fixed (author v) ++ w_bytes (value v)
  ++ w_u64 (seq v) ++ w_u64 (expires_at v).

(** ** The reader [R] *)

Record R := mkRd { buf : bytes; pos : nat }.

Definition reader (A : Type) : Type := method R StorageError A.

Definition r_take (n : nat) : reader bytes := fun r =>
  if (length (buf r) <? pos r + n)%nat then (r, Err (corrupt SnapTruncated))
  else match slice (buf r) (pos r) (pos r + n) with
       | Some s => (mkRd (buf r) (pos r + n), Ok s)
       | None => (r, Panic)
       end.
Definition r_u8 : reader byte := s ← r_take 1; lift (or_panic (s !! 0%nat)).
Definition r_u32 : reader Z := s ← r_take 4; mret (le_val s).
Definition r_u64 : reader Z := s ← r_take 8; mret (le_val s).
(** Two's complement. *)
Definition r_i64 : reader Z :=
  s ← r_take 8; mret (if le_val s <? 2 ^ 63 then le_val s else le_val s - 2 ^ 64).
Definition r_fixed32 : reader bytes := r_take 32.
Definition r_bytes : reader bytes := n ← r_u32; r_take (Z.to_nat n).
Definition r_done : reader unit := fun r =>
  (r, guard_err (negb (pos r =? length (buf r))%nat) (corrupt SnapTrailing)).

(** [for _ in 0..n], collecting what each round reads. *)
Fixpoint r_times {A} (n : nat) (m : reader A) : reader (list A) :=
  match n with
  | O => mret []
  | S n => x ← m; xs ← r_times n m; mret (x :: xs)
  end.

Definition read_version : reader Version :=
  h ← r_u64; rep ← r_fixed32; aut ← r_fixed32; val ← r_bytes; sq ← r_u64; ex ← r_u64;
  mret (mkVersion h rep aut val sq ex).

Definition read_version_v1 : reader Version :=
  h ← r_u64; rep ← r_fixed32; aut ← r_fixed32; val ← r_bytes; sq ← r_u64;
  mret (mkVersion h rep aut val sq 0).

(** ** Reading back what was written *)

(** [decodes m x a]: wherever [x] stands in the buffer, [m] consumes exactly
    it and returns [a]. *)
Definition decodes {A} (m : reader A) (x : bytes) (a : A) : Prop :=
  forall pre rest, m (mkRd (pre ++ x ++ rest) (length pre))
    = (mkRd (pre ++ x ++ rest) (length pre + length x), Ok a).

Lemma decodes_ret {A} (a : A) : decodes (mret a) [] a.
Proof. intros pre rest. by rewrite Nat.add_0_r. Qed.

Lemma decodes_bind {A B} (m : reader A) (k : A -> reader B) x y a b :
  decodes m x a -> decodes (k a) y b -> decodes (m ≫= k) (x ++ y) b.
Proof.
  intros Hm Hk pre rest. rewrite <-app_assoc.
  rewrite (method_bind_step _ _ _ _ _ (Hm pre (y ++ rest))).
  specialize (Hk (pre ++ x) rest). rewrite <-app_assoc, length_app in Hk.
  by rewrite Hk, length_app, Nat.add_assoc.
Qed.

Lemma decodes_end {A B} (m : reader A) (f : A -> B) x a :
  decodes m x a -> decodes (m ≫= fun a => mret (f a)) x (f a).
Proof.
  intros Hm. rewrite <-(app_nil_r x). eapply decodes_bind; [done|apply decodes_ret].
Qed.

Lemma decodes_take x n : n = length x -> decodes (r_take n) x x.
Proof.
  intros -> pre rest. unfold r_take. simpl.
  destruct (Nat.ltb_spec (length (pre ++ x ++ rest)) (length pre + length x)) as [Hl|_];
    [rewrite !length_app in Hl; lia|].
  by rewrite slice_app.
Qed.

Lemma decodes_u8 b : decodes r_u8 (w_u8 b) b.
Proof.
  unfold r_u8, w_u8. rewrite <-(app_nil_r [b]).
  eapply decodes_bind; [by apply decodes_take|apply (decodes_ret b)].
Qed.

Lemma decodes_le n (z : Z) : 0 <= z < 256 ^ Z.of_nat n ->
  decodes (s ← r_take n; mret (le_val s)) (le_bytes n z) z.
Proof.
  intros Hz. rewrite <-(le_val_bytes_small n z Hz) at 2.
  apply (decodes_end (r_take n) le_val). apply decodes_take. by rewrite length_le_bytes.
Qed.

Lemma decodes_u32 z : 0 <= z < 2 ^ 32 -> decodes r_u32 (w_u32 z) z.
Proof. apply (decodes_le 4). Qed.

Lemma decodes_u64 z : is_u64 z -> decodes r_u64 (w_u64 z) z.
Proof. apply (decodes_le 8). Qed.

Definition is_i64 (z : Z) : Prop := - 2 ^ 63 <= z < 2 ^ 63.

Lemma decodes_i64 z : is_i64 z -> decodes r_i64 (w_i64 z) z.
Proof.
  intros Hz. unfold r_i64, w_i64.
  assert (le_val (le_bytes 8 z) = if z <? 0 then z + 2 ^ 64 else z) as E.
  { rewrite le_val_bytes. change (256 ^ Z.of_nat 8) with (2 ^ 64).
    unfold is_i64 in Hz. destruct (Z.ltb_spec z 0); [|apply Z.mod_small; lia].
    rewrite <-(Z.mod_add z 1) by lia. apply Z.mod_small. lia. }
  replace z with ((fun s => if le_val s <? 2 ^ 63 then le_val s else le_val s - 2 ^ 64)
                    (le_bytes 8 z)) at 2.
  - apply (decodes_end (r_take 8)
      (fun s => if le_val s <? 2 ^ 63 then le_val s else le_val s - 2 ^ 64)).
    apply decodes_take. by rewrite length_le_bytes.
  - cbv beta. rewrite E. unfold is_i64 in Hz.
    destruct (Z.ltb_spec z 0); destruct (Z.ltb_spec (z + 2 ^ 64) (2 ^ 63));
      destruct (Z.ltb_spec z (2 ^ 63)); lia.
Qed.

Lemma decodes_bytes b : Z.of_nat (length b) < 2 ^ 32 -> decodes r_bytes (w_bytes b) b.
Proof.
  intros Hb. unfold r_bytes, w_bytes.
  eapply decodes_bind; [apply decodes_u32; lia|]. apply decodes_take. lia.
Qed.

Lemma decodes_fixed b : length b = 32%nat -> decodes r_fixed32 (w_fixed b) b.
Proof. intros Hb. by apply decodes_take. Qed.

Lemma decodes_times {A} (m : reader A) (w : A -> bytes) l :
  Forall (fun a => decodes m (w a) a) l ->
  decodes (r_times (length l) m) (mjoin (map w l)) l.
Proof.
  induction 1 as [|a l Ha Hl IH]; [apply decodes_ret|].
  cbn [length r_times map]. rewrite mjoin_cons. eapply decodes_bind; [done|].
  by apply (decodes_end _ (cons a)).
Qed.

Definition wf_version (v : Version) : Prop :=
  is_u64 (hlc v) /\ length (replica v) = 32%nat /\ length (author v) = 32%nat
  /\ Z.of_nat (length (value v)) < 2 ^ 32 /\ is_u64 (seq v) /\ is_u64 (expires_at v).

Lemma decodes_version v : wf_version v -> decodes read_version (write_version v) v.
Proof.
  intros (Hh & Hr & Ha & Hv & Hs & He). unfold read_version, write_version.
  eapply decodes_bind; [by apply decodes_u64|].
  eapply decodes_bind; [by apply decodes_fixed|].
  eapply decodes_bind; [by apply decodes_fixed|].
  eapply decodes_bind; [by apply decodes_bytes|].
  eapply decodes_bind; [by apply decodes_u64|].
  destruct v; simpl in *.
  by apply (decodes_end r_u64 (mkVersion hlc0 replica0 author0 value0 seq0)), decodes_u64.
Qed.

Lemma policy_roundtrip p : policy_from_u8 (policy_to_u8 p) = Ok p.
Proof. by destruct p. Qed.

(** ** Namespace directories *)

Lemma is_lower_hex_ok b : is_lower_hex b = true -> is_ascii_hexdigit b = true /\ b <> UNDERSCORE.
Proof.
  unfold is_lower_hex, is_ascii_hexdigit. intros [E|E]%orb_true_iff; rewrite E;
    rewrite ?orb_true_r; (split; [done|intros ->; done]).
Qed.

Lemma lower_hex_all l : forallb is_lower_hex l = true ->
  forallb is_ascii_hexdigit l = true /\ ~ UNDERSCORE ∈ l.
Proof.
  induction l as [|b l IH]; simpl; [split; [done|apply not_elem_of_nil]|].
  intros [Hb Hl]%andb_true_iff. apply is_lower_hex_ok in Hb as [-> Hu].
  destruct (IH Hl) as [-> Hn]. split; [done|]. rewrite elem_of_cons. intros [E|?]; [by subst|done].
Qed.

(** Names are short, so the lengths that occur can be checked one by one. *)
Definition length_field_ok (n : Z) : bool :=
  bool_decide (from_str_radix16 (fmt_x n) = Some n) && forallb is_lower_hex (fmt_x n).

Lemma length_fields : forallb length_field_ok (seqZ 0 133) = true.
Proof. vm_compute. reflexivity. Qed.

Lemma length_field n : 0 <= n < 133 ->
  from_str_radix16 (fmt_x n) = Some n /\ forallb is_lower_hex (fmt_x n) = true.
Proof.
  intros Hn. pose proof length_fields as Hf. rewrite forallb_forall in Hf.
  specialize (Hf n). rewrite <-list_elem_of_In, elem_of_seqZ in Hf.
  specialize (Hf ltac:(lia)). unfold length_field_ok in Hf.
  by apply andb_true_iff in Hf as [?%bool_decide_eq_true ?].
Qed.

Lemma valid_ns_length ns : valid_ns ns = true -> (length ns <= 66)%nat.
Proof.
  unfold valid_ns, flat_name. intros [H|H]%orb_true_iff.
  - apply andb_true_iff in H as [[_ H]%andb_true_iff _]. apply Nat.leb_le in H. lia.
  - destruct (strip_prefix (bs "u/") ns) as [r|] eqn:E; [|done].
    apply andb_true_iff in H as [H%Nat.eqb_eq _].
    unfold strip_prefix in E. destruct (starts_with _ _); [|done]. injection E as <-.
    rewrite length_drop in H. simpl in H. lia.
Qed.

Lemma in_range_ascii b lo hi : hi < 128 -> in_range b lo hi = true -> b2z b < 128.
Proof. unfold in_range. intros ? [_ ?%Z.leb_le]%andb_true_iff. lia. Qed.

Lemma valid_ns_ascii ns : valid_ns ns = true -> Forall (fun b => b2z b < 128) ns.
Proof.
  assert (forall f (l : bytes), forallb f l = true -> (forall b, f b = true -> b2z b < 128) ->
    Forall (fun b => b2z b < 128) l) as Hall.
  { intros f l Hl Hf. apply Forall_forall. intros b Hb. apply Hf.
    rewrite forallb_forall in Hl. by apply Hl, list_elem_of_In. }
  unfold valid_ns, flat_name. intros [H|H]%orb_true_iff.
  - apply andb_true_iff in H as [_ H]. eapply Hall; [exact H|]. intros b Hb. simpl in Hb.
    rewrite !orb_true_iff, !bool_decide_eq_true in Hb.
    destruct Hb as [[[[Hb|Hb]|Hb]|Hb]|Hb]; try (by subst b);
      (eapply in_range_ascii; [|exact Hb]; lia).
  - destruct (strip_prefix (bs "u/") ns) as [r|] eqn:E; [|done].
    apply andb_true_iff in H as [_ H]. unfold strip_prefix in E.
    destruct (starts_with (bs "u/") ns) eqn:Es; [|done]. injection E as <-.
    apply starts_with_spec in Es as [r ->]. apply Forall_app. split; [by repeat constructor|].
    eapply Hall; [exact H|]. intros b Hb.
    unfold is_ascii_hexdigit in Hb. rewrite !orb_true_iff in Hb.
    destruct Hb as [[Hb|Hb]|Hb]; (eapply in_range_ascii; [|exact Hb]; lia).
Qed.

Lemma valid_ns_utf8 ns : valid_ns ns = true -> utf8_valid ns = true.
Proof. intros Hv. by apply utf8_valid_ascii, valid_ns_ascii. Qed.

Lemma split_once_app c a b : ~ c ∈ a -> split_once c (a ++ c :: b) = Some (a, b).
Proof.
  induction a as [|x a IH]; intros Hn; simpl.
  - by rewrite bool_decide_eq_true_2.
  - rewrite elem_of_cons in Hn. rewrite bool_decide_eq_false_2 by naive_solver.
    by rewrite IH by naive_solver.
Qed.

Section dirs.
Context `{HexCrate}.

Lemma parse_ns_dir_of ns : valid_ns ns = true -> parse_ns_dir (ns_dir ns) = Some ns.
Proof.
  intros Hv. pose proof (valid_ns_length ns Hv) as Hl.
  destruct (length_field (Z.of_nat (length ns * 2))) as [Hf Hd]; [lia|].
  destruct (lower_hex_all _ Hd) as [Hd' Hu].
  destruct (lower_hex_all _ (hex_encode_digits ns)) as [He _].
  unfold parse_ns_dir, ns_dir. simpl. rewrite split_once_app by done. simpl.
  rewrite Hf. simpl. rewrite Hd', He, hex_encode_length. simpl.
  rewrite (proj2 (Z.eqb_eq _ _)) by lia. simpl. rewrite hex_decode_encode. simpl.
  unfold from_utf8. rewrite valid_ns_utf8 by done. simpl. by rewrite Hv.
Qed.

Lemma ns_dir_inj ns1 ns2 : valid_ns ns1 = true -> valid_ns ns2 = true ->
  ns_dir ns1 = ns_dir ns2 -> ns1 = ns2.
Proof.
  intros H1 H2 E. apply (f_equal parse_ns_dir) in E.
  rewrite !parse_ns_dir_of in E by done. by simplify_eq.
Qed.

(** ** Properties *)

(** A valid namespace name is recovered from the name of its directory,
    so distinct namespaces never share a directory. *)
Theorem ns_dir_roundtrip ns ns' : valid_ns ns = true -> valid_ns ns' = true ->
  parse_ns_dir (ns_dir ns) = Some ns /\ (ns_dir ns = ns_dir ns' -> ns = ns').
Proof. eauto using parse_ns_dir_of, ns_dir_inj. Qed.

End dirs.

Lemma ns_dir_roundtrip_witness :
  @parse_ns_dir hex_plain (@ns_dir hex_plain (bs "app.users")) = Some (bs "app.users")
  /\ (@ns_dir hex_plain (bs "app.users") = @ns_dir hex_plain (bs "app") ->
      bs "app.users" = bs "app").
Proof. apply (@ns_dir_roundtrip hex_plain (bs "app.users") (bs "app")); reflexivity. Defined.

End StoreTypes.
