(* ===== verification/Store.v ===== *)
(** The store facade of [src/storage/mod.rs]: its state, local writes
    ([put], [delete], [put_batch], [set_schema], [set_index]), the derived
    secondary index, reads ([get], [scan], [index_lookup], [log_records]) and
    the application of replayed and synced records ([apply_record],
    [apply_synced], [apply_synced_batch]).  The code rejoins the disk through
    [append_record]; the snapshot and [open] are in Snapshot.v. *)

From S2P Require Import Prelude Crc32 LogFormat Log LogSpec Utf8 StoreTypes.
Import LogFormat Utf8.
Export StoreTypes.

(** ** The [serde_json] crate

    [json_value] is [from_str::<Value>], [json_strings] is
    [from_str::<Vec<String>>]; a number keeps its [Display] text. *)
Inductive jvalue :=
| JNull
| JBool (b : bool)
| JNumber (text : bytes)
| JString (s : bytes)
| JArray (l : list jvalue)
| JObject (m : list (bytes * jvalue)).

Class SerdeJson := {
  json_value : bytes -> option jvalue;
  json_strings : bytes -> option (list bytes);
}.

Module Store.

(** ** State *)

(** The store directory: [index.snap] and the namespace directories by name. *)
Record disk := mkDisk {
  snap : option bytes;
  dirs : gmap bytes Log.nsdir;
}.

Abbreviation nskey := (bytes * bytes)%type.

Record Store := mkStore {
  sdisk : disk;
  logs : gmap bytes Log.Log;
  policies : gmap bytes ConflictPolicy;
  index : gmap nskey Entry;
  tombs : gmap nskey Z;
  meta : gmap bytes bytes;
  peer_clocks : gmap bytes Z;
  revision : Z;
  durable : bool;
  sec_index : gmap bytes (gset nskey);
}.

Definition with_log (ns dir : bytes) (d : Log.nsdir) (L : Log.Log) (s : Store) : Store :=
  mkStore (mkDisk (snap (sdisk s)) (<[dir := d]> (dirs (sdisk s)))) (<[ns := L]> (logs s))
    (policies s) (index s) (tombs s) (meta s) (peer_clocks s) (revision s) (durable s)
    (sec_index s).
Definition with_disk (d : disk) (s : Store) : Store :=
  mkStore d (logs s) (policies s) (index s) (tombs s) (meta s) (peer_clocks s) (revision s)
    (durable s) (sec_index s).
Definition with_policy (ns : bytes) (p : ConflictPolicy) (s : Store) : Store :=
  mkStore (sdisk s) (logs s) (<[ns := p]> (policies s)) (index s) (tombs s) (meta s)
    (peer_clocks s) (revision s) (durable s) (sec_index s).
Definition with_index (m : gmap nskey Entry) (s : Store) : Store :=
  mkStore (sdisk s) (logs s) (policies s) m (tombs s) (meta s) (peer_clocks s) (revision s)
    (durable s) (sec_index s).
Definition with_tombs (m : gmap nskey Z) (s : Store) : Store :=
  mkStore (sdisk s) (logs s) (policies s) (index s) m (meta s) (peer_clocks s) (revision s)
    (durable s) (sec_index s).
Definition with_meta (m : gmap bytes bytes) (s : Store) : Store :=
  mkStore (sdisk s) (logs s) (policies s) (index s) (tombs s) m (peer_clocks s) (revision s)
    (durable s) (sec_index s).
Definition with_peers (m : gmap bytes Z) (s : Store) : Store :=
  mkStore (sdisk s) (logs s) (policies s) (index s) (tombs s) (meta s) m (revision s)
    (durable s) (sec_index s).
Definition with_revision (n : Z) (s : Store) : Store :=
  mkStore (sdisk s) (logs s) (policies s) (index s) (tombs s) (meta s) (peer_clocks s) n
    (durable s) (sec_index s).
Definition with_sec (m : gmap bytes (gset nskey)) (s : Store) : Store :=
  mkStore (sdisk s) (logs s) (policies s) (index s) (tombs s) (meta s) (peer_clocks s)
    (revision s) (durable s) m.

(** [self.revision += 1]. *)
Definition bump (s : Store) : Store := with_revision (u64 (revision s + 1)) s.

Abbreviation store_m := (method Store StorageError).

(** The identity of a write: tag, HLC, replica. *)
Abbreviation vident := (byte * Z * bytes)%type.

Section store.
Context `{Sha256, HexCrate, SerdeJson}.

(** ** Reads *)

Definition namespaces (s : Store) : list (bytes * ConflictPolicy) := btree_iter (policies s).
Definition policy (s : Store) (ns : bytes) : option ConflictPolicy := policies s !! ns.

Definition get (s : Store) (ns key : bytes) : option Entry :=
  match tombs s !! (ns, key) with
  | Some _ => None
  | None => index s !! (ns, key)
  end.

(** [BTreeMap::range((Included(start), Unbounded))]. *)
Definition range_from {V} (m : gmap nskey V) (start : nskey) : list (nskey * V) :=
  filter (fun kv => cle start kv.1) (btree_iter m).

Fixpoint scan_loop (ns prefix : bytes) (l : list (nskey * Entry)) : list (bytes * Entry) :=
  match l with
  | [] => []
  | ((n, k), e) :: l =>
      if negb (bool_decide (n = ns)) then []
      else if bool_decide (prefix = []) || starts_with prefix k
           then (k, e) :: scan_loop ns prefix l
           else scan_loop ns prefix l
  end.
Definition scan (s : Store) (ns prefix : bytes) : list (bytes * Entry) :=
  scan_loop ns prefix (range_from (index s) (ns, [])).
Definition scan_keys (s : Store) (ns prefix : bytes) : list bytes :=
  (scan_loop ns prefix (range_from (index s) (ns, []))).*1.

(** The directory a log lives in; it exists once the log does. *)
Definition dir_of (s : Store) (ns : bytes) : Log.nsdir :=
  default (Log.mkDir ∅ None) (dirs (sdisk s) !! ns_dir ns).

Definition log_records (s : Store) (ns : bytes) (from_seq max : Z) : res (list (Z * bytes)) :=
  match logs s !! ns with
  | Some L => Log.read_records (dir_of s ns) L from_seq max
  | None => Err (NotFound ns)
  end.

Definition head (s : Store) (ns : bytes) : option (Z * bytes) :=
  (fun L => (Log.seq L, Log.head L)) <$> logs s !! ns.

Definition namespaces_with_head (s : Store) : list (bytes * Z * bytes) :=
  omap (fun ns => (fun L => (ns, Log.seq L, Log.head L)) <$> logs s !! ns)
    (btree_iter (policies s)).*1.

Definition meta_get (s : Store) (key : bytes) : option bytes := meta s !! key.
Definition schema (s : Store) (ns : bytes) : option bytes := meta s !! (bs "schema/" ++ ns).
Definition peer_clock (s : Store) (name : bytes) : option Z := peer_clocks s !! name.

(** ** The derived secondary index *)

Definition sec_map_key (ns field : bytes) : bytes := ns ++ [Byte.x00] ++ field.

Definition index_def (s : Store) (ns : bytes) : option bytes := meta s !! (bs "index/" ++ ns).

Definition index_fields (s : Store) (ns : bytes) : list bytes :=
  match index_def s ns with
  | None => []
  | Some b => default [] (json_strings (from_utf8_lossy b))
  end.

Definition push_scalar (v : jvalue) : list bytes :=
  match v with
  | JNumber t => [t]
  | JString s => [s]
  | JBool b => [if b then bs "true" else bs "false"]
  | _ => []
  end.

Definition field_values (value field : bytes) : list bytes :=
  match json_value (from_utf8_lossy value) with
  | Some (JObject m) =>
      mjoin (map (fun '(k, v) => if bool_decide (k = field) then push_scalar v else []) m)
  | Some v => push_scalar v
  | None => []
  end.

(** [ensure_sec_set(map_key).insert(row)]. *)
Definition sec_insert (mk : bytes) (row : nskey) (m : gmap bytes (gset nskey))
    : gmap bytes (gset nskey) :=
  <[mk := {[row]} ∪ default ∅ (m !! mk)]> m.

Definition remove_from_sec_index (ns key : bytes) (s : Store) : Store :=
  with_sec (fold_left (fun m field =>
      let mk := sec_map_key ns field in
      match m !! mk with
      | Some rows => <[mk := filter (fun row => row.2 <> key) rows]> m
      | None => m
      end) (index_fields s ns) (sec_index s)) s.

Definition refresh_sec_index_for (ns key : bytes) (s : Store) : Store :=
  let s := remove_from_sec_index ns key s in
  let fields := index_fields s ns in
  match fields with
  | [] => s
  | _ =>
      match get s ns key ≫= latest_entry_value with
      | None => s
      | Some v =>
          with_sec (fold_left (fun m field =>
              fold_left (fun m fv => sec_insert (sec_map_key ns field) (fv, key) m)
                (field_values (value v) field) m) fields (sec_index s)) s
      end
  end.

Definition clear_sec_index_ns (ns : bytes) (s : Store) : Store :=
  with_sec (filter (fun kv => starts_with (ns ++ [Byte.x00]) kv.1 = true) (sec_index s)) s.

Definition rebuild_sec_index_ns (ns : bytes) (s : Store) : Store :=
  let s := clear_sec_index_ns ns s in
  match index_fields s ns with
  | [] => s
  | _ =>
      let keys := omap (fun '((n, k), e) =>
          if bool_decide (n = ns) && bool_decide (is_Some (latest_entry_value e))
          then Some k else None) (btree_iter (index s)) in
      fold_left (fun s k => refresh_sec_index_for ns k s) (merge_sort cle keys) s
  end.

Definition rebuild_secondary_indexes (s : Store) : Store :=
  let nss := (btree_iter (policies s)).*1 in
  fold_left (fun s ns => match index_fields s ns with
                         | [] => s
                         | _ => rebuild_sec_index_ns ns s
                         end) nss (with_sec ∅ s).

(** A [BTreeSet] range, in order. *)
Definition index_lookup (s : Store) (ns field start : bytes) : list nskey :=
  match sec_index s !! sec_map_key ns field with
  | Some rows => filter (fun row => cle (start, []) row) (merge_sort cle (elements rows))
  | None => []
  end.

(** ** The log *)

(** [log.append(&record.to_bytes(log.head()))] on the namespace's log. *)
Definition append_record (ns : bytes) (r : record) : store_m Z :=
  s ← self;
  L ← lift (ok_or (NotFound ns) (logs s !! ns));
  '(d', L', n) ← lift (Log.append (dir_of s ns) L (to_bytes r (Log.head L)));
  _ ← update (with_log ns (ns_dir ns) d' L');
  mret n.

(** ** Namespaces *)

(** Opening the log of a namespace creates its directory; an existing sidecar
    makes the exclusive creation of the new one fail. *)
Definition create_namespace (ns : bytes) (policy : ConflictPolicy) : store_m unit :=
  s ← self;
  _ ← lift (guard_err (negb (valid_ns ns)) (BadName ns));
  _ ← lift (guard_err (bool_decide (is_Some (policies s !! ns))) (NamespaceExists ns));
  '(d, L, _) ← lift (Log.recover (dir_of s ns) (ns_dir ns) (durable s));
  _ ← update (with_disk (mkDisk (snap (sdisk s)) (<[ns_dir ns := d]> (dirs (sdisk s)))));
  _ ← lift (guard_err (bool_decide (is_Some (Log.sidecar d)))
              (Io (AlreadyExists (bs "policy.bin"))));
  let d := Log.mkDir (Log.segs d) (Some [policy_to_u8 policy]) in
  _ ← update (with_policy ns policy);
  _ ← update (with_log ns (ns_dir ns) d L);
  update bump.

(** ** Local writes *)

Definition not_register (ns : bytes) : StorageError := Corrupt (Some ns) NotRegister.
Definition bad_tag (ns : bytes) (t : byte) : StorageError := Corrupt (Some ns) (BadTag t).

Definition op_version (o : record) (seq : Z) : Version :=
  mkVersion (LogFormat.hlc o) (LogFormat.replica o) (LogFormat.author o) (LogFormat.value o) seq
    (LogFormat.expires_at o).

(** Adds a version to a register entry. *)
Definition push_register (ns : bytes) (ek : nskey) (v : Version) : store_m unit :=
  s ← self;
  match index s !! ek with
  | Some (Register vs) => update (with_index (<[ek := Register (vs ++ [v])]> (index s)))
  | Some _ => lift (Err (not_register ns))
  | None => update (with_index (<[ek := Register [v]]> (index s)))
  end.

Definition apply_del (ns key : bytes) (h : Z) (s : Store) : Store :=
  let s := with_index (delete (ns, key) (index s)) s in
  let s := with_tombs (<[(ns, key) := h]> (tombs s)) s in
  remove_from_sec_index ns key s.

Definition apply_local_op (ns : bytes) (o : record) (seq : Z) : store_m unit :=
  s ← self;
  policy ← lift (ok_or (BadName ns) (policies s !! ns));
  let ek := (ns, key o) in
  _ ← (if bool_decide (tag o = TAG_PUT \/ tag o = TAG_PUT_TTL) then
         _ ← update (fun s => with_tombs (delete ek (tombs s)) s);
         _ ← match policy with
             | PLww => update (fun s => with_index (<[ek := Lww (op_version o seq)]> (index s)) s)
             | CrdtRegister => push_register ns ek (op_version o seq)
             end;
         update (refresh_sec_index_for ns (key o))
       else if bool_decide (tag o = TAG_DEL) then
         update (apply_del ns (key o) (LogFormat.hlc o))
       else lift (Err (bad_tag ns (tag o))));
  update bump.

Definition put (ns key value : bytes) (hlc : Z) (replica author : bytes) (expires_at : Z)
    : store_m Z :=
  s ← self;
  _ ← lift (ok_or (NotFound ns) (logs s !! ns));
  let r := mkRecord (if expires_at =? 0 then TAG_PUT else TAG_PUT_TTL) key hlc replica author
             value expires_at [] in
  seq ← append_record ns r;
  _ ← apply_local_op ns r seq;
  mret seq.

Definition known_ns (ns : bytes) : store_m unit :=
  s ← self;
  _ ← lift (ok_or (BadName ns) (policies s !! ns));
  mret tt.

Definition delete (ns key : bytes) (hlc : Z) (replica author : bytes) : store_m Z :=
  _ ← known_ns ns;
  let r := mkRecord TAG_DEL key hlc replica author [] 0 [] in
  seq ← append_record ns r;
  _ ← apply_local_op ns r seq;
  mret seq.

Definition batch_record (o : record) (ops : list record) : record :=
  mkRecord TAG_BATCH [] (LogFormat.hlc o) (LogFormat.replica o) (LogFormat.author o) [] 0 ops.

Definition put_batch (ns : bytes) (ops : list record) : store_m Z :=
  match ops with
  | [] => lift (Err (BadName ns))
  | first :: _ =>
      _ ← known_ns ns;
      seq ← append_record ns (batch_record first ops);
      _ ← for_each (fun o => apply_local_op ns o seq) ops;
      mret seq
  end.

(** [meta.insert] or [meta.remove]. *)
Definition set_or_clear (k : bytes) (v : option bytes) (s : Store) : Store :=
  with_meta (match v with
             | Some v => <[k := v]> (meta s)
             | None => base.delete k (meta s)
             end) s.

Definition set_index (ns : bytes) (v : option bytes) (hlc : Z) (replica author : bytes)
    : store_m Z :=
  _ ← known_ns ns;
  seq ← append_record ns (mkRecord TAG_INDEX [] hlc replica author (default [] v) 0 []);
  _ ← update (set_or_clear (bs "index/" ++ ns) v);
  _ ← update (rebuild_sec_index_ns ns);
  _ ← update bump;
  mret seq.

Definition set_schema (ns : bytes) (v : option bytes) (hlc : Z) (replica author : bytes)
    : store_m Z :=
  _ ← known_ns ns;
  seq ← append_record ns (mkRecord TAG_SCHEMA [] hlc replica author (default [] v) 0 []);
  _ ← update (set_or_clear (bs "schema/" ++ ns) v);
  _ ← update bump;
  mret seq.

Definition meta_set (k v : bytes) (s : Store) : Store := bump (with_meta (<[k := v]> (meta s)) s).
Definition set_peer_clock (name : bytes) (diff : Z) (s : Store) : Store :=
  with_peers (<[name := diff]> (peer_clocks s)) s.

(** ** Replayed and synced records *)

Definition lww_newer (old : option Entry) (v : Version) : bool :=
  match old with
  | Some (Lww o) => geb (vkey v) (vkey o)
  | _ => true
  end.

Definition apply_record_op (ns : bytes) (o : record) (seq : Z) : store_m unit :=
  s ← self;
  policy ← lift (ok_or (BadName ns) (policies s !! ns));
  let ek := (ns, key o) in
  if bool_decide (tag o = TAG_PUT \/ tag o = TAG_PUT_TTL) then
    _ ← match policy with
        | PLww => update (fun s =>
            if lww_newer (index s !! ek) (op_version o seq)
            then with_index (<[ek := Lww (op_version o seq)]> (index s)) s else s)
        | CrdtRegister => push_register ns ek (op_version o seq)
        end;
    update (refresh_sec_index_for ns (key o))
  else if bool_decide (tag o = TAG_DEL) then update (apply_del ns (key o) (LogFormat.hlc o))
  else lift (Err (bad_tag ns (tag o))).

(** An empty value clears the definition. *)
Definition nonempty (v : bytes) : option bytes := match v with [] => None | _ => Some v end.

Definition apply_record (ns : bytes) (r : record) (seq : Z) : store_m unit :=
  if bool_decide (tag r = TAG_PUT \/ tag r = TAG_PUT_TTL \/ tag r = TAG_DEL) then
    apply_record_op ns r seq
  else if bool_decide (tag r = TAG_BATCH) then
    for_each (fun o => apply_record_op ns o seq) (ops r)
  else if bool_decide (tag r = TAG_SCHEMA) then
    update (set_or_clear (bs "schema/" ++ ns) (nonempty (LogFormat.value r)))
  else if bool_decide (tag r = TAG_INDEX) then
    _ ← update (set_or_clear (bs "index/" ++ ns) (nonempty (LogFormat.value r)));
    update (rebuild_sec_index_ns ns)
  else lift (Err (bad_tag ns (tag r))).

Definition version_key (r : record) : vident :=
  (tag r, LogFormat.hlc r, LogFormat.replica r).

(** The records that parse; a failed read fails the whole scan. *)
Fixpoint parsed_versions (l : list (Z * bytes)) : res (gset vident) :=
  match l with
  | [] => Ok ∅
  | (_, b) :: l =>
      match parse_chain b None with
      | Ok (r, _) => seen ← parsed_versions l; Ok ({[version_key r]} ∪ seen)
      | Err _ => parsed_versions l
      | Panic => Panic
      end
  end.

Definition log_versions (s : Store) (ns : bytes) : res (gset vident) :=
  match logs s !! ns with
  | Some L => recs ← Log.read_records (dir_of s ns) L 1 0; parsed_versions recs
  | None => Ok ∅
  end.

Definition apply_synced (ns : bytes) (r : record) : store_m bool :=
  s ← self;
  _ ← lift (ok_or (BadName ns) (policies s !! ns));
  seen ← lift (log_versions s ns);
  if bool_decide (version_key r ∈ seen) then mret false else
  seq ← append_record ns r;
  _ ← apply_record ns r seq;
  _ ← update bump;
  mret true.

Fixpoint synced_loop (ns : bytes) (l : list record) (seen : gset vident) (applied : Z)
    : store_m Z :=
  match l with
  | [] => mret applied
  | r :: l =>
      if bool_decide (version_key r ∈ seen) then synced_loop ns l seen applied else
      seq ← append_record ns r;
      _ ← apply_record ns r seq;
      _ ← update bump;
      synced_loop ns l ({[version_key r]} ∪ seen) (applied + 1)
  end.

Definition apply_synced_batch (ns : bytes) (l : list record) : store_m Z :=
  s ← self;
  _ ← lift (ok_or (BadName ns) (policies s !! ns));
  seen ← lift (log_versions s ns);
  synced_loop ns l seen 0.

End store.

End Store.
