(* ===== verification/StoreSpec.v ===== *)
(** The store's invariant and the behaviour of its operations: what [put],
    [delete], [put_batch] do to what [get] shows, that every operation keeps
    the store well-formed, and what syncing does. *)

From S2P Require Import Prelude Crc32 LogFormat Log LogSpec Utf8 StoreTypes Store.
Import LogFormat Utf8 LogSpec Store.

Module StoreSpec.

Section spec.
Context `{Sha256, HexCrate, SerdeJson}.

(** ** The invariant *)

Definition shape_ok (p : ConflictPolicy) (e : Entry) : Prop :=
  match p, e with
  | PLww, Lww _ => True
  | CrdtRegister, Register vs => vs <> []
  | _, _ => False
  end.

(** The namespace's log holds [rs], in memory and on disk. *)
Definition log_holds (s : Store) (ns : bytes) (rs : list bytes) : Prop :=
  exists L d, logs s !! ns = Some L /\ dirs (sdisk s) !! ns_dir ns = Some d /\ is_log d L rs.

Record store_ok (s : Store) : Prop := {
  ok_dom ns : is_Some (logs s !! ns) <-> is_Some (policies s !! ns);
  ok_name ns : is_Some (policies s !! ns) -> valid_ns ns = true;
  ok_log ns L : logs s !! ns = Some L ->
    Log.durable L = durable s /\ exists rs, log_holds s ns rs;
  ok_sidecar ns p : policies s !! ns = Some p ->
    exists d, dirs (sdisk s) !! ns_dir ns = Some d /\ Log.sidecar d = Some [policy_to_u8 p];
  ok_dirs n d : dirs (sdisk s) !! n = Some d -> contiguous d;
  ok_shape ns k e : index s !! (ns, k) = Some e ->
    exists p, policies s !! ns = Some p /\ shape_ok p e;
  ok_tombs ns k h : tombs s !! (ns, k) = Some h -> is_Some (policies s !! ns);
}.

(** Everything but the logs and the disk. *)
Definition same_memory (s s' : Store) : Prop :=
  policies s' = policies s /\ index s' = index s /\ tombs s' = tombs s /\ meta s' = meta s
  /\ peer_clocks s' = peer_clocks s /\ revision s' = revision s /\ durable s' = durable s
  /\ sec_index s' = sec_index s.

(** Everything that the invariant and the log are about. *)
Definition same_logs (s s' : Store) : Prop :=
  sdisk s' = sdisk s /\ logs s' = logs s /\ policies s' = policies s /\ durable s' = durable s.

Lemma log_holds_same s s' ns rs : same_logs s s' -> log_holds s ns rs -> log_holds s' ns rs.
Proof. intros (Hd & Hl & _). unfold log_holds. by rewrite Hd, Hl. Qed.

(** ** Appending to a namespace's log *)

Lemma with_log_ok s ns L L' d d' rs p :
  store_ok s -> policies s !! ns = Some p -> logs s !! ns = Some L ->
  dirs (sdisk s) !! ns_dir ns = Some d -> is_log d' L' rs ->
  Log.durable L' = Log.durable L -> Log.sidecar d' = Log.sidecar d ->
  store_ok (with_log ns (ns_dir ns) d' L' s) /\ log_holds (with_log ns (ns_dir ns) d' L' s) ns rs.
Proof.
  intros Hok Hp HL Hd Hlog Hdu Hsc.
  assert (log_holds (with_log ns (ns_dir ns) d' L' s) ns rs) as Hh.
  { exists L', d'. simpl. by rewrite !lookup_insert_eq. }
  split; [|done]. constructor; simpl; try by apply Hok.
  - intros n. rewrite <-(ok_dom s Hok). destruct (decide (n = ns)) as [->|Hn].
    + rewrite lookup_insert_eq, HL. split; eauto.
    + by rewrite lookup_insert_ne.
  - intros n Ln. destruct (decide (n = ns)) as [->|Hn].
    + rewrite lookup_insert_eq. intros [= <-]. split; [|eauto].
      rewrite Hdu. by destruct (ok_log s Hok ns L HL).
    + rewrite lookup_insert_ne by done. intros HLn.
      destruct (ok_log s Hok n Ln HLn) as [Hdn (rs' & L0 & d0 & HL0 & Hd0 & Hl0)].
      split; [done|]. exists rs', L0, d0. simpl. rewrite lookup_insert_ne by done.
      split; [done|]. rewrite lookup_insert_ne; [done|]. intros E.
      apply ns_dir_inj in E; [done| |]; apply (ok_name s Hok); [by eexists|].
      apply (ok_dom s Hok). by eexists.
  - intros n pn Hpn. destruct (decide (n = ns)) as [->|Hn].
    + rewrite lookup_insert_eq. exists d'. split; [done|]. rewrite Hsc.
      destruct (ok_sidecar s Hok ns pn Hpn) as (d0 & Hd0 & ?). congruence.
    + rewrite lookup_insert_ne; [by apply (ok_sidecar s Hok)|]. intros E.
      apply ns_dir_inj in E; [done| |]; apply (ok_name s Hok); by eexists.
  - intros n dn. destruct (decide (n = ns_dir ns)) as [->|Hn].
    + rewrite lookup_insert_eq. intros [= <-]. by eapply is_log_contiguous.
    + rewrite lookup_insert_ne by done. apply Hok.
Qed.

Lemma dir_of_eq s ns d : dirs (sdisk s) !! ns_dir ns = Some d -> dir_of s ns = d.
Proof. unfold dir_of. by intros ->. Qed.

Lemma ok_holds s ns p : store_ok s -> policies s !! ns = Some p ->
  exists L d rs, logs s !! ns = Some L /\ dirs (sdisk s) !! ns_dir ns = Some d /\ is_log d L rs.
Proof.
  intros Hok Hp. destruct (proj2 (ok_dom s Hok ns)) as [L HL]; [by eexists|].
  destruct (ok_log s Hok ns L HL) as [_ (rs & L' & d & HL' & Hd & Hl)]. naive_solver.
Qed.

(** Appending a well-formed record succeeds and touches only the log. *)
Lemma append_record_ok s ns p rs r :
  store_ok s -> policies s !! ns = Some p -> log_holds s ns rs -> wf_record r ->
  exists s' h, append_record ns r s = (s', Ok (Z.of_nat (length rs) + 1))
    /\ store_ok s' /\ same_memory s s' /\ log_holds s' ns (rs ++ [to_bytes r h])
    /\ length h = 32%nat.
Proof.
  intros Hok Hp (L & d & HL & Hd & Hlog) Hwf. unfold append_record.
  assert (parse (to_bytes r (Log.head L)) (Log.head L) = Ok (r, Log.head L)) as Hparse.
  { apply parse_chain_to_bytes; [done|by eapply is_log_head|by right]. }
  destruct (append_is_log _ _ _ _ _ Hlog Hparse) as (d' & L' & Ha & Hlog' & Hsc & Hdu).
  destruct (is_log_facts _ _ _ Hlog) as (Hseq & _ & _).
  exists (with_log ns (ns_dir ns) d' L' s), (Log.head L). split.
  { unfold mbind, method_bind, self, lift. simpl. rewrite HL. simpl.
    rewrite (dir_of_eq _ _ _ Hd), Ha. simpl. by rewrite Hseq. }
  destruct (with_log_ok s ns L L' d d' _ p Hok Hp HL Hd Hlog' Hdu Hsc) as [Hok' Hh'].
  split_and!; try done. by eapply is_log_head.
Qed.

(** ** Updates that leave the logs alone *)

Lemma same_logs_ok s s' : same_logs s s' -> store_ok s ->
  (forall ns k e, index s' !! (ns, k) = Some e ->
     exists p, policies s' !! ns = Some p /\ shape_ok p e) ->
  (forall ns k h, tombs s' !! (ns, k) = Some h -> is_Some (policies s' !! ns)) ->
  store_ok s'.
Proof.
  intros Hs Hok Hsh Ht. pose proof Hs as (Hd & Hl & Hp & Hdu).
  constructor; try done; rewrite ?Hd, ?Hl, ?Hp, ?Hdu; try by apply Hok.
  intros ns L HL. destruct (ok_log s Hok ns L HL) as [? [rs Hrs]].
  split; [done|]. exists rs. by eapply log_holds_same.
Qed.

(** The secondary index is not part of what the invariant is about. *)
Definition same_but_sec (s s' : Store) : Prop :=
  same_logs s s' /\ index s' = index s /\ tombs s' = tombs s /\ meta s' = meta s
  /\ peer_clocks s' = peer_clocks s /\ revision s' = revision s.

Lemma same_but_sec_trans s1 s2 s3 :
  same_but_sec s1 s2 -> same_but_sec s2 s3 -> same_but_sec s1 s3.
Proof. unfold same_but_sec, same_logs. intuition congruence. Qed.

Lemma same_but_sec_refl s : same_but_sec s s.
Proof. done. Qed.

Lemma remove_sec_same ns k s : same_but_sec s (remove_from_sec_index ns k s).
Proof. done. Qed.

Lemma refresh_sec_same ns k s : same_but_sec s (refresh_sec_index_for ns k s).
Proof. unfold refresh_sec_index_for. by repeat case_match. Qed.

Lemma clear_sec_same ns s : same_but_sec s (clear_sec_index_ns ns s).
Proof. done. Qed.

Lemma rebuild_sec_ns_same ns s : same_but_sec s (rebuild_sec_index_ns ns s).
Proof.
  unfold rebuild_sec_index_ns. case_match; [done|].
  set (keys := merge_sort _ _). clearbody keys. generalize (clear_sec_same ns s).
  generalize (clear_sec_index_ns ns s). induction keys as [|k keys IH]; intros s0 Hs0; [done|].
  apply IH. eapply same_but_sec_trans; [done|apply refresh_sec_same].
Qed.

Lemma same_but_sec_ok s s' : same_but_sec s s' -> store_ok s -> store_ok s'.
Proof.
  intros (Hl & Hi & Ht & _) Hok. apply (same_logs_ok s); [done..| |];
    destruct Hl as (_ & _ & Hp & _); rewrite Hp, ?Hi, ?Ht; apply Hok.
Qed.

Lemma bump_ok s : store_ok s -> store_ok (bump s).
Proof. intros Hok. apply (same_logs_ok s); [done..| |]; apply Hok. Qed.

Lemma with_meta_ok m s : store_ok s -> store_ok (with_meta m s).
Proof. intros Hok. apply (same_logs_ok s); [done..| |]; apply Hok. Qed.

Lemma set_or_clear_ok k v s : store_ok s -> store_ok (set_or_clear k v s).
Proof. apply with_meta_ok. Qed.

Lemma insert_entry_ok s ns k e p : store_ok s -> policies s !! ns = Some p -> shape_ok p e ->
  store_ok (with_index (<[(ns, k) := e]> (index s)) s).
Proof.
  intros Hok Hp He. apply (same_logs_ok s); [done..| |]; simpl; [|apply Hok].
  intros n k' e'. destruct (decide ((n, k') = (ns, k))) as [[= -> ->]|Hn].
  - rewrite lookup_insert_eq. intros [= <-]. eauto.
  - rewrite lookup_insert_ne by done. apply Hok.
Qed.

Lemma clear_tomb_ok s ek : store_ok s -> store_ok (with_tombs (base.delete ek (tombs s)) s).
Proof.
  intros Hok. apply (same_logs_ok s); [done..| |]; simpl; [apply Hok|].
  intros n k h [_ Hh]%lookup_delete_Some. by eapply (ok_tombs s Hok).
Qed.

Lemma apply_del_ok s ns k h : store_ok s -> is_Some (policies s !! ns) ->
  store_ok (apply_del ns k h s).
Proof.
  intros Hok Hp. eapply same_but_sec_ok; [apply remove_sec_same|].
  apply (same_logs_ok s); [done..| |]; simpl.
  - intros n k' e [_ He]%lookup_delete_Some. by eapply (ok_shape s Hok).
  - intros n k' h'. destruct (decide ((n, k') = (ns, k))) as [[= -> ->]|Hn]; [done|].
    rewrite lookup_insert_ne by done. apply Hok.
Qed.

Lemma push_register_ok s ns k v : store_ok s -> policies s !! ns = Some CrdtRegister ->
  store_ok (push_register ns (ns, k) v s).1.
Proof.
  intros Hok Hp. unfold push_register, mbind, method_bind, self, update. simpl.
  destruct (index s !! (ns, k)) as [[|vs]|] eqn:E; simpl; [done| |];
    (eapply insert_entry_ok; [done..|]); simpl; [by destruct vs|done].
Qed.

(** ** Every operation keeps the invariant *)

Lemma keeps_same_logs_pol s s' ns : same_logs s s' -> policies s' !! ns = policies s !! ns.
Proof. by intros (_ & _ & -> & _). Qed.

Lemma apply_local_op_keeps ns o seq : keeps store_ok (apply_local_op ns o seq).
Proof.
  intros s Hok. unfold apply_local_op, mbind, method_bind, self, lift, update. simpl.
  destruct (policies s !! ns) as [p|] eqn:Hp; simpl; [|done].
  case_bool_decide; [|case_bool_decide; simpl; [|done]].
  - assert (store_ok (with_tombs (base.delete (ns, key o) (tombs s)) s)) as Hs1
      by (by apply clear_tomb_ok).
    destruct p; simpl.
    + apply bump_ok. eapply same_but_sec_ok; [apply refresh_sec_same|].
      by eapply (insert_entry_ok _ ns _ _ PLww Hs1).
    + pose proof (push_register_ok _ ns (key o) (op_version o seq) Hs1 Hp) as Hs2.
      destruct (push_register ns (ns, key o) (op_version o seq) _) as [s2 [[]|e|]];
        simpl in *; try done.
      apply bump_ok. eapply same_but_sec_ok; [apply refresh_sec_same|done].
  - apply bump_ok, apply_del_ok; [done|by eexists].
Qed.

Lemma apply_record_op_keeps ns o seq : keeps store_ok (apply_record_op ns o seq).
Proof.
  intros s Hok. unfold apply_record_op, mbind, method_bind, self, lift, update. simpl.
  destruct (policies s !! ns) as [p|] eqn:Hp; simpl; [|done].
  case_bool_decide; [|case_bool_decide; simpl; [|done]].
  - destruct p; simpl.
    + eapply same_but_sec_ok; [apply refresh_sec_same|].
      destruct (lww_newer _ _); [|done]. by eapply (insert_entry_ok _ ns _ _ PLww Hok).
    + pose proof (push_register_ok _ ns (key o) (op_version o seq) Hok Hp) as Hs2.
      destruct (push_register ns (ns, key o) (op_version o seq) _) as [s2 [[]|e|]];
        simpl in *; try done.
      eapply same_but_sec_ok; [apply refresh_sec_same|done].
  - apply apply_del_ok; [done|by eexists].
Qed.

Lemma apply_record_keeps ns r seq : keeps store_ok (apply_record ns r seq).
Proof.
  unfold apply_record. repeat case_bool_decide.
  - apply apply_record_op_keeps.
  - apply keeps_for_each. intros o _. apply apply_record_op_keeps.
  - apply keeps_update. intros s. apply set_or_clear_ok.
  - apply keeps_bind; [apply keeps_update; intros s; apply set_or_clear_ok|].
    intros s [] s' _ _ Hs'. simpl. eapply same_but_sec_ok; [apply rebuild_sec_ns_same|done].
  - apply keeps_lift.
Qed.

Lemma append_record_keeps ns r : wf_record r -> keeps store_ok (append_record ns r).
Proof.
  intros Hwf s Hok. destruct (policies s !! ns) as [p|] eqn:Hp.
  - destruct (ok_holds s ns p Hok Hp) as (L & d & rs & HL & Hd & Hlog).
    destruct (append_record_ok s ns p rs r Hok Hp) as (s' & h & -> & Hok' & _);
      [by exists L, d|done|done].
  - unfold append_record, mbind, method_bind, self, lift. simpl.
    destruct (logs s !! ns) eqn:HL; simpl; [|done].
    exfalso. assert (is_Some (policies s !! ns)) as [q Hq].
    { apply (ok_dom s Hok). by eexists. }
    congruence.
Qed.

(** ** Creating a namespace *)

Lemma contiguous_dir_of s ns : store_ok s -> contiguous (dir_of s ns).
Proof.
  intros Hok. unfold dir_of. destruct (dirs (sdisk s) !! ns_dir ns) as [d|] eqn:E; simpl.
  - by eapply (ok_dirs s Hok).
  - by exists [].
Qed.

(** A directory no namespace owns may change freely. *)
Lemma with_free_dir_ok s ns d : store_ok s -> policies s !! ns = None -> valid_ns ns = true ->
  contiguous d -> store_ok (with_disk (mkDisk (snap (sdisk s)) (<[ns_dir ns := d]> (dirs (sdisk s)))) s).
Proof.
  intros Hok Hp Hv Hd.
  assert (forall n, is_Some (policies s !! n) -> ns_dir ns <> ns_dir n) as Hne.
  { intros n Hn E. apply ns_dir_inj in E; [|done|by apply (ok_name s Hok)].
    subst. rewrite Hp in Hn. by destruct Hn. }
  constructor; simpl; try by apply Hok.
  - intros n L HL. destruct (ok_log s Hok n L HL) as [Hdu (rs & L' & d' & HL' & Hd' & Hlog)].
    split; [done|]. exists rs, L', d'. simpl. split; [done|].
    rewrite lookup_insert_ne; [done|]. apply Hne, (ok_dom s Hok). by eexists.
  - intros n p Hn. rewrite lookup_insert_ne; [by apply (ok_sidecar s Hok)|].
    apply Hne. by eexists.
  - intros n d'. destruct (decide (n = ns_dir ns)) as [->|Hn].
    + rewrite lookup_insert_eq. by intros [= <-].
    + rewrite lookup_insert_ne by done. apply Hok.
Qed.

(** A new namespace with its policy, log and directory. *)
Lemma add_namespace_ok s ns p d L rs : store_ok s -> policies s !! ns = None ->
  valid_ns ns = true -> is_log d L rs -> Log.durable L = durable s ->
  Log.sidecar d = Some [policy_to_u8 p] ->
  store_ok (with_log ns (ns_dir ns) d L (with_policy ns p s)).
Proof.
  intros Hok Hp Hv Hlog Hdu Hsc.
  assert (forall n, is_Some (policies s !! n) -> ns_dir ns <> ns_dir n /\ ns <> n) as Hne.
  { intros n Hn. assert (ns <> n) as Hnn by (intros ->; rewrite Hp in Hn; by destruct Hn).
    split; [|done]. intros E. apply ns_dir_inj in E; [done|done|by apply (ok_name s Hok)]. }
  constructor; simpl.
  - intros n. destruct (decide (ns = n)) as [<-|Hn].
    + rewrite !lookup_insert_eq. split; eauto.
    + rewrite !lookup_insert_ne by done. apply Hok.
  - intros n. destruct (decide (ns = n)) as [<-|Hn]; [done|].
    rewrite lookup_insert_ne by done. apply Hok.
  - intros n Ln. destruct (decide (ns = n)) as [<-|Hn].
    + rewrite lookup_insert_eq. intros [= <-]. split; [done|]. exists rs, L, d. simpl.
      by rewrite !lookup_insert_eq.
    + rewrite lookup_insert_ne by done. intros HL.
      destruct (ok_log s Hok n Ln HL) as [? (rs' & L' & d' & HL' & Hd' & Hl')].
      split; [done|]. exists rs', L', d'. simpl. rewrite lookup_insert_ne by done.
      split; [done|]. rewrite lookup_insert_ne; [done|].
      apply Hne, (ok_dom s Hok). by eexists.
  - intros n q. destruct (decide (ns = n)) as [<-|Hn].
    + rewrite !lookup_insert_eq. intros [= <-]. eauto.
    + rewrite lookup_insert_ne by done. intros Hq.
      rewrite lookup_insert_ne; [by apply (ok_sidecar s Hok)|]. apply Hne. by eexists.
  - intros n d'. destruct (decide (n = ns_dir ns)) as [->|Hn].
    + rewrite lookup_insert_eq. intros [= <-]. by eapply is_log_contiguous.
    + rewrite lookup_insert_ne by done. apply Hok.
  - intros n k e Hi. destruct (ok_shape s Hok n k e Hi) as (q & Hq & Hsh).
    exists q. rewrite lookup_insert_ne; [done|]. apply Hne. by eexists.
  - intros n k h Ht. pose proof (ok_tombs s Hok n k h Ht) as Hs.
    rewrite lookup_insert_ne; [done|]. by apply Hne.
Qed.

Lemma create_namespace_keeps ns p : keeps store_ok (create_namespace ns p).
Proof.
  intros s Hok. unfold create_namespace, mbind, method_bind, self, lift, update. simpl.
  destruct (valid_ns ns) eqn:Hv; simpl; [|done].
  case_bool_decide as Hp; simpl; [done|]. apply eq_None_not_Some in Hp.
  destruct (Log.recover _ _ _) as [[[d L] w]|e|] eqn:Hr; simpl; try done.
  destruct (recover_any _ _ _ _ _ _ (contiguous_dir_of s ns Hok) Hr) as (rs & Hlog & Hdu & Hsc).
  pose proof (is_log_contiguous _ _ _ Hlog) as Hc.
  pose proof (with_free_dir_ok s ns d Hok Hp Hv Hc) as Hok1.
  case_bool_decide as Hs; simpl; [done|].
  apply bump_ok. eapply add_namespace_ok; try done.
Qed.

(** ** All operations *)

Inductive op :=
| OpCreate (ns : bytes) (p : ConflictPolicy)
| OpPut (ns k v : bytes) (h : Z) (rep aut : bytes) (ex : Z)
| OpDelete (ns k : bytes) (h : Z) (rep aut : bytes)
| OpBatch (ns : bytes) (l : list record)
| OpSetIndex (ns : bytes) (v : option bytes) (h : Z) (rep aut : bytes)
| OpSetSchema (ns : bytes) (v : option bytes) (h : Z) (rep aut : bytes)
| OpMetaSet (k v : bytes)
| OpPeerClock (n : bytes) (d : Z)
| OpSynced (ns : bytes) (r : record)
| OpSyncedBatch (ns : bytes) (l : list record).

Definition forget {A} (m : store_m A) : store_m unit := _ ← m; mret tt.

Definition exec (o : op) : store_m unit :=
  match o with
  | OpCreate ns p => create_namespace ns p
  | OpPut ns k v h rep aut ex => forget (put ns k v h rep aut ex)
  | OpDelete ns k h rep aut => forget (delete ns k h rep aut)
  | OpBatch ns l => forget (put_batch ns l)
  | OpSetIndex ns v h rep aut => forget (set_index ns v h rep aut)
  | OpSetSchema ns v h rep aut => forget (set_schema ns v h rep aut)
  | OpMetaSet k v => update (meta_set k v)
  | OpPeerClock n d => update (set_peer_clock n d)
  | OpSynced ns r => forget (apply_synced ns r)
  | OpSyncedBatch ns l => forget (apply_synced_batch ns l)
  end.

(** The records an operation would append are well-formed: what the types
    of the arguments guarantee, and a payload below 4 GiB. *)
Definition op_wf (o : op) : Prop :=
  match o with
  | OpPut ns k v h rep aut ex =>
      wf_record (mkRecord (if ex =? 0 then TAG_PUT else TAG_PUT_TTL) k h rep aut v ex [])
  | OpDelete ns k h rep aut => wf_record (mkRecord TAG_DEL k h rep aut [] 0 [])
  | OpBatch ns l => match l with [] => True | o :: _ => wf_record (batch_record o l) end
  | OpSetIndex ns v h rep aut => wf_record (mkRecord TAG_INDEX [] h rep aut (default [] v) 0 [])
  | OpSetSchema ns v h rep aut => wf_record (mkRecord TAG_SCHEMA [] h rep aut (default [] v) 0 [])
  | OpSynced ns r => wf_record r
  | OpSyncedBatch ns l => Forall wf_record l
  | _ => True
  end.

(** Sequencing of steps none of which needs to know the previous outcome. *)
Lemma keeps_seq {A B} (I : Store -> Prop) (m : store_m A) (k : A -> store_m B) :
  keeps I m -> (forall a, keeps I (k a)) -> keeps I (m ≫= k).
Proof. intros Hm Hk. apply keeps_bind; [done|]. intros s a s' _ _ Hs'. by apply Hk. Qed.

Lemma keeps_self {B} (I : Store -> Prop) (k : Store -> store_m B) :
  (forall s, I s -> I (k s s).1) -> keeps I (self ≫= k).
Proof. intros Hk s Hs. by apply Hk. Qed.

(** What the operations do to the store, besides creating a namespace: append
    well-formed records, apply operations to the index and the tombstones, and
    change what is neither log nor entry.  An invariant of these steps is one of
    every operation. *)
Definition same_data (s s' : Store) : Prop := same_logs s s' /\ index s' = index s /\ tombs s' = tombs s.

Section steps.
Context (I : Store -> Prop).
Context (I_append : forall ns r, wf_record r -> keeps I (append_record ns r)).
Context (I_local : forall ns o q, keeps I (apply_local_op ns o q)).
Context (I_record : forall ns r q, keeps I (apply_record ns r q)).
Context (I_same : forall s s', same_data s s' -> I s -> I s').

Lemma keeps_same f : (forall s, same_data s (f s)) -> keeps I (update (E:=StorageError) f).
Proof. intros Hf. apply keeps_update. intros s. by apply I_same. Qed.

Lemma keeps_bump : keeps I (update (E:=StorageError) bump).
Proof. by apply keeps_same. Qed.

Lemma keeps_known ns : keeps I (known_ns ns).
Proof.
  intros s Hok. unfold known_ns, mbind, method_bind, self, lift. simpl. by destruct (policies s !! ns).
Qed.

Lemma rebuild_same_data ns s : same_data s (rebuild_sec_index_ns ns s).
Proof. by destruct (rebuild_sec_ns_same ns s) as (? & ? & ? & _). Qed.

Lemma synced_loop_keeps ns l seen n : Forall wf_record l -> keeps I (synced_loop ns l seen n).
Proof.
  intros Hl. revert seen n. induction Hl as [|r l Hr Hl IH]; intros seen n; simpl; [apply keeps_ret|].
  case_bool_decide; [apply IH|]. apply keeps_seq; [by apply I_append|]. intros q.
  apply keeps_seq; [apply I_record|]. intros _. apply keeps_seq; [apply keeps_bump|]. intros _. apply IH.
Qed.

Lemma apply_synced_keeps ns r : wf_record r -> keeps I (apply_synced ns r).
Proof.
  intros Hr. apply keeps_self. intros s Hok. apply (keeps_seq I (lift _)); [apply keeps_lift|intros _|done].
  apply keeps_seq; [apply keeps_lift|]. intros seen. case_bool_decide; [apply keeps_ret|].
  apply keeps_seq; [by apply I_append|]. intros q. apply keeps_seq; [apply I_record|]. intros _.
  apply keeps_seq; [apply keeps_bump|]. intros _. apply keeps_ret.
Qed.

Lemma exec_steps o : op_wf o -> (forall ns p, o = OpCreate ns p -> keeps I (create_namespace ns p)) -> keeps I (exec o).
Proof.
  assert (forall A (m : store_m A), keeps I m -> keeps I (forget m)) as Hf.
  { intros A m Hm. apply keeps_seq; [done|]. intros _. apply keeps_ret. }
  assert (forall ns r q, keeps I (_ ← apply_local_op ns r q; mret q)) as Hl.
  { intros ns r q. apply keeps_seq; [apply I_local|]. intros _. apply keeps_ret. }
  intros Hwf Hc. destruct o as [ns p|ns k v h rep aut ex|ns k h rep aut|ns l|ns v h rep aut
    |ns v h rep aut|k v|n d|ns r|ns l]; cbn [exec op_wf] in *; try apply Hf.
  - by apply Hc.
  - apply keeps_self. intros s Hok. apply (keeps_seq I (lift _)); [apply keeps_lift|intros _|done].
    cbv zeta. apply keeps_seq; [by apply I_append|]. intros q. apply Hl.
  - apply keeps_seq; [apply keeps_known|intros _]. cbv zeta.
    apply keeps_seq; [by apply I_append|]. intros q. apply Hl.
  - destruct l as [|o l]; [apply keeps_lift|]. cbn [put_batch].
    apply keeps_seq; [apply keeps_known|intros _]. apply keeps_seq; [by apply I_append|]. intros q.
    apply keeps_seq; [|intros _; apply keeps_ret]. apply keeps_for_each. intros x _. apply I_local.
  - apply keeps_seq; [apply keeps_known|intros _]. apply keeps_seq; [by apply I_append|]. intros q.
    apply keeps_seq; [by apply keeps_same|intros _].
    apply keeps_seq; [apply keeps_same, rebuild_same_data|intros _].
    apply keeps_seq; [apply keeps_bump|intros _; apply keeps_ret].
  - apply keeps_seq; [apply keeps_known|intros _]. apply keeps_seq; [by apply I_append|]. intros q.
    apply keeps_seq; [by apply keeps_same|intros _]. apply keeps_seq; [apply keeps_bump|intros _; apply keeps_ret].
  - by apply keeps_same.
  - by apply keeps_same.
  - by apply apply_synced_keeps.
  - apply keeps_self. intros s Hok. apply (keeps_seq I (lift _)); [apply keeps_lift|intros _|done].
    apply keeps_seq; [apply keeps_lift|]. intros seen. by apply synced_loop_keeps.
Qed.
End steps.

Lemma same_data_ok s s' : same_data s s' -> store_ok s -> store_ok s'.
Proof.
  intros (Hl & Hi & Ht) Hok. pose proof Hl as (_ & _ & Hp & _).
  apply (same_logs_ok s); [done..| |]; rewrite ?Hi, ?Ht, ?Hp; apply Hok.
Qed.

Lemma exec_keeps o : op_wf o -> keeps store_ok (exec o).
Proof.
  intros Hwf. apply exec_steps; [apply append_record_keeps|apply apply_local_op_keeps|apply apply_record_keeps
    |apply same_data_ok|done|]. intros ns p _. apply create_namespace_keeps.
Qed.

(** ** Local writes as functions of the index and the tombstones *)

Definition is_put (o : record) : bool := bool_decide (tag o = TAG_PUT \/ tag o = TAG_PUT_TTL).
Definition is_data (o : record) : Prop := is_put o = true \/ tag o = TAG_DEL.

(** The entry a local write leaves, given the entry it found. *)
Definition local_entry (p : ConflictPolicy) (old : option Entry) (v : Version) : Entry :=
  match p, old with
  | PLww, _ => Lww v
  | CrdtRegister, Some (Register vs) => Register (vs ++ [v])
  | CrdtRegister, _ => Register [v]
  end.

Definition mem := (gmap nskey Entry * gmap nskey Z)%type.
Definition mem_of (s : Store) : mem := (index s, tombs s).

Definition local_step (p : ConflictPolicy) (ns : bytes) (seq : Z) (m : mem) (o : record) : mem :=
  let ek := (ns, key o) in
  if is_put o
  then (<[ek := local_entry p (m.1 !! ek) (op_version o seq)]> m.1, base.delete ek m.2)
  else (base.delete ek m.1, <[ek := LogFormat.hlc o]> m.2).

(** What stays as it was. *)
Definition same_rest (s s' : Store) : Prop :=
  same_logs s s' /\ meta s' = meta s /\ peer_clocks s' = peer_clocks s.

Lemma same_rest_trans s1 s2 s3 : same_rest s1 s2 -> same_rest s2 s3 -> same_rest s1 s3.
Proof. unfold same_rest, same_logs. intuition congruence. Qed.

Lemma refresh_mem ns k s : mem_of (refresh_sec_index_for ns k s) = mem_of s
  /\ same_rest s (refresh_sec_index_for ns k s).
Proof.
  destruct (refresh_sec_same ns k s) as (Hl & Hi & Ht & Hm & Hp & _).
  unfold mem_of, same_rest. by rewrite Hi, Ht.
Qed.

(** Every entry has the shape of its namespace's policy. *)
Definition mem_shapes (pol : gmap bytes ConflictPolicy) (ix : gmap nskey Entry) : Prop :=
  forall ns k e, ix !! (ns, k) = Some e -> exists p, pol !! ns = Some p /\ shape_ok p e.
Definition shapes (s : Store) : Prop := mem_shapes (policies s) (index s).

Lemma push_register_run s ns k v : shapes s -> policies s !! ns = Some CrdtRegister ->
  push_register ns (ns, k) v s
  = (with_index (<[(ns, k) := local_entry CrdtRegister (index s !! (ns, k)) v]> (index s)) s, Ok tt).
Proof.
  intros Hok Hp. unfold push_register, mbind, method_bind, self, update. simpl.
  destruct (index s !! (ns, k)) as [[v0|vs]|] eqn:E; try done.
  destruct (Hok ns k _ E) as (q & Hq & Hs). rewrite Hp in Hq. by simplify_eq.
Qed.

Lemma apply_local_op_run s ns p o seq :
  store_ok s -> policies s !! ns = Some p -> is_data o ->
  exists s', apply_local_op ns o seq s = (s', Ok tt)
    /\ mem_of s' = local_step p ns seq (mem_of s) o /\ same_rest s s'.
Proof.
  intros Hok Hp Hd. unfold apply_local_op, local_step, is_put, mbind, method_bind, self, lift, update.
  cbn [fst snd]. rewrite Hp. simpl. unfold is_data, is_put in Hd.
  case_bool_decide as Hput.
  - destruct p.
    + eexists. split; [reflexivity|]. set (s1 := with_index _ _).
      destruct (refresh_mem ns (key o) s1) as [Hm Hr].
      unfold mem_of in *. simpl in *. injection Hm as Hi Ht. rewrite Hi, Ht.
      split; [done|]. eapply same_rest_trans; [|exact Hr]. done.
    + rewrite push_register_run; [|exact (ok_shape _ (clear_tomb_ok _ _ Hok))|done].
      eexists. split; [reflexivity|]. set (s1 := with_index _ _).
      destruct (refresh_mem ns (key o) s1) as [Hm Hr].
      unfold mem_of in *. simpl in *. injection Hm as Hi Ht. rewrite Hi, Ht.
      split; [done|]. eapply same_rest_trans; [|exact Hr]. done.
  - destruct Hd as [Hd|Hd]; [done|].
    rewrite bool_decide_eq_true_2 by done. by eexists.
Qed.

Lemma for_each_local_run s ns p l seq :
  store_ok s -> policies s !! ns = Some p -> Forall is_data l ->
  exists s', for_each (fun o => apply_local_op ns o seq) l s = (s', Ok tt)
    /\ mem_of s' = fold_left (local_step p ns seq) l (mem_of s) /\ same_rest s s' /\ store_ok s'.
Proof.
  intros Hok Hp Hl. revert s Hok Hp. induction Hl as [|o l Ho Hl IH]; intros s Hok Hp; [by exists s|].
  destruct (apply_local_op_run s ns p o seq Hok Hp Ho) as (s1 & E1 & Hm1 & Hr1).
  pose proof (apply_local_op_keeps ns o seq s Hok) as Hok1. rewrite E1 in Hok1.
  destruct (IH s1 Hok1) as (s2 & E2 & Hm2 & Hr2 & Hok2).
  { destruct Hr1 as ((_ & _ & -> & _) & _). done. }
  exists s2. simpl. rewrite (method_bind_step _ _ _ _ _ E1), E2, Hm2, Hm1.
  split_and!; try done. by eapply same_rest_trans.
Qed.

(** What [get] shows, from the index and the tombstones. *)
Definition shown (m : mem) (ek : nskey) : option Entry :=
  match m.2 !! ek with Some _ => None | None => m.1 !! ek end.

Lemma get_shown s ns k : get s ns k = shown (mem_of s) (ns, k).
Proof. done. Qed.

Lemma local_step_other p ns seq m o ek : ek <> (ns, key o) ->
  shown (local_step p ns seq m o) ek = shown m ek.
Proof.
  intros Hne. unfold shown, local_step. destruct (is_put o); simpl;
    rewrite ?lookup_delete_ne, ?lookup_insert_ne by done; done.
Qed.

Lemma local_step_put p ns seq m o : is_put o = true ->
  shown (local_step p ns seq m o) (ns, key o)
  = Some (local_entry p (m.1 !! (ns, key o)) (op_version o seq)).
Proof.
  intros Ho. unfold shown, local_step. rewrite Ho. simpl.
  by rewrite lookup_delete_eq, lookup_insert_eq.
Qed.

Lemma local_step_del p ns seq m o : is_put o = false ->
  shown (local_step p ns seq m o) (ns, key o) = None.
Proof.
  intros Ho. unfold shown, local_step. rewrite Ho. simpl. by rewrite lookup_insert_eq.
Qed.

(** The last operation on a key decides what a batch leaves of it. *)
Definition last_on (k : bytes) (l : list record) : option record :=
  last (filter (fun o => key o = k) l).

Lemma last_on_snoc k l o :
  last_on k (l ++ [o]) = if decide (key o = k) then Some o else last_on k l.
Proof.
  unfold last_on. rewrite filter_app, filter_cons, filter_nil.
  case_decide; [by rewrite last_snoc|by rewrite app_nil_r].
Qed.

Lemma fold_local_shown ns seq m l k :
  shown (fold_left (local_step PLww ns seq) l m) (ns, k)
  = match last_on k l with
    | None => shown m (ns, k)
    | Some o => if is_put o then Some (Lww (op_version o seq)) else None
    end.
Proof.
  induction l as [|o l IH] using rev_ind; [done|].
  rewrite fold_left_app, last_on_snoc. simpl. case_decide as Hk.
  - subst k. destruct (is_put o) eqn:Ho; [by rewrite local_step_put|by rewrite local_step_del].
  - rewrite local_step_other by congruence. apply IH.
Qed.

Lemma fold_local_other p ns seq m l ns' k : ns' <> ns ->
  shown (fold_left (local_step p ns seq) l m) (ns', k) = shown m (ns', k).
Proof.
  intros Hne. revert m. induction l as [|o l IH]; intros m; [done|].
  simpl. rewrite IH. apply local_step_other. congruence.
Qed.

Lemma known_ns_run {B} s ns p (k : unit -> store_m B) : policies s !! ns = Some p ->
  (known_ns ns ≫= k) s = k tt s.
Proof. intros Hp. unfold known_ns, mbind, method_bind, self, lift. simpl. by rewrite Hp. Qed.

(** One record appended, then its operations applied. *)
Lemma write_run s ns p rs r l :
  store_ok s -> policies s !! ns = Some p -> log_holds s ns rs -> wf_record r ->
  Forall is_data l ->
  exists s' h, (seq ← append_record ns r; _ ← for_each (fun o => apply_local_op ns o seq) l;
                mret seq) s = (s', Ok (Z.of_nat (length rs) + 1))
    /\ mem_of s' = fold_left (local_step p ns (Z.of_nat (length rs) + 1)) l (mem_of s)
    /\ log_holds s' ns (rs ++ [to_bytes r h]) /\ length h = 32%nat.
Proof.
  intros Hok Hp Hlog Hwf Hl.
  destruct (append_record_ok s ns p rs r Hok Hp Hlog Hwf) as (s1 & h & E1 & Hok1 & Hm1 & Hlog1 & Hh).
  destruct Hm1 as (Hp1 & Hi1 & Ht1 & _).
  destruct (for_each_local_run s1 ns p l (Z.of_nat (length rs) + 1) Hok1) as (s2 & E2 & Hm2 & Hr2 & _);
    [by rewrite Hp1|done|].
  exists s2, h. rewrite (method_bind_step _ _ _ _ _ E1), (method_bind_step _ _ _ _ _ E2).
  unfold mem_of in *. rewrite Hm2, Hi1, Ht1. split_and!; try done.
  eapply log_holds_same; [|done]. apply Hr2.
Qed.

(** ** Properties *)

(** A new store on an empty directory. *)
Definition empty_store (dur : bool) : Store :=
  mkStore (mkDisk None ∅) ∅ ∅ ∅ ∅ ∅ ∅ 0 dur ∅.

Lemma empty_store_ok dur : store_ok (empty_store dur).
Proof.
  constructor; simpl; intros *; rewrite ?lookup_empty; try done; by intros [].
Qed.

(** A sequence of operations, each run whatever the outcome of the last. *)
Definition run_ops (l : list op) (s : Store) : Store :=
  fold_left (fun s o => (exec o s).1) l s.

(** C28: from an empty directory, any sequence of operations (namespace
    creation, writes, deletes, batches, schema and index definitions, synced
    records; failing ones included) leaves a well-formed store: logs and
    policies agree, every log is intact in memory and on disk, every entry
    has the shape of its namespace's policy, and every sidecar its byte. *)
Theorem store_invariant (l : list op) (dur : bool) :
  Forall op_wf l -> store_ok (run_ops l (empty_store dur)).
Proof.
  intros Hl. generalize (empty_store_ok dur). generalize (empty_store dur).
  induction Hl as [|o l Ho Hl IH]; intros s Hs; [done|].
  apply IH. by apply exec_keeps.
Qed.

(** A [put] and a [delete] are one append and one local step. *)
Lemma put_run s ns p rs k v h rep aut ex :
  let r := mkRecord (if ex =? 0 then TAG_PUT else TAG_PUT_TTL) k h rep aut v ex [] in
  let n := Z.of_nat (length rs) + 1 in
  store_ok s -> policies s !! ns = Some p -> log_holds s ns rs -> wf_record r ->
  exists s' hd, put ns k v h rep aut ex s = (s', Ok n)
    /\ mem_of s' = local_step p ns n (mem_of s) r /\ log_holds s' ns (rs ++ [to_bytes r hd]) /\ length hd = 32%nat.
Proof.
  intros r n Hok Hp Hlog Hwf.
  destruct (write_run s ns p rs r [r] Hok Hp Hlog Hwf) as (s' & hd & E & Hm & Hlog' & Hh).
  { constructor; [|done]. left. unfold is_put. apply bool_decide_eq_true. simpl. destruct (ex =? 0); auto. }
  fold n in E, Hm. exists s', hd. split_and!; [|done..]. rewrite <-E. unfold put. destruct Hlog as (L & d & HL & _).
  rewrite (method_bind_step self _ s s s eq_refl).
  rewrite (method_bind_step _ _ s s L) by (unfold lift; by rewrite HL).
  apply method_bind_ext. intros q s1. by rewrite for_each_one.
Qed.

Lemma delete_run s ns p rs k h rep aut :
  let r := mkRecord TAG_DEL k h rep aut [] 0 [] in
  let n := Z.of_nat (length rs) + 1 in
  store_ok s -> policies s !! ns = Some p -> log_holds s ns rs -> wf_record r ->
  exists s' hd, delete ns k h rep aut s = (s', Ok n)
    /\ mem_of s' = local_step p ns n (mem_of s) r /\ log_holds s' ns (rs ++ [to_bytes r hd]).
Proof.
  intros r n Hok Hp Hlog Hwf.
  destruct (write_run s ns p rs r [r] Hok Hp Hlog Hwf) as (s' & hd & E & Hm & Hlog' & _).
  { constructor; [by right|done]. }
  fold n in E, Hm. exists s', hd. split_and!; [|done..]. rewrite <-E. unfold delete. rewrite (known_ns_run s ns p _ Hp).
  apply method_bind_ext. intros q s1. by rewrite for_each_one.
Qed.

(** A local [put] in a known namespace succeeds with the next sequence
    number, appends exactly one record, makes [get] show the new value (last
    writer wins: exactly it; register: appended to the versions kept), also for
    a deleted key, and changes what [get] shows for no other key. *)
Theorem put_get s ns p rs k v h rep aut ex :
  let r := mkRecord (if ex =? 0 then TAG_PUT else TAG_PUT_TTL) k h rep aut v ex [] in
  let n := Z.of_nat (length rs) + 1 in
  store_ok s -> policies s !! ns = Some p -> log_holds s ns rs -> wf_record r ->
  exists s' hd, put ns k v h rep aut ex s = (s', Ok n)
    /\ log_holds s' ns (rs ++ [to_bytes r hd]) /\ length hd = 32%nat
    /\ get s' ns k = Some (local_entry p (index s !! (ns, k)) (mkVersion h rep aut v n ex))
    /\ forall ns' k', (ns', k') <> (ns, k) -> get s' ns' k' = get s ns' k'.
Proof.
  intros r n Hok Hp Hlog Hwf.
  assert (is_put r = true) as Hput
    by (unfold is_put; apply bool_decide_eq_true; simpl; destruct (ex =? 0); auto).
  destruct (put_run s ns p rs k v h rep aut ex Hok Hp Hlog Hwf) as (s' & hd & E & Hm & Hlog' & Hh).
  exists s', hd. split_and!; [done..| |].
  - rewrite get_shown, Hm. by rewrite (local_step_put p ns n _ r Hput).
  - intros ns' k' Hne. rewrite get_shown, Hm. by rewrite local_step_other.
Qed.

(** A [delete] in a known namespace succeeds with the next sequence
    number, makes [get] show nothing for the key and changes no other key. *)
Theorem delete_get s ns p rs k h rep aut :
  let r := mkRecord TAG_DEL k h rep aut [] 0 [] in
  store_ok s -> policies s !! ns = Some p -> log_holds s ns rs -> wf_record r ->
  exists s' hd, delete ns k h rep aut s = (s', Ok (Z.of_nat (length rs) + 1))
    /\ log_holds s' ns (rs ++ [to_bytes r hd])
    /\ get s' ns k = None
    /\ forall ns' k', (ns', k') <> (ns, k) -> get s' ns' k' = get s ns' k'.
Proof.
  intros r Hok Hp Hlog Hwf.
  destruct (delete_run s ns p rs k h rep aut Hok Hp Hlog Hwf) as (s' & hd & E & Hm & Hlog').
  exists s', hd. split_and!; [done..| |].
  - rewrite get_shown, Hm. by apply (local_step_del p ns _ _ r).
  - intros ns' k' Hne. rewrite get_shown, Hm. by rewrite local_step_other.
Qed.

(** A batch in a last-writer-wins namespace is one log record, and
    leaves exactly its final state: of each key the last operation on it
    counts, a write showing its value, a delete hiding the key; keys it does
    not mention and other namespaces are untouched. *)
Theorem put_batch_final_state s ns rs o l :
  let ops := o :: l in
  let n := Z.of_nat (length rs) + 1 in
  store_ok s -> policies s !! ns = Some PLww -> log_holds s ns rs ->
  wf_record (batch_record o ops) ->
  exists s' hd, put_batch ns ops s = (s', Ok n)
    /\ log_holds s' ns (rs ++ [to_bytes (batch_record o ops) hd])
    /\ (forall k, get s' ns k =
          match last_on k ops with
          | None => get s ns k
          | Some q => if is_put q then Some (Lww (op_version q n)) else None
          end)
    /\ forall ns' k, ns' <> ns -> get s' ns' k = get s ns' k.
Proof.
  intros ops n Hok Hp Hlog Hwf.
  assert (Forall is_data ops) as Hd.
  { destruct Hwf as [(Hb & _)|(_ & _ & _ & _ & Hf & _)]; [by destruct Hb|].
    eapply Forall_impl; [exact Hf|]. intros x [Hv _]. rewrite valid_sub_tag_iff in Hv.
    unfold is_data, is_put. rewrite bool_decide_eq_true. naive_solver. }
  destruct (write_run s ns PLww rs (batch_record o ops) ops Hok Hp Hlog Hwf Hd)
    as (s' & hd & E & Hm & Hlog' & _).
  fold n in E, Hm. exists s', hd. split_and!; [|done| |].
  - rewrite <-E. exact (known_ns_run s ns PLww _ Hp).
  - intros k. rewrite get_shown, Hm. apply fold_local_shown.
  - intros ns' k Hne. rewrite get_shown, Hm. by apply fold_local_other.
Qed.

End spec.

(** ** A concrete store *)

(** A reader of two texts, enough to evaluate with. *)
Definition toy_json : SerdeJson := {|
  json_value v := if bool_decide (v = bs "red") then Some (JString (bs "red")) else None;
  json_strings v := if bool_decide (v = bs "[color]") then Some [bs "color"] else None;
|}.

#[local] Existing Instances toy_sha256 hex_plain toy_json.

Definition node (b : byte) : bytes := replicate 32 b.
Definition demo_store : Store := (create_namespace (bs "app") PLww (empty_store false)).1.

Lemma demo_store_ok : store_ok demo_store.
Proof. apply create_namespace_keeps, empty_store_ok. Qed.

Lemma demo_policy : policies demo_store !! bs "app" = Some PLww.
Proof. reflexivity. Qed.

Lemma demo_holds : log_holds demo_store (bs "app") [].
Proof.
  destruct (ok_holds _ _ _ demo_store_ok demo_policy) as (L & d & rs & HL & Hd & Hlog).
  destruct rs as [|r rs]; [by exists L, d|]. exfalso.
  destruct (is_log_facts _ _ _ Hlog) as (Hs & _ & _).
  assert (Log.seq <$> logs demo_store !! bs "app" = Some 0) as E by reflexivity.
  rewrite HL in E. injection E as E. simpl in Hs. lia.
Qed.

Ltac wf_single :=
  left; split; [discriminate|]; split; [reflexivity|]; split; [|reflexivity];
  split_and!; try reflexivity; try (split; [discriminate|reflexivity]);
  try (intros Hne; by destruct Hne).

Lemma store_invariant_witness :
  store_ok (run_ops [OpCreate (bs "app") PLww;
                     OpPut (bs "app") (bs "k") (bs "v") 7 (node Byte.x01) (node Byte.x02) 0;
                     OpPut (bs "no such") (bs "k") (bs "v") 8 (node Byte.x01) (node Byte.x02) 0]
              (empty_store false)).
Proof. apply store_invariant. repeat (constructor; [try exact I; wf_single|]). constructor. Defined.

Lemma put_get_witness :
  exists s' hd, put (bs "app") (bs "k") (bs "v") 7 (node Byte.x01) (node Byte.x02) 0 demo_store
      = (s', Ok 1)
    /\ log_holds s' (bs "app")
         [to_bytes (mkRecord TAG_PUT (bs "k") 7 (node Byte.x01) (node Byte.x02) (bs "v") 0 []) hd]
    /\ length hd = 32%nat
    /\ get s' (bs "app") (bs "k")
       = Some (Lww (mkVersion 7 (node Byte.x01) (node Byte.x02) (bs "v") 1 0))
    /\ forall ns' k', (ns', k') <> (bs "app", bs "k") -> get s' ns' k' = get demo_store ns' k'.
Proof.
  apply (put_get demo_store (bs "app") PLww [] (bs "k") (bs "v") 7 (node Byte.x01)
           (node Byte.x02) 0);
    [apply demo_store_ok|reflexivity|apply demo_holds|wf_single].
Defined.

Lemma delete_get_witness :
  exists s' hd, delete (bs "app") (bs "k") 7 (node Byte.x01) (node Byte.x02) demo_store
      = (s', Ok 1)
    /\ log_holds s' (bs "app")
         [to_bytes (mkRecord TAG_DEL (bs "k") 7 (node Byte.x01) (node Byte.x02) [] 0 []) hd]
    /\ get s' (bs "app") (bs "k") = None
    /\ forall ns' k', (ns', k') <> (bs "app", bs "k") -> get s' ns' k' = get demo_store ns' k'.
Proof.
  apply (delete_get demo_store (bs "app") PLww [] (bs "k") 7 (node Byte.x01) (node Byte.x02));
    [apply demo_store_ok|reflexivity|apply demo_holds|wf_single].
Defined.

Definition demo_first : record := demo_op TAG_PUT "a" "av1" 10 0.
Definition demo_rest : list record :=
  [demo_op TAG_PUT_TTL "t" "temp" 11 99; demo_op TAG_DEL "gone" "" 12 0].

Lemma put_batch_final_state_witness :
  exists s' hd, put_batch (bs "app") (demo_first :: demo_rest) demo_store = (s', Ok 1)
    /\ log_holds s' (bs "app") [to_bytes (batch_record demo_first (demo_first :: demo_rest)) hd]
    /\ (forall k, get s' (bs "app") k =
          match last_on k (demo_first :: demo_rest) with
          | None => get demo_store (bs "app") k
          | Some q => if is_put q then Some (Lww (op_version q 1)) else None
          end)
    /\ forall ns' k, ns' <> bs "app" -> get s' ns' k = get demo_store ns' k.
Proof.
  apply (put_batch_final_state demo_store (bs "app") [] demo_first demo_rest);
    [apply demo_store_ok|reflexivity|apply demo_holds|apply demo_batch_wf].
Defined.

End StoreSpec.
