(* ===== verification/StoreFrame.v ===== *)
(** What a store operation on one namespace leaves alone: everything of the
    other namespaces.  Shared by the clients of the store that act for someone
    else, the query language and the mesh. *)

From S2P Require Import Prelude Crc32 LogFormat Utf8 StoreTypes Store StoreSpec.
Import Store StoreSpec.

Module StoreFrame.

Section frame.
Context `{Sha256, HexCrate, SerdeJson}.

(** Outside namespace [n] the store is as before: its policies, the entries,
    tombstones, logs and directories of the others, all metadata but the keys
    [mk], the peer clocks and the snapshot. *)
Record frame (mk : list bytes) (n : bytes) (s s' : Store) : Prop := {
  frame_policies : policies s' = policies s;
  frame_index n' k : n' <> n -> index s' !! (n', k) = index s !! (n', k);
  frame_tombs n' k : n' <> n -> tombs s' !! (n', k) = tombs s !! (n', k);
  frame_logs n' : n' <> n -> logs s' !! n' = logs s !! n';
  frame_dirs d : d <> ns_dir n -> dirs (sdisk s') !! d = dirs (sdisk s) !! d;
  frame_meta k : k ∉ mk -> meta s' !! k = meta s !! k;
  frame_peers : peer_clocks s' = peer_clocks s;
  frame_snap : snap (sdisk s') = snap (sdisk s);
}.

#[global] Instance frame_refl mk n : Reflexive (frame mk n).
Proof. intros s. by split. Qed.
#[global] Instance frame_trans mk n : Transitive (frame mk n).
Proof.
  intros s1 s2 s3 F G. split; intros; rewrite ?(frame_policies _ _ _ _ G), ?(frame_peers _ _ _ _ G),
    ?(frame_snap _ _ _ _ G); try apply F.
  - rewrite (frame_index _ _ _ _ G) by done. by apply F.
  - rewrite (frame_tombs _ _ _ _ G) by done. by apply F.
  - rewrite (frame_logs _ _ _ _ G) by done. by apply F.
  - rewrite (frame_dirs _ _ _ _ G) by done. by apply F.
  - rewrite (frame_meta _ _ _ _ G) by done. by apply F.
Qed.

(** Store methods that stay inside [n], whatever their outcome. *)
Definition frames {A} (mk : list bytes) (n : bytes) (m : store_m A) : Prop := forall s, frame mk n s (m s).1.

Lemma frames_lift {A} mk n (o : res A) : frames mk n (lift o).
Proof. intros s. reflexivity. Qed.
Lemma frames_ret {A} mk n (a : A) : frames mk n (mret a).
Proof. intros s. reflexivity. Qed.
Lemma frames_bind {A B} mk n (m : store_m A) (k : A -> store_m B) :
  frames mk n m -> (forall a, frames mk n (k a)) -> frames mk n (m ≫= k).
Proof.
  intros Hm Hk s. specialize (Hm s). unfold mbind, method_bind.
  destruct (m s) as [s1 [a|e|]]; try done. etrans; [exact Hm|apply Hk].
Qed.
Lemma frames_self {B} mk n (k : Store -> store_m B) : (forall s, frames mk n (k s)) -> frames mk n (self ≫= k).
Proof. intros Hk s. apply Hk. Qed.
Lemma frames_update mk n f : (forall s, frame mk n s (f s)) -> frames mk n (update f).
Proof. intros Hf s. apply Hf. Qed.

Lemma frame_same_but_sec mk n s s' : same_but_sec s s' -> frame mk n s s'.
Proof. intros ((Hd & Hl & Hp & _) & Hi & Ht & Hm & Hc & _). split; intros; congruence. Qed.

Lemma frame_bump mk n s : frame mk n s (bump s).
Proof. by split. Qed.

Lemma frame_with_index mk n s k o : frame mk n s (with_index (partial_alter (fun _ => o) (n, k) (index s)) s).
Proof. split; try done. intros n' k' Hn. cbn. apply lookup_partial_alter_ne. congruence. Qed.

Lemma frame_with_tombs mk n s k o : frame mk n s (with_tombs (partial_alter (fun _ => o) (n, k) (tombs s)) s).
Proof. split; try done. intros n' k' Hn. cbn. apply lookup_partial_alter_ne. congruence. Qed.

Lemma frame_with_log mk n s d L : frame mk n s (with_log n (ns_dir n) d L s).
Proof.
  split; try done; cbn; intros; by rewrite lookup_insert_ne.
Qed.

Lemma frame_set_or_clear mk n s key v : key ∈ mk -> frame mk n s (set_or_clear key v s).
Proof.
  intros Hin. split; try done. intros k Hk. cbn. assert (key <> k) by (by intros ->).
  destruct v; [by rewrite lookup_insert_ne|by rewrite lookup_delete_ne].
Qed.

Lemma frames_append_record mk n r : frames mk n (append_record n r).
Proof.
  apply frames_self. intros s. apply frames_bind; [apply frames_lift|]. intros L.
  apply frames_bind; [apply frames_lift|]. intros [[d L'] q].
  apply frames_bind; [|intros; apply frames_ret]. apply frames_update. intros s'. apply frame_with_log.
Qed.

Lemma frames_push_register mk n k v : frames mk n (push_register n (n, k) v).
Proof.
  intros s. unfold push_register, mbind, method_bind, self. cbn.
  repeat case_match; try apply frame_with_index. reflexivity.
Qed.

Lemma frame_apply_del mk n k h s : frame mk n s (apply_del n k h s).
Proof.
  unfold apply_del. etrans; [apply (frame_with_index mk n s k None)|].
  etrans; [apply (frame_with_tombs mk n _ k (Some h))|]. apply frame_same_but_sec, remove_sec_same.
Qed.

Lemma frames_apply_local_op mk n o q : frames mk n (apply_local_op n o q).
Proof.
  apply frames_self. intros s. apply frames_bind; [apply frames_lift|]. intros p.
  apply frames_bind; [|intros; apply frames_update, frame_bump].
  case_bool_decide; [|case_bool_decide; [|apply frames_lift]].
  - apply frames_bind; [apply frames_update; intros s'; apply (frame_with_tombs mk n s' _ None)|intros _].
    apply frames_bind; [|intros _; apply frames_update; intros s'; apply frame_same_but_sec, refresh_sec_same].
    destruct p; [|apply frames_push_register].
    apply frames_update. intros s'. apply (frame_with_index mk n s' _ (Some _)).
  - apply frames_update. intros s'. apply frame_apply_del.
Qed.

Lemma frames_known mk n : frames mk n (known_ns n).
Proof. apply frames_self. intros s. apply frames_bind; [apply frames_lift|]. intros. apply frames_ret. Qed.

Lemma frames_put mk n k v h r a e : frames mk n (put n k v h r a e).
Proof.
  apply frames_self. intros s. apply frames_bind; [apply frames_lift|]. intros _. cbv zeta.
  apply frames_bind; [apply frames_append_record|]. intros q.
  apply frames_bind; [apply frames_apply_local_op|]. intros _. apply frames_ret.
Qed.

Lemma frames_delete mk n k h r a : frames mk n (delete n k h r a).
Proof.
  apply frames_bind; [apply frames_known|]. intros _. cbv zeta.
  apply frames_bind; [apply frames_append_record|]. intros q.
  apply frames_bind; [apply frames_apply_local_op|]. intros _. apply frames_ret.
Qed.

Lemma frames_set_index mk n v h r a : (bs "index/" ++ n) ∈ mk -> frames mk n (set_index n v h r a).
Proof.
  intros Hin.
  apply frames_bind; [apply frames_known|]. intros _.
  apply frames_bind; [apply frames_append_record|]. intros q.
  apply frames_bind; [apply frames_update; intros s; by apply frame_set_or_clear|]. intros _.
  apply frames_bind; [apply frames_update; intros s; apply frame_same_but_sec, rebuild_sec_ns_same|].
  intros _. apply frames_bind; [apply frames_update, frame_bump|]. intros _. apply frames_ret.
Qed.

(** ** Synced records *)

(** The metadata keys a synced record of namespace [n] may define. *)
Definition def_keys (n : bytes) : list bytes := [bs "schema/" ++ n; bs "index/" ++ n].

Lemma frames_apply_record_op mk n o q : frames mk n (apply_record_op n o q).
Proof.
  apply frames_self. intros s. apply frames_bind; [apply frames_lift|]. intros p. cbv zeta.
  case_bool_decide; [|case_bool_decide; [|apply frames_lift]].
  - apply frames_bind; [|intros _; apply frames_update; intros s'; apply frame_same_but_sec, refresh_sec_same].
    destruct p; [|apply frames_push_register]. apply frames_update. intros s'.
    case_match; [apply (frame_with_index mk n s' _ (Some _))|reflexivity].
  - apply frames_update. intros s'. apply frame_apply_del.
Qed.

Lemma frames_for_each {A} mk n (m : A -> store_m unit) l :
  (forall x, frames mk n (m x)) -> frames mk n (for_each m l).
Proof.
  intros Hm. induction l as [|x l IH]; cbn [for_each]; [apply frames_ret|].
  apply frames_bind; [apply Hm|]. intros _. apply IH.
Qed.

Lemma frames_apply_record n r q : frames (def_keys n) n (apply_record n r q).
Proof.
  unfold apply_record. repeat case_bool_decide; [apply frames_apply_record_op| | | |apply frames_lift].
  - apply frames_for_each. intros o. apply frames_apply_record_op.
  - apply frames_update. intros s. apply frame_set_or_clear. by left.
  - apply frames_bind; [apply frames_update; intros s; apply frame_set_or_clear; by right; left|].
    intros _. apply frames_update. intros s. apply frame_same_but_sec, rebuild_sec_ns_same.
Qed.

Lemma frames_synced_loop n l seen k : frames (def_keys n) n (synced_loop n l seen k).
Proof.
  revert seen k. induction l as [|r l IH]; intros seen k; cbn [synced_loop]; [apply frames_ret|].
  case_bool_decide; [apply IH|]. apply frames_bind; [apply frames_append_record|]. intros q.
  apply frames_bind; [apply frames_apply_record|]. intros _.
  apply frames_bind; [apply frames_update, frame_bump|]. intros _. apply IH.
Qed.

Lemma frames_apply_synced_batch n l : frames (def_keys n) n (apply_synced_batch n l).
Proof.
  apply frames_self. intros s. apply frames_bind; [apply frames_lift|]. intros p.
  apply frames_bind; [apply frames_lift|]. intros seen. apply frames_synced_loop.
Qed.

Lemma frame_get mk n s s' : frame mk n s s' -> forall n' k, n' <> n -> get s' n' k = get s n' k.
Proof. intros F n' k Hn. unfold get. by rewrite (frame_tombs _ _ _ _ F), (frame_index _ _ _ _ F). Qed.

End frame.

End StoreFrame.
