(* ===== verification/ScanSpec.v ===== *)
(** [scan]: the ordered range walk that stops at the first foreign key lists
    exactly the namespace's entries under the prefix, in key order. *)

From S2P Require Import Prelude Crc32 LogFormat Log LogSpec Utf8 StoreTypes Store StoreSpec.
Import Store StoreSpec.

Module ScanSpec.

Section scan.
Context `{Sha256, HexCrate, SerdeJson}.

(** The walk without the early stop. *)
Definition matching (ns prefix : bytes) (kv : nskey * Entry) : option (bytes * Entry) :=
  let '((n, k), e) := kv in
  if bool_decide (n = ns) && (bool_decide (prefix = []) || starts_with prefix k)
  then Some (k, e) else None.

Lemma cle_pair_fst (n n' k k' : bytes) : cle (n, k) (n', k') -> cle n n'.
Proof.
  unfold cle. rewrite cmp_pair. simpl. by destruct (cmp n n').
Qed.

Lemma omap_nil {A B} (f : A -> option B) l : Forall (fun x => f x = None) l -> omap f l = [].
Proof. induction 1 as [|x l Hx Hl IH]; [done|]. simpl. by rewrite Hx. Qed.

Lemma scan_loop_omap ns prefix l :
  StronglySorted key_le l -> Forall (fun kv : nskey * Entry => cle (ns, []) kv.1) l ->
  scan_loop ns prefix l = omap (matching ns prefix) l.
Proof.
  induction 1 as [|[[n k] e] l Hs IH Hall]; intros Hf; [done|].
  apply Forall_cons in Hf as [Hn Hf]. simpl. unfold matching at 1.
  case_bool_decide as Hd; simpl.
  - subst n. rewrite IH by done. by destruct (_ || _).
  - rewrite omap_nil; [done|]. apply Forall_forall. intros [[n' k'] e'] Hin.
    rewrite Forall_forall in Hall. specialize (Hall _ Hin). unfold key_le in Hall. simpl in *.
    apply cle_pair_fst in Hn, Hall.
    unfold matching. rewrite bool_decide_eq_false_2; [done|]. intros ->.
    apply Hd. by apply cle_antisym.
Qed.

Lemma sorted_filter {A} (R : A -> A -> Prop) (P : A -> Prop) `{forall x, Decision (P x)} l :
  StronglySorted R l -> StronglySorted R (filter P l).
Proof.
  induction 1 as [|x l Hs IH Hall]; [constructor|]. rewrite filter_cons. case_decide; [|done].
  constructor; [done|]. apply Forall_forall. intros y Hy. apply list_elem_of_filter in Hy as [_ Hy].
  rewrite Forall_forall in Hall. by apply Hall.
Qed.

Lemma scan_eq s ns prefix : scan s ns prefix
  = omap (matching ns prefix) (range_from (index s) (ns, [])).
Proof.
  apply scan_loop_omap.
  - apply sorted_filter, btree_iter_sorted.
  - apply Forall_forall. intros kv Hin. by apply list_elem_of_filter in Hin as [? _].
Qed.

Lemma cle_nil ns k : cle (ns, []) ((ns, k) : nskey).
Proof.
  unfold cle. rewrite cmp_pair. simpl. rewrite cmp_refl. by destruct k.
Qed.

Lemma elem_of_scan s ns prefix k e :
  (k, e) ∈ scan s ns prefix <-> index s !! (ns, k) = Some e /\ starts_with prefix k = true.
Proof.
  rewrite scan_eq, list_elem_of_omap. split.
  - intros ([[n k'] e'] & Hin & E). unfold matching in E.
    apply list_elem_of_filter in Hin as [_ Hin]. apply elem_of_btree_iter in Hin.
    case_bool_decide; simpl in E; [|done]. subst n.
    destruct (bool_decide (prefix = []) || starts_with prefix k') eqn:Ep; simplify_eq.
    split; [done|]. apply orb_true_iff in Ep as [Ep|Ep]; [|done].
    apply bool_decide_eq_true in Ep. by subst.
  - intros [Hi Hp]. exists ((ns, k), e). split.
    + apply list_elem_of_filter. split; [apply cle_nil|by apply elem_of_btree_iter].
    + unfold matching. by rewrite bool_decide_eq_true_2, Hp, orb_true_r.
Qed.

Lemma scan_sorted s ns prefix : StronglySorted key_le (scan s ns prefix)
  /\ NoDup (scan s ns prefix).*1.
Proof.
  rewrite scan_eq.
  assert (StronglySorted key_le (range_from (index s) (ns, []))) as Hs
    by apply sorted_filter, btree_iter_sorted.
  assert (NoDup (range_from (index s) (ns, [])).*1) as Hnd.
  { eapply sublist_NoDup; [apply (NoDup_fst_btree_iter (index s))|].
    apply fmap_sublist. apply sublist_filter. }
  revert Hs Hnd. generalize (range_from (index s) (ns, [])).
  induction l as [|[[n k] e] l IH]; [split; constructor|].
  intros Hs Hnd. inversion Hs as [|? ? Hs' Hall]; subst.
  rewrite fmap_cons, NoDup_cons in Hnd. destruct Hnd as [Hni Hnd].
  destruct (IH Hs' Hnd) as [IH1 IH2]. simpl. unfold matching at 1 3.
  case_bool_decide as Hn; simpl; [|done]. subst n.
  destruct (_ || _); simpl; [|done]. split.
  - constructor; [done|]. apply Forall_forall. intros [k' e'] Hin.
    apply list_elem_of_omap in Hin as ([[n2 k2] e2] & Hin & E). unfold matching in E.
    case_bool_decide; simpl in E; [|done]. subst n2. destruct (_ || _); simplify_eq.
    rewrite Forall_forall in Hall. apply Hall in Hin. unfold key_le, cle in *. simpl in *.
    rewrite cmp_pair in Hin. simpl in Hin. by rewrite cmp_refl in Hin.
  - apply NoDup_cons. split; [|done]. intros Hin. apply Hni.
    apply list_elem_of_fmap in Hin as ([k' e'] & -> & Hin).
    apply list_elem_of_omap in Hin as ([[n2 k2] e2] & Hin & E). unfold matching in E.
    case_bool_decide; simpl in E; [|done]. subst n2. destruct (_ || _); simplify_eq.
    apply list_elem_of_fmap. by exists ((ns, k'), e').
Qed.

(** A scan lists exactly the index entries of the namespace whose key has
    the prefix, each once, in ascending key order; the keys-only scan lists
    the same keys. *)
Theorem scan_exact s ns prefix :
  (forall k e, (k, e) ∈ scan s ns prefix
     <-> index s !! (ns, k) = Some e /\ starts_with prefix k = true)
  /\ StronglySorted key_le (scan s ns prefix) /\ NoDup (scan_keys s ns prefix)
  /\ scan_keys s ns prefix = (scan s ns prefix).*1.
Proof.
  destruct (scan_sorted s ns prefix) as [Hs Hnd]. split_and!; try done.
  intros k e. apply elem_of_scan.
Qed.

End scan.
End ScanSpec.
