(* ===== verification/SyncSpec.v ===== *)
(** Replication: what applying records received from a peer does.  The log
    deduplicates ([apply_synced] twice is once), the batch routine that scans
    the log once is the record-by-record one, and the value shown for a key
    depends only on the set of records applied, not on their order. *)

From S2P Require Import Prelude Crc32 LogFormat Log LogSpec Utf8 StoreTypes Store StoreSpec.
Import LogFormat Utf8 LogSpec Store StoreSpec.

Module SyncSpec.

Section sync.
Context `{Sha256, HexCrate, SerdeJson}.

(** ** The versions in a log *)

Definition version_at (b : bytes) : option vident :=
  match parse_chain b None with Ok (r, _) => Some (version_key r) | _ => None end.
Definition versions_of (rs : list bytes) : gset vident := list_to_set (omap version_at rs).

Lemma parse_chain_unchecked l h r p : parse_chain l (Some h) = Ok (r, p) ->
  parse_chain l None = Ok (r, p).
Proof.
  intros E. pose proof (parse_chain_ok_frame _ _ _ _ E) as Hf.
  pose proof Hf as (_ & (t & Ht & _) & _).
  rewrite (parse_chain_frame _ _ t Hf Ht) in E. rewrite (parse_chain_frame _ _ t Hf Ht).
  unfold parse_body in *. apply bind_ok in E as ([] & _ & E). exact E.
Qed.

Lemma parsed_versions_ok h from rs : chain_ok h rs ->
  parsed_versions (numbered from rs) = Ok (versions_of rs).
Proof.
  revert h from. induction rs as [|l rs IH]; intros h from; [done|].
  intros [[r Hp] Hch]. rewrite numbered_cons. simpl.
  apply parse_chain_unchecked in Hp. rewrite Hp, (IH _ _ Hch). simpl.
  unfold versions_of. simpl. unfold version_at at 2. by rewrite Hp.
Qed.

Lemma log_versions_ok s ns rs : log_holds s ns rs -> log_versions s ns = Ok (versions_of rs).
Proof.
  intros (L & d & HL & Hd & Hlog). unfold log_versions. rewrite HL, (dir_of_eq _ _ _ Hd).
  destruct (is_log_facts _ _ _ Hlog) as (Hseq & _ & Hch).
  destruct Hlog as (ss & s0 & Hrep & Hlr).
  destruct (decide (rs = [])) as [Hn|Hne].
  - rewrite Hn in *. unfold Log.read_records. rewrite Hseq. done.
  - rewrite (read_records_rep _ _ _ _ 1 0 Hrep).
    + simpl. rewrite Hlr. by eapply parsed_versions_ok.
    + rewrite Hseq. destruct rs; simpl; [done|lia].
    + done.
    + by split.
Qed.

Lemma versions_of_snoc rs r h : wf_record r -> length h = 32%nat ->
  versions_of (rs ++ [to_bytes r h]) = {[version_key r]} ∪ versions_of rs.
Proof.
  intros Hwf Hh. unfold versions_of. rewrite omap_app, list_to_set_app_L. simpl.
  unfold version_at at 2. rewrite (parse_chain_to_bytes r h None Hwf Hh ltac:(by left)).
  simpl. set_solver.
Qed.

(** ** Synced records as functions of the index and the tombstones *)

Definition sync_step (p : ConflictPolicy) (ns : bytes) (m : mem) (os : record * Z) : mem :=
  let ek := (ns, key os.1) in
  let v := op_version os.1 os.2 in
  if is_put os.1 then
    (match p with
     | PLww => if lww_newer (m.1 !! ek) v then <[ek := Lww v]> m.1 else m.1
     | CrdtRegister => <[ek := local_entry CrdtRegister (m.1 !! ek) v]> m.1
     end, m.2)
  else (base.delete ek m.1, <[ek := LogFormat.hlc os.1]> m.2).

(** The data operations a record carries. *)
Definition ops_of (r : record) : list record :=
  if bool_decide (tag r = TAG_PUT \/ tag r = TAG_PUT_TTL \/ tag r = TAG_DEL) then [r]
  else if bool_decide (tag r = TAG_BATCH) then ops r
  else [].

Definition stamped (l : list record) (q : Z) : list (record * Z) := map (fun o => (o, q)) l.

Lemma sync_entry_run s ns p ek v : shapes s -> policies s !! ns = Some p -> ek.1 = ns ->
  exists s', (match p with
      | PLww => update (fun s => if lww_newer (index s !! ek) v
                                 then with_index (<[ek := Lww v]> (index s)) s else s)
      | CrdtRegister => push_register ns ek v
      end : store_m unit) s = (s', Ok tt)
    /\ same_rest s s' /\ tombs s' = tombs s
    /\ index s' = match p with
        | PLww => if lww_newer (index s !! ek) v then <[ek := Lww v]> (index s) else index s
        | CrdtRegister => <[ek := local_entry CrdtRegister (index s !! ek) v]> (index s)
        end.
Proof.
  intros Hok Hp Hek. destruct ek as [n k]. simpl in Hek. subst n.
  destruct p; [|rewrite push_register_run by done; by eexists].
  eexists. split; [reflexivity|]. by destruct (lww_newer _ _).
Qed.

Lemma apply_record_op_run s ns p o seq :
  shapes s -> policies s !! ns = Some p -> is_data o ->
  exists s', apply_record_op ns o seq s = (s', Ok tt)
    /\ mem_of s' = sync_step p ns (mem_of s) (o, seq) /\ same_rest s s'.
Proof.
  intros Hok Hp Hd. unfold apply_record_op, sync_step, is_put, is_data, is_put in *.
  cbn [fst snd] in *. rewrite (method_bind_step self _ s s s eq_refl).
  rewrite (method_bind_step _ _ s s p) by (unfold lift; by rewrite Hp). cbv zeta.
  case_bool_decide as Hput.
  - destruct (sync_entry_run s ns p (ns, key o) (op_version o seq) Hok Hp eq_refl)
      as (s1 & E1 & Hr1 & Ht1 & Hi1).
    rewrite (method_bind_step _ _ _ _ _ E1). eexists. split; [reflexivity|].
    destruct (refresh_mem ns (key o) s1) as [Hm Hr]. rewrite Hm. unfold mem_of.
    rewrite Ht1, Hi1. split; [done|]. by eapply same_rest_trans.
  - destruct Hd as [Hd|Hd]; [done|]. rewrite bool_decide_eq_true_2 by done. by eexists.
Qed.

Lemma sync_step_shapes pol p ns m o : pol !! ns = Some p -> mem_shapes pol m.1 ->
  mem_shapes pol (sync_step p ns m o).1.
Proof.
  intros Hp Hm n k e. unfold sync_step. destruct (is_put o.1); cbn [fst].
  - destruct p; [destruct (lww_newer _ _)|]; rewrite ?lookup_insert_Some; [|apply Hm|].
    all: intros [[[= <- <-] <-]|[_ He]]; [eexists; split; [done|]|by apply (Hm n k)].
    + done.
    + unfold local_entry. destruct (m.1 !! _) as [[|vs]|]; cbn; [done| |done]. by destruct vs.
  - rewrite lookup_delete_Some. intros [_ He]. by apply (Hm n k).
Qed.

Lemma for_each_sync_run s ns p l seq :
  shapes s -> policies s !! ns = Some p -> Forall is_data l ->
  exists s', for_each (fun o => apply_record_op ns o seq) l s = (s', Ok tt)
    /\ mem_of s' = fold_left (sync_step p ns) (stamped l seq) (mem_of s) /\ same_rest s s'.
Proof.
  intros Hok Hp Hl. revert s Hok Hp. induction Hl as [|o l Ho Hl IH]; intros s Hok Hp; [by exists s|].
  destruct (apply_record_op_run s ns p o seq Hok Hp Ho) as (s1 & E1 & Hm1 & Hr1).
  assert (shapes s1) as Hok1.
  { destruct Hr1 as ((_ & _ & Hp1 & _) & _). unfold shapes. rewrite Hp1.
    change (index s1) with (mem_of s1).1. rewrite Hm1. by apply sync_step_shapes. }
  destruct (IH s1 Hok1) as (s2 & E2 & Hm2 & Hr2).
  { destruct Hr1 as ((_ & _ & -> & _) & _). done. }
  exists s2. simpl. rewrite (method_bind_step _ _ _ _ _ E1), E2, Hm2, Hm1.
  split_and!; try done. by eapply same_rest_trans.
Qed.

(** A sub-operation of a well-formed batch is a write or a delete. *)
Lemma valid_sub_tag_data o : valid_sub_tag (tag o) = true -> is_data o.
Proof.
  rewrite valid_sub_tag_iff. unfold is_data, is_put. rewrite bool_decide_eq_true. naive_solver.
Qed.

Lemma wf_ops_data r : wf_record r -> Forall is_data (ops_of r).
Proof.
  intros Hwf. unfold ops_of. case_bool_decide as Ht.
  - constructor; [|done]. unfold is_data, is_put. rewrite bool_decide_eq_true. naive_solver.
  - case_bool_decide as Hb; [|done].
    destruct Hwf as [(Hn & _)|(_ & _ & _ & _ & Hf & _)]; [done|].
    eapply Forall_impl; [exact Hf|]. intros o [Hv _]. by apply valid_sub_tag_data.
Qed.

(** Applying a well-formed record succeeds. *)
Lemma apply_record_run s ns p r seq :
  shapes s -> policies s !! ns = Some p -> wf_record r ->
  exists s', apply_record ns r seq s = (s', Ok tt)
    /\ mem_of s' = fold_left (sync_step p ns) (stamped (ops_of r) seq) (mem_of s)
    /\ same_logs s s'.
Proof.
  intros Hok Hp Hwf. pose proof (wf_ops_data r Hwf) as Hd. revert Hd. unfold apply_record, ops_of.
  case_bool_decide as Ht; [|case_bool_decide as Hb; [|intros _; case_bool_decide as Hs;
    [by eexists|case_bool_decide as Hi]]].
  - rewrite Forall_singleton. intros Hd.
    destruct (apply_record_op_run s ns p r seq Hok Hp Hd) as (s' & ? & ? & (? & _)). by exists s'.
  - intros Hd. destruct (for_each_sync_run s ns p (ops r) seq Hok Hp Hd) as (s' & ? & ? & (? & _)).
    by exists s'.
  - set (s1 := set_or_clear (bs "index/" ++ ns) (nonempty (LogFormat.value r)) s).
    destruct (rebuild_sec_ns_same ns s1) as (Hl & Hix & Htb & _).
    eexists. split; [reflexivity|]. unfold mem_of. fold s1. by rewrite Hix, Htb.
  - exfalso. destruct Hwf as [(_ & Hv & _)|(Hb' & _)]; [|done].
    rewrite valid_tag_iff in Hv. naive_solver.
Qed.

(** ** One record at a time *)

(** The state and result of applying one record the log does not have. *)
Lemma apply_fresh_run s ns p rs r :
  store_ok s -> policies s !! ns = Some p -> log_holds s ns rs -> wf_record r ->
  exists s' h, (seq ← append_record ns r; _ ← apply_record ns r seq; _ ← update bump; mret tt) s
      = (s', Ok tt)
    /\ mem_of s' = fold_left (sync_step p ns) (stamped (ops_of r) (Z.of_nat (length rs) + 1))
                     (mem_of s)
    /\ store_ok s' /\ policies s' = policies s
    /\ log_holds s' ns (rs ++ [to_bytes r h]) /\ length h = 32%nat.
Proof.
  intros Hok Hp Hlog Hwf.
  destruct (append_record_ok s ns p rs r Hok Hp Hlog Hwf) as (s1 & h & E1 & Hok1 & Hm1 & Hlog1 & Hh).
  destruct Hm1 as (Hp1 & Hi1 & Ht1 & _).
  destruct (apply_record_run s1 ns p r (Z.of_nat (length rs) + 1) (ok_shape s1 Hok1)) as (s2 & E2 & Hm2 & Hl2);
    [by rewrite Hp1|done|].
  pose proof (apply_record_keeps ns r (Z.of_nat (length rs) + 1) s1 Hok1) as Hok2.
  rewrite E2 in Hok2. exists (bump s2), h.
  rewrite (method_bind_step _ _ _ _ _ E1), (method_bind_step _ _ _ _ _ E2).
  split; [done|]. split; [|split_and!].
  - unfold mem_of in *. simpl. by rewrite Hm2, Hi1, Ht1.
  - by apply bump_ok.
  - simpl. destruct Hl2 as (_ & _ & -> & _). done.
  - eapply log_holds_same; [|done]. exact Hl2.
  - done.
Qed.

Lemma apply_synced_dup s ns p rs r : policies s !! ns = Some p -> log_holds s ns rs ->
  version_key r ∈ versions_of rs -> apply_synced ns r s = (s, Ok false).
Proof.
  intros Hp Hlog Hin. unfold apply_synced, mbind, method_bind, self, lift. simpl.
  rewrite Hp. simpl. rewrite (log_versions_ok _ _ _ Hlog). by rewrite bool_decide_eq_true_2.
Qed.

Lemma apply_synced_new s ns p rs r : policies s !! ns = Some p -> log_holds s ns rs ->
  version_key r ∉ versions_of rs ->
  apply_synced ns r s
  = (_ ← (seq ← append_record ns r; _ ← apply_record ns r seq; _ ← update bump; mret tt);
     mret true) s.
Proof.
  intros Hp Hlog Hin. unfold apply_synced, mbind, method_bind, self, lift, update. simpl.
  rewrite Hp. simpl. rewrite (log_versions_ok _ _ _ Hlog), bool_decide_eq_false_2 by done.
  destruct (append_record ns r s) as [s1 [q|e|]]; [|done..].
  by destruct (apply_record ns r q s1) as [s2 [[]|e|]].
Qed.

(** The reference for [apply_synced_batch]: one record after the other. *)
Fixpoint synced_each (ns : bytes) (l : list record) (applied : Z) : store_m Z :=
  match l with
  | [] => mret applied
  | r :: l => b ← apply_synced ns r; synced_each ns l (if b : bool then applied + 1 else applied)
  end.

Lemma synced_loop_each s ns p rs l n :
  store_ok s -> policies s !! ns = Some p -> log_holds s ns rs -> Forall wf_record l ->
  synced_loop ns l (versions_of rs) n s = synced_each ns l n s.
Proof.
  intros Hok Hp Hlog Hl. revert s rs n Hok Hp Hlog. induction Hl as [|r l Hr Hl IH];
    intros s rs n Hok Hp Hlog; [done|]. cbn [synced_loop synced_each].
  case_bool_decide as Hin.
  - rewrite (method_bind_step _ _ _ _ _ (apply_synced_dup s ns p rs r Hp Hlog Hin)).
    by apply IH.
  - destruct (apply_fresh_run s ns p rs r Hok Hp Hlog Hr)
      as (s' & h & E & _ & Hok' & Hp' & Hlog' & Hh).
    assert (apply_synced ns r s = (s', Ok true)) as Ea.
    { rewrite (apply_synced_new s ns p rs r Hp Hlog Hin). by rewrite (method_bind_step _ _ _ _ _ E). }
    rewrite (method_bind_step _ _ _ _ _ Ea).
    rewrite <-(versions_of_snoc rs r h Hr Hh). rewrite <-Hp' in Hp.
    rewrite <-(IH s' _ (n + 1) Hok' Hp Hlog').
    revert E. unfold mbind, method_bind, update.
    destruct (append_record ns r s) as [s1 [q|e|]]; [|done..].
    destruct (apply_record ns r q s1) as [s2 [[]|e|]]; [|done..].
    by intros [= ->].
Qed.

(** A run of records none of which is in the log yet. *)
Lemma synced_run s ns p rs l n :
  store_ok s -> policies s !! ns = Some p -> log_holds s ns rs -> Forall wf_record l ->
  NoDup (version_key <$> l) -> (forall r, r ∈ l -> version_key r ∉ versions_of rs) ->
  exists s' os, synced_each ns l n s = (s', Ok (n + Z.of_nat (length l)))
    /\ os.*1 = mjoin (map ops_of l)
    /\ mem_of s' = fold_left (sync_step p ns) os (mem_of s).
Proof.
  intros Hok Hp Hlog Hl. revert s rs n Hok Hp Hlog. induction Hl as [|r l Hr Hl IH];
    intros s rs n Hok Hp Hlog Hnd Hnew.
  { exists s, []. simpl. by rewrite Z.add_0_r. }
  rewrite fmap_cons, NoDup_cons in Hnd. destruct Hnd as [Hni Hnd].
  destruct (apply_fresh_run s ns p rs r Hok Hp Hlog Hr)
    as (s1 & h & E & Hm1 & Hok1 & Hp1 & Hlog1 & Hh).
  assert (apply_synced ns r s = (s1, Ok true)) as Ea.
  { rewrite (apply_synced_new s ns p rs r Hp Hlog); [by rewrite (method_bind_step _ _ _ _ _ E)|].
    apply Hnew. by left. }
  destruct (IH s1 _ (n + 1) Hok1 ltac:(by rewrite Hp1) Hlog1 Hnd) as (s2 & os & E2 & Hos & Hm2).
  { intros r' Hr'. rewrite (versions_of_snoc rs r h Hr Hh), not_elem_of_union, elem_of_singleton.
    split; [|apply Hnew; by right]. intros Ek. apply Hni. rewrite <-Ek. by apply list_elem_of_fmap_2. }
  exists s2, (stamped (ops_of r) (Z.of_nat (length rs) + 1) ++ os). split_and!.
  - cbn [synced_each]. rewrite (method_bind_step _ _ _ _ _ Ea), E2. do 2 f_equal. simpl. lia.
  - cbn [map]. rewrite mjoin_cons, fmap_app, Hos. f_equal. unfold stamped.
    rewrite <-list_fmap_compose. apply list_fmap_id.
  - by rewrite fold_left_app, <-Hm1, <-Hm2.
Qed.

(** ** The greatest version *)

Lemma max_version_snoc vs v : max_version (vs ++ [v]) =
  Some (match max_version vs with
        | None => v
        | Some b => if geb (vkey v) (vkey b) then v else b
        end).
Proof. destruct vs as [|w vs]; [done|]. simpl. by rewrite fold_left_app. Qed.

Lemma max_version_spec vs v : max_version vs = Some v ->
  v ∈ vs /\ forall w, w ∈ vs -> cle (vkey w) (vkey v).
Proof.
  revert v. induction vs as [|x vs IH] using rev_ind; intros v; [done|].
  rewrite max_version_snoc. intros [= <-]. destruct (max_version vs) as [b|] eqn:Eb.
  - destruct (IH b eq_refl) as [Hb Hmax].
    destruct (geb (vkey x) (vkey b)) eqn:Eg.
    + apply geb_cle in Eg. split; [set_solver|].
      intros w [Hw|Hw%list_elem_of_singleton]%elem_of_app; [|subst; by rewrite <-geb_cle; unfold geb; rewrite cmp_refl].
      etrans; [by apply Hmax|done].
    + apply geb_cle_false in Eg. split; [set_solver|].
      intros w [Hw|Hw%list_elem_of_singleton]%elem_of_app; [by apply Hmax|subst].
      by destruct (cle_total (vkey x) (vkey b)).
  - destruct vs as [|y vs]; [|done]. split; [by left|].
    intros w ->%list_elem_of_singleton. by rewrite <-geb_cle; unfold geb; rewrite cmp_refl.
Qed.

Lemma max_version_None vs : max_version vs = None <-> vs = [].
Proof. by destruct vs. Qed.

(** With distinct stamps the greatest version does not depend on the order. *)
Lemma max_version_perm vs vs' : NoDup (vkey <$> vs) -> vs ≡ₚ vs' ->
  max_version vs = max_version vs'.
Proof.
  intros Hnd Hp. destruct (max_version vs) as [v|] eqn:E.
  - destruct (max_version vs') as [v'|] eqn:E'.
    + destruct (max_version_spec _ _ E) as [Hv Hm]. destruct (max_version_spec _ _ E') as [Hv' Hm'].
      rewrite <-Hp in Hv'. f_equal.
      assert (vkey v = vkey v') as Ek.
      { apply cle_antisym; [apply Hm'; by rewrite <-Hp|by apply Hm]. }
      apply list_elem_of_lookup in Hv as [i Hi]. apply list_elem_of_lookup in Hv' as [j Hj].
      assert (i = j) as <-; [|congruence].
      eapply (NoDup_lookup (vkey <$> vs)); [done|rewrite list_lookup_fmap, Hi; done|].
      by rewrite list_lookup_fmap, Hj, Ek.
    + apply max_version_None in E' as ->. apply Permutation_nil_r in Hp. by subst.
  - apply max_version_None in E as ->. apply Permutation_nil_l in Hp. by subst.
Qed.

(** A version without its local sequence number. *)
Definition erase (v : Version) : Version :=
  mkVersion (StoreTypes.hlc v) (StoreTypes.replica v) (StoreTypes.author v)
    (StoreTypes.value v) 0 (StoreTypes.expires_at v).

Lemma max_version_erase vs : max_version (erase <$> vs) = erase <$> max_version vs.
Proof.
  induction vs as [|v vs IH] using rev_ind; [done|].
  rewrite fmap_app. cbn [fmap list_fmap]. rewrite !max_version_snoc, IH.
  destruct (max_version vs) as [b|]; simpl; [|done].
  change (vkey (erase v)) with (vkey v). change (vkey (erase b)) with (vkey b).
  by destruct (geb _ _).
Qed.

(** ** What syncing shows *)

Definition latest_shown (m : mem) (ek : nskey) : option Version :=
  shown m ek ≫= latest_entry_value.

Definition del_on (k : bytes) (o : record) : bool :=
  bool_decide (key o = k) && negb (is_put o).
Definition put_on (k : bytes) (o : record) : Prop := is_put o = true /\ key o = k.
#[local] Instance put_on_dec k o : Decision (put_on k o).
Proof. unfold put_on. apply _. Defined.

Definition put_versions (k : bytes) (os : list (record * Z)) : list Version :=
  (fun os => op_version os.1 os.2) <$> filter (fun os => put_on k os.1) os.

Lemma put_versions_snoc k os o : put_versions k (os ++ [o]) =
  put_versions k os ++ (if decide (put_on k o.1) then [op_version o.1 o.2] else []).
Proof.
  unfold put_versions. rewrite filter_app, fmap_app. f_equal.
  rewrite filter_cons, filter_nil. by case_decide.
Qed.

(** The index entry while no delete has been seen. *)
Definition entry_of (p : ConflictPolicy) (vs : list Version) : option Entry :=
  match p with
  | PLww => Lww <$> max_version vs
  | CrdtRegister => match vs with [] => None | _ => Some (Register vs) end
  end.

Lemma latest_entry_of p vs : entry_of p vs ≫= latest_entry_value = max_version vs.
Proof. destruct p; simpl; [by destruct (max_version vs)|by destruct vs]. Qed.

Lemma sync_fold p ns k os m0 : m0.1 !! (ns, k) = None -> m0.2 !! (ns, k) = None ->
  let m := fold_left (sync_step p ns) os m0 in
  if existsb (fun os => del_on k os.1) os then is_Some (m.2 !! (ns, k))
  else m.2 !! (ns, k) = None /\ m.1 !! (ns, k) = entry_of p (put_versions k os).
Proof.
  intros Hi Ht. cbv zeta. induction os as [|[o q] os IH] using rev_ind.
  { simpl. rewrite Hi, Ht. by destruct p. }
  rewrite fold_left_app, existsb_app, put_versions_snoc. cbn [fold_left existsb fst snd].
  rewrite orb_false_r. set (m := fold_left (sync_step p ns) os m0) in *.
  destruct (decide (put_on k o)) as [[Ho Hk]|Hnp].
  - unfold sync_step, del_on at 2. cbn [fst snd]. rewrite Ho, andb_false_r, orb_false_r.
    cbn [fst snd]. destruct (existsb _ os); [done|]. destruct IH as [-> IH].
    split; [done|]. subst k. rewrite IH. destruct p; simpl.
    + unfold lww_newer. rewrite max_version_snoc.
      destruct (max_version (put_versions (key o) os)) as [b|] eqn:Eb; simpl.
      * destruct (geb _ _); [by rewrite lookup_insert_eq|rewrite IH; simpl; by rewrite Eb].
      * by rewrite lookup_insert_eq.
    + rewrite lookup_insert_eq. destruct (put_versions (key o) os); done.
  - rewrite app_nil_r. unfold sync_step, del_on at 2. cbn [fst snd]. unfold put_on in Hnp.
    destruct (is_put o) eqn:Ho; cbn [fst snd negb]; rewrite ?andb_false_r, ?andb_true_r, ?orb_false_r.
    + destruct (existsb _ os); [done|]. destruct IH as [-> IH]. split; [done|]. rewrite <-IH.
      assert ((ns, key o) <> (ns, k)) as Hne by naive_solver.
      destruct p; [destruct (lww_newer _ _)|]; by rewrite ?lookup_insert_ne.
    + case_bool_decide as Hk.
      * subst k. rewrite orb_true_r, lookup_insert_eq. eauto.
      * rewrite orb_false_r, lookup_insert_ne, lookup_delete_ne by congruence. done.
Qed.

Lemma latest_sync_fold p ns k os m0 : m0.1 !! (ns, k) = None -> m0.2 !! (ns, k) = None ->
  latest_shown (fold_left (sync_step p ns) os m0) (ns, k)
  = if existsb (fun os => del_on k os.1) os then None else max_version (put_versions k os).
Proof.
  intros Hi Ht. pose proof (sync_fold p ns k os m0 Hi Ht) as Hs. cbv zeta in Hs.
  unfold latest_shown, shown. destruct (existsb _ os).
  - destruct Hs as [h ->]. done.
  - destruct Hs as [-> ->]. apply latest_entry_of.
Qed.

Lemma existsb_perm {A} (f : A -> bool) l l' : l ≡ₚ l' -> existsb f l = existsb f l'.
Proof.
  induction 1 as [|x l l' _ IH|x y l|l1 l2 l3 _ IH1 _ IH2]; simpl; try congruence.
  by rewrite !orb_assoc, (orb_comm (f x)).
Qed.

Lemma existsb_fst {A B} (f : A -> bool) (l : list (A * B)) :
  existsb (fun x => f x.1) l = existsb f l.*1.
Proof. induction l as [|x l IH]; [done|]. simpl. by rewrite IH. Qed.

Lemma erase_put_versions k os :
  erase <$> put_versions k os = (fun o => op_version o 0) <$> filter (put_on k) os.*1.
Proof.
  unfold put_versions. induction os as [|[o q] os IH]; [done|].
  rewrite fmap_cons, !filter_cons. cbn [fst]. case_decide; [|done].
  rewrite !fmap_cons, IH. done.
Qed.

(** The stamps of the writes to one key. *)
Definition stamp (o : record) : Z * bytes := (LogFormat.hlc o, LogFormat.replica o).
Definition distinct_stamps (k : bytes) (l : list record) : Prop :=
  NoDup (stamp <$> filter (put_on k) l).

Lemma latest_fold_perm p ns k os1 os2 m1 m2 :
  os1.*1 ≡ₚ os2.*1 -> distinct_stamps k os1.*1 ->
  m1.1 !! (ns, k) = None -> m1.2 !! (ns, k) = None ->
  m2.1 !! (ns, k) = None -> m2.2 !! (ns, k) = None ->
  erase <$> latest_shown (fold_left (sync_step p ns) os1 m1) (ns, k)
  = erase <$> latest_shown (fold_left (sync_step p ns) os2 m2) (ns, k).
Proof.
  intros Hp Hst ? ? ? ?. rewrite !latest_sync_fold, !existsb_fst by done.
  rewrite (existsb_perm _ _ _ Hp). destruct (existsb _ _); [done|].
  rewrite <-!max_version_erase, !erase_put_versions.
  apply max_version_perm.
  - rewrite <-list_fmap_compose. exact Hst.
  - by rewrite Hp.
Qed.

(** ** What a log says *)

(** The operations of a log, in its order. *)
Definition record_at (b : bytes) : option record :=
  match parse_chain b None with Ok (r, _) => Some r | _ => None end.
Definition records_of (rs : list bytes) : list record := omap record_at rs.
Definition ops_log (rs : list bytes) : list record := mjoin (map ops_of (records_of rs)).

(** What a log says of a key: nothing once it is deleted, else the greatest
    version written, whatever the order. *)
Definition log_shows (k : bytes) (rs : list bytes) : option Version :=
  if existsb (del_on k) (ops_log rs) then None
  else max_version ((fun o => op_version o 0) <$> filter (put_on k) (ops_log rs)).

(** A store whose entries of [ns] come from applying [l] in order. *)
Definition reads_from (ns : bytes) (p : ConflictPolicy) (l : list record) (s : Store) : Prop :=
  exists os m0, os.*1 = l /\ mem_of s = fold_left (sync_step p ns) os m0
    /\ forall k, m0.1 !! (ns, k) = None /\ m0.2 !! (ns, k) = None.

Lemma ops_log_app l1 l2 : ops_log (l1 ++ l2) = ops_log l1 ++ ops_log l2.
Proof. unfold ops_log, records_of. by rewrite omap_app, map_app, mjoin_app. Qed.

Lemma reads_from_mem ns p l s s' : mem_of s' = mem_of s -> reads_from ns p l s -> reads_from ns p l s'.
Proof. intros E (os & m0 & ? & Hm & ?). exists os, m0. by rewrite E. Qed.

(** Such a store shows what the log says. *)
Lemma reads_from_shows ns p rs s k : reads_from ns p (ops_log rs) s ->
  erase <$> (get s ns k ≫= latest_entry_value) = log_shows k rs.
Proof.
  intros (os & m0 & Ho & Hm & Hnone). destruct (Hnone k) as [Hi Ht].
  change (get s ns k ≫= latest_entry_value) with (latest_shown (mem_of s) (ns, k)).
  rewrite Hm, latest_sync_fold, existsb_fst, Ho by done. unfold log_shows. destruct (existsb _ _); [done|].
  by rewrite <-max_version_erase, erase_put_versions, Ho.
Qed.

Lemma ops_log_snoc rs r hd : wf_record r -> is_put r = true -> length hd = 32%nat ->
  ops_log (rs ++ [to_bytes r hd]) = ops_log rs ++ [r].
Proof.
  intros Hwf Hput Hh. rewrite ops_log_app. f_equal.
  assert (record_at (to_bytes r hd) = Some r) as E.
  { unfold record_at. by rewrite (parse_chain_to_bytes r hd None Hwf Hh ltac:(by left)). }
  unfold ops_log, records_of. cbn [omap list_omap]. rewrite E. cbn [map mjoin list_join app]. unfold ops_of, is_put in *.
  apply bool_decide_eq_true in Hput. rewrite bool_decide_eq_true_2 by naive_solver. done.
Qed.

(** [r] supersedes what the operations [l] say of its key. *)
Definition newest (r : record) (l : list record) : Prop :=
  Forall (fun o => key o = key r -> is_put o = true /\ geb (stamp r) (stamp o) = true) l.

(** Under last writer wins an entry is one version. *)
Lemma reads_from_lww ns l s k : reads_from ns PLww l s ->
  get s ns k = Lww <$> (get s ns k ≫= latest_entry_value).
Proof.
  intros (os & m0 & Ho & Hm & Hnone). destruct (Hnone k) as [Hi Ht].
  change (get s ns k) with (shown (mem_of s) (ns, k)). rewrite Hm.
  pose proof (sync_fold PLww ns k os m0 Hi Ht) as Hs. cbv zeta in Hs. unfold shown. destruct (existsb _ os).
  - by destruct Hs as [h ->].
  - destruct Hs as [-> ->]. cbn. by destruct (max_version _).
Qed.

Lemma mjoin_perm {A} (l l' : list (list A)) : l ≡ₚ l' -> mjoin l ≡ₚ mjoin l'.
Proof.
  induction 1 as [|x l l' _ IH|x y l|l1 l2 l3 _ IH1 _ IH2]; [done| | |by etrans].
  - rewrite !mjoin_cons. by rewrite IH.
  - rewrite !mjoin_cons, !app_assoc. by rewrite (Permutation_app_comm y x).
Qed.

Lemma apply_synced_batch_run s ns p rs l : store_ok s -> policies s !! ns = Some p ->
  log_holds s ns rs -> Forall wf_record l ->
  apply_synced_batch ns l s = synced_each ns l 0 s.
Proof.
  intros Hok Hp Hlog Hl. rewrite <-(synced_loop_each s ns p rs l 0 Hok Hp Hlog Hl).
  unfold apply_synced_batch, mbind, method_bind, self, lift. simpl. rewrite Hp. simpl.
  by rewrite (log_versions_ok _ _ _ Hlog).
Qed.

(** ** Properties *)

(** Applying the same synced record a second time changes nothing and
    reports a duplicate, whether or not the first application found one; the
    log, not the trimmed index, decides. *)
Theorem apply_synced_idempotent s ns p r :
  store_ok s -> policies s !! ns = Some p -> wf_record r ->
  exists s' b, apply_synced ns r s = (s', Ok b) /\ apply_synced ns r s' = (s', Ok false)
    /\ (b = false -> s' = s).
Proof.
  intros Hok Hp Hwf. destruct (ok_holds s ns p Hok Hp) as (L & d & rs & HL & Hd & Hl).
  assert (log_holds s ns rs) as Hlog by (by exists L, d).
  destruct (decide (version_key r ∈ versions_of rs)) as [Hin|Hni].
  - exists s, false. by rewrite (apply_synced_dup s ns p rs r Hp Hlog Hin).
  - destruct (apply_fresh_run s ns p rs r Hok Hp Hlog Hwf)
      as (s' & h & E & _ & Hok' & Hp' & Hlog' & Hh).
    exists s', true. rewrite (apply_synced_new s ns p rs r Hp Hlog Hni).
    rewrite (method_bind_step _ _ _ _ _ E). split_and!; [done| |done].
    eapply apply_synced_dup; [by rewrite Hp'|done|].
    rewrite (versions_of_snoc rs r h Hwf Hh). set_solver.
Qed.

(** The batch routine, which scans the log once and tracks the versions
    it adds, leaves the same store and returns the same count as applying the
    records one by one with a scan of the log for each. *)
Theorem synced_batch_is_each s ns p l :
  store_ok s -> policies s !! ns = Some p -> Forall wf_record l ->
  apply_synced_batch ns l s = synced_each ns l 0 s.
Proof.
  intros Hok Hp Hl. destruct (ok_holds s ns p Hok Hp) as (L & d & rs & HL & Hd & Hlog).
  eapply apply_synced_batch_run; try done. by exists L, d.
Qed.

(** C2: replicas that start without a key and apply the same records in any
    two orders, batches included, show the same latest version of the key up
    to its local sequence number, under either conflict policy: nothing if any
    of the records deletes the key, else the write with the greatest
    (hlc, replica). The writes to the key carry distinct stamps. *)
Theorem sync_convergence s1 s2 ns p l1 l2 k :
  store_ok s1 -> store_ok s2 -> policies s1 !! ns = Some p -> policies s2 !! ns = Some p ->
  log_holds s1 ns [] -> log_holds s2 ns [] ->
  index s1 !! (ns, k) = None -> tombs s1 !! (ns, k) = None ->
  index s2 !! (ns, k) = None -> tombs s2 !! (ns, k) = None ->
  Forall wf_record l1 -> l1 ≡ₚ l2 -> NoDup (version_key <$> l1) ->
  distinct_stamps k (mjoin (map ops_of l1)) ->
  exists s1' s2', apply_synced_batch ns l1 s1 = (s1', Ok (Z.of_nat (length l1)))
    /\ apply_synced_batch ns l2 s2 = (s2', Ok (Z.of_nat (length l1)))
    /\ erase <$> (get s1' ns k ≫= latest_entry_value)
       = erase <$> (get s2' ns k ≫= latest_entry_value).
Proof.
  intros Hok1 Hok2 Hp1 Hp2 Hl1 Hl2 Hi1 Ht1 Hi2 Ht2 Hwf Hperm Hnd Hst.
  assert (Forall wf_record l2) as Hwf2 by (by rewrite <-Hperm).
  assert (NoDup (version_key <$> l2)) as Hnd2 by (by rewrite <-Hperm).
  destruct (synced_run s1 ns p [] l1 0 Hok1 Hp1 Hl1 Hwf Hnd) as (s1' & os1 & E1 & Ho1 & Hm1);
    [set_solver|].
  destruct (synced_run s2 ns p [] l2 0 Hok2 Hp2 Hl2 Hwf2 Hnd2) as (s2' & os2 & E2 & Ho2 & Hm2);
    [set_solver|].
  exists s1', s2'. rewrite !(apply_synced_batch_run _ ns p []) by done. rewrite E1, E2.
  split_and!; [done|by rewrite Hperm|].
  change (get s1' ns k ≫= latest_entry_value) with (latest_shown (mem_of s1') (ns, k)).
  change (get s2' ns k ≫= latest_entry_value) with (latest_shown (mem_of s2') (ns, k)).
  rewrite Hm1, Hm2. apply latest_fold_perm; try done.
  - rewrite Ho1, Ho2. apply mjoin_perm. by rewrite Hperm.
  - by rewrite Ho1.
Qed.

End sync.

(** ** Concrete runs *)

#[local] Existing Instances toy_sha256 hex_plain toy_json.

Definition w1 : record := demo_op TAG_PUT "a" "old" 10 0.
Definition w2 : record := demo_op TAG_PUT_TTL "a" "new" 11 99.
Definition w3 : record := demo_op TAG_DEL "b" "" 12 0.

Lemma demo_wf t k v h ex : valid_tag t = true -> t <> TAG_BATCH ->
  wf_op (demo_op t k v h ex) ->
  Z.of_nat (length (payload_bytes (demo_op t k v h ex))) < 2 ^ 32 ->
  wf_record (demo_op t k v h ex).
Proof. intros. left. done. Qed.

Lemma demo_writes_wf : Forall wf_record [w1; w2; w3].
Proof.
  repeat (constructor; [apply demo_wf; [reflexivity|discriminate|demo_op|reflexivity]|]).
  constructor.
Qed.

Lemma apply_synced_idempotent_witness :
  exists s' b, apply_synced (bs "app") w1 demo_store = (s', Ok b)
    /\ apply_synced (bs "app") w1 s' = (s', Ok false) /\ (b = false -> s' = demo_store).
Proof.
  apply (apply_synced_idempotent demo_store (bs "app") PLww w1);
    [apply demo_store_ok|reflexivity|].
  pose proof demo_writes_wf as Hw. by inversion Hw.
Defined.

Lemma synced_batch_is_each_witness :
  apply_synced_batch (bs "app") [w1; w2; w3] demo_store
  = synced_each (bs "app") [w1; w2; w3] 0 demo_store.
Proof.
  apply (synced_batch_is_each demo_store (bs "app") PLww);
    [apply demo_store_ok|reflexivity|apply demo_writes_wf].
Defined.

Lemma sync_convergence_witness :
  exists s1' s2', apply_synced_batch (bs "app") [w1; w2; w3] demo_store = (s1', Ok 3)
    /\ apply_synced_batch (bs "app") [w3; w2; w1] demo_store = (s2', Ok 3)
    /\ erase <$> (get s1' (bs "app") (bs "a") ≫= latest_entry_value)
       = erase <$> (get s2' (bs "app") (bs "a") ≫= latest_entry_value).
Proof.
  apply (sync_convergence demo_store demo_store (bs "app") PLww [w1; w2; w3] [w3; w2; w1] (bs "a")
    demo_store_ok demo_store_ok eq_refl eq_refl demo_holds demo_holds eq_refl eq_refl eq_refl
    eq_refl demo_writes_wf).
  - exact (Permutation_rev [w1; w2; w3]).
  - apply (bool_decide_unpack _). vm_compute. exact I.
  - apply (bool_decide_unpack _). vm_compute. exact I.
Defined.

End SyncSpec.
