(* ===== verification/Merge.v ===== *)
(** Verification of the records pulled from a peer ([src/net/merge.rs]) and
    what it gives the store that applies them: a verified batch always
    applies, and a window read from an intact log always verifies. *)

From S2P Require Import Prelude Crc32 LogFormat Log LogSpec Utf8 StoreTypes Store StoreSpec SyncSpec.
Import LogFormat LogSpec Store StoreSpec SyncSpec.

Module Merge.

(** [MergeError]; the message of [Corrupt] carries the record's sequence
    number and either the storage error or the offending tag. *)
Inductive merge_detail :=
| RecordError (e : StorageError)
| RecordTag (t : byte).
Inductive MergeError :=
| CorruptBatch (seq : Z) (d : merge_detail)
| NonMonotonicHlc (seq : Z)
| UnknownNamespace (ns : bytes).

Section merge.
Context `{Sha256}.

(** The loop over the batch: [prev_hash] is the hash of the record before. *)
Fixpoint verify_loop (records : list (Z * bytes)) (prev_hash : option bytes)
    (out : list record) : outcome MergeError (list record) :=
  match records with
  | [] => Ok out
  | (seq, b) :: rest =>
      '(r, prev) ← map_err (fun e => CorruptBatch seq (RecordError e)) (parse_chain b prev_hash);
      _ ← guard_err (negb (bool_decide (tag r = TAG_PUT) || bool_decide (tag r = TAG_PUT_TTL)
                      || bool_decide (tag r = TAG_DEL) || bool_decide (tag r = TAG_SCHEMA)
                      || bool_decide (tag r = TAG_INDEX) || bool_decide (tag r = TAG_BATCH)))
            (CorruptBatch seq (RecordTag (tag r)));
      verify_loop rest (Some (record_hash prev b)) (out ++ [r])
  end.

Definition verify_batch (local_head : bytes) (records : list (Z * bytes))
    : outcome MergeError (list record) :=
  verify_loop records None [].

(** ** What verification accepts *)

(** Record [b] is [r], chained after a record hashing to [prev] when there is
    one. *)
Inductive verified : option bytes -> list bytes -> list record -> Prop :=
| verified_nil prev : verified prev [] []
| verified_cons prev b rest r p l :
    parse_chain b prev = Ok (r, p) -> verified (Some (record_hash p b)) rest l ->
    verified prev (b :: rest) (r :: l).

Lemma wf_valid_tag r : wf_record r -> valid_tag (tag r) = true.
Proof. intros Hwf. by apply wf_record_tag. Qed.

Lemma verify_loop_step seq b rest prev out r p : parse_chain b prev = Ok (r, p) ->
  verify_loop ((seq, b) :: rest) prev out = verify_loop rest (Some (record_hash p b)) (out ++ [r]).
Proof.
  intros E. cbn [verify_loop]. rewrite E. cbn [map_err mbind outcome_bind].
  apply parse_chain_wf, wf_valid_tag, valid_tag_iff in E.
  rewrite (bind_step _ tt); [done|]. apply guard_err_ok, negb_false_iff.
  rewrite !orb_true_iff, !bool_decide_eq_true. naive_solver.
Qed.

(** The loop accepts exactly the verified batches. *)
Lemma verify_loop_ok records prev out res :
  verify_loop records prev out = Ok res
  <-> exists l, res = out ++ l /\ verified prev (records.*2) l.
Proof.
  revert prev out. induction records as [|[seq b] rest IH]; intros prev out.
  { split; [intros [= <-]; exists []; split; [by rewrite app_nil_r|constructor]|].
    intros (l & -> & Hv). inversion Hv; subst. by rewrite app_nil_r. }
  destruct (parse_chain b prev) as [[r p]|e|] eqn:E.
  - rewrite (verify_loop_step _ _ _ _ _ _ _ E), IH. split.
    + intros (l & -> & Hv). exists (r :: l). rewrite <-app_assoc. split; [done|]. by econstructor.
    + intros (l & -> & Hv). inversion Hv as [|? ? ? ? ? l' E' Hv']; simplify_eq.
      rewrite E in E'. simplify_eq. exists l'. by rewrite <-app_assoc.
  - cbn [verify_loop]. rewrite E. split; [done|]. intros (l & _ & Hv). inversion Hv; congruence.
  - cbn [verify_loop]. rewrite E. split; [done|]. intros (l & _ & Hv). inversion Hv; congruence.
Qed.

Lemma verified_wf prev bs l : verified prev bs l -> Forall wf_record l.
Proof. induction 1; constructor; eauto using parse_chain_wf. Qed.

Lemma verified_length prev bs l : verified prev bs l -> length bs = length l.
Proof. induction 1; simpl; auto. Qed.

(** An intact chain is a verified batch, wherever it is cut. *)
Lemma chain_verified h prev rs : chain_ok h rs -> (prev = None \/ prev = Some h) ->
  exists l, verified prev rs l.
Proof.
  revert h prev. induction rs as [|b rs IH]; intros h prev; [exists []; constructor|].
  intros [[r Hp] Hch] Hprev. destruct (IH _ (Some (record_hash h b)) Hch) as [l Hl]; [by right|].
  exists (r :: l). econstructor; [|done].
  destruct Hprev as [->| ->]; [by apply parse_chain_unchecked in Hp|done].
Qed.

Lemma verified_versions prev bs l : verified prev bs l ->
  versions_of bs = list_to_set (version_key <$> l).
Proof.
  induction 1 as [|prev b rest r p l E Hv IH]; [done|].
  assert (version_at b = Some (version_key r)) as Eb.
  { unfold version_at. destruct prev; [by rewrite (parse_chain_unchecked _ _ _ _ E)|by rewrite E]. }
  unfold versions_of in *. cbn. rewrite Eb. cbn. by f_equal.
Qed.

Lemma chain_ok_window h rs i j : chain_ok h rs -> chain_ok (fhead h (take i rs)) (take j (drop i rs)).
Proof.
  intros Hch. rewrite <-(take_drop i rs), chain_ok_app in Hch. destruct Hch as [_ Hch].
  rewrite <-(take_drop j (drop i rs)), chain_ok_app in Hch. apply Hch.
Qed.

End merge.

Section apply.
Context `{Sha256, HexCrate, SerdeJson}.

(** Applying well-formed records one by one always succeeds; the log then has
    their versions on top of its own. *)
Lemma synced_each_total s ns p rs l n :
  store_ok s -> policies s !! ns = Some p -> log_holds s ns rs -> Forall wf_record l ->
  exists s' n' rs', synced_each ns l n s = (s', Ok n')
    /\ n <= n' <= n + Z.of_nat (length l) /\ store_ok s' /\ policies s' = policies s
    /\ log_holds s' ns rs' /\ versions_of rs' = list_to_set (version_key <$> l) ∪ versions_of rs
    /\ Z.of_nat (length rs') = Z.of_nat (length rs) + (n' - n).
Proof.
  intros Hok Hp Hlog Hl. revert s rs n Hok Hp Hlog. induction Hl as [|r l Hr Hl IH];
    intros s rs n Hok Hp Hlog.
  { exists s, n, rs. split_and!; try done; simpl; [lia..|set_solver|lia]. }
  destruct (decide (version_key r ∈ versions_of rs)) as [Hin|Hni].
  - destruct (IH s rs n Hok Hp Hlog) as (s' & n' & rs' & E & Hn & Hok' & Hp' & Hlog' & Hv & Hln).
    exists s', n', rs'. cbn [synced_each].
    rewrite (method_bind_step _ _ _ _ _ (apply_synced_dup s ns p rs r Hp Hlog Hin)).
    split_and!; try done; [lia|simpl; lia|rewrite Hv; simpl; set_solver].
  - destruct (apply_fresh_run s ns p rs r Hok Hp Hlog Hr)
      as (s1 & h & E & _ & Hok1 & Hp1 & Hlog1 & Hh).
    assert (apply_synced ns r s = (s1, Ok true)) as Ea.
    { rewrite (apply_synced_new s ns p rs r Hp Hlog Hni). by rewrite (method_bind_step _ _ _ _ _ E). }
    destruct (IH s1 _ (n + 1) Hok1 ltac:(by rewrite Hp1) Hlog1)
      as (s' & n' & rs' & E' & Hn & Hok' & Hp' & Hlog' & Hv & Hln).
    exists s', n', rs'. cbn [synced_each]. rewrite (method_bind_step _ _ _ _ _ Ea), E'.
    split_and!; try done; [lia|simpl; lia|congruence| |].
    + rewrite Hv, (versions_of_snoc rs r h Hr Hh). simpl. set_solver.
    + rewrite Hln, length_app. simpl. lia.
Qed.

(** A verified batch runs as the same records one by one, and always applies. *)
Lemma verified_batch_run s ns p head recs l :
  store_ok s -> policies s !! ns = Some p -> verify_batch head recs = Ok l ->
  exists s' n rs rs', apply_synced_batch ns l s = (s', Ok n) /\ synced_each ns l 0 s = (s', Ok n)
    /\ Forall wf_record l /\ verified None recs.*2 l
    /\ 0 <= n <= Z.of_nat (length recs) /\ store_ok s' /\ policies s' = policies s
    /\ log_holds s ns rs /\ log_holds s' ns rs'
    /\ versions_of rs' = list_to_set (version_key <$> l) ∪ versions_of rs
    /\ Z.of_nat (length rs') = Z.of_nat (length rs) + n.
Proof.
  intros Hok Hp Hv. apply verify_loop_ok in Hv as (l' & -> & Hv). simpl.
  pose proof (verified_wf _ _ _ Hv) as Hwf.
  destruct (ok_holds s ns p Hok Hp) as (L & d & rs & HL & Hd & Hl).
  assert (log_holds s ns rs) as Hlog by (by exists L, d).
  destruct (synced_each_total s ns p rs l' 0 Hok Hp Hlog Hwf)
    as (s' & n & rs' & E & Hn & Hok' & Hp' & Hlog' & Hvs & Hln).
  exists s', n, rs, rs'. rewrite (apply_synced_batch_run s ns p rs l' Hok Hp Hlog Hwf), E.
  assert (length recs = length l') as Hlen.
  { rewrite <-(length_fmap snd recs). by apply verified_length in Hv. }
  split_and!; try done; lia.
Qed.

(** ** Properties *)

(** C27: whatever bytes a peer sends, a batch that verifies is applied in a
    known namespace without an error or a panic: the store stays well-formed,
    the count is at most the number of records, the log afterwards has the
    versions it had plus those of the batch, and applying the batch again
    adds nothing. *)
Theorem verified_batch_applies s ns p head recs l :
  store_ok s -> policies s !! ns = Some p -> verify_batch head recs = Ok l ->
  exists s' n rs rs', apply_synced_batch ns l s = (s', Ok n)
    /\ 0 <= n <= Z.of_nat (length recs) /\ store_ok s'
    /\ log_holds s ns rs /\ log_holds s' ns rs'
    /\ versions_of rs' = versions_of (recs.*2) ∪ versions_of rs
    /\ apply_synced_batch ns l s' = (s', Ok 0).
Proof.
  intros Hok Hp Hv.
  destruct (verified_batch_run s ns p head recs l Hok Hp Hv)
    as (s' & n & rs & rs' & E & _ & Hwf & Hver & Hn & Hok' & Hp' & Hlog & Hlog' & Hvs & _).
  exists s', n, rs, rs'. rewrite <-Hp' in Hp.
  rewrite (apply_synced_batch_run s' ns p rs' l Hok' Hp Hlog' Hwf).
  split_and!; try done; [lia..|by rewrite (verified_versions _ _ _ Hver)|].
  assert (forall r, r ∈ l -> version_key r ∈ versions_of rs') as Hin.
  { intros r Hr. rewrite Hvs. apply elem_of_union_l, elem_of_list_to_set.
    by apply list_elem_of_fmap_2. }
  clear -Hin Hp Hlog'. induction l as [|r l IH]; [done|]. cbn [synced_each].
  rewrite (method_bind_step _ _ _ _ _ (apply_synced_dup s' ns p rs' r Hp Hlog' (Hin r ltac:(by left)))).
  apply IH. intros r' Hr'. apply Hin. by right.
Qed.

(** A window read from an intact log, from any sequence number on,
    verifies: the records it carries come out in order, chained to each other,
    and an honest peer is never refused. *)
Theorem honest_window_verifies d L rs from max (head : bytes) :
  is_log d L rs -> 1 <= from <= Log.seq L -> 0 <= max -> is_u64 (from - 1 + max) ->
  exists recs l, Log.read_records d L from max = Ok recs /\ verify_batch head recs = Ok l
    /\ verified None recs.*2 l
    /\ recs.*2 = (let w := drop (Z.to_nat (from - 1)) rs in
                  if max =? 0 then w else take (Z.to_nat max) w).
Proof.
  intros Hlog Hf Hm Hu. destruct (is_log_facts _ _ _ Hlog) as (_ & _ & Hch).
  destruct Hlog as (ss & s & Hrep & <-).
  rewrite (read_records_rep _ _ _ _ _ _ Hrep Hf Hm Hu).
  set (w := let w := drop (Z.to_nat (from - 1)) (LogSpec.log_records ss s) in
            if max =? 0 then w else take (Z.to_nat max) w).
  assert ((numbered from w).*2 = w) as Hw by apply numbered_snd.
  assert (exists j, w = take j (drop (Z.to_nat (from - 1)) (LogSpec.log_records ss s))) as [j Hj].
  { subst w. simpl. destruct (max =? 0); [|by eexists].
    exists (length (drop (Z.to_nat (from - 1)) (LogSpec.log_records ss s))). by rewrite firstn_all. }
  destruct (chain_verified (fhead zero32 (take (Z.to_nat (from - 1)) (LogSpec.log_records ss s))) None w)
    as [l Hl]; [rewrite Hj; by apply chain_ok_window|by left|].
  exists (numbered from w), l. rewrite Hw. split_and!; try done.
  apply verify_loop_ok. exists l. by rewrite Hw.
Qed.

End apply.

(** ** Witnesses *)

#[local] Existing Instance toy_sha256.
#[local] Existing Instance hex_plain.
#[local] Existing Instance toy_json.

Lemma verified_batch_applies_witness :
  exists s' n rs rs', apply_synced_batch (bs "app") [demo_batch] demo_store = (s', Ok n)
    /\ 0 <= n <= 1 /\ store_ok s' /\ log_holds demo_store (bs "app") rs
    /\ log_holds s' (bs "app") rs'
    /\ versions_of rs' = versions_of [demo_rec] ∪ versions_of rs
    /\ apply_synced_batch (bs "app") [demo_batch] s' = (s', Ok 0).
Proof.
  apply (verified_batch_applies demo_store (bs "app") PLww zero32 [(7, demo_rec)] [demo_batch]);
    [apply demo_store_ok|apply demo_policy|].
  vm_compute. reflexivity.
Defined.

Lemma honest_window_verifies_witness :
  exists recs l, Log.read_records demo_dir demo_log 1 0 = Ok recs /\ verify_batch zero32 recs = Ok l
    /\ verified None recs.*2 l /\ recs.*2 = [demo_rec].
Proof.
  apply (honest_window_verifies demo_dir demo_log [demo_rec] 1 0 zero32);
    [apply demo_is_log|split; discriminate|discriminate|split; [discriminate|reflexivity]].
Defined.

End Merge.
