(* ===== verification/Snapshot.v ===== *)
(** Persistence of the store ([src/storage/mod.rs]): [checkpoint],
    [load_snap], [open_durable] and the compactions [gc_live] and
    [compact_dir]. *)

From S2P Require Import Prelude Crc32 LogFormat Log LogSpec Utf8 StoreTypes Store.
Import LogFormat Utf8 Store.

Module Snapshot.

Definition SNAP_MAGIC : bytes := bs "BMDBIDX2".
Definition SNAP_MAGIC_V1 : bytes := bs "BMDBIDX1".

Section snapshot.
Context `{Sha256, HexCrate, SerdeJson}.

(** ** [checkpoint] *)

Definition write_entry (ke : bytes * Entry) : bytes :=
  w_bytes ke.1 ++
  match ke.2 with
  | Lww v => w_u8 Byte.x00 ++ write_version v
  | Register vs => w_u8 Byte.x01 ++ w_u32 (Z.of_nat (length vs)) ++ mjoin (map write_version vs)
  end.

(** The entries of one namespace, in key order. *)
Definition of_ns {V} (m : gmap nskey V) (ns : bytes) : list (bytes * V) :=
  omap (fun '((n, k), e) => if bool_decide (n = ns) then Some (k, e) else None) (btree_iter m).

Definition write_list {A} (w : A -> bytes) (l : list A) : bytes :=
  w_u32 (Z.of_nat (length l)) ++ mjoin (map w l).

(** [entries.sort_by] on keys; the iteration is already in key order. *)
Definition write_ns (s : Store) (np : bytes * ConflictPolicy) : bytes :=
  let '(ns, p) := np in
  let '(sz, h) := default (0, zero32) (head s ns) in
  w_bytes ns ++ w_u8 (policy_to_u8 p) ++ w_u64 sz ++ w_fixed h
  ++ write_list write_entry (merge_sort key_le (of_ns (index s) ns))
  ++ write_list (fun kh : bytes * Z => w_bytes kh.1 ++ w_u64 kh.2) (of_ns (tombs s) ns).

Definition snapshot_bytes (s : Store) : bytes :=
  SNAP_MAGIC ++ w_u64 (revision s)
  ++ write_list (fun kv : bytes * bytes => w_bytes kv.1 ++ w_bytes kv.2) (btree_iter (meta s))
  ++ write_list (fun nd : bytes * Z => w_bytes nd.1 ++ w_i64 nd.2) (btree_iter (peer_clocks s))
  ++ write_list (write_ns s) (btree_iter (policies s)).

(** The rename makes the new snapshot visible at once. *)
Definition checkpoint (s : Store) : Store :=
  with_disk (mkDisk (Some (snapshot_bytes s)) (dirs (sdisk s))) s.

(** ** [load_snap] *)

Record ns_snap := mkNsSnap {
  sn_ns : bytes;
  sn_policy : ConflictPolicy;
  sn_seq : Z;
  sn_hash : bytes;
  sn_entries : list (bytes * Entry);
  sn_tombs : list (bytes * Z);
}.

Definition r_list {A} (m : reader A) : reader (list A) := n ← r_u32; r_times (Z.to_nat n) m.

Definition read_entry (read_v : reader Version) (ns : bytes) : reader (bytes * Entry) :=
  k ← r_bytes;
  t ← r_u8;
  match t with
  | Byte.x00 => v ← read_v; mret (k, Lww v)
  | Byte.x01 => vs ← r_list read_v; mret (k, Register vs)
  | _ => lift (Err (Corrupt (Some ns) (BadEntryTag t)))
  end.

Definition read_tomb : reader (bytes * Z) := k ← r_bytes; h ← r_u64; mret (k, h).

Definition read_ns (read_v : reader Version) : reader ns_snap :=
  b ← r_bytes;
  let ns := from_utf8_lossy b in
  pb ← r_u8;
  p ← lift (policy_from_u8 pb);
  sz ← r_u64;
  h ← r_fixed32;
  es ← r_list (read_entry read_v ns);
  ts ← r_list read_tomb;
  mret (mkNsSnap ns p sz h es ts).

Definition read_meta : reader (bytes * bytes) :=
  k ← r_bytes; v ← r_bytes; mret (from_utf8_lossy k, v).
Definition read_peer : reader (bytes * Z) :=
  n ← r_bytes; d ← r_i64; mret (from_utf8_lossy n, d).

Definition snap_data : Type := (Z * list (bytes * bytes) * list (bytes * Z) * list ns_snap)%type.

Definition read_snap (read_v : reader Version) : reader snap_data :=
  rev ← r_u64;
  ms ← r_list read_meta;
  pcs ← r_list read_peer;
  nss ← r_list (read_ns read_v);
  _ ← r_done;
  mret (rev, ms, pcs, nss).

(** The insertions, in the order they are made. *)
Definition insert_all {K V} `{Countable K} (l : list (K * V)) (m : gmap K V) : gmap K V :=
  fold_left (fun m kv => <[kv.1 := kv.2]> m) l m.

Definition load_ns (s : Store) (n : ns_snap) : Store :=
  let s := with_index (insert_all (map (fun ke => ((sn_ns n, ke.1), ke.2)) (sn_entries n))
                         (index s)) s in
  let s := with_tombs (insert_all (map (fun kh => ((sn_ns n, kh.1), kh.2)) (sn_tombs n))
                         (tombs s)) s in
  with_policy (sn_ns n) (sn_policy n) s.

Definition load_data (d : snap_data) (s : Store) : Store :=
  let '(rev, ms, pcs, nss) := d in
  let s := with_revision rev s in
  let s := with_meta (insert_all ms (meta s)) s in
  let s := with_peers (insert_all pcs (peer_clocks s)) s in
  fold_left load_ns nss s.

Definition snap_heads (nss : list ns_snap) : gmap bytes (Z * bytes) :=
  insert_all (map (fun n => (sn_ns n, (sn_seq n, sn_hash n))) nss) ∅.

Definition load_snap (b : bytes) (s : Store) : res (Store * gmap bytes (Z * bytes)) :=
  _ ← guard_err (length b <? 8)%nat (corrupt SnapTooShort);
  let v1 := bool_decide (take 8 b = SNAP_MAGIC_V1) in
  _ ← guard_err (negb v1 && negb (bool_decide (take 8 b = SNAP_MAGIC))) (corrupt SnapMagic);
  d ← (read_snap (if v1 then read_version_v1 else read_version) (mkRd (drop 8 b) 0)).2;
  Ok (load_data d s, snap_heads d.2).

(** ** [open_durable] *)

Definition read_policy_sidecar (d : Log.nsdir) (ns : bytes) : res (option ConflictPolicy) :=
  match Log.sidecar d with
  | None => Ok None
  | Some [b] => p ← policy_from_u8 b; Ok (Some p)
  | Some _ => Err (Corrupt (Some ns) SidecarLength)
  end.

(** Replays the records after the snapshot, checking the chain. *)
Fixpoint replay (ns : bytes) (recs : list (Z * bytes)) (running : bytes) : method Store StorageError bytes :=
  match recs with
  | [] => mret running
  | (q, b) :: recs =>
      '(r, prev) ← lift (parse b running);
      _ ← apply_record ns r q;
      replay ns recs (record_hash prev b)
  end.

Definition open_ns (heads : gmap bytes (Z * bytes)) (dur : bool) (ns : bytes)
    : method Store StorageError unit :=
  s ← self;
  d0 ← lift (ok_or (Io FileNotFound) (dirs (sdisk s) !! ns_dir ns));
  '(d, L, _) ← lift (Log.recover d0 (ns_dir ns) dur);
  _ ← update (with_disk (mkDisk (snap (sdisk s)) (<[ns_dir ns := d]> (dirs (sdisk s)))));
  sidecar ← lift (read_policy_sidecar d ns);
  policy ← lift (match policies s !! ns, sidecar with
                 | Some a, Some b => if bool_decide (a <> b)
                                     then Err (Corrupt (Some ns) PolicyDisagrees) else Ok a
                 | Some a, None => Ok a
                 | None, Some b => Ok b
                 | None, None => Err (Corrupt (Some ns) NoPolicy)
                 end);
  let '(snap_seq, snap_hash) := default (0, zero32) (heads !! ns) in
  _ ← lift (guard_err (Log.seq L <? snap_seq) (Corrupt (Some ns) (SnapAhead snap_seq (Log.seq L))));
  _ ← update (with_policy ns policy);
  recs ← lift (Log.read_records d L (u64 (snap_seq + 1)) 0);
  running ← replay ns recs snap_hash;
  _ ← lift (guard_err (negb (bool_decide (Log.head L = running))) (Corrupt (Some ns) HeadMismatch));
  update (with_log ns (ns_dir ns) d L).

(** The namespaces found on disk, without duplicates, sorted. *)
Definition ns_names (d : disk) : list bytes :=
  merge_sort cle (remove_dups (omap parse_ns_dir (btree_iter (dirs d)).*1)).

Definition CREATED_MS : bytes := bs "created_ms".

Definition open_store (d : disk) (dur : bool) : Store := mkStore d ∅ ∅ ∅ ∅ ∅ ∅ 0 dur ∅.

Definition finish_open (now_ms : Z) (s : Store) : Store :=
  let s := match meta_get s CREATED_MS with
           | None => with_meta (<[CREATED_MS := le_bytes 8 now_ms]> (meta s)) s
           | Some _ => s
           end in
  rebuild_secondary_indexes s.

(** Opening may truncate torn tails, also when it fails later. *)
Definition open_durable (dur : bool) (now_ms : Z) : method disk StorageError Store :=
  d ← self;
  '(s, heads) ← lift (match snap d with
                      | Some b => load_snap b (open_store d dur)
                      | None => Ok (open_store d dur, ∅)
                      end);
  let names := ns_names d in
  _ ← lift (match filter (fun ns => ns ∉ names) (btree_iter heads).*1 with
            | [] => Ok tt
            | ns :: _ => Err (Corrupt (Some ns) SnapDirGone)
            end);
  let '(s, o) := for_each (open_ns heads dur) names s in
  _ ← update (fun _ => sdisk s);
  _ ← lift o;
  mret (finish_open now_ms s).

(** ** Compaction *)

Definition expired (v : Version) (now : Z) : bool :=
  negb (StoreTypes.expires_at v =? 0) && (StoreTypes.expires_at v <=? now).

Definition put_of (k : bytes) (v : Version) : record :=
  mkRecord (if StoreTypes.expires_at v =? 0 then TAG_PUT else TAG_PUT_TTL) k (StoreTypes.hlc v)
    (StoreTypes.replica v) (StoreTypes.author v) (StoreTypes.value v) (StoreTypes.expires_at v) [].

Definition entry_versions (e : Entry) : list Version :=
  match e with Lww v => [v] | Register vs => vs end.

(** The records a compacted log keeps. *)
Definition live_records (s : Store) (ns : bytes) (now : Z) : list record :=
  mjoin (map (fun ke : bytes * Entry =>
           map (put_of ke.1) (filter (fun v => expired v now = false) (entry_versions ke.2)))
           (scan s ns []))
  ++ map (fun kh : bytes * Z => mkRecord TAG_DEL kh.1 kh.2 zero32 zero32 [] 0 [])
       (filter (fun kh => index s !! (ns, kh.1) = None) (of_ns (tombs s) ns)).

Definition seg_bytes (d : Log.nsdir) : Z :=
  Z.of_nat (sum_list (Log.discover (S (size (Log.segs d))) (Log.segs d) 0).*2).

(** Entries of the other namespaces. *)
Definition drop_ns {V} (ns : bytes) (m : gmap nskey V) : gmap nskey V :=
  filter (fun kv => kv.1.1 <> ns) m.

(** Unparsable records are skipped. *)
Fixpoint reapply (ns : bytes) (recs : list (Z * bytes)) : method Store StorageError unit :=
  match recs with
  | [] => mret tt
  | (q, b) :: recs =>
      match parse_chain b None with
      | Ok (r, _) => _ ← apply_record ns r q; reapply ns recs
      | Err _ => reapply ns recs
      | Panic => lift Panic
      end
  end.

Definition gc_ns (now : Z) (ns : bytes) : method Store StorageError Z :=
  s ← self;
  let before := seg_bytes (dir_of s ns) in
  let out := live_records s ns now in
  _ ← match out with
      | [] => mret tt
      | _ =>
          let d := Log.write_fresh (dir_of s ns) out in
          _ ← update (with_disk (mkDisk (snap (sdisk s)) (<[ns_dir ns := d]> (dirs (sdisk s)))));
          '(d, L, _) ← lift (Log.recover d (ns_dir ns) (durable s));
          _ ← update (with_log ns (ns_dir ns) d L);
          _ ← update (fun s => with_index (drop_ns ns (index s)) s);
          _ ← update (fun s => with_tombs (drop_ns ns (tombs s)) s);
          s ← self;
          let recs := match log_records s ns 1 0 with Ok l => l | _ => [] end in
          reapply ns recs
      end;
  s ← self;
  mret (Z.max 0 (before - seg_bytes (dir_of s ns))).

Fixpoint gc_all (now : Z) (nss : list bytes) (reclaimed : Z) : method Store StorageError Z :=
  match nss with
  | [] => mret reclaimed
  | ns :: nss => n ← gc_ns now ns; gc_all now nss (Z.min u64_max (reclaimed + n))
  end.

Definition refuse_peers (s : Store) : res unit :=
  guard_err (negb (bool_decide (peer_clocks s = ∅))) (Io (RefusingToCompact (size (peer_clocks s)))).

Definition gc_live (now : Z) : method Store StorageError Z :=
  s ← self;
  _ ← lift (refuse_peers s);
  n ← gc_all now (namespaces s).*1 0;
  _ ← update checkpoint;
  mret n.

(** Offline: the records come from the store opened at the start, the files
    change under it. *)
Definition compact_ns (s : Store) (now : Z) (acc : disk * Z) (ns : bytes) : disk * Z :=
  let '(d, reclaimed) := acc in
  let nd := default (Log.mkDir ∅ None) (dirs d !! ns_dir ns) in
  let nd' := match live_records s ns now with
             | [] => Log.set_segs nd (Log.remove_segments (Log.segs nd))
             | out => Log.write_fresh nd out
             end in
  (mkDisk (snap d) (<[ns_dir ns := nd']> (dirs d)),
   Z.min u64_max (reclaimed + Z.max 0 (seg_bytes nd - seg_bytes nd'))).

Definition compact_dir (now : Z) : method disk StorageError Z :=
  s ← open_durable false now;
  _ ← lift (refuse_peers s);
  d ← self;
  let '(d, reclaimed) := fold_left (compact_ns s now) (namespaces s).*1 (d, 0) in
  _ ← update (fun _ => d);
  s2 ← open_durable false now;
  _ ← update (fun _ => sdisk (checkpoint s2));
  mret reclaimed.

End snapshot.

End Snapshot.
