(* ===== verification/SnapshotSpec.v ===== *)
(** The snapshot holds the whole in-memory state: [load_snap] reads back what
    [checkpoint] wrote, and reopening a checkpointed store restores it. *)

From S2P Require Import Prelude Crc32 LogFormat Log LogSpec Utf8 StoreTypes Store StoreSpec Snapshot.
Import LogFormat Utf8 LogSpec Store StoreSpec Snapshot.

Module SnapshotSpec.

Section spec.
Context `{Sha256, HexCrate, SerdeJson}.

(** ** What fits the format *)

Definition small (l : bytes) : Prop := Z.of_nat (length l) < 2 ^ 32.

Definition wf_entry (e : Entry) : Prop :=
  match e with
  | Lww v => wf_version v
  | Register vs => Forall wf_version vs /\ Z.of_nat (length vs) < 2 ^ 32
  end.

(** The lengths and counts the snapshot writes as 32-bit numbers do fit, and
    names and meta keys are [String]s. *)
Record snap_ok (s : Store) : Prop := {
  sk_rev : is_u64 (revision s);
  sk_meta k v : meta s !! k = Some v -> utf8_valid k = true /\ small k /\ small v;
  sk_meta_n : Z.of_nat (size (meta s)) < 2 ^ 32;
  sk_peer k d : peer_clocks s !! k = Some d -> utf8_valid k = true /\ small k /\ is_i64 d;
  sk_peer_n : Z.of_nat (size (peer_clocks s)) < 2 ^ 32;
  sk_pol_n : Z.of_nat (size (policies s)) < 2 ^ 32;
  sk_index ns k e : index s !! (ns, k) = Some e -> small k /\ wf_entry e;
  sk_index_n : Z.of_nat (size (index s)) < 2 ^ 32;
  sk_tomb ns k h : tombs s !! (ns, k) = Some h -> small k /\ is_u64 h;
  sk_tomb_n : Z.of_nat (size (tombs s)) < 2 ^ 32;
  sk_seq ns L : logs s !! ns = Some L -> Log.seq L + 1 < 2 ^ 64;
}.

(** ** Lists of items *)

Lemma decodes_list {A} (m : reader A) (w : A -> bytes) l :
  Forall (fun a => decodes m (w a) a) l -> Z.of_nat (length l) < 2 ^ 32 ->
  decodes (r_list m) (write_list w l) l.
Proof.
  intros Hl Hn. unfold r_list, write_list.
  eapply decodes_bind; [apply decodes_u32; lia|]. rewrite Nat2Z.id. by apply decodes_times.
Qed.

Lemma decodes_eq {A} (m : reader A) x a a' : a = a' -> decodes m x a -> decodes m x a'.
Proof. by intros ->. Qed.

Lemma decodes_lift {A B} (o : res A) (k : A -> reader B) a y b :
  o = Ok a -> decodes (k a) y b -> decodes (lift o ≫= k) y b.
Proof. by intros ->. Qed.

Lemma decodes_pair {A B C} (m : reader A) (n : reader B) (f : A -> B -> C) x y a b :
  decodes m x a -> decodes n y b -> decodes (a ← m; b ← n; mret (f a b)) (x ++ y) (f a b).
Proof. intros Hm Hn. eapply decodes_bind; [done|]. by apply (decodes_end n (f a)). Qed.

Lemma decodes_meta kv : utf8_valid kv.1 = true -> small kv.1 -> small kv.2 ->
  decodes read_meta (w_bytes kv.1 ++ w_bytes kv.2) kv.
Proof.
  destruct kv as [k v]. cbn [fst snd]. intros Hu Hk Hv. unfold read_meta.
  eapply (decodes_eq _ _ (from_utf8_lossy k, v)); [by rewrite from_utf8_lossy_valid|].
  apply (decodes_pair r_bytes r_bytes (fun k v => (from_utf8_lossy k, v))); by apply decodes_bytes.
Qed.

Lemma decodes_peer nd : utf8_valid nd.1 = true -> small nd.1 -> is_i64 nd.2 ->
  decodes read_peer (w_bytes nd.1 ++ w_i64 nd.2) nd.
Proof.
  destruct nd as [k d]. cbn [fst snd]. intros Hu Hk Hv. unfold read_peer.
  eapply (decodes_eq _ _ (from_utf8_lossy k, d)); [by rewrite from_utf8_lossy_valid|].
  apply (decodes_pair r_bytes r_i64 (fun k d => (from_utf8_lossy k, d)));
    [by apply decodes_bytes|by apply decodes_i64].
Qed.

Lemma decodes_tomb kh : small kh.1 -> is_u64 kh.2 ->
  decodes read_tomb (w_bytes kh.1 ++ w_u64 kh.2) kh.
Proof.
  destruct kh as [k h]. cbn [fst snd]. intros Hk Hh. unfold read_tomb.
  apply (decodes_pair r_bytes r_u64 pair); [by apply decodes_bytes|by apply decodes_u64].
Qed.

Lemma decodes_entry ns ke : small ke.1 -> wf_entry ke.2 ->
  decodes (read_entry read_version ns) (write_entry ke) ke.
Proof.
  destruct ke as [k e]. cbn [fst snd]. intros Hk He. unfold read_entry, write_entry. cbn [fst snd].
  eapply decodes_bind; [by apply decodes_bytes|].
  destruct e as [v|vs]; (eapply decodes_bind; [apply decodes_u8|]); cbv iota.
  - by apply (decodes_end read_version (fun v => (k, Lww v))), decodes_version.
  - apply (decodes_end (r_list read_version) (fun vs => (k, Register vs))).
    destruct He as [Hvs Hn]. apply decodes_list; [|done].
    eapply Forall_impl; [exact Hvs|]. intros v Hv. by apply decodes_version.
Qed.

(** ** The entries of a namespace *)

Lemma elem_of_of_ns {V} (m : gmap nskey V) ns k v : (k, v) ∈ of_ns m ns <-> m !! (ns, k) = Some v.
Proof.
  unfold of_ns. rewrite list_elem_of_omap. split.
  - intros ([[n k'] v'] & Hin & E). apply elem_of_btree_iter in Hin.
    case_bool_decide; simplify_eq. done.
  - intros Hm. exists ((ns, k), v). split; [by apply elem_of_btree_iter|].
    by rewrite bool_decide_eq_true_2.
Qed.

Lemma of_ns_keys {V} (m : gmap nskey V) ns : NoDup (of_ns m ns).*1.
Proof.
  unfold of_ns. pose proof (NoDup_fst_btree_iter m) as Hnd.
  assert (forall l : list (nskey * V), NoDup l.*1 ->
    NoDup (omap (fun '((n, k), e) => if bool_decide (n = ns) then Some (k, e) else None) l).*1) as Hg.
  { clear. induction l as [|[[n k] v] l IH]; simpl; [by constructor|]. rewrite NoDup_cons. intros [Hni Hnd].
    case_bool_decide as Hn; [|by apply IH]. subst n. simpl. apply NoDup_cons. split; [|by apply IH].
    intros Hin. apply Hni. apply list_elem_of_fmap in Hin as ([k' v'] & -> & Hin).
    apply list_elem_of_omap in Hin as ([[n2 k2] v2] & Hin & E). case_bool_decide; simplify_eq.
    apply list_elem_of_fmap. by exists ((ns, k'), v'). }
  by apply Hg.
Qed.

Lemma length_of_ns {V} (m : gmap nskey V) ns : (length (of_ns m ns) <= size m)%nat.
Proof.
  rewrite <-(length_btree_iter m). unfold of_ns. generalize (btree_iter m). clear.
  induction l as [|[[n k] v] l IH]; simpl; [done|]. unfold omap in IH. case_bool_decide; simpl; lia.
Qed.

(** ** One namespace, then the whole file *)

Definition snap_of (s : Store) (np : bytes * ConflictPolicy) : ns_snap :=
  let '(sz, h) := default (0, zero32) (head s np.1) in
  mkNsSnap np.1 np.2 sz h (merge_sort key_le (of_ns (index s) np.1)) (of_ns (tombs s) np.1).

Lemma head_ok s ns sz h : store_ok s -> snap_ok s -> default (0, zero32) (head s ns) = (sz, h) ->
  is_u64 sz /\ length h = 32%nat.
Proof.
  intros Hok Hsk. unfold head. destruct (logs s !! ns) as [L|] eqn:HL; simpl; intros [= <- <-].
  - destruct (ok_log s Hok ns L HL) as [_ (rs & L' & d & HL' & Hd & Hlog)].
    rewrite HL in HL'. injection HL' as <-. split; [|by eapply is_log_head].
    destruct (is_log_facts _ _ _ Hlog) as (Hs & _). pose proof (sk_seq s Hsk ns L HL).
    unfold is_u64. lia.
  - done.
Qed.

Lemma decodes_ns s ns p : store_ok s -> snap_ok s -> policies s !! ns = Some p ->
  decodes (read_ns read_version) (write_ns s (ns, p)) (snap_of s (ns, p)).
Proof.
  intros Hok Hsk Hp. unfold read_ns, write_ns, snap_of. cbn [fst snd].
  destruct (default (0, zero32) (head s ns)) as [sz h] eqn:Eh.
  destruct (head_ok s ns sz h Hok Hsk Eh) as [Hsz Hh].
  assert (valid_ns ns = true) as Hv by (apply (ok_name s Hok); by eexists).
  eapply decodes_bind.
  { apply decodes_bytes. apply valid_ns_length in Hv. lia. }
  rewrite (from_utf8_lossy_valid ns) by (by apply valid_ns_utf8).
  eapply decodes_bind; [apply decodes_u8|].
  eapply decodes_lift; [apply policy_roundtrip|].
  eapply decodes_bind; [by apply decodes_u64|].
  eapply decodes_bind; [by apply decodes_fixed|].
  apply (decodes_pair (r_list _) (r_list _) (mkNsSnap ns p sz h)); apply decodes_list.
  - rewrite (merge_sort_Permutation key_le). apply Forall_forall. intros [k e] Hin.
    apply elem_of_of_ns in Hin. apply decodes_entry; simpl; eapply (sk_index s Hsk); done.
  - rewrite (merge_sort_Permutation key_le). pose proof (length_of_ns (index s) ns).
    pose proof (sk_index_n s Hsk). lia.
  - apply Forall_forall. intros [k t] Hin. apply elem_of_of_ns in Hin.
    apply decodes_tomb; simpl; eapply (sk_tomb s Hsk); done.
  - pose proof (length_of_ns (tombs s) ns). pose proof (sk_tomb_n s Hsk). lia.
Qed.

Definition data_of (s : Store) : snap_data :=
  (revision s, btree_iter (meta s), btree_iter (peer_clocks s),
   map (snap_of s) (btree_iter (policies s))).

Lemma decodes_list_map {A B} (m : reader B) (w : A -> bytes) (f : A -> B) l :
  Forall (fun a => decodes m (w a) (f a)) l -> Z.of_nat (length l) < 2 ^ 32 ->
  decodes (r_list m) (write_list w l) (map f l).
Proof.
  intros Hl Hn. unfold r_list, write_list.
  eapply decodes_bind; [apply decodes_u32; lia|]. rewrite Nat2Z.id. clear Hn.
  induction Hl as [|a l Ha Hl IH]; [apply decodes_ret|].
  cbn [length r_times map]. rewrite mjoin_cons. eapply decodes_bind; [done|].
  by apply (decodes_end _ (cons (f a))).
Qed.

Lemma read_snapshot s : store_ok s -> snap_ok s ->
  (read_snap read_version (mkRd (drop 8 (snapshot_bytes s)) 0)).2 = Ok (data_of s).
Proof.
  intros Hok Hsk. unfold snapshot_bytes.
  change (drop 8 (SNAP_MAGIC ++ ?x)) with x.
  set (body := w_u64 (revision s) ++ _).
  assert (decodes (rev ← r_u64; ms ← r_list read_meta; pcs ← r_list read_peer;
                   nss ← r_list (read_ns read_version); mret (rev, ms, pcs, nss)) body (data_of s)) as Hd.
  { unfold body, data_of. eapply decodes_bind; [apply decodes_u64, Hsk|].
    eapply decodes_bind.
    { apply decodes_list; [|rewrite length_btree_iter; apply Hsk].
      apply Forall_forall. intros [k v] Hin. apply elem_of_btree_iter, (sk_meta s Hsk) in Hin.
      apply decodes_meta; apply Hin. }
    eapply decodes_bind.
    { apply decodes_list; [|rewrite length_btree_iter; apply Hsk].
      apply Forall_forall. intros [k d] Hin. apply elem_of_btree_iter, (sk_peer s Hsk) in Hin.
      apply decodes_peer; apply Hin. }
    apply (decodes_end (r_list _) (fun nss => (revision s, btree_iter (meta s),
             btree_iter (peer_clocks s), nss))).
    apply decodes_list_map; [|rewrite length_btree_iter; apply Hsk].
    apply Forall_forall. intros [ns p] Hin. apply elem_of_btree_iter in Hin.
    by apply decodes_ns. }
  specialize (Hd [] []). rewrite app_nil_r in Hd. simpl in Hd.
  revert Hd. unfold read_snap. unfold mbind, method_bind.
  destruct (r_u64 _) as [r1 [rev|e|]]; try done.
  destruct (r_list read_meta r1) as [r2 [ms|e|]]; try done.
  destruct (r_list read_peer r2) as [r3 [pcs|e|]]; try done.
  destruct (r_list (read_ns read_version) r3) as [r4 [nss|e|]]; try done.
  intros [= -> -> -> -> ->]. unfold r_done. simpl. by rewrite Nat.eqb_refl.
Qed.

(** ** Loading *)

Lemma insert_all_union {K V} `{Countable K} (l : list (K * V)) (m : gmap K V) :
  NoDup l.*1 -> insert_all l m = list_to_map l ∪ m.
Proof.
  unfold insert_all. revert m. induction l as [|[k v] l IH]; intros m Hnd; simpl.
  { by rewrite map_empty_union. }
  apply NoDup_cons in Hnd as [Hni Hnd]. rewrite IH by done.
  rewrite <-insert_union_l, insert_union_r; [done|]. by apply not_elem_of_list_to_map_1.
Qed.

Lemma insert_all_iter {K V} `{Countable K, Ord K} (m : gmap K V) : insert_all (btree_iter m) ∅ = m.
Proof.
  rewrite insert_all_union by apply NoDup_fst_btree_iter.
  by rewrite btree_iter_list_to_map, map_union_empty.
Qed.

(** Inserting a namespace's entries under its name. *)
Lemma insert_ns_lookup {V} (m0 m : gmap nskey V) ns es (x : nskey) :
  es ≡ₚ of_ns m ns ->
  insert_all (map (fun ke => ((ns, ke.1), ke.2)) es) m0 !! x
  = if decide (x.1 = ns /\ is_Some (m !! x)) then m !! x else m0 !! x.
Proof.
  intros Hp. set (l := map (fun ke : bytes * V => ((ns, ke.1), ke.2)) es).
  assert (NoDup l.*1) as Hnd.
  { unfold l. rewrite <-list_fmap_compose.
    replace (_ <$> es) with (pair ns <$> es.*1) by (by rewrite <-list_fmap_compose).
    apply (NoDup_fmap_2 _). rewrite Hp. apply of_ns_keys. }
  assert (forall v, (x, v) ∈ l <-> x.1 = ns /\ m !! x = Some v) as Hin.
  { intros v. destruct x as [n k]. unfold l. rewrite list_elem_of_fmap. split.
    - intros ([k' v'] & [= -> -> ->] & Hin). rewrite Hp in Hin.
      by apply elem_of_of_ns in Hin.
    - intros [Hn Hm]. simpl in Hn. subst n. exists (k, v). split; [done|].
      rewrite Hp. by apply elem_of_of_ns. }
  rewrite insert_all_union by done. case_decide as Hx.
  - destruct Hx as [Hn [v Hv]]. rewrite Hv. apply lookup_union_Some_l.
    apply elem_of_list_to_map; [done|]. by apply Hin.
  - apply lookup_union_r. apply not_elem_of_list_to_map_1. intros Hl.
    apply list_elem_of_fmap in Hl as ([x' v] & -> & Hl). simpl in *.
    apply Hin in Hl as [? Hm]. apply Hx. rewrite Hm. eauto.
Qed.

Lemma load_ns_lookup s s0 np x :
  index (load_ns s0 (snap_of s np)) !! x
    = (if decide (x.1 = np.1 /\ is_Some (index s !! x)) then index s !! x else index s0 !! x)
  /\ tombs (load_ns s0 (snap_of s np)) !! x
    = (if decide (x.1 = np.1 /\ is_Some (tombs s !! x)) then tombs s !! x else tombs s0 !! x)
  /\ policies (load_ns s0 (snap_of s np)) = <[np.1 := np.2]> (policies s0).
Proof.
  unfold snap_of. destruct (default _ _) as [sz h]. unfold load_ns. simpl. split_and!; [| |done].
  - apply insert_ns_lookup. apply (merge_sort_Permutation key_le).
  - by apply insert_ns_lookup.
Qed.

(** The rest of the state while namespaces are loaded. *)
Definition same_frame (s s' : Store) : Prop :=
  sdisk s' = sdisk s /\ logs s' = logs s /\ meta s' = meta s /\ peer_clocks s' = peer_clocks s
  /\ revision s' = revision s /\ durable s' = durable s.

Lemma load_all_lookup s l s0 :
  let s' := fold_left load_ns (map (snap_of s) l) s0 in
  same_frame s0 s' /\ policies s' = insert_all l (policies s0)
  /\ (forall x, index s' !! x =
       if decide (x.1 ∈ l.*1 /\ is_Some (index s !! x)) then index s !! x else index s0 !! x)
  /\ (forall x, tombs s' !! x =
       if decide (x.1 ∈ l.*1 /\ is_Some (tombs s !! x)) then tombs s !! x else tombs s0 !! x).
Proof.
  revert s0. induction l as [|np l IH]; intros s0; simpl.
  { split_and!; try done; intros x; rewrite decide_False; try done; set_solver. }
  destruct (IH (load_ns s0 (snap_of s np))) as (Hf & Hp & Hi & Ht). split_and!.
  - destruct Hf as (? & ? & ? & ? & ? & ?). unfold snap_of in *. destruct (default _ _). done.
  - rewrite Hp. by rewrite (proj2 (proj2 (load_ns_lookup s s0 np (([], []) : nskey)))).
  - intros x. rewrite Hi, (proj1 (load_ns_lookup s s0 np x)).
    repeat case_decide; try done; set_solver.
  - intros x. rewrite Ht, (proj1 (proj2 (load_ns_lookup s s0 np x))).
    repeat case_decide; try done; set_solver.
Qed.

Lemma load_restores s d dur : store_ok s ->
  let s' := load_data (data_of s) (open_store d dur) in
  policies s' = policies s /\ index s' = index s /\ tombs s' = tombs s /\ meta s' = meta s
  /\ peer_clocks s' = peer_clocks s /\ revision s' = revision s
  /\ sdisk s' = d /\ logs s' = ∅ /\ durable s' = dur.
Proof.
  intros Hok. cbn -[load_ns].
  match goal with |- context [fold_left load_ns _ ?s0] => set (s1 := s0) end.
  destruct (load_all_lookup s (btree_iter (policies s)) s1) as ((Hd & Hl & Hm & Hpc & Hr & Hdu) & Hp & Hi & Ht).
  assert (forall ns, is_Some (policies s !! ns) -> ns ∈ (btree_iter (policies s)).*1) as Hin.
  { intros ns [p Hns]. apply list_elem_of_fmap. exists (ns, p). split; [done|].
    by apply elem_of_btree_iter. }
  split_and!.
  - rewrite Hp. apply insert_all_iter.
  - apply map_eq. intros [ns k]. rewrite Hi. case_decide as Hx; [done|].
    destruct (index s !! (ns, k)) as [e|] eqn:E; [|apply lookup_empty].
    exfalso. apply Hx. split; [|by eexists]. apply Hin. simpl.
    destruct (ok_shape s Hok _ _ _ E) as (p & -> & _). by eexists.
  - apply map_eq. intros [ns k]. rewrite Ht. case_decide as Hx; [done|].
    destruct (tombs s !! (ns, k)) as [h|] eqn:E; [|apply lookup_empty].
    exfalso. apply Hx. split; [|by eexists]. apply Hin. simpl. by eapply (ok_tombs s Hok).
  - rewrite Hm. apply insert_all_iter.
  - rewrite Hpc. apply insert_all_iter.
  - by rewrite Hr.
  - by rewrite Hd.
  - by rewrite Hl.
  - by rewrite Hdu.
Qed.

Lemma load_snapshot s d dur : store_ok s -> snap_ok s ->
  load_snap (snapshot_bytes s) (open_store d dur)
  = Ok (load_data (data_of s) (open_store d dur),
        snap_heads (map (snap_of s) (btree_iter (policies s)))).
Proof.
  intros Hok Hsk. unfold load_snap.
  assert (take 8 (snapshot_bytes s) = SNAP_MAGIC) as ->.
  { unfold snapshot_bytes. by rewrite take_app_length'. }
  destruct (Nat.ltb_spec (length (snapshot_bytes s)) 8) as [Hl|_].
  { unfold snapshot_bytes in Hl. rewrite length_app in Hl. simpl in Hl. lia. }
  cbn [guard_err mbind outcome_bind].
  rewrite (bool_decide_eq_false_2 (SNAP_MAGIC = SNAP_MAGIC_V1)) by discriminate.
  rewrite (bool_decide_eq_true_2 (SNAP_MAGIC = SNAP_MAGIC)) by done.
  cbn [negb andb guard_err mbind outcome_bind]. by rewrite (read_snapshot s Hok Hsk).
Qed.

(** ** Reopening *)

(** Every directory on disk belongs to a namespace. *)
Definition tidy (s : Store) : Prop :=
  forall n d, dirs (sdisk s) !! n = Some d -> exists ns, n = ns_dir ns /\ is_Some (policies s !! ns).

Lemma head_keys s (l : list (bytes * ConflictPolicy)) :
  (map (fun n => (sn_ns n, (sn_seq n, sn_hash n))) (map (snap_of s) l)).*1 = l.*1.
Proof.
  induction l as [|np l IH]; [done|]. cbn [map]. rewrite !fmap_cons, IH. f_equal.
  unfold snap_of. by destruct (default _ _).
Qed.

Lemma heads_lookup s ns p L : store_ok s -> policies s !! ns = Some p -> logs s !! ns = Some L ->
  snap_heads (map (snap_of s) (btree_iter (policies s))) !! ns = Some (Log.seq L, Log.head L).
Proof.
  intros Hok Hp HL. unfold snap_heads. set (l := map _ (map _ _)).
  assert (l.*1 = (btree_iter (policies s)).*1) as Hk by apply head_keys.
  assert (NoDup l.*1) as Hnd by (rewrite Hk; apply NoDup_fst_btree_iter).
  rewrite insert_all_union, map_union_empty by done. apply elem_of_list_to_map; [done|].
  unfold l. rewrite !list_elem_of_fmap. exists (snap_of s (ns, p)).
  split; [|apply list_elem_of_fmap; exists (ns, p); split; [done|by apply elem_of_btree_iter]].
  unfold snap_of, head. simpl. by rewrite HL.
Qed.

Lemma heads_dom s ns : is_Some (snap_heads (map (snap_of s) (btree_iter (policies s))) !! ns) ->
  is_Some (policies s !! ns).
Proof.
  unfold snap_heads. set (l := map _ (map _ _)).
  assert (l.*1 = (btree_iter (policies s)).*1) as Hk by apply head_keys.
  rewrite insert_all_union, map_union_empty by (rewrite Hk; apply NoDup_fst_btree_iter).
  intros [x Hx]. apply elem_of_list_to_map_2, (list_elem_of_fmap_2 fst) in Hx. simpl in Hx.
  rewrite Hk in Hx. apply list_elem_of_fmap in Hx as ([n p] & -> & Hin).
  apply elem_of_btree_iter in Hin. by eexists.
Qed.

(** The namespaces found on a disk with the directories of [s]. *)
Lemma names_found d s : (forall n, is_Some (dirs d !! n) <-> is_Some (dirs (sdisk s) !! n)) ->
  store_ok s -> tidy s ->
  NoDup (ns_names d) /\ forall ns, ns ∈ ns_names d <-> is_Some (policies s !! ns).
Proof.
  intros Hsame Hok Ht. unfold ns_names. split.
  { rewrite (merge_sort_Permutation cle). apply NoDup_remove_dups. }
  intros ns. rewrite (merge_sort_Permutation cle), elem_of_remove_dups, list_elem_of_omap. split.
  - intros (n & Hn & Hp). apply list_elem_of_fmap in Hn as ([n' x] & -> & Hin). apply elem_of_btree_iter in Hin.
    destruct (proj1 (Hsame n')) as [y Hy]; [by eexists|]. apply Ht in Hy as (ns' & -> & Hs).
    cbn [fst] in Hp. rewrite parse_ns_dir_of in Hp; [by simplify_eq|by apply (ok_name s Hok)].
  - intros [p Hp]. destruct (ok_sidecar s Hok ns p Hp) as (x & Hx & _).
    destruct (proj2 (Hsame (ns_dir ns))) as [y Hy]; [by eexists|].
    exists (ns_dir ns). split; [|apply parse_ns_dir_of, (ok_name s Hok); by eexists].
    apply list_elem_of_fmap. exists (ns_dir ns, y). split; [done|]. by apply elem_of_btree_iter.
Qed.

Lemma with_disk_id s : with_disk (sdisk s) s = s.
Proof. by destruct s. Qed.

Lemma reinsert_dir s n d : dirs (sdisk s) !! n = Some d ->
  mkDisk (snap (sdisk s)) (<[n := d]> (dirs (sdisk s))) = sdisk s.
Proof. intros Hd. rewrite insert_id by done. by destruct (sdisk s). Qed.

Lemma with_policy_id s ns p : policies s !! ns = Some p -> with_policy ns p s = s.
Proof. intros Hp. unfold with_policy. rewrite insert_id by done. by destruct s. Qed.

(** Opening a namespace that the snapshot covers to its end. *)
Lemma open_ns_run heads s ns p L d rs :
  dirs (sdisk s) !! ns_dir ns = Some d -> is_log d L rs -> policies s !! ns = Some p ->
  Log.sidecar d = Some [policy_to_u8 p] -> heads !! ns = Some (Log.seq L, Log.head L) ->
  Log.seq L + 1 < 2 ^ 64 ->
  open_ns heads (Log.durable L) ns s = (with_log ns (ns_dir ns) d L s, Ok tt).
Proof.
  intros Hd Hlog Hp Hsc Hh Hseq. unfold open_ns.
  rewrite (method_bind_step self _ s s s eq_refl).
  rewrite (method_bind_step _ _ s s d) by (unfold lift; by rewrite Hd).
  rewrite (method_bind_step _ _ s s (d, L, None))
    by (unfold lift; by rewrite (recover_is_log _ _ _ _ Hlog)).
  cbv beta iota. rewrite (method_bind_step _ _ s s tt)
    by (unfold update; by rewrite reinsert_dir, with_disk_id).
  rewrite (method_bind_step _ _ s s (Some p))
    by (unfold lift, read_policy_sidecar; rewrite Hsc; simpl; by rewrite policy_roundtrip).
  rewrite (method_bind_step _ _ s s p)
    by (unfold lift; rewrite Hp; by rewrite bool_decide_eq_false_2 by naive_solver).
  rewrite Hh. cbn [from_option id].
  rewrite (method_bind_step _ _ s s tt)
    by (unfold lift, guard_err; by rewrite Z.ltb_irrefl).
  rewrite (method_bind_step _ _ s s tt) by (unfold update; by rewrite with_policy_id).
  destruct (is_log_facts _ _ _ Hlog) as (Hs & _).
  rewrite (method_bind_step _ _ s s []).
  2: { unfold lift, Log.read_records. rewrite u64_small by (unfold is_u64; lia).
       destruct (Z.eqb_spec (Log.seq L + 1) 0); [done|].
       by destruct (Z.ltb_spec (Log.seq L) (Log.seq L + 1)); [|lia]. }
  rewrite (method_bind_step _ _ s s (Log.head L)) by done.
  rewrite (method_bind_step _ _ s s tt)
    by (unfold lift, guard_err; by rewrite bool_decide_eq_true_2). done.
Qed.

Definition same_but_logs (s s' : Store) : Prop :=
  sdisk s' = sdisk s /\ policies s' = policies s /\ index s' = index s /\ tombs s' = tombs s
  /\ meta s' = meta s /\ peer_clocks s' = peer_clocks s /\ revision s' = revision s
  /\ durable s' = durable s.

Lemma open_all_run s heads names s0 : store_ok s -> snap_ok s ->
  (forall ns p L, policies s !! ns = Some p -> logs s !! ns = Some L ->
     heads !! ns = Some (Log.seq L, Log.head L)) ->
  (forall ns, ns ∈ names -> is_Some (policies s !! ns)) ->
  dirs (sdisk s0) = dirs (sdisk s) -> policies s0 = policies s ->
  exists s1, for_each (open_ns heads (durable s)) names s0 = (s1, Ok tt) /\ same_but_logs s0 s1
    /\ forall ns, logs s1 !! ns = if decide (ns ∈ names) then logs s !! ns else logs s0 !! ns.
Proof.
  intros Hok Hsk Hheads. revert s0. induction names as [|ns names IH]; intros s0 Hin Hd Hp.
  { exists s0. split_and!; try done. }
  destruct (Hin ns) as [p Hns]; [set_solver|].
  destruct (ok_sidecar s Hok ns p Hns) as (d & Hdd & Hsc).
  destruct (proj2 (ok_dom s Hok ns)) as [L HL]; [by eexists|].
  destruct (ok_log s Hok ns L HL) as [Hdu (rs & L' & d' & HL' & Hd' & Hlog)].
  assert (L' = L) as -> by congruence. assert (d' = d) as -> by congruence.
  assert (open_ns heads (durable s) ns s0 = (with_log ns (ns_dir ns) d L s0, Ok tt)) as E.
  { rewrite <-Hdu. eapply open_ns_run; [by rewrite Hd|done|by rewrite Hp|done|by eapply Hheads|].
    by eapply (sk_seq s Hsk). }
  destruct (IH (with_log ns (ns_dir ns) d L s0)) as (s1 & E1 & Hs1 & Hl1).
  { intros n Hn. apply Hin. by right. }
  { simpl. rewrite Hd. by apply insert_id. }
  { done. }
  exists s1. cbn [for_each]. rewrite (method_bind_step _ _ _ _ _ E), E1. split_and!; [done| |].
  - destruct Hs1 as (Hsd & ?). split; [|done]. rewrite Hsd. simpl.
    apply reinsert_dir. by rewrite Hd.
  - intros n. rewrite Hl1. simpl. destruct (decide (n = ns)) as [->|Hn].
    + rewrite (decide_True (P := ns ∈ ns :: names)) by set_solver. case_decide; [done|].
      by rewrite lookup_insert_eq, HL.
    + rewrite lookup_insert_ne by done. repeat case_decide; try done; set_solver.
Qed.

Lemma rebuild_same s : same_but_sec s (rebuild_secondary_indexes s).
Proof.
  unfold rebuild_secondary_indexes. generalize (btree_iter (policies s)).*1.
  assert (same_but_sec s (with_sec ∅ s)) as Hs by done. revert Hs.
  generalize (with_sec ∅ s). intros s0 Hs l. revert s0 Hs. induction l as [|ns l IH]; intros s0 Hs; [done|].
  apply IH. case_match; [done|]. eapply same_but_sec_trans; [done|apply rebuild_sec_ns_same].
Qed.

(** A rebuild starts from the empty secondary index, so the old one does not
    matter. *)
Lemma rebuild_from s1 s2 :
  sdisk s1 = sdisk s2 /\ logs s1 = logs s2 /\ policies s1 = policies s2 /\ index s1 = index s2
  /\ tombs s1 = tombs s2 /\ meta s1 = meta s2 /\ peer_clocks s1 = peer_clocks s2
  /\ revision s1 = revision s2 /\ durable s1 = durable s2 ->
  rebuild_secondary_indexes s1 = rebuild_secondary_indexes s2.
Proof.
  destruct s1, s2. cbn. intros (-> & -> & -> & -> & -> & -> & -> & -> & ->). done.
Qed.

(** The secondary index is computed without looking at the disk. *)
Lemma refresh_with_disk d ns k s :
  refresh_sec_index_for ns k (with_disk d s) = with_disk d (refresh_sec_index_for ns k s).
Proof.
  unfold refresh_sec_index_for.
  change (remove_from_sec_index ns k (with_disk d s))
    with (with_disk d (remove_from_sec_index ns k s)).
  generalize (remove_from_sec_index ns k s). intros s0.
  change (index_fields (with_disk d s0) ns) with (index_fields s0 ns).
  change (get (with_disk d s0) ns k) with (get s0 ns k). by repeat case_match.
Qed.

Lemma fold_with_disk {A} (f : Store -> A -> Store) d l s :
  (forall s a, f (with_disk d s) a = with_disk d (f s a)) ->
  fold_left f l (with_disk d s) = with_disk d (fold_left f l s).
Proof. intros Hf. revert s. induction l as [|a l IH]; intros s; [done|]. cbn. by rewrite Hf, IH. Qed.

Lemma rebuild_ns_with_disk d ns s :
  rebuild_sec_index_ns ns (with_disk d s) = with_disk d (rebuild_sec_index_ns ns s).
Proof.
  unfold rebuild_sec_index_ns.
  change (clear_sec_index_ns ns (with_disk d s)) with (with_disk d (clear_sec_index_ns ns s)).
  generalize (clear_sec_index_ns ns s). intros s0.
  change (index_fields (with_disk d s0) ns) with (index_fields s0 ns).
  change (index (with_disk d s0)) with (index s0). case_match; [done|].
  apply fold_with_disk. intros s' k. apply refresh_with_disk.
Qed.

Lemma rebuild_with_disk d s :
  rebuild_secondary_indexes (with_disk d s) = with_disk d (rebuild_secondary_indexes s).
Proof.
  unfold rebuild_secondary_indexes.
  change (with_sec ∅ (with_disk d s)) with (with_disk d (with_sec ∅ s)).
  change (policies (with_disk d s)) with (policies s).
  apply fold_with_disk. intros s' ns.
  change (index_fields (with_disk d s') ns) with (index_fields s' ns).
  case_match; [done|]. apply rebuild_ns_with_disk.
Qed.

(** Opening the directory of a checkpointed store. *)
Lemma reopen_exact s now :
  store_ok s -> snap_ok s -> tidy s -> is_Some (meta s !! CREATED_MS) ->
  let d := sdisk (checkpoint s) in
  open_durable (durable s) now d = (d, Ok (rebuild_secondary_indexes (with_disk d s))).
Proof.
  intros Hok Hsk Ht [ms Hms] d.
  destruct (load_restores s d (durable s) Hok) as (Hp & Hi & Htb & Hm & Hpc & Hr & Hd & Hl & Hdu).
  set (s0 := load_data (data_of s) (open_store d (durable s))) in *.
  set (heads := snap_heads (map (snap_of s) (btree_iter (policies s)))).
  destruct (names_found (sdisk s) s ltac:(done) Hok Ht) as [Hnd Hnames].
  destruct (open_all_run s heads (ns_names (sdisk s)) s0 Hok Hsk) as (s1 & E1 & Hs1 & Hl1).
  { intros ns p L. by apply heads_lookup. }
  { intros ns. by rewrite Hnames. }
  { by rewrite Hd. }
  { done. }
  destruct Hs1 as (Hd1 & Hp1 & Hi1 & Ht1 & Hm1 & Hpc1 & Hr1 & Hdu1).
  assert (meta s1 !! CREATED_MS = Some ms) as Hc by (by rewrite Hm1, Hm).
  assert (logs s1 = logs s) as Hls.
  { apply map_eq. intros ns. rewrite Hl1. case_decide as Hin; [done|].
    rewrite Hl, lookup_empty. symmetry. apply eq_None_not_Some. intros HL. apply Hin.
    by apply Hnames, (ok_dom s Hok). }
  replace (rebuild_secondary_indexes (with_disk d s)) with (rebuild_secondary_indexes s1).
  - unfold open_durable. rewrite (method_bind_step self _ d d d eq_refl).
    pose proof (load_snapshot s d (durable s) Hok Hsk) as E0.
    change (snap d) with (Some (snapshot_bytes s)).
    rewrite (method_bind_step _ _ d d (s0, heads)) by (unfold lift; by rewrite E0).
    cbv beta iota zeta.
    assert (filter (fun ns => ns ∉ ns_names d) (btree_iter heads).*1 = []) as ->.
    { destruct (filter _ _) as [|ns l] eqn:Ef; [done|]. exfalso.
      pose proof (list_elem_of_here ns l) as Hin. rewrite <-Ef in Hin.
      apply list_elem_of_filter in Hin as [Hni Hin]. apply Hni.
      change (ns_names d) with (ns_names (sdisk s)). rewrite Hnames. apply heads_dom.
      apply list_elem_of_fmap in Hin as ([n x] & -> & Hin). apply elem_of_btree_iter in Hin.
      by eexists. }
    rewrite (method_bind_step _ _ d d tt) by done.
    change (ns_names d) with (ns_names (sdisk s)). rewrite E1.
    rewrite (method_bind_step _ _ d d tt) by (unfold update; by rewrite Hd1, Hd).
    rewrite (method_bind_step _ _ d d tt) by done.
    unfold finish_open, meta_get. by rewrite Hc.
  - apply rebuild_from. change (sdisk (with_disk d s)) with d.
    cbn [with_disk logs policies index tombs meta peer_clocks revision durable].
    split_and!; congruence.
Qed.

(** What does not change in the rebuilt store. *)
Lemma rebuilt_keeps d s : let s' := with_disk d (rebuild_secondary_indexes s) in
  logs s' = logs s /\ policies s' = policies s /\ index s' = index s
  /\ tombs s' = tombs s /\ meta s' = meta s /\ peer_clocks s' = peer_clocks s
  /\ revision s' = revision s /\ durable s' = durable s
  /\ forall ns k, get s' ns k = get s ns k.
Proof.
  destruct (rebuild_same s) as ((? & Hl & Hp & Hd) & Hi & Htb & Hrest). cbv zeta.
  split_and!; try (cbn; tauto). intros ns k. unfold get. cbn. by rewrite Hi, Htb.
Qed.

Lemma reopen_run s now :
  store_ok s -> snap_ok s -> tidy s -> is_Some (meta s !! CREATED_MS) ->
  let d := sdisk (checkpoint s) in
  exists s', open_durable (durable s) now d = (d, Ok s') /\ sdisk s' = d
    /\ logs s' = logs s /\ policies s' = policies s /\ index s' = index s
    /\ tombs s' = tombs s /\ meta s' = meta s /\ peer_clocks s' = peer_clocks s
    /\ revision s' = revision s /\ durable s' = durable s
    /\ forall ns k, get s' ns k = get s ns k.
Proof.
  intros Hok Hsk Ht Hms d. eexists. split; [by apply reopen_exact|].
  change (sdisk (checkpoint s)) with d. rewrite rebuild_with_disk. split; [done|].
  apply rebuilt_keeps.
Qed.

(** ** Properties *)

(** [load_snap] reads from the bytes [checkpoint] writes exactly the
    revision, metadata, peer clocks, policies, entries and tombstones of the
    store, and of each namespace the log position. *)
Theorem snapshot_roundtrip s d dur : store_ok s -> snap_ok s ->
  exists s' heads, load_snap (snapshot_bytes s) (open_store d dur) = Ok (s', heads)
    /\ revision s' = revision s /\ meta s' = meta s /\ peer_clocks s' = peer_clocks s
    /\ policies s' = policies s /\ index s' = index s /\ tombs s' = tombs s
    /\ forall ns p L, policies s !! ns = Some p -> logs s !! ns = Some L ->
         heads !! ns = Some (Log.seq L, Log.head L).
Proof.
  intros Hok Hsk. destruct (load_restores s d dur Hok) as (? & ? & ? & ? & ? & ? & _).
  eexists _, _. split; [by apply load_snapshot|]. split_and!; try done.
  intros ns p L. by apply heads_lookup.
Qed.

(** C3: reopening the directory of a checkpointed store succeeds, changes
    nothing on disk, and gives exactly the checkpointed store over that
    directory, its secondary index recomputed from its entries: every
    namespace's log, policy, entries and tombstones, the metadata, peer
    clocks and revision are as before, so that every key is read as before.
    The secondary index is not saved; the reopened store has the one that
    [rebuild_secondary_indexes] computes for the checkpointed store, which
    need not be the one that store had. *)
Theorem reopen_after_checkpoint s now :
  store_ok s -> snap_ok s -> tidy s -> is_Some (meta s !! CREATED_MS) ->
  let d := sdisk (checkpoint s) in
  exists s', open_durable (durable s) now d = (d, Ok s')
    /\ s' = with_disk d (rebuild_secondary_indexes s)
    /\ (forall ns field start, index_lookup s' ns field start
          = index_lookup (rebuild_secondary_indexes s) ns field start)
    /\ logs s' = logs s /\ policies s' = policies s /\ index s' = index s
    /\ tombs s' = tombs s /\ meta s' = meta s /\ peer_clocks s' = peer_clocks s
    /\ revision s' = revision s /\ durable s' = durable s
    /\ forall ns k, get s' ns k = get s ns k.
Proof.
  intros Hok Hsk Ht Hms d. eexists. split; [by apply reopen_exact|].
  change (sdisk (checkpoint s)) with d. rewrite rebuild_with_disk. split; [done|]. split; [done|].
  apply rebuilt_keeps.
Qed.

End spec.

(** ** A concrete store *)

#[local] Existing Instances toy_sha256 hex_plain toy_json.

(** One namespace, one key, one deleted key, the creation time. *)
Definition saved : Store :=
  run_ops [OpCreate (bs "app") PLww;
           OpPut (bs "app") (bs "k") (bs "v") 7 (node Byte.x01) (node Byte.x02) 0;
           OpDelete (bs "app") (bs "gone") 8 (node Byte.x01) (node Byte.x02);
           OpMetaSet CREATED_MS (le_bytes 8 1700000000000)] (empty_store false).

Lemma saved_ok : store_ok saved.
Proof.
  unfold saved, run_ops.
  cbn [fold_left].
  apply (exec_keeps (OpMetaSet _ _) I).
  apply (exec_keeps (OpDelete _ _ _ _ _)); [wf_single|].
  apply (exec_keeps (OpPut _ _ _ _ _ _ _)); [wf_single|].
  apply (exec_keeps (OpCreate _ _) I), empty_store_ok.
Qed.

Lemma saved_snap_ok : snap_ok saved.
Proof.
  assert (meta saved = {[CREATED_MS := le_bytes 8 1700000000000]}) as Em by vm_decide.
  assert (index saved = {[(bs "app", bs "k") :=
    Lww (mkVersion 7 (node Byte.x01) (node Byte.x02) (bs "v") 1 0)]}) as Ei by vm_decide.
  assert (tombs saved = {[(bs "app", bs "gone") := 8]}) as Et by vm_decide.
  assert (peer_clocks saved = ∅) as Ep by vm_decide.
  constructor.
  - assert (revision saved = 4) as -> by vm_decide. by split.
  - intros k v. rewrite Em, lookup_singleton_Some. intros [<- <-].
    split; [vm_compute; reflexivity|split; vm_compute; reflexivity].
  - by rewrite Em, map_size_singleton.
  - intros k d. by rewrite Ep, lookup_empty.
  - by rewrite Ep.
  - assert (policies saved = {[bs "app" := PLww]}) as -> by vm_decide. by rewrite map_size_singleton.
  - intros ns k e. rewrite Ei, lookup_singleton_Some. intros [[= <- <-] <-].
    split; [reflexivity|]. split_and!; try reflexivity; (split; [discriminate|reflexivity]).
  - by rewrite Ei, map_size_singleton.
  - intros ns k h. rewrite Et, lookup_singleton_Some. intros [[= <- <-] <-].
    split; [reflexivity|]. by split.
  - by rewrite Et, map_size_singleton.
  - intros ns L HL. destruct (decide (ns = bs "app")) as [->|Hn].
    + assert (Log.seq <$> logs saved !! bs "app" = Some 2) as E by vm_decide.
      rewrite HL in E. injection E as ->. lia.
    + exfalso. destruct (proj1 (ok_dom saved saved_ok ns)) as [p Hp]; [by eexists|].
      assert (policies saved = {[bs "app" := PLww]}) as E by vm_decide.
      rewrite E, lookup_singleton_ne in Hp; done.
Qed.

Lemma saved_tidy : tidy saved.
Proof.
  intros n d Hd. exists (bs "app").
  split; [|assert (policies saved = {[bs "app" := PLww]}) as -> by vm_decide; by eexists].
  assert (dom (dirs (sdisk saved)) = {[ns_dir (bs "app")]}) as E by vm_decide.
  apply elem_of_dom_2 in Hd. rewrite E in Hd. by apply elem_of_singleton in Hd.
Qed.

Lemma snapshot_roundtrip_witness :
  exists s' heads, load_snap (snapshot_bytes saved) (open_store (mkDisk None ∅) false)
      = Ok (s', heads)
    /\ revision s' = revision saved /\ meta s' = meta saved
    /\ peer_clocks s' = peer_clocks saved /\ policies s' = policies saved
    /\ index s' = index saved /\ tombs s' = tombs saved
    /\ forall ns p L, policies saved !! ns = Some p -> logs saved !! ns = Some L ->
         heads !! ns = Some (Log.seq L, Log.head L).
Proof.
  apply (snapshot_roundtrip saved (mkDisk None ∅) false); [apply saved_ok|apply saved_snap_ok].
Defined.

Lemma reopen_after_checkpoint_witness :
  let d := sdisk (checkpoint saved) in
  exists s', open_durable (durable saved) 5 d = (d, Ok s')
    /\ s' = with_disk d (rebuild_secondary_indexes saved)
    /\ (forall ns field start, index_lookup s' ns field start
          = index_lookup (rebuild_secondary_indexes saved) ns field start)
    /\ logs s' = logs saved /\ policies s' = policies saved /\ index s' = index saved
    /\ tombs s' = tombs saved /\ meta s' = meta saved /\ peer_clocks s' = peer_clocks saved
    /\ revision s' = revision saved /\ durable s' = durable saved
    /\ forall ns k, get s' ns k = get saved ns k.
Proof.
  apply (reopen_after_checkpoint saved 5);
    [apply saved_ok|apply saved_snap_ok|apply saved_tidy|].
  assert (bool_decide (is_Some (meta saved !! CREATED_MS)) = true) as E by vm_decide.
  by apply bool_decide_eq_true in E.
Defined.

End SnapshotSpec.
