(* ===== verification/Recovery.v ===== *)
(** Crash recovery: opening a directory whose logs have grown since the last
    checkpoint, and whose last append may be torn.  The store that comes back has
    the logs of the one that died, and its entries are those of the checkpoint
    with the records since then replayed on top. *)

From S2P Require Import Prelude Moves Crc32 LogFormat Log LogSpec Base64 Utf8 StoreTypes Store StoreSpec StoreFrame SyncSpec Snapshot SnapshotSpec.
Import LogFormat Utf8 LogSpec Store StoreSpec StoreFrame SyncSpec Snapshot SnapshotSpec.

Module Recovery.

(** ** One key *)

(** What a store knows of a key: its entry and its tombstone. *)
Definition view (m : mem) (ek : nskey) : option Entry * option Z := (m.1 !! ek, m.2 !! ek).

Lemma step_view_other p ns m os n k : n <> ns -> view (sync_step p ns m os) (n, k) = view m (n, k).
Proof.
  intros Hn. unfold view, sync_step. destruct (is_put os.1); cbn [fst snd].
  - destruct p; [destruct (lww_newer _ _)|]; rewrite ?lookup_insert_ne by congruence; done.
  - by rewrite lookup_delete_ne, lookup_insert_ne by congruence.
Qed.

Lemma fold_view_other p ns l m n k : n <> ns -> view (fold_left (sync_step p ns) l m) (n, k) = view m (n, k).
Proof.
  intros Hn. revert m. induction l as [|o l IH]; intros m; [done|]. cbn. rewrite IH. by apply step_view_other.
Qed.

(** What happens to the entries of a namespace depends on them only. *)
Lemma step_view_local p ns m m' os : (forall k, view m (ns, k) = view m' (ns, k)) ->
  forall k, view (sync_step p ns m os) (ns, k) = view (sync_step p ns m' os) (ns, k).
Proof.
  intros Hv k. pose proof (Hv (key os.1)) as Hk. specialize (Hv k). unfold view, sync_step in *.
  injection Hk as Hk1 Hk2. injection Hv as Hv1 Hv2. destruct (decide (k = key os.1)) as [->|Hne].
  - destruct (is_put os.1); cbn [fst snd]; [|by rewrite !lookup_delete_eq, !lookup_insert_eq].
    rewrite Hk1. destruct p; [destruct (lww_newer _ _)|]; rewrite ?lookup_insert_eq; congruence.
  - destruct (is_put os.1); cbn [fst snd].
    + rewrite Hk1. destruct p; [destruct (lww_newer _ _)|]; rewrite ?lookup_insert_ne by congruence; congruence.
    + rewrite !lookup_delete_ne, !lookup_insert_ne by congruence. congruence.
Qed.

Lemma fold_view_local p ns l m m' : (forall k, view m (ns, k) = view m' (ns, k)) ->
  forall k, view (fold_left (sync_step p ns) l m) (ns, k) = view (fold_left (sync_step p ns) l m') (ns, k).
Proof.
  revert m m'. induction l as [|o l IH]; intros m m' Hv; [done|]. cbn. apply IH. by apply step_view_local.
Qed.

Section recovery.
Context `{Sha256, HexCrate, SerdeJson}.

(** ** Replay *)

(** The operations of the records [rs], the first of which has number [q]. *)
Definition log_ops (q : Z) (rs : list bytes) : list (record * Z) :=
  mjoin (map (fun qb : Z * bytes => match record_at qb.2 with Some r => stamped (ops_of r) qb.1 | None => [] end)
    (numbered q rs)).

Lemma log_ops_ops q rs : (log_ops q rs).*1 = ops_log rs.
Proof.
  revert q. unfold log_ops, ops_log, records_of. induction rs as [|b rs IH]; intros q; [done|].
  rewrite numbered_cons. cbn [map omap list_omap fst snd]. rewrite mjoin_cons, fmap_app, IH.
  destruct (record_at b) as [r|]; [|done]. cbn [map]. rewrite mjoin_cons. f_equal.
  unfold stamped. rewrite <-list_fmap_compose. apply list_fmap_id.
Qed.

Lemma parse_record_at b h r : parse b h = Ok (r, h) -> record_at b = Some r.
Proof. intros E. unfold record_at. by rewrite (parse_chain_unchecked b h r h E). Qed.

(** Replaying a chain that continues from [h] succeeds. *)
Lemma replay_run ns p rs : forall q h s, shapes s -> policies s !! ns = Some p -> chain_ok h rs ->
  exists s', replay ns (numbered q rs) h s = (s', Ok (fhead h rs))
    /\ mem_of s' = fold_left (sync_step p ns) (log_ops q rs) (mem_of s) /\ same_logs s s' /\ shapes s'.
Proof.
  induction rs as [|b rs IH]; intros q h s Hs Hp Hch; [by exists s|].
  destruct Hch as [[r Hr] Hch]. rewrite numbered_cons. cbn [replay].
  rewrite (method_bind_step _ _ s s (r, h)) by (unfold lift; by rewrite Hr). cbv beta iota.
  destruct (apply_record_run s ns p r q Hs Hp (parse_chain_wf b (Some h) r h Hr)) as (s1 & E1 & Hm1 & Hl1).
  rewrite (method_bind_step _ _ _ _ _ E1).
  assert (forall l m, mem_shapes (policies s) m.1 -> mem_shapes (policies s) (fold_left (sync_step p ns) l m).1) as Hf.
  { induction l as [|o l IHl]; intros m Hm; [done|]. cbn. apply IHl. by apply sync_step_shapes. }
  pose proof Hl1 as (_ & _ & Hp1 & _).
  assert (shapes s1) as Hs1.
  { unfold shapes. rewrite Hp1. change (index s1) with (mem_of s1).1. rewrite Hm1. by apply Hf. }
  destruct (IH (q + 1) (record_hash h b) s1 Hs1) as (s2 & E2 & Hm2 & Hl2 & Hs2); [by rewrite Hp1|done|].
  exists s2. rewrite E2. split_and!; [done| | |done].
  - rewrite Hm2, Hm1, <-fold_left_app. f_equal. unfold log_ops. rewrite numbered_cons. cbn [map fst snd].
    by rewrite mjoin_cons, (parse_record_at _ _ _ Hr).
  - unfold same_logs in *. intuition congruence.
Qed.

(** ** One namespace *)

Lemma read_rest d L old ext : is_log d L (old ++ ext) -> Log.seq L + 1 < 2 ^ 64 ->
  Log.read_records d L (u64 (Z.of_nat (length old) + 1)) 0 = Ok (numbered (Z.of_nat (length old) + 1) ext).
Proof.
  intros Hl Hb. destruct (is_log_facts _ _ _ Hl) as (Hs & _). rewrite length_app in Hs.
  rewrite u64_small by (unfold is_u64; lia). destruct ext as [|b ext].
  - cbn [length] in Hs. unfold Log.read_records. destruct (Z.eqb_spec (Z.of_nat (length old) + 1) 0); [lia|].
    by destruct (Z.ltb_spec (Log.seq L) (Z.of_nat (length old) + 1)); [|lia].
  - cbn [length] in Hs. rewrite (read_records_exact _ _ _ _ _ Hl) by (unfold is_u64; lia).
    cbv zeta. rewrite Z.add_simpl_r, Nat2Z.id, drop_app_length. done.
Qed.

(** Room for [n] more records in every log. *)
Definition room (n : Z) (s : Store) : Prop := forall ns L, logs s !! ns = Some L -> Log.seq L + n < 2 ^ 64.

(** The directory [d0] of a namespace recovers to [dd] and [L], whose log extends
    the one the snapshot knows. *)
Record recovers (dur : bool) (ns : bytes) (old ext : list bytes) (p : ConflictPolicy) (d0 dd : Log.nsdir)
    (L : Log.Log) : Prop := {
  rv_recover : exists w, Log.recover d0 (ns_dir ns) dur = Ok (dd, L, w);
  rv_sidecar : Log.sidecar dd = Some [policy_to_u8 p];
  rv_log : is_log dd L (old ++ ext);
}.

(** A namespace that has no entries may get any policy. *)
Lemma with_policy_shapes ns p s : policies s !! ns = Some p \/ policies s !! ns = None -> shapes s -> shapes (with_policy ns p s).
Proof.
  intros Hp Hs n k en He. cbn in He. destruct (Hs n k en He) as (q & Hq & Hsh). exists q. split; [|done]. cbn.
  destruct (decide (n = ns)) as [->|]; [rewrite lookup_insert_eq; naive_solver congruence|by rewrite lookup_insert_ne].
Qed.

Lemma open_ns_grown heads dur ns old ext p d0 dd L s : recovers dur ns old ext p d0 dd L -> Log.seq L + 1 < 2 ^ 64 ->
  default (0, zero32) (heads !! ns) = (Z.of_nat (length old), fhead zero32 old) ->
  dirs (sdisk s) !! ns_dir ns = Some d0 -> policies s !! ns = Some p \/ policies s !! ns = None -> shapes s ->
  exists s', open_ns heads dur ns s = (s', Ok tt)
    /\ sdisk s' = mkDisk (snap (sdisk s)) (<[ns_dir ns := dd]> (dirs (sdisk s)))
    /\ logs s' = <[ns := L]> (logs s) /\ policies s' = <[ns := p]> (policies s) /\ durable s' = durable s /\ shapes s'
    /\ mem_of s' = fold_left (sync_step p ns) (log_ops (Z.of_nat (length old) + 1) ext) (mem_of s).
Proof.
  intros [[w Hrec] Hsc Hl] Hb Hh Hd Hp Hs. unfold open_ns.
  set (s1 := with_disk (mkDisk (snap (sdisk s)) (<[ns_dir ns := dd]> (dirs (sdisk s)))) s).
  rewrite (method_bind_step self _ s s s eq_refl).
  rewrite (method_bind_step _ _ s s d0) by (unfold lift; by rewrite Hd).
  rewrite (method_bind_step _ _ s s (dd, L, w)) by (unfold lift; by rewrite Hrec). cbv beta iota.
  rewrite (method_bind_step _ _ s s1 tt) by reflexivity.
  rewrite (method_bind_step _ _ s1 s1 (Some p))
    by (unfold lift, read_policy_sidecar; rewrite Hsc; simpl; by rewrite policy_roundtrip).
  rewrite (method_bind_step _ _ s1 s1 p)
    by (unfold lift; destruct Hp as [->| ->]; [by rewrite bool_decide_eq_false_2 by naive_solver|done]).
  rewrite Hh. cbv beta iota. destruct (is_log_facts _ _ _ Hl) as (Hsq & Hhd & Hch).
  apply chain_ok_app in Hch as [_ Hch].
  rewrite (method_bind_step _ _ s1 s1 tt)
    by (unfold lift, guard_err; rewrite (proj2 (Z.ltb_ge _ _)); [done|rewrite Hsq, length_app; lia]).
  set (sp := with_policy ns p s1). rewrite (method_bind_step _ _ s1 sp tt) by reflexivity.
  rewrite (method_bind_step _ _ sp sp _) by (unfold lift; by rewrite (read_rest _ _ _ _ Hl Hb)).
  destruct (replay_run ns p ext (Z.of_nat (length old) + 1) (fhead zero32 old) sp
    (with_policy_shapes ns p s1 Hp Hs) (lookup_insert_eq _ _ _) Hch)
    as (s2 & E2 & Hm2 & (Hd2 & Hl2 & Hp2 & Hdu2) & Hs2).
  rewrite (method_bind_step _ _ _ _ _ E2).
  rewrite (method_bind_step _ _ s2 s2 tt)
    by (unfold lift, guard_err; rewrite bool_decide_eq_true_2 by (by rewrite Hhd, fhead_app); done).
  eexists. split; [reflexivity|]. cbn. rewrite Hd2. cbn. rewrite insert_insert_eq. split_and!; try done. by rewrite Hl2.
Qed.

(** ** The whole store *)

(** What is left when the store [s1] dies: [s0] is the store at the last
    checkpoint, [old] its logs, [ext] what they grew by, and [d] the disk, in
    which each directory recovers to the one of [s1]. *)
Record crashed (s0 s1 : Store) (old ext : bytes -> list bytes) (d : disk) : Prop := {
  cr_ok0 : store_ok s0;
  cr_snap0 : snap_ok s0;
  cr_old ns : is_Some (policies s0 !! ns) -> log_holds s0 ns (old ns);
  cr_new ns : policies s0 !! ns = None -> old ns = [];
  cr_ok : store_ok s1;
  cr_tidy : tidy s1;
  cr_policies : policies s0 ⊆ policies s1;
  cr_snap : snap d = Some (snapshot_bytes s0);
  cr_snap1 : snap (sdisk s1) = snap d;
  cr_names n : is_Some (dirs d !! n) <-> is_Some (dirs (sdisk s1) !! n);
  cr_dir ns p : policies s1 !! ns = Some p -> exists d0 dd L,
    dirs d !! ns_dir ns = Some d0 /\ dirs (sdisk s1) !! ns_dir ns = Some dd /\ logs s1 !! ns = Some L
    /\ recovers (durable s1) ns (old ns) (ext ns) p d0 dd L;
}.

Definition replayed (p : ConflictPolicy) (ns : bytes) (old ext : list bytes) (m : mem) : mem :=
  fold_left (sync_step p ns) (log_ops (Z.of_nat (length old) + 1) ext) m.

Section all.
Context (s0 s1 : Store) (old ext : bytes -> list bytes) (d : disk) (Hcr : crashed s0 s1 old ext d).
Context (heads : gmap bytes (Z * bytes)).
Context (Hheads : forall ns, default (0, zero32) (heads !! ns) = (Z.of_nat (length (old ns)), fhead zero32 (old ns))).

Lemma open_all_grown names : room 1 s1 -> forall s, NoDup names -> (forall ns, ns ∈ names -> is_Some (policies s1 !! ns)) ->
  policies s ⊆ policies s1 -> shapes s ->
  (forall ns, ns ∈ names -> dirs (sdisk s) !! ns_dir ns = dirs d !! ns_dir ns) ->
  exists s', for_each (open_ns heads (durable s1)) names s = (s', Ok tt)
    /\ durable s' = durable s /\ snap (sdisk s') = snap (sdisk s)
    /\ (forall ns, policies s' !! ns = if decide (ns ∈ names) then policies s1 !! ns else policies s !! ns)
    /\ (forall n, dirs (sdisk s') !! n
         = if decide (n ∈ map ns_dir names) then dirs (sdisk s1) !! n else dirs (sdisk s) !! n)
    /\ (forall ns, logs s' !! ns = if decide (ns ∈ names) then logs s1 !! ns else logs s !! ns)
    /\ (forall ns p k, policies s1 !! ns = Some p -> view (mem_of s') (ns, k)
         = if decide (ns ∈ names) then view (replayed p ns (old ns) (ext ns) (mem_of s)) (ns, k)
           else view (mem_of s) (ns, k)).
Proof.
  intros Hroom. induction names as [|ns names IH]; intros s Hnd Hin Hp Hs Hd.
  { exists s. split_and!; try done. }
  apply NoDup_cons in Hnd as [Hni Hnd]. destruct (Hin ns) as [p Hns]; [by left|].
  destruct (cr_dir _ _ _ _ _ Hcr ns p Hns) as (d0 & dd & L & Hd0 & Hdd & HL & Hrv).
  destruct (open_ns_grown heads (durable s1) ns (old ns) (ext ns) p d0 dd L s Hrv (Hroom ns L HL))
    as (s2 & E2 & Hd2 & Hl2 & Hp2 & Hdu2 & Hs2 & Hm2);
    [apply Hheads|by rewrite Hd by (by left)| |done|].
  { destruct (policies s !! ns) as [q|] eqn:Eq; [left|by right]. rewrite <-Hns. symmetry. by apply (lookup_weaken _ _ _ _ Eq Hp). }
  assert (forall n, n ∈ names -> ns_dir n <> ns_dir ns) as Hne.
  { intros n Hn E. apply ns_dir_inj in E; [congruence|..]; apply (ok_name s1 (cr_ok _ _ _ _ _ Hcr)); apply Hin; [by right|by left]. }
  destruct (IH s2) as (s' & E' & Hdu' & Hsn' & Hp' & Hdr' & Hl' & Hv'); [done| |by rewrite Hp2; apply insert_subseteq_l|done| |].
  { intros n Hn. apply Hin. by right. }
  { intros n Hn. rewrite Hd2. cbn. rewrite lookup_insert_ne by (by apply not_eq_sym, Hne). apply Hd. by right. }
  exists s'. cbn [for_each]. rewrite (method_bind_step _ _ _ _ _ E2), E'.
  split_and!; [done|congruence|by rewrite Hsn', Hd2| | | |].
  - intros n. rewrite Hp', Hp2. destruct (decide (n = ns)) as [->|Hn].
    + rewrite decide_False, decide_True by (done || by left). by rewrite lookup_insert_eq, Hns.
    + rewrite lookup_insert_ne by done. repeat case_decide; try done; set_solver.
  - intros n. rewrite Hdr', Hd2. cbn [map dirs]. destruct (decide (n = ns_dir ns)) as [->|Hn].
    + rewrite (decide_True (P := _ ∈ _ :: _)) by (by left). case_decide; [done|]. by rewrite lookup_insert_eq.
    + rewrite lookup_insert_ne by done. repeat case_decide; try done; set_solver.
  - intros n. rewrite Hl', Hl2. destruct (decide (n = ns)) as [->|Hn].
    + rewrite decide_False, decide_True by (done || by left). by rewrite lookup_insert_eq.
    + rewrite lookup_insert_ne by done. repeat case_decide; try done; set_solver.
  - intros n q k Hq. rewrite (Hv' n q k Hq). destruct (decide (n = ns)) as [->|Hn].
    + rewrite decide_False, decide_True by (done || by left). assert (q = p) as -> by congruence. by rewrite Hm2.
    + assert (forall k, view (mem_of s2) (n, k) = view (mem_of s) (n, k)) as Ev by (intros; rewrite Hm2; by apply fold_view_other).
      rewrite (decide_ext (n ∈ ns :: names) (n ∈ names)) by (rewrite elem_of_cons; naive_solver).
      case_decide; [by apply fold_view_local|apply Ev].
Qed.
End all.

Lemma finish_same now s : same_logs s (finish_open now s) /\ mem_of (finish_open now s) = mem_of s.
Proof.
  unfold finish_open. set (s1 := match meta_get s CREATED_MS with Some _ => _ | None => _ end).
  assert (same_logs s s1 /\ mem_of s1 = mem_of s) as [Hl Hm] by (subst s1; by destruct (meta_get s CREATED_MS)).
  destruct (rebuild_same s1) as (Hl1 & Hi & Ht & _). unfold same_logs, mem_of in *. split; [intuition congruence|].
  by rewrite Hi, Ht.
Qed.

Lemma snap_heads_old s0 s1 old ext d ns : crashed s0 s1 old ext d ->
  default (0, zero32) (snap_heads (map (snap_of s0) (btree_iter (policies s0))) !! ns)
  = (Z.of_nat (length (old ns)), fhead zero32 (old ns)).
Proof.
  intros Hcr. destruct (policies s0 !! ns) as [p|] eqn:Hp.
  2:{ rewrite (cr_new _ _ _ _ _ Hcr ns Hp). destruct (snap_heads _ !! ns) eqn:E; [|done].
      destruct (heads_dom s0 ns) as [q Hq]; [by eexists|congruence]. }
  destruct (cr_old _ _ _ _ _ Hcr ns ltac:(by eexists)) as (L & x & HL & _ & Hi). rewrite (heads_lookup s0 ns p L (cr_ok0 _ _ _ _ _ Hcr) Hp HL).
  by destruct (is_log_facts _ _ _ Hi) as (-> & -> & _).
Qed.

Lemma disk_eq (d1 d2 : disk) : snap d1 = snap d2 -> (forall n, dirs d1 !! n = dirs d2 !! n) -> d1 = d2.
Proof. destruct d1, d2. cbn. intros -> Hd. f_equal. by apply map_eq. Qed.

(** Opening what a crash leaves. *)
Lemma open_crashed s0 s1 old ext d now : crashed s0 s1 old ext d -> room 1 s1 ->
  exists s', open_durable (durable s1) now d = (sdisk s1, Ok s')
    /\ sdisk s' = sdisk s1 /\ logs s' = logs s1 /\ policies s' = policies s1
    /\ forall ns p k, policies s1 !! ns = Some p ->
         view (mem_of s') (ns, k) = view (replayed p ns (old ns) (ext ns) (mem_of s0)) (ns, k).
Proof.
  intros Hcr Hroom. pose proof Hcr as [Hok0 Hsk0 Hold _ Hok1 Htidy Hpol Hsn Hsn1 Hnm Hdir].
  destruct (load_restores s0 d (durable s1) Hok0) as (Hp & Hi & Htb & _ & _ & _ & Hd & Hl & Hdu).
  pose proof (load_snapshot s0 d (durable s1) Hok0 Hsk0) as E0.
  set (sl := load_data (data_of s0) (open_store d (durable s1))) in *.
  set (heads := snap_heads (map (snap_of s0) (btree_iter (policies s0)))) in *.
  destruct (names_found d s1 Hnm Hok1 Htidy) as [Hnd Hnames].
  destruct (open_all_grown s0 s1 old ext d Hcr heads (fun ns => snap_heads_old s0 s1 old ext d ns Hcr) (ns_names d) Hroom sl Hnd)
    as (s2 & E2 & _ & Hs2 & Hp2 & Hd2 & Hl2 & Hv2).
  { intros ns. by rewrite Hnames. }
  { by rewrite Hp. }
  { unfold shapes. rewrite Hp, Hi. exact (ok_shape s0 Hok0). }
  { intros ns _. by rewrite Hd. }
  assert (sdisk s2 = sdisk s1) as Hsd.
  { apply disk_eq; [congruence|]. intros n. rewrite Hd2. case_decide as Hin; [done|].
    assert (dirs (sdisk s1) !! n = None) as Hn; [|rewrite Hn, Hd; apply eq_None_not_Some; rewrite Hnm, Hn; by intros []].
    apply eq_None_not_Some. intros [z Hz]. apply Hin. destruct (Htidy n z Hz) as (ns & -> & Hns).
    apply list_elem_of_fmap. exists ns. by rewrite Hnames. }
  destruct (finish_same now s2) as [(F1 & F2 & F3 & _) Fm].
  exists (finish_open now s2). split_and!; [|congruence| | |].
  - unfold open_durable. rewrite (method_bind_step self _ d d d eq_refl).
    rewrite (method_bind_step _ _ d d (sl, heads)) by (unfold lift; rewrite Hsn; by rewrite E0). cbv beta iota zeta.
    assert (filter (fun ns => ns ∉ ns_names d) (btree_iter heads).*1 = []) as ->.
    { destruct (filter _ _) as [|ns l] eqn:Ef; [done|]. exfalso. pose proof (list_elem_of_here ns l) as Hin. rewrite <-Ef in Hin.
      apply list_elem_of_filter in Hin as [Hni Hin]. apply Hni. rewrite Hnames. enough (is_Some (policies s0 !! ns)) as [q Hq] by (exists q; by eapply lookup_weaken). apply heads_dom.
      apply list_elem_of_fmap in Hin as ([n x] & -> & Hin). apply elem_of_btree_iter in Hin. by eexists. }
    rewrite (method_bind_step _ _ d d tt) by done. rewrite E2, Hsd.
    rewrite (method_bind_step _ _ d (sdisk s1) tt) by done. by rewrite (method_bind_step _ _ (sdisk s1) (sdisk s1) tt).
  - rewrite F2. apply map_eq. intros ns. rewrite Hl2. case_decide as Hin; [done|]. rewrite Hl, lookup_empty. symmetry.
    apply eq_None_not_Some. intros HL. apply Hin, Hnames, (ok_dom s1 Hok1), HL.
  - rewrite F3. apply map_eq. intros ns. rewrite Hp2. case_decide as Hin; [done|]. rewrite Hp.
    assert (policies s1 !! ns = None) as Hn by (apply eq_None_not_Some; by rewrite <-Hnames).
    rewrite Hn. apply eq_None_not_Some. intros [q Hq]. by rewrite (lookup_weaken _ _ _ _ Hq Hpol) in Hn.
  - intros ns p k Hns. rewrite Fm, (Hv2 ns p k Hns), decide_True by (rewrite Hnames; by eexists).
    apply fold_view_local. intros k'. unfold view, mem_of. cbn [fst snd]. by rewrite Hi, Htb.
Qed.

(** ** How a store gets there *)

(** A running store, whose files are whole. *)
Abbreviation running s0 s1 old ext := (crashed s0 s1 old ext (sdisk s1)).

(** One more record in the log of [ns]. *)
Definition grow (ns b : bytes) (ext : bytes -> list bytes) (n : bytes) : list bytes :=
  if decide (n = ns) then ext n ++ [b] else ext n.

Lemma intact_recovers s ns p old ext : store_ok s -> policies s !! ns = Some p -> log_holds s ns (old ++ ext) ->
  exists d0 dd L, dirs (sdisk s) !! ns_dir ns = Some d0 /\ dirs (sdisk s) !! ns_dir ns = Some dd
    /\ logs s !! ns = Some L /\ recovers (durable s) ns old ext p d0 dd L.
Proof.
  intros Hok Hp (L & d & HL & Hd & Hi). destruct (ok_sidecar s Hok ns p Hp) as (d' & Hd' & Hsc).
  assert (d' = d) as -> by congruence. destruct (ok_log s Hok ns L HL) as [Hdu _].
  exists d, d, L. split_and!; try done. split; [|done|done].
  exists None. rewrite <-Hdu. by eapply recover_is_log.
Qed.

Lemma running_holds s0 s1 old ext ns : running s0 s1 old ext -> is_Some (policies s1 !! ns) ->
  log_holds s1 ns (old ns ++ ext ns).
Proof. intros Hr [p Hp]. destruct (cr_dir _ _ _ _ _ Hr ns p Hp) as (d0 & dd & L & _ & Hd & HL & [_ _ Hi]). by exists L, dd. Qed.

(** A write to one namespace keeps it so. *)
Lemma running_step s0 s1 s2 old ext mk ns b : running s0 s1 old ext -> is_Some (policies s1 !! ns) ->
  frame mk ns s1 s2 -> store_ok s2 -> log_holds s2 ns ((old ns ++ ext ns) ++ [b]) ->
  running s0 s2 old (grow ns b ext).
Proof.
  intros Hr Hns Hf Hok Hlog. pose proof Hr as [Hok0 Hsk0 Hold Hnew Hok1 Ht Hpol Hsn _ _ Hdir].
  pose proof (frame_policies _ _ _ _ Hf) as Hp.
  split; try done; [|by rewrite Hp|by rewrite (frame_snap _ _ _ _ Hf)|].
  - intros n d Hd. rewrite Hp. destruct (decide (n = ns_dir ns)) as [->|Hn]; [by exists ns|].
    rewrite (frame_dirs _ _ _ _ Hf) in Hd by done. by apply (Ht n d).
  - intros n p Hn. unfold grow. case_decide as En; [subst n|].
    + apply intact_recovers; [done|done|by rewrite app_assoc].
    + rewrite Hp in Hn. destruct (Hdir n p Hn) as (d0 & dd & L & _ & Hdd & HL & [_ _ Hi]).
      apply intact_recovers; [done|by rewrite Hp|].
      exists L, dd. rewrite (frame_logs _ _ _ _ Hf), (frame_dirs _ _ _ _ Hf); [done| |done].
      intros E. apply ns_dir_inj in E; [done| |]; apply (ok_name s1 Hok1); [by eexists|done].
Qed.

(** The power fails while [l] is appended to the log of [ns], after [k] of its
    bytes. *)
Definition torn (s : Store) (ns : bytes) (dd : Log.nsdir) (L : Log.Log) (l : bytes) (k : nat) : disk :=
  mkDisk (snap (sdisk s)) (<[ns_dir ns := crash_append dd L l k]> (dirs (sdisk s))).

Lemma torn_crashed s0 s1 old ext ns p dd L l r k : running s0 s1 old ext -> policies s1 !! ns = Some p ->
  logs s1 !! ns = Some L -> dirs (sdisk s1) !! ns_dir ns = Some dd ->
  parse l (Log.head L) = Ok (r, Log.head L) -> (k <= length l)%nat -> room 2 s1 ->
  exists s2, crashed s0 s2 old (if decide (k = length l) then grow ns l ext else ext) (torn s1 ns dd L l k)
    /\ room 1 s2 /\ policies s2 = policies s1 /\ durable s2 = durable s1.
Proof.
  intros Hr Hp HL Hdd Hl Hk Hb. pose proof Hr as [Hok0 Hsk0 Hold Hnew Hok1 Ht Hpol Hsn _ _ Hdir].
  destruct (running_holds _ _ _ _ ns Hr) as (L' & d' & HL' & Hd' & Hi); [by eexists|].
  assert (L' = L) as -> by congruence. assert (d' = dd) as -> by congruence. clear HL' Hd'.
  destruct (crash_append_recovers dd L _ l r k (ns_dir ns) Hi Hl Hk) as (d2 & L2 & w & Hrec & Hi2 & _).
  destruct (recover_keeps _ _ _ _ _ _ Hrec) as [Hsc Hdu]. rewrite crash_append_sidecar in Hsc.
  destruct (with_log_ok s1 ns L L2 dd d2 _ p Hok1 Hp HL Hdd Hi2 Hdu Hsc) as [Hok2 _].
  exists (with_log ns (ns_dir ns) d2 L2 s1). split; [|split; [|done]].
  2: { intros n Ln. cbn. rewrite lookup_insert_Some. intros [[<- <-]|[_ HLn]]; [|specialize (Hb n Ln HLn); lia].
       specialize (Hb ns L HL). destruct (is_log_facts _ _ _ Hi2) as (-> & _), (is_log_facts _ _ _ Hi) as (Hs & _).
       destruct (k =? length l)%nat; rewrite ?length_app in *; cbn [length]; lia. }
  destruct (ok_sidecar s1 Hok1 ns p Hp) as (dx & Hdx & Hsx). assert (dx = dd) as -> by congruence.
  split; try done.
  - intros n d Hd. cbn in Hd. destruct (decide (n = ns_dir ns)) as [->|Hn]; [exists ns; split; [done|by eexists]|].
    rewrite lookup_insert_ne in Hd by done. by apply (Ht n d).
  - intros n. cbn. destruct (decide (n = ns_dir ns)) as [->|Hn]; [by rewrite !lookup_insert_eq|by rewrite !lookup_insert_ne].
  - intros n q Hq. cbn in Hq. cbn [torn dirs sdisk with_log logs durable]. destruct (decide (n = ns)) as [->|Hn].
    + exists (crash_append dd L l k), d2, L2. rewrite !lookup_insert_eq. split_and!; try done.
      assert (q = p) as -> by congruence. destruct (ok_log s1 Hok1 ns L HL) as [Hdu1 _]. rewrite Hdu1 in Hrec.
      split; [by exists w|by rewrite Hsc|]. unfold grow. case_decide as Ek.
      * rewrite (proj2 (Nat.eqb_eq _ _) Ek) in Hi2. rewrite decide_True by done. by rewrite app_assoc.
      * rewrite (proj2 (Nat.eqb_neq _ _) Ek) in Hi2. done.
    + destruct (Hdir n q Hq) as (d0 & dx & Lx & Hd0 & Hdx' & HLx & Hrv). exists d0, dx, Lx.
      assert (ns_dir ns <> ns_dir n) as Hne.
      { intros E. apply ns_dir_inj in E; [done| |]; apply (ok_name s1 Hok1); by eexists. }
      rewrite !lookup_insert_ne by done. split_and!; try done.
      case_decide; [|done]. unfold grow. by rewrite decide_False by done.
Qed.

(** The disk of a store that dies, perhaps in the middle of an append. *)
Definition dies (s : Store) (d : disk) : Prop :=
  d = sdisk s \/ exists ns dd L l r k, is_Some (policies s !! ns) /\ logs s !! ns = Some L
    /\ dirs (sdisk s) !! ns_dir ns = Some dd /\ parse l (Log.head L) = Ok (r, Log.head L)
    /\ (k < length l)%nat /\ d = torn s ns dd L l k.

Lemma dies_crashed s0 s1 old ext d : running s0 s1 old ext -> room 2 s1 -> dies s1 d ->
  exists s2, crashed s0 s2 old ext d /\ room 1 s2 /\ policies s2 = policies s1 /\ durable s2 = durable s1.
Proof.
  intros Hr Hb [->|(ns & dd & L & l & r & k & [p Hp] & HL & Hdd & Hl & Hk & ->)].
  { exists s1. split_and!; try done. intros ns L HL. specialize (Hb ns L HL). lia. }
  destruct (torn_crashed s0 s1 old ext ns p dd L l r k Hr Hp HL Hdd Hl ltac:(lia) Hb) as (s2 & Hcr & Hrest).
  rewrite decide_False in Hcr by lia. by exists s2.
Qed.

Lemma crashed_holds s0 s1 old ext d s' ns : crashed s0 s1 old ext d -> sdisk s' = sdisk s1 -> logs s' = logs s1 ->
  is_Some (policies s1 !! ns) -> log_holds s' ns (old ns ++ ext ns).
Proof.
  intros Hcr Hd Hl [p Hp]. destruct (cr_dir _ _ _ _ _ Hcr ns p Hp) as (d0 & dd & L & _ & Hdd & HL & [_ _ Hi]).
  exists L, dd. by rewrite Hd, Hl.
Qed.

(** The entry a store shows for a key. *)
Definition shown (m : mem) (ns k : bytes) : option Entry :=
  match m.2 !! (ns, k) with Some _ => None | None => m.1 !! (ns, k) end.

Lemma view_shown m m' n k : view m (n, k) = view m' (n, k) -> shown m n k = shown m' n k.
Proof. unfold view, shown. by intros [= -> ->]. Qed.

(** ** The newest write of a key *)

(** Nothing a store knows of the key of [r] outlives [r]. *)
Definition yields (r : record) (ns : bytes) (m : mem) : Prop :=
  m.2 !! (ns, key r) = None
  /\ match m.1 !! (ns, key r) with
     | None => True
     | Some (Lww w) => geb (stamp r) (vkey w) = true
     | Some (Register _) => False
     end.

Lemma yields_step r ns m os : yields r ns m -> (key os.1 = key r -> is_put os.1 = true /\ geb (stamp r) (stamp os.1) = true) ->
  yields r ns (sync_step PLww ns m os).
Proof.
  intros [Ht Hi] Ho. unfold yields, sync_step. destruct (decide (key os.1 = key r)) as [Ek|Ek].
  - destruct (Ho Ek) as [-> Hg]. cbn [fst snd]. split; [done|]. destruct (lww_newer _ _); [|done].
    rewrite Ek, lookup_insert_eq. exact Hg.
  - destruct (is_put os.1); cbn [fst snd].
    + split; [done|]. destruct (lww_newer _ _); [|done]. rewrite lookup_insert_ne by congruence. done.
    + rewrite lookup_insert_ne, lookup_delete_ne by congruence. done.
Qed.

Lemma yields_fold r ns l m : yields r ns m -> newest r l.*1 -> yields r ns (fold_left (sync_step PLww ns) l m).
Proof.
  revert m. induction l as [|os l IH]; intros m Hm Hn; [done|]. inversion Hn as [|? ? Ho Hn']; subst.
  cbn. apply IH; [by apply yields_step|done].
Qed.

(** A replay that ends with [r] shows [r]. *)
Lemma replayed_newest r ns hd old ext m : wf_record r -> is_put r = true -> length hd = 32%nat ->
  yields r ns m -> newest r (ops_log ext) ->
  exists q, view (replayed PLww ns old (ext ++ [to_bytes r hd]) m) (ns, key r) = (Some (Lww (op_version r q)), None).
Proof.
  intros Hwf Hput Hh Hy Hn. unfold replayed. set (os := log_ops _ _).
  assert (os.*1 = ops_log ext ++ [r]) as Eo by (unfold os; by rewrite log_ops_ops, ops_log_snoc).
  apply fmap_app_inv in Eo as (os1 & os2 & E1 & E2 & ->). symmetry in E2.
  destruct os2 as [|[r' q] [|]]; try done. cbn in E2. injection E2 as ->. exists q.
  rewrite fold_left_app. cbn [fold_left]. rewrite E1 in Hn. destruct (yields_fold r ns os1 m Hy Hn) as [Ht Hi].
  set (m1 := fold_left _ os1 m) in *. unfold view, sync_step. cbn [fst snd]. rewrite Hput. cbn [fst snd]. rewrite Ht.
  assert (lww_newer (m1.1 !! (ns, key r)) (op_version r q) = true) as ->.
  { unfold lww_newer. by destruct (m1.1 !! (ns, key r)) as [[w|]|]. }
  by rewrite lookup_insert_eq.
Qed.

(** ** Stores since their last checkpoint *)

(** The records of a log. *)
Definition contents (s : Store) (ns : bytes) : list bytes :=
  match Store.log_records s ns 1 0 with Ok l => l.*2 | _ => [] end.
(** Those since the checkpoint [s0]. *)
Definition since (s0 s : Store) (ns : bytes) : list bytes := drop (length (contents s0 ns)) (contents s ns).

Lemma contents_holds s ns rs : log_holds s ns rs -> contents s ns = rs.
Proof.
  intros (L & d & HL & Hd & Hi). unfold contents, Store.log_records. rewrite HL, (dir_of_eq _ _ _ Hd). cbn.
  destruct (is_log_facts _ _ _ Hi) as (Hs & _). destruct rs as [|b rs].
  - unfold Log.read_records. cbn in Hs. by rewrite (proj2 (Z.ltb_lt _ _)) by lia.
  - rewrite (read_records_exact _ _ _ _ _ Hi) by (unfold is_u64; cbn [length] in Hs; lia). cbn [Z.eqb]. cbv zeta.
    change (Z.to_nat (1 - 1)) with 0%nat. by rewrite drop_0, numbered_snd.
Qed.

Lemma log_holds_eq s ns rs rs' : log_holds s ns rs -> log_holds s ns rs' -> rs = rs'.
Proof. intros H1' H2'. by rewrite <-(contents_holds _ _ _ H1'), (contents_holds _ _ _ H2'). Qed.

(** Nothing happened but appends and new namespaces. *)
Record appends (s s' : Store) : Prop := {
  ap_policies : policies s ⊆ policies s';
  ap_durable : durable s' = durable s;
  ap_snap : snap (sdisk s') = snap (sdisk s);
  ap_tidy : tidy s -> tidy s';
  ap_logs ns rs : is_Some (policies s !! ns) -> log_holds s ns rs -> exists bs, log_holds s' ns (rs ++ bs);
}.

#[global] Instance appends_preorder : PreOrder appends.
Proof.
  split.
  - intros s. split; try done. intros ns rs _ Hl. exists []. by rewrite app_nil_r.
  - intros a b c [P1 D1 S1 N1 L1] [P2 D2 S2 N2 L2]. split; [by etrans|congruence|congruence|by auto|].
    + intros ns rs Hns Hl. destruct (L1 ns rs Hns Hl) as [b1 H1'].
      destruct (L2 ns (rs ++ b1)) as [b2 H2']; [destruct Hns as [q Hq]; exists q; by eapply lookup_weaken|done|].
      exists (b1 ++ b2). by rewrite app_assoc.
Qed.

Lemma same_logs_appends s s' : same_logs s s' -> appends s s'.
Proof.
  intros Hs. pose proof Hs as (Hd & Hl & Hp & Hdu). split; rewrite ?Hd, ?Hp; try done.
  { unfold tidy. by rewrite Hd, Hp. }
  intros ns rs _ Hh. exists []. rewrite app_nil_r. by eapply log_holds_same.
Qed.

Lemma append_record_appends s ns r : store_ok s -> wf_record r -> appends s (append_record ns r s).1.
Proof.
  intros Hok Hwf. destruct (policies s !! ns) as [p|] eqn:Hp.
  - destruct (ok_holds s ns p Hok Hp) as (L & d & rs & HL & Hd & Hi).
    destruct (append_record_ok s ns p rs r Hok Hp) as (s' & h & E & Hok' & Hm & Hlog & _); [by exists L, d|done|].
    pose proof (frames_append_record [] ns r s) as Hf. rewrite E in *. cbn [fst] in *.
    split; [by rewrite (frame_policies _ _ _ _ Hf)|apply Hm|apply Hf|..].
    + intros Ht n d' Hd'. rewrite (frame_policies _ _ _ _ Hf).
      destruct (decide (n = ns_dir ns)) as [->|Hn]; [exists ns; split; [done|by eexists]|].
      rewrite (frame_dirs _ _ _ _ Hf) in Hd' by done. by apply (Ht n d').
    + intros n rs' Hns Hl. destruct (decide (n = ns)) as [->|Hn].
      * exists [to_bytes r h]. by rewrite (log_holds_eq s ns rs' rs Hl ltac:(by exists L, d)).
      * exists []. rewrite app_nil_r. destruct Hl as (L' & d' & HL' & Hd' & Hi'). exists L', d'.
        rewrite (frame_logs _ _ _ _ Hf), (frame_dirs _ _ _ _ Hf); [done| |done].
        intros Ed. apply ns_dir_inj in Ed; [done| |]; apply (ok_name s Hok); [done|by eexists].
  - unfold append_record, mbind, method_bind, self, lift. simpl. destruct (logs s !! ns) eqn:HL; [|reflexivity].
    exfalso. destruct (proj1 (ok_dom s Hok ns)) as [q Hq]; [by eexists|]. congruence.
Qed.

(** What a running store still has to replay is all its logs gained. *)
Lemma running_appends s0 s1 : store_ok s0 -> snap_ok s0 -> tidy s0 -> store_ok s1 -> appends (checkpoint s0) s1 ->
  running s0 s1 (contents s0) (since s0 s1).
Proof.
  intros Hok0 Hsk Ht Hok1 [Hp Hdu Hsn Htd Hlg].
  assert (forall ns, is_Some (policies s0 !! ns) -> log_holds s0 ns (contents s0 ns)) as Hold.
  { intros ns [p Hns]. destruct (ok_holds s0 ns p Hok0 Hns) as (L & d & rs & HL & Hd & Hi).
    assert (log_holds s0 ns rs) as Hh by (by exists L, d). by rewrite (contents_holds _ _ _ Hh). }
  assert (forall ns, policies s0 !! ns = None -> contents s0 ns = []) as Hnew.
  { intros ns Hn. unfold contents, Store.log_records. destruct (logs s0 !! ns) eqn:HL; [|done].
    destruct (proj1 (ok_dom s0 Hok0 ns)) as [q Hq]; [by eexists|congruence]. }
  split; try done; [by apply Htd|].
  intros ns p Hns. apply intact_recovers; [done|done|]. destruct (policies s0 !! ns) as [q|] eqn:Hns0.
  - destruct (Hlg ns (contents s0 ns)) as [bs Hbs]; [by eexists|by apply Hold|].
    unfold since. rewrite (contents_holds _ _ _ Hbs), drop_app_length. exact Hbs.
  - destruct (ok_holds s1 ns p Hok1 Hns) as (L & d & rs & HL & Hd & Hi).
    assert (log_holds s1 ns rs) as Hh by (by exists L, d).
    unfold since. rewrite (Hnew ns Hns0), drop_0, (contents_holds _ _ _ Hh). exact Hh.
Qed.

(** ** Every operation only appends *)

#[local] Instance same_logs_preorder : PreOrder same_logs.
Proof. split; unfold same_logs; red; intuition congruence. Qed.

(** An update that leaves the logs alone, and a step that only looks. *)
Ltac keeps_logs := first [by apply moves_update | by apply (moves_lift _)].

Lemma push_register_logs ns ek v : always same_logs (push_register ns ek v).
Proof. intros s. unfold push_register. apply moves_self. repeat case_match; keeps_logs. Qed.

Lemma refresh_logs ns k : always same_logs (update (E:=StorageError) (refresh_sec_index_for ns k)).
Proof. intros s. apply moves_update. by destruct (refresh_sec_same ns k s). Qed.

Lemma apply_del_logs ns k h : always same_logs (update (E:=StorageError) (apply_del ns k h)).
Proof. intros s. by apply moves_update. Qed.

Lemma apply_local_op_logs ns o q : always same_logs (apply_local_op ns o q).
Proof.
  intros s. unfold apply_local_op. apply moves_self, moves_lift_bind; [apply _|]. intros p _.
  apply moves_bind; [apply _| |intros; keeps_logs]. repeat case_bool_decide; [|apply apply_del_logs|keeps_logs].
  apply moves_bind; [apply _|keeps_logs|intros]. apply moves_bind; [apply _| |intros; apply refresh_logs].
  destruct p; [keeps_logs|apply push_register_logs].
Qed.

Lemma apply_record_op_logs ns o q : always same_logs (apply_record_op ns o q).
Proof.
  intros s. unfold apply_record_op. apply moves_self, moves_lift_bind; [apply _|]. intros p _.
  repeat case_bool_decide; [|apply apply_del_logs|keeps_logs].
  apply moves_bind; [apply _| |intros; apply refresh_logs].
  destruct p; [|apply push_register_logs]. apply moves_update. by destruct (lww_newer _ _).
Qed.

Lemma apply_record_logs ns r q : always same_logs (apply_record ns r q).
Proof.
  intros s. unfold apply_record. repeat case_bool_decide; [apply apply_record_op_logs| | | |keeps_logs].
  - apply moves_for_each; [apply _|]. intros o. apply apply_record_op_logs.
  - apply moves_update. unfold set_or_clear. by destruct (nonempty _).
  - apply moves_bind; [apply _|apply moves_update; unfold set_or_clear; by destruct (nonempty _)|intros].
    apply moves_update. by destruct (rebuild_sec_ns_same ns r').
Qed.

(** In a tidy directory a new namespace starts with a new directory. *)
Lemma create_appends ns p s : store_ok s -> tidy s -> appends s (create_namespace ns p s).1.
Proof.
  intros Hok Ht. unfold create_namespace. rewrite (method_bind_step self _ s s s eq_refl).
  destruct (valid_ns ns) eqn:Hv; [|reflexivity]. rewrite (method_bind_step _ _ s s tt) by done.
  unfold mbind, method_bind, lift at 1. case_bool_decide as Hp; [reflexivity|]. apply eq_None_not_Some in Hp.
  assert (dirs (sdisk s) !! ns_dir ns = None) as Hn.
  { apply eq_None_not_Some. intros [d Hd]. destruct (Ht _ d Hd) as (n & E & Hs).
    apply ns_dir_inj in E; [|done|by apply (ok_name s Hok)]. subst n. rewrite Hp in Hs. by destruct Hs. }
  cbn [guard_err]. unfold lift at 1. destruct (Log.recover _ _ _) as [[[d L] w]|x|] eqn:Er; [|reflexivity..].
  destruct (recover_any _ _ _ _ _ _ (contiguous_dir_of s ns Hok) Er) as (rs & _ & _ & Hsc).
  unfold dir_of in Hsc. rewrite Hn in Hsc. cbn in Hsc. cbn. rewrite Hsc, bool_decide_eq_false_2 by (by intros []). cbn.
  split; cbn; [by apply insert_subseteq|done|done| |].
  - intros _ n z. cbn. rewrite insert_insert_eq. intros Hz. destruct (decide (n = ns_dir ns)) as [->|Hne].
    + exists ns. split; [done|]. rewrite lookup_insert_eq. by eexists.
    + rewrite lookup_insert_ne in Hz by done. destruct (Ht n z Hz) as (n' & -> & [q Hq]). exists n'. split; [done|].
      exists q. rewrite lookup_insert_ne; [done|congruence].
  - intros n rs' [q Hq] (L' & d' & HL' & Hd' & Hi'). exists []. rewrite app_nil_r. exists L', d'.
    assert (ns_dir ns <> ns_dir n) as Hnd by congruence.
    cbn. rewrite lookup_insert_ne by congruence. split; [done|]. by rewrite !lookup_insert_ne by exact Hnd.
Qed.

(** Whatever an operation does and however it ends, it appends to the logs,
    perhaps after creating one, and changes nothing else on disk. *)
Lemma exec_appends sb o : op_wf o -> keeps (fun s => store_ok s /\ tidy s /\ appends sb s) (exec o).
Proof.
  intros Hwf. set (I := fun s => _).
  assert (forall A (m : store_m A), keeps store_ok m -> (forall s, store_ok s -> tidy s -> appends s (m s).1) -> keeps I m) as Hm.
  { intros A m Hk Ha s (Hok & Ht & Hs). specialize (Ha s Hok Ht). split_and!; [by apply Hk|by apply Ha|by etrans]. }
  apply (exec_steps I); [| | | |done|].
  - intros ns r Hr. apply Hm; [by apply append_record_keeps|]. intros s Hok _. by apply append_record_appends.
  - intros ns r q. apply Hm; [apply apply_local_op_keeps|]. intros s _ _. apply same_logs_appends, apply_local_op_logs.
  - intros ns r q. apply Hm; [apply apply_record_keeps|]. intros s _ _. apply same_logs_appends, apply_record_logs.
  - intros s s' Hsd (Hok & Ht & Hs). assert (appends s s') as Ha by apply same_logs_appends, Hsd.
    split_and!; [by eapply same_data_ok|by apply Ha|by etrans].
  - intros ns p _. apply Hm; [apply create_namespace_keeps|]. intros s. apply create_appends.
Qed.

Lemma run_ops_appends sb l s : Forall op_wf l -> store_ok s /\ tidy s /\ appends sb s ->
  store_ok (run_ops l s) /\ tidy (run_ops l s) /\ appends sb (run_ops l s).
Proof.
  intros Hl. revert s. induction Hl as [|o l Hwf Hl IH]; intros s Hs; [exact Hs|]. cbn.
  apply IH. by apply exec_appends.
Qed.

Lemma run_ops_running s0 l : store_ok s0 -> snap_ok s0 -> tidy s0 -> Forall op_wf l ->
  let s1 := run_ops l (checkpoint s0) in running s0 s1 (contents s0) (since s0 s1).
Proof.
  intros Hok Hsk Ht Hl s1. assert (store_ok (checkpoint s0)) as Hc by (pose proof Hok as []; by constructor).
  destruct (run_ops_appends (checkpoint s0) l (checkpoint s0) Hl) as (Hok1 & _ & Ha); [by split_and!|by apply running_appends].
Qed.

(** ** Properties *)

(** C5: crash recovery.  From the checkpoint of a well-formed store a node runs
    any operations, failing ones and new namespaces included, and dies while a
    record is appended to one of its logs, after any number of the record's
    bytes have reached the file (none: it dies between two operations).  While
    the counters fit 64 bits ([room]), opening what is left succeeds; every log
    holds exactly the records it held, and the new one if all of its bytes were
    written; and of every key the node knows exactly what the checkpoint knew,
    with the records since then replayed in the order of the log; of a namespace
    created since, it replays all. *)
Theorem crash_recovery s0 l ns p dd L b r k now :
  store_ok s0 -> snap_ok s0 -> tidy s0 -> Forall op_wf l ->
  let s1 := run_ops l (checkpoint s0) in
  policies s1 !! ns = Some p -> logs s1 !! ns = Some L -> dirs (sdisk s1) !! ns_dir ns = Some dd ->
  parse b (Log.head L) = Ok (r, Log.head L) -> (k <= length b)%nat -> room 2 s1 ->
  let gained := if decide (k = length b) then grow ns b (since s0 s1) else since s0 s1 in
  exists s', open_durable (durable s1) now (torn s1 ns dd L b k) = (sdisk s', Ok s')
    /\ policies s' = policies s1
    /\ (forall n, is_Some (policies s1 !! n) -> log_holds s' n (contents s0 n ++ gained n))
    /\ forall n q key, policies s1 !! n = Some q ->
         view (mem_of s') (n, key) = view (replayed q n (contents s0 n) (gained n) (mem_of s0)) (n, key).
Proof.
  intros Hok Hsk Ht Hl s1 Hp HL Hdd Hb Hk Hroom gained. pose proof (run_ops_running s0 l Hok Hsk Ht Hl) as Hr.
  destruct (torn_crashed s0 s1 _ _ ns p dd L b r k Hr Hp HL Hdd Hb Hk Hroom) as (s2 & Hcr & Hroom2 & Hp2 & Hdu2).
  destruct (open_crashed _ _ _ _ _ now Hcr Hroom2) as (s' & E & Hd & Hlg & Hp' & Hv). rewrite Hdu2, <-Hd in E.
  rewrite Hp2 in Hp', Hv. exists s'. split_and!; [exact E|exact Hp'| |exact Hv].
  intros n Hn. eapply crashed_holds; [exact Hcr|done|done|by rewrite Hp2].
Qed.

End recovery.

Abbreviation running s0 s1 old ext := (crashed s0 s1 old ext (sdisk s1)).

(** ** Witness *)

#[local] Existing Instances toy_sha256 hex_plain toy_json.

Definition demo_put : record := mkRecord TAG_PUT (bs "k2") 9 (node Byte.x01) (node Byte.x02) (bs "w") 0 [].
Definition demo_ops : list op := [OpCreate (bs "new") CrdtRegister;
  OpPut (bs "new") (bs "k") (bs "n") 9 (node Byte.x01) (node Byte.x02) 0;
  OpPut (bs "app") (bs "k3") (bs "u") 8 (node Byte.x01) (node Byte.x02) 0].
(** A store that was checkpointed and written to since. *)
Definition demo_running : Store := run_ops demo_ops (checkpoint saved).

Lemma demo_ops_ok : Forall op_wf demo_ops.
Proof. repeat (constructor; [first [exact I|wf_single]|]). constructor. Qed.

Lemma demo_is_running : running saved demo_running (contents saved) (since saved demo_running).
Proof. exact (run_ops_running saved demo_ops saved_ok saved_snap_ok saved_tidy demo_ops_ok). Qed.

Lemma demo_running_policies : policies demo_running !! bs "app" = Some PLww /\ policies demo_running !! bs "new" = Some CrdtRegister.
Proof. split; vm_decide. Qed.

Lemma demo_running_durable : durable demo_running = false.
Proof. vm_decide. Qed.

Lemma demo_running_app : exists L dd, logs demo_running !! bs "app" = Some L /\ dirs (sdisk demo_running) !! ns_dir (bs "app") = Some dd
  /\ length (Log.head L) = 32%nat.
Proof.
  destruct (ok_holds demo_running (bs "app") PLww (cr_ok _ _ _ _ _ demo_is_running)) as (L & dd & rs & HL & Hdd & Hi).
  { apply demo_running_policies. }
  exists L, dd. split; [exact HL|]. split; [exact Hdd|exact (is_log_head _ _ _ Hi)].
Qed.

Lemma running_room n : n <= 10 -> room n demo_running.
Proof.
  intros Hn ns L HL. assert (map_Forall (fun _ L => Log.seq L < 2 ^ 63) (logs demo_running)) as Hs by vm_decide.
  specialize (Hs ns L HL). cbv beta in Hs. lia.
Qed.

(** Three bytes of a record are written: what was there before is all there. *)
Lemma crash_recovery_witness : exists L dd s',
  open_durable false 5 (torn demo_running (bs "app") dd L (to_bytes demo_put (Log.head L)) 3) = (sdisk s', Ok s')
  /\ (exists v, get s' (bs "app") (bs "k") = Some (Lww v) /\ StoreTypes.value v = bs "v")
  /\ get s' (bs "app") (bs "k2") = None
  /\ (exists v, get s' (bs "app") (bs "k3") = Some (Lww v) /\ StoreTypes.value v = bs "u")
  /\ exists v, get s' (bs "new") (bs "k") = Some (Register [v]) /\ StoreTypes.value v = bs "n".
Proof.
  destruct demo_running_app as (L & dd & HL & Hdd & Hh).
  destruct demo_running_policies as [Hp Hp'].
  assert (length (to_bytes demo_put (Log.head L)) = 128)%nat as Hlen by (rewrite length_to_bytes by exact Hh; vm_compute; reflexivity).
  destruct (crash_recovery saved demo_ops (bs "app") PLww dd L (to_bytes demo_put (Log.head L)) demo_put 3 5
    saved_ok saved_snap_ok saved_tidy demo_ops_ok Hp HL Hdd) as (s' & E & _ & _ & Hv).
  - apply parse_chain_to_bytes; [wf_single|exact Hh|by right].
  - rewrite Hlen. lia.
  - apply running_room. lia.
  - rewrite Hlen in Hv. rewrite decide_False in Hv by lia.
    fold demo_running in E, Hv. rewrite demo_running_durable in E. exists L, dd, s'. split; [exact E|].
    assert (forall n q k, policies demo_running !! n = Some q -> get s' n k = shown (replayed q n (contents saved n)
      (since saved demo_running n) (mem_of saved)) n k) as Hg.
    { intros n q k Hn. apply (view_shown (mem_of s')). exact (Hv n q k Hn). }
    rewrite !(Hg _ _ _ Hp), (Hg _ _ _ Hp').
    split; [|split; [vm_decide|split]]; eexists; (split; [vm_compute; reflexivity|reflexivity]).
Defined.

End Recovery.
