(* ===== verification/StoreGaps.v ===== *)
(** Four histories, evaluated on concrete stores, on which the store's paths
    do not agree with one another. *)

From S2P Require Import Prelude Crc32 LogFormat Log LogSpec Utf8 StoreTypes Store StoreSpec SyncSpec Snapshot.
Import LogFormat Utf8 LogSpec Store StoreSpec Snapshot SyncSpec.

Module StoreGaps.

#[local] Existing Instances toy_sha256 hex_plain toy_json.

Definition app : bytes := bs "app".
Definition history (l : list op) : Store := run_ops (OpCreate app PLww :: l) (empty_store false).
Definition put_k (v : string) (h : Z) : op :=
  OpPut app (bs "k") (bs v) h (node Byte.x01) (node Byte.x02) 0.
Definition del_k (h : Z) : op := OpDelete app (bs "k") h (node Byte.x01) (node Byte.x02).

(** The value [get] shows for a key. *)
Definition shows (s : Store) (k : string) : option bytes :=
  StoreTypes.value <$> (get s app (bs k) ≫= latest_entry_value).
Definition opened (d : disk) : res Store := (open_durable false 5 d).2.

(** A key written again after a delete is shown by the running store but
    gone once the store is reopened: the live path drops the tombstone, the
    replay of the same log lets it win. *)
Theorem rewritten_key_lost_on_reopen :
  let s := history [put_k "v1" 1; del_k 2; put_k "v2" 3] in
  shows s "k" = Some (bs "v2")
  /\ match opened (sdisk s) with Ok s' => shows s' "k" = None | _ => False end.
Proof. vm_compute. split; reflexivity. Qed.

Definition two_ns : Store :=
  run_ops [OpCreate (bs "a") PLww; OpCreate (bs "b") PLww;
           OpPut (bs "a") (bs "k") (bs "red") 1 (node Byte.x01) (node Byte.x02) 0;
           OpPut (bs "b") (bs "k") (bs "red") 2 (node Byte.x01) (node Byte.x02) 0;
           OpSetIndex (bs "a") (Some (bs "[color]")) 3 (node Byte.x01) (node Byte.x02)]
    (empty_store false).
Definition index_b : op :=
  OpSetIndex (bs "b") (Some (bs "[color]")) 4 (node Byte.x01) (node Byte.x02).

(** Defining the index of one namespace drops the rows of every other
    namespace from the secondary index, since clearing a namespace keeps its
    own rows and discards the rest. *)
Theorem indexing_drops_other_namespaces :
  let s' := (exec index_b two_ns).1 in
  index_lookup two_ns (bs "a") (bs "color") [] = [(bs "red", bs "k")]
  /\ index_lookup s' (bs "a") (bs "color") [] = []
  /\ index_lookup s' (bs "b") (bs "color") [] = [(bs "red", bs "k")].
Proof. vm_compute. split_and!; reflexivity. Qed.

(** Offline compaction of a checkpointed store whose log shrinks fails
    after it has rewritten the logs, because the old snapshot is left in
    place; the directory then cannot be opened any more. *)
Theorem compaction_after_checkpoint_fails :
  let d := sdisk (checkpoint (history [put_k "v1" 1; put_k "v2" 2])) in
  let e := Corrupt (Some app) (SnapAhead 2 1) in
  let '(d', o) := compact_dir 5 d in
  match opened d with Ok s => shows s "k" = Some (bs "v2") | _ => False end
  /\ o = Err e /\ opened d' = Err e.
Proof. vm_compute. split_and!; reflexivity. Qed.

(** In-place compaction brings a deleted key back: a write that arrives
    after the delete is hidden by the tombstone, but stays in the index, and
    compaction keeps the entry and drops the tombstone. *)
Theorem gc_resurrects_deleted_key :
  let s := history [OpSynced app (demo_op TAG_DEL "k" "" 12 0);
                    OpSynced app (demo_op TAG_PUT "k" "old" 9 0)] in
  shows s "k" = None /\ (gc_live 5 s).2 = Ok 126 /\ shows (gc_live 5 s).1 "k" = Some (bs "old").
Proof. vm_compute. split_and!; reflexivity. Qed.

End StoreGaps.
