(* ===== verification/Json.v ===== *)
(** [serde_json::Value] as the schema validator and the HTTP server use it:
    numbers in their three representations, accessors and equality. *)

From Stdlib Require Import SpecFloat.
From S2P Require Import Prelude Utf8 Text StoreTypes Store.
Import Utf8 Text.

(** ** Numbers

    A number is a [u64], a negative [i64] or an [f64].  [JNumber] carries its
    [Display] text, which tells them apart: the integers print as digits, a
    float prints with a point or an exponent.  Reading a float back from its
    text is the crate's business. *)
Class JsonFloat := { f64_of_text : bytes -> spec_float }.

(** IEEE 754 binary64. *)
Definition prec64 : Z := 53.
Definition emax64 : Z := 1024.

Module Json.

Inductive Number := PosInt (n : Z) | NegInt (n : Z) | Float (f : spec_float).

Definition is_digit (b : byte) : bool := in_range b 48 57.
Definition all_digits (t : bytes) : bool := negb (bool_decide (t = [])) && forallb is_digit t.
Definition MINUS : byte := Byte.x2d.
Definition digits_val (t : bytes) : Z := fold_left (fun acc b => acc * 10 + (b2z b - 48)) t 0.

Definition number_of `{JsonFloat} (t : bytes) : Number :=
  match t with
  | b :: rest =>
      if bool_decide (b = MINUS) && all_digits rest then NegInt (- digits_val rest)
      else if all_digits t then PosInt (digits_val t) else Float (f64_of_text t)
  | [] => Float (f64_of_text t)
  end.

(** [n as f64] for an integer: the nearest float, ties to even. *)
Definition f64_of_int (z : Z) : spec_float := binary_normalize prec64 emax64 z 0 false.

(** [f64::trunc] and [f64::fract]. *)
Definition f64_trunc (f : spec_float) : spec_float :=
  match f with
  | S754_finite s m e =>
      if e <? 0 then
        let n := Z.shiftr (Z.pos m) (- e) in
        binary_normalize prec64 emax64 (if s then - n else n) 0 s
      else f
  | _ => f
  end.
Definition f64_fract (f : spec_float) : spec_float := SFsub prec64 emax64 f (f64_trunc f).

(** ** Accessors *)

Section access.
Context `{JsonFloat}.

Definition as_i64 (v : jvalue) : option Z :=
  match v with
  | JNumber t => match number_of t with
                 | PosInt n => if n <? 2 ^ 63 then Some n else None
                 | NegInt n => Some n
                 | Float _ => None
                 end
  | _ => None
  end.
Definition as_u64 (v : jvalue) : option Z :=
  match v with
  | JNumber t => match number_of t with PosInt n => Some n | _ => None end
  | _ => None
  end.
Definition as_f64 (v : jvalue) : option spec_float :=
  match v with
  | JNumber t => Some (match number_of t with
                       | PosInt n | NegInt n => f64_of_int n
                       | Float f => f
                       end)
  | _ => None
  end.
Definition as_str (v : jvalue) : option bytes := match v with JString s => Some s | _ => None end.
Definition as_bool (v : jvalue) : option bool := match v with JBool b => Some b | _ => None end.
Definition as_array (v : jvalue) : option (list jvalue) :=
  match v with JArray l => Some l | _ => None end.
Definition as_object (v : jvalue) : option (list (bytes * jvalue)) :=
  match v with JObject m => Some m | _ => None end.

(** ** Maps

    A JSON object keeps its entries in insertion order, each key once.
    [with_key f] is [map.get(k).map(f)], written so that a recursion can pass
    through it. *)
Section with_key.
Context {A : Type} (f : jvalue -> A) (k : bytes).
Fixpoint with_key (m : list (bytes * jvalue)) : option A :=
  match m with
  | [] => None
  | (k', v) :: m => if bool_decide (k' = k) then Some (f v) else with_key m
  end.
End with_key.

Definition jget (k : bytes) (m : list (bytes * jvalue)) : option jvalue := with_key id k m.

(** [v.get(k)] *)
Definition field (k : bytes) (v : jvalue) : option jvalue := as_object v ≫= jget k.

Lemma with_key_get {A} (f : jvalue -> A) k m : with_key f k m = f <$> jget k m.
Proof. induction m as [|[k' v] m IH]; [done|]. cbn. by case_bool_decide. Qed.

Lemma jget_elem k v m : jget k m = Some v -> (k, v) ∈ m.
Proof.
  induction m as [|[k' v'] m IH]; [done|]. cbn. case_bool_decide as E.
  - intros [= ->]. subst. by left.
  - intros Hg. right. by apply IH.
Qed.

Lemma elem_jget k v m : NoDup m.*1 -> (k, v) ∈ m -> jget k m = Some v.
Proof.
  induction m as [|[k' v'] m IH]; cbn; [set_solver|]. intros [Hn Hd]%NoDup_cons [[= <- <-]|Hin]%elem_of_cons.
  - by rewrite bool_decide_eq_true_2.
  - rewrite bool_decide_eq_false_2; [by apply IH|]. intros ->. apply Hn.
    apply list_elem_of_fmap. by exists (k, v).
Qed.

(** ** Equality

    Entries of objects are compared whatever their order; numbers of different
    representations differ. *)
Definition number_eqb (a b : Number) : bool :=
  match a, b with
  | PosInt m, PosInt n | NegInt m, NegInt n => m =? n
  | Float f, Float g => SFeqb f g
  | _, _ => false
  end.

Section forall2b.
Context {A : Type} (f : A -> A -> bool).
Fixpoint forall2b (l m : list A) : bool :=
  match l, m with
  | [], [] => true
  | x :: l, y :: m => f x y && forall2b l m
  | _, _ => false
  end.
End forall2b.

Fixpoint jeq (a b : jvalue) : bool :=
  match a, b with
  | JNull, JNull => true
  | JBool x, JBool y => Bool.eqb x y
  | JNumber s, JNumber t => number_eqb (number_of s) (number_of t)
  | JString s, JString t => bool_decide (s = t)
  | JArray l, JArray m => forall2b jeq l m
  | JObject l, JObject m =>
      (length l =? length m)%nat
      && forallb (fun '(k, x) => match jget k m with Some y => jeq x y | None => false end) l
  | _, _ => false
  end.

End access.

(** ** Induction through arrays and objects *)
Section ind.
Context (P : jvalue -> Prop).
Hypothesis P_null : P JNull.
Hypothesis P_bool : forall b, P (JBool b).
Hypothesis P_number : forall t, P (JNumber t).
Hypothesis P_string : forall s, P (JString s).
Hypothesis P_array : forall l, Forall P l -> P (JArray l).
Hypothesis P_object : forall m, Forall (fun e => P e.2) m -> P (JObject m).

Fixpoint jvalue_nested_ind (v : jvalue) : P v.
Proof.
  destruct v as [|b|t|s|l|m]; [done..|apply P_array|apply P_object].
  - induction l; constructor; [apply jvalue_nested_ind|done].
  - induction m as [|[k x] m IH]; constructor; [apply jvalue_nested_ind|done].
Defined.
End ind.

(** ** Building values ([json!]) *)

Definition jnum (n : Z) : jvalue := JNumber (fmt_dec n).
Definition jobj (l : list (string * jvalue)) : jvalue := JObject ((fun e => (bs e.1, e.2)) <$> l).
Definition jstr (s : string) : jvalue := JString (bs s).

End Json.
