(* ===== verification/Schema.v ===== *)
(** JSON-Schema validation ([src/schema/mod.rs]): the check of a schema when
    it is set and the validation of a value against it on every write. *)

From Stdlib Require Import SpecFloat.
From S2P Require Import Prelude Utf8 Text StoreTypes Store Json.
Import Json.

Module Schema.

Definition type_names : list bytes :=
  bs <$> ["null"; "boolean"; "object"; "array"; "string"; "integer"; "number"]%string.

Definition supported_kws : list bytes :=
  bs <$> ["type"; "enum"; "const"; "properties"; "required"; "additionalProperties";
          "items"; "prefixItems"; "minItems"; "maxItems"; "uniqueItems";
          "minLength"; "maxLength"; "minProperties"; "maxProperties";
          "minimum"; "maximum"; "exclusiveMinimum"; "exclusiveMaximum";
          "multipleOf"; "oneOf"; "anyOf"; "allOf"; "not";
          "title"; "description"; "default"; "examples"; "$comment"]%string.

(** The messages, with the values they format. *)
Inductive violation :=
| WrongType (path t : bytes)
| NoAllowedType (path : bytes)
| NotInEnum (path : bytes)
| NotConst (path : bytes)
| TooShort (path : bytes) (len min : Z)
| TooLong (path : bytes) (len max : Z)
| BelowMinimum (path : bytes) (n m : spec_float)
| AboveMaximum (path : bytes) (n m : spec_float)
| NotAbove (path : bytes) (n m : spec_float)
| NotBelow (path : bytes) (n m : spec_float)
| NotMultiple (path : bytes) (n m : spec_float)
| TooManyProperties (path : bytes)
| TooFewProperties (path : bytes)
| RequiredNotString (path : bytes)
| MissingProperty (path name : bytes)
| UnexpectedProperty (path k : bytes)
| TooManyItems (path : bytes)
| TooFewItems (path : bytes)
| DuplicateItem (path : bytes)
| NotExactlyOne (path : bytes)
| NoneOf (path : bytes)
| MatchedNot (path : bytes)
| Prohibited (path : bytes)
| NotASchema (path : bytes).

Inductive unsupported :=
| NotObjectOrBoolean
| UnsupportedKeyword (kw : bytes)
| UnsupportedType (s : bytes)
| UnsupportedTypeEntry.

(** [1e-9], the nearest float. *)
Definition f64_1em9 : spec_float := S754_finite false 4835703278458517 (-82).

(** [n as usize] of an [i64], on a 64-bit target. *)
Definition as_usize (n : Z) : Z := u64 n.

Definition is_ok {E A} (o : outcome E A) : bool :=
  match o with Ok _ => true | _ => false end.

(** [for x in l { f(x)?; }] *)
Section each.
Context {E A : Type} (f : A -> outcome E unit).
Fixpoint each (l : list A) : outcome E unit :=
  match l with [] => Ok tt | x :: l => f x ≫= fun _ => each l end.
End each.

Section schema.
Context `{JsonFloat}.

Definition is_number (v : jvalue) : bool :=
  bool_decide (is_Some (as_i64 v)) || bool_decide (is_Some (as_f64 v)).

Definition matches_type (name : bytes) (v : jvalue) : bool :=
  if bool_decide (name = bs "null") then match v with JNull => true | _ => false end
  else if bool_decide (name = bs "boolean") then match v with JBool _ => true | _ => false end
  else if bool_decide (name = bs "object") then match v with JObject _ => true | _ => false end
  else if bool_decide (name = bs "array") then match v with JArray _ => true | _ => false end
  else if bool_decide (name = bs "string") then match v with JString _ => true | _ => false end
  else if bool_decide (name = bs "integer") then bool_decide (is_Some (as_i64 v))
  else if bool_decide (name = bs "number") then is_number v
  else false.

(** ** The checks that look at one level

    [kws] is the schema's object. *)
Abbreviation keywords := (list (bytes * jvalue)).

Definition get_i64 (k : string) (kws : keywords) : option Z := jget (bs k) kws ≫= as_i64.
Definition get_f64 (k : string) (kws : keywords) : option spec_float := jget (bs k) kws ≫= as_f64.
Definition get_array (k : string) (kws : keywords) : option (list jvalue) :=
  jget (bs k) kws ≫= as_array.

Definition check_type (kws : keywords) (value : jvalue) (path : bytes) : outcome violation unit :=
  match jget (bs "type") kws with
  | Some (JString s) => guard_err (negb (matches_type s value)) (WrongType path s)
  | Some (JArray arr) =>
      guard_err (negb (existsb (fun n => match as_str n with
                                         | Some name => matches_type name value
                                         | None => false
                                         end) arr)) (NoAllowedType path)
  | _ => Ok tt
  end.

Definition check_enum (kws : keywords) (value : jvalue) (path : bytes) : outcome violation unit :=
  match get_array "enum" kws with
  | Some members => guard_err (negb (existsb (fun m => jeq m value) members)) (NotInEnum path)
  | None => Ok tt
  end.

Definition check_const (kws : keywords) (value : jvalue) (path : bytes) : outcome violation unit :=
  match jget (bs "const") kws with
  | Some expected => guard_err (negb (jeq expected value)) (NotConst path)
  | None => Ok tt
  end.

(** A bound, where it is given. *)
Definition when {A} (o : option A) (fails : A -> bool) (e : A -> violation) : outcome violation unit :=
  match o with Some a => guard_err (fails a) (e a) | None => Ok tt end.

Definition check_length (kws : keywords) (value : jvalue) (path : bytes) : outcome violation unit :=
  match value with
  | JString s =>
      let len := Z.of_nat (length s) in
      _ ← when (get_i64 "minLength" kws) (fun min => len <? as_usize min) (TooShort path len);
      when (get_i64 "maxLength" kws) (fun max => as_usize max <? len) (TooLong path len)
  | _ => Ok tt
  end.

(** [m != 0.0 && (n / m).fract().abs() > 1e-9] *)
Definition not_multiple (n m : spec_float) : bool :=
  negb (SFeqb m (S754_zero false))
  && SFltb f64_1em9 (SFabs (f64_fract (SFdiv prec64 emax64 n m))).

Definition check_bounds (kws : keywords) (value : jvalue) (path : bytes) : outcome violation unit :=
  match as_f64 value with
  | Some n =>
      _ ← when (get_f64 "minimum" kws) (fun m => SFltb n m) (BelowMinimum path n);
      _ ← when (get_f64 "maximum" kws) (fun m => SFltb m n) (AboveMaximum path n);
      _ ← when (get_f64 "exclusiveMinimum" kws) (fun m => negb (SFltb m n)) (NotAbove path n);
      _ ← when (get_f64 "exclusiveMaximum" kws) (fun m => negb (SFltb n m)) (NotBelow path n);
      when (get_f64 "multipleOf" kws) (not_multiple n) (NotMultiple path n)
  | None => Ok tt
  end.

Definition check_size (kws : keywords) (obj : list (bytes * jvalue)) (path : bytes)
    : outcome violation unit :=
  let len := Z.of_nat (length obj) in
  _ ← when (get_i64 "maxProperties" kws) (fun max => as_usize max <? len) (fun _ => TooManyProperties path);
  when (get_i64 "minProperties" kws) (fun min => len <? as_usize min) (fun _ => TooFewProperties path).

Definition check_required (kws : keywords) (obj : list (bytes * jvalue)) (path : bytes)
    : outcome violation unit :=
  match get_array "required" kws with
  | Some required => each (fun item =>
      match as_str item with
      | None => Err (RequiredNotString path)
      | Some name => guard_err (negb (bool_decide (is_Some (jget name obj)))) (MissingProperty path name)
      end) required
  | None => Ok tt
  end.

Definition extra_allowed (kws : keywords) : bool :=
  default true (jget (bs "additionalProperties") kws ≫= as_bool).

Definition check_count (kws : keywords) (arr : list jvalue) (path : bytes) : outcome violation unit :=
  let len := Z.of_nat (length arr) in
  _ ← when (get_i64 "maxItems" kws) (fun max => as_usize max <? len) (fun _ => TooManyItems path);
  when (get_i64 "minItems" kws) (fun min => len <? as_usize min) (fun _ => TooFewItems path).

Fixpoint has_duplicate (arr : list jvalue) : bool :=
  match arr with [] => false | x :: arr => existsb (jeq x) arr || has_duplicate arr end.

Definition check_unique (kws : keywords) (arr : list jvalue) (path : bytes) : outcome violation unit :=
  if default false (jget (bs "uniqueItems") kws ≫= as_bool)
  then guard_err (has_duplicate arr) (DuplicateItem path) else Ok tt.

(** ** Validation *)

Definition sub_path (path k : bytes) : bytes := path ++ bs "/" ++ k.
Definition item_path (path : bytes) : bytes := path ++ bs "[]".

(** [count_ok(members, value, path)], the validations being the members'. *)
Definition count_ok {A} (ok : A -> outcome violation unit) (members : list A) : nat :=
  length (List.filter (fun m => is_ok (ok m)) members).

Fixpoint validate_at (schema value : jvalue) (path : bytes) {struct schema} : outcome violation unit :=
  match schema with
  | JObject kws =>
      _ ← check_type kws value path;
      _ ← check_enum kws value path;
      _ ← check_const kws value path;
      _ ← check_length kws value path;
      _ ← check_bounds kws value path;
      _ ← match value with
          | JObject obj =>
              _ ← check_size kws obj path;
              _ ← check_required kws obj path;
              let declared := with_key (fun p k v =>
                match p with
                | JObject props => with_key (fun sub => validate_at sub v (sub_path path k)) k props
                | _ => None
                end) (bs "properties") kws in
              let extra := with_key (fun ap =>
                match ap with JObject _ => Some (validate_at ap) | _ => None end)
                (bs "additionalProperties") kws in
              each (fun '(k, v) =>
                match declared ≫= (fun d => d k v), mjoin extra with
                | Some r, _ => r
                | None, Some check => check v (sub_path path k)
                | None, None => guard_err (negb (extra_allowed kws)) (UnexpectedProperty path k)
                end) obj
          | _ => Ok tt
          end;
      _ ← match value with
          | JArray arr =>
              _ ← check_count kws arr path;
              _ ← check_unique kws arr path;
              default (Ok tt) (with_key (fun items =>
                match items with
                | JObject _ | JBool _ => each (fun item => validate_at items item (item_path path)) arr
                | _ => Ok tt
                end) (bs "items") kws)
          | _ => Ok tt
          end;
      _ ← default (Ok tt) (with_key (fun ms =>
            match ms with
            | JArray members =>
                guard_err (negb (count_ok (fun m => validate_at m value path) members =? 1)%nat)
                  (NotExactlyOne path)
            | _ => Ok tt
            end) (bs "oneOf") kws);
      _ ← default (Ok tt) (with_key (fun ms =>
            match ms with
            | JArray members =>
                guard_err (count_ok (fun m => validate_at m value path) members =? 0)%nat (NoneOf path)
            | _ => Ok tt
            end) (bs "anyOf") kws);
      _ ← default (Ok tt) (with_key (fun ms =>
            match ms with
            | JArray members => each (fun m => validate_at m value path) members
            | _ => Ok tt
            end) (bs "allOf") kws);
      default (Ok tt) (with_key (fun neg =>
        guard_err (is_ok (validate_at neg value path)) (MatchedNot path)) (bs "not") kws)
  | JBool allowed => guard_err (negb allowed) (Prohibited path)
  | _ => Err (NotASchema path)
  end.

Definition validate_schema (schema value : jvalue) : outcome violation unit :=
  validate_at schema value (bs "$").

(** ** The check of a schema *)

Definition check_type_kw (sub : jvalue) : outcome unsupported unit :=
  match sub with
  | JString s => guard_err (negb (bool_decide (s ∈ type_names))) (UnsupportedType s)
  | JArray arr => each (fun n =>
      guard_err (negb match as_str n with Some s => bool_decide (s ∈ type_names) | None => false end)
        UnsupportedTypeEntry) arr
  | _ => Ok tt
  end.

Definition is_kw (kw : bytes) (l : list string) : bool := bool_decide (kw ∈ bs <$> l).

Fixpoint check_supported (schema : jvalue) : outcome unsupported unit :=
  match schema with
  | JBool _ => Ok tt
  | JObject kws => each (fun '(kw, sub) =>
      _ ← guard_err (negb (bool_decide (kw ∈ supported_kws))) (UnsupportedKeyword kw);
      if is_kw kw ["properties"] then
        match sub with
        | JObject props => each (fun '(_, subschema) => check_supported subschema) props
        | _ => Ok tt
        end
      else if is_kw kw ["additionalProperties"; "items"] then
        match sub with JObject _ => check_supported sub | _ => Ok tt end
      else if is_kw kw ["not"] then
        match sub with JObject _ | JBool _ => check_supported sub | _ => Ok tt end
      else if is_kw kw ["prefixItems"; "oneOf"; "anyOf"; "allOf"] then
        match sub with
        | JArray arr => each (fun m =>
            match m with JObject _ | JBool _ => check_supported m | _ => Ok tt end) arr
        | _ => Ok tt
        end
      else if is_kw kw ["type"] then check_type_kw sub
      else Ok tt) kws
  | _ => Err NotObjectOrBoolean
  end.

End schema.
End Schema.
