(* ===== verification/SchemaSpec.v ===== *)
(** Correctness of schema validation: a value is accepted exactly when it
    meets every keyword of the schema, whatever the order of the keywords;
    a schema that passes the check uses supported keywords only, at every
    position validation reaches; and the keywords that are accepted but not
    enforced. *)

From Stdlib Require Import SpecFloat.
From S2P Require Import Prelude Utf8 Text StoreTypes Store Json Schema.
Import Json Schema.

Module SchemaSpec.

(** ** Outcomes without their messages *)

Lemma is_ok_iff {E} (o : outcome E unit) : is_ok o = true <-> o = Ok tt.
Proof. destruct o as [[]|?|]; naive_solver. Qed.

Lemma is_ok_then {E} (o : outcome E unit) (k : unit -> outcome E unit) :
  is_ok (o ≫= k) = is_ok o && is_ok (k tt).
Proof. by destruct o as [[]|?|]. Qed.

Lemma is_ok_guard {E} c (e : E) : is_ok (guard_err c e) = negb c.
Proof. by destruct c. Qed.

Lemma is_ok_each {E A} (f : A -> outcome E unit) l : is_ok (each f l) = forallb (fun x => is_ok (f x)) l.
Proof. induction l as [|x l IH]; [done|]. cbn. rewrite is_ok_then. by f_equal. Qed.

Lemma is_ok_when {A} (o : option A) fails e :
  is_ok (when o fails e) = match o with Some a => negb (fails a) | None => true end.
Proof. destruct o; [apply is_ok_guard|done]. Qed.

Lemma is_ok_default {A} (f : A -> outcome violation unit) (o : option A) :
  is_ok (default (Ok tt) (f <$> o)) = match o with Some a => is_ok (f a) | None => true end.
Proof. by destruct o. Qed.

Lemma forallb_ext_in {A} (f g : A -> bool) l :
  (forall x, x ∈ l -> f x = g x) -> forallb f l = forallb g l.
Proof.
  induction l as [|x l IH]; intros E; [done|]. cbn. f_equal; [apply E; by left|].
  apply IH. intros y Hy. apply E. by right.
Qed.

Lemma count_ok_ext {A} (f g : A -> outcome violation unit) l :
  (forall x, x ∈ l -> is_ok (f x) = is_ok (g x)) -> count_ok f l = count_ok g l.
Proof.
  unfold count_ok. induction l as [|x l IH]; intros E; [done|]. cbn. rewrite (E x) by (by left).
  destruct (is_ok (g x)); cbn; [f_equal|]; apply IH; intros y Hy; apply E; by right.
Qed.

Section spec.
Context `{JsonFloat}.

(** ** One level of a schema *)

Abbreviation keywords := (list (bytes * jvalue)).

(** What a declared or additional property is validated against. *)
Definition property_ok (kws : keywords) (k : bytes) (v : jvalue) (path : bytes) : bool :=
  match (jget (bs "properties") kws ≫= as_object) ≫= jget k with
  | Some sub => is_ok (validate_at sub v (sub_path path k))
  | None =>
      match jget (bs "additionalProperties") kws with
      | Some (JObject ap) => is_ok (validate_at (JObject ap) v (sub_path path k))
      | _ => extra_allowed kws
      end
  end.

Definition items_ok (kws : keywords) (arr : list jvalue) (path : bytes) : bool :=
  match jget (bs "items") kws with
  | Some ((JObject _ | JBool _) as items) =>
      forallb (fun item => is_ok (validate_at items item (item_path path))) arr
  | _ => true
  end.

Definition members_ok (k : string) (test : list jvalue -> bool) (kws : keywords) : bool :=
  match jget (bs k) kws with Some (JArray l) => test l | _ => true end.

Lemma validate_object kws v path :
  is_ok (validate_at (JObject kws) v path) =
    is_ok (check_type kws v path) && (is_ok (check_enum kws v path)
    && (is_ok (check_const kws v path) && (is_ok (check_length kws v path)
    && (is_ok (check_bounds kws v path)
    && (match v with
        | JObject obj => is_ok (check_size kws obj path) && (is_ok (check_required kws obj path)
            && forallb (fun e => property_ok kws e.1 e.2 path) obj)
        | _ => true
        end
    && (match v with
        | JArray arr => is_ok (check_count kws arr path) && (is_ok (check_unique kws arr path)
            && items_ok kws arr path)
        | _ => true
        end
    && (members_ok "oneOf" (fun l => count_ok (fun m => validate_at m v path) l =? 1)%nat kws
    && (members_ok "anyOf" (fun l => negb (count_ok (fun m => validate_at m v path) l =? 0)%nat) kws
    && (members_ok "allOf" (forallb (fun m => is_ok (validate_at m v path))) kws
    && match jget (bs "not") kws with
       | Some neg => negb (is_ok (validate_at neg v path))
       | None => true
       end))))))))).
Proof.
  cbn [validate_at]. rewrite !is_ok_then, !with_key_get, !is_ok_default.
  do 5 f_equal. f_equal; [|f_equal; [|f_equal; [|f_equal; [|f_equal]]]].
  - destruct v as [| | | | |obj]; try done. rewrite !is_ok_then, is_ok_each. do 2 f_equal.
    apply forallb_ext_in. intros [k x] _. unfold property_ok. cbn [fst snd].
    assert (forall (o : option jvalue), mjoin ((fun ap => match ap with
        | JObject _ => Some (validate_at ap) | _ => None end) <$> o)
      = match o with Some (JObject ap) => Some (validate_at (JObject ap)) | _ => None end) as Eap
      by (by intros [[]|]). rewrite Eap. clear Eap.
    assert (forall (o : option jvalue), is_ok (match match o with
          | Some (JObject ap) => Some (validate_at (JObject ap)) | _ => None end with
        | Some check => check x (sub_path path k)
        | None => guard_err (negb (extra_allowed kws)) (UnexpectedProperty path k) end)
      = match o with Some (JObject ap) => is_ok (validate_at (JObject ap) x (sub_path path k))
        | _ => extra_allowed kws end) as Eo.
    { intros [[]|]; try rewrite is_ok_guard, negb_involutive; done. }
    destruct (jget (bs "properties") kws) as [[| | | | |props]|]; cbn; try apply Eo.
    rewrite with_key_get. destruct (jget k props); cbn; [done|apply Eo].
  - destruct v as [| | | |arr|]; try done. rewrite !is_ok_then, with_key_get, is_ok_default.
    unfold items_ok. do 2 f_equal. destruct (jget (bs "items") kws) as [[]|]; try done; apply is_ok_each.
  - unfold members_ok. destruct (jget (bs "oneOf") kws) as [[]|]; try done.
    by rewrite is_ok_guard, negb_involutive.
  - unfold members_ok. destruct (jget (bs "anyOf") kws) as [[]|]; try done. apply is_ok_guard.
  - unfold members_ok. destruct (jget (bs "allOf") kws) as [[]|]; try done. apply is_ok_each.
  - destruct (jget (bs "not") kws); [apply is_ok_guard|done].
Qed.

(** ** The path only shows in messages *)

Definition same_verdict (s : jvalue) : Prop :=
  forall v p q, is_ok (validate_at s v p) = is_ok (validate_at s v q).

(** Every schema that validation visits below [s]. *)
Definition below (s : jvalue) : list jvalue :=
  match s with
  | JArray l => l
  | JObject m => m.*2
  | _ => []
  end.

Lemma jget_below k kws s : jget k kws = Some s -> s ∈ below (JObject kws).
Proof. intros Hg. apply list_elem_of_fmap. exists (k, s). split; [done|by apply jget_elem]. Qed.

(** The verdict of an object schema, when the schemas one and two levels below
    it have theirs. *)
Lemma object_verdict kws : Forall same_verdict kws.*2 -> Forall (fun s => Forall same_verdict (below s)) kws.*2 ->
  same_verdict (JObject kws).
Proof.
  intros IH1 IH2 v p q. rewrite !validate_object.
  assert (forall k s, jget k kws = Some s -> same_verdict s) as Hsub.
  { intros k s Hg. eapply Forall_forall; [exact IH1|by eapply jget_below]. }
  assert (forall k s t, jget k kws = Some s -> t ∈ below s -> same_verdict t) as Hsub2.
  { intros k s t Hg Ht. eapply Forall_forall; [|exact Ht]. apply (proj1 (Forall_forall _ _) IH2).
    by eapply jget_below. }
  repeat match goal with |- _ && _ = _ && _ => f_equal end.
  + unfold check_type. destruct (jget _ kws) as [[]|]; rewrite ?is_ok_guard; done.
  + unfold check_enum. destruct (get_array _ kws); rewrite ?is_ok_guard; done.
  + unfold check_const. destruct (jget _ kws); rewrite ?is_ok_guard; done.
  + unfold check_length. destruct v; rewrite ?is_ok_then, ?is_ok_when; done.
  + unfold check_bounds. destruct (as_f64 v); rewrite ?is_ok_then, ?is_ok_when; done.
  + destruct v as [| | | | |obj]; try done. f_equal; [|f_equal].
    * unfold check_size. rewrite !is_ok_then, !is_ok_when. done.
    * unfold check_required. destruct (get_array _ kws); [|done]. rewrite !is_ok_each.
      apply forallb_ext_in. intros x _. destruct (as_str x); [by rewrite !is_ok_guard|done].
    * apply forallb_ext_in. intros [k x] _. unfold property_ok. cbn [fst snd].
      assert (match jget (bs "additionalProperties") kws with
          | Some (JObject ap) => is_ok (validate_at (JObject ap) x (sub_path p k))
          | _ => extra_allowed kws end
        = match jget (bs "additionalProperties") kws with
          | Some (JObject ap) => is_ok (validate_at (JObject ap) x (sub_path q k))
          | _ => extra_allowed kws end) as Hx.
      { destruct (jget (bs "additionalProperties") kws) as [[]|] eqn:E; try done. by eapply Hsub. }
      destruct (jget (bs "properties") kws) as [[| | | | |props]|] eqn:E; cbn; try exact Hx.
      destruct (jget k props) eqn:E3; [|exact Hx]. eapply (Hsub2 _ _ _ E). by eapply jget_below.
  + destruct v as [| | | |arr|]; try done. f_equal; [|f_equal].
    * unfold check_count. rewrite !is_ok_then, !is_ok_when. done.
    * unfold check_unique. destruct (default _ _); [by rewrite !is_ok_guard|done].
    * unfold items_ok. destruct (jget (bs "items") kws) as [[]|] eqn:E; try done;
        apply forallb_ext_in; intros x _; by eapply Hsub.
  + unfold members_ok. destruct (jget (bs "oneOf") kws) as [[]|] eqn:E; try done. f_equal.
    apply count_ok_ext. intros x Hx. by eapply Hsub2.
  + unfold members_ok. destruct (jget (bs "anyOf") kws) as [[]|] eqn:E; try done. do 2 f_equal.
    apply count_ok_ext. intros x Hx. by eapply Hsub2.
  + unfold members_ok. destruct (jget (bs "allOf") kws) as [[]|] eqn:E; try done.
    apply forallb_ext_in. intros x Hx. by eapply Hsub2.
  + destruct (jget (bs "not") kws) eqn:E; [|done]. f_equal. by eapply Hsub.
Qed.

Lemma verdict_path s v p q : is_ok (validate_at s v p) = is_ok (validate_at s v q).
Proof.
  revert s v p q.
  enough (forall s, same_verdict s /\ Forall same_verdict (below s)
    /\ Forall (fun s => Forall same_verdict (below s)) (below s)) as Hs by (intros s; apply Hs).
  induction s as [| | | |l IH|kws IH] using jvalue_nested_ind;
    try (split_and!; [intros v p q; cbn; try done; by rewrite !is_ok_guard|constructor..]).
  - split_and!; [by intros v p q|..]; (eapply Forall_impl; [exact IH|]); naive_solver.
  - assert (Forall same_verdict kws.*2) as IH1 by (apply Forall_fmap; eapply Forall_impl; [exact IH|]; naive_solver).
    assert (Forall (fun s => Forall same_verdict (below s)) kws.*2) as IH2
      by (apply Forall_fmap; eapply Forall_impl; [exact IH|]; naive_solver).
    split_and!; [by apply object_verdict|done..].
Qed.

(** ** Validation always comes to a verdict *)

Definition settles {E A} (o : outcome E A) : Prop := o <> Panic.

Lemma settles_then {E A B} (o : outcome E A) (k : A -> outcome E B) :
  settles o -> (forall a, settles (k a)) -> settles (o ≫= k).
Proof. intros Ho Hk. destruct o; [apply Hk|done|done]. Qed.

Lemma settles_guard {E} c (x : E) : settles (guard_err c x).
Proof. by destruct c. Qed.

Lemma settles_when {A} (o : option A) fails x : settles (when o fails x).
Proof. destruct o; [apply settles_guard|done]. Qed.

Lemma settles_each {E A} (f : A -> outcome E unit) l :
  (forall x, x ∈ l -> settles (f x)) -> settles (each f l).
Proof.
  induction l as [|x l IH]; intros Hf; [done|]. cbn. apply settles_then; [apply Hf; by left|].
  intros _. apply IH. intros y Hy. apply Hf. by right.
Qed.

Create HintDb verdicts discriminated.
#[local] Hint Resolve settles_then settles_guard settles_when : verdicts.
#[local] Hint Extern 0 (settles (Ok _)) => discriminate : verdicts.
#[local] Hint Extern 0 (settles (Err _)) => discriminate : verdicts.

Lemma checks_settle kws v obj arr p :
  settles (check_type kws v p) /\ settles (check_enum kws v p) /\ settles (check_const kws v p)
  /\ settles (check_length kws v p) /\ settles (check_bounds kws v p) /\ settles (check_size kws obj p)
  /\ settles (check_required kws obj p) /\ settles (check_count kws arr p) /\ settles (check_unique kws arr p).
Proof.
  unfold check_type, check_enum, check_const, check_length, check_bounds, check_size, check_required,
    check_count, check_unique. split_and!; repeat case_match; auto 9 with verdicts.
  apply settles_each. intros x _. destruct (as_str x); auto with verdicts.
Qed.

Definition settled (s : jvalue) : Prop := forall v p, settles (validate_at s v p).

Lemma validate_settles s : settled s.
Proof.
  revert s.
  enough (forall s, settled s /\ Forall settled (below s)
    /\ Forall (fun s => Forall settled (below s)) (below s)) as Hs by (intros s; apply Hs).
  induction s as [| | | |l IH|kws IH] using jvalue_nested_ind;
    try (split_and!; [intros v p; cbn; auto with verdicts|constructor..]).
  - split_and!; [by intros v p|..]; (eapply Forall_impl; [exact IH|]); naive_solver.
  - assert (Forall settled kws.*2) as IH1 by (apply Forall_fmap; eapply Forall_impl; [exact IH|]; naive_solver).
    assert (Forall (fun s => Forall settled (below s)) kws.*2) as IH2
      by (apply Forall_fmap; eapply Forall_impl; [exact IH|]; naive_solver).
    split_and!; [|done..]. intros v p.
    assert (forall k s, jget k kws = Some s -> settled s) as Hsub.
    { intros k s Hg. eapply Forall_forall; [exact IH1|by eapply jget_below]. }
    assert (forall k s t, jget k kws = Some s -> t ∈ below s -> settled t) as Hsub2.
    { intros k s t Hg Ht. eapply Forall_forall; [|exact Ht]. apply (proj1 (Forall_forall _ _) IH2).
      by eapply jget_below. }
    cbn [validate_at]. rewrite !with_key_get.
    repeat (apply settles_then; [try apply (checks_settle kws v [] [] p)|intros _]).
    + destruct v as [| | | | |obj]; try done.
      repeat (apply settles_then; [apply (checks_settle kws (JObject obj) obj [] p)|intros _]).
      apply settles_each. intros [k x] _.
      assert (settles (match mjoin ((fun ap => match ap with JObject _ => Some (validate_at ap) | _ => None end)
            <$> jget (bs "additionalProperties") kws) with
          | Some check => check x (sub_path p k)
          | None => guard_err (negb (extra_allowed kws)) (UnexpectedProperty p k)
          end)) as Hx.
      { destruct (jget (bs "additionalProperties") kws) as [[]|] eqn:E; try apply settles_guard.
        exact (Hsub _ _ E x _). }
      destruct (jget (bs "properties") kws) as [[| | | | |props]|] eqn:E; try exact Hx.
      cbn [fmap option_fmap option_map mbind option_bind]. rewrite with_key_get.
      destruct (jget k props) eqn:E3; [|exact Hx]. apply (Hsub2 _ _ _ E). by eapply jget_below.
    + destruct v as [| | | |arr|]; try done.
      repeat (apply settles_then; [apply (checks_settle kws (JArray arr) [] arr p)|intros _]).
      rewrite with_key_get. destruct (jget (bs "items") kws) as [[]|] eqn:E; try done;
        apply (settles_each (fun x => validate_at _ x _)); intros x _; exact (Hsub _ _ E x _).
    + destruct (jget (bs "oneOf") kws) as [[]|]; cbn; auto with verdicts.
    + destruct (jget (bs "anyOf") kws) as [[]|]; cbn; auto with verdicts.
    + destruct (jget (bs "allOf") kws) as [[]|] eqn:E; try done.
      apply (settles_each (fun m => validate_at m v p)). intros x Hx. exact (Hsub2 _ _ _ E Hx v p).
    + destruct (jget (bs "not") kws); cbn; auto with verdicts.
Qed.

(** ** What a schema means *)

Definition accepts (s v : jvalue) : Prop := validate_schema s v = Ok tt.

Lemma accepts_at s v p : is_ok (validate_at s v p) = true <-> accepts s v.
Proof. unfold accepts, validate_schema. rewrite <-is_ok_iff. by rewrite (verdict_path s v p (bs "$")). Qed.

Lemma refuses_at s v p : is_ok (validate_at s v p) = false <-> ~ accepts s v.
Proof. rewrite <-(accepts_at s v p). destruct (is_ok _); naive_solver. Qed.

Definition is_schema (s : jvalue) : bool := match s with JObject _ | JBool _ => true | _ => false end.

(** A numeric limit [n] given by [s], on the length of a value. *)
Definition at_least (s : jvalue) (len : nat) : Prop :=
  forall n, as_i64 s = Some n -> as_usize n <= Z.of_nat len.
Definition at_most (s : jvalue) (len : nat) : Prop :=
  forall n, as_i64 s = Some n -> Z.of_nat len <= as_usize n.
Definition numbers (R : spec_float -> spec_float -> Prop) (s v : jvalue) : Prop :=
  forall m n, as_f64 s = Some m -> as_f64 v = Some n -> R n m.

(** What each keyword, given the value [s], asks of [v]. *)
Definition keyword_rules : list (string * (jvalue -> jvalue -> Prop)) := [
  ("type", fun s v => match s with
     | JString t => matches_type t v = true
     | JArray ts => exists t, JString t ∈ ts /\ matches_type t v = true
     | _ => True end);
  ("enum", fun s v => forall l, s = JArray l -> exists m, m ∈ l /\ jeq m v = true);
  ("const", fun s v => jeq s v = true);
  ("minLength", fun s v => forall str, v = JString str -> at_least s (length str));
  ("maxLength", fun s v => forall str, v = JString str -> at_most s (length str));
  ("minimum", numbers (fun n m => SFltb n m = false));
  ("maximum", numbers (fun n m => SFltb m n = false));
  ("exclusiveMinimum", numbers (fun n m => SFltb m n = true));
  ("exclusiveMaximum", numbers (fun n m => SFltb n m = true));
  ("multipleOf", numbers (fun n m => not_multiple n m = false));
  ("maxProperties", fun s v => forall obj, v = JObject obj -> at_most s (length obj));
  ("minProperties", fun s v => forall obj, v = JObject obj -> at_least s (length obj));
  ("required", fun s v => forall l obj x, s = JArray l -> v = JObject obj -> x ∈ l ->
     exists name, x = JString name /\ is_Some (jget name obj));
  ("maxItems", fun s v => forall arr, v = JArray arr -> at_most s (length arr));
  ("minItems", fun s v => forall arr, v = JArray arr -> at_least s (length arr));
  ("uniqueItems", fun s v => forall arr i j x y, s = JBool true -> v = JArray arr -> (i < j)%nat ->
     arr !! i = Some x -> arr !! j = Some y -> jeq x y = false);
  ("items", fun s v => forall arr x, v = JArray arr -> is_schema s = true -> x ∈ arr -> accepts s x);
  ("oneOf", fun s v => forall l, s = JArray l -> exists i m, l !! i = Some m /\ accepts m v
     /\ forall j m', l !! j = Some m' -> accepts m' v -> j = i);
  ("anyOf", fun s v => forall l, s = JArray l -> exists m, m ∈ l /\ accepts m v);
  ("allOf", fun s v => forall l, s = JArray l -> forall m, m ∈ l -> accepts m v);
  ("not", fun s v => ~ accepts s v)]%string.

(** The two keywords that are read together. *)
Definition properties_rule (kws : keywords) (v : jvalue) : Prop :=
  forall obj k x, v = JObject obj -> (k, x) ∈ obj ->
    match (jget (bs "properties") kws ≫= as_object) ≫= jget k with
    | Some sub => accepts sub x
    | None => match jget (bs "additionalProperties") kws with
              | Some (JObject ap) => accepts (JObject ap) x
              | Some (JBool false) => False
              | _ => True
              end
    end.

(** *** The checks, as rules *)

Lemma existsb_elem {A} (f : A -> bool) l : existsb f l = true <-> exists x, x ∈ l /\ f x = true.
Proof. rewrite existsb_exists. by setoid_rewrite <-list_elem_of_In. Qed.

Lemma forallb_elem {A} (f : A -> bool) l : forallb f l = true <-> forall x, x ∈ l -> f x = true.
Proof. rewrite forallb_forall. by setoid_rewrite <-list_elem_of_In. Qed.

Lemma when_i64 k kws f e : is_ok (when (get_i64 k kws) f e) = true
  <-> forall s, jget (bs k) kws = Some s -> forall n, as_i64 s = Some n -> f n = false.
Proof.
  rewrite is_ok_when. unfold get_i64. destruct (jget (bs k) kws) as [s|]; cbn; [|naive_solver].
  destruct (as_i64 s) eqn:E; [|naive_solver]. rewrite negb_true_iff. naive_solver.
Qed.

Lemma when_f64 k kws f e : is_ok (when (get_f64 k kws) f e) = true
  <-> forall s, jget (bs k) kws = Some s -> forall m, as_f64 s = Some m -> f m = false.
Proof.
  rewrite is_ok_when. unfold get_f64. destruct (jget (bs k) kws) as [s|]; cbn; [|naive_solver].
  destruct (as_f64 s) eqn:E; [|naive_solver]. rewrite negb_true_iff. naive_solver.
Qed.

(** A keyword that is absent, or a value it does not speak about. *)
Ltac vacuous := solve [split; [intros _; split_and?; intros; by simplify_eq/=|done]].

Lemma members_rule k test kws : members_ok k test kws = true
  <-> forall s, jget (bs k) kws = Some s -> forall l, s = JArray l -> test l = true.
Proof. unfold members_ok. destruct (jget (bs k) kws) as [[]|]; naive_solver. Qed.

Lemma type_rule kws v p : is_ok (check_type kws v p) = true
  <-> forall s, jget (bs "type") kws = Some s -> match s with
     | JString t => matches_type t v = true
     | JArray ts => exists t, JString t ∈ ts /\ matches_type t v = true
     | _ => True end.
Proof.
  unfold check_type. destruct (jget (bs "type") kws) as [[]|]; try vacuous; rewrite is_ok_guard, negb_involutive.
  - naive_solver.
  - rewrite existsb_elem. split.
    + intros ([] & Hx & Hm) _ [= <-]; try done. by eexists.
    + intros Hs. destruct (Hs _ eq_refl) as (t & Ht & Hm). by exists (JString t).
Qed.

Lemma unique_spec arr : has_duplicate arr = false
  <-> forall i j x y, (i < j)%nat -> arr !! i = Some x -> arr !! j = Some y -> jeq x y = false.
Proof.
  induction arr as [|a arr IH]; [done|]. cbn. rewrite orb_false_iff, IH. split.
  - intros [Ha Hr] [|i] [|j] x y Hij Hx Hy; try lia; cbn in *; simplify_eq.
    + destruct (jeq x y) eqn:E; [|done]. rewrite <-Ha. symmetry. apply existsb_elem.
      exists y. split; [by eapply list_elem_of_lookup_2|done].
    + eapply (Hr i j); [lia|done..].
  - intros Hu. split.
    + apply not_true_iff_false. intros (y & [j Hj]%list_elem_of_lookup & E)%existsb_elem.
      specialize (Hu 0%nat (S j) a y ltac:(lia) eq_refl Hj). congruence.
    + intros i j x y Hij Hx Hy. apply (Hu (S i) (S j)); [lia|done..].
Qed.

Lemma count_none {A} (f : A -> outcome violation unit) l :
  count_ok f l = 0%nat <-> forall x, x ∈ l -> is_ok (f x) = false.
Proof.
  unfold count_ok. induction l as [|a l IH]; cbn; [set_solver|].
  destruct (is_ok (f a)) eqn:E; cbn.
  - split; [lia|]. intros Hx. specialize (Hx a ltac:(by left)). congruence.
  - rewrite IH. split; [intros Hx x [->|Hin]%elem_of_cons; auto|]. intros Hx x Hin. apply Hx. by right.
Qed.

Lemma count_one {A} (f : A -> outcome violation unit) l :
  count_ok f l = 1%nat <-> exists i x, l !! i = Some x /\ is_ok (f x) = true
    /\ forall j y, l !! j = Some y -> is_ok (f y) = true -> j = i.
Proof.
  unfold count_ok. induction l as [|a l IH]; cbn; [split; [done|]; by intros (? & ? & ? & _)|].
  destruct (is_ok (f a)) eqn:E; cbn.
  - split.
    + intros [= Hz]. exists 0%nat, a. split_and!; [done..|]. intros [|j] y Hj Hy; [done|].
      apply (list_elem_of_lookup_2 l j) in Hj. exfalso.
      pose proof (proj1 (count_none f l) Hz y Hj) as Hn. rewrite Hy in Hn. done.
    + intros (i & x & Hi & Hx & Hu). f_equal. apply (count_none f). intros y [j Hj]%list_elem_of_lookup.
      apply not_true_iff_false. intros Hy. pose proof (Hu (S j) y Hj Hy) as E1.
      pose proof (Hu 0%nat a eq_refl E). lia.
  - rewrite IH. split; intros (i & x & Hi & Hx & Hu).
    + exists (S i), x. split_and!; [done..|]. intros [|j] y Hj Hy; cbn in *; [congruence|]. f_equal. eauto.
    + destruct i as [|i]; cbn in *; [congruence|]. exists i, x. split_and!; [done..|].
      intros j y Hj Hy. specialize (Hu (S j) y Hj Hy). lia.
Qed.

Lemma required_rule kws obj p : is_ok (check_required kws obj p) = true
  <-> forall s, jget (bs "required") kws = Some s -> forall l x, s = JArray l -> x ∈ l ->
        exists name, x = JString name /\ is_Some (jget name obj).
Proof.
  unfold check_required, get_array. destruct (jget (bs "required") kws) as [[]|]; cbn; try naive_solver.
  rewrite is_ok_each, forallb_elem.
  assert (forall x, is_ok (match as_str x with
      | None => Err (RequiredNotString p)
      | Some name => guard_err (negb (bool_decide (is_Some (jget name obj)))) (MissingProperty p name)
      end) = true <-> exists name, x = JString name /\ is_Some (jget name obj)) as E.
  { intros []; cbn; try naive_solver. rewrite is_ok_guard, negb_involutive, bool_decide_eq_true. naive_solver. }
  setoid_rewrite E. naive_solver.
Qed.

Lemma property_rule kws obj p : forallb (fun e => property_ok kws e.1 e.2 p) obj = true
  <-> properties_rule kws (JObject obj).
Proof.
  rewrite forallb_elem. unfold properties_rule, property_ok, extra_allowed.
  assert (forall k x, match (jget (bs "properties") kws ≫= as_object) ≫= jget k with
      | Some sub => is_ok (validate_at sub x (sub_path p k))
      | None => match jget (bs "additionalProperties") kws with
          | Some (JObject ap) => is_ok (validate_at (JObject ap) x (sub_path p k))
          | _ => default true (jget (bs "additionalProperties") kws ≫= as_bool) end end = true
    <-> match (jget (bs "properties") kws ≫= as_object) ≫= jget k with
      | Some sub => accepts sub x
      | None => match jget (bs "additionalProperties") kws with
          | Some (JObject ap) => accepts (JObject ap) x
          | Some (JBool false) => False
          | _ => True end end) as E.
  { intros k x. destruct (_ ≫= jget k); [apply accepts_at|].
    destruct (jget (bs "additionalProperties") kws) as [[|[]| | | |]|]; try done. apply accepts_at. }
  split.
  - intros Hx ? k x [= <-] Hin. apply E, (Hx (k, x) Hin).
  - intros Hx [k x] Hin. apply E, (Hx obj k x eq_refl Hin).
Qed.

Lemma items_rule kws arr p : items_ok kws arr p = true
  <-> forall s, jget (bs "items") kws = Some s -> is_schema s = true -> forall x, x ∈ arr -> accepts s x.
Proof.
  unfold items_ok. destruct (jget (bs "items") kws) as [[]|]; try vacuous;
    rewrite forallb_elem; setoid_rewrite accepts_at;
    (split; [intros Hx s [= <-] _; exact Hx|intros Hx; by apply Hx]).
Qed.

Lemma enum_rule kws v p : is_ok (check_enum kws v p) = true
  <-> forall s, jget (bs "enum") kws = Some s -> forall l, s = JArray l -> exists m, m ∈ l /\ jeq m v = true.
Proof.
  unfold check_enum, get_array. destruct (jget (bs "enum") kws) as [[]|]; cbn; try vacuous.
  rewrite is_ok_guard, negb_involutive, existsb_elem. naive_solver.
Qed.

Lemma const_rule kws v p : is_ok (check_const kws v p) = true
  <-> forall s, jget (bs "const") kws = Some s -> jeq s v = true.
Proof.
  unfold check_const. destruct (jget (bs "const") kws); [|naive_solver].
  rewrite is_ok_guard, negb_involutive. naive_solver.
Qed.

Lemma length_rule kws v p : is_ok (check_length kws v p) = true
  <-> (forall s, jget (bs "minLength") kws = Some s -> forall str, v = JString str -> at_least s (length str))
    /\ (forall s, jget (bs "maxLength") kws = Some s -> forall str, v = JString str -> at_most s (length str)).
Proof.
  unfold check_length, at_least, at_most. destruct v; try vacuous.
  rewrite is_ok_then, andb_true_iff, !when_i64. setoid_rewrite Z.ltb_ge. naive_solver.
Qed.

Lemma bounds_rule kws v p : is_ok (check_bounds kws v p) = true
  <-> (forall s, jget (bs "minimum") kws = Some s -> numbers (fun n m => SFltb n m = false) s v)
    /\ (forall s, jget (bs "maximum") kws = Some s -> numbers (fun n m => SFltb m n = false) s v)
    /\ (forall s, jget (bs "exclusiveMinimum") kws = Some s -> numbers (fun n m => SFltb m n = true) s v)
    /\ (forall s, jget (bs "exclusiveMaximum") kws = Some s -> numbers (fun n m => SFltb n m = true) s v)
    /\ (forall s, jget (bs "multipleOf") kws = Some s -> numbers (fun n m => not_multiple n m = false) s v).
Proof.
  unfold check_bounds, numbers. destruct (as_f64 v) as [n|] eqn:E; [|naive_solver].
  rewrite !is_ok_then, !andb_true_iff, !when_f64. setoid_rewrite negb_false_iff. naive_solver.
Qed.

Lemma size_rule kws obj p : is_ok (check_size kws obj p) = true
  <-> (forall s, jget (bs "maxProperties") kws = Some s -> at_most s (length obj))
    /\ (forall s, jget (bs "minProperties") kws = Some s -> at_least s (length obj)).
Proof.
  unfold check_size, at_least, at_most. rewrite is_ok_then, andb_true_iff, !when_i64. by setoid_rewrite Z.ltb_ge.
Qed.

Lemma count_rule kws arr p : is_ok (check_count kws arr p) = true
  <-> (forall s, jget (bs "maxItems") kws = Some s -> at_most s (length arr))
    /\ (forall s, jget (bs "minItems") kws = Some s -> at_least s (length arr)).
Proof.
  unfold check_count, at_least, at_most. rewrite is_ok_then, andb_true_iff, !when_i64. by setoid_rewrite Z.ltb_ge.
Qed.

Lemma unique_rule kws arr p : is_ok (check_unique kws arr p) = true
  <-> forall s, jget (bs "uniqueItems") kws = Some s -> s = JBool true -> forall i j x y, (i < j)%nat ->
        arr !! i = Some x -> arr !! j = Some y -> jeq x y = false.
Proof.
  unfold check_unique. destruct (jget (bs "uniqueItems") kws) as [[|[]| | | |]|]; cbn; try naive_solver.
  rewrite is_ok_guard, negb_true_iff, unique_spec. naive_solver.
Qed.

Lemma any_rule l v p : negb (count_ok (fun m => validate_at m v p) l =? 0)%nat = true
  <-> exists m, m ∈ l /\ accepts m v.
Proof.
  rewrite negb_true_iff, Nat.eqb_neq. split.
  - intros Hc. destruct (existsb (fun m => is_ok (validate_at m v p)) l) eqn:E.
    + apply existsb_elem in E as (m & Hm & E). exists m. split; [done|]. by apply accepts_at in E.
    + exfalso. apply Hc, count_none. intros x Hx. destruct (is_ok (validate_at x v p)) eqn:Ex; [|done].
      rewrite <-E. symmetry. apply existsb_elem. by exists x.
  - intros (m & Hm & Ha) Hc. apply (proj1 (count_none _ _) Hc) in Hm. by apply refuses_at in Hm.
Qed.

Lemma not_rule kws v p : match jget (bs "not") kws with
    | Some neg => negb (is_ok (validate_at neg v p)) | None => true end = true
  <-> forall s, jget (bs "not") kws = Some s -> ~ accepts s v.
Proof.
  destruct (jget (bs "not") kws); [|naive_solver]. rewrite negb_true_iff, refuses_at. naive_solver.
Qed.

Lemma object_rule kws v p : match v with
    | JObject obj => is_ok (check_size kws obj p) && (is_ok (check_required kws obj p)
        && forallb (fun e => property_ok kws e.1 e.2 p) obj)
    | _ => true end = true
  <-> properties_rule kws v
    /\ (forall s, jget (bs "maxProperties") kws = Some s -> forall obj, v = JObject obj -> at_most s (length obj))
    /\ (forall s, jget (bs "minProperties") kws = Some s -> forall obj, v = JObject obj -> at_least s (length obj))
    /\ (forall s, jget (bs "required") kws = Some s -> forall l obj x, s = JArray l -> v = JObject obj ->
          x ∈ l -> exists name, x = JString name /\ is_Some (jget name obj)).
Proof.
  destruct v as [| | | | |obj]; try (unfold properties_rule; naive_solver).
  rewrite !andb_true_iff, size_rule, required_rule, property_rule. naive_solver.
Qed.

Lemma array_rule kws v p : match v with
    | JArray arr => is_ok (check_count kws arr p) && (is_ok (check_unique kws arr p) && items_ok kws arr p)
    | _ => true end = true
  <-> (forall s, jget (bs "maxItems") kws = Some s -> forall arr, v = JArray arr -> at_most s (length arr))
    /\ (forall s, jget (bs "minItems") kws = Some s -> forall arr, v = JArray arr -> at_least s (length arr))
    /\ (forall s, jget (bs "uniqueItems") kws = Some s -> forall arr i j x y, s = JBool true -> v = JArray arr ->
          (i < j)%nat -> arr !! i = Some x -> arr !! j = Some y -> jeq x y = false)
    /\ (forall s, jget (bs "items") kws = Some s -> forall arr x, v = JArray arr -> is_schema s = true ->
          x ∈ arr -> accepts s x).
Proof.
  destruct v as [| | | |arr|]; try vacuous.
  rewrite !andb_true_iff, count_rule, unique_rule, items_rule. naive_solver.
Qed.

(** C36: validation is exact.  A boolean schema accepts everything or nothing;
    an object accepts a value exactly when the value meets the rule of every
    keyword the object holds, so neither the order of the keywords nor the
    order of the checks matters; nothing else is a schema. *)
Theorem validate_exact s v :
  accepts s v <-> match s with
    | JBool b => b = true
    | JObject kws => properties_rule kws v
        /\ Forall (fun '(k, rule) => forall sub, jget (bs k) kws = Some sub -> rule sub v) keyword_rules
    | _ => False
    end.
Proof.
  unfold accepts at 1, validate_schema. rewrite <-is_ok_iff.
  destruct s as [|b| | | |kws]; [done|destruct b; cbn; naive_solver|done..|].
  rewrite validate_object, !andb_true_iff, type_rule, enum_rule, const_rule, length_rule, bounds_rule,
    object_rule, array_rule, !members_rule, not_rule.
  unfold keyword_rules. rewrite !Forall_cons, Forall_nil.
  setoid_rewrite Nat.eqb_eq. setoid_rewrite count_one. setoid_rewrite any_rule.
  setoid_rewrite forallb_elem. setoid_rewrite accepts_at.
  tauto.
Qed.

(** ** The check when a schema is set *)

(** [visits s t]: validating against [s] may validate against [t]. *)
Inductive visits : jvalue -> jvalue -> Prop :=
| visits_self s : visits s s
| visits_property kws props k t u :
    jget (bs "properties") kws = Some (JObject props) -> jget k props = Some t ->
    visits t u -> visits (JObject kws) u
| visits_additional kws ap u :
    jget (bs "additionalProperties") kws = Some (JObject ap) -> visits (JObject ap) u ->
    visits (JObject kws) u
| visits_items kws items u :
    jget (bs "items") kws = Some items -> is_schema items = true -> visits items u ->
    visits (JObject kws) u
| visits_member kws k l m u :
    k ∈ ["oneOf"; "anyOf"; "allOf"]%string -> jget (bs k) kws = Some (JArray l) -> m ∈ l ->
    visits m u -> visits (JObject kws) u
| visits_not kws neg u :
    jget (bs "not") kws = Some neg -> visits neg u -> visits (JObject kws) u.

Lemma each_ok {E A} (f : A -> outcome E unit) l : each f l = Ok tt <-> forall x, x ∈ l -> f x = Ok tt.
Proof.
  rewrite <-is_ok_iff, is_ok_each, forallb_elem. by setoid_rewrite is_ok_iff.
Qed.

(** The check of one keyword. *)
Lemma check_object kws : check_supported (JObject kws) = Ok tt ->
  forall kw sub, jget kw kws = Some sub ->
    kw ∈ supported_kws
    /\ (kw = bs "properties" -> forall props k t, sub = JObject props -> jget k props = Some t ->
          check_supported t = Ok tt)
    /\ (kw = bs "additionalProperties" -> forall ap, sub = JObject ap -> check_supported sub = Ok tt)
    /\ (kw = bs "items" -> is_schema sub = true -> check_supported sub = Ok tt)
    /\ (kw = bs "not" -> is_schema sub = true -> check_supported sub = Ok tt)
    /\ (kw ∈ bs <$> ["prefixItems"; "oneOf"; "anyOf"; "allOf"]%string -> forall l m, sub = JArray l -> m ∈ l ->
          is_schema m = true -> check_supported m = Ok tt)
    /\ (kw = bs "type" -> check_type_kw sub = Ok tt).
Proof.
  intros Hc kw sub Hg%jget_elem. cbn [check_supported] in Hc. pose proof (proj1 (each_ok _ _) Hc _ Hg) as Hk.
  clear Hc Hg. cbn beta iota in Hk. apply bind_ok in Hk as ([] & Hs & Hk).
  apply guard_err_ok, negb_false_iff, bool_decide_eq_true in Hs. split; [done|].
  split_and!; intros Hkw.
  - subst kw. intros props k t -> Ht%jget_elem. cbn in Hk.
    exact (proj1 (each_ok _ _) Hk _ Ht).
  - subst kw. by intros ap ->.
  - subst kw. by destruct sub.
  - subst kw. by destruct sub.
  - intros l m -> Hm Hi.
    assert (each (fun m => match m with JObject _ | JBool _ => check_supported m | _ => Ok tt end) l = Ok tt) as He.
    { repeat (apply elem_of_cons in Hkw as [->|Hkw]; [exact Hk|]). by apply elem_of_nil in Hkw. }
    pose proof (proj1 (each_ok _ _) He _ Hm) as Hr. by destruct m.
  - by subst kw.
Qed.

(** A schema that passes the check uses supported keywords and known type
    names only, in every schema that validating against it can reach. *)
Theorem supported_everywhere s t :
  check_supported s = Ok tt -> visits s t ->
  forall kws, t = JObject kws ->
    check_supported t = Ok tt /\ check_type_kw (default JNull (jget (bs "type") kws)) = Ok tt
    /\ forall kw sub, jget kw kws = Some sub -> kw ∈ supported_kws.
Proof.
  intros Hc Hv kws Ht.
  assert (check_supported t = Ok tt) as Hct.
  { assert (is_schema t = true) as Hi by (by subst). clear Ht.
    induction Hv as [s|kws1 props k s u Hp Hk Hv IH|kws1 ap u Ha Hv IH|kws1 items u Hit His Hv IH
      |kws1 k l m u Hk Hg Hm Hv IH|kws1 neg u Hn Hv IH]; [done|..]; apply IH; try done.
    - destruct (check_object kws1 Hc _ _ Hp) as (_ & R & _). by eapply (R eq_refl).
    - destruct (check_object kws1 Hc _ _ Ha) as (_ & _ & R & _). by eapply (R eq_refl).
    - destruct (check_object kws1 Hc _ _ Hit) as (_ & _ & _ & R & _). by apply R.
    - destruct (check_object kws1 Hc _ _ Hg) as (_ & _ & _ & _ & _ & R & _).
      destruct (is_schema m) eqn:Em; [|inversion Hv; subst; simpl in *; congruence].
      eapply R; [|done..]. apply list_elem_of_fmap_2. set_solver.
    - destruct (check_object kws1 Hc _ _ Hn) as (_ & _ & _ & _ & R & _).
      destruct (is_schema neg) eqn:Em; [by apply R|inversion Hv; subst; simpl in *; congruence]. }
  subst t. split_and!; [done| |].
  - destruct (jget (bs "type") kws) eqn:E; [|done].
    destruct (check_object kws Hct _ _ E) as (_ & _ & _ & _ & _ & _ & R). by apply R.
  - intros kw sub Hg. by destruct (check_object kws Hct _ _ Hg).
Qed.

(** ** What a supported schema does not enforce *)

Definition int (t : string) : jvalue := JNumber (bs t).

Lemma small_string (str : bytes) : Z.of_nat (length str) < 2 ^ 64 - 1 ->
  ~ accepts (jobj [("minLength"%string, int "-1")]) (JString str)
  /\ accepts (jobj [("maxLength"%string, int "-1")]) (JString str).
Proof.
  intros Hl. assert (as_usize (-1) = 2 ^ 64 - 1) as Eu by done.
  assert (as_i64 (int "-1") = Some (-1)) as Ei by done.
  unfold accepts, validate_schema. split.
  - intros Hv. apply is_ok_iff in Hv. unfold jobj in Hv. rewrite validate_object in Hv.
    apply andb_true_iff in Hv as [_ Hv]. do 2 apply andb_true_iff in Hv as [_ Hv].
    apply andb_true_iff in Hv as [Hv _]. apply length_rule in Hv as [Hm _].
    specialize (Hm _ eq_refl str eq_refl _ Ei). rewrite Eu in Hm. lia.
  - apply is_ok_iff. unfold jobj. rewrite validate_object, !andb_true_iff.
    split_and!; try done. apply length_rule. split; [done|]. intros s [= <-] str' [= <-] n Hn.
    rewrite Ei in Hn. simplify_eq. rewrite Eu. lia.
Qed.

Lemma prefix_items_ignored l v : accepts (jobj [("prefixItems"%string, JArray l)]) v.
Proof.
  unfold accepts, validate_schema. apply is_ok_iff. unfold jobj. rewrite validate_object, !andb_true_iff.
  split_and!; try done; destruct v as [| | | | |obj]; try done.
  rewrite !andb_true_iff. split_and!; [done..|]. by apply forallb_elem.
Qed.

(** Four schemas pass the check although validation does not mean what
    they say: [prefixItems] is never looked at; a member of [allOf] that is no
    schema refuses every value; a negative [minLength] refuses every string
    and a negative [maxLength] refuses none; and [0.3] is not a multiple of
    [0.1]. *)
Theorem schema_gaps :
  check_supported (jobj [("prefixItems"%string, JArray [JBool false])]) = Ok tt
  /\ (forall l v, accepts (jobj [("prefixItems"%string, JArray l)]) v)
  /\ (forall v, let s := jobj [("allOf"%string, JArray [int "5"])] in
     check_supported s = Ok tt /\ ~ accepts s v)
  /\ (forall str, Z.of_nat (length str) < 2 ^ 64 - 1 ->
     let least := jobj [("minLength"%string, int "-1")] in
     let most := jobj [("maxLength"%string, int "-1")] in
     check_supported least = Ok tt /\ ~ accepts least (JString str)
     /\ check_supported most = Ok tt /\ accepts most (JString str))
  /\ (f64_of_text (bs "0.3") = SFdiv prec64 emax64 (f64_of_int 3) (f64_of_int 10) ->
      f64_of_text (bs "0.1") = SFdiv prec64 emax64 (f64_of_int 1) (f64_of_int 10) ->
      let s := jobj [("multipleOf"%string, int "0.1")] in
      check_supported s = Ok tt /\ ~ accepts s (int "0.3")).
Proof.
  split_and!.
  - done.
  - apply prefix_items_ignored.
  - intros v. split; [done|]. unfold accepts, validate_schema. intros Hv. apply is_ok_iff in Hv.
    unfold jobj in Hv. rewrite validate_object, !andb_true_iff in Hv.
    by destruct Hv as (_ & _ & _ & _ & _ & _ & _ & _ & _ & Hv & _).
  - intros str Hl. destruct (small_string str Hl). by split_and!.
  - intros E3 E1. split; [done|]. unfold accepts, validate_schema. intros Hv. apply is_ok_iff in Hv.
    unfold jobj in Hv. rewrite validate_object in Hv.
    apply andb_true_iff in Hv as [_ Hv]. do 3 apply andb_true_iff in Hv as [_ Hv].
    apply andb_true_iff in Hv as [Hv _]. apply bounds_rule in Hv as (_ & _ & _ & _ & Hm).
    specialize (Hm _ eq_refl (f64_of_text (bs "0.1")) (f64_of_text (bs "0.3")) eq_refl eq_refl).
    rewrite E1, E3 in Hm. vm_compute in Hm. done.
Qed.

End spec.

(** ** Examples *)

(** Short decimals: the quotient of two integers that floats hold exactly. *)
Definition decimal_digits (t : bytes) : Z :=
  fold_left (fun acc b => if is_digit b then acc * 10 + (b2z b - 48) else acc) t 0.
Definition decimal_places (t : bytes) : Z :=
  Z.of_nat (length (nth 1 (Text.split_on Byte.x2e t) [])).
#[local] Instance decimal_floats : JsonFloat := {|
  f64_of_text t := SFdiv prec64 emax64 (f64_of_int (decimal_digits t)) (f64_of_int (10 ^ decimal_places t));
|}.

#[local] Open Scope string_scope.

(** The schemas of the module's tests. *)
Definition post_schema : jvalue := jobj [
  ("type", jstr "object");
  ("properties", jobj [("title", jobj [("type", jstr "string"); ("minLength", int "1")])]);
  ("required", JArray [jstr "title"]); ("additionalProperties", JBool false)].
Definition list_schema : jvalue := jobj [
  ("type", jstr "array"); ("items", jobj [("type", jstr "integer")]); ("minItems", int "1");
  ("uniqueItems", JBool true)].
Definition number_schema : jvalue := jobj [
  ("type", jstr "number"); ("minimum", int "0"); ("exclusiveMaximum", int "100"); ("multipleOf", int "5")].
Definition choice_schema : jvalue := jobj [
  ("anyOf", JArray [jobj [("type", jstr "string")]; jobj [("type", jstr "integer")]]);
  ("not", jobj [("enum", JArray [jstr "blocked"])])].

Definition verdicts (s : jvalue) (vs : list jvalue) : list bool :=
  (fun v => is_ok (validate_schema s v)) <$> vs.

Example post_verdicts : verdicts post_schema
  [jobj [("title", jstr "hi")]; jobj [("title", jstr "")]; jobj [("title", jstr "ok"); ("extra", int "1")];
   jobj [("other", int "1")]; JArray [int "1"; int "2"]] = [true; false; false; false; false].
Proof. vm_compute. reflexivity. Qed.

Example list_verdicts : verdicts list_schema
  [JArray [int "1"; int "2"; int "3"]; JArray []; JArray [int "1"; int "1"]; JArray [int "1"; int "2.5"]]
  = [true; false; false; false].
Proof. vm_compute. reflexivity. Qed.

Example number_verdicts : verdicts number_schema [int "50"; int "3"; int "-1"; int "100"; int "2.5"]
  = [true; false; false; false; false].
Proof. vm_compute. reflexivity. Qed.

Example choice_verdicts : verdicts choice_schema [jstr "x"; int "5"; JBool true; jstr "blocked"]
  = [true; true; false; false].
Proof. vm_compute. reflexivity. Qed.

Lemma supported_everywhere_witness :
  let title := jobj [("type", jstr "string"); ("minLength", int "1")] in
  check_supported title = Ok tt.
Proof.
  assert (visits post_schema (jobj [("type", jstr "string"); ("minLength", int "1")])) as Hv.
  { eapply (visits_property _ _ (bs "title")); [vm_compute; reflexivity|vm_compute; reflexivity|apply visits_self]. }
  apply (supported_everywhere post_schema _ ltac:(vm_compute; reflexivity) Hv _ eq_refl).
Defined.

Lemma schema_gaps_witness :
  (~ accepts (jobj [("minLength", int "-1")]) (jstr "hello"))
  /\ ~ accepts (jobj [("multipleOf", int "0.1")]) (int "0.3").
Proof.
  split.
  - apply (proj1 (proj2 (proj2 (proj2 schema_gaps))) (bs "hello") ltac:(vm_compute; done)).
  - apply (proj2 (proj2 (proj2 (proj2 schema_gaps)))); vm_compute; reflexivity.
Defined.

End SchemaSpec.
