(* ===== verification/Ident.v ===== *)
(** Host identities ([src/core/ident.rs]): key pairs, public keys, signatures
    and the text form of a public key.  The ed25519 primitives are a
    parameter. *)

From S2P Require Import Prelude Crc32 LogFormat Utf8 StoreTypes.

(** ** The [ed25519_dalek] crate

    [verifying_key] is [SigningKey::from_bytes(seed).verifying_key()],
    [vk_from_bytes] and [sig_from_slice] say whether [VerifyingKey::from_bytes]
    and [Signature::from_slice] accept their argument, [vk_verify] whether
    [vk.verify] does.  What the code relies on: lengths, and that a signature
    made with a key verifies under it. *)
Class Ed25519 := {
  verifying_key : bytes -> bytes;
  ed_sign : bytes -> bytes -> bytes;
  vk_from_bytes : bytes -> bool;
  sig_from_slice : bytes -> bool;
  vk_verify : bytes -> bytes -> bytes -> bool;
  verifying_key_length seed : length (verifying_key seed) = 32%nat;
  ed_sign_length seed m : length (ed_sign seed m) = 64%nat;
  vk_from_bytes_key seed : vk_from_bytes (verifying_key seed) = true;
  sig_from_slice_sign seed m : sig_from_slice (ed_sign seed m) = true;
  vk_verify_sign seed m : vk_verify (verifying_key seed) m (ed_sign seed m) = true;
}.

(** A stand-in to evaluate with: the key is the seed, the signature the key
    followed by a digest of key and message. *)
#[program] Definition toy_ed25519 : Ed25519 := {|
  verifying_key seed := resize 32 Byte.x00 seed;
  ed_sign seed m := resize 32 Byte.x00 seed ++ sha256 (Sha256:=toy_sha256) (resize 32 Byte.x00 seed ++ m);
  vk_from_bytes _ := true;
  sig_from_slice s := bool_decide (length s = 64%nat);
  vk_verify vk m s := bool_decide (s = vk ++ sha256 (Sha256:=toy_sha256) (vk ++ m));
|}.
Next Obligation. intros. apply length_resize. Qed.
Next Obligation. intros. cbv beta. rewrite length_app, length_resize. apply (f_equal (Nat.add 32)), sha256_length. Qed.
Next Obligation. done. Qed.
Next Obligation.
  intros. cbv beta. apply bool_decide_eq_true_2. rewrite length_app, length_resize.
  apply (f_equal (Nat.add 32)), sha256_length.
Qed.
Next Obligation. intros. by apply bool_decide_eq_true_2. Qed.

Module Ident.

(** [PublicKey([u8; 32])]; a [Keypair] is its seed. *)
Abbreviation PublicKey := bytes.
Record Keypair := mkKeypair { seed_of : bytes }.

(** The message of [PublicKey::from_str]. *)
Inductive ident_error :=
| InvalidHex
| Expected32 (got : nat).

Section ident.
Context `{Ed25519, HexCrate}.

(** [Keypair::generate] with the bytes the operating system's generator
    filled in; [from_seed] is the same construction. *)
Definition from_seed (seed : bytes) : Keypair := mkKeypair seed.
Definition generate (os_random : bytes) : Keypair := from_seed os_random.
Definition public (kp : Keypair) : PublicKey := verifying_key (seed_of kp).
Definition to_seed (kp : Keypair) : bytes := seed_of kp.
Definition sign (kp : Keypair) (m : bytes) : bytes := ed_sign (seed_of kp) m.

Definition verify (pk : PublicKey) (m sig : bytes) : bool :=
  if negb (vk_from_bytes pk) then false
  else if negb (sig_from_slice sig) then false
  else vk_verify pk m sig.

(** [Display] and [FromStr]. *)
Definition pk_to_string (pk : PublicKey) : bytes := hex_encode pk.
Definition pk_from_str (s : bytes) : outcome ident_error PublicKey :=
  b ← ok_or InvalidHex (hex_decode s);
  _ ← guard_err (negb (length b =? 32)%nat) (Expected32 (length b));
  Ok b.

Lemma verify_sign kp m : verify (public kp) m (sign kp m) = true.
Proof.
  unfold verify, public, sign. by rewrite vk_from_bytes_key, sig_from_slice_sign, vk_verify_sign.
Qed.

Lemma length_public kp : length (public kp) = 32%nat.
Proof. apply verifying_key_length. Qed.

Lemma pk_roundtrip pk : length pk = 32%nat -> pk_from_str (pk_to_string pk) = Ok pk.
Proof. intros Hl. unfold pk_from_str, pk_to_string. rewrite hex_decode_encode. cbn. by rewrite Hl. Qed.

Lemma pk_to_string_inj pk pk' : pk_to_string pk = pk_to_string pk' -> pk = pk'.
Proof.
  unfold pk_to_string. intros E. apply (f_equal hex_decode) in E.
  rewrite !hex_decode_encode in E. by simplify_eq.
Qed.

Lemma pk_to_string_digits pk : Forall (fun b => is_lower_hex b = true) (pk_to_string pk).
Proof.
  apply Forall_forall. intros b Hb. pose proof (hex_encode_digits pk) as Hd.
  rewrite forallb_forall in Hd. by apply Hd, list_elem_of_In.
Qed.

Lemma pk_from_str_length s pk : pk_from_str s = Ok pk -> length pk = 32%nat.
Proof.
  unfold pk_from_str. intros E. res_inv. by apply negb_false_iff, Nat.eqb_eq in Hm0.
Qed.

End ident.
End Ident.
