(* ===== verification/Config.v ===== *)
(** The server configuration ([src/server/config.rs]): the data model with
    its defaults, loading with the duplicate-pin check, saving, and the
    maintenance of the peer list. *)

From S2P Require Import Prelude Crc32 LogFormat Utf8 Text StoreTypes Ident.
Import Utf8 Text Ident.

Module Config.

(** ** Data *)

Record Tls := mkTls { cert_path : bytes; key_path : bytes }.
Record L3 := mkL3 { l3_default_quota : Z }.
Record Ratelimit := mkRatelimit { enabled : bool; max_requests : Z; window_secs : Z }.
Record Node := mkNode {
  node_name : bytes;
  data_dir : bytes;
  listen : bytes;
  p2p_listen : bytes;
  worker_threads : Z;
  mesh_sync : bool;
  sync_interval_secs : Z;
  durable_writes : bool;
  gc_interval_secs : Z;
  ratelimit : Ratelimit;
  tls : option Tls;
  l3 : L3;
}.
Record Peer := mkPeer {
  peer_name : bytes;
  addr : bytes;
  pin : bytes;
  peer_namespaces : option (list bytes);
}.
Record Config := mkConfig { node : Node; peers : list Peer }.

Definition default_ratelimit_enabled : bool := true.
Definition default_ratelimit_max : Z := 600.
Definition default_ratelimit_window : Z := 60.
Definition default_name : bytes := bs "api.bunnymeshdb.test.com".
Definition default_data_dir : bytes := bs "./data".
Definition default_workers : Z := 4.
Definition default_mesh_sync : bool := true.
Definition default_sync_interval : Z := 30.
Definition default_gc_interval : Z := 0.
Definition default_ratelimit : Ratelimit :=
  mkRatelimit default_ratelimit_enabled default_ratelimit_max default_ratelimit_window.
Definition default_listen : bytes := bs "127.0.0.1:8848".
Definition default_p2p_listen : bytes := bs "9002".
Definition default_quota : Z := 1073741824.
Definition l3_default : L3 := mkL3 default_quota.
Definition node_default : Node :=
  mkNode default_name default_data_dir default_listen default_p2p_listen default_workers
    default_mesh_sync default_sync_interval false default_gc_interval default_ratelimit None
    (mkL3 default_quota).
Definition config_default : Config := mkConfig node_default [].

Definition with_data_dir (d : bytes) (n : Node) : Node :=
  mkNode (node_name n) d (listen n) (p2p_listen n) (worker_threads n) (mesh_sync n)
    (sync_interval_secs n) (durable_writes n) (gc_interval_secs n) (ratelimit n) (tls n) (l3 n).
Definition with_peer_list (l : list Peer) (c : Config) : Config := mkConfig (node c) l.
Definition with_pin (k : bytes) (p : Peer) : Peer :=
  mkPeer (peer_name p) (addr p) k (peer_namespaces p).

(** The error strings, by the values they format. *)
Inductive config_error :=
| ReadConfig (path : bytes)
| ParseConfig (path : bytes)
| DuplicatePeerPin (name other key : bytes)
| SerializeConfig
| WriteConfig (path : bytes)
| PeerExists (name : bytes)
| InvalidPeerAddr (addr : bytes)
| InvalidPin
| DuplicatePeerIdentity (name : bytes).

End Config.

(** ** The [toml] crate and [libp2p::Multiaddr]

    [from_toml] is [toml::from_str::<Config>], [to_toml] is [toml::to_string];
    what the code relies on is that a configuration is read back as it was
    written.  [multiaddr] is [str::parse::<Multiaddr>] followed by
    [to_string], the canonical text of the address. *)
Class ConfigText := {
  from_toml : bytes -> option Config.Config;
  to_toml : Config.Config -> option bytes;
  multiaddr : bytes -> option bytes;
  toml_roundtrip c t : to_toml c = Some t -> utf8_valid t = true /\ from_toml t = Some c;
}.

Module ConfigOps.
Export Config.

Section config.
Context `{HexCrate, ConfigText}.

(** ** Paths *)

Definition SLASH : byte := Byte.x2f.

(** [Components] skips empty pieces and, but for a leading one, [.] pieces. *)
Fixpoint trim_pieces (l : list bytes) : list bytes :=
  match l with
  | [] => []
  | s :: l =>
      match trim_pieces l with
      | [] => if bool_decide (s = [] \/ s = bs ".") then [] else [s]
      | l => s :: l
      end
  end.

(** The pieces after the root, a leading [.] of a relative path kept. *)
Definition trim_path (rooted : bool) (l : list bytes) : list bytes :=
  match rooted, l with
  | false, s :: l => if bool_decide (s = bs ".") then s :: trim_pieces l else trim_pieces (s :: l)
  | _, l => trim_pieces l
  end.

(** [Path::parent]. *)
Definition parent (path : bytes) : option bytes :=
  let rooted := starts_with [SLASH] path in
  let body := if rooted then drop 1 path else path in
  match trim_path rooted (split_on SLASH body) with
  | [] => None
  | l => Some ((if rooted then [SLASH] else [])
               ++ join_with SLASH (trim_path rooted (take (length l - 1) l)))
  end.

(** [Path::join]: an absolute argument replaces the path. *)
Definition path_join (p q : bytes) : bytes :=
  if starts_with [SLASH] q then q
  else if bool_decide (p = [] \/ last p = Some SLASH) then p ++ q
  else p ++ [SLASH] ++ q.

(** ** Loading and saving *)

(** The loop over the peers; [seen] maps a pin to the name that has it. *)
Fixpoint check_pins (l : list Peer) (seen : gmap bytes bytes) : outcome config_error unit :=
  match l with
  | [] => Ok tt
  | p :: l =>
      if bool_decide (pin p = []) then check_pins l seen else
      match seen !! pin p with
      | Some other => Err (DuplicatePeerPin (peer_name p) other (pin p))
      | None => check_pins l (<[pin p := peer_name p]> seen)
      end
  end.

Definition normalize (path : bytes) (c : Config) : Config :=
  match parent path with
  | Some d =>
      if starts_with [SLASH] (data_dir (node c)) then c
      else mkConfig (with_data_dir (from_utf8_lossy (path_join d (data_dir (node c)))) (node c))
             (peers c)
  | None => c
  end.

(** [file] is what is at [path], if it can be read. *)
Definition load (path : bytes) (file : option bytes) : outcome config_error Config :=
  text ← ok_or (ReadConfig path) (file ≫= from_utf8);
  cfg ← ok_or (ParseConfig path) (from_toml text);
  _ ← check_pins (peers cfg) ∅;
  Ok (normalize path cfg).

(** A write succeeds, or fails and leaves some file behind. *)
Inductive write_result := Written | NotWritten (leftover : option bytes).

Definition save (c : Config) (path : bytes) (io : write_result) (file : option bytes)
    : option bytes * outcome config_error unit :=
  match to_toml c with
  | None => (file, Err SerializeConfig)
  | Some text =>
      match io with
      | Written => (Some text, Ok tt)
      | NotWritten leftover => (leftover, Err (WriteConfig path))
      end
  end.

(** ** Peers *)

Fixpoint find_peer (name : bytes) (l : list Peer) : option Peer :=
  match l with
  | [] => None
  | p :: l => if bool_decide (peer_name p = name) then Some p else find_peer name l
  end.
Definition peer (c : Config) (name : bytes) : option Peer := find_peer name (peers c).

(** [if let Some(p) = c.peer_mut(name) { *p = f(p) }] *)
Fixpoint update_first (name : bytes) (f : Peer -> Peer) (l : list Peer) : list Peer :=
  match l with
  | [] => []
  | p :: l => if bool_decide (peer_name p = name) then f p :: l else p :: update_first name f l
  end.
Definition peer_mut (name : bytes) (f : Peer -> Peer) (c : Config) : Config :=
  with_peer_list (update_first name f (peers c)) c.

(** The first peer with this pin. *)
Fixpoint pinned_by (k : bytes) (l : list Peer) : option Peer :=
  match l with
  | [] => None
  | p :: l => if bool_decide (pin p = k) then Some p else pinned_by k l
  end.

Definition add_peer_scoped (c : Config) (name a k : bytes) (nss : option (list bytes))
    : outcome config_error Config :=
  _ ← guard_err (bool_decide (is_Some (peer c name))) (PeerExists name);
  _ ← guard_err (negb (bool_decide (is_Some (multiaddr a)))) (InvalidPeerAddr a);
  _ ← (if bool_decide (k = []) then Ok tt else
       _ ← guard_err (match pk_from_str k with Ok _ => false | _ => true end) InvalidPin;
       match pinned_by k (peers c) with
       | Some p => Err (DuplicatePeerIdentity (peer_name p))
       | None => Ok tt
       end);
  Ok (with_peer_list (peers c ++ [mkPeer name a k nss]) c).

Definition add_peer (c : Config) (name a k : bytes) : outcome config_error Config :=
  add_peer_scoped c name a k None.

Definition remove_peer (c : Config) (name : bytes) : Config * bool :=
  let keep := filter (fun p => peer_name p <> name) (peers c) in
  (with_peer_list keep c, negb (length keep =? length (peers c))%nat).

(** ** Lemmas *)

Definition pins (l : list Peer) : list bytes := filter (fun k => k <> []) (pin <$> l).
Definition pins_unique (c : Config) : Prop := NoDup (pins (peers c)).
Definition names_unique (c : Config) : Prop := NoDup (peer_name <$> peers c).

Lemma pins_cons p l : pins (p :: l) = if bool_decide (pin p = []) then pins l else pin p :: pins l.
Proof.
  unfold pins. rewrite fmap_cons. destruct (decide (pin p = [])) as [E|E].
  - rewrite filter_cons_False by naive_solver. by rewrite bool_decide_eq_true_2.
  - rewrite filter_cons_True by naive_solver. by rewrite bool_decide_eq_false_2.
Qed.

Lemma elem_of_pins k l : k ∈ pins l <-> k <> [] /\ exists p, p ∈ l /\ pin p = k.
Proof.
  unfold pins. rewrite list_elem_of_filter, list_elem_of_fmap.
  split; intros [Hk (p & ? & ?)]; eauto.
Qed.

Lemma check_pins_ok l seen : (exists u, check_pins l seen = Ok u)
  <-> NoDup (pins l) /\ forall k, k ∈ pins l -> seen !! k = None.
Proof.
  revert seen. induction l as [|p l IH]; intros seen; cbn [check_pins].
  { split; [|naive_solver]. intros _. split; [constructor|]. intros k. by rewrite elem_of_nil. }
  rewrite pins_cons. destruct (decide (pin p = [])) as [E|E].
  { rewrite !bool_decide_eq_true_2 by done. apply IH. }
  rewrite !bool_decide_eq_false_2 by done. rewrite NoDup_cons.
  destruct (seen !! pin p) as [o|] eqn:Es.
  { split; [naive_solver|]. intros [_ Hs]. rewrite Hs in Es; [done|]. by left. }
  rewrite IH. split.
  - intros [Hn Hs]. split_and!; [|done|].
    + intros Hin. apply Hs in Hin. by rewrite lookup_insert_eq in Hin.
    + intros k [->|Hk]%elem_of_cons; [done|]. apply Hs in Hk.
      by apply lookup_insert_None in Hk as [? ?].
  - intros [[Hni Hn] Hs]. split; [done|]. intros k Hk.
    rewrite lookup_insert_ne by (by intros <-). apply Hs. by right.
Qed.

Lemma check_pins_total l seen : check_pins l seen <> Panic.
Proof.
  revert seen. induction l as [|p l IH]; intros seen; cbn [check_pins]; [done|].
  case_bool_decide; [apply IH|]. case_match; [done|apply IH].
Qed.

Lemma find_peer_Some name l p : find_peer name l = Some p -> p ∈ l /\ peer_name p = name.
Proof.
  induction l as [|q l IH]; cbn [find_peer]; [done|]. case_bool_decide as E.
  - intros [= <-]. split; [left|done].
  - intros Hf. destruct (IH Hf). split; [by right|done].
Qed.

Lemma find_peer_None name l : find_peer name l = None <-> name ∉ peer_name <$> l.
Proof.
  induction l as [|q l IH]; cbn [find_peer]; [set_solver|]. rewrite fmap_cons, not_elem_of_cons.
  case_bool_decide; [naive_solver|]. rewrite IH. naive_solver.
Qed.

Lemma pinned_by_None k l : pinned_by k l = None <-> k ∉ pin <$> l.
Proof.
  induction l as [|q l IH]; cbn [pinned_by]; [set_solver|]. rewrite fmap_cons, not_elem_of_cons.
  case_bool_decide; [naive_solver|]. rewrite IH. naive_solver.
Qed.

Lemma update_first_names name f l : (forall p, peer_name (f p) = peer_name p) ->
  peer_name <$> update_first name f l = peer_name <$> l.
Proof.
  intros Hf. induction l as [|p l IH]; cbn [update_first]; [done|].
  case_bool_decide; rewrite !fmap_cons; [by rewrite Hf|by rewrite IH].
Qed.

Lemma find_update_first name name' f l : (forall p, peer_name (f p) = peer_name p) ->
  find_peer name' (update_first name f l)
  = if bool_decide (name' = name) then f <$> find_peer name l else find_peer name' l.
Proof.
  intros Hf. induction l as [|p l IH]; cbn [update_first find_peer]; [by case_bool_decide|].
  destruct (decide (peer_name p = name)) as [E|E].
  - rewrite (bool_decide_eq_true_2 (peer_name p = name)) by done. cbn [find_peer]. rewrite Hf.
    repeat case_bool_decide; naive_solver.
  - rewrite (bool_decide_eq_false_2 (peer_name p = name)) by done. cbn [find_peer]. rewrite IH.
    repeat case_bool_decide; naive_solver.
Qed.

Lemma pins_filter (P : Peer -> Prop) `{forall p, Decision (P p)} l : pins (filter P l) `sublist_of` pins l.
Proof.
  induction l as [|p l IH]; [done|]. destruct (decide (P p)).
  - rewrite filter_cons_True, !pins_cons by done. case_bool_decide; [done|]. by apply sublist_skip.
  - rewrite filter_cons_False, pins_cons by done. case_bool_decide; [done|]. by apply sublist_cons.
Qed.

Lemma names_filter (P : Peer -> Prop) `{forall p, Decision (P p)} l :
  (peer_name <$> filter P l) `sublist_of` (peer_name <$> l).
Proof.
  induction l as [|p l IH]; [done|]. destruct (decide (P p)).
  - rewrite filter_cons_True, !fmap_cons by done. by apply sublist_skip.
  - rewrite filter_cons_False, fmap_cons by done. by apply sublist_cons.
Qed.

Lemma filter_all (P : Peer -> Prop) `{forall p, Decision (P p)} (l : list Peer) :
  (forall p, p ∈ l -> P p) -> filter P l = l.
Proof.
  induction l as [|p l IH]; intros Hl; [done|]. rewrite filter_cons_True by (apply Hl; left).
  f_equal. apply IH. intros q Hq. apply Hl. by right.
Qed.

Lemma pins_snoc l p : pins (l ++ [p]) = pins l ++ pins [p].
Proof. unfold pins. by rewrite fmap_app, filter_app. Qed.

Lemma add_peer_scoped_ok c name a k nss c' : add_peer_scoped c name a k nss = Ok c' <->
  peer c name = None /\ is_Some (multiaddr a)
  /\ (k = [] \/ (exists pk, pk_from_str k = Ok pk) /\ k ∉ pin <$> peers c)
  /\ c' = with_peer_list (peers c ++ [mkPeer name a k nss]) c.
Proof.
  unfold add_peer_scoped. split.
  - intros E. res_inv. apply bool_decide_eq_false, eq_None_not_Some in Hm.
    apply negb_false_iff, bool_decide_eq_true in Hm0. split_and!; try done.
    case_bool_decide as Ek; [by left|]. res_inv. right. split.
    + destruct (pk_from_str k); naive_solver.
    + apply pinned_by_None. by destruct (pinned_by k (peers c)).
  - intros (Hp & Ha & Hk & ->).
    rewrite (bind_step _ tt) by (apply guard_err_ok, bool_decide_eq_false; rewrite Hp; by intros []).
    rewrite (bind_step _ tt) by (by apply guard_err_ok, negb_false_iff, bool_decide_eq_true).
    rewrite (bind_step _ tt); [done|]. case_bool_decide; [done|].
    destruct Hk as [?|[[pk Hpk] Hk]]; [done|]. rewrite Hpk. cbn [guard_err mbind outcome_bind].
    by rewrite (proj2 (pinned_by_None _ _) Hk).
Qed.

Lemma add_peer_unique c name a k nss c' : add_peer_scoped c name a k nss = Ok c' ->
  pins_unique c -> names_unique c -> pins_unique c' /\ names_unique c'.
Proof.
  rewrite add_peer_scoped_ok. intros (Hp & _ & Hk & ->) Hu Hn.
  unfold pins_unique, names_unique in *. simpl. rewrite pins_snoc, fmap_app. split.
  - apply NoDup_app. split_and!; [done| |]; rewrite pins_cons; simpl.
    + intros x Hx. case_bool_decide; [apply not_elem_of_nil|].
      destruct Hk as [?|[_ Hk]]; [done|]. intros ->%list_elem_of_singleton. apply Hk.
      apply elem_of_pins in Hx as [_ (p & Hin & <-)]. by apply list_elem_of_fmap_2.
    + case_bool_decide; [constructor|apply NoDup_singleton].
  - apply NoDup_app. split_and!; [done| |apply NoDup_singleton]. intros x Hx.
    intros ->%list_elem_of_singleton. by apply find_peer_None in Hp.
Qed.

Lemma remove_peer_unique c name :
  pins_unique c -> names_unique c ->
  pins_unique (remove_peer c name).1 /\ names_unique (remove_peer c name).1.
Proof.
  unfold pins_unique, names_unique. simpl. intros Hu Hn. split.
  - eapply sublist_NoDup; [|apply pins_filter]. done.
  - eapply sublist_NoDup; [done|]. apply names_filter.
Qed.

Lemma find_peer_snoc n p l : find_peer n (l ++ [p])
  = match find_peer n l with
    | Some q => Some q
    | None => if bool_decide (peer_name p = n) then Some p else None
    end.
Proof.
  induction l as [|q l IH]; cbn [find_peer app]; [done|]. rewrite IH.
  by destruct (bool_decide (peer_name q = n)).
Qed.

Lemma add_peer_lookup c name a k nss c' : add_peer_scoped c name a k nss = Ok c' ->
  peer c name = None /\ peer c' name = Some (mkPeer name a k nss)
  /\ (forall n, n <> name -> peer c' n = peer c n).
Proof.
  rewrite add_peer_scoped_ok. intros (Hp & _ & _ & ->). split; [done|].
  unfold peer in *. cbn [peers with_peer_list]. split.
  - rewrite find_peer_snoc, Hp. by rewrite bool_decide_eq_true_2.
  - intros n Hn. rewrite find_peer_snoc. simpl. rewrite bool_decide_eq_false_2 by done.
    by destruct (find_peer n (peers c)).
Qed.

(** ** Properties *)

(** A configuration that loads has no two peers with the same non-empty
    pin text, and conversely the only peer lists refused are those that do;
    adding and removing peers keeps pins and names distinct. *)
Theorem peer_identities_distinct path file c :
  load path file = Ok c ->
  pins_unique c
  /\ (forall text c0, from_utf8 text = Some text -> from_toml text = Some c0 ->
        pins_unique c0 <-> exists c1, load path (Some text) = Ok c1)
  /\ forall c0, pins_unique c0 -> names_unique c0 ->
       (forall name a k nss c1, add_peer_scoped c0 name a k nss = Ok c1 ->
          pins_unique c1 /\ names_unique c1)
       /\ (forall name, pins_unique (remove_peer c0 name).1 /\ names_unique (remove_peer c0 name).1).
Proof.
  intros E. split_and!.
  - unfold load in E. res_inv. assert (pins_unique a0) as Hu.
    { apply (check_pins_ok (peers a0) ∅). eauto. }
    unfold normalize, pins_unique in *. by repeat case_match.
  - intros text c0 Ht Hc. unfold load. cbn [mbind option_bind]. rewrite Ht. simpl. rewrite Hc. simpl.
    pose proof (check_pins_ok (peers c0) ∅) as Hk. split.
    + intros Hu. destruct (proj2 Hk) as [[] ->]; [|eauto]. split; [done|]. intros. apply lookup_empty.
    + intros [c1 E1]. apply bind_ok in E1 as (u & E1 & _). apply Hk. eauto.
  - intros c0 Hu Hn. split; [eauto using add_peer_unique|]. intros. by apply remove_peer_unique.
Qed.

(** A peer is added exactly when its name is new, its address parses and
    its pin is empty or a fresh well-formed key; then the lookup finds it and
    no other peer changes.  Removing it gives the old list back. *)
Theorem add_remove_peer c name a k nss c' :
  add_peer_scoped c name a k nss = Ok c' ->
  peer c name = None
  /\ peer c' name = Some (mkPeer name a k nss)
  /\ (forall n, n <> name -> peer c' n = peer c n)
  /\ remove_peer c' name = (c, true).
Proof.
  intros E. destruct (add_peer_lookup _ _ _ _ _ _ E) as (Hp & Hl & Ho). split_and!; try done.
  apply add_peer_scoped_ok in E as (_ & _ & _ & ->). unfold peer in Hp.
  assert (filter (fun p => peer_name p <> name) (peers c ++ [mkPeer name a k nss]) = peers c) as Ef.
  { rewrite filter_app, (filter_cons_False _ _ []), filter_nil, app_nil_r by naive_solver.
    apply filter_all. intros p Hin <-. apply find_peer_None in Hp. apply Hp.
    by apply list_elem_of_fmap_2. }
  unfold remove_peer. simpl. rewrite Ef. destruct c as [nd l]. simpl. f_equal.
  rewrite length_app. simpl. apply negb_true_iff, Nat.eqb_neq. lia.
Qed.

(** A configuration with distinct pins and an absolute data directory is
    read back as it was saved. *)
Theorem save_load_roundtrip c path file file' :
  pins_unique c -> starts_with [SLASH] (data_dir (node c)) = true ->
  save c path Written file = (file', Ok tt) -> load path file' = Ok c.
Proof.
  unfold save. intros Hu Hd E. destruct (to_toml c) as [t|] eqn:Et; [|done]. injection E as <-.
  destruct (toml_roundtrip c t Et) as [Hv Hf]. unfold load.
  cbn [mbind option_bind]. unfold from_utf8. rewrite Hv. simpl. rewrite Hf. simpl.
  destruct (proj2 (check_pins_ok (peers c) ∅)) as [[] ->].
  { split; [done|]. intros. apply lookup_empty. }
  simpl. unfold normalize. rewrite Hd. by destruct (parent path).
Qed.

(** The duplicate checks compare pin texts, so one key spelled in two ways
    (hex digits in upper and in lower case) is admitted under two names. *)
Theorem respelled_key_admitted_twice c n1 n2 a k1 k2 pk :
  peer c n1 = None -> peer c n2 = None -> n1 <> n2 -> is_Some (multiaddr a) ->
  k1 ∉ pin <$> peers c -> k2 ∉ pin <$> peers c -> k1 <> k2 ->
  pk_from_str k1 = Ok pk -> pk_from_str k2 = Ok pk ->
  exists c1 c2, add_peer c n1 a k1 = Ok c1 /\ add_peer c1 n2 a k2 = Ok c2
    /\ (pk_from_str ∘ pin <$> peer c2 n1) = Some (Ok pk)
    /\ (pk_from_str ∘ pin <$> peer c2 n2) = Some (Ok pk).
Proof.
  intros H1 H2 Hn Ha Hk1 Hk2 Hk E1 E2.
  set (c1 := with_peer_list (peers c ++ [mkPeer n1 a k1 None]) c).
  assert (add_peer c n1 a k1 = Ok c1) as A1.
  { apply add_peer_scoped_ok. split_and!; try done. right. eauto. }
  assert (add_peer c1 n2 a k2 = Ok (with_peer_list (peers c1 ++ [mkPeer n2 a k2 None]) c1)) as A2.
  { apply add_peer_scoped_ok. split_and!; try done; [|right; split; [eauto|]].
    - apply find_peer_None. subst c1. cbn [peers with_peer_list].
      rewrite fmap_app, elem_of_app. intros [Hin|Hin%list_elem_of_singleton]; [|done].
      by apply find_peer_None in H2.
    - subst c1. cbn [peers with_peer_list]. rewrite fmap_app, elem_of_app.
      by intros [?|Hin%list_elem_of_singleton]. }
  exists c1, (with_peer_list (peers c1 ++ [mkPeer n2 a k2 None]) c1).
  destruct (add_peer_lookup _ _ _ _ _ _ A1) as (_ & P1 & _).
  destruct (add_peer_lookup _ _ _ _ _ _ A2) as (_ & P2 & Po).
  split_and!; try done; [rewrite (Po n1), P1 by done|rewrite P2]; cbn; by f_equal.
Qed.

End config.

(** ** Witnesses *)

#[global] Instance Config_eq_dec : EqDecision Config.
Proof.
  assert (EqDecision Tls) by solve_decision. assert (EqDecision L3) by solve_decision.
  assert (EqDecision Ratelimit) by solve_decision. assert (EqDecision Node) by solve_decision.
  assert (EqDecision Peer) by solve_decision. solve_decision.
Defined.

Definition demo_key : bytes := mjoin (repeat (bs "ab") 32).
Definition demo_config : Config :=
  mkConfig (with_data_dir (bs "/data") node_default)
    [mkPeer (bs "node2") (bs "/ip4/127.0.0.1/tcp/9002") demo_key None;
     mkPeer (bs "node3") (bs "/ip4/127.0.0.1/tcp/9003") [] (Some [bs "app"])].

(** A stand-in to evaluate with: one configuration has a text. *)
#[program] Definition toy_config_text : ConfigText := {|
  from_toml t := if bool_decide (t = bs "demo") then Some demo_config else None;
  to_toml c := if bool_decide (c = demo_config) then Some (bs "demo") else None;
  multiaddr a := if starts_with [SLASH] a then Some a else None;
|}.
Next Obligation. intros c t E. simpl in E. case_bool_decide; simplify_eq. by rewrite bool_decide_eq_true_2. Qed.

#[local] Existing Instance hex_plain.
#[local] Existing Instance toy_config_text.

Lemma demo_pins : pins_unique demo_config.
Proof. vm_decide. Qed.

Lemma peer_identities_distinct_witness :
  load (bs "/etc/bmdb.toml") (Some (bs "demo")) = Ok demo_config /\ pins_unique demo_config.
Proof.
  assert (load (bs "/etc/bmdb.toml") (Some (bs "demo")) = Ok demo_config) as E by (vm_compute; reflexivity).
  split; [done|]. apply (peer_identities_distinct (bs "/etc/bmdb.toml") (Some (bs "demo")) _ E).
Defined.

Lemma add_remove_peer_witness :
  exists c', add_peer demo_config (bs "node4") (bs "/ip4/10.0.0.4/tcp/9002") (mjoin (repeat (bs "cd") 32)) = Ok c'
    /\ peer demo_config (bs "node4") = None
    /\ peer c' (bs "node2") = peer demo_config (bs "node2")
    /\ remove_peer c' (bs "node4") = (demo_config, true).
Proof.
  eexists. split; [vm_compute; reflexivity|].
  match goal with |- context [remove_peer ?c _] =>
    destruct (add_remove_peer demo_config (bs "node4") (bs "/ip4/10.0.0.4/tcp/9002")
      (mjoin (repeat (bs "cd") 32)) None c) as (E1 & _ & E2 & E3); [vm_compute; reflexivity|]
  end.
  split; [exact E1|]. split; [apply E2; vm_decide|exact E3].
Defined.

Lemma save_load_roundtrip_witness :
  save demo_config (bs "c") Written None = (Some (bs "demo"), Ok tt)
  /\ load (bs "c") (Some (bs "demo")) = Ok demo_config.
Proof.
  assert (save demo_config (bs "c") Written None = (Some (bs "demo"), Ok tt)) as E by (vm_compute; reflexivity).
  split; [done|]. apply (save_load_roundtrip demo_config (bs "c") None); [apply demo_pins|reflexivity|done].
Defined.

Lemma respelled_key_admitted_twice_witness :
  exists c1 c2, add_peer config_default (bs "a") (bs "/x") demo_key = Ok c1
    /\ add_peer c1 (bs "b") (bs "/x") (mjoin (repeat (bs "AB") 32)) = Ok c2.
Proof.
  destruct (respelled_key_admitted_twice config_default (bs "a") (bs "b") (bs "/x") demo_key
    (mjoin (repeat (bs "AB") 32)) (repeat Byte.xab 32)) as (c1 & c2 & E1 & E2 & _);
    [done|done|vm_decide|by eexists|vm_decide|vm_decide|vm_decide|vm_compute; reflexivity
    |vm_compute; reflexivity|].
  by exists c1, c2.
Defined.

End ConfigOps.
