(* ===== verification/Caps.v ===== *)
(** Capabilities ([src/caps.rs]): tiers, permission sets, [bmdb://] scopes,
    revocations, the root keyring, signed capabilities with their canonical
    bytes, digest, verification and JSON form, and the token cache. *)

From S2P Require Import Prelude Crc32 LogFormat Utf8 Text StoreTypes Base64 Ident.
Import Utf8 Text.

(** ** The [serde_json] texts of this file *)

(** The fields of [SignView] and of [Wire], a permission set as its list of
    names. *)
Record SignView := mkView {
  sv_scope : bytes;
  sv_perms : list bytes;
  sv_expiry_ms : option Z;
  sv_nonce : Z;
  sv_issuer : bytes;
  sv_subject : bytes;
}.

Record Wire := mkWire {
  w_view : SignView;
  w_sig : bytes;
}.

(** [view_text] is [to_vec(&view)]; [string_text], [strings_text] and
    [opt_u64_text] are [to_string] on a string, a list of strings and an
    [Option<u64>]; [wire_of_text] is [from_str::<Wire>]. *)
Class CapJson := {
  view_text : SignView -> bytes;
  string_text : bytes -> bytes;
  strings_text : list bytes -> bytes;
  opt_u64_text : option Z -> bytes;
  wire_of_text : bytes -> option Wire;
}.

(** ["name":] *)
Definition QUOTE : byte := Byte.x22.
Definition COMMA : bytes := [Byte.x2c].
Definition json_field (name : bytes) : bytes := [QUOTE] ++ name ++ [QUOTE; Byte.x3a].

(** A JSON object with [Wire]'s fields in this order. *)
Definition wire_text `{CapJson} (w : Wire) : bytes :=
  let v := w_view w in
  [Byte.x7b] ++ json_field (bs "scope") ++ string_text (sv_scope v) ++ COMMA
  ++ json_field (bs "perms") ++ strings_text (sv_perms v) ++ COMMA
  ++ json_field (bs "expiry_ms") ++ opt_u64_text (sv_expiry_ms v) ++ COMMA
  ++ json_field (bs "nonce") ++ fmt_dec (sv_nonce v) ++ COMMA
  ++ json_field (bs "issuer") ++ string_text (sv_issuer v) ++ COMMA
  ++ json_field (bs "subject") ++ string_text (sv_subject v) ++ COMMA
  ++ json_field (bs "sig") ++ string_text (w_sig w) ++ [Byte.x7d].

Definition view_ok (v : SignView) : Prop :=
  is_u64 (sv_nonce v) /\ match sv_expiry_ms v with Some e => is_u64 e | None => True end.

(** What the code relies on: different values serialize differently, the
    numbers read are [u64]s, and a value is read back from its text. *)
Class CapJsonLaws `{CapJson} : Prop := {
  view_text_inj v v' : view_ok v -> view_ok v' -> view_text v = view_text v' -> v = v';
  wire_of_text_ok s w : wire_of_text s = Some w -> view_ok (w_view w);
  wire_of_wire_text w : view_ok (w_view w) -> wire_of_text (wire_text w) = Some w;
}.

Module Caps.

(** ** Tiers and permissions *)

Inductive Tier := L1 | L2 | L3.
#[global] Instance Tier_eq_dec : EqDecision Tier.
Proof. solve_decision. Defined.

Definition tier_as_str (t : Tier) : bytes :=
  match t with L1 => bs "l1" | L2 => bs "l2" | L3 => bs "l3" end.
Definition tier_parse (s : bytes) : option Tier :=
  if bool_decide (s = bs "l1") then Some L1
  else if bool_decide (s = bs "l2") then Some L2
  else if bool_decide (s = bs "l3") then Some L3
  else None.

(** [PermSet(u8)]. *)
Definition PermSet := Z.
Definition READ : PermSet := 1.
Definition WRITE : PermSet := 2.
Definition ADMIN : PermSet := 4.

Definition contains (p other : PermSet) : bool := Z.land p other =? other.
Definition perm_union (p other : PermSet) : PermSet := Z.lor p other.

Definition names (p : PermSet) : list bytes :=
  (if contains p READ then [bs "read"] else [])
  ++ (if contains p WRITE then [bs "write"] else [])
  ++ (if contains p ADMIN then [bs "admin"] else []).

Fixpoint parse_perms (l : list bytes) (p : PermSet) : outcome bytes PermSet :=
  match l with
  | [] => Ok p
  | s :: l =>
      if bool_decide (s = bs "read") then parse_perms l (Z.lor p READ)
      else if bool_decide (s = bs "write") then parse_perms l (Z.lor p WRITE)
      else if bool_decide (s = bs "admin") then parse_perms l (Z.lor p ADMIN)
      else Err s
  end.
Definition parse_list (l : list bytes) : outcome bytes PermSet := parse_perms l 0.

(** ** Scopes *)

Record Scope := mkScope {
  host : bytes;
  tier : Tier;
  ns : bytes;
  prefix : option bytes;
}.
#[global] Instance Scope_eq_dec : EqDecision Scope.
Proof. solve_decision. Defined.

Definition SLASH : byte := Byte.x2f.

Definition to_url (s : Scope) : bytes :=
  bs "bmdb://" ++ host s ++ [SLASH] ++ tier_as_str (tier s) ++ [SLASH] ++ ns s
  ++ match prefix s with Some p => [SLASH] ++ p | None => [] end.

Inductive scope_error :=
| NotBmdb | MissingHost | MissingTier | EmptyHost | BadTier (t : bytes)
| MissingOwner | MissingNamespace | EmptyNamespace.

(** The segments from [i] on, joined, when there are any. *)
Definition prefix_from (i : nat) (segs : list bytes) : option bytes :=
  if (i <? length segs)%nat then Some (join_with SLASH (drop i segs)) else None.

Definition scope_parse (url : bytes) : outcome scope_error Scope :=
  rest ← ok_or NotBmdb (strip_prefix (bs "bmdb://") url);
  let segs := split_on SLASH rest in
  h ← ok_or MissingHost (head segs);
  tier_s ← ok_or MissingTier (segs !! 1%nat);
  _ ← guard_err (bool_decide (h = [])) EmptyHost;
  t ← ok_or (BadTier tier_s) (tier_parse tier_s);
  '(n, p) ← (if bool_decide (segs !! 2%nat = Some (bs "u")) then
               pk ← ok_or MissingOwner (segs !! 3%nat);
               Ok (bs "u/" ++ pk, prefix_from 4 segs)
             else
               n ← ok_or MissingNamespace (segs !! 2%nat);
               Ok (n, prefix_from 3 segs));
  _ ← guard_err (bool_decide (n = [])) EmptyNamespace;
  Ok (mkScope h t n p).

Definition covers (a b : Scope) : bool :=
  bool_decide (host a = host b) && bool_decide (tier a = tier b) && bool_decide (ns a = ns b)
  && match prefix a, prefix b with
     | Some p, Some q => bool_decide (q = p) || starts_with (p ++ [SLASH]) q
     | Some _, None => false
     | None, _ => true
     end.

(** ** Revocations *)

Record RevocationSet := mkRev {
  by_principal : gset (bytes * bytes);
  by_nonce : gset Z;
}.

Definition no_revocations : RevocationSet := mkRev ∅ ∅.
Definition revoke_principal (s : Scope) (principal_hex : bytes) (r : RevocationSet) : RevocationSet :=
  mkRev ({[(to_url s, principal_hex)]} ∪ by_principal r) (by_nonce r).
Definition revoke_nonce (n : Z) (r : RevocationSet) : RevocationSet :=
  mkRev (by_principal r) ({[n]} ∪ by_nonce r).
Definition is_revoked (r : RevocationSet) (s : Scope) (principal_hex : bytes) (nonce : Z) : bool :=
  bool_decide ((to_url s, principal_hex) ∈ by_principal r) || bool_decide (nonce ∈ by_nonce r).

(** ** The root keyring *)

Record RootKeyring := mkKeyring {
  active : Ident.PublicKey;
  retired : list Ident.PublicKey;
}.

Definition keyring_current (k : Ident.PublicKey) : RootKeyring := mkKeyring k [].

Definition key_for_issuer (kr : RootKeyring) (issuer : Ident.PublicKey) : option Ident.PublicKey :=
  if bool_decide (issuer = active kr) then Some (active kr)
  else List.find (fun k => bool_decide (k = issuer)) (retired kr).
Definition accepts_issuer (kr : RootKeyring) (issuer : Ident.PublicKey) : bool :=
  bool_decide (is_Some (key_for_issuer kr issuer)).

(** ** Capabilities *)

Record Capability := mkCap {
  scope : Scope;
  perms : PermSet;
  expiry_ms : option Z;
  nonce : Z;
  issuer : Ident.PublicKey;
  subject : Ident.PublicKey;
  sig : bytes;
}.

Inductive CapError := BadIssuer | BadSig | Expired | Revoked | Malformed.

(** The messages of [Capability::from_json]. *)
Inductive cap_parse_error :=
| BadJson | BadScope (e : scope_error) | UnknownPerm (s : bytes)
| BadIssuerText (e : Ident.ident_error) | BadSubjectText (e : Ident.ident_error)
| BadSigText (e : Base64.b64_error) | BadSigLength (n : nat).

Section caps.
Context `{Sha256, HexCrate, Ed25519, CapJson}.

Definition to_chain_bytes (kr : RootKeyring) : bytes :=
  mjoin (map (fun k => Ident.pk_to_string k ++ [NEWLINE]) (retired kr)).

(** Lines that are not keys are skipped. *)
Definition parse_line (line : bytes) : option Ident.PublicKey :=
  let line := trim line in
  if bool_decide (line = []) then None
  else match Ident.pk_from_str line with Ok k => Some k | _ => None end.
Definition parse_chain (b : bytes) : list Ident.PublicKey :=
  omap parse_line (lines (from_utf8_lossy b)).

Definition sign_view (s : Scope) (p : PermSet) (e : option Z) (n : Z)
    (iss subj : Ident.PublicKey) : SignView :=
  mkView (to_url s) (names p) e n (Ident.pk_to_string iss) (Ident.pk_to_string subj).

Definition cap_sign (s : Scope) (p : PermSet) (e : option Z) (n : Z) (kp : Ident.Keypair)
    : Capability :=
  let subject := Ident.public kp in
  let canonical := view_text (sign_view s p e n subject subject) in
  mkCap s p e n subject subject (Ident.sign kp canonical).

Definition cap_sign_for (s : Scope) (p : PermSet) (e : option Z) (n : Z)
    (subject : Ident.PublicKey) (kp : Ident.Keypair) : Capability :=
  let canonical := view_text (sign_view s p e n (Ident.public kp) subject) in
  mkCap s p e n (Ident.public kp) subject (Ident.sign kp canonical).

Definition canonical_bytes (c : Capability) : bytes :=
  view_text (sign_view (scope c) (perms c) (expiry_ms c) (nonce c) (issuer c) (subject c)).

Definition digest_hex (c : Capability) : bytes :=
  hex_encode (sha256 (canonical_bytes c ++ sig c)).

(** The issuer's key, and its signature over the canonical bytes. *)
Definition check_sig (c : Capability) (kr : RootKeyring) : outcome CapError unit :=
  match key_for_issuer kr (issuer c) with
  | None => Err BadIssuer
  | Some k => guard_err (negb (Ident.verify k (canonical_bytes c) (sig c))) BadSig
  end.

Definition check_expiry (c : Capability) (now_ms : Z) : outcome CapError unit :=
  match expiry_ms c with
  | Some exp => guard_err (exp <=? now_ms) Expired
  | None => Ok tt
  end.

Definition verify (c : Capability) (kr : RootKeyring) (principal : Ident.PublicKey)
    (rev : RevocationSet) (now_ms : Z) : outcome CapError unit :=
  _ ← check_sig c kr;
  _ ← guard_err (negb (bool_decide (subject c = principal))) Malformed;
  _ ← check_expiry c now_ms;
  _ ← guard_err (is_revoked rev (scope c) (Ident.pk_to_string principal) (nonce c)) Revoked;
  Ok tt.

Definition verify_or_cached (c : Capability) (kr : RootKeyring) (principal : Ident.PublicKey)
    (rev : RevocationSet) (now_ms : Z) (cached_ok : bool) : outcome CapError unit :=
  _ ← guard_err (negb (accepts_issuer kr (issuer c))) BadIssuer;
  _ ← guard_err (negb (bool_decide (subject c = principal))) Malformed;
  _ ← check_expiry c now_ms;
  if cached_ok then Ok tt else
  _ ← check_sig c kr;
  _ ← guard_err (is_revoked rev (scope c) (Ident.pk_to_string principal) (nonce c)) Revoked;
  Ok tt.

(** ** Wire forms *)

Definition to_json (c : Capability) : bytes :=
  [Byte.x7b] ++ json_field (bs "scope") ++ string_text (to_url (scope c)) ++ COMMA
  ++ json_field (bs "perms") ++ strings_text (names (perms c)) ++ COMMA
  ++ json_field (bs "expiry_ms") ++ opt_u64_text (expiry_ms c) ++ COMMA
  ++ json_field (bs "nonce") ++ fmt_dec (nonce c) ++ COMMA
  ++ json_field (bs "issuer") ++ string_text (Ident.pk_to_string (issuer c)) ++ COMMA
  ++ json_field (bs "subject") ++ string_text (Ident.pk_to_string (subject c)) ++ COMMA
  ++ json_field (bs "sig") ++ string_text (Base64.b64url_encode (sig c)) ++ [Byte.x7d].

Definition to_header (c : Capability) : bytes :=
  bs "bmdb-cap:" ++ Base64.b64url_encode (to_json c).

Definition from_json (s : bytes) : outcome cap_parse_error Capability :=
  w ← ok_or BadJson (wire_of_text s);
  let v := w_view w in
  sc ← map_err BadScope (scope_parse (sv_scope v));
  p ← map_err UnknownPerm (parse_list (sv_perms v));
  iss ← map_err BadIssuerText (Ident.pk_from_str (sv_issuer v));
  subj ← map_err BadSubjectText (Ident.pk_from_str (sv_subject v));
  sig_bytes ← map_err BadSigText (Base64.b64url_decode (w_sig w));
  _ ← guard_err (negb (length sig_bytes =? 64)%nat) (BadSigLength (length sig_bytes));
  Ok (mkCap sc p (sv_expiry_ms v) (sv_nonce v) iss subj sig_bytes).

(** ** The token cache

    A shard per first digest byte; [try_lock] may find the shard locked. *)
Definition TokenCache := byte -> gmap bytes Capability.
Definition token_cache_new : TokenCache := fun _ => ∅.

Definition shard_of (digest : bytes) : byte := default Byte.x00 (head digest).

Definition token_get (c : TokenCache) (digest : bytes) (locked : bool) : option Capability :=
  if locked then None else c (shard_of digest) !! digest.

Definition token_put (c : TokenCache) (digest : bytes) (cap : Capability) : TokenCache :=
  fun b =>
    if bool_decide (b = shard_of digest) then
      let m := c b in
      <[digest := cap]> (if (4096 <=? size m)%nat then ∅ else m)
    else c b.

Definition token_digest (token : bytes) : bytes := sha256 token.

End caps.
End Caps.
