(* ===== verification/CapsToy.v ===== *)
(** A concrete serializer with the laws [CapJsonLaws] asks for, to evaluate
    capabilities with: strings are quoted with every byte escaped. *)

From S2P Require Import Prelude Utf8 Text Caps.
Import Text.

Module CapsToy.

Definition BACKSLASH : byte := Byte.x5c.
Definition LBRACKET : byte := Byte.x5b.
Definition RBRACKET : byte := Byte.x5d.

Fixpoint escaped (s : bytes) : bytes :=
  match s with [] => [QUOTE] | b :: s => BACKSLASH :: b :: escaped s end.
Definition toy_string (s : bytes) : bytes := QUOTE :: escaped s.
Definition toy_strings (l : list bytes) : bytes :=
  LBRACKET :: foldr (fun s acc => toy_string s ++ acc) [RBRACKET] l.
Definition toy_opt (o : option Z) : bytes :=
  match o with None => bs "null" | Some z => fmt_dec z end.

(** A parser takes a prefix off the text. *)
Definition parser (A : Type) : Type := bytes -> option (A * bytes).
#[global] Instance parser_ret : MRet parser := fun A a l => Some (a, l).
#[global] Instance parser_bind : MBind parser := fun A B k m l => '(a, l) ← m l; k a l.

Definition expect (p : bytes) : parser unit := fun l => r ← strip_prefix p l; Some (tt, r).

Fixpoint unescape (l : bytes) : option (bytes * bytes) :=
  match l with
  | [] => None
  | c :: l =>
      if bool_decide (c = QUOTE) then Some ([], l)
      else match l with b :: l => '(s, r) ← unescape l; Some (b :: s, r) | [] => None end
  end.
Definition p_string : parser bytes := _ ← expect [QUOTE]; unescape.

Fixpoint p_items (fuel : nat) : parser (list bytes) :=
  match fuel with
  | O => fun _ => None
  | S fuel => fun l =>
      match strip_prefix [RBRACKET] l with
      | Some r => Some ([], r)
      | None => (s ← p_string; ss ← p_items fuel; mret (s :: ss)) l
      end
  end.
Definition p_strings : parser (list bytes) := fun l => (_ ← expect [LBRACKET]; p_items (length l)) l.

Fixpoint span_digits (l : bytes) : bytes * bytes :=
  match l with
  | [] => ([], [])
  | b :: l' => match dec_val b with
               | Some _ => let '(d, r) := span_digits l' in (b :: d, r)
               | None => ([], l)
               end
  end.
Definition p_dec : parser Z := fun l =>
  let '(d, r) := span_digits l in z ← parse_u64 d; Some (z, r).
Definition p_opt : parser (option Z) := fun l =>
  match strip_prefix (bs "null") l with
  | Some r => Some (None, r)
  | None => (z ← p_dec; mret (Some z)) l
  end.

Definition p_wire : parser Wire :=
  _ ← expect [Byte.x7b]; _ ← expect (json_field (bs "scope")); sc ← p_string; _ ← expect COMMA;
  _ ← expect (json_field (bs "perms")); ps ← p_strings; _ ← expect COMMA;
  _ ← expect (json_field (bs "expiry_ms")); e ← p_opt; _ ← expect COMMA;
  _ ← expect (json_field (bs "nonce")); n ← p_dec; _ ← expect COMMA;
  _ ← expect (json_field (bs "issuer")); i ← p_string; _ ← expect COMMA;
  _ ← expect (json_field (bs "subject")); s ← p_string; _ ← expect COMMA;
  _ ← expect (json_field (bs "sig")); g ← p_string; _ ← expect [Byte.x7d];
  mret (mkWire (mkView sc ps e n i s) g).

#[global] Instance is_u64_dec z : Decision (is_u64 z).
Proof. unfold is_u64. apply _. Defined.
#[global] Instance view_ok_dec v : Decision (view_ok v).
Proof. unfold view_ok. destruct (sv_expiry_ms v); apply _. Defined.

Definition toy_from (l : bytes) : option Wire :=
  match p_wire l with
  | Some (w, []) => if decide (view_ok (w_view w)) then Some w else None
  | _ => None
  end.

(** The view is the wire object with an empty signature. *)
Definition toy_texts : CapJson := {|
  view_text _ := [];
  string_text := toy_string;
  strings_text := toy_strings;
  opt_u64_text := toy_opt;
  wire_of_text := toy_from;
|}.
Definition toy_cap_json : CapJson := {|
  view_text v := wire_text (H := toy_texts) (mkWire v []);
  string_text := toy_string;
  strings_text := toy_strings;
  opt_u64_text := toy_opt;
  wire_of_text := toy_from;
|}.

(** ** Every parser undoes its printer *)

Definition undoes {A} (m : parser A) (t : bytes) (a : A) : Prop := forall r, m (t ++ r) = Some (a, r).

(** A number ends where no digit follows. *)
Definition no_digit (r : bytes) : Prop := match r with [] => True | b :: _ => dec_val b = None end.

Lemma undoes_expect p : undoes (expect p) p tt.
Proof. intros r. unfold expect. by rewrite strip_prefix_app. Qed.

Lemma bind_undo {A B} (m : parser A) t a (k : A -> parser B) r :
  undoes m t a -> (m ≫= k) (t ++ r) = k a r.
Proof. intros Hm. unfold mbind, parser_bind. by rewrite Hm. Qed.

Lemma undoes_string s : undoes p_string (toy_string s) s.
Proof.
  intros r. unfold p_string, toy_string.
  change ((QUOTE :: escaped s) ++ r) with ([QUOTE] ++ (escaped s ++ r)).
  rewrite (bind_undo _ [QUOTE] tt) by apply undoes_expect.
  induction s as [|b s IH]; [done|]. simpl. simpl in IH. by rewrite IH.
Qed.

Lemma undoes_items l fuel r : (length l < fuel)%nat ->
  p_items fuel (foldr (fun s acc => toy_string s ++ acc) [RBRACKET] l ++ r) = Some (l, r).
Proof.
  revert fuel. induction l as [|s l IH]; intros [|fuel] Hf; try (simpl in *; lia); [done|].
  cbn [foldr p_items]. rewrite <-app_assoc.
  replace (strip_prefix [RBRACKET] _) with (@None bytes) by done.
  rewrite (bind_undo _ _ s) by apply undoes_string.
  unfold mbind, parser_bind. rewrite IH by (simpl in *; lia). done.
Qed.

Lemma undoes_strings l : undoes p_strings (toy_strings l) l.
Proof.
  intros r. unfold p_strings, toy_strings.
  change ((LBRACKET :: ?t) ++ r) with ([LBRACKET] ++ (t ++ r)).
  rewrite (bind_undo _ [LBRACKET] tt) by apply undoes_expect.
  apply undoes_items. rewrite !length_app.
  enough (length l < length (foldr (fun s acc => toy_string s ++ acc) [RBRACKET] l))%nat by lia.
  induction l as [|s l IH]; [simpl; lia|]. cbn [foldr]. rewrite length_app. unfold toy_string at 1.
  cbn [length]. lia.
Qed.

Lemma span_digits_app d r : Forall (fun b => is_Some (dec_val b)) d -> no_digit r ->
  span_digits (d ++ r) = (d, r).
Proof.
  intros Hd Hr. induction Hd as [|b d [x Hb] Hd IH]; simpl.
  - destruct r as [|b r]; [done|]. simpl in *. by rewrite Hr.
  - by rewrite Hb, IH.
Qed.

Lemma p_dec_fmt z r : is_u64 z -> no_digit r -> p_dec (fmt_dec z ++ r) = Some (z, r).
Proof.
  intros Hz Hr. unfold p_dec. rewrite span_digits_app; [|by apply fmt_dec_digits|done].
  by rewrite parse_u64_fmt_dec.
Qed.

Lemma p_opt_toy o r : match o with Some e => is_u64 e | None => True end -> no_digit r -> p_opt (toy_opt o ++ r) = Some (o, r).
Proof.
  intros Ho Hr. unfold p_opt. destruct o as [z|]; [|by rewrite strip_prefix_app].
  cbn [toy_opt]. replace (strip_prefix (bs "null") (fmt_dec z ++ r)) with (@None bytes).
  - unfold mbind, parser_bind. by rewrite p_dec_fmt.
  - pose proof (fmt_dec_digits 20 z [] ltac:(constructor)) as Hd. fold (fmt_dec z) in Hd.
    pose proof (fmt_dec_go_nonempty 19 z []) as Hne. fold (fmt_dec z) in Hne.
    destruct (fmt_dec z) as [|b d]; [done|]. apply Forall_cons in Hd as [[x Hb] _].
    unfold strip_prefix. destruct (starts_with _ _) eqn:E; [|done].
    apply starts_with_spec in E as [r' E]. injection E as -> _. done.
Qed.

Lemma bind_run {A B} (m : parser A) l a r (k : A -> parser B) :
  m l = Some (a, r) -> (m ≫= k) l = k a r.
Proof. intros Hm. unfold mbind, parser_bind. by rewrite Hm. Qed.

(** Runs one step of [p_wire] on its piece of the text. *)
Ltac undo :=
  first [ rewrite (bind_undo _ _ tt) by apply undoes_expect
        | erewrite (bind_undo _ _ _) by apply undoes_string
        | erewrite (bind_undo _ _ _) by apply undoes_strings
        | erewrite bind_run by (apply p_opt_toy; done)
        | erewrite bind_run by (apply p_dec_fmt; done) ].

Lemma p_wire_text w r : view_ok (w_view w) ->
  p_wire (wire_text (H := toy_texts) w ++ r) = Some (w, r).
Proof.
  intros [Hn He]. destruct w as [[sc ps e n i s] g]. simpl in Hn, He.
  unfold wire_text, p_wire. cbn [w_view w_sig sv_scope sv_perms sv_expiry_ms sv_nonce sv_issuer
    sv_subject string_text strings_text opt_u64_text toy_texts].
  rewrite <-!app_assoc. repeat undo. done.
Qed.

Lemma toy_from_text w : view_ok (w_view w) -> toy_from (wire_text (H := toy_texts) w) = Some w.
Proof.
  intros Hw. unfold toy_from. pose proof (p_wire_text w [] Hw) as E. rewrite app_nil_r in E.
  rewrite E. by rewrite decide_True.
Qed.

#[global] Instance toy_cap_json_laws : CapJsonLaws (H := toy_cap_json).
Proof.
  split.
  - intros v v' Hv Hv' E. apply (f_equal toy_from) in E.
    pose proof (toy_from_text (mkWire v []) Hv) as E1. pose proof (toy_from_text (mkWire v' []) Hv') as E2.
    cbn [view_text toy_cap_json] in E. rewrite E1, E2 in E. by simplify_eq.
  - intros s w. cbn [wire_of_text toy_cap_json]. unfold toy_from.
    destruct (p_wire s) as [[w' [|]]|]; [|done..]. case_decide; [|done]. by intros [= <-].
  - apply toy_from_text.
Qed.

End CapsToy.
