(* ===== verification/CapsSpec.v ===== *)
(** Correctness of scopes, permission sets and capabilities: scope URLs are
    canonical, coverage is the prefix order on path segments, a capability is
    read back from its JSON form and from the keyring's text, and its digest
    identifies it. *)

From S2P Require Import Prelude Crc32 LogFormat LogSpec Utf8 Text StoreTypes Base64 Ident Caps CapsToy.
Import Utf8 Text Caps.

Module CapsSpec.

(** ** Scope URLs *)

(** What [scope_parse] can return: no slash in the host, and none in the
    namespace but after [u/], which a flat namespace is not. *)
Definition ns_wf (n : bytes) : Prop :=
  (n <> [] /\ SLASH ∉ n /\ n <> bs "u") \/ exists pk, n = bs "u/" ++ pk /\ SLASH ∉ pk.
Definition scope_wf (s : Scope) : Prop := host s <> [] /\ SLASH ∉ host s /\ ns_wf (ns s).

(** The path segments of a prefix. *)
Definition prefix_segs (p : option bytes) : list bytes :=
  match p with Some p => split_on SLASH p | None => [] end.

Lemma tier_parse_as_str t : tier_parse (tier_as_str t) = Some t.
Proof. by destruct t. Qed.

Lemma tier_parse_Some s t : tier_parse s = Some t -> s = tier_as_str t.
Proof. unfold tier_parse. repeat case_bool_decide; naive_solver. Qed.

Lemma tier_no_slash t : SLASH ∉ tier_as_str t.
Proof. destruct t; vm_decide. Qed.

Lemma strip_prefix_Some p l r : strip_prefix p l = Some r -> l = p ++ r.
Proof.
  unfold strip_prefix. destruct (starts_with p l) eqn:E; [|done]. intros [= <-].
  apply starts_with_spec in E as [r' ->]. by rewrite drop_app_length.
Qed.

(** A suffix of segments, as text: nothing, or a slash and the segments. *)
Definition tail_text (p : option bytes) : bytes :=
  match p with Some p => [SLASH] ++ p | None => [] end.

Lemma split_tail s p : SLASH ∉ s -> split_on SLASH (s ++ tail_text p) = s :: prefix_segs p.
Proof.
  intros Hs. destruct p as [p|]; simpl; [by apply split_on_sep|].
  rewrite app_nil_r. by apply split_on_none.
Qed.

Lemma prefix_from_segs i segs p : drop i segs = prefix_segs p -> prefix_from i segs = p.
Proof.
  intros E. unfold prefix_from. destruct (Nat.ltb_spec i (length segs)).
  - rewrite E. destruct p as [p|]; simpl in *; [by rewrite join_split|].
    apply (f_equal length) in E. rewrite length_drop in E. simpl in E. lia.
  - rewrite drop_ge in E by done. destruct p as [p|]; [|done]. simpl in E.
    by destruct (split_on_nonempty SLASH p).
Qed.

Lemma prefix_from_tail i segs s0 : segs !! i = Some s0 -> (forall s, s ∈ segs -> SLASH ∉ s) ->
  join_with SLASH (drop i segs) = s0 ++ tail_text (prefix_from (S i) segs).
Proof.
  intros Hi Hs. rewrite (drop_S _ _ _ Hi). unfold prefix_from.
  destruct (Nat.ltb_spec (S i) (length segs)).
  - rewrite join_with_cons; [done|]. intros E. apply (f_equal length) in E.
    rewrite length_drop in E. simpl in E. lia.
  - rewrite drop_ge by done. simpl. by rewrite app_nil_r.
Qed.

Lemma split_url s : scope_wf s ->
  exists n0, split_on SLASH (drop 7 (to_url s))
    = host s :: tier_as_str (tier s) :: n0 ++ prefix_segs (prefix s)
    /\ (n0 = [ns s] /\ ns s <> bs "u" \/ exists pk, n0 = [bs "u"; pk] /\ ns s = bs "u/" ++ pk).
Proof.
  intros (_ & Hh & Hn). unfold to_url. change 7%nat with (length (bs "bmdb://")).
  rewrite drop_app_length. fold (tail_text (prefix s)). cbn [app].
  rewrite split_on_sep, split_on_sep by auto using tier_no_slash.
  destruct Hn as [(_ & Hs & Hu)|(pk & -> & Hpk)].
  - exists [ns s]. rewrite split_tail by done. split; [done|by left].
  - exists [bs "u"; pk]. split; [|right; by exists pk].
    rewrite <-(app_assoc _ pk). change (bs "u/" ++ ?l) with (bs "u" ++ SLASH :: l).
    rewrite split_on_sep by vm_decide. by rewrite split_tail.
Qed.

Lemma scope_parse_to_url s : scope_wf s -> scope_parse (to_url s) = Ok s.
Proof.
  intros Hwf. destruct (split_url s Hwf) as (n0 & Hsplit & Hn0).
  destruct Hwf as (Hh & _ & Hnw). unfold scope_parse.
  rewrite (bind_step _ (drop 7 (to_url s)));
    [|unfold to_url; by rewrite strip_prefix_app]. cbv zeta. rewrite Hsplit.
  cbn [head ok_or mbind outcome_bind lookup list_lookup].
  rewrite (bool_decide_eq_false_2 (host s = [])) by done. cbn [guard_err mbind outcome_bind].
  rewrite tier_parse_as_str. cbn [ok_or mbind outcome_bind].
  assert (ns s <> []) as Hne by (destruct Hnw as [(? & _)|(pk & -> & _)]; done).
  destruct Hn0 as [[-> Hu]|(pk & -> & Hns)]; cbn [app lookup list_lookup].
  - rewrite bool_decide_eq_false_2 by congruence. cbn [ok_or mbind outcome_bind].
    rewrite bool_decide_eq_false_2 by done. cbn [guard_err mbind outcome_bind].
    rewrite (prefix_from_segs 3 _ (prefix s)) by done. by destruct s.
  - rewrite bool_decide_eq_true_2 by done. cbn [ok_or mbind outcome_bind].
    rewrite <-Hns, bool_decide_eq_false_2 by done. cbn [guard_err mbind outcome_bind].
    rewrite (prefix_from_segs 4 _ (prefix s)) by done. by destruct s.
Qed.

Lemma scope_parse_inv url s : scope_parse url = Ok s -> scope_wf s /\ to_url s = url.
Proof.
  unfold scope_parse. intros E. apply bind_ok in E as (rest & Hr & E). cbv zeta in E.
  destruct (strip_prefix _ url) as [r|] eqn:Hs; simplify_eq/=. apply strip_prefix_Some in Hs as ->.
  pose proof (split_on_pieces SLASH rest) as Hp. rewrite Forall_forall in Hp.
  pose proof (join_split SLASH rest) as Hj.
  set (segs := split_on SLASH rest) in *. clearbody segs.
  apply bind_ok in E as (h & Hh & E). apply bind_ok in E as (ts & Hts & E).
  apply bind_ok in E as ([] & Hhe & E). apply guard_err_ok, bool_decide_eq_false in Hhe.
  apply bind_ok in E as (t & Ht & E). apply bind_ok in E as ([n p] & Hn & E).
  apply bind_ok in E as ([] & Hne & E). apply guard_err_ok, bool_decide_eq_false in Hne.
  injection E as <-.
  destruct segs as [|h' segs]; simplify_eq/=. destruct segs as [|ts' segs]; simplify_eq/=.
  destruct (tier_parse ts) as [t'|] eqn:Et; simplify_eq/=. apply tier_parse_Some in Et as ->.
  assert (SLASH ∉ h) by (apply Hp; by left).
  unfold scope_wf, to_url; simpl.
  change (match p with Some p0 => SLASH :: p0 | None => [] end) with (tail_text p).
  destruct segs as [|s2 segs].
  { rewrite bool_decide_eq_false_2 in Hn by done. done. }
  assert (SLASH ∉ s2) by (apply Hp; do 2 right; by left).
  case_bool_decide as Hu; cbn [lookup list_lookup] in Hu, Hn.
  - injection Hu as ->. destruct segs as [|pk segs]; simplify_eq/=.
    assert (SLASH ∉ pk) by (apply Hp; do 3 right; by left).
    split; [split_and!; [done..|right; by exists pk]|].
    pose proof (prefix_from_tail 3 (h :: tier_as_str t :: bs "u" :: pk :: segs) pk eq_refl Hp) as ET.
    by rewrite <-ET.
  - injection Hn as <- <-. split; [split_and!; [done..|left; naive_solver]|].
    by rewrite <-(prefix_from_tail 2 (h :: tier_as_str t :: s2 :: segs) s2 eq_refl Hp).
Qed.

(** ** Coverage *)

Lemma starts_with_segs p q : starts_with (p ++ [SLASH]) q = true <->
  exists l, l <> [] /\ split_on SLASH q = split_on SLASH p ++ l.
Proof.
  rewrite starts_with_spec. split.
  - intros [r ->]. rewrite <-app_assoc. simpl. rewrite split_on_app. eauto using split_on_nonempty.
  - intros (l & Hl & E). exists (join_with SLASH l).
    rewrite <-(join_split SLASH q), E, join_with_app, join_split, <-app_assoc; auto using split_on_nonempty.
Qed.

Lemma covers_iff a b : covers a b = true <->
  host a = host b /\ tier a = tier b /\ ns a = ns b
  /\ prefix_segs (prefix a) `prefix_of` prefix_segs (prefix b).
Proof.
  unfold covers. rewrite !andb_true_iff, !bool_decide_eq_true.
  assert (forall P Q R : Prop, (Q <-> R) -> (((P /\ tier a = tier b) /\ ns a = ns b) /\ Q
            <-> P /\ tier a = tier b /\ ns a = ns b /\ R)) as Hand by naive_solver.
  apply Hand. destruct (prefix a) as [p|], (prefix b) as [q|]; simpl.
  - rewrite orb_true_iff, bool_decide_eq_true, starts_with_segs. split.
    + intros [->|(l & _ & ->)]; [done|by exists l].
    + intros [[|s l] E]; [left|right; by exists (s :: l)].
      rewrite app_nil_r in E. by rewrite <-(join_split SLASH q), E, join_split.
  - split; [done|]. intros [l E]. by destruct (split_on_nonempty SLASH p), (split_on SLASH p).
  - split; [intros _; apply prefix_nil|done].
  - done.
Qed.

(** ** Permission sets *)

Definition perms_wf (p : PermSet) : Prop := 0 <= p < 8.

Lemma perms_wf_cases p : perms_wf p ->
  p = 0 \/ p = 1 \/ p = 2 \/ p = 3 \/ p = 4 \/ p = 5 \/ p = 6 \/ p = 7.
Proof. unfold perms_wf. lia. Qed.

Lemma parse_names p : perms_wf p -> parse_list (names p) = Ok p.
Proof. intros H%perms_wf_cases. destruct_or! H; subst; reflexivity. Qed.

Lemma parse_perms_wf l p q : perms_wf p -> parse_perms l p = Ok q -> perms_wf q.
Proof.
  revert p. induction l as [|s l IH]; intros p Hp; simpl; [by intros [= <-]|].
  assert (forall k, k = READ \/ k = WRITE \/ k = ADMIN -> perms_wf (Z.lor p k)) as Hk.
  { intros k Hk. apply perms_wf_cases in Hp.
    destruct Hk as [-> |[-> | ->]]; repeat destruct Hp as [-> | Hp]; subst; by split; vm_compute. }
  repeat case_bool_decide; [apply IH, Hk; auto..|done].
Qed.

(** ** Capabilities *)

Definition opt_u64_ok (o : option Z) : Prop :=
  match o with Some e => is_u64 e | None => True end.

Record cap_wf (c : Capability) : Prop := {
  cap_scope : scope_wf (scope c);
  cap_perms : perms_wf (perms c);
  cap_expiry : opt_u64_ok (expiry_ms c);
  cap_nonce : is_u64 (nonce c);
  cap_issuer : length (issuer c) = 32%nat;
  cap_subject : length (subject c) = 32%nat;
  cap_sig : length (sig c) = 64%nat;
}.

Section caps.
Context `{Sha256, HexCrate, Ed25519, CapJson, !CapJsonLaws}.

Definition wire_of (c : Capability) : Wire :=
  mkWire (sign_view (scope c) (perms c) (expiry_ms c) (nonce c) (issuer c) (subject c))
    (Base64.b64url_encode (sig c)).

Lemma to_json_wire c : to_json c = wire_text (wire_of c).
Proof. reflexivity. Qed.

Lemma wire_ok c : cap_wf c -> view_ok (w_view (wire_of c)).
Proof. intros Hwf. split; apply Hwf. Qed.

Lemma b64url_roundtrip l : Base64.b64url_decode (Base64.b64url_encode l) = Ok l.
Proof.
  unfold Base64.b64url_decode, Base64.b64url_encode.
  pose proof (Base64.decode_encode Base64.B64URL Base64.good_alpha_B64URL l 0 ltac:(lia)) as E.
  simpl in E. by rewrite app_nil_r in E.
Qed.

Lemma from_json_to_json c : cap_wf c -> from_json (to_json c) = Ok c.
Proof.
  intros Hwf. unfold from_json. rewrite to_json_wire, wire_of_wire_text by by apply wire_ok.
  destruct c as [sc p e n iss subj sg], Hwf as [C1 C2 C3 C4 C5 C6 C7]; simpl in *.
  rewrite scope_parse_to_url by done. simpl. rewrite parse_names by done. simpl.
  rewrite !Ident.pk_roundtrip by done. simpl. rewrite b64url_roundtrip. simpl.
  by rewrite C7.
Qed.

Lemma from_json_wf t c : from_json t = Ok c -> cap_wf c.
Proof.
  unfold from_json. intros E. res_inv. apply scope_parse_inv in Hm0 as [Hs _].
  apply negb_false_iff, Nat.eqb_eq in Hm5. apply wire_of_text_ok in Heqo as [Hn He].
  split; simpl; eauto using Ident.pk_from_str_length. by apply (parse_perms_wf _ 0 a1) in Hm1.
Qed.

(** The canonical bytes determine every signed field. *)
Lemma canonical_inj c c' : cap_wf c -> cap_wf c' -> canonical_bytes c = canonical_bytes c' ->
  scope c = scope c' /\ perms c = perms c' /\ expiry_ms c = expiry_ms c'
  /\ nonce c = nonce c' /\ issuer c = issuer c' /\ subject c = subject c'.
Proof.
  intros Hwf Hwf' E. apply view_text_inj in E; [|apply (wire_ok c Hwf)|apply (wire_ok c' Hwf')].
  assert (to_url (scope c) = to_url (scope c')) as Eu by exact (f_equal sv_scope E).
  assert (names (perms c) = names (perms c')) as Ep by exact (f_equal sv_perms E).
  pose proof (f_equal sv_expiry_ms E) as Ee. pose proof (f_equal sv_nonce E) as En.
  pose proof (f_equal sv_issuer E) as Ei. pose proof (f_equal sv_subject E) as Es.
  apply (f_equal scope_parse) in Eu. rewrite !scope_parse_to_url in Eu by (by apply cap_scope).
  apply (f_equal parse_list) in Ep. rewrite !parse_names in Ep by (by apply cap_perms).
  apply Ident.pk_to_string_inj in Ei, Es. naive_solver.
Qed.

(** What the digest of a capability is taken of. *)
Definition signed_text (c : Capability) : bytes := canonical_bytes c ++ sig c.

Lemma digest_binds c c' : cap_wf c -> cap_wf c' -> LogSpec.separates [signed_text c; signed_text c'] ->
  digest_hex c = digest_hex c' -> c = c'.
Proof.
  intros Hwf Hwf' Hsep E. unfold digest_hex in E. apply (f_equal hex_decode) in E.
  rewrite !hex_decode_encode in E. injection E as E.
  apply (Hsep (signed_text c) (signed_text c') ltac:(by left) ltac:(right; by left)) in E as Eb.
  apply app_inj_2 in Eb as [Ec Es]; [|by rewrite (cap_sig c Hwf), (cap_sig c' Hwf')].
  apply canonical_inj in Ec; [|done..]. destruct c, c'; simpl in *. naive_solver.
Qed.

(** ** The keyring's text *)

Lemma hex_digit_plain b : is_lower_hex b = true -> plain b = true /\ b <> NEWLINE /\ b <> CARRIAGE_RETURN
  /\ b2z b < 128.
Proof. by destruct b. Qed.

Lemma parse_line_key k : length k = 32%nat -> parse_line (Ident.pk_to_string k) = Some k.
Proof.
  intros Hk. unfold parse_line. pose proof (Ident.pk_to_string_digits k) as Hd.
  rewrite trim_plain by (eapply Forall_impl; [exact Hd|]; intros b Hb; apply hex_digit_plain, Hb).
  rewrite bool_decide_eq_false_2, Ident.pk_roundtrip; [done|done|].
  intros E. apply (f_equal length) in E. unfold Ident.pk_to_string in E.
  rewrite hex_encode_length, Hk in E. done.
Qed.

Lemma chain_text_ascii ks :
  Forall (fun b => b2z b < 128) (mjoin (map (fun k => Ident.pk_to_string k ++ [NEWLINE]) ks)).
Proof.
  induction ks as [|k ks IH]; [constructor|]. cbn [map]. rewrite mjoin_cons, !Forall_app. split_and!.
  - eapply Forall_impl; [apply Ident.pk_to_string_digits|]. intros b Hb. apply hex_digit_plain, Hb.
  - constructor; [reflexivity|constructor].
  - done.
Qed.

Lemma parse_chain_to_chain kr : Forall (fun k => length k = 32%nat) (retired kr) ->
  parse_chain (to_chain_bytes kr) = retired kr.
Proof.
  unfold parse_chain, to_chain_bytes. rewrite from_utf8_lossy_valid by apply utf8_valid_ascii, chain_text_ascii.
  destruct kr as [k0 ks]; simpl. induction 1 as [|k ks Hk Hks IH]; [done|]. cbn [map].
  rewrite mjoin_cons, <-app_assoc. cbn [app].
  pose proof (Ident.pk_to_string_digits k) as Hd. rewrite Forall_forall in Hd.
  rewrite lines_cons by (intros Hin; apply Hd, hex_digit_plain in Hin; naive_solver).
  rewrite strip_cr_id by (intros Hin; apply Hd, hex_digit_plain in Hin; naive_solver).
  cbn. by rewrite (parse_line_key k Hk), IH.
Qed.

(** ** Verification *)

Lemma accepts_iff kr k : accepts_issuer kr k = true <-> k = active kr \/ k ∈ retired kr.
Proof.
  unfold accepts_issuer, key_for_issuer. rewrite bool_decide_eq_true.
  case_bool_decide as Ha; [naive_solver|].
  destruct (List.find _ (retired kr)) as [k'|] eqn:E.
  - apply List.find_some in E as [Hin Hk']. apply bool_decide_eq_true in Hk' as ->.
    apply list_elem_of_In in Hin. naive_solver.
  - split; [by intros []|]. intros [->|Hin]; [done|]. exfalso. apply list_elem_of_In in Hin.
    apply (List.find_none _ _ E) in Hin. by apply bool_decide_eq_false in Hin.
Qed.

(** The key a keyring finds for an issuer is the issuer. *)
Lemma key_for_issuer_eq kr k : key_for_issuer kr k = if accepts_issuer kr k then Some k else None.
Proof.
  unfold accepts_issuer. destruct (key_for_issuer kr k) as [k'|] eqn:E.
  - rewrite bool_decide_eq_true_2 by eauto. f_equal. unfold key_for_issuer in E.
    case_bool_decide as Ha; [by simplify_eq|].
    apply List.find_some in E as [_ E]. by apply bool_decide_eq_true in E.
  - by rewrite bool_decide_eq_false_2 by (by intros []).
Qed.

Lemma check_sig_issued s p e n subj kp kr : accepts_issuer kr (Ident.public kp) = true ->
  check_sig (cap_sign_for s p e n subj kp) kr = Ok tt.
Proof.
  intros Ha. unfold check_sig. cbn [issuer cap_sign_for]. rewrite key_for_issuer_eq, Ha.
  apply guard_err_ok, negb_false_iff. apply Ident.verify_sign.
Qed.

(** ** Properties *)

(** A scope URL parses exactly when it is the URL of a well-formed scope
    (a host and a namespace without slashes, [u/<pk>] excepted, any prefix), so
    a scope has one URL and a URL one scope. *)
Theorem scope_url_canonical url s :
  scope_parse url = Ok s <-> scope_wf s /\ to_url s = url.
Proof.
  split; [apply scope_parse_inv|]. intros [Hwf <-]. by apply scope_parse_to_url.
Qed.

(** Coverage compares prefixes by whole path segments, so a scope never
    covers a sibling whose name its own begins, and it is a partial order. *)
Theorem covers_segment_order a b c :
  (covers a b = true <-> host a = host b /\ tier a = tier b /\ ns a = ns b
     /\ prefix_segs (prefix a) `prefix_of` prefix_segs (prefix b))
  /\ covers a a = true
  /\ (covers a b = true -> covers b c = true -> covers a c = true)
  /\ (covers a b = true -> covers b a = true -> a = b).
Proof.
  split; [apply covers_iff|]. rewrite !covers_iff. split; [done|]. split.
  - intros (-> & -> & -> & Hp) (-> & -> & -> & Hq). split_and!; try done. by etrans.
  - intros (Hh & Ht & Hn & Hp) (_ & _ & _ & Hq).
    assert (prefix_segs (prefix a) = prefix_segs (prefix b)) as E
      by exact (anti_symm _ _ _ Hp Hq).
    destruct a as [h1 t1 n1 p1], b as [h2 t2 n2 p2]; simpl in *. subst. f_equal.
    pose proof (split_on_nonempty SLASH) as Hne.
    destruct p1 as [p1|], p2 as [p2|]; simpl in E; [| | |done].
    + by rewrite <-(join_split SLASH p1), E, join_split.
    + by destruct (Hne p1).
    + by destruct (Hne p2).
Qed.

(** A well-formed capability is read back from its JSON form, and every
    capability read is well-formed. *)
Theorem capability_json_roundtrip c t : cap_wf c ->
  from_json (to_json c) = Ok c /\ (forall c', from_json t = Ok c' -> cap_wf c').
Proof. intros Hwf. split; [by apply from_json_to_json|]. intros c'. apply from_json_wf. Qed.

(** Two well-formed capabilities with the same digest are the same in
    every field, when the hash function tells their texts apart. *)
Theorem digest_identifies c c' : cap_wf c -> cap_wf c' -> LogSpec.separates [signed_text c; signed_text c'] ->
  digest_hex c = digest_hex c' -> c = c'.
Proof. apply digest_binds. Qed.

(** A capability issued with a key of the keyring verifies exactly for its
    subject, before its expiry and while neither it nor its subject is revoked;
    otherwise the first of the three that fails is the error. *)
Theorem issued_capability_verifies s p e n subj kp kr principal rev now :
  accepts_issuer kr (Ident.public kp) = true ->
  verify (cap_sign_for s p e n subj kp) kr principal rev now
  = (if bool_decide (subj <> principal) then Err Malformed
     else if (match e with Some x => x <=? now | None => false end) then Err Expired
     else if is_revoked rev s (Ident.pk_to_string subj) n then Err Revoked
     else Ok tt).
Proof.
  intros Ha. unfold verify. rewrite (bind_step _ tt) by by apply check_sig_issued.
  unfold check_expiry. cbn [subject scope nonce expiry_ms cap_sign_for].
  destruct (decide (subj = principal)) as [<-|Hn].
  - rewrite bool_decide_eq_true_2, bool_decide_eq_false_2 by tauto. cbn.
    destruct e as [x|]; [destruct (x <=? now)|]; cbn; try done; by destruct (is_revoked _ _ _ _).
  - by rewrite bool_decide_eq_false_2, bool_decide_eq_true_2 by done.
Qed.

(** The retired keys of a keyring are read back from its text, so the keys
    a rotation kept are still accepted as issuers. *)
Theorem keyring_roundtrip kr : Forall (fun k => length k = 32%nat) (retired kr) ->
  parse_chain (to_chain_bytes kr) = retired kr
  /\ forall k, accepts_issuer (mkKeyring (active kr) (parse_chain (to_chain_bytes kr))) k
     = bool_decide (k = active kr \/ k ∈ retired kr).
Proof.
  intros Hk. rewrite parse_chain_to_chain by done. split; [done|]. intros k.
  apply eq_true_iff_eq. by rewrite accepts_iff, bool_decide_eq_true.
Qed.

End caps.

(** ** Witnesses *)

#[local] Existing Instance toy_sha256.
#[local] Existing Instance hex_plain.
#[local] Existing Instance toy_ed25519.
#[local] Existing Instance CapsToy.toy_cap_json.

Definition root_kp : Ident.Keypair := Ident.from_seed (replicate 32 Byte.x07).
Definition alice : Ident.PublicKey := replicate 32 Byte.xa1.
Definition photos : Scope := mkScope (bs "api.test") L2 (bs "photos") (Some (bs "a/b")).
Definition alice_cap : Capability :=
  cap_sign_for photos (perm_union READ WRITE) (Some 5000) 42 alice root_kp.

Lemma photos_wf : scope_wf photos.
Proof. split_and!; [done|vm_decide|left; split_and!; [done|vm_decide|done]]. Qed.

Lemma alice_cap_wf : cap_wf alice_cap.
Proof. split; [apply photos_wf|vm_compute; by split..| | |]; by vm_compute. Qed.

Lemma capability_json_roundtrip_witness :
  from_json (to_json alice_cap) = Ok alice_cap
  /\ (forall c', from_json (bs "{}") = Ok c' -> cap_wf c').
Proof. apply (capability_json_roundtrip alice_cap (bs "{}")). apply alice_cap_wf. Defined.

Lemma digest_identifies_witness : alice_cap = alice_cap.
Proof. apply (digest_identifies alice_cap alice_cap); [apply alice_cap_wf..|vm_decide|reflexivity]. Defined.

Lemma issued_capability_verifies_witness :
  verify alice_cap (keyring_current (Ident.public root_kp)) alice no_revocations 4999 = Ok tt
  /\ verify alice_cap (keyring_current (Ident.public root_kp)) alice no_revocations 5000 = Err Expired.
Proof.
  split; etrans; [apply (issued_capability_verifies photos (perm_union READ WRITE) (Some 5000) 42
    alice root_kp (keyring_current (Ident.public root_kp)) alice no_revocations 4999)| |
    apply (issued_capability_verifies photos (perm_union READ WRITE) (Some 5000) 42
    alice root_kp (keyring_current (Ident.public root_kp)) alice no_revocations 5000)|];
    vm_compute; reflexivity.
Defined.

Lemma keyring_roundtrip_witness :
  parse_chain (to_chain_bytes (mkKeyring alice [Ident.public root_kp])) = [Ident.public root_kp]
  /\ forall k, accepts_issuer (mkKeyring alice
       (parse_chain (to_chain_bytes (mkKeyring alice [Ident.public root_kp])))) k
     = bool_decide (k = alice \/ k ∈ [Ident.public root_kp]).
Proof.
  apply (keyring_roundtrip (mkKeyring alice [Ident.public root_kp])).
  constructor; [reflexivity|constructor].
Defined.

End CapsSpec.
