(* ===== verification/Rotate.v ===== *)
(** The node's root key: the key file [meta.bin] ([src/core/meta.rs]) and its
    rotation ([src/core/rotate.rs]), over an explicit data directory in which
    every change of the disk is a point where the machine may stop. *)

From S2P Require Import Prelude Crc32 LogFormat Log LogSpec Base64 Utf8 Text StoreTypes Store StoreSpec Snapshot SnapshotSpec Ident Caps CapsToy CapsSpec.
Import Utf8 Store Snapshot.

Module Rotate.

(** ** The data directory *)

(** [meta.bin], [meta.bin.tmp] and the store's files; [writes_left] is how
    many changes reach the disk before the power fails. *)
Record datadir := mkData {
  meta_bin : option bytes;
  meta_tmp : option bytes;
  data_disk : disk;
  writes_left : nat;
}.

Inductive rotate_error :=
| ReadMeta
| NotMetaBin
| AlreadyInitialized
| CreateMeta (path : bytes)
| OpenStore (e : StorageError)
| BadAdminB64 (e : Base64.b64_error)
| BadAdminUtf8
| BadAdminCap (e : Caps.cap_parse_error)
| PowerLoss.

Definition on_disk (f : datadir -> datadir) : method datadir rotate_error unit := fun s =>
  match writes_left s with
  | O => (s, Err PowerLoss)
  | S n => let s := f s in (mkData (meta_bin s) (meta_tmp s) (data_disk s) n, Ok tt)
  end.

Definition set_meta (b : option bytes) (s : datadir) : datadir :=
  mkData b (meta_tmp s) (data_disk s) (writes_left s).
Definition set_tmp (b : option bytes) (s : datadir) : datadir :=
  mkData (meta_bin s) b (data_disk s) (writes_left s).
Definition set_disk (d : disk) (s : datadir) : datadir :=
  mkData (meta_bin s) (meta_tmp s) d (writes_left s).

Section rotate.
Context `{Sha256, HexCrate, SerdeJson, Ed25519, CapJson}.

(** ** [meta.bin] *)

Definition META_MAGIC : bytes := bs "BMDMETA1".

Definition meta_bytes (kp : Ident.Keypair) : bytes :=
  META_MAGIC ++ Ident.public kp ++ Ident.to_seed kp.

(** [write_mode600] creates the file anew, so an existing one is an error. *)
Definition init (os_random : bytes) : method datadir rotate_error Ident.Keypair :=
  s ← self;
  _ ← lift (guard_err (bool_decide (is_Some (meta_bin s))) AlreadyInitialized);
  let kp := Ident.generate os_random in
  _ ← on_disk (set_meta (Some (meta_bytes kp)));
  mret kp.

Definition load (s : datadir) : outcome rotate_error Ident.Keypair :=
  b ← ok_or ReadMeta (meta_bin s);
  _ ← guard_err (negb (length b =? 8 + 32 + 32)%nat || negb (bool_decide (take 8 b = META_MAGIC))) NotMetaBin;
  Ok (Ident.from_seed (take 32 (drop (8 + 32) b))).

Definition write (kp : Ident.Keypair) : method datadir rotate_error unit :=
  s ← self;
  _ ← lift (guard_err (bool_decide (is_Some (meta_tmp s))) (CreateMeta (bs "meta.bin.tmp")));
  _ ← on_disk (set_tmp (Some (meta_bytes kp)));
  on_disk (fun s => set_tmp None (set_meta (meta_tmp s) s)).

(** ** [rotate_root] *)

Definition ROOT_CHAIN : bytes := bs "sys/root_chain".
Definition ADMIN_CAP : bytes := bs "sys/admin_cap".

Inductive admin_note := NoAdminCap | NotACapToken.
Record RotateOutcome := mkOutcome {
  old_root : Ident.PublicKey;
  new_root : Ident.PublicKey;
  dropped : bool;
  admin_cap : option bytes;
  admin_warning : option admin_note;
}.

(** [Store::open]: recovery may cut torn log tails, which loses nothing. *)
Definition open_store (now : Z) : method datadir rotate_error Store :=
  s ← self;
  let '(d, r) := open_durable false now (data_disk s) in
  _ ← update (set_disk d);
  lift (map_err OpenStore r).

Definition save_store (s : Store) : method datadir rotate_error unit :=
  on_disk (set_disk (sdisk (checkpoint s))).

Definition chain_of (s : Store) : list Ident.PublicKey :=
  match meta_get s ROOT_CHAIN with Some v => Caps.parse_chain v | None => [] end.

(** The re-keying of a persisted admin capability. *)
Definition reissue (new_kp : Ident.Keypair) (now : Z)
    : method datadir rotate_error (option bytes * option admin_note) :=
  s ← open_store now;
  match meta_get s ADMIN_CAP with
  | None => mret (None, Some NoAdminCap)
  | Some v =>
      match strip_prefix (bs "bmdb-cap:") (from_utf8_lossy v) with
      | None => mret (None, Some NotACapToken)
      | Some b64 =>
          b ← lift (map_err BadAdminB64 (Base64.b64url_decode b64));
          json ← lift (ok_or BadAdminUtf8 (from_utf8 b));
          old ← lift (map_err BadAdminCap (Caps.from_json json));
          let fresh := Caps.cap_sign_for (Caps.scope old) (Caps.perms old) (Caps.expiry_ms old)
                         (Caps.nonce old) (Ident.public new_kp) new_kp in
          let h := Caps.to_header fresh in
          _ ← save_store (meta_set ADMIN_CAP h s);
          mret (Some h, None)
      end
  end.

(** [os_random] is what the generator fills the new seed with, [now] the
    clock reading of an open. *)
Definition rotate_root (drop_predecessor reissue_admin : bool) (os_random : bytes) (now : Z)
    : method datadir rotate_error RotateOutcome :=
  d ← self;
  kp ← lift (load d);
  s ← open_store now;
  let old := Ident.public kp in
  let retired := chain_of s in
  let already := bool_decide (old ∈ retired) in
  let retired := if negb drop_predecessor && negb already then retired ++ [old] else retired in
  let new_kp := Ident.generate os_random in
  let new := Ident.public new_kp in
  _ ← save_store (meta_set ROOT_CHAIN (Caps.to_chain_bytes (Caps.mkKeyring new retired)) s);
  _ ← write new_kp;
  '(cap, warning) ← (if reissue_admin then reissue new_kp now else mret (None, None));
  mret (mkOutcome old new drop_predecessor cap warning).

(** The keyring the daemon starts with. *)
Definition keyring_of (now : Z) : method datadir rotate_error Caps.RootKeyring :=
  d ← self;
  kp ← lift (load d);
  s ← open_store now;
  mret (Caps.mkKeyring (Ident.public kp) (chain_of s)).

End rotate.
End Rotate.
