(* ===== verification/RotateSpec.v ===== *)
(** Correctness of root-key rotation: which issuers the daemon accepts
    afterwards, also when the power fails half way. *)

From S2P Require Import Prelude Crc32 LogFormat Log LogSpec Base64 Utf8 Text StoreTypes Store StoreSpec Snapshot SnapshotSpec Ident Caps CapsToy CapsSpec Rotate.
Import Utf8 Store StoreSpec Snapshot SnapshotSpec CapsSpec Rotate.

Module RotateSpec.

Section rotate.
Context `{Sha256, HexCrate, SerdeJson, Ed25519, CapJson}.

(** ** Stores at rest *)

(** A store that [open] restores from its checkpoint. *)
Record clean (s : Store) : Prop := {
  cl_ok : store_ok s;
  cl_snap : snap_ok s;
  cl_tidy : tidy s;
  cl_created : is_Some (meta s !! CREATED_MS);
  cl_durable : durable s = false;
}.

(** A data directory at rest: the key file of [kp] and the checkpoint of [s]. *)
Record at_rest (kp : Ident.Keypair) (s : Store) (dd : datadir) : Prop := {
  ar_meta : meta_bin dd = Some (meta_bytes kp);
  ar_seed : length (Ident.seed_of kp) = 32%nat;
  ar_disk : data_disk dd = sdisk (checkpoint s);
  ar_clean : clean s;
}.

Lemma clean_eq s s' : logs s' = logs s -> policies s' = policies s -> index s' = index s ->
  tombs s' = tombs s -> meta s' = meta s -> peer_clocks s' = peer_clocks s -> revision s' = revision s ->
  durable s' = durable s -> dirs (sdisk s') = dirs (sdisk s) -> clean s -> clean s'.
Proof.
  intros El Ep Ei Et Em Ec Er Ed Edi [Hok Hsn Hti Hcr Hdu].
  assert (forall ns rs, log_holds s' ns rs <-> log_holds s ns rs) as Hlh.
  { intros ns rs. unfold log_holds. by rewrite El, Edi. }
  constructor.
  - destruct Hok as [h1 h2 h3 h4 h5 h6 h7]. constructor; rewrite ?El, ?Ep, ?Ei, ?Et, ?Ed, ?Edi; try done.
    intros ns L HL. destruct (h3 ns L HL) as [? [rs Hrs]]. split; [done|]. exists rs. by apply Hlh.
  - destruct Hsn. by constructor; rewrite ?El, ?Ep, ?Ei, ?Et, ?Em, ?Ec, ?Er.
  - unfold tidy. by rewrite Edi, Ep.
  - by rewrite Em.
  - by rewrite Ed.
Qed.

Lemma clean_meta_set k v s : clean s -> utf8_valid k = true -> small k -> small v ->
  Z.of_nat (size (meta s)) + 1 < 2 ^ 32 -> clean (meta_set k v s).
Proof.
  intros [Hok Hsn Hti Hcr Hdu] Hk Hks Hvs Hn. constructor; try done.
  - by apply (exec_keeps (OpMetaSet k v) I).
  - destruct Hsn. constructor; try done; simpl.
    + apply u64_range.
    + intros k' v'. rewrite lookup_insert_Some. intros [[<- <-]|[_ Hl]]; [done|eauto].
    + rewrite map_size_insert. case_match; simpl; lia.
  - simpl. destruct (decide (k = CREATED_MS)) as [->|Hne].
    + rewrite lookup_insert_eq. eauto.
    + by rewrite lookup_insert_ne.
Qed.

(** ** The key file *)

Lemma load_meta kp dd : meta_bin dd = Some (meta_bytes kp) -> length (Ident.seed_of kp) = 32%nat ->
  load dd = Ok kp.
Proof.
  intros Hm Hs. unfold load. rewrite Hm. cbn [ok_or mbind outcome_bind].
  assert (length (meta_bytes kp) = 72%nat) as Hl.
  { unfold meta_bytes, Ident.to_seed. rewrite !length_app, Ident.length_public, Hs. done. }
  rewrite Hl. change (72 =? 8 + 32 + 32)%nat with true. cbn [negb orb].
  unfold meta_bytes. rewrite (take_app_length' META_MAGIC) by done. rewrite bool_decide_eq_true_2 by done.
  cbn [negb guard_err mbind outcome_bind]. f_equal. rewrite app_assoc, drop_app_length'.
  - unfold Ident.to_seed. rewrite take_ge by lia. by destruct kp.
  - rewrite length_app, Ident.length_public. done.
Qed.

Lemma open_at_rest kp s dd now : at_rest kp s dd ->
  exists s', open_store now dd = (dd, Ok s') /\ clean s' /\ meta s' = meta s.
Proof.
  intros [Hm Hs Hd Hc]. destruct (reopen_run s now (cl_ok s Hc) (cl_snap s Hc) (cl_tidy s Hc) (cl_created s Hc))
    as (s' & E & Ed & El & Ep & Ei & Et & Em & Ec & Er & Edu & _).
  exists s'. rewrite (cl_durable s Hc) in E. split_and!; try done.
  - unfold open_store, mbind, method_bind, self. rewrite Hd, E. unfold update, lift. cbn [map_err].
    destruct dd; simpl in *. by rewrite Hd.
  - eapply clean_eq; try done. by rewrite Ed.
Qed.

(** ** The keys in use *)

Lemma parse_chain_lengths b : Forall (fun k => length k = 32%nat) (Caps.parse_chain b).
Proof.
  apply Forall_forall. intros k (line & _ & Hl)%list_elem_of_omap. unfold Caps.parse_line in Hl.
  case_bool_decide; [done|]. destruct (Ident.pk_from_str _) as [k'|?|] eqn:E; simplify_eq.
  by eapply Ident.pk_from_str_length.
Qed.

Lemma chain_lengths s : Forall (fun k => length k = 32%nat) (chain_of s).
Proof. unfold chain_of. destruct (meta_get s ROOT_CHAIN); [apply parse_chain_lengths|constructor]. Qed.

Lemma chain_of_meta s s' : meta s' = meta s -> chain_of s' = chain_of s.
Proof. intros E. unfold chain_of, meta_get. by rewrite E. Qed.

Lemma chain_of_set s k ks : Forall (fun k => length k = 32%nat) ks ->
  chain_of (meta_set ROOT_CHAIN (Caps.to_chain_bytes (Caps.mkKeyring k ks)) s) = ks.
Proof.
  intros Hk. unfold chain_of, meta_get. simpl. rewrite lookup_insert_eq. by apply parse_chain_to_chain.
Qed.

Lemma keyring_at_rest kp s dd now : at_rest kp s dd ->
  keyring_of now dd = (dd, Ok (Caps.mkKeyring (Ident.public kp) (chain_of s))).
Proof.
  intros Hr. destruct (open_at_rest kp s dd now Hr) as (s' & E & _ & Em).
  unfold keyring_of, mbind, method_bind, self, lift.
  rewrite (load_meta kp dd (ar_meta _ _ _ Hr) (ar_seed _ _ _ Hr)), E. by rewrite (chain_of_meta _ _ Em).
Qed.

(** A capability verifies under every keyring that accepts more issuers. *)
Lemma verify_mono c kr kr' principal rev t :
  (forall k, Caps.accepts_issuer kr k = true -> Caps.accepts_issuer kr' k = true) ->
  Caps.verify c kr principal rev t = Ok tt -> Caps.verify c kr' principal rev t = Ok tt.
Proof.
  intros Hk. unfold Caps.verify, Caps.check_sig. rewrite !key_for_issuer_eq. specialize (Hk (Caps.issuer c)).
  destruct (Caps.accepts_issuer kr (Caps.issuer c)); [|done]. by rewrite Hk.
Qed.

(** ** Running a rotation *)

(** The chain a rotation writes. *)
Definition next_chain (drop : bool) (old : Ident.PublicKey) (ks : list Ident.PublicKey) : list Ident.PublicKey :=
  if negb drop && negb (bool_decide (old ∈ ks)) then ks ++ [old] else ks.

(** There is room in the metadata for the chain. *)
Definition room (drop : bool) (kp : Ident.Keypair) (s : Store) : Prop :=
  Z.of_nat (size (meta s)) + 1 < 2 ^ 32
  /\ forall new, small (Caps.to_chain_bytes (Caps.mkKeyring new (next_chain drop (Ident.public kp) (chain_of s)))).

Lemma next_chain_lengths drop kp s :
  Forall (fun k => length k = 32%nat) (next_chain drop (Ident.public kp) (chain_of s)).
Proof.
  unfold next_chain. destruct (_ && _); [|apply chain_lengths]. apply Forall_app. split; [apply chain_lengths|].
  constructor; [apply Ident.length_public|constructor].
Qed.

Definition with_writes (n : nat) (dd : datadir) : datadir :=
  mkData (meta_bin dd) (meta_tmp dd) (data_disk dd) n.

(** What a rotation without re-keying does, write by write. *)
Lemma rotate_run drop kp s dd rnd now : at_rest kp s dd -> room drop kp s ->
  let new := Ident.generate rnd in
  let ks := next_chain drop (Ident.public kp) (chain_of s) in
  exists s1, clean s1 /\ chain_of s1 = ks /\ (size (meta s1) <= size (meta s) + 1)%nat /\
    let d1 := sdisk (checkpoint s1) in
    rotate_root drop false rnd now dd =
      match writes_left dd with
      | 0%nat => (dd, Err PowerLoss)
      | S n =>
          if bool_decide (is_Some (meta_tmp dd))
          then (mkData (meta_bin dd) (meta_tmp dd) d1 n, Err (CreateMeta (bs "meta.bin.tmp")))
          else match n with
          | 0%nat => (mkData (meta_bin dd) None d1 0, Err PowerLoss)
          | 1%nat => (mkData (meta_bin dd) (Some (meta_bytes new)) d1 0, Err PowerLoss)
          | S (S n) => (mkData (Some (meta_bytes new)) None d1 n,
                        Ok (mkOutcome (Ident.public kp) (Ident.public new) drop None None))
          end
      end.
Proof.
  intros Hr [Hn Hsm] new ks. destruct (open_at_rest kp s dd now Hr) as (s' & E & Hc & Em).
  assert (chain_of s' = chain_of s) as Ech by (by apply chain_of_meta).
  set (s1 := meta_set ROOT_CHAIN (Caps.to_chain_bytes (Caps.mkKeyring (Ident.public new) ks)) s').
  exists s1. split_and!.
  - apply clean_meta_set; [done|done|done|apply Hsm|by rewrite Em].
  - apply chain_of_set, next_chain_lengths.
  - simpl. rewrite map_size_insert, Em. case_match; simpl; lia.
  - unfold rotate_root, mbind, method_bind, self, lift.
    rewrite (load_meta kp dd (ar_meta _ _ _ Hr) (ar_seed _ _ _ Hr)), E. cbv zeta. rewrite Ech.
    change (if negb drop && negb (bool_decide (Ident.public kp ∈ chain_of s))
            then chain_of s ++ [Ident.public kp] else chain_of s) with ks.
    fold new. fold s1. unfold save_store, on_disk at 1. destruct (writes_left dd) as [|n]; [done|].
    unfold write, mbind, method_bind, self, lift. cbn [meta_tmp set_disk meta_bin data_disk].
    case_bool_decide as Ht; cbn [guard_err]; [done|]. apply eq_None_not_Some in Ht. rewrite Ht.
    unfold on_disk. cbn [writes_left]. destruct n as [|[|n]]; done.
Qed.

Lemma next_chain_elem drop old ks k :
  k ∈ next_chain drop old ks <-> k ∈ ks \/ (drop = false /\ k = old).
Proof.
  unfold next_chain. destruct drop; simpl; [naive_solver|].
  case_bool_decide; simpl; [naive_solver|]. rewrite elem_of_app, list_elem_of_singleton. naive_solver.
Qed.

(** ** Properties *)

(** A rotation makes the new key the active one and keeps exactly the
    issuers it should: all retired ones, and the predecessor unless it is
    dropped.  So after a graceful rotation every capability that verified
    still does, and after a drop those of the predecessor are refused, if it
    was not retired before. *)
Theorem rotation_keyring drop kp s dd rnd now :
  at_rest kp s dd -> room drop kp s -> meta_tmp dd = None -> (3 <= writes_left dd)%nat ->
  length rnd = 32%nat ->
  let new := Ident.public (Ident.generate rnd) in
  exists dd' kr kr', rotate_root drop false rnd now dd
      = (dd', Ok (mkOutcome (Ident.public kp) new drop None None))
    /\ keyring_of now dd = (dd, Ok kr) /\ keyring_of now dd' = (dd', Ok kr')
    /\ Caps.active kr' = new
    /\ (forall k, Caps.accepts_issuer kr' k = true
          <-> k = new \/ k ∈ Caps.retired kr \/ (drop = false /\ k = Caps.active kr))
    /\ (drop = false -> forall c principal rev t,
          Caps.verify c kr principal rev t = Ok tt -> Caps.verify c kr' principal rev t = Ok tt)
    /\ (drop = true -> Ident.public kp ∉ Caps.retired kr -> Ident.public kp <> new ->
        forall c principal rev t, Caps.issuer c = Ident.public kp ->
          Caps.verify c kr' principal rev t = Err Caps.BadIssuer).
Proof.
  intros Hr Hro Htmp Hw Hrnd new. destruct (rotate_run drop kp s dd rnd now Hr Hro) as (s1 & Hc1 & Hch & _ & E).
  cbv zeta in E. rewrite Htmp in E. destruct (writes_left dd) as [|[|[|n]]]; [lia..|].
  set (dd' := mkData (Some (meta_bytes (Ident.generate rnd))) None (sdisk (checkpoint s1)) n).
  assert (at_rest (Ident.generate rnd) s1 dd') as Hr' by (by constructor).
  exists dd', (Caps.mkKeyring (Ident.public kp) (chain_of s)), (Caps.mkKeyring new (chain_of s1)).
  assert (forall k, Caps.accepts_issuer (Caps.mkKeyring new (chain_of s1)) k = true
    <-> k = new \/ k ∈ chain_of s \/ (drop = false /\ k = Ident.public kp)) as Hacc.
  { intros k. rewrite accepts_iff. simpl. by rewrite Hch, next_chain_elem. }
  split_and!; [exact E|by apply keyring_at_rest|by apply keyring_at_rest|done|done| |].
  - intros Hd c principal rev t. apply verify_mono. intros k. rewrite Hacc, accepts_iff. simpl. naive_solver.
  - intros Hd Hni Hne c principal rev t Hi. unfold Caps.verify, Caps.check_sig. rewrite key_for_issuer_eq.
    destruct (Caps.accepts_issuer _ _) eqn:Ea; [|done]. apply Hacc in Ea. rewrite Hi in Ea. simpl in Hni. naive_solver.
Qed.

(** C34: wherever the power fails during a graceful rotation, and whatever an
    earlier failure left behind, the daemon starts again with a keyring that
    accepts everything it accepted before. *)
Theorem rotation_crash_safe kp s dd rnd now :
  at_rest kp s dd -> room false kp s -> length rnd = 32%nat ->
  let dd' := (rotate_root false false rnd now dd).1 in
  exists kr kr', keyring_of now dd = (dd, Ok kr) /\ keyring_of now dd' = (dd', Ok kr')
    /\ forall c principal rev t,
         Caps.verify c kr principal rev t = Ok tt -> Caps.verify c kr' principal rev t = Ok tt.
Proof.
  intros Hr Hro Hrnd. destruct (rotate_run false kp s dd rnd now Hr Hro) as (s1 & Hc1 & Hch & _ & E).
  cbv zeta in *. rewrite E. set (dd' := (match writes_left dd with _ => _ end).1). clear E.
  assert (at_rest kp s dd' \/ at_rest kp s1 dd' \/ at_rest (Ident.generate rnd) s1 dd') as Hr'.
  { destruct Hr as [h1 h2 h3 h4]. subst dd'. destruct (writes_left dd) as [|n]; [left; by constructor|].
    right. case_bool_decide; [left; by constructor|]. destruct n as [|[|n]]; [left; by constructor..|].
    right. by constructor. }
  exists (Caps.mkKeyring (Ident.public kp) (chain_of s)). destruct Hr' as [Hr'|[Hr'|Hr']]; eexists;
    (split; [by apply keyring_at_rest|]); (split; [by apply keyring_at_rest|]);
    intros c principal rev t; apply verify_mono; intros k; rewrite !accepts_iff; simpl; [done|..];
    rewrite Hch, next_chain_elem; naive_solver.
Qed.

(** A second attempt writes the chain that is already there. *)
Lemma next_chain_again drop old ks : next_chain drop old (next_chain false old ks) = next_chain false old ks.
Proof.
  unfold next_chain at 1. rewrite (bool_decide_eq_true_2 (old ∈ _)); [by rewrite andb_false_r|].
  apply next_chain_elem. by right.
Qed.

Lemma room_again drop kp s s1 : room false kp s -> Z.of_nat (size (meta s)) + 2 < 2 ^ 32 ->
  chain_of s1 = next_chain false (Ident.public kp) (chain_of s) ->
  (size (meta s1) <= size (meta s) + 1)%nat -> room drop kp s1.
Proof.
  intros [_ Hs] Hn Hc Hz. split; [lia|]. intros new. rewrite Hc, next_chain_again. apply Hs.
Qed.

(** An interrupted graceful rotation is not always re-runnable.  If the
    power failed before the rename, the temporary key file blocks every later
    rotation.  If it failed before that file was written, the predecessor is
    already in the chain, and a rotation that drops it leaves it accepted. *)
Theorem interrupted_rotation kp s dd rnd now :
  at_rest kp s dd -> room false kp s -> Z.of_nat (size (meta s)) + 2 < 2 ^ 32 ->
  meta_tmp dd = None -> length rnd = 32%nat ->
  (forall drop rnd2 now2 n, writes_left dd = 2%nat ->
     let dd' := with_writes (S n) (rotate_root false false rnd now dd).1 in
     (rotate_root drop false rnd2 now2 dd').2 = Err (CreateMeta (bs "meta.bin.tmp")))
  /\ (forall rnd2 now2 n, writes_left dd = 1%nat -> length rnd2 = 32%nat ->
     let dd' := with_writes (3 + n) (rotate_root false false rnd now dd).1 in
     exists dd2 kr, rotate_root true false rnd2 now2 dd'
         = (dd2, Ok (mkOutcome (Ident.public kp) (Ident.public (Ident.generate rnd2)) true None None))
       /\ keyring_of now2 dd2 = (dd2, Ok kr) /\ Caps.accepts_issuer kr (Ident.public kp) = true).
Proof.
  intros Hr Hro Hsz Htmp Hrnd. destruct (rotate_run false kp s dd rnd now Hr Hro) as (s1 & Hc1 & Hch & Hz & E).
  cbv zeta in E. rewrite Htmp in E. rewrite bool_decide_eq_false_2 in E by (by intros []).
  assert (forall drop, room drop kp s1) as Hro1 by (intros drop; by eapply room_again).
  destruct Hr as [h1 h2 h3 h4]. split.
  - intros drop rnd2 now2 n Hw. rewrite Hw in E. rewrite E.
    assert (at_rest kp s1 (with_writes (S n) (mkData (meta_bin dd) (Some (meta_bytes (Ident.generate rnd)))
      (sdisk (checkpoint s1)) 0))) as Hr1 by (by constructor).
    destruct (rotate_run drop kp s1 _ rnd2 now2 Hr1 (Hro1 drop)) as (s2 & _ & _ & _ & E2).
    exact (f_equal snd E2).
  - intros rnd2 now2 n Hw Hrnd2. rewrite Hw in E. rewrite E.
    assert (at_rest kp s1 (with_writes (3 + n) (mkData (meta_bin dd) None (sdisk (checkpoint s1)) 0))) as Hr1
      by (by constructor).
    destruct (rotate_run true kp s1 _ rnd2 now2 Hr1 (Hro1 true)) as (s2 & Hc2 & Hch2 & _ & E2).
    exists (mkData (Some (meta_bytes (Ident.generate rnd2))) None (sdisk (checkpoint s2)) n).
    eexists. split; [exact E2|]. split; [apply keyring_at_rest; by constructor|].
    apply accepts_iff. right. simpl. rewrite Hch2, next_chain_elem, Hch, next_chain_elem. naive_solver.
Qed.

End rotate.

(** ** A small instance *)

#[local] Existing Instance toy_sha256.
#[local] Existing Instance hex_plain.
#[local] Existing Instance toy_json.
#[local] Existing Instance toy_ed25519.
#[local] Existing Instance CapsToy.toy_cap_json.

Definition demo_kp : Ident.Keypair := Ident.generate (replicate 32 Byte.x07).
Definition demo_dir (tmp : option bytes) (writes : nat) : datadir :=
  mkData (Some (meta_bytes demo_kp)) tmp (sdisk (checkpoint saved)) writes.
Definition demo_seed : bytes := replicate 32 Byte.x09.

Lemma saved_clean : clean saved.
Proof.
  constructor; [apply saved_ok|apply saved_snap_ok|apply saved_tidy| |done].
  assert (bool_decide (is_Some (meta saved !! CREATED_MS)) = true) as E by vm_decide.
  by apply bool_decide_eq_true in E.
Qed.

Lemma demo_at_rest tmp n : at_rest demo_kp saved (demo_dir tmp n).
Proof. constructor; [done|done|done|apply saved_clean]. Qed.

Lemma demo_room drop : room drop demo_kp saved.
Proof.
  assert (size (meta saved) = 1%nat) as Hz by vm_decide.
  split; [rewrite Hz; lia|]. intros new.
  assert (chain_of saved = []) as E by vm_decide. rewrite E. destruct drop; unfold small; vm_compute; done.
Qed.

(** The rotation of the example: the old key is retired, or refused. *)
Lemma rotation_keyring_witness :
  exists dd' kr kr',
    rotate_root true false demo_seed 5 (demo_dir None 3)
      = (dd', Ok (mkOutcome (Ident.public demo_kp) (Ident.public (Ident.generate demo_seed)) true None None))
    /\ keyring_of 5 (demo_dir None 3) = (demo_dir None 3, Ok kr) /\ keyring_of 5 dd' = (dd', Ok kr')
    /\ Caps.active kr' = Ident.public (Ident.generate demo_seed).
Proof.
  destruct (rotation_keyring true demo_kp saved (demo_dir None 3) demo_seed 5 (demo_at_rest None 3)
    (demo_room true) eq_refl (Nat.le_refl 3) eq_refl) as (dd' & kr & kr' & E1 & E2 & E3 & E4 & _).
  exists dd', kr, kr'. by split_and!.
Defined.

Lemma rotation_crash_safe_witness :
  let dd' := (rotate_root false false demo_seed 5 (demo_dir None 2)).1 in
  exists kr kr', keyring_of 5 (demo_dir None 2) = (demo_dir None 2, Ok kr) /\ keyring_of 5 dd' = (dd', Ok kr')
    /\ Caps.verify alice_cap kr' alice Caps.no_revocations 4999 = Ok tt.
Proof.
  destruct (rotation_crash_safe demo_kp saved (demo_dir None 2) demo_seed 5 (demo_at_rest None 2)
    (demo_room false) eq_refl) as (kr & kr' & E1 & E2 & E3).
  exists kr, kr'. split_and!; [done|done|apply E3].
  rewrite (keyring_at_rest demo_kp saved _ 5 (demo_at_rest None 2)) in E1.
  apply pair_eq in E1 as [_ E1]. injection E1 as <-. vm_compute. reflexivity.
Defined.

Lemma interrupted_rotation_witness :
  (rotate_root true false demo_seed 5
     (with_writes 9 (rotate_root false false demo_seed 5 (demo_dir None 2)).1)).2
    = Err (CreateMeta (bs "meta.bin.tmp"))
  /\ exists dd2 kr, rotate_root true false demo_seed 5
         (with_writes 3 (rotate_root false false demo_seed 5 (demo_dir None 1)).1)
         = (dd2, Ok (mkOutcome (Ident.public demo_kp) (Ident.public (Ident.generate demo_seed)) true None None))
       /\ keyring_of 5 dd2 = (dd2, Ok kr) /\ Caps.accepts_issuer kr (Ident.public demo_kp) = true.
Proof.
  assert (Z.of_nat (size (meta saved)) + 2 < 2 ^ 32) as Hz.
  { assert (size (meta saved) = 1%nat) as -> by vm_decide. lia. }
  split.
  - apply (proj1 (interrupted_rotation demo_kp saved (demo_dir None 2) demo_seed 5 (demo_at_rest None 2)
      (demo_room false) Hz eq_refl eq_refl) true demo_seed 5 8%nat eq_refl).
  - apply (proj2 (interrupted_rotation demo_kp saved (demo_dir None 1) demo_seed 5 (demo_at_rest None 1)
      (demo_room false) Hz eq_refl eq_refl) demo_seed 5 0%nat eq_refl eq_refl).
Defined.

End RotateSpec.
