(* ===== verification/Auth.v ===== *)
(** Authorization ([src/ns.rs]): the decision over a request's capabilities,
    the verification cache keyed by content digest and revocation epoch, the
    quota ledger and the provisioning of owner namespaces. *)

From S2P Require Import Prelude Crc32 LogFormat StoreTypes Store Ident Caps.
Import Caps Store.

Module Auth.

Inductive auth_detail :=
| NotThisHost (scope_host host_name : bytes)
| NoOwnerCap (s : Scope)
| NoAdminCap
| NoCap (s : Scope) (p : PermSet)
| Provision (e : StorageError).

Inductive AuthError :=
| Unauthorized (d : auth_detail)
| Forbidden (d : auth_detail)
| QuotaExceeded (ns : bytes) (limit : Z).

(** ** The verification cache

    256 shards by the first byte of the digest's hex form, which is never
    empty.  Each maps digests to the epoch of their verification; [ticks]
    counts the times the shard was cleared. *)
Record CapCache := mkCache {
  ticks : byte -> Z;
  shards : byte -> gmap bytes Z;
  epochs : byte -> Z;
}.

Definition cap_cache_new : CapCache := mkCache (fun _ => 0) (fun _ => ∅) (fun _ => 0).

(** [locked]: whether [try_lock] finds the shard taken. *)
Definition epoch_ok (cache : option CapCache) (key : bytes) (epoch : Z) (locked : bool) : bool :=
  match cache with
  | None => false
  | Some c =>
      let shard := shard_of key in
      if negb (ticks c shard =? epochs c shard) then false
      else if locked then false
      else bool_decide (shards c shard !! key = Some epoch)
  end.

Definition set_at {A} (f : byte -> A) (b : byte) (a : A) : byte -> A :=
  fun b' => if bool_decide (b' = b) then a else f b'.

Definition mark_verified (cache : option CapCache) (key : bytes) (epoch : Z) (cached_ok : bool)
    : option CapCache :=
  match cache with
  | None => None
  | Some c =>
      if cached_ok then Some c else
      let shard := shard_of key in
      let m := shards c shard in
      let '(m, t) := if (8192 <=? size m)%nat then (∅, u64 (ticks c shard + 1))
                     else (m, ticks c shard) in
      Some (mkCache (set_at (ticks c) shard t) (set_at (shards c) shard (<[key := epoch]> m))
              (epochs c))
  end.

Definition tier_ok (c : Capability) (t : Tier) : bool :=
  bool_decide (tier (scope c) = t)
  || (bool_decide (t = L1) && bool_decide (tier (scope c) = L1)).

Definition is_ok {E A} (o : outcome E A) : bool :=
  match o with Ok _ => true | _ => false end.

Section auth.
Context `{Sha256, HexCrate, Ed25519, CapJson, SerdeJson}.

(** ** The decision *)

(** The test of one capability in the loop of each tier. *)
Definition cap_allows (s : Scope) (principal : Ident.PublicKey) (p : PermSet) (kr : RootKeyring)
    (rev : RevocationSet) (now_ms : Z) (c : Capability) (cached_ok : bool) : bool :=
  match tier s with
  | L3 =>
      is_ok (verify_or_cached c kr principal rev now_ms cached_ok)
      && (bool_decide (tier (scope c) = L3) && covers (scope c) s
          && bool_decide (bs "u/" ++ Ident.pk_to_string (subject c) = ns s)
          && contains (perms c) p)
  | L1 =>
      tier_ok c L1 && bool_decide (tier (scope c) = L1) && bool_decide (ns (scope c) = bs "*")
      && contains (perms c) ADMIN
      && is_ok (verify_or_cached c kr principal rev now_ms cached_ok)
  | L2 =>
      is_ok (verify_or_cached c kr principal rev now_ms cached_ok)
      && (bool_decide (tier (scope c) = L2) && covers (scope c) s && contains (perms c) p)
  end.

Definition denied (s : Scope) (p : PermSet) : AuthError :=
  Unauthorized (match tier s with L3 => NoOwnerCap s | L1 => NoAdminCap | L2 => NoCap s p end).

(** The loop over the capabilities; [busy] gives the outcome of the
    [try_lock] of each round. *)
Fixpoint auth_loop (s : Scope) (principal : Ident.PublicKey) (p : PermSet) (kr : RootKeyring)
    (rev : RevocationSet) (now_ms epoch : Z) (caps : list Capability) (busy : nat -> bool)
    (cache : option CapCache) : option CapCache * outcome AuthError unit :=
  match caps with
  | [] => (cache, Err (denied s p))
  | c :: caps =>
      let ckey := digest_hex c in
      let cached_ok := epoch_ok cache ckey epoch (busy 0%nat) in
      if cap_allows s principal p kr rev now_ms c cached_ok
      then (mark_verified cache ckey epoch cached_ok, Ok tt)
      else auth_loop s principal p kr rev now_ms epoch caps (fun i => busy (S i)) cache
  end.

Definition authorize_cached (s : Scope) (principal : Ident.PublicKey) (p : PermSet)
    (caps : list Capability) (kr : RootKeyring) (rev : RevocationSet) (host_name : bytes)
    (now_ms : Z) (busy : nat -> bool) (epoch : Z) (cache : option CapCache)
    : option CapCache * outcome AuthError unit :=
  if bool_decide (host s <> host_name)
  then (cache, Err (Unauthorized (NotThisHost (host s) host_name)))
  else auth_loop s principal p kr rev now_ms epoch caps busy cache.

Definition authorize (s : Scope) (principal : Ident.PublicKey) (p : PermSet)
    (caps : list Capability) (kr : RootKeyring) (rev : RevocationSet) (host_name : bytes)
    (now_ms : Z) : outcome AuthError unit :=
  (authorize_cached s principal p caps kr rev host_name now_ms (fun _ => false) 0 None).2.

(** ** Quotas and owner namespaces *)

Definition quota_key (n : bytes) : bytes := bs "quota:" ++ n.

Definition bytes_written (st : Store) (n : bytes) : Z :=
  match meta_get st (quota_key n) with
  | Some v => if (length v =? 8)%nat then le_val v else 0
  | None => 0
  end.

Definition account_write (n : bytes) (delta limit : Z) : method Store AuthError unit :=
  st ← self;
  let total := u64 (bytes_written st n + delta) in
  _ ← lift (guard_err (limit <? total) (QuotaExceeded n limit));
  update (meta_set (quota_key n) (le_bytes 8 total)).

(** A method's error, mapped. *)
Definition method_map_err {S E E' A} (f : E -> E') (m : method S E A) : method S E' A :=
  fun s => let '(s', o) := m s in (s', map_err f o).

Definition ensure_l3_namespace (principal : Ident.PublicKey) : method Store AuthError bytes :=
  st ← self;
  let n := bs "u/" ++ Ident.pk_to_string principal in
  _ ← (match policy st n with
       | None => method_map_err (fun e => Unauthorized (Provision e)) (create_namespace n PLww)
       | Some _ => mret tt
       end);
  mret n.

End auth.
End Auth.
