(* ===== verification/AuthSpec.v ===== *)
(** Correctness of authorization: a request is granted exactly when one of its
    capabilities verifies and grants it, and the verification cache never
    changes a decision, whatever requests and revocations came before. *)

From S2P Require Import Prelude Crc32 LogFormat LogSpec StoreTypes Store StoreSpec Ident Caps CapsToy CapsSpec Auth.
Import Caps CapsSpec Auth.

Module AuthSpec.

Section spec.
Context `{Sha256, HexCrate, Ed25519, CapJson, !CapJsonLaws}.

(** ** What a capability grants *)

Definition grants (s : Scope) (p : PermSet) (c : Capability) : Prop :=
  match tier s with
  | L1 => tier (scope c) = L1 /\ ns (scope c) = bs "*" /\ contains (perms c) ADMIN = true
  | L2 => covers (scope c) s = true /\ contains (perms c) p = true
  | L3 => covers (scope c) s = true /\ bs "u/" ++ Ident.pk_to_string (subject c) = ns s
          /\ contains (perms c) p = true
  end.

Lemma is_ok_true {E} (o : outcome E unit) : is_ok o = true <-> o = Ok tt.
Proof. destruct o as [[]|e|]; naive_solver. Qed.

Lemma check_expiry_cases c now : check_expiry c now = Ok tt \/ check_expiry c now = Err Expired.
Proof. unfold check_expiry. destruct (expiry_ms c) as [e|]; [destruct (e <=? now)|]; auto. Qed.

(** The two orders of the checks accept the same capabilities. *)
Lemma verify_cached_false c kr principal rev now :
  verify_or_cached c kr principal rev now false = Ok tt <-> verify c kr principal rev now = Ok tt.
Proof.
  unfold verify_or_cached, verify, accepts_issuer, check_sig.
  destruct (key_for_issuer kr (issuer c)) as [k|]; [|done].
  rewrite (bool_decide_eq_true_2 (is_Some (Some k))) by by eexists. cbn.
  destruct (check_expiry_cases c now) as [-> | ->]; destruct (Ident.verify k _ _); cbn;
    destruct (bool_decide _); done.
Qed.

(** What the cache may skip: the signature and the revocations. *)
Lemma verify_cached_true c kr principal rev now :
  check_sig c kr = Ok tt ->
  is_revoked rev (scope c) (Ident.pk_to_string (subject c)) (nonce c) = false ->
  verify_or_cached c kr principal rev now true = verify_or_cached c kr principal rev now false.
Proof.
  intros Hs Hr. unfold verify_or_cached. rewrite Hs.
  destruct (negb (accepts_issuer kr (issuer c))); [done|]. cbn.
  case_bool_decide as Hp; [|done]. cbn. rewrite <-Hp, Hr.
  by destruct (check_expiry_cases c now) as [-> | ->].
Qed.

Lemma verify_cached_facts c kr principal rev now :
  verify_or_cached c kr principal rev now false = Ok tt ->
  check_sig c kr = Ok tt
  /\ is_revoked rev (scope c) (Ident.pk_to_string (subject c)) (nonce c) = false.
Proof.
  unfold verify_or_cached. intros E. apply bind_ok in E as ([] & _ & E).
  apply bind_ok in E as ([] & Hp & E). apply guard_err_ok, negb_false_iff, bool_decide_eq_true in Hp as <-.
  apply bind_ok in E as ([] & _ & E). apply bind_ok in E as ([] & Hs & E).
  apply bind_ok in E as ([] & Hr & _). by apply guard_err_ok in Hr.
Qed.

Lemma cap_allows_iff s principal p kr rev now c b : cap_allows s principal p kr rev now c b = true
  <-> verify_or_cached c kr principal rev now b = Ok tt /\ grants s p c.
Proof.
  unfold cap_allows, grants, tier_ok. rewrite <-is_ok_true.
  destruct (tier s) eqn:Et; rewrite ?andb_true_iff, ?orb_true_iff, ?andb_true_iff, ?bool_decide_eq_true;
    rewrite ?covers_iff; [naive_solver|split; naive_solver congruence..].
Qed.

(** ** The loop without a cache *)

Lemma auth_loop_none s principal p kr rev now epoch caps busy :
  auth_loop s principal p kr rev now epoch caps busy None
  = (None, if existsb (fun c => cap_allows s principal p kr rev now c false) caps
           then Ok tt else Err (denied s p)).
Proof.
  revert busy. induction caps as [|c caps IH]; intros busy; [done|]. cbn [auth_loop existsb epoch_ok].
  destruct (cap_allows _ _ _ _ _ _ c false); [done|]. by rewrite IH.
Qed.

(** ** What a granted request says, whatever the cache holds *)

Lemma authorize_settles sc pr p l kr rev host now busy epoch cache :
  (authorize_cached sc pr p l kr rev host now busy epoch cache).2 <> Panic.
Proof.
  unfold authorize_cached. case_bool_decide; [done|]. revert busy.
  induction l as [|c l IH]; intros busy; [done|]. cbn [auth_loop]. by destruct (cap_allows _ _ _ _ _ _ _ _).
Qed.

Lemma verify_cached_subject c kr principal rev now b :
  verify_or_cached c kr principal rev now b = Ok tt -> subject c = principal.
Proof.
  unfold verify_or_cached. intros E. apply bind_ok in E as ([] & _ & E).
  apply bind_ok in E as ([] & Hp & _). by apply guard_err_ok, negb_false_iff, bool_decide_eq_true in Hp.
Qed.

Lemma authorize_cached_grants s principal p caps kr rev host_name now busy epoch cache :
  (authorize_cached s principal p caps kr rev host_name now busy epoch cache).2 = Ok tt ->
  exists c, c ∈ caps /\ subject c = principal /\ grants s p c.
Proof.
  unfold authorize_cached. case_bool_decide; [done|]. revert busy.
  induction caps as [|c caps IH]; intros busy; [done|]. cbn [auth_loop].
  destruct (cap_allows _ _ _ _ _ _ _ _) eqn:Ea; cbn [snd].
  - intros _. apply cap_allows_iff in Ea as [Hv Hg]. exists c. split_and!; [by left|by eapply verify_cached_subject|done].
  - intros (c' & Hin & Hrest)%IH. exists c'. split; [by right|done].
Qed.

(** ** Sessions

    Requests hold the revocation lock for reading and a revocation holds it for
    writing and bumps the epoch under it, so the server's history is a sequence
    of events. *)
Inductive event :=
| Request (s : Scope) (principal : Ident.PublicKey) (p : PermSet) (caps : list Capability)
    (now_ms : Z) (busy : nat -> bool)
| RevokePrincipal (s : Scope) (principal_hex : bytes)
| RevokeNonce (n : Z).

Record session := mkSession {
  revs : RevocationSet;
  rev_epoch : Z;
  cap_cache : option CapCache;
}.

Definition revoke (e : event) (r : RevocationSet) : RevocationSet :=
  match e with
  | Request _ _ _ _ _ _ => r
  | RevokePrincipal s h => revoke_principal s h r
  | RevokeNonce n => revoke_nonce n r
  end.

Definition serve (kr : RootKeyring) (host : bytes) (x : session) (e : event)
    : session * option (outcome AuthError unit) :=
  match e with
  | Request s principal p caps now busy =>
      let '(c, o) := authorize_cached s principal p caps kr (revs x) host now busy
                       (rev_epoch x) (cap_cache x) in
      (mkSession (revs x) (rev_epoch x) c, Some o)
  | _ => (mkSession (revoke e (revs x)) (u64 (rev_epoch x + 1)) (cap_cache x), None)
  end.

Fixpoint serve_all (kr : RootKeyring) (host : bytes) (x : session) (l : list event)
    : list (option (outcome AuthError unit)) :=
  match l with
  | [] => []
  | e :: l => let '(x, o) := serve kr host x e in o :: serve_all kr host x l
  end.

(** The decisions without a cache. *)
Fixpoint decide_all (kr : RootKeyring) (host : bytes) (rev : RevocationSet) (l : list event)
    : list (option (outcome AuthError unit)) :=
  match l with
  | [] => []
  | e :: l =>
      (match e with
       | Request s principal p caps now busy =>
           Some (authorize s principal p caps kr rev host now)
       | _ => None
       end) :: decide_all kr host (revoke e rev) l
  end.

Definition event_wf (e : event) : Prop :=
  match e with Request _ _ _ caps _ _ => Forall cap_wf caps | _ => True end.

(** The texts whose digests the events of a history look up. *)
Definition event_texts (e : event) : list bytes :=
  match e with Request _ _ _ caps _ _ => map signed_text caps | _ => [] end.
Definition history_texts (l : list event) : list bytes := mjoin (map event_texts l).

(** Entries of the current epoch name capabilities, with texts among [texts],
    whose signature verifies and that are not revoked. *)
Definition cache_ok (texts : list bytes) (kr : RootKeyring) (rev : RevocationSet) (epoch : Z)
    (o : option CapCache) : Prop :=
  match o with
  | None => True
  | Some cache => forall b key e, shards cache b !! key = Some e ->
      e <= epoch /\ (e = epoch -> exists c, cap_wf c /\ signed_text c ∈ texts /\ digest_hex c = key
        /\ check_sig c kr = Ok tt
        /\ is_revoked rev (scope c) (Ident.pk_to_string (subject c)) (nonce c) = false)
  end.

Lemma cache_ok_texts texts texts' kr rev epoch o : texts ⊆ texts' ->
  cache_ok texts kr rev epoch o -> cache_ok texts' kr rev epoch o.
Proof.
  intros Ht. destruct o as [cache|]; [|done]. intros Hc b key e He. destruct (Hc b key e He) as [Hle Hx].
  split; [done|]. intros Ee. destruct (Hx Ee) as (c & Hwf & Hin%Ht & Hrest). by exists c.
Qed.

Section cached.
Context (texts : list bytes) (Hsep : LogSpec.separates texts).

Lemma cache_ok_epoch kr rev rev' epoch epoch' o : epoch < epoch' ->
  cache_ok texts kr rev epoch o -> cache_ok texts kr rev' epoch' o.
Proof.
  intros Hlt. destruct o as [cache|]; [|done]. intros Hc b key e He.
  destruct (Hc b key e He) as [Hle _]. split; lia.
Qed.

Lemma mark_verified_ok kr rev epoch o c :
  cache_ok texts kr rev epoch o -> cap_wf c -> signed_text c ∈ texts -> check_sig c kr = Ok tt ->
  is_revoked rev (scope c) (Ident.pk_to_string (subject c)) (nonce c) = false ->
  cache_ok texts kr rev epoch (mark_verified o (digest_hex c) epoch false).
Proof.
  intros Hc Hwf Hin Hs Hr. destruct o as [cache|]; [|done]. cbn [mark_verified cache_ok].
  destruct (8192 <=? _)%nat; intros b key e; cbn [shards]; unfold set_at; case_bool_decide;
    try apply Hc; subst; intros [[<- <-]|[_ He]]%lookup_insert_Some; try by (split; [done|]; eauto 10).
  by apply (Hc _ _ _ He).
Qed.

(** A hit of the cache skips checks that would succeed. *)
Lemma cached_cap_same kr rev epoch o busy s principal p now c :
  cache_ok texts kr rev epoch o -> cap_wf c -> signed_text c ∈ texts ->
  cap_allows s principal p kr rev now c (epoch_ok o (digest_hex c) epoch busy)
  = cap_allows s principal p kr rev now c false.
Proof.
  intros Hc Hwf Hin. destruct (epoch_ok o _ epoch busy) eqn:E; [|done].
  destruct o as [cache|]; [|done]. cbn [epoch_ok] in E.
  destruct (negb _); [done|]. destruct busy; [done|]. apply bool_decide_eq_true in E.
  apply Hc in E as [_ E]. destruct (E eq_refl) as (c0 & Hwf0 & Hin0 & Hd & Hs & Hr).
  assert (c0 = c) as -> by (apply digest_binds; [done..| |done]; eapply LogSpec.separates_sub; [|exact Hsep]; set_solver).
  apply eq_true_iff_eq. rewrite !cap_allows_iff. by rewrite verify_cached_true.
Qed.

Lemma auth_loop_same kr rev epoch s principal p now caps busy o :
  cache_ok texts kr rev epoch o -> Forall cap_wf caps -> map signed_text caps ⊆ texts ->
  exists o', auth_loop s principal p kr rev now epoch caps busy o
      = (o', (auth_loop s principal p kr rev now 0 caps (fun _ => false) None).2)
    /\ cache_ok texts kr rev epoch o'.
Proof.
  intros Hc Hwf. rewrite auth_loop_none. cbn [snd]. revert busy.
  induction Hwf as [|c caps Hwf Hcaps IH]; intros busy Hin; [by exists o|].
  cbn [auth_loop existsb map] in *. assert (signed_text c ∈ texts) as Hc1 by (apply Hin; by left).
  rewrite (cached_cap_same kr rev epoch o (busy 0%nat) s principal p now c Hc Hwf Hc1).
  destruct (cap_allows _ _ _ _ _ _ c false) eqn:Ea; cbn [orb]; [|apply IH; set_solver].
  eexists. split; [done|]. destruct (epoch_ok _ _ _ _) eqn:Eh.
  - destruct o; done.
  - apply cap_allows_iff in Ea as [Hv _]. apply verify_cached_facts in Hv as [Hs Hr].
    by apply mark_verified_ok.
Qed.

Lemma serve_all_same kr host l rev epoch o :
  cache_ok texts kr rev epoch o -> Forall event_wf l -> history_texts l ⊆ texts -> 0 <= epoch ->
  epoch + Z.of_nat (length l) < 2 ^ 64 ->
  serve_all kr host (mkSession rev epoch o) l = decide_all kr host rev l.
Proof.
  intros Hc Hl. revert rev epoch o Hc.
  induction Hl as [|e l He Hl IH]; intros rev epoch o Hc Ht He0 Hb; [done|].
  assert (event_texts e ⊆ texts /\ history_texts l ⊆ texts) as [Hte Htl]
    by (revert Ht; unfold history_texts; cbn [map]; rewrite mjoin_cons; set_solver).
  cbn [length] in Hb. rewrite Nat2Z.inj_succ in Hb.
  assert (forall rev' x, serve kr host (mkSession rev epoch o) e = (mkSession rev' (epoch + 1) o, x) ->
            serve_all kr host (mkSession rev' (epoch + 1) o) l = decide_all kr host rev' l) as Hrev.
  { intros rev' x _. apply IH; [eapply cache_ok_epoch; [|done]; lia|done|lia..]. }
  assert (u64 (epoch + 1) = epoch + 1) as Hu by (apply u64_small; unfold is_u64; lia).
  destruct e as [s principal p caps now busy|s h|n]; cbn [serve_all serve decide_all revoke revs
    rev_epoch cap_cache]; rewrite ?Hu.
  - unfold authorize, authorize_cached. case_bool_decide as Hh.
    { by rewrite (IH rev epoch o Hc Htl He0 ltac:(lia)). }
    destruct (auth_loop_same kr rev epoch s principal p now caps busy o Hc He Hte) as (o' & -> & Hc').
    by rewrite (IH rev epoch o' Hc' Htl He0 ltac:(lia)).
  - cbn [serve revoke revs rev_epoch cap_cache] in Hrev. rewrite Hu in Hrev. by rewrite (Hrev _ _ eq_refl).
  - cbn [serve revoke revs rev_epoch cap_cache] in Hrev. rewrite Hu in Hrev. by rewrite (Hrev _ _ eq_refl).
Qed.
End cached.

(** ** The decision *)

Lemma authorize_spec s principal p caps kr rev host_name now :
  authorize s principal p caps kr rev host_name now = Ok tt
  <-> host s = host_name
      /\ exists c, c ∈ caps /\ verify c kr principal rev now = Ok tt /\ grants s p c.
Proof.
  unfold authorize, authorize_cached. case_bool_decide as Hh; cbn [snd]; [naive_solver|].
  rewrite auth_loop_none. cbn [snd].
  destruct (existsb _ caps) eqn:E.
  - split; [|done]. intros _. split; [done|].
    apply List.existsb_exists in E as (c & Hin & Ha). apply cap_allows_iff in Ha as [Hv Hg].
    exists c. by rewrite list_elem_of_In, <-verify_cached_false.
  - split; [done|]. intros (_ & c & Hin & Hv & Hg). apply not_true_iff_false in E. destruct E.
    apply List.existsb_exists. exists c. rewrite <-list_elem_of_In. split; [done|].
    apply cap_allows_iff. by rewrite verify_cached_false.
Qed.

(** ** Properties *)

(** C8: a request is authorized exactly when its scope names this host and one
    of the capabilities presented verifies for the principal and grants the
    scope and the permissions by the rule of the scope's tier. *)
Theorem authorize_iff s principal p caps kr rev host_name now :
  authorize s principal p caps kr rev host_name now = Ok tt
  <-> host s = host_name
      /\ exists c, c ∈ caps /\ verify c kr principal rev now = Ok tt /\ grants s p c.
Proof. apply authorize_spec. Qed.

(** C4: over any history of requests and revocations, whichever cache lookups
    find their shard locked, every decision taken with the verification cache
    is the one taken without it on the revocations in force.  The cache knows
    capabilities by digest: the hash function is assumed to tell apart the texts
    of the capabilities that the history presents, and of no others. *)
Theorem cache_never_changes_decision kr host_name rev l :
  Forall event_wf l -> Z.of_nat (length l) < 2 ^ 64 -> LogSpec.separates (history_texts l) ->
  serve_all kr host_name (mkSession rev 0 (Some cap_cache_new)) l = decide_all kr host_name rev l.
Proof.
  intros Hl Hn Hsep. apply (serve_all_same (history_texts l)); [done| |done|done|done|lia].
  intros b key e. cbn. by rewrite lookup_empty.
Qed.

(** A shard that was full when an entry was added is never read again: the
    tick moves and no operation moves the shard's epoch. *)
Lemma cleared_shard_never_hits cache key epoch key' epoch' locked :
  (8192 <= size (shards cache (shard_of key)))%nat -> ticks cache (shard_of key) = 0 ->
  epochs cache (shard_of key) = 0 -> shard_of key' = shard_of key ->
  epoch_ok (mark_verified (Some cache) key epoch false) key' epoch' locked = false.
Proof.
  intros Hs Ht He Hk. cbn [mark_verified]. rewrite (proj2 (Nat.leb_le _ _) Hs), Ht.
  cbn [epoch_ok ticks epochs shards]. unfold set_at.
  by rewrite bool_decide_eq_true_2, Hk, He by done.
Qed.

End spec.

(** ** Quotas *)

Section quota.

(** A client's writes, each charged before it is made; the accepted ones are
    returned. *)
Fixpoint charge (n : bytes) (limit : Z) (deltas : list Z) (st : Store.Store) : Store.Store * list Z :=
  match deltas with
  | [] => (st, [])
  | d :: deltas =>
      match account_write n d limit st with
      | (st, Ok _) => let '(st, l) := charge n limit deltas st in (st, d :: l)
      | (st, _) => charge n limit deltas st
      end
  end.

Definition total (l : list Z) : Z := foldr Z.add 0 l.

Lemma total_cons d l : total (d :: l) = d + total l.
Proof. done. Qed.

Lemma total_nonneg limit l : Forall (fun d => 0 <= d /\ limit + d < 2 ^ 64) l -> 0 <= total l.
Proof. induction 1 as [|d l [Hd _] _ IH]; [done|]. rewrite total_cons. lia. Qed.

Lemma bytes_written_range st n : is_u64 (bytes_written st n).
Proof.
  unfold bytes_written. destruct (Store.meta_get _ _) as [v|]; [|by split].
  destruct (Nat.eqb_spec (length v) 8) as [E|]; [|by split].
  pose proof (le_val_range v) as Hr. rewrite E in Hr. exact Hr.
Qed.

Lemma account_write_run st n delta limit :
  is_u64 (bytes_written st n + delta) ->
  account_write n delta limit st
  = (if limit <? bytes_written st n + delta then (st, Err (QuotaExceeded n limit))
     else (Store.meta_set (quota_key n) (le_bytes 8 (bytes_written st n + delta)) st, Ok tt)).
Proof.
  intros Hu. unfold account_write, mbind, method_bind, self, lift. cbn.
  rewrite u64_small by done. unfold guard_err. by destruct (limit <? _).
Qed.

Lemma bytes_written_set st n z n' : is_u64 z ->
  bytes_written (Store.meta_set (quota_key n) (le_bytes 8 z) st) n'
  = if bool_decide (n' = n) then z else bytes_written st n'.
Proof.
  intros Hz. unfold bytes_written, Store.meta_get, Store.meta_set. cbn.
  case_bool_decide as E; [subst; rewrite lookup_insert_eq|rewrite lookup_insert_ne; [done|]].
  - rewrite length_le_bytes. cbn. by apply le_val_bytes_small.
  - unfold quota_key. intros E'. by simplify_eq.
Qed.

(** C37: over any sequence of charged writes of a namespace the ledger holds what
    it held plus exactly the accepted writes and never passes the limit, no
    other namespace is charged, and a write is refused only when it does not
    fit. *)
Theorem quota_never_exceeded n limit deltas st :
  bytes_written st n <= limit -> Forall (fun d => 0 <= d /\ limit + d < 2 ^ 64) deltas ->
  let '(st', l) := charge n limit deltas st in
  bytes_written st' n = bytes_written st n + total l /\ bytes_written st' n <= limit
  /\ (forall n', n' <> n -> bytes_written st' n' = bytes_written st n')
  /\ (bytes_written st n + total deltas <= limit -> l = deltas).
Proof.
  intros Hb Hd. revert st Hb.
  induction Hd as [|d deltas [Hd0 Hd] Hds IH]; intros st Hb; [cbn; split_and!; lia || done|].
  pose proof (bytes_written_range st n) as Hr. unfold is_u64 in Hr.
  pose proof (total_nonneg limit deltas Hds) as Ht.
  cbn [charge]. rewrite account_write_run by (unfold is_u64; lia).
  destruct (Z.ltb_spec limit (bytes_written st n + d)).
  - specialize (IH st Hb). destruct (charge n limit deltas st) as [st' l].
    destruct IH as (E & Hle & Ho & _). split_and!; try done. rewrite total_cons. lia.
  - set (st1 := Store.meta_set _ _ st).
    assert (forall n', bytes_written st1 n'
              = if bool_decide (n' = n) then bytes_written st n + d else bytes_written st n') as E1
      by (intros n'; apply bytes_written_set; unfold is_u64; lia).
    pose proof (E1 n) as E1n. rewrite bool_decide_eq_true_2 in E1n by done.
    specialize (IH st1 ltac:(lia)). destruct (charge n limit deltas st1) as [st' l].
    destruct IH as (E & Hle & Ho & Hall). rewrite E1n in *. rewrite !total_cons.
    split_and!; [lia|done| |].
    + intros n' Hn. rewrite (Ho n' Hn), E1. by rewrite bool_decide_eq_false_2.
    + intros Hfit. f_equal. apply Hall. lia.
Qed.

End quota.

(** ** Witnesses *)

#[local] Existing Instance toy_sha256.
#[local] Existing Instance hex_plain.
#[local] Existing Instance toy_ed25519.
#[local] Existing Instance CapsToy.toy_cap_json.

(** Two requests with the same capability around a revocation: the second
    before it is served from the cache, the third is refused.  The last request
    presents another capability of the revoked subject. *)
Definition other_cap : Capability := cap_sign_for photos WRITE None 43 alice root_kp.

Lemma other_cap_wf : cap_wf other_cap.
Proof. split; [apply photos_wf|vm_compute; by split..| | |]; by vm_compute. Qed.

Definition ask (now : Z) : event :=
  Request photos alice READ [alice_cap] now (fun _ => false).
Definition history : list event :=
  [ask 10; ask 11; RevokePrincipal photos (Ident.pk_to_string alice); ask 12;
   Request photos alice READ [other_cap] 13 (fun _ => false)].
Definition keyring : RootKeyring := keyring_current (Ident.public root_kp).

Lemma cache_never_changes_decision_witness :
  serve_all keyring (bs "api.test") (mkSession no_revocations 0 (Some cap_cache_new)) history
  = [Some (Ok tt); Some (Ok tt); None; Some (Err (Unauthorized (NoCap photos READ)));
     Some (Err (Unauthorized (NoCap photos READ)))].
Proof.
  rewrite (cache_never_changes_decision keyring (bs "api.test") no_revocations history).
  - vm_compute. reflexivity.
  - assert (forall t, event_wf (ask t)) as Ha
      by (intros t; apply Forall_cons_2; [apply alice_cap_wf|apply Forall_nil_2]).
    repeat (apply Forall_cons_2; [first [apply Ha|exact I|by apply Forall_singleton, other_cap_wf]|]). apply Forall_nil_2.
  - reflexivity.
  - vm_decide.
Defined.

Lemma quota_never_exceeded_witness :
  let '(st', l) := charge (bs "app") 100 [60; 50; 40] StoreSpec.demo_store in
  bytes_written st' (bs "app") = bytes_written StoreSpec.demo_store (bs "app") + total l
  /\ bytes_written st' (bs "app") <= 100
  /\ (forall n', n' <> bs "app" -> bytes_written st' n' = bytes_written StoreSpec.demo_store n')
  /\ (bytes_written StoreSpec.demo_store (bs "app") + total [60; 50; 40] <= 100 -> l = [60; 50; 40]).
Proof.
  apply (quota_never_exceeded (bs "app") 100 [60; 50; 40] StoreSpec.demo_store).
  - by vm_compute.
  - repeat constructor; vm_compute; congruence.
Defined.

End AuthSpec.
