(* ===== verification/RateLimit.v ===== *)
(** The request rate limiter ([src/server/ratelimit.rs]): fixed windows per
    key, buckets striped over shards, bounded eviction.  It counts exactly
    while a shard is within its budget, and a shard never outgrows twice its
    budget. *)

From S2P Require Import Prelude.

(** ** What the code leaves to [std::collections]

    [shard_hash] is [DefaultHasher] on a key; [iter] is the order in which a
    [HashMap] of buckets is walked, some order of its entries. *)
Class HashOrder := {
  shard_hash : bytes -> Z;
  iter : gmap bytes (Z * Z) -> list (bytes * (Z * Z));
  iter_perm m : iter m ≡ₚ map_to_list m;
}.

#[program] Definition plain_order : HashOrder := {|
  shard_hash k := Z.of_nat (length k);
  iter m := map_to_list m;
|}.
Next Obligation. done. Qed.

Module RateLimit.

Definition SHARDS : Z := 64.
Definition MAX_KEYS : Z := 1000000.
Definition MAX_KEYS_PER_SHARD : Z := MAX_KEYS / SHARDS.
Definition EVICT_SCAN_BUDGET : nat := 512.

(** A bucket is the window it counts in and the count. *)
Abbreviation shard := (gmap bytes (Z * Z)).

Record RateLimiter := mkLimiter {
  enabled : bool;
  max_requests : Z;
  window_ms : Z;
  per_shard_budget : Z;
  buckets : Z -> shard;
}.

Definition limiter_new (enabled : bool) (max_requests window_secs : Z) : RateLimiter :=
  mkLimiter enabled max_requests (u64 (window_secs * 1000)) MAX_KEYS_PER_SHARD (fun _ => ∅).

Definition with_shard (r : RateLimiter) (i : Z) (m : shard) : RateLimiter :=
  mkLimiter (enabled r) (max_requests r) (window_ms r) (per_shard_budget r)
    (fun j => if j =? i then m else buckets r j).

Definition remove_all (ks : list bytes) (m : shard) : shard :=
  fold_left (fun m k => base.delete k m) ks m.

Section limiter.
Context `{HashOrder}.

Definition shard_index (key : bytes) : Z := shard_hash key mod SHARDS.

(** The keys of older windows among the first entries walked. *)
Definition stale_keys (m : shard) (window : Z) : list bytes :=
  (filter (fun e : bytes * (Z * Z) => e.2.1 < window) (take EVICT_SCAN_BUDGET (iter m))).*1.

Definition reclaim (budget window : Z) (m : shard) : shard :=
  if budget <? Z.of_nat (size m) then remove_all (stale_keys m window) m else m.

Definition evict (budget : Z) (m : shard) : shard :=
  if budget * 2 <? Z.of_nat (size m)
  then remove_all (take EVICT_SCAN_BUDGET (iter m)).*1 m else m.

Definition allow (r : RateLimiter) (key : bytes) (now_ms : Z) : RateLimiter * bool :=
  if negb (enabled r) || (max_requests r =? 0) then (r, true)
  else if window_ms r =? 0 then (r, true)
  else
    let i := shard_index key in
    let window := now_ms / window_ms r in
    let b := buckets r i in
    match b !! key with
    | Some (w, count) =>
        if w =? window then
          if max_requests r <=? count then (r, false)
          else (with_shard r i (<[key := (w, count + 1)]> b), true)
        else (with_shard r i (<[key := (window, 1)]> b), true)
    | None =>
        let b := <[key := (window, 1)]> b in
        let b := reclaim (per_shard_budget r) window b in
        let b := evict (per_shard_budget r) b in
        (with_shard r i b, true)
    end.

(** A history of requests: keys and times. *)
Fixpoint allow_all (r : RateLimiter) (l : list (bytes * Z)) : RateLimiter * list bool :=
  match l with
  | [] => (r, [])
  | (k, t) :: l => let '(r, b) := allow r k t in
                   let '(r, bs) := allow_all r l in (r, b :: bs)
  end.

(** ** Sizes *)

Lemma remove_all_lookup ks m k : remove_all ks m !! k = if bool_decide (k ∈ ks) then None else m !! k.
Proof.
  revert m. induction ks as [|k' ks IH]; intros m; [done|]. cbn. rewrite IH.
  repeat case_bool_decide; try done; try set_solver.
  - assert (k = k') as -> by set_solver. apply lookup_delete_eq.
  - rewrite lookup_delete_ne; [done|]. set_solver.
Qed.

Lemma remove_all_size ks m : (size (remove_all ks m) <= size m)%nat.
Proof.
  revert m. induction ks as [|k ks IH]; intros m; [done|]. cbn. etrans; [apply IH|].
  rewrite map_size_delete. case_match; cbn [id] in *; lia.
Qed.

Lemma remove_all_shrinks ks m k : k ∈ ks -> is_Some (m !! k) ->
  (size (remove_all ks m) < size m)%nat.
Proof.
  revert m. induction ks as [|k' ks IH]; intros m Hk Hm; [set_solver|].
  change (remove_all (k' :: ks) m) with (remove_all ks (base.delete k' m)).
  destruct (decide (k = k')) as [->|Hne].
  - pose proof (remove_all_size ks (base.delete k' m)) as H0.
    rewrite map_size_delete in H0. destruct Hm as [x Hx]. rewrite Hx in H0.
    assert (size m <> 0)%nat by (intros E; apply map_size_empty_inv in E; subst; done). lia.
  - pose proof (IH (base.delete k' m) ltac:(set_solver) ltac:(by rewrite lookup_delete_ne)) as Hlt.
    rewrite map_size_delete in Hlt. case_match; cbn [id] in *; lia.
Qed.

Lemma reclaim_size budget window m : (size (reclaim budget window m) <= size m)%nat.
Proof. unfold reclaim. destruct (_ <? _); [apply remove_all_size|done]. Qed.

Lemma evict_size budget m : 0 <= budget -> Z.of_nat (size m) <= budget * 2 + 1 ->
  Z.of_nat (size (evict budget m)) <= budget * 2.
Proof.
  intros Hb Hm. unfold evict. destruct (Z.ltb_spec (budget * 2) (Z.of_nat (size m))); [|done].
  destruct (iter m) as [|[k v] rest] eqn:E.
  - pose proof (iter_perm m) as Hp. rewrite E in Hp. apply Permutation_nil_l in Hp.
    symmetry in Hp. apply map_to_list_empty_iff in Hp. subst. rewrite map_size_empty in *. lia.
  - enough (size (remove_all (take EVICT_SCAN_BUDGET ((k, v) :: rest)).*1 m) < size m)%nat by lia.
    apply (remove_all_shrinks _ _ k); [by left|]. exists v. apply elem_of_map_to_list.
    rewrite <-iter_perm, E. by left.
Qed.

(** No shard holds more than twice its budget. *)
Definition bounded (r : RateLimiter) : Prop :=
  0 <= per_shard_budget r /\ forall i, Z.of_nat (size (buckets r i)) <= per_shard_budget r * 2.

Lemma with_shard_bounded r i m : bounded r -> Z.of_nat (size m) <= per_shard_budget r * 2 ->
  bounded (with_shard r i m).
Proof. intros [H0 Hb] Hm. split; [done|]. intros j. cbn. destruct (j =? i); [done|apply Hb]. Qed.

Lemma allow_bounded r k t : bounded r -> bounded (allow r k t).1.
Proof.
  intros Hr. pose proof Hr as [Hb Hs]. unfold allow.
  destruct (_ || _); [done|]. destruct (_ =? 0); [done|].
  specialize (Hs (shard_index k)). destruct (_ !! k) as [[w c]|] eqn:E.
  - destruct (w =? _); [destruct (_ <=? c); [done|]|]; apply with_shard_bounded; try done;
      by rewrite map_size_insert_Some by by eexists.
  - apply with_shard_bounded; [done|]. apply evict_size; [done|].
    pose proof (reclaim_size (per_shard_budget r) (t / window_ms r)
      (<[k:=(t / window_ms r, 1)]> (buckets r (shard_index k)))) as Hr'.
    rewrite map_size_insert_None in Hr' by done. lia.
Qed.

(** ** Exact counting *)

(** The requests of a key in a window. *)
Definition in_window (win : Z) (k : bytes) (w : Z) (e : bytes * Z) : bool :=
  bool_decide (e.1 = k) && (e.2 / win =? w).
Definition count (win : Z) (past : list (bytes * Z)) (k : bytes) (w : Z) : Z :=
  Z.of_nat (length (List.filter (in_window win k w) past)).

Lemma count_snoc win past k t k' w : count win (past ++ [(k, t)]) k' w
  = count win past k' w + if in_window win k' w (k, t) then 1 else 0.
Proof.
  unfold count. rewrite List.filter_app, length_app. cbn [List.filter].
  destruct (in_window _ _ _ _); cbn; lia.
Qed.

Lemma count_zero win past k w : (forall t, (k, t) ∈ past -> t / win <> w) -> count win past k w = 0.
Proof.
  intros Hn. unfold count. induction past as [|[k' t'] past IH]; [done|]. cbn [List.filter].
  destruct (in_window win k w (k', t')) eqn:E.
  - unfold in_window in E. cbn in E. apply andb_true_iff in E as [E1 E2].
    apply bool_decide_eq_true in E1 as ->. apply Z.eqb_eq in E2.
    exfalso. apply (Hn t'); [by left|done].
  - apply IH. intros t Ht. apply Hn. by right.
Qed.

(** The reference: a request is allowed while fewer than the maximum of its
    key's requests in its window came before it. *)
Fixpoint reference (win maxr : Z) (past l : list (bytes * Z)) : list bool :=
  match l with
  | [] => []
  | (k, t) :: l => (count win past k (t / win) <? maxr) :: reference win maxr (past ++ [(k, t)]) l
  end.

(** What a bucket says of the past requests of its key. *)
Definition bucket_ok (win maxr : Z) (past : list (bytes * Z)) (k : bytes) (o : option (Z * Z)) : Prop :=
  match o with
  | None => forall t, (k, t) ∉ past
  | Some (w, c) => c = Z.min maxr (count win past k w) /\ 1 <= c
      /\ (forall t, (k, t) ∈ past -> t / win <= w) /\ exists t, (k, t) ∈ past /\ t / win = w
  end.

Record counts (r : RateLimiter) (past : list (bytes * Z)) : Prop := {
  counts_on : enabled r = true;
  counts_max : 0 < max_requests r;
  counts_win : 0 < window_ms r;
  counts_bucket k : bucket_ok (window_ms r) (max_requests r) past k (buckets r (shard_index k) !! k);
  counts_keys i k : is_Some (buckets r i !! k) -> k ∈ past.*1;
}.

(** Requests of other keys do not change what a bucket says. *)
Lemma bucket_ok_other win maxr past k t k' o : k' <> k ->
  bucket_ok win maxr past k' o -> bucket_ok win maxr (past ++ [(k, t)]) k' o.
Proof.
  intros Hne. destruct o as [[w c]|]; cbn.
  - rewrite count_snoc. replace (in_window win k' w (k, t)) with false
      by (unfold in_window; by rewrite bool_decide_eq_false_2 by (cbn; congruence)).
    rewrite Z.add_0_r. intros (Hc & H1 & Hle & t' & Ht' & Hw). split_and!; try done.
    + intros t0 [Ht0|Ht0]%elem_of_app; [by apply Hle|]. apply list_elem_of_singleton in Ht0. congruence.
    + exists t'. split; [by apply elem_of_app; left|done].
  - intros Hn t' [Ht|Ht]%elem_of_app; [by apply (Hn t')|]. apply list_elem_of_singleton in Ht. congruence.
Qed.

(** The bucket of the requested key after a count in its window. *)
Lemma bucket_ok_same win maxr past k t c : 0 < maxr ->
  (forall t', (k, t') ∈ past -> t' / win <= t / win) ->
  c = Z.min maxr (count win past k (t / win) + 1) ->
  bucket_ok win maxr (past ++ [(k, t)]) k (Some (t / win, c)).
Proof.
  intros Hm Hle ->. cbn. rewrite count_snoc.
  replace (in_window win k (t / win) (k, t)) with true
    by (unfold in_window; cbn; rewrite bool_decide_eq_true_2 by done; by rewrite Z.eqb_refl).
  split_and!; [done|unfold count; lia| |].
  - intros t' [Ht|Ht]%elem_of_app; [by apply Hle|]. apply list_elem_of_singleton in Ht. by simplify_eq.
  - exists t. split; [apply elem_of_app; right; by left|done].
Qed.

Lemma counts_update r past k t m w c :
  counts r past -> buckets r (shard_index k) = m ->
  bucket_ok (window_ms r) (max_requests r) (past ++ [(k, t)]) k (Some (w, c)) ->
  counts (with_shard r (shard_index k) (<[k := (w, c)]> m)) (past ++ [(k, t)]).
Proof.
  intros [H1 H2 H3 H4 H5] <- Hk. split; try done; cbn.
  - intros k'. destruct (decide (k' = k)) as [->|Hne].
    + by rewrite Z.eqb_refl, lookup_insert_eq.
    + destruct (Z.eqb_spec (shard_index k') (shard_index k)) as [<-|];
        [rewrite lookup_insert_ne by done|]; by apply bucket_ok_other.
  - intros i k' Hs. rewrite fmap_app, elem_of_app. destruct (i =? shard_index k); [|left; by eapply H5].
    destruct (decide (k' = k)) as [->|Hne]; [right; by left|left].
    rewrite lookup_insert_ne in Hs by done. by eapply H5.
Qed.

Lemma within_budget r past i k v : counts r past ->
  Z.of_nat (size (list_to_set (past.*1 ++ [k]) : gset bytes)) <= per_shard_budget r ->
  Z.of_nat (size (<[k := v]> (buckets r i))) <= per_shard_budget r.
Proof.
  intros Hc Hs. etrans; [|exact Hs]. rewrite <-size_dom.
  apply inj_le, subseteq_size. intros k' Hk'. apply elem_of_dom in Hk'.
  rewrite elem_of_list_to_set, elem_of_app. destruct (decide (k' = k)) as [->|Hne]; [right; by left|left].
  rewrite lookup_insert_ne in Hk' by done. by eapply counts_keys.
Qed.

(** One request: the decision is the reference's and the counts go on. *)
Lemma allow_counts r past k t :
  counts r past -> (forall e, e ∈ past -> e.2 <= t) ->
  Z.of_nat (size (list_to_set (past.*1 ++ [k]) : gset bytes)) <= per_shard_budget r ->
  exists r', allow r k t = (r', count (window_ms r) past k (t / window_ms r) <? max_requests r)
    /\ counts r' (past ++ [(k, t)]) /\ per_shard_budget r' = per_shard_budget r
    /\ window_ms r' = window_ms r /\ max_requests r' = max_requests r.
Proof.
  intros Hc Ht Hs. pose proof Hc as [Hon Hmax Hwin Hbk _]. unfold allow. rewrite Hon. cbn [negb orb].
  rewrite (proj2 (Z.eqb_neq _ 0)), (proj2 (Z.eqb_neq (window_ms r) 0)) by lia.
  assert (forall t', (k, t') ∈ past -> t' / window_ms r <= t / window_ms r) as Hmono.
  { intros t' Hin. apply Z.div_le_mono; [done|]. by apply (Ht (k, t')). }
  specialize (Hbk k). pose proof (bucket_ok_same (window_ms r) (max_requests r) past k t) as Hsame.
  destruct (buckets r (shard_index k) !! k) as [[w c]|] eqn:E; cbn [bucket_ok] in Hbk.
  - destruct Hbk as (Hcc & Hc1 & Hle & t0 & Ht0 & Hw0). destruct (Z.eqb_spec w (t / window_ms r)) as [->|Hne].
    + destruct (Z.leb_spec (max_requests r) c).
      * exists r. rewrite (proj2 (Z.ltb_ge _ _)) by lia. split_and!; try done.
        specialize (Hsame c Hmax Hmono ltac:(lia)). split; try apply Hc.
        -- intros k'. destruct (decide (k' = k)) as [->|]; [by rewrite E|].
           apply bucket_ok_other; [done|apply Hc].
        -- intros i k' Hk'. rewrite fmap_app, elem_of_app. left. by eapply counts_keys.
      * eexists. rewrite (proj2 (Z.ltb_lt _ _)) by lia. split_and!; try done.
        apply counts_update; [done..|]. apply Hsame; [done..|lia].
    + assert (w < t / window_ms r) as Hlt by (specialize (Hmono t0 Ht0); lia).
      rewrite (count_zero _ past) by (intros t' Hin; specialize (Hle t' Hin); lia).
      eexists. rewrite (proj2 (Z.ltb_lt 0 _)) by done. split_and!; try done.
      apply counts_update; [done..|]. apply Hsame; [done..|].
      rewrite (count_zero _ past) by (intros t' Hin; specialize (Hle t' Hin); lia). lia.
  - rewrite (count_zero _ past) by (intros t' Hin; by destruct (Hbk t')).
    rewrite (proj2 (Z.ltb_lt 0 _)) by done.
    pose proof (within_budget r past (shard_index k) k (t / window_ms r, 1) Hc Hs) as Hsz.
    unfold reclaim. rewrite (proj2 (Z.ltb_ge _ _)) by lia.
    unfold evict. rewrite (proj2 (Z.ltb_ge _ _)) by lia.
    eexists. split_and!; try done. apply counts_update; [done..|]. apply Hsame; [done..|].
    rewrite (count_zero _ past) by (intros t' Hin; by destruct (Hbk t')). lia.
Qed.

Lemma allow_all_counts l r past :
  counts r past -> StronglySorted Z.le (past ++ l).*2 ->
  Z.of_nat (size (list_to_set (past ++ l).*1 : gset bytes)) <= per_shard_budget r ->
  (allow_all r l).2 = reference (window_ms r) (max_requests r) past l.
Proof.
  revert r past. induction l as [|[k t] l IH]; intros r past Hc Hsort Hsize; [done|].
  replace (past ++ (k, t) :: l) with ((past ++ [(k, t)]) ++ l) in * by (by rewrite <-app_assoc).
  destruct (allow_counts r past k t Hc) as (r' & E & Hc' & Eb & Ew & Em).
  - intros e He. rewrite fmap_app, fmap_app in Hsort.
    apply StronglySorted_app_1_l in Hsort. apply (StronglySorted_app_1_elem_of Z.le _ _ e.2 t Hsort);
      [by apply list_elem_of_fmap_2|by left].
  - etrans; [|exact Hsize]. apply inj_le, subseteq_size. rewrite !fmap_app. cbn. set_solver.
  - cbn [allow_all reference]. rewrite E.
    specialize (IH r' (past ++ [(k, t)]) Hc' Hsort ltac:(by rewrite Eb)).
    destruct (allow_all r' l) as [r2 bs']. cbn [snd] in *. by rewrite IH, Ew, Em.
Qed.

(** ** Properties *)

(** C38: over any history in time order whose keys fit one shard's budget, each
    request is allowed exactly when fewer than [max_requests] requests of its
    key came before it in its window: no key is throttled early, none gets
    more, and keys never affect each other. *)
Theorem rate_limit_exact maxr secs l :
  0 < maxr -> 0 < u64 (secs * 1000) -> StronglySorted Z.le l.*2 ->
  Z.of_nat (size (list_to_set l.*1 : gset bytes)) <= MAX_KEYS_PER_SHARD ->
  (allow_all (limiter_new true maxr secs) l).2 = reference (u64 (secs * 1000)) maxr [] l.
Proof.
  intros Hm Hw Hsort Hsize.
  apply (allow_all_counts l (limiter_new true maxr secs) []); [|done..].
  split; try done; cbn; [intros k; rewrite lookup_empty; intros t; set_solver|]. intros i k [v Hv]. by rewrite lookup_empty in Hv.
Qed.

(** Whatever keys a flood of requests carries, no shard ever holds more
    than twice its budget of buckets. *)
Theorem limiter_memory_bounded on maxr secs l i :
  Z.of_nat (size (buckets (allow_all (limiter_new on maxr secs) l).1 i)) <= 2 * MAX_KEYS_PER_SHARD.
Proof.
  enough (forall r, bounded r -> per_shard_budget r = MAX_KEYS_PER_SHARD ->
            bounded (allow_all r l).1 /\ per_shard_budget (allow_all r l).1 = MAX_KEYS_PER_SHARD) as Hall.
  { destruct (Hall (limiter_new on maxr secs)) as [[_ Hb] E]; [|done|].
    - split; [done|]. intros j. cbn. by rewrite map_size_empty.
    - specialize (Hb i). rewrite E in Hb. lia. }
  induction l as [|[k t] l IH]; intros r Hr E; [done|]. cbn [allow_all].
  pose proof (allow_bounded r k t Hr) as Hr'.
  assert (per_shard_budget (allow r k t).1 = MAX_KEYS_PER_SHARD) as E'
    by (unfold allow; repeat case_match; done).
  destruct (allow r k t) as [r' b]. cbn [fst] in *. specialize (IH r' Hr' E').
  by destruct (allow_all r' l).
Qed.

End limiter.

#[local] Existing Instance plain_order.

(** Two requests a second for each key: the third in a second is refused. *)
Definition burst : list (bytes * Z) :=
  [(bs "a", 5); (bs "a", 6); (bs "b", 7); (bs "a", 999); (bs "a", 1000)].

Lemma rate_limit_exact_witness :
  (allow_all (limiter_new true 2 1) burst).2 = [true; true; true; false; true].
Proof.
  etrans; [apply (rate_limit_exact 2 1 burst)|].
  - reflexivity.
  - reflexivity.
  - repeat constructor; vm_compute; congruence.
  - vm_compute. congruence.
  - vm_compute. reflexivity.
Defined.

End RateLimit.
