(* ===== verification/Net.v ===== *)
(** Mesh sync ([src/net/mod.rs]): the wire messages and the [Runner], the
    state machine that drives one pull round per configured peer and serves
    the rounds of the others.

    One swarm event, tick or trigger is one step on the runner's state; the
    requests, responses and dials it makes are appended to [out].  What a step
    reads of the world is its environment: the clocks, which peers are
    connected, which dials are accepted, whether the configuration file can be
    written and in which order [HashMap]s are walked. *)

From S2P Require Import Prelude Crc32 LogFormat Log Base64 Utf8 Text StoreTypes Store Snapshot Merge Ident Config.
Import LogFormat Base64 Store Snapshot Merge Ident ConfigOps.

(** ** The [libp2p] crate

    [peer_id] is [PeerId::from_public_key] of an ed25519 key: the key itself
    inlined in a multihash, so no two keys share one. *)
Class Libp2p := {
  peer_id : PublicKey -> bytes;
  peer_id_inj pk pk' : peer_id pk = peer_id pk' -> pk = pk';
}.

Module Net.

(** ** Wire messages *)

Inductive SyncRequest :=
| ReqHello
| Pull (ns : bytes) (from_seq : Z).

Record NsHead := mkNsHead { nh_ns : bytes; nh_seq : Z; nh_hash : bytes }.
Record HelloResponse := mkHello { host_id : bytes; hello_hlc : Z; hello_namespaces : list NsHead }.
Record Rec := mkRec { rec_seq : Z; payload_b64 : bytes }.
Record Records := mkRecords { recs_ns : bytes; recs : list Rec }.

Inductive SyncResponse :=
| RespHello (h : HelloResponse)
| RespRecords (r : Records)
| Denied.

Definition MAX_RECORDS : Z := 1000.
Definition MAX_FRAME_BYTES : Z := 960 * 1024.
Definition CHECKPOINT_EVERY : Z := 1000.
Definition MAX_CHUNKS_PER_TICK : Z := 32.
Definition MAX_SINGLE_RECORD_B64 : Z := 8 * 1024 * 1024.

(** ** State *)

Inductive Phase :=
| Idle
| WaitingDial
| AwaitingHello
| Pulling (ns : bytes) (target : Z)
| Done
| Bad (why : bytes).

#[global] Instance Phase_eq_dec : EqDecision Phase.
Proof. solve_decision. Defined.

Record PeerCtx := mkPeerCtx {
  c_addr : bytes;
  c_pid : option bytes;
  c_pin : option PublicKey;
  c_phase : Phase;
  round_chunks : Z;
}.

Inductive InboundAccess :=
| Deny
| HelloOnly (name : bytes)
| Full (name : bytes).

(** What the runner asks of the swarm and of the change feed. *)
Inductive action :=
| SendRequest (pid : bytes) (r : SyncRequest)
| SendResponse (pid : bytes) (r : SyncResponse)
| AddPeerAddress (pid addr : bytes)
| DialPeer (pid : bytes)
| DialAddr (addr : bytes)
| Changed (ns : bytes).

(** [SyncEngine] and [Runner] in one; [cfg_file] is the file at [cfg_path]. *)
Record Runner := mkRunner {
  store : Store;
  kp : Keypair;
  cfg : Config;
  cfg_path : bytes;
  cfg_file : option bytes;
  change_tx : bool;
  skew : gmap bytes (list Z);
  peer : gmap bytes PeerCtx;
  round_applied : Z;
  pending_dials : gmap bytes bytes;
  pending_pulls : gmap bytes (list (bytes * Z));
  out : list action;
}.

Definition with_store (s : Store) (r : Runner) : Runner :=
  mkRunner s (kp r) (cfg r) (cfg_path r) (cfg_file r) (change_tx r) (skew r) (peer r)
    (round_applied r) (pending_dials r) (pending_pulls r) (out r).
Definition with_cfg (c : Config) (f : option bytes) (r : Runner) : Runner :=
  mkRunner (store r) (kp r) c (cfg_path r) f (change_tx r) (skew r) (peer r)
    (round_applied r) (pending_dials r) (pending_pulls r) (out r).
Definition with_skew (m : gmap bytes (list Z)) (r : Runner) : Runner :=
  mkRunner (store r) (kp r) (cfg r) (cfg_path r) (cfg_file r) (change_tx r) m (peer r)
    (round_applied r) (pending_dials r) (pending_pulls r) (out r).
Definition with_peers (m : gmap bytes PeerCtx) (r : Runner) : Runner :=
  mkRunner (store r) (kp r) (cfg r) (cfg_path r) (cfg_file r) (change_tx r) (skew r) m
    (round_applied r) (pending_dials r) (pending_pulls r) (out r).
Definition with_applied (n : Z) (r : Runner) : Runner :=
  mkRunner (store r) (kp r) (cfg r) (cfg_path r) (cfg_file r) (change_tx r) (skew r) (peer r)
    n (pending_dials r) (pending_pulls r) (out r).
Definition with_dials (m : gmap bytes bytes) (r : Runner) : Runner :=
  mkRunner (store r) (kp r) (cfg r) (cfg_path r) (cfg_file r) (change_tx r) (skew r) (peer r)
    (round_applied r) m (pending_pulls r) (out r).
Definition with_pulls (m : gmap bytes (list (bytes * Z))) (r : Runner) : Runner :=
  mkRunner (store r) (kp r) (cfg r) (cfg_path r) (cfg_file r) (change_tx r) (skew r) (peer r)
    (round_applied r) (pending_dials r) m (out r).
Definition act (a : action) (r : Runner) : Runner :=
  mkRunner (store r) (kp r) (cfg r) (cfg_path r) (cfg_file r) (change_tx r) (skew r) (peer r)
    (round_applied r) (pending_dials r) (pending_pulls r) (out r ++ [a]).

Definition ctx_addr (a : bytes) (c : PeerCtx) : PeerCtx :=
  mkPeerCtx a (c_pid c) (c_pin c) (c_phase c) (round_chunks c).
Definition ctx_pid (p : bytes) (c : PeerCtx) : PeerCtx :=
  mkPeerCtx (c_addr c) (Some p) (c_pin c) (c_phase c) (round_chunks c).
Definition ctx_pin (k : PublicKey) (c : PeerCtx) : PeerCtx :=
  mkPeerCtx (c_addr c) (c_pid c) (Some k) (c_phase c) (round_chunks c).
Definition ctx_phase (p : Phase) (c : PeerCtx) : PeerCtx :=
  mkPeerCtx (c_addr c) (c_pid c) (c_pin c) p (round_chunks c).
Definition ctx_chunks (n : Z) (c : PeerCtx) : PeerCtx :=
  mkPeerCtx (c_addr c) (c_pid c) (c_pin c) (c_phase c) n.

(** The environment of a step. *)
Record env := mkEnv {
  now_ms : Z;
  hlc_now : Z;
  is_connected : bytes -> bool;
  dial_ok : bytes -> bool;
  cfg_io : write_result;
  walk : gmap bytes PeerCtx -> list (bytes * PeerCtx);
}.

Definition env_ok (e : env) : Prop := forall m, walk e m ≡ₚ map_to_list m.

(** Handlers return nothing and either finish or panic. *)
Abbreviation net_m A := (method Runner Empty_set A).

(** [i64] arithmetic wraps. *)
Definition i64 (z : Z) : Z := (z + 2 ^ 63) mod 2 ^ 64 - 2 ^ 63.

Section net.
Context `{Sha256, HexCrate, SerdeJson, Ed25519, ConfigText, Libp2p}.

(** [PublicKey::try_from_bytes] refuses bytes that are not a curve point, and
    the [expect] on it panics. *)
Definition peer_id_of {E} (pk : PublicKey) : outcome E bytes :=
  if vk_from_bytes pk then Ok (peer_id pk) else Panic.

Section step.
Context (e : env).

Fixpoint find_walk (f : PeerCtx -> bool) (l : list (bytes * PeerCtx)) : option bytes :=
  match l with
  | [] => None
  | (n, c) :: l => if f c then Some n else find_walk f l
  end.

Definition name_for_pid (pid : bytes) (r : Runner) : option bytes :=
  find_walk (fun c => bool_decide (c_pid c = Some pid)) (walk e (peer r)).

Definition phase_set (name : bytes) (p : Phase) : net_m unit :=
  update (fun r => with_peers (alter (ctx_phase p) name (peer r)) r).

(** [self.peer.get_mut(name).unwrap()] *)
Definition ctx_of (name : bytes) : net_m PeerCtx := r ← self; lift (or_panic (peer r !! name)).

Definition in_flight (p : Phase) : bool :=
  match p with AwaitingHello | Pulling _ _ | WaitingDial => true | _ => false end.

Definition load_pin (r : Runner) (name : bytes) : option PublicKey :=
  match ConfigOps.peer (cfg r) name with
  | Some p => match pk_from_str (pin p) with Ok pk => Some pk | _ => None end
  | None => None
  end.

Definition send_hello (name pid : bytes) : net_m unit :=
  _ ← update (act (SendRequest pid ReqHello));
  phase_set name AwaitingHello.

Definition kick (name : bytes) : net_m unit :=
  r ← self;
  if in_flight (from_option c_phase Idle (peer r !! name)) then mret tt else
  c ← ctx_of name;
  match c_pid c with
  | Some pid =>
      if negb (is_connected e pid) then
        _ ← update (act (AddPeerAddress pid (c_addr c)));
        _ ← update (act (DialPeer pid));
        phase_set name WaitingDial
      else send_hello name pid
  | None =>
      let key := c_addr c in
      _ ← update (fun r => with_dials (base.delete key (pending_dials r)) r);
      _ ← update (act (DialAddr key));
      if dial_ok e key then
        _ ← update (fun r => with_dials (<[key := name]> (pending_dials r)) r);
        phase_set name WaitingDial
      else phase_set name Idle
  end.

Definition kick_one (p : Peer) : net_m unit :=
  match multiaddr (addr p) with
  | None => mret tt
  | Some a =>
      r ← self;
      let name := peer_name p in
      let k := load_pin r name in
      match peer r !! name with
      | Some c =>
          _ ← update (fun r => with_peers (<[name := ctx_chunks 0 (ctx_addr a c)]> (peer r)) r);
          if in_flight (c_phase c) then mret tt else
          _ ← phase_set name Idle;
          kick name
      | None =>
          _ ← update (fun r => with_peers (<[name := mkPeerCtx a None k Idle 0]> (peer r)) r);
          kick name
      end
  end.

Definition kick_all : net_m unit :=
  _ ← update (with_applied 0);
  r ← self;
  for_each kick_one (peers (cfg r)).

Definition persist_pin (name : bytes) (pk : PublicKey) : net_m unit :=
  r ← self;
  let c := peer_mut name (with_pin (pk_to_string pk)) (cfg r) in
  let '(f, res) := save c (cfg_path r) (cfg_io e) (cfg_file r) in
  _ ← update (with_cfg c f);
  match res with
  | Ok _ => mret tt
  | _ => phase_set name (Bad (bs "pin persist failed"))
  end.

(** The last eight samples, and their median. *)
Definition push_sample (x : Z) (buf : list Z) : list Z :=
  (if (length buf =? 8)%nat then drop 1 buf else buf) ++ [x].
Definition median (buf : list Z) : option Z :=
  merge_sort Z.le buf !! Nat.div (length buf) 2.

(** The namespaces the peer is ahead in, each with the target of its pull. *)
Definition pull_of (s : Store) (nh : NsHead) : option (bytes * Z) :=
  match policy s (nh_ns nh), head s (nh_ns nh) with
  | Some _, Some (local_seq, _) =>
      if local_seq <? nh_seq nh then
        let max_target := u64 (local_seq + MAX_RECORDS * MAX_CHUNKS_PER_TICK * 2) in
        let target := Z.min (nh_seq nh) max_target in
        if local_seq <? target then Some (nh_ns nh, target) else None
      else None
  | _, _ => None
  end.

Definition send_pull (name ns : bytes) (target : Z) : net_m unit :=
  c ← ctx_of name;
  pid ← lift (or_panic (c_pid c));
  r ← self;
  let from_seq := match head (store r) ns with Some (s, _) => u64 (s + 1) | None => 1 end in
  _ ← update (act (SendRequest pid (Pull ns from_seq)));
  phase_set name (Pulling ns target).

(** The part of [on_hello] after the identity checks. *)
Definition hello_accepted (name : bytes) (h : HelloResponse) : net_m unit :=
  r ← self;
  let sample := i64 (hello_hlc h / 2 ^ 16 - now_ms e) in
  let buf := push_sample sample (default [] (skew r !! name)) in
  _ ← update (with_skew (<[name := buf]> (skew r)));
  m ← lift (or_panic (median buf));
  _ ← update (fun r => with_store (set_peer_clock name m (store r)) r);
  r ← self;
  match omap (pull_of (store r)) (hello_namespaces h) with
  | [] => phase_set name Done
  | (ns, target) :: pulls =>
      _ ← update (fun r => with_pulls (<[name := pulls]> (pending_pulls r)) r);
      send_pull name ns target
  end.

Definition on_hello (pid : bytes) (h : HelloResponse) : net_m unit :=
  r ← self;
  match name_for_pid pid r with
  | None => mret tt
  | Some name =>
      match pk_from_str (host_id h) with
      | Ok peer_pk =>
          c ← ctx_of name;
          match c_pin c with
          | None =>
              advertised ← lift (peer_id_of peer_pk);
              if negb (bool_decide (pid = advertised)) then
                phase_set name (Bad (bs "host_id/connection mismatch"))
              else
                _ ← update (fun r => with_peers (alter (ctx_pid advertised ∘ ctx_pin peer_pk) name (peer r)) r);
                _ ← persist_pin name peer_pk;
                hello_accepted name h
          | Some existing =>
              if negb (bool_decide (existing = peer_pk)) then
                phase_set name (Bad (bs "pin mismatch"))
              else hello_accepted name h
          end
      | _ => phase_set name (Bad (bs "bad host_id"))
      end
  end.

(** [Some false]: the peer has an allow-list without this namespace. *)
Definition allowed (r : Runner) (name ns : bytes) : option bool :=
  match ConfigOps.peer (cfg r) name with
  | Some p => (fun l => bool_decide (ns ∈ l)) <$> peer_namespaces p
  | None => None
  end.

Fixpoint decode_recs (l : list Rec) : outcome b64_error (list (Z * bytes)) :=
  match l with
  | [] => Ok []
  | x :: l => b ← b64_decode (payload_b64 x); rest ← decode_recs l; Ok ((rec_seq x, b) :: rest)
  end.

(** The tail of [on_records], once [applied] records were applied. *)
Definition records_applied (name ns : bytes) (target applied local_seq : Z) : net_m unit :=
  if applied =? 0 then phase_set name Done else
  c ← ctx_of name;
  let chunks := u64 (round_chunks c + 1) in
  _ ← update (fun r => with_peers (<[name := ctx_chunks chunks c]> (peer r)) r);
  if MAX_CHUNKS_PER_TICK <=? chunks then phase_set name Done
  else if local_seq <? target then send_pull name ns target
  else
    r ← self;
    match pending_pulls r !! name with
    | Some ((next_ns, next_target) :: q) =>
        _ ← update (fun r => with_pulls (<[name := q]> (pending_pulls r)) r);
        send_pull name next_ns next_target
    | _ =>
        _ ← update (fun r => with_pulls (base.delete name (pending_pulls r)) r);
        phase_set name Done
    end.

(** Applying a verified batch, with the checkpoint it may force. *)
Definition apply_parsed (name ns : bytes) (target : Z) (parsed : list LogFormat.record) : net_m unit :=
  r ← self;
  let '(s, res) := apply_synced_batch ns parsed (store r) in
  _ ← update (with_store s);
  match res with
  | Panic => lift Panic
  | Err _ => phase_set name Idle
  | Ok n =>
      let total := u64 (round_applied r + n) in
      _ ← update (with_applied total);
      let s := if (0 <? total) && (total mod CHECKPOINT_EVERY <=? Z.of_nat (length parsed))
               then checkpoint s else s in
      _ ← update (with_store s);
      let local_seq := from_option fst 0 (head s ns) in
      _ ← (if change_tx r then update (act (Changed ns)) else mret tt);
      records_applied name ns target n local_seq
  end.

Definition on_records (pid : bytes) (rs : Records) : net_m unit :=
  r ← self;
  match name_for_pid pid r with
  | None => mret tt
  | Some name =>
      match c_phase <$> peer r !! name with
      | Some (Pulling ns target) =>
          if negb (bool_decide (recs_ns rs = ns)) then phase_set name Idle
          else if bool_decide (allowed r name ns = Some false) then phase_set name Done
          else
            match decode_recs (recs rs) with
            | Panic => lift Panic
            | Err _ => phase_set name Idle
            | Ok batch =>
                match verify_batch zero32 batch with
                | Panic => lift Panic
                | Err _ => phase_set name Done
                | Ok parsed => apply_parsed name ns target parsed
                end
            end
      | _ => mret tt
      end
  end.

(** ** Inbound requests *)

(** The first configured peer whose pin derives to [pid]. *)
Fixpoint pinned_as (pid : bytes) (l : list Peer) : outcome Empty_set (option bytes) :=
  match l with
  | [] => Ok None
  | p :: l =>
      if bool_decide (pin p = []) then pinned_as pid l else
      match pk_from_str (pin p) with
      | Ok pk =>
          q ← peer_id_of pk;
          if bool_decide (q = pid) then Ok (Some (peer_name p)) else pinned_as pid l
      | _ => pinned_as pid l
      end
  end.

Definition inbound_access (pid : bytes) (r : Runner) : outcome Empty_set InboundAccess :=
  found ← pinned_as pid (peers (cfg r));
  match found with
  | Some name => Ok (Full name)
  | None =>
      match name_for_pid pid r with
      | Some name =>
          match ConfigOps.peer (cfg r) name with
          | Some p => if bool_decide (pin p = []) then Ok (HelloOnly name) else Ok Deny
          | None => Ok Deny
          end
      | None => Ok Deny
      end
  end.

Definition hello_response (r : Runner) : HelloResponse :=
  mkHello (pk_to_string (public (kp r))) (hlc_now e)
    (map (fun '(ns, seq, hash) => mkNsHead ns seq (hex_encode hash)) (namespaces_with_head (store r))).

Definition serve_hello (pid : bytes) : net_m unit :=
  r ← self;
  update (act (SendResponse pid (RespHello (hello_response r)))).

(** The loop over the window; [None]: a record too large to serve at all. *)
Fixpoint serve_loop (l : list (Z * bytes)) (acc : list Rec) (size : Z) : option (list Rec) :=
  match l with
  | [] => Some acc
  | (seq, payload) :: l =>
      let n := Z.of_nat (length payload) in
      if MAX_SINGLE_RECORD_B64 <? (n + 2) / 3 * 4 then None
      else if MAX_FRAME_BYTES <? n then
        Some (if bool_decide (acc = []) then acc ++ [mkRec seq (b64_encode payload)] else acc)
      else if (MAX_RECORDS <=? Z.of_nat (length acc)) || (MAX_FRAME_BYTES <? size + n) then Some acc
      else serve_loop l (acc ++ [mkRec seq (b64_encode payload)]) (size + n)
  end.

Definition pull_records (s : Store) (ns : bytes) (from_seq : Z) : outcome Empty_set (list Rec) :=
  match log_records s ns from_seq MAX_RECORDS with
  | Ok l => Ok (default [] (serve_loop l [] 0))
  | Err _ => Ok []
  | Panic => Panic
  end.

Definition serve_pull (pid ns : bytes) (from_seq : Z) : net_m unit :=
  r ← self;
  l ← lift (pull_records (store r) ns from_seq);
  update (act (SendResponse pid (RespRecords (mkRecords ns l)))).

Definition on_request (pid : bytes) (q : SyncRequest) : net_m unit :=
  r ← self;
  a ← lift (inbound_access pid r);
  match a, q with
  | Deny, _ => update (act (SendResponse pid Denied))
  | HelloOnly _, ReqHello => serve_hello pid
  | HelloOnly _, Pull _ _ => update (act (SendResponse pid Denied))
  | Full _, ReqHello => serve_hello pid
  | Full _, Pull ns from_seq => serve_pull pid ns from_seq
  end.

(** ** Swarm events *)

(** A connection: [dialed] is the address when this node dialed it. *)
Definition on_established (pid : bytes) (dialed : option bytes) : net_m unit :=
  match dialed with
  | None => mret tt
  | Some key =>
      r ← self;
      _ ← update (fun r => with_dials (base.delete key (pending_dials r)) r);
      match (match pending_dials r !! key with
             | Some name => Some name
             | None => find_walk (fun c => bool_decide (c_phase c = WaitingDial)
                                           && bool_decide (c_pid c = None)) (walk e (peer r))
             end) with
      | None => mret tt
      | Some name =>
          c ← ctx_of name;
          _ ← update (fun r => with_peers (<[name := ctx_pid pid c]> (peer r)) r);
          if bool_decide (c_phase c = WaitingDial) then send_hello name pid else mret tt
      end
  end.

Definition on_closed (pid : bytes) : net_m unit :=
  r ← self;
  match name_for_pid pid r with
  | Some name =>
      if bool_decide (c_phase <$> peer r !! name = Some WaitingDial)
      then phase_set name Idle else mret tt
  | None => mret tt
  end.

Definition reset_name (pid : bytes) : net_m unit :=
  r ← self;
  match name_for_pid pid r with
  | Some name => phase_set name Idle
  | None => mret tt
  end.

Definition undial (c : PeerCtx) : PeerCtx :=
  if bool_decide (c_phase c = WaitingDial) then ctx_phase Idle c else c.

Definition on_dial_error (pid : option bytes) : net_m unit :=
  match pid with
  | Some pid => reset_name pid
  | None => update (fun r => with_peers (undial <$> peer r) (with_dials ∅ r))
  end.

(** What the select loop of [run] and the two event handlers distinguish. *)
Inductive event :=
| Tick
| ConnectionEstablished (pid : bytes) (dialed : option bytes)
| ConnectionClosed (pid : bytes)
| OutgoingConnectionError (pid : option bytes)
| OtherSwarmEvent
| Request (pid : bytes) (q : SyncRequest)
| Response (pid : bytes) (q : SyncResponse)
| OutboundFailure (pid : bytes)
| InboundFailure (pid : bytes).

Definition handle (ev : event) : net_m unit :=
  match ev with
  | Tick => kick_all
  | ConnectionEstablished pid dialed => on_established pid dialed
  | ConnectionClosed pid => on_closed pid
  | OutgoingConnectionError pid => on_dial_error pid
  | OtherSwarmEvent => mret tt
  | Request pid q => on_request pid q
  | Response pid (RespHello h) => on_hello pid h
  | Response pid (RespRecords rs) => on_records pid rs
  | Response pid Denied => reset_name pid
  | OutboundFailure pid => reset_name pid
  | InboundFailure _ => mret tt
  end.

End step.

(** The runner [run] starts with. *)
Definition runner_new (s : Store) (k : Keypair) (c : Config) (path : bytes) (f : option bytes)
    (tx : bool) : Runner :=
  mkRunner s k c path f tx ∅ ∅ 0 ∅ ∅ [].

(** The store and the configuration are shared with the HTTP server: between
    two events other threads may replace them. *)
Inductive input :=
| Event (e : env) (ev : event)
| External (s : Store) (c : Config) (f : option bytes).

Definition input_step (i : input) : net_m unit :=
  match i with
  | Event e ev => handle e ev
  | External s c f => update (fun r => with_store s (with_cfg c f r))
  end.

(** The select loop: events until the trigger channel closes, then a
    checkpoint.  A panic ends the task where it is. *)
Definition run (l : list input) : net_m unit :=
  _ ← for_each input_step l;
  update (fun r => with_store (checkpoint (store r)) r).

End net.
End Net.
