(* ===== verification/NetSpec.v ===== *)
(** Correctness of mesh sync: who is served, which keys are trusted, what a
    step may change, and that no step panics on well-formed messages. *)

From S2P Require Import Prelude Moves Crc32 LogFormat Log LogSpec Base64 Utf8 Text StoreTypes Store StoreSpec StoreFrame SyncSpec Snapshot Merge Ident Config Net.
Import LogFormat Base64 Store StoreSpec StoreFrame Snapshot Merge Ident ConfigOps Net.

Module NetSpec.

(** ** Splitting a handler *)

Lemma moves_ctx {B} R `{!PreOrder R} r name (k : PeerCtx -> net_m B) :
  (forall c, peer r !! name = Some c -> moves R r (k c)) -> moves R r (ctx_of name ≫= k).
Proof.
  unfold moves. intros Hk. unfold mbind, method_bind, ctx_of, mbind, method_bind, self, lift.
  destruct (peer r !! name) eqn:E; simpl; [by apply Hk|reflexivity].
Qed.
(** Splits a handler into its updates. *)
Ltac mv :=
  repeat first
    [ progress intros
    | progress cbv zeta
    | match goal with
      | |- moves _ _ (self ≫= _) => apply moves_self
      | |- moves _ _ (ctx_of _ ≫= _) => apply moves_ctx; [apply _|intros ? ?]
      | |- moves _ _ (_ ≫= _) => apply moves_bind; [apply _| |]
      | |- moves _ _ (mret _) => apply moves_ret; apply _
      | |- moves _ _ (lift _) => apply moves_lift; apply _
      | |- moves _ _ (update _) => apply moves_update
      | |- moves _ _ (phase_set _ _) => apply moves_update
      | |- moves _ _ (match ?x with _ => _ end) => destruct x eqn:?
      end ].

(** [r'] keeps every peer of [r] with the key it is pinned to, and a bound
    connection stays bound; a new pin satisfies [Q]; the actions added satisfy
    [P]. *)
Record evolves (P : action -> Prop) (Q : bytes -> PublicKey -> Prop) (r r' : Runner) : Prop := {
  evolves_self : kp r' = kp r /\ cfg_path r' = cfg_path r /\ change_tx r' = change_tx r;
  evolves_out : exists l, out r' = out r ++ l /\ Forall P l;
  evolves_keep name c : peer r !! name = Some c ->
    exists c', peer r' !! name = Some c' /\ (forall pk, c_pin c = Some pk -> c_pin c' = Some pk)
      /\ (is_Some (c_pid c) -> is_Some (c_pid c'));
  evolves_new name c' pk : peer r' !! name = Some c' -> c_pin c' = Some pk ->
    (exists c, peer r !! name = Some c /\ c_pin c = Some pk) \/ Q name pk;
}.

#[global] Instance evolves_preorder P Q : PreOrder (evolves P Q).
Proof.
  split.
  - intros r. split; try done; [exists []; by rewrite app_nil_r|eauto..].
  - intros r1 r2 r3 [S1 (l1 & E1 & F1) K1 N1] [S2 (l2 & E2 & F2) K2 N2]. split.
    + naive_solver congruence.
    + exists (l1 ++ l2). rewrite E2, E1, app_assoc. split; [done|by apply Forall_app].
    + intros n c Hc. destruct (K1 _ _ Hc) as (c2 & Hc2 & Hp2 & Hi2).
      destruct (K2 _ _ Hc2) as (c3 & Hc3 & Hp3 & Hi3). exists c3. naive_solver.
    + intros n c pk Hc Hk. destruct (N2 _ _ _ Hc Hk) as [(c2 & Hc2 & Hk2)|?]; [|by right].
      eauto.
Qed.

(** Updates that leave the peers alone. *)
Lemma evolves_same P Q r r' : kp r' = kp r -> cfg_path r' = cfg_path r -> change_tx r' = change_tx r ->
  out r' = out r -> peer r' = peer r -> evolves P Q r r'.
Proof.
  intros E1 E2 E3 E4 E5. split; [done|exists []; by rewrite app_nil_r|rewrite E5; eauto..].
Qed.

Lemma evolves_act P Q r a : P a -> evolves P Q r (act a r).
Proof. intros Ha. split; [done|exists [a]; auto|simpl; eauto..]. Qed.

(** Updates of one peer that keep its pin and its connection. *)
Lemma evolves_insert P Q r name c c' : peer r !! name = Some c ->
  c_pin c' = c_pin c \/ (c_pin c = None /\ forall pk, c_pin c' = Some pk -> Q name pk) ->
  (is_Some (c_pid c) -> is_Some (c_pid c')) ->
  evolves P Q r (with_peers (<[name := c']> (peer r)) r).
Proof.
  intros Hc Hp Hi. split; [done|exists []; simpl; by rewrite app_nil_r| |]; simpl.
  - intros n c0 H0. destruct (decide (n = name)) as [->|Hn]; [|rewrite lookup_insert_ne by done; eauto].
    simplify_eq. rewrite lookup_insert_eq. exists c'. split_and!; try done.
    destruct Hp as [->|[-> _]]; naive_solver.
  - intros n c0 pk. destruct (decide (n = name)) as [->|Hn]; [|rewrite lookup_insert_ne by done; eauto].
    rewrite lookup_insert_eq. intros [= <-] Hk. destruct Hp as [E|[_ HQ]]; [left|right; eauto].
    exists c. split; [done|congruence].
Qed.

Lemma alter_is_insert {V} (f : V -> V) (m : gmap bytes V) k v : m !! k = Some v ->
  alter f k m = <[k := f v]> m.
Proof.
  intros E. apply map_eq. intros n. destruct (decide (n = k)) as [->|Hn].
  - by rewrite lookup_alter_eq, lookup_insert_eq, E.
  - by rewrite lookup_alter_ne, lookup_insert_ne.
Qed.

Lemma evolves_alter P Q r name f : (forall c, c_pin (f c) = c_pin c) ->
  (forall c, is_Some (c_pid c) -> is_Some (c_pid (f c))) ->
  evolves P Q r (with_peers (alter f name (peer r)) r).
Proof.
  intros Hf Hi. destruct (peer r !! name) as [c|] eqn:Hc.
  - rewrite (alter_is_insert _ _ _ _ Hc). eapply evolves_insert; eauto.
  - apply evolves_same; try done. simpl. apply map_eq. intros n.
    destruct (decide (n = name)) as [->|Hn]; [by rewrite lookup_alter_eq, Hc|by rewrite lookup_alter_ne].
Qed.

Lemma evolves_fmap P Q r f : (forall c, c_pin (f c) = c_pin c /\ c_pid (f c) = c_pid c) ->
  evolves P Q r (with_peers (f <$> peer r) r).
Proof.
  intros Hf. split; [done|exists []; simpl; by rewrite app_nil_r| |]; simpl; intros n c.
  - intros Hc. rewrite lookup_fmap, Hc. simpl. exists (f c). destruct (Hf c) as [-> ->]. eauto.
  - intros pk. rewrite lookup_fmap. intros Hc Hk. left. destruct (peer r !! n) as [c0|] eqn:E; [|done].
    simplify_eq/=. exists c0. by rewrite (proj1 (Hf c0)) in Hk.
Qed.

Section net.
Context `{Sha256, HexCrate, SerdeJson, Ed25519, ConfigText, Libp2p}.
Context (e : env).

Lemma find_walk_Some f l n : find_walk f l = Some n -> exists c, (n, c) ∈ l /\ f c = true.
Proof.
  induction l as [|[m c] l IH]; cbn [find_walk]; [done|]. destruct (f c) eqn:E.
  - intros [= <-]. exists c. split; [left|done].
  - intros Hf. destruct (IH Hf) as (c' & Hin & Hc). exists c'. split; [by right|done].
Qed.

Lemma find_walk_peer f r n : env_ok e -> find_walk f (walk e (peer r)) = Some n ->
  exists c, peer r !! n = Some c /\ f c = true.
Proof.
  intros He (c & Hin & Hc)%find_walk_Some. pose proof (He (peer r)) as Hp.
  rewrite Hp in Hin. exists c.
  split; [by apply elem_of_map_to_list|done].
Qed.

Lemma name_for_pid_Some pid r n : env_ok e -> name_for_pid e pid r = Some n ->
  exists c, peer r !! n = Some c /\ c_pid c = Some pid.
Proof.
  intros He (c & Hc & Hp)%find_walk_peer; [|done]. exists c. by apply bool_decide_eq_true in Hp.
Qed.

(** ** How each handler moves the state *)

Definition is_response (a : action) : Prop :=
  match a with SendResponse _ _ => True | _ => False end.
Definition quiet (a : action) : Prop := ~ is_response a.

(** Closes the updates [mv] leaves over. *)
Ltac ev :=
  mv;
  match goal with
  | |- evolves _ _ ?r (act _ ?r) => apply evolves_act; by intros []
  | |- evolves _ _ ?r (with_peers (alter _ _ _) ?r) => by apply evolves_alter
  | |- evolves _ _ ?r (with_peers (<[_ := _]> _) ?r) =>
      eapply evolves_insert; [eassumption|by left|done]
  | |- evolves _ _ _ _ => by apply evolves_same
  | _ => idtac
  end.

Section evolution.
Context (Q : bytes -> PublicKey -> Prop).

Lemma send_hello_evolves name pid : always (evolves quiet Q) (send_hello name pid).
Proof. unfold send_hello. ev. Qed.

Lemma kick_evolves name : always (evolves quiet Q) (kick e name).
Proof. unfold kick. ev. apply send_hello_evolves. Qed.

Lemma send_pull_evolves name ns t : always (evolves quiet Q) (send_pull name ns t).
Proof. unfold send_pull. ev. Qed.

Lemma hello_accepted_evolves name h : always (evolves quiet Q) (hello_accepted e name h).
Proof. unfold hello_accepted. ev. apply send_pull_evolves. Qed.

Lemma persist_pin_evolves name pk : always (evolves quiet Q) (persist_pin e name pk).
Proof. unfold persist_pin. ev. Qed.

Lemma records_applied_evolves name ns t n q : always (evolves quiet Q) (records_applied name ns t n q).
Proof. unfold records_applied. ev; apply send_pull_evolves. Qed.

Lemma apply_parsed_evolves name ns t l : always (evolves quiet Q) (apply_parsed name ns t l).
Proof. unfold apply_parsed. ev. apply records_applied_evolves. Qed.

Lemma on_records_evolves pid rs : always (evolves quiet Q) (on_records e pid rs).
Proof. unfold on_records. ev. apply apply_parsed_evolves. Qed.

Lemma reset_name_evolves pid : always (evolves quiet Q) (reset_name e pid).
Proof. unfold reset_name. ev. Qed.

Lemma on_closed_evolves pid : always (evolves quiet Q) (on_closed e pid).
Proof. unfold on_closed. ev. Qed.

Lemma on_dial_error_evolves pid : always (evolves quiet Q) (on_dial_error e pid).
Proof.
  destruct pid; [apply reset_name_evolves|]. intros r. apply moves_update.
  trans (with_dials ∅ r); [by apply evolves_same|].
  apply (evolves_fmap quiet Q (with_dials ∅ r) undial). intros c. unfold undial. by case_bool_decide.
Qed.

Lemma on_established_evolves pid d : always (evolves quiet Q) (on_established e pid d).
Proof.
  unfold on_established. ev; try apply send_hello_evolves.
Qed.

End evolution.

(** A pin of the configuration. *)
Definition configured_pin (c : Config) (name : bytes) (pk : PublicKey) : Prop :=
  exists p, ConfigOps.peer c name = Some p /\ pk_from_str (pin p) = Ok pk.

Lemma load_pin_Some r name pk : load_pin r name = Some pk -> configured_pin (cfg r) name pk.
Proof.
  unfold load_pin, configured_pin. intros E. destruct (ConfigOps.peer (cfg r) name) as [p|]; [|done].
  exists p. by destruct (pk_from_str (pin p)); simplify_eq.
Qed.

(** Neither the configuration nor the store changes. *)
Definition shared_same (r r' : Runner) : Prop := cfg r' = cfg r /\ store r' = store r.
#[local] Instance shared_preorder : PreOrder shared_same.
Proof. split; [by intros r|]. intros r1 r2 r3 [C1 S1] [C2 S2]. split; congruence. Qed.

Lemma send_hello_shared name pid : always shared_same (send_hello name pid).
Proof. unfold send_hello. by mv. Qed.
Lemma kick_shared name : always shared_same (kick e name).
Proof. unfold kick. by mv. Qed.
Lemma send_pull_shared name ns t : always shared_same (send_pull name ns t).
Proof. unfold send_pull. by mv. Qed.
Lemma records_applied_shared name ns t n q : always shared_same (records_applied name ns t n q).
Proof. unfold records_applied. mv; try done; try apply send_pull_shared. Qed.
Lemma reset_name_shared pid : always shared_same (reset_name e pid).
Proof. unfold reset_name. by mv. Qed.
Lemma on_closed_shared pid : always shared_same (on_closed e pid).
Proof. unfold on_closed. by mv. Qed.
Lemma on_dial_error_shared pid : always shared_same (on_dial_error e pid).
Proof. destruct pid; [apply reset_name_shared|done]. Qed.
Lemma on_established_shared pid d : always shared_same (on_established e pid d).
Proof. unfold on_established. mv; try done; try apply send_hello_shared. Qed.

(** A tick: new peers start with the pin the configuration has for them. *)
Definition ticked (r r' : Runner) : Prop :=
  shared_same r r' /\ evolves quiet (configured_pin (cfg r)) r r'.
#[local] Instance ticked_preorder : PreOrder ticked.
Proof.
  split; [by intros r|]. intros r1 r2 r3 [C1 E1] [C2 E2]. rewrite (proj1 C1) in E2. split; by etrans.
Qed.

Lemma evolves_fresh P Q r name c : peer r !! name = None ->
  (forall pk, c_pin c = Some pk -> Q name pk) ->
  evolves P Q r (with_peers (<[name := c]> (peer r)) r).
Proof.
  intros Hc HQ. split; [done|exists []; simpl; by rewrite app_nil_r| |]; simpl; intros n c0.
  - intros Hn0. assert (n <> name) by (by intros ->; rewrite Hc in Hn0).
    rewrite lookup_insert_ne by done. eauto.
  - intros pk. destruct (decide (n = name)) as [->|Hn]; [|rewrite lookup_insert_ne by done; eauto].
    rewrite lookup_insert_eq. intros [= <-] Hk. right. eauto.
Qed.

Lemma kick_one_ticked p : always ticked (kick_one e p).
Proof.
  unfold kick_one. mv; try (split; [done|ev]).
  - split; [apply kick_shared|apply kick_evolves].
  - apply evolves_fresh; [done|]. intros pk. apply load_pin_Some.
  - split; [apply kick_shared|apply kick_evolves].
Qed.

Lemma kick_all_ticked : always ticked (kick_all e).
Proof.
  unfold kick_all. mv; [by split; [done|apply evolves_same]|].
  apply moves_for_each; [apply _|apply kick_one_ticked].
Qed.

(** The handshake: a peer without a pin is pinned to the key it advertises,
    and only when the connection was authenticated with that key. *)
Definition advertised_pin (pid : bytes) (h : HelloResponse) (pk : PublicKey) : Prop :=
  pk_from_str (host_id h) = Ok pk /\ vk_from_bytes pk = true /\ peer_id pk = pid.

Lemma on_hello_evolves pid h :
  always (evolves quiet (fun _ => advertised_pin pid h)) (on_hello e pid h).
Proof.
  unfold on_hello. ev; try apply hello_accepted_evolves; try apply persist_pin_evolves.
  match goal with E : lift _ r = _ |- _ => injection E as <- E end.
  unfold peer_id_of in *. destruct (vk_from_bytes a) eqn:Ev; simplify_eq.
  apply negb_false_iff, bool_decide_eq_true in Heqb as ->. erewrite alter_is_insert by done.
  eapply evolves_insert; [done| |done]. right. split; [done|]. by intros pk [= <-].
Qed.

(** ** Who is served *)

(** A configured peer whose stored pin is the key of this connection. *)
Definition pinned_peer (c : Config) (pid : bytes) : Prop :=
  exists p pk, p ∈ peers c /\ pin p <> [] /\ pk_from_str (pin p) = Ok pk /\ peer_id pk = pid.

(** A configured peer without a pin that this node's own dial reached. *)
Definition dialed_unpinned (r : Runner) (pid : bytes) : Prop :=
  exists name c p, peer r !! name = Some c /\ c_pid c = Some pid
    /\ ConfigOps.peer (cfg r) name = Some p /\ pin p = [].

Lemma pinned_as_ok pid l name : pinned_as pid l = Ok (Some name) ->
  exists p pk, p ∈ l /\ pin p <> [] /\ pk_from_str (pin p) = Ok pk /\ peer_id pk = pid.
Proof.
  induction l as [|p l IH]; cbn [pinned_as]; [done|].
  assert (pinned_as pid l = Ok (Some name) -> exists q pk, q ∈ p :: l /\ pin q <> []
    /\ pk_from_str (pin q) = Ok pk /\ peer_id pk = pid) as Hn.
  { intros (q & pk & Hin & Hq)%IH. exists q, pk. split; [by right|done]. }
  case_bool_decide; [done|]. destruct (pk_from_str (pin p)) as [pk|?|] eqn:Ep; [|done..].
  unfold peer_id_of. destruct (vk_from_bytes pk); [|done]. cbn [mbind outcome_bind].
  case_bool_decide; [|done]. intros _. exists p, pk. split_and!; try done. left.
Qed.

Lemma pinned_as_none pid l : pinned_as pid l = Ok None ->
  forall p pk, p ∈ l -> pin p <> [] -> pk_from_str (pin p) = Ok pk -> peer_id pk <> pid.
Proof.
  induction l as [|q l IH]; cbn [pinned_as]; intros E p pk; [by intros ?%elem_of_nil|].
  intros [->|Hin]%elem_of_cons Hp Hk.
  - rewrite bool_decide_eq_false_2, Hk in E by done. unfold peer_id_of in E.
    destruct (vk_from_bytes pk); [|done]. cbn [mbind outcome_bind] in E. by case_bool_decide.
  - eapply IH; [|done..]. destruct (bool_decide (pin q = [])); [done|].
    destruct (pk_from_str (pin q)) as [k|?|]; [|done..]. unfold peer_id_of in E.
    destruct (vk_from_bytes k); [|done]. cbn [mbind outcome_bind] in E. by case_bool_decide.
Qed.

(** What a response may carry to whom. *)
Definition may_receive (r : Runner) (pid : bytes) (q : SyncRequest) (resp : SyncResponse) : Prop :=
  match resp with
  | Denied => True
  | RespHello h => q = ReqHello /\ h = hello_response e r
      /\ (pinned_peer (cfg r) pid \/ dialed_unpinned r pid)
  | RespRecords rs => pinned_peer (cfg r) pid /\ exists from, q = Pull (recs_ns rs) from
      /\ pull_records (store r) (recs_ns rs) from = Ok (recs rs)
  end.

Lemma inbound_access_sound pid r a : env_ok e -> inbound_access e pid r = Ok a ->
  match a with
  | Deny => ~ pinned_peer (cfg r) pid
  | HelloOnly _ => dialed_unpinned r pid /\ ~ pinned_peer (cfg r) pid
  | Full _ => pinned_peer (cfg r) pid
  end.
Proof.
  intros He. unfold inbound_access. destruct (pinned_as pid (peers (cfg r))) as [[n|]|?|] eqn:Ep; try done.
  - intros [= <-]. apply pinned_as_ok in Ep. exact Ep.
  - cbn [mbind outcome_bind]. assert (~ pinned_peer (cfg r) pid) as Hn.
    { intros (p & pk & Hin & Hne & Hk & Hid). by eapply pinned_as_none in Ep. }
    destruct (name_for_pid e pid r) as [n|] eqn:En; [|by intros [= <-]].
    destruct (ConfigOps.peer (cfg r) n) as [p|] eqn:Ec; [|by intros [= <-]].
    case_bool_decide; intros [= <-]; [|done]. split; [|done].
    apply name_for_pid_Some in En as (c & Hc & Hp); [|done]. by exists n, c, p.
Qed.

Lemma on_request_served pid q r : env_ok e ->
  let '(r', o) := on_request e pid q r in
  (o = Panic /\ r' = r) \/
  (o = Ok tt /\ exists resp, r' = act (SendResponse pid resp) r /\ may_receive r pid q resp).
Proof.
  intros He. unfold on_request, mbind, method_bind, self, lift.
  destruct (inbound_access e pid r) as [a|[]|] eqn:Ea; [|by left].
  apply inbound_access_sound in Ea; [|done].
  destruct a as [|n|n], q as [|ns from];
    try (right; split; [done|]; eexists; split; [reflexivity|done]).
  - right. split; [done|]. eexists. split; [reflexivity|]. split_and!; try done. right. apply Ea.
  - right. split; [done|]. eexists. split; [reflexivity|]. split_and!; try done. by left.
  - unfold serve_pull, mbind, method_bind, self, lift.
    destruct (pull_records (store r) ns from) as [l|[]|] eqn:El; [|by left].
    right. split; [done|]. eexists. split; [reflexivity|]. split; [done|]. by exists from.
Qed.

(** Where a step's responses and new pins come from. *)
Definition action_ok (ev : event) (r : Runner) (a : action) : Prop :=
  match a with
  | SendResponse pid resp => exists q, ev = Request pid q /\ may_receive r pid q resp
  | _ => True
  end.
Definition pin_source (ev : event) (r : Runner) (name : bytes) (pk : PublicKey) : Prop :=
  match ev with
  | Tick => configured_pin (cfg r) name pk
  | Response pid (RespHello h) => advertised_pin pid h pk
  | _ => False
  end.

Lemma evolves_mono (P P' : action -> Prop) (Q Q' : bytes -> PublicKey -> Prop) r r' :
  (forall a, P a -> P' a) -> (forall n pk, Q n pk -> Q' n pk) -> evolves P Q r r' -> evolves P' Q' r r'.
Proof.
  intros HP HQ [S (l & E & F) K N]. split; [done|exists l; split; [done|by eapply Forall_impl]|done|].
  intros n c pk Hc Hk. destruct (N n c pk Hc Hk); eauto.
Qed.

Lemma handle_evolves ev r : env_ok e ->
  moves (evolves (action_ok ev r) (pin_source ev r)) r (handle e ev).
Proof.
  intros He. assert (forall Q Q' m, (forall n pk, Q n pk -> Q' n pk) -> moves (E:=Empty_set) (evolves quiet Q) r m ->
    moves (E:=Empty_set) (A:=unit) (evolves (action_ok ev r) Q') r m) as Hm.
  { intros Q Q' m HQ. apply evolves_mono; [|done]. intros [] Ha; try done. by destruct Ha. }
  destruct ev as [|pid d|pid|pid| |pid q|pid [h|rs|]|pid|pid]; cbn [handle pin_source].
  - apply (Hm (configured_pin (cfg r))); [done|apply kick_all_ticked].
  - apply (Hm (fun _ _ => False)); [done|apply on_established_evolves].
  - apply (Hm (fun _ _ => False)); [done|apply on_closed_evolves].
  - apply (Hm (fun _ _ => False)); [done|apply on_dial_error_evolves].
  - apply moves_ret, _.
  - pose proof (on_request_served pid q r He) as Hs. unfold moves.
    destruct (on_request e pid q r) as [r' o].
    destruct Hs as [[_ ->]|[_ (resp & -> & Hr)]]; [done|]. apply evolves_act. by exists q.
  - apply (Hm (fun _ => advertised_pin pid h)); [done|apply on_hello_evolves].
  - apply (Hm (fun _ _ => False)); [done|apply on_records_evolves].
  - apply (Hm (fun _ _ => False)); [done|apply reset_name_evolves].
  - apply (Hm (fun _ _ => False)); [done|apply reset_name_evolves].
  - apply moves_ret, _.
Qed.

(** ** What a step writes to the store *)

(** The batch [parsed] went into namespace [ns], and maybe a checkpoint
    followed. *)
Definition absorbed (ns : bytes) (parsed : list record) (s s' : Store) : Prop :=
  let s1 := (apply_synced_batch ns parsed s).1 in s' = s1 \/ s' = checkpoint s1.

Lemma apply_parsed_store name ns t l r :
  cfg (apply_parsed name ns t l r).1 = cfg r
  /\ absorbed ns l (store r) (store (apply_parsed name ns t l r).1).
Proof.
  unfold absorbed, apply_parsed, mbind, method_bind, self. cbn [fst].
  destruct (apply_synced_batch ns l (store r)) as [s [n|x|]]; cbn -[checkpoint records_applied phase_set];
    [|by split; [|left]..].
  set (b := _ && _).
  match goal with |- context [records_applied name ns t n ?q] =>
    assert (forall r0, shared_same r0 (records_applied name ns t n q r0).1) as Hs
      by (intros r0; apply records_applied_shared)
  end.
  destruct (change_tx r); cbn -[checkpoint records_applied];
    (match goal with |- context [records_applied name ns t n ?q ?r0] => destruct (Hs r0) as [-> ->] end);
    simpl; destruct b; auto.
Qed.

Lemma on_records_store pid rs r : env_ok e ->
  let r' := (on_records e pid rs r).1 in
  cfg r' = cfg r /\
  (store r' = store r \/
   exists name c target batch parsed, peer r !! name = Some c /\ c_pid c = Some pid
     /\ c_phase c = Pulling (recs_ns rs) target /\ allowed r name (recs_ns rs) <> Some false
     /\ decode_recs (recs rs) = Ok batch /\ verify_batch zero32 batch = Ok parsed
     /\ absorbed (recs_ns rs) parsed (store r) (store r')).
Proof.
  intros He. cbv zeta. unfold on_records, mbind, method_bind, self.
  destruct (name_for_pid e pid r) as [name|] eqn:En; [|by split; [|left]].
  apply name_for_pid_Some in En as (c & Hc & Hp); [|done]. rewrite Hc. simpl.
  destruct (c_phase c) as [| | |ns t| |] eqn:Eph; try by split; [|left].
  destruct (decide (recs_ns rs = ns)) as [<-|Hn];
    [rewrite bool_decide_eq_true_2 by done|rewrite bool_decide_eq_false_2 by done; by split; [|left]].
  simpl. case_bool_decide as Ea; [by split; [|left]|].
  destruct (decode_recs (recs rs)) as [batch|?|] eqn:Ed; [|by split; [|left]..].
  destruct (verify_batch zero32 batch) as [parsed|?|] eqn:Ev; [|by split; [|left]..].
  destruct (apply_parsed_store name (recs_ns rs) t parsed r) as [Ec Es].
  split; [done|]. right. by exists name, c, t, batch, parsed.
Qed.

(** The clock estimate is all a handshake writes. *)
Definition clocked (s s' : Store) : Prop := s' = s \/ exists name m, s' = set_peer_clock name m s.

Lemma hello_accepted_store name h r :
  cfg (hello_accepted e name h r).1 = cfg r /\ clocked (store r) (store (hello_accepted e name h r).1).
Proof.
  unfold hello_accepted, mbind, method_bind, self, lift, update. cbn [fst].
  destruct (median _) as [m|]; cbn -[send_pull phase_set omap]; [|by split; [|left]].
  destruct (omap _ _) as [|[ns t] l]; cbn -[send_pull].
  { split; [done|]. right. by exists name, m. }
  match goal with |- context [send_pull name ns t ?r0] =>
    destruct (send_pull_shared name ns t r0) as [-> ->] end. simpl.
  split; [done|]. right. by exists name, m.
Qed.

Lemma persist_pin_shared name pk r :
  store (persist_pin e name pk r).1 = store r
  /\ cfg (persist_pin e name pk r).1 = peer_mut name (with_pin (pk_to_string pk)) (cfg r).
Proof.
  unfold persist_pin, mbind, method_bind, self. cbn -[save peer_mut].
  destruct (save _ _ _ _) as [f [[]|x|]]; by cbn -[peer_mut].
Qed.

Lemma on_hello_shared pid h r : env_ok e ->
  let r' := (on_hello e pid h r).1 in
  clocked (store r) (store r') /\
  (cfg r' = cfg r \/
   exists name c pk, peer r !! name = Some c /\ c_pid c = Some pid /\ c_pin c = None
     /\ advertised_pin pid h pk /\ cfg r' = peer_mut name (with_pin (pk_to_string pk)) (cfg r)).
Proof.
  intros He. cbv zeta. unfold on_hello, mbind, method_bind, self.
  destruct (name_for_pid e pid r) as [name|] eqn:En; [|by split; left].
  apply name_for_pid_Some in En as (c & Hc & Hp); [|done].
  destruct (pk_from_str (host_id h)) as [pk|?|] eqn:Ek; [|by split; left..].
  unfold ctx_of, mbind, method_bind, self, lift. rewrite Hc. cbn [or_panic].
  destruct (c_pin c) as [k|] eqn:Ekc.
  { case_bool_decide; cbn [negb]; [|by split; left].
    destruct (hello_accepted_store name h r) as [E1 E2]. split; [done|by left]. }
  unfold peer_id_of. destruct (vk_from_bytes pk) eqn:Ev; [|by split; left].
  case_bool_decide as Epid; cbn [negb]; [|by split; left]. unfold update.
  match goal with |- context [persist_pin e name pk ?r0] =>
    destruct (persist_pin_shared name pk r0) as [Es Ec];
    destruct (persist_pin e name pk r0) as [r1 [[]|x|]] end; cbn [fst] in *.
  2, 3: split; [left; done|]; right; by exists name, c, pk.
  destruct (hello_accepted_store name h r1) as [E1 E2]. rewrite E1, Ec. rewrite Es in E2.
  split; [done|]. right. by exists name, c, pk.
Qed.

(** Every other event leaves store and configuration alone. *)
Lemma handle_shared ev r : env_ok e ->
  (forall pid h, ev <> Response pid (RespHello h)) -> (forall pid rs, ev <> Response pid (RespRecords rs)) ->
  shared_same r (handle e ev r).1.
Proof.
  intros He Hh Hr. destruct ev as [|pid d|pid|pid| |pid q|pid [h|rs|]|pid|pid]; cbn [handle]; try done.
  - apply kick_all_ticked.
  - apply on_established_shared.
  - apply on_closed_shared.
  - apply on_dial_error_shared.
  - pose proof (on_request_served pid q r He) as Hs. destruct (on_request e pid q r) as [r' o].
    by destruct Hs as [[_ ->]|[_ (resp & -> & _)]].
  - naive_solver.
  - naive_solver.
  - apply reset_name_shared.
  - apply reset_name_shared.
Qed.

(** ** Properties *)

(** C22: whatever the event, a step sends a response only to the peer whose
    request it handles, and never changes anything else then: records only to
    a peer whose authenticated id derives from a pin stored in the
    configuration, exactly the chunk of the log it asked for, and a hello only
    to such a peer or to one without a pin that this node dialed itself. *)
Theorem served_only_to_trusted ev r : env_ok e ->
  exists l, out (handle e ev r).1 = out r ++ l
    /\ forall pid resp, SendResponse pid resp ∈ l ->
         exists q, ev = Request pid q /\ may_receive r pid q resp
           /\ (handle e ev r).1 = act (SendResponse pid resp) r.
Proof.
  intros He. destruct (handle_evolves ev r He) as [_ (l & El & Hl) _ _]. exists l. split; [done|].
  intros pid resp Hin. rewrite Forall_forall in Hl. destruct (Hl _ Hin) as (q & -> & Hq).
  exists q. split_and!; try done. cbn [handle]. pose proof (on_request_served pid q r He) as Hs.
  cbn [handle] in El. destruct (on_request e pid q r) as [r' o].
  destruct Hs as [[_ ->]|[_ (resp' & -> & _)]]; simpl in *.
  - rewrite <-(app_nil_r (out r)) in El at 1. apply app_inj_1 in El as [_ <-]; [|done]. by apply elem_of_nil in Hin.
  - apply app_inv_head in El as <-. apply list_elem_of_singleton in Hin. by rewrite Hin.
Qed.

(** C23: once a peer is pinned to a key it stays pinned to it, and a new pin is
    either the one the configuration holds for a peer just started, or the key
    the peer advertised over a connection authenticated with that very key;
    only in the latter case does a step change the configuration, and then
    only by recording that pin. *)
Theorem pins_only_authenticated ev r : env_ok e ->
  let r' := (handle e ev r).1 in
  (forall name c pk, peer r !! name = Some c -> c_pin c = Some pk ->
     exists c', peer r' !! name = Some c' /\ c_pin c' = Some pk)
  /\ (forall name c' pk, peer r' !! name = Some c' -> c_pin c' = Some pk ->
     (exists c, peer r !! name = Some c /\ c_pin c = Some pk) \/ pin_source ev r name pk)
  /\ (cfg r' = cfg r \/ exists name pid h pk, ev = Response pid (RespHello h)
       /\ advertised_pin pid h pk /\ cfg r' = peer_mut name (with_pin (pk_to_string pk)) (cfg r)).
Proof.
  intros He r'. destruct (handle_evolves ev r He) as [_ _ K N]. split_and!.
  - intros name c pk Hc Hk. destruct (K name c Hc) as (c' & Hc' & Hk' & _). eauto.
  - exact N.
  - subst r'. destruct ev as [|pid d|pid|pid| |pid q|pid [h|rs|]|pid|pid];
      try (left; apply handle_shared; done); cbn [handle].
    + destruct (on_hello_shared pid h r He) as [_ [?|(n & c & pk & _ & _ & _ & Ha & Ec)]]; [by left|].
      right. by exists n, pid, h, pk.
    + left. by apply on_records_store.
Qed.

(** C24: the mesh writes to the store in two ways only: a handshake records the
    peer's clock estimate, and records go in through [apply_synced_batch]
    after they decode and verify, from the connection a pull is pending on,
    into the namespace of that pull, and only if the peer's allow-list does
    not exclude it; every other namespace keeps its entries, tombstones, logs,
    definitions and directory. *)
Theorem mesh_writes_confined ev r : env_ok e ->
  let r' := (handle e ev r).1 in
  clocked (store r) (store r') \/
  exists pid rs name c target batch parsed, ev = Response pid (RespRecords rs)
    /\ peer r !! name = Some c /\ c_pid c = Some pid
    /\ c_phase c = Pulling (recs_ns rs) target /\ allowed r name (recs_ns rs) <> Some false
    /\ decode_recs (recs rs) = Ok batch /\ verify_batch zero32 batch = Ok parsed
    /\ absorbed (recs_ns rs) parsed (store r) (store r')
    /\ (let s1 := (apply_synced_batch (recs_ns rs) parsed (store r)).1 in
        frame (def_keys (recs_ns rs)) (recs_ns rs) (store r) s1)
    /\ forall ns k, ns <> recs_ns rs -> get (store r') ns k = get (store r) ns k.
Proof.
  intros He r'. subst r'.
  destruct ev as [|pid d|pid|pid| |pid q|pid [h|rs|]|pid|pid];
    try (left; left; apply handle_shared; done); cbn [handle].
  - left. by apply on_hello_shared.
  - destruct (on_records_store pid rs r He) as [_ [Es|(n & c & t & b & l & ? & ? & ? & ? & ? & ? & Ha)]];
      [by left; left|]. right.
    pose proof (frames_apply_synced_batch (recs_ns rs) l (store r)) as F.
    exists pid, rs, n, c, t, b, l. split_and!; try done.
    intros ns k Hn. rewrite <-(frame_get _ _ _ _ F ns k Hn). by destruct Ha as [-> | ->].
Qed.

End net.

(** ** Witnesses *)

(** A stand-in to evaluate with: a peer's id is its key. *)
#[program] Definition toy_libp2p : Libp2p := {| peer_id pk := pk |}.
Next Obligation. done. Qed.

#[local] Existing Instance toy_sha256.
#[local] Existing Instance hex_plain.
#[local] Existing Instance toy_json.
#[local] Existing Instance toy_ed25519.
#[local] Existing Instance toy_config_text.
#[local] Existing Instance toy_libp2p.

Definition demo_env : env := mkEnv 1000 (2000 * 2 ^ 16) (fun _ => true) (fun _ => true) Written map_to_list.
Lemma demo_env_ok : env_ok demo_env.
Proof. by intros m. Qed.

(** The key [demo_key] spells; [demo_config] pins node2 to it. *)
Definition demo_pid : bytes := repeat Byte.xab 32.
Definition demo_runner : Runner :=
  runner_new demo_store (mkKeypair (bs "seed")) demo_config (bs "c.toml") None false.

Lemma served_only_to_trusted_witness :
  exists l, out (handle demo_env (Request demo_pid (Pull (bs "app") 1)) demo_runner).1 = [] ++ l
    /\ forall pid resp, SendResponse pid resp ∈ l ->
         exists q, Request demo_pid (Pull (bs "app") 1) = Request pid q
           /\ may_receive demo_env demo_runner pid q resp
           /\ (handle demo_env (Request demo_pid (Pull (bs "app") 1)) demo_runner).1
              = act (SendResponse pid resp) demo_runner.
Proof.
  apply (served_only_to_trusted demo_env (Request demo_pid (Pull (bs "app") 1)) demo_runner).
  apply demo_env_ok.
Defined.

Lemma pins_only_authenticated_witness :
  c_pin <$> peer (handle demo_env Tick demo_runner).1 !! bs "node2" = Some (Some demo_pid)
  /\ forall name c' pk, peer (handle demo_env Tick demo_runner).1 !! name = Some c' -> c_pin c' = Some pk ->
       configured_pin demo_config name pk.
Proof.
  split; [vm_compute; reflexivity|].
  destruct (pins_only_authenticated demo_env Tick demo_runner demo_env_ok) as (_ & N & _).
  intros name c' pk Hc Hk. destruct (N name c' pk Hc Hk) as [(c & Hc0 & _)|Hs]; [|exact Hs].
  assert (peer demo_runner = ∅) as E by reflexivity. by rewrite E, lookup_empty in Hc0.
Defined.

Lemma mesh_writes_confined_witness :
  clocked demo_store (store (handle demo_env Tick demo_runner).1).
Proof.
  destruct (mesh_writes_confined demo_env Tick demo_runner demo_env_ok) as [Hc|Hr]; [exact Hc|].
  destruct Hr as (pid & rs & ? & ? & ? & ? & ? & E & _). discriminate E.
Defined.

(** The pinned peer is served, a stranger is refused. *)
Example demo_serving :
  out (handle demo_env (Request demo_pid (Pull (bs "app") 1)) demo_runner).1
    = [SendResponse demo_pid (RespRecords (mkRecords (bs "app") []))]
  /\ out (handle demo_env (Request (bs "stranger") ReqHello) demo_runner).1
    = [SendResponse (bs "stranger") Denied].
Proof. by vm_compute. Qed.

End NetSpec.
