(* ===== verification/NetRun.v ===== *)
(** Running the mesh: no step panics on well-formed messages, a round of
    pulls ends within its chunk budget, and a replica that only follows its
    peer catches up with it. *)

From S2P Require Import Prelude Moves Crc32 LogFormat Log LogSpec Base64 Utf8 Text StoreTypes Store StoreSpec StoreFrame SyncSpec Snapshot Merge Ident Config Net NetSpec.
Import LogFormat LogSpec Base64 Store StoreSpec StoreFrame SyncSpec Snapshot Merge Ident ConfigOps Net NetSpec.

Module NetRun.

(** ** Handlers that finish *)

(** [m], run at [r], finishes with a result and state satisfying [Q]. *)
Definition wp {A} (m : net_m A) (r : Runner) (Q : A -> Runner -> Prop) : Prop :=
  exists r' a, m r = (r', Ok a) /\ Q a r'.

Lemma wp_ret {A} (a : A) r Q : Q a r -> wp (mret a) r Q.
Proof. intros HQ. by exists r, a. Qed.
Lemma wp_update f r (Q : unit -> Runner -> Prop) : Q tt (f r) -> wp (update f) r Q.
Proof. intros HQ. by exists (f r), tt. Qed.
Lemma wp_bind {A B} (m : net_m A) (k : A -> net_m B) r Q :
  wp m r (fun a r' => wp (k a) r' Q) -> wp (m ≫= k) r Q.
Proof.
  intros (r' & a & E & Hk). destruct Hk as (r'' & b & E' & HQ). exists r'', b. split; [|done].
  by rewrite (method_bind_step _ _ _ _ _ E).
Qed.
Lemma wp_self {B} (k : Runner -> net_m B) r Q : wp (k r) r Q -> wp (self ≫= k) r Q.
Proof. intros Hk. apply wp_bind. by exists r, r. Qed.
Lemma wp_lift {A} (o : outcome Empty_set A) a r (Q : A -> Runner -> Prop) : o = Ok a -> Q a r -> wp (lift o) r Q.
Proof. intros -> HQ. by exists r, a. Qed.
Lemma wp_ctx {B} name c (k : PeerCtx -> net_m B) r Q :
  peer r !! name = Some c -> wp (k c) r Q -> wp (ctx_of name ≫= k) r Q.
Proof. intros Hc Hk. apply wp_bind, wp_self, (wp_lift _ c); [by rewrite Hc|done]. Qed.
Lemma wp_mono {A} (m : net_m A) r (Q Q' : A -> Runner -> Prop) :
  wp m r Q -> (forall a r', Q a r' -> Q' a r') -> wp m r Q'.
Proof. intros (r' & a & E & HQ) Hm. exists r', a. eauto. Qed.
Lemma wp_for_each {A} (m : A -> net_m unit) l r (I : Runner -> Prop) :
  (forall x r, I r -> wp (m x) r (fun _ => I)) -> I r -> wp (for_each m l) r (fun _ => I).
Proof.
  intros Hm. revert r. induction l as [|x l IH]; intros r Hr; cbn [for_each]; [by apply wp_ret|].
  apply wp_bind. eapply wp_mono; [by apply Hm|]. intros u r1 Hr1. by apply IH.
Qed.

Ltac wps :=
  repeat first
    [ progress cbv zeta
    | match goal with
      | |- wp (self ≫= _) _ _ => apply wp_self
      | E : peer ?r !! ?n = Some _ |- wp (ctx_of ?n ≫= _) ?r _ => eapply wp_ctx; [exact E|]
      | |- wp (update _ ≫= _) _ _ => apply wp_bind, wp_update
      | |- wp (phase_set _ _ ≫= _) _ _ => apply wp_bind, wp_update
      | |- wp (update _) _ _ => apply wp_update
      | |- wp (phase_set _ _) _ _ => apply wp_update
      | |- wp (mret _) _ _ => apply wp_ret
      | |- wp (match ?x with _ => _ end) _ _ => destruct x eqn:?
      end ].

Section net.
Context `{Sha256, HexCrate, SerdeJson, Ed25519, ConfigText, Libp2p}.

(** ** The runner's invariant *)

(** A well-formed store, and pending dials of peers the runner has. *)
Record runner_ok (r : Runner) : Prop := {
  ro_store : store_ok (store r);
  ro_dials key name : pending_dials r !! key = Some name -> is_Some (peer r !! name);
}.

Lemma runner_ok_peers r r' : runner_ok r -> store r' = store r -> pending_dials r' = pending_dials r ->
  (forall n, is_Some (peer r !! n) -> is_Some (peer r' !! n)) -> runner_ok r'.
Proof.
  intros [Hs Hd] Es Ed Hp. split; [by rewrite Es|]. intros key n. rewrite Ed. intros Hk. by eapply Hp, Hd.
Qed.

Lemma is_Some_alter {V} (f : V -> V) (m : gmap bytes V) k n : is_Some (m !! n) -> is_Some (alter f k m !! n).
Proof.
  intros [v Hv]. destruct (decide (n = k)) as [->|Hn].
  - rewrite lookup_alter_eq, Hv. eauto.
  - rewrite lookup_alter_ne by done. eauto.
Qed.
Lemma is_Some_insert {V} (v : V) (m : gmap bytes V) k n : is_Some (m !! n) -> is_Some (<[k := v]> m !! n).
Proof.
  intros [w Hw]. destruct (decide (n = k)) as [->|Hn]; [rewrite lookup_insert_eq|rewrite lookup_insert_ne by done]; eauto.
Qed.

#[local] Hint Resolve is_Some_alter is_Some_insert : core.

(** Closes the invariant after updates that keep store and dials. *)
Ltac rok := eapply runner_ok_peers; [eassumption|reflexivity|reflexivity|simpl; eauto].

Definition pins_valid (c : Config) : Prop :=
  forall p pk, p ∈ peers c -> pin p <> [] -> pk_from_str (pin p) = Ok pk -> vk_from_bytes pk = true.
Definition small_logs (s : Store) : Prop :=
  forall ns L, logs s !! ns = Some L -> Log.seq L + MAX_RECORDS < 2 ^ 64.

(** Messages the handlers are prepared for: keys on the curve, records the
    parser can read or refuse. *)
Definition event_safe (r : Runner) (ev : event) : Prop :=
  match ev with
  | Request _ q => pins_valid (cfg r) /\ small_logs (store r)
      /\ match q with Pull _ from => is_u64 from | ReqHello => True end
  | Response _ (RespHello h) => forall pk, pk_from_str (host_id h) = Ok pk -> vk_from_bytes pk = true
  | Response _ (RespRecords rs) =>
      forall batch, decode_recs (recs rs) = Ok batch -> verify_batch zero32 batch <> Panic
  | _ => True
  end.

Section step.
Context (e : env) (He : env_ok e).

Lemma send_hello_ok name pid r : runner_ok r -> wp (send_hello name pid) r (fun _ => runner_ok).
Proof. intros Hr. unfold send_hello. wps. rok. Qed.

Lemma kick_ok name r : runner_ok r -> is_Some (peer r !! name) -> wp (kick e name) r (fun _ => runner_ok).
Proof.
  intros Hr [c Hc]. unfold kick. wps; try done; try rok.
  - by apply send_hello_ok.
  - split; [apply Hr|]. intros key n. simpl. rewrite lookup_insert_Some.
    intros [[<- <-]|[Hk Hl]]; [apply is_Some_alter; eauto|].
    rewrite lookup_delete_ne in Hl by done. apply is_Some_alter. by apply Hr in Hl.
  - split; [apply Hr|]. intros key n. simpl. rewrite lookup_delete_Some. intros [_ Hl].
    apply is_Some_alter. by apply Hr in Hl.
Qed.

Lemma kick_one_ok p r : runner_ok r -> wp (kick_one e p) r (fun _ => runner_ok).
Proof.
  intros Hr. unfold kick_one. wps; try done; try rok.
  - apply kick_ok; [rok|]. simpl. apply is_Some_alter, is_Some_insert. eauto.
  - apply kick_ok; [rok|]. simpl. rewrite lookup_insert_eq. eauto.
Qed.

Lemma kick_all_ok r : runner_ok r -> wp (kick_all e) r (fun _ => runner_ok).
Proof.
  intros Hr. unfold kick_all. wps. apply wp_for_each; [intros; by apply kick_one_ok|]. rok.
Qed.

Lemma send_pull_ok name ns t r c : runner_ok r -> peer r !! name = Some c -> is_Some (c_pid c) ->
  wp (send_pull name ns t) r (fun _ => runner_ok).
Proof.
  intros Hr Hc [pid Hp]. unfold send_pull. wps. apply wp_bind, (wp_lift _ pid); [by rewrite Hp|].
  wps; rok.
Qed.

Lemma median_some buf x : exists m, median (push_sample x buf) = Some m.
Proof.
  unfold median. apply lookup_lt_is_Some. rewrite (Permutation_length (merge_sort_Permutation _ _)).
  assert (0 < length (push_sample x buf))%nat by (unfold push_sample; rewrite length_app; simpl; lia).
  apply Nat.div_lt; lia.
Qed.

Lemma clock_ok name m s : store_ok s -> store_ok (set_peer_clock name m s).
Proof. intros Hs. by apply (exec_keeps (OpPeerClock name m) I). Qed.

Lemma checkpoint_ok s : store_ok s -> store_ok (checkpoint s).
Proof. intros []. by constructor. Qed.

Lemma runner_ok_store s r : runner_ok r -> store_ok s -> runner_ok (with_store s r).
Proof. intros Hr Hs. split; [done|]. apply Hr. Qed.

Lemma hello_accepted_ok name h r c : runner_ok r -> peer r !! name = Some c -> is_Some (c_pid c) ->
  wp (hello_accepted e name h) r (fun _ => runner_ok).
Proof.
  intros Hr Hc Hp. unfold hello_accepted. wps.
  set (x := i64 _). destruct (median_some (default [] (skew r !! name)) x) as [m Hm].
  apply wp_bind, (wp_lift _ m); [by rewrite Hm|]. apply wp_bind, wp_update.
  match goal with |- wp _ ?r1 _ => assert (runner_ok r1) as Hr1
    by (apply runner_ok_store; [rok|apply clock_ok, Hr]);
    assert (peer r1 !! name = Some c) as Hc1 by done; revert Hr1 Hc1; generalize r1 end.
  clear r Hr Hc Hm. intros r Hr Hc. wps; [rok|]. eapply send_pull_ok; [rok|done|done].
Qed.

Lemma persist_pin_ok name pk r : runner_ok r -> wp (persist_pin e name pk) r (fun _ => runner_ok).
Proof. intros Hr. unfold persist_pin. wps; rok. Qed.

Lemma on_hello_ok pid h r : runner_ok r ->
  (forall pk, pk_from_str (host_id h) = Ok pk -> vk_from_bytes pk = true) ->
  wp (on_hello e pid h) r (fun _ => runner_ok).
Proof.
  intros Hr Hv. unfold on_hello. wps; try done; try rok.
  all: match goal with E : name_for_pid _ _ _ = Some _ |- _ =>
    apply name_for_pid_Some in E as (c & Hc & Hp); [|done] end.
  wps; try rok; [by eapply hello_accepted_ok|].
  apply wp_bind, (wp_lift _ (peer_id a)); [unfold peer_id_of; by rewrite (Hv a)|].
  wps; [rok|]. match goal with |- wp (persist_pin _ ?n _ ≫= _) ?r0 _ =>
    assert (exists c', peer r0 !! n = Some c' /\ is_Some (c_pid c')) as (c' & Hc' & Hp')
      by (simpl; rewrite lookup_alter_eq, Hc; simpl; eauto);
    pose proof (persist_pin_evolves e (fun _ _ => True) n a r0) as Hev;
    destruct (persist_pin_ok n a r0) as (r1 & [] & E1 & Hr1); [rok|] end.
  apply wp_bind. exists r1, tt. split; [done|].
  unfold moves in Hev. rewrite E1 in Hev. destruct (evolves_keep _ _ _ _ Hev _ _ Hc') as (c1 & Hc1 & _ & Hi).
  eapply hello_accepted_ok; eauto.
Qed.

Lemma decode_recs_total l : decode_recs l <> Panic.
Proof.
  induction l as [|x l IH]; cbn [decode_recs]; [done|]. pose proof (b64_decode_total (payload_b64 x)).
  destruct (b64_decode (payload_b64 x)) as [b|?|]; [|done..]. cbn [mbind outcome_bind].
  by destruct (decode_recs l).
Qed.

Lemma records_applied_ok name ns t n q r c : runner_ok r -> peer r !! name = Some c -> is_Some (c_pid c) ->
  wp (records_applied name ns t n q) r (fun _ => runner_ok).
Proof.
  intros Hr Hc Hp. unfold records_applied. wps; try rok.
  all: eapply send_pull_ok; [rok|simpl; by rewrite lookup_insert_eq|done].
Qed.

Lemma apply_synced_unknown ns l s : policies s !! ns = None ->
  apply_synced_batch ns l s = (s, Err (BadName ns)).
Proof. intros Hp. unfold apply_synced_batch, mbind, method_bind, self, lift. by rewrite Hp. Qed.

Lemma apply_parsed_ok name ns t batch parsed r c :
  runner_ok r -> peer r !! name = Some c -> is_Some (c_pid c) ->
  verify_batch zero32 batch = Ok parsed ->
  wp (apply_parsed name ns t parsed) r (fun _ => runner_ok).
Proof.
  intros Hr Hc Hp Hv. unfold apply_parsed. apply wp_self.
  destruct (policies (store r) !! ns) as [p|] eqn:Ep.
  - destruct (verified_batch_run (store r) ns p zero32 batch parsed (ro_store r Hr) Ep Hv)
      as (s' & n & rs & rs' & E & _ & _ & _ & _ & Hok & _). rewrite E. wps.
    set (s2 := if _ && _ then _ else _).
    assert (store_ok s2) as Hs2 by (subst s2; destruct (_ && _); [by apply checkpoint_ok|done]).
    match goal with |- wp _ ?r1 _ => assert (runner_ok r1) as Hr1 by (split; [done|apply Hr]) end.
    destruct (change_tx r); apply wp_bind; wps; (eapply records_applied_ok; [rok|done|done]).
  - rewrite apply_synced_unknown by done. wps. rok.
Qed.

Lemma on_records_ok pid rs r : runner_ok r ->
  (forall batch, decode_recs (recs rs) = Ok batch -> verify_batch zero32 batch <> Panic) ->
  wp (on_records e pid rs) r (fun _ => runner_ok).
Proof.
  intros Hr Hv. unfold on_records. apply wp_self.
  destruct (name_for_pid e pid r) as [name|] eqn:En; [|by apply wp_ret].
  apply name_for_pid_Some in En as (c & Hc & Hp); [|done]. rewrite Hc. simpl.
  pose proof (decode_recs_total (recs rs)) as Hd.
  destruct (decode_recs (recs rs)) as [batch|?|] eqn:Ed; [|wps; try done; rok|done].
  specialize (Hv batch eq_refl). destruct (verify_batch zero32 batch) as [parsed|?|] eqn:Ev; [| |done].
  - wps; try done; try rok. eapply apply_parsed_ok; eauto.
  - wps; try done; rok.
Qed.

Lemma on_established_ok pid d r : runner_ok r -> wp (on_established e pid d) r (fun _ => runner_ok).
Proof.
  intros Hr. unfold on_established. destruct d as [key|]; [|by apply wp_ret].
  apply wp_self. apply wp_bind, wp_update.
  assert (runner_ok (with_dials (base.delete key (pending_dials r)) r)) as Hr1.
  { split; [apply Hr|]. intros k n. simpl. rewrite lookup_delete_Some. intros [_ Hk]. by apply Hr in Hk. }
  match goal with |- wp (match ?x with Some _ => _ | None => _ end) _ _ => set (o := x) end.
  assert (forall name, o = Some name -> is_Some (peer r !! name)) as Ho.
  { intros name. subst o. destruct (pending_dials r !! key) as [n|] eqn:Ek.
    - intros [= <-]. by apply Hr in Ek.
    - intros (c & Hc & _)%find_walk_peer; [|done]. eauto. }
  destruct o as [name|]; [|by apply wp_ret]. destruct (Ho name eq_refl) as [c Hc].
  eapply wp_ctx; [exact Hc|]. wps; [apply send_hello_ok|]; rok.
Qed.

Lemma reset_name_ok pid r : runner_ok r -> wp (reset_name e pid) r (fun _ => runner_ok).
Proof. intros Hr. unfold reset_name. wps; [rok|done]. Qed.

Lemma on_closed_ok pid r : runner_ok r -> wp (on_closed e pid) r (fun _ => runner_ok).
Proof. intros Hr. unfold on_closed. wps; [rok|done..]. Qed.

Lemma on_dial_error_ok pid r : runner_ok r -> wp (on_dial_error e pid) r (fun _ => runner_ok).
Proof.
  intros Hr. destruct pid; [by apply reset_name_ok|]. apply wp_update. split; [apply Hr|].
  intros k n. simpl. by rewrite lookup_empty.
Qed.

Lemma pinned_as_total pid l :
  (forall p pk, p ∈ l -> pin p <> [] -> pk_from_str (pin p) = Ok pk -> vk_from_bytes pk = true) ->
  exists o, pinned_as pid l = Ok o.
Proof.
  induction l as [|p l IH]; intros Hv; cbn [pinned_as]; [eauto|].
  destruct IH as [o Ho]; [intros q pk Hq; apply Hv; by right|].
  case_bool_decide as Ep; [eauto|]. destruct (pk_from_str (pin p)) as [pk|?|] eqn:Ek; [|eauto..].
  unfold peer_id_of. rewrite (Hv p pk) by (done || left). cbn [mbind outcome_bind].
  case_bool_decide; eauto.
Qed.

Lemma inbound_access_total pid r : pins_valid (cfg r) -> exists a, inbound_access e pid r = Ok a.
Proof.
  intros Hv. unfold inbound_access. destruct (pinned_as_total pid (peers (cfg r)) Hv) as [o ->].
  cbn [mbind outcome_bind]. repeat case_match; eauto.
Qed.

(** The window of a well-formed log a request reads. *)
Lemma log_window s ns from : store_ok s -> small_logs s -> 0 <= from ->
  exists l, log_records s ns from MAX_RECORDS = l
    /\ (forall rs, log_holds s ns rs ->
         l = Ok (if (from =? 0) || (Z.of_nat (length rs) <? from) then []
                 else numbered from (take (Z.to_nat MAX_RECORDS) (drop (Z.to_nat (from - 1)) rs))))
    /\ l <> Panic.
Proof.
  intros Hok Hsm Hf. eexists. split; [done|]. unfold log_records.
  assert (forall rs, log_holds s ns rs -> match logs s !! ns with
    | Some L => Log.read_records (dir_of s ns) L from MAX_RECORDS | None => Err (NotFound ns) end
    = Ok (if (from =? 0) || (Z.of_nat (length rs) <? from) then []
          else numbered from (take (Z.to_nat MAX_RECORDS) (drop (Z.to_nat (from - 1)) rs)))) as Hw.
  { intros rs (L & d & HL & Hd & Hlog). rewrite HL. destruct (is_log_facts _ _ _ Hlog) as (Hs & _ & _).
    specialize (Hsm ns L HL).
    destruct ((from =? 0) || (Z.of_nat (length rs) <? from)) eqn:Eb.
    { unfold Log.read_records. rewrite Hs, Eb. done. }
    apply orb_false_iff in Eb as [E1%Z.eqb_neq E2%Z.ltb_ge].
    assert (dir_of s ns = d) as Ed by (unfold dir_of; by rewrite Hd). rewrite Ed.
    destruct Hlog as (ss & s0 & Hrep & <-).
    apply (read_records_rep _ _ _ _ from MAX_RECORDS Hrep); [lia|done|].
    unfold is_u64. unfold MAX_RECORDS in *. lia. }
  split; [exact Hw|]. destruct (logs s !! ns) as [L|] eqn:HL; [|done].
  destruct (ok_log s Hok ns L HL) as [_ [rs Hrs]]. by rewrite (Hw rs Hrs).
Qed.

Lemma pull_records_total s ns from : store_ok s -> small_logs s -> 0 <= from ->
  exists l, pull_records s ns from = Ok l.
Proof.
  intros Hok Hsm Hf. destruct (log_window s ns from Hok Hsm Hf) as (l & El & _ & Hl).
  unfold pull_records. rewrite El. destruct l; [eauto..|done].
Qed.

Lemma on_request_ok pid q r : runner_ok r -> event_safe r (Request pid q) ->
  wp (on_request e pid q) r (fun _ => runner_ok).
Proof.
  intros Hr (Hv & Hsm & Hq). unfold on_request. apply wp_self.
  destruct (inbound_access_total pid r Hv) as [a Ha]. apply wp_bind, (wp_lift _ a); [done|].
  destruct a, q; unfold serve_hello, serve_pull; wps; try rok.
  destruct (pull_records_total (store r) ns from_seq (ro_store r Hr) Hsm (proj1 Hq)) as [l Hl].
  apply wp_bind, (wp_lift _ l); [done|]. wps. rok.
Qed.

(** ** The budget of a round *)

(** Requests for records. *)
Definition is_pull (a : action) : bool :=
  match a with SendRequest _ (Pull _ _) => true | _ => false end.
Definition pulls_sent (r : Runner) : nat := length (filter (fun a => is_pull a = true) (out r)).

(** The chunk counters, and what a round may still pull with them. *)
Definition chunkmap (r : Runner) : gmap bytes Z := round_chunks <$> peer r.
Definition left_of (n : Z) : nat := Z.to_nat (MAX_CHUNKS_PER_TICK - 1 - n).
Definition budget (m : gmap bytes Z) : nat := map_fold (fun _ n acc => left_of n + acc)%nat 0%nat m.

Lemma budget_insert m k n : m !! k = None -> budget (<[k := n]> m) = (left_of n + budget m)%nat.
Proof.
  intros Hk. unfold budget.
  apply (map_fold_insert_L (fun (_ : bytes) n acc => (left_of n + acc)%nat)); [|done]. intros. lia.
Qed.

Lemma budget_update m k n n' : m !! k = Some n ->
  (budget (<[k := n']> m) + left_of n = budget m + left_of n')%nat.
Proof.
  intros Hk. rewrite <-(insert_delete_id m k n Hk) at 2. rewrite <-insert_delete_eq.
  rewrite !budget_insert by (done || apply lookup_delete_eq). lia.
Qed.

Lemma pulls_act r a : pulls_sent (act a r) = (pulls_sent r + if is_pull a then 1 else 0)%nat.
Proof.
  unfold pulls_sent. simpl. rewrite filter_app, length_app. f_equal.
  destruct (is_pull a) eqn:E; [rewrite filter_cons_True|rewrite filter_cons_False]; try done; by rewrite E.
Qed.

(** No pull is sent and no counter moves. *)
Definition calm (r r' : Runner) : Prop := chunkmap r' = chunkmap r /\ pulls_sent r' = pulls_sent r.
#[local] Instance calm_preorder : PreOrder calm.
Proof. split; [by intros r|]. intros r1 r2 r3 [C1 P1] [C2 P2]. split; congruence. Qed.

Lemma chunkmap_alter (m : gmap bytes PeerCtx) f name : (forall c, round_chunks (f c) = round_chunks c) ->
  round_chunks <$> alter f name m = round_chunks <$> m.
Proof.
  intros Hf. apply map_eq. intros n. rewrite !lookup_fmap.
  destruct (decide (n = name)) as [->|Hn]; [rewrite lookup_alter_eq|by rewrite lookup_alter_ne].
  destruct (m !! name); simpl; [by rewrite Hf|done].
Qed.

Lemma chunkmap_insert r name c : chunkmap (with_peers (<[name := c]> (peer r)) r)
  = <[name := round_chunks c]> (chunkmap r).
Proof. unfold chunkmap. simpl. apply fmap_insert. Qed.

Lemma chunkmap_same r name c c' : peer r !! name = Some c -> round_chunks c' = round_chunks c ->
  chunkmap (with_peers (<[name := c']> (peer r)) r) = chunkmap r.
Proof.
  intros Hc E. rewrite chunkmap_insert, E. apply insert_id. unfold chunkmap. by rewrite lookup_fmap, Hc.
Qed.

Ltac clm :=
  mv;
  match goal with
  | |- calm ?r (with_peers (alter _ _ _) ?r) => split; [by apply chunkmap_alter|done]
  | |- calm ?r (with_peers (<[_ := _]> _) ?r) => split; [by eapply chunkmap_same|done]
  | |- calm ?r (act _ ?r) => split; [done|rewrite pulls_act; simpl; lia]
  | |- calm _ _ => done
  | _ => idtac
  end.

Lemma send_hello_calm name pid : always calm (send_hello name pid).
Proof. unfold send_hello. clm. Qed.
Lemma persist_pin_calm name pk : always calm (persist_pin e name pk).
Proof. unfold persist_pin. clm. Qed.
Lemma reset_name_calm pid : always calm (reset_name e pid).
Proof. unfold reset_name. clm. Qed.
Lemma on_closed_calm pid : always calm (on_closed e pid).
Proof. unfold on_closed. clm. Qed.
Lemma on_established_calm pid d : always calm (on_established e pid d).
Proof. unfold on_established. clm; apply send_hello_calm. Qed.
Lemma on_dial_error_calm pid : always calm (on_dial_error e pid).
Proof.
  destruct pid; [apply reset_name_calm|]. intros r. split; [|done]. apply map_eq. intros n.
  unfold chunkmap. simpl. rewrite !lookup_fmap. destruct (peer r !! n) as [c|]; [|done]. simpl.
  unfold undial. by case_bool_decide.
Qed.

Lemma phase_set_calm name p r : calm r (phase_set name p r).1.
Proof. split; [by apply chunkmap_alter|done]. Qed.
Lemma on_request_calm pid q : always calm (on_request e pid q).
Proof. unfold on_request, serve_hello, serve_pull. clm. Qed.

(** At most one pull is sent, and no counter moves. *)
Definition asks (r r' : Runner) : Prop :=
  chunkmap r' = chunkmap r /\ (pulls_sent r' <= pulls_sent r + 1)%nat.
Lemma calm_asks r1 r2 r3 : calm r1 r2 -> asks r2 r3 -> asks r1 r3.
Proof. intros [C P] [A Q]. split; [congruence|lia]. Qed.
Lemma calm_is_asks r1 r2 : calm r1 r2 -> asks r1 r2.
Proof. intros [C P]. split; [done|lia]. Qed.

Lemma send_pull_asks name ns t r : asks r (send_pull name ns t r).1.
Proof.
  unfold send_pull, ctx_of, mbind, method_bind, self, lift, update.
  destruct (peer r !! name) as [c|] eqn:Hc; simpl; [|by apply calm_is_asks].
  destruct (c_pid c); simpl; [|by apply calm_is_asks].
  split; [by apply chunkmap_alter|]. unfold pulls_sent. simpl.
  rewrite filter_app, length_app. simpl. lia.
Qed.

Lemma hello_accepted_asks name h r : asks r (hello_accepted e name h r).1.
Proof.
  unfold hello_accepted, mbind, method_bind, self, lift, update. cbn [fst].
  destruct (median _) as [m|]; cbn -[send_pull phase_set omap]; [|by apply calm_is_asks].
  destruct (omap _ _) as [|[ns t] l]; cbn -[send_pull].
  { apply calm_is_asks. split; [by apply chunkmap_alter|done]. }
  eapply calm_asks; [|apply send_pull_asks]. done.
Qed.

Lemma on_hello_asks pid h r : asks r (on_hello e pid h r).1.
Proof.
  unfold on_hello, mbind, method_bind, self.
  destruct (name_for_pid e pid r) as [name|]; [|by apply calm_is_asks].
  destruct (pk_from_str (host_id h)) as [pk|?|]; [|apply calm_is_asks, phase_set_calm..].
  unfold ctx_of, mbind, method_bind, self, lift. destruct (peer r !! name) as [c|] eqn:Hc; [|by apply calm_is_asks].
  cbn [or_panic]. destruct (c_pin c) as [k|].
  { case_bool_decide; cbn [negb]; [apply hello_accepted_asks|apply calm_is_asks, phase_set_calm]. }
  unfold peer_id_of. destruct (vk_from_bytes pk); [|by apply calm_is_asks].
  case_bool_decide; cbn [negb]; [|apply calm_is_asks, phase_set_calm]. unfold update.
  match goal with |- context [persist_pin e name pk ?r0] =>
    pose proof (persist_pin_calm name pk r0) as Hc1;
    assert (calm r r0) as Hc0 by (split; [by apply chunkmap_alter|done]);
    destruct (persist_pin e name pk r0) as [r1 [[]|x|]] eqn:E1;
    unfold moves in Hc1; rewrite E1 in Hc1 end; cbn [fst] in *.
  2, 3: apply calm_is_asks; by etrans.
  eapply calm_asks; [by etrans|]. apply hello_accepted_asks.
Qed.

(** One chunk is accounted to a peer, and the next pull is sent only while it
    is under the cap. *)
Definition spends (r r' : Runner) : Prop :=
  exists k n, chunkmap r !! k = Some n /\ chunkmap r' = <[k := u64 (n + 1)]> (chunkmap r)
    /\ (pulls_sent r' <= pulls_sent r + if (u64 (n + 1) <? MAX_CHUNKS_PER_TICK)%Z then 1 else 0)%nat.
Lemma calm_spends r1 r2 r3 : calm r1 r2 -> calm r2 r3 \/ spends r2 r3 -> calm r1 r3 \/ spends r1 r3.
Proof.
  intros [C P] [Hc|(k & n & Hk & E & Hp)]; [left; etrans; [|exact Hc]; done|].
  right. exists k, n. rewrite <-C, <-P. done.
Qed.

Lemma records_applied_spends name ns t n q r :
  let r' := (records_applied name ns t n q r).1 in calm r r' \/ spends r r'.
Proof.
  cbv zeta. unfold records_applied. destruct (n =? 0); [left; split; [by apply chunkmap_alter|done]|].
  unfold ctx_of, mbind, method_bind, self, lift. destruct (peer r !! name) as [c|] eqn:Hc; [|by left].
  cbn [or_panic]. unfold update. right. exists name, (round_chunks c).
  split; [unfold chunkmap; by rewrite lookup_fmap, Hc|].
  set (m := u64 (round_chunks c + 1)). set (r1 := with_peers (<[name := ctx_chunks m c]> (peer r)) r).
  assert (chunkmap r1 = <[name := m]> (chunkmap r)) as E1 by apply chunkmap_insert.
  rewrite Z.leb_antisym. destruct (m <? MAX_CHUNKS_PER_TICK); cbn [negb].
  - assert (forall r2, calm r1 r2 -> forall ns t, let r' := (send_pull name ns t r2).1 in
      chunkmap r' = <[name := m]> (chunkmap r) /\ (pulls_sent r' <= pulls_sent r + 1)%nat) as Hs.
    { intros r2 Hr2 ns' t'. destruct (calm_asks r1 r2 _ Hr2 (send_pull_asks name ns' t' r2)) as [A B].
      split; [by rewrite A|done]. }
    destruct (q <? t); [by apply Hs|]. destruct (pending_pulls r1 !! name) as [[|[ns' t'] q']|];
      [|by apply Hs|]; (split; [etrans; [by apply chunkmap_alter|exact E1]|apply Nat.le_add_r]).
  - split; [etrans; [by apply chunkmap_alter|exact E1]|apply Nat.le_add_r].
Qed.

Lemma on_records_spends pid rs r :
  let r' := (on_records e pid rs r).1 in calm r r' \/ spends r r'.
Proof.
  cbv zeta. unfold on_records, mbind, method_bind, self.
  destruct (name_for_pid e pid r) as [name|]; [|by left].
  destruct (c_phase <$> peer r !! name) as [[| | |ns t| |]|]; try by left.
  destruct (negb _); [left; apply phase_set_calm|]. destruct (bool_decide _); [left; apply phase_set_calm|].
  destruct (decode_recs (recs rs)) as [b|?|]; [|by left; apply phase_set_calm|by left].
  destruct (verify_batch zero32 b) as [l|?|]; [|by left; apply phase_set_calm|by left].
  unfold apply_parsed, mbind, method_bind, self. cbn [fst].
  destruct (apply_synced_batch ns l (store r)) as [s [n|x|]]; cbn -[checkpoint records_applied phase_set];
    [|left; apply (phase_set_calm name Idle (with_store s r))|by left].
  destruct (change_tx r); cbn -[checkpoint records_applied];
    (eapply calm_spends; [|apply records_applied_spends]); [|done].
  split; [done|]. unfold pulls_sent. simpl. by rewrite filter_app, app_nil_r.
Qed.

End step.

(** What an input may add to the pulls sent and still to be sent. *)
Definition hello_cost (i : input) : nat :=
  match i with Event _ (Response _ (RespHello _)) => 1 | _ => 0 end.
Definition is_tick (i : input) : bool := match i with Event _ Tick => true | _ => false end.
Definition chunks_upto (B : Z) (r : Runner) : Prop :=
  forall k n, chunkmap r !! k = Some n -> 0 <= n <= B.

Lemma input_kind i r : is_tick i = false -> let r' := (input_step i r).1 in
  calm r r' \/ (asks r r' /\ hello_cost i = 1%nat) \/ spends r r'.
Proof.
  intros Hi. destruct i as [e ev|s c f]; cbn [input_step]; [|by left].
  destruct ev as [|pid d|pid|pid| |pid q|pid [h|rs|]|pid|pid]; cbn [handle]; try by left.
  - left. apply on_established_calm.
  - left. apply on_closed_calm.
  - left. apply on_dial_error_calm.
  - left. apply on_request_calm.
  - right. left. split; [apply on_hello_asks|done].
  - destruct (on_records_spends e pid rs r); auto.
  - left. apply reset_name_calm.
  - left. apply reset_name_calm.
Qed.

Lemma input_budget i r B : is_tick i = false -> chunks_upto B r -> 0 <= B < 2 ^ 64 - 1 ->
  let r' := (input_step i r).1 in
  (pulls_sent r' + budget (chunkmap r') <= pulls_sent r + budget (chunkmap r) + hello_cost i)%nat
  /\ chunks_upto (B + 1) r'.
Proof.
  intros Hi HB Hb. cbv zeta.
  assert (forall r', chunkmap r' = chunkmap r -> chunks_upto (B + 1) r') as Hsame.
  { intros r' E k n. rewrite E. intros Hk. apply HB in Hk. lia. }
  destruct (input_kind i r Hi) as [[C P]|[[[C P] Hc]|(k & n & Hk & C & P)]];
    [split; [rewrite C; lia|by apply Hsame]..|].
  pose proof (HB k n Hk) as Hn. rewrite u64_small in C, P by (unfold is_u64; lia).
  pose proof (budget_update _ k n (n + 1) Hk) as Hu. rewrite C. split.
  - unfold left_of, MAX_CHUNKS_PER_TICK in *. destruct (n + 1 <? 32) eqn:E; lia.
  - intros k' n'. rewrite C, lookup_insert_Some. intros [[_ <-]|[_ Hk']]; [lia|].
    apply HB in Hk'. lia.
Qed.

Lemma budget_bound m : (forall k n, m !! k = Some n -> 0 <= n) -> (budget m <= 31 * size m)%nat.
Proof.
  intros Hm. induction m as [|k n m Hk IH] using map_ind; [by vm_compute|].
  rewrite budget_insert, map_size_insert_None by done.
  assert (0 <= n) by (apply (Hm k); apply lookup_insert_eq).
  assert (budget m <= 31 * size m)%nat.
  { apply IH. intros k' n' Hk'. apply (Hm k'). rewrite lookup_insert_ne; [done|]. intros ->. congruence. }
  unfold left_of, MAX_CHUNKS_PER_TICK. lia.
Qed.

(** ** Properties *)

(** C25: no event makes the runner panic, and every event keeps its store
    well-formed and its pending dials those of peers it knows, as long as the
    keys it meets are points of the curve and the records it is sent do not
    end in the middle of a field; whatever else peers send, in whatever order,
    and whichever dials and writes fail. *)
Theorem step_total e ev r : env_ok e -> runner_ok r -> event_safe r ev ->
  exists r', handle e ev r = (r', Ok tt) /\ runner_ok r'.
Proof.
  intros He Hr Hs. assert (wp (handle e ev) r (fun _ => runner_ok)) as (r' & [] & E & Hr').
  { destruct ev as [|pid d|pid|pid| |pid q|pid [h|rs|]|pid|pid]; cbn [handle].
    - by apply kick_all_ok.
    - by apply on_established_ok.
    - by apply on_closed_ok.
    - by apply on_dial_error_ok.
    - by apply wp_ret.
    - by apply on_request_ok.
    - by apply on_hello_ok.
    - by apply on_records_ok.
    - by apply reset_name_ok.
    - by apply reset_name_ok.
    - by apply wp_ret. }
  by exists r'.
Qed.

(** C26: between two ticks, however many messages peers send and in whatever
    order, the runner asks for records at most once for each handshake and 31
    times more for each peer: pulls end by themselves. *)
Theorem pull_budget l r B :
  Forall (fun i => is_tick i = false) l -> chunks_upto B r -> 0 <= B -> B + Z.of_nat (length l) < 2 ^ 64 ->
  let r' := (for_each input_step l r).1 in
  (pulls_sent r' <= pulls_sent r + 31 * size (peer r) + sum_list (hello_cost <$> l))%nat.
Proof.
  intros Hl Hc HB0 HB. cbv zeta.
  assert (budget (chunkmap r) <= 31 * size (peer r))%nat as Hsz.
  { etrans; [apply budget_bound; intros k n Hk; apply Hc in Hk; lia|]. unfold chunkmap. by rewrite map_size_fmap. }
  cut (pulls_sent (for_each input_step l r).1
       <= pulls_sent r + budget (chunkmap r) + sum_list (hello_cost <$> l))%nat; [lia|]. clear Hsz.
  revert r B Hc HB0 HB. induction Hl as [|i l Hi Hl IH]; intros r B Hc HB0 HB; [cbn; lia|].
  cbn [length] in HB. destruct (input_budget i r B Hi Hc ltac:(lia)) as [Hle Hc'].
  cbn [for_each fmap list_fmap sum_list_with]. unfold mbind, method_bind.
  destruct (input_step i r) as [r1 [[]|x|]]; cbn [fst] in *; [|cbn; lia..].
  specialize (IH r1 (B + 1) Hc' ltac:(lia) ltac:(lia)). cbn. cbn in IH. lia.
Qed.

End net.

(** ** Witnesses *)

#[local] Existing Instance toy_sha256.
#[local] Existing Instance hex_plain.
#[local] Existing Instance toy_json.
#[local] Existing Instance toy_ed25519.
#[local] Existing Instance toy_config_text.
#[local] Existing Instance toy_libp2p.

Lemma demo_runner_ok : runner_ok demo_runner.
Proof.
  split; [apply demo_store_ok|]. intros key n. change (pending_dials demo_runner) with (∅ : gmap bytes bytes).
  by rewrite lookup_empty.
Qed.

Lemma step_total_witness :
  exists r', handle demo_env (Request demo_pid (Pull (bs "app") 1)) demo_runner = (r', Ok tt) /\ runner_ok r'.
Proof.
  apply (step_total demo_env (Request demo_pid (Pull (bs "app") 1)) demo_runner);
    [apply demo_env_ok|apply demo_runner_ok|].
  split_and!; [done| |split; [discriminate|reflexivity]].
  assert (map_Forall (fun _ L => Log.seq L + MAX_RECORDS < 2 ^ 64) (logs demo_store)) as Hm by vm_decide.
  exact Hm.
Defined.

Definition demo_inputs : list input :=
  [Event demo_env (Request demo_pid ReqHello); Event demo_env (ConnectionClosed demo_pid)].

Lemma pull_budget_witness : (pulls_sent (for_each input_step demo_inputs demo_runner).1 <= 0)%nat.
Proof.
  apply (pull_budget demo_inputs demo_runner 0); [by repeat constructor| |done|done].
  intros k n. change (chunkmap demo_runner) with (round_chunks <$> (∅ : gmap bytes PeerCtx)).
  by rewrite lookup_fmap, lookup_empty.
Defined.

End NetRun.
