(* ===== verification/NetLive.v ===== *)
(** Liveness of mesh sync: two runners connected by a reliable link.  A
    replica that only follows its peer receives every record of the peer's
    log, in finitely many rounds. *)

From S2P Require Import Prelude Moves Crc32 LogFormat Log LogSpec Base64 Utf8 Text StoreTypes Store StoreSpec StoreFrame SyncSpec Snapshot Merge Ident Config Net NetSpec NetRun.
Import LogFormat LogSpec Base64 Store StoreSpec StoreFrame SyncSpec Snapshot Merge Ident ConfigOps Net NetSpec NetRun.

Module NetLive.

Section net.
Context `{Sha256, HexCrate, SerdeJson, Ed25519, ConfigText, Libp2p}.

(** ** One window of the log *)

(** The log [rb] has the versions of the first records of [ra]. *)
Definition follows (rb ra : list bytes) : Prop :=
  (length rb <= length ra)%nat /\ versions_of rb = versions_of (take (length rb) ra).

(** No two records of the log carry the same version. *)
Definition distinct_versions (rs : list bytes) : Prop := NoDup (omap version_at rs).

Lemma verified_records prev w l : verified prev w l -> records_of w = l.
Proof.
  induction 1 as [|prev b rest r p l E Hv IH]; [done|].
  assert (record_at b = Some r) as Eb.
  { unfold record_at. destruct prev; [by rewrite (parse_chain_unchecked _ _ _ _ E)|by rewrite E]. }
  unfold records_of in *. cbn. by rewrite Eb, IH.
Qed.

Lemma records_versions w : version_key <$> records_of w = omap version_at w.
Proof.
  unfold records_of. induction w as [|b w IH]; [done|]. cbn. unfold record_at at 1, version_at at 1.
  destruct (parse_chain b None) as [[r ?]|?|]; cbn; by rewrite ?IH.
Qed.

Lemma verified_keys prev w l : verified prev w l -> version_key <$> l = omap version_at w.
Proof. intros Hv. by rewrite <-(verified_records _ _ _ Hv), records_versions. Qed.

(** A window of an intact log, read by a replica that has everything before
    it, verifies and applies completely. *)
Lemma window_applies s ns p rb ra m :
  store_ok s -> policies s !! ns = Some p -> log_holds s ns rb -> follows rb ra ->
  chain_ok zero32 ra -> distinct_versions ra -> reads_from ns p (ops_log (take (length rb) ra)) s ->
  let w := take m (drop (length rb) ra) in
  exists l s' rb', verify_batch zero32 (numbered (Z.of_nat (length rb) + 1) w) = Ok l
    /\ apply_synced_batch ns l s = (s', Ok (Z.of_nat (length w)))
    /\ store_ok s' /\ policies s' = policies s /\ log_holds s' ns rb'
    /\ length rb' = (length rb + length w)%nat /\ follows rb' ra
    /\ reads_from ns p (ops_log (take (length rb') ra)) s'.
Proof.
  intros Hok Hp Hlog [Hle Hfv] Hch Hd Hmem w.
  destruct (chain_verified _ None w (chain_ok_window zero32 ra (length rb) m Hch) ltac:(by left)) as [l Hl].
  set (recs := numbered (Z.of_nat (length rb) + 1) w).
  assert (verify_batch zero32 recs = Ok l) as Hv.
  { apply verify_loop_ok. exists l. subst recs. by rewrite numbered_snd. }
  destruct (verified_batch_run s ns p zero32 recs l Hok Hp Hv)
    as (s' & n & rs & rb' & Ea & Ee & Hwf & _ & Hn & Hok' & Hp' & Hlog0 & Hlog' & Hvs & Hln).
  assert (ra = take (length rb) ra ++ w ++ drop m (drop (length rb) ra)) as Era.
  { subst w. by rewrite take_drop, take_drop. }
  unfold distinct_versions in Hd. rewrite Era, !omap_app in Hd.
  apply NoDup_app in Hd as (_ & Hdis & Hd). apply NoDup_app in Hd as (Hdw & _ & _).
  assert (length l = length w) as Hlw by (by apply verified_length in Hl).
  destruct (synced_run s ns p rb l 0 Hok Hp Hlog Hwf) as (s2 & os & E2 & Hos & Hms).
  { by rewrite (verified_keys _ _ _ Hl). }
  { intros r Hr Hin. rewrite Hfv in Hin. unfold versions_of in Hin. apply elem_of_list_to_set in Hin.
    apply (Hdis _ Hin), elem_of_app. left. rewrite <-(verified_keys _ _ _ Hl). by apply list_elem_of_fmap_2. }
  rewrite Ee in E2. injection E2 as <- En.
  assert (length rs = length rb /\ versions_of rs = versions_of rb) as [Hrs Hrv].
  { split.
    - destruct Hlog as (L & d & HL & _ & Hi), Hlog0 as (L0 & d0 & HL0 & _ & Hi0). simplify_eq.
      apply is_log_facts in Hi as (S1 & _), Hi0 as (S2 & _). lia.
    - apply log_versions_ok in Hlog, Hlog0. congruence. }
  assert (length rb' = (length rb + length w)%nat) as Hlb by lia.
  assert (take (length rb + length w) ra = take (length rb) ra ++ w) as Etk.
  { rewrite Era at 1. rewrite app_assoc. apply take_app_length'. rewrite length_app, length_take. lia. }
  exists l, s', rb'. rewrite Ea. split_and!; try done; [by do 2 f_equal; lia|split|].
  - rewrite Hlb, Era at 1. rewrite !length_app, length_take. lia.
  - rewrite Hvs, Hrv, Hfv, Hlb, (verified_keys _ _ _ Hl), Etk.
    unfold versions_of. rewrite omap_app, list_to_set_app_L. apply union_comm_L.
  - destruct Hmem as (os0 & m0 & Ho0 & Hm0 & Hnone). exists (os0 ++ os), m0. split_and!; [| |done].
    + rewrite fmap_app, Ho0, Hos, Hlb, Etk, ops_log_app. unfold ops_log at 3. by rewrite (verified_records _ _ _ Hl).
    + by rewrite Hms, fold_left_app, Hm0.
Qed.

(** ** The served chunk *)

(** A record the code is willing to put into a response. *)
Definition fits (b : bytes) : Prop := (Z.of_nat (length b) + 2) / 3 * 4 <= MAX_SINGLE_RECORD_B64.

Definition encoded (sb : Z * bytes) : Rec := mkRec sb.1 (b64_encode sb.2).

(** The loop serves a prefix of the window, and all it starts with. *)
Lemma serve_loop_prefix l acc size : Forall (fun sb => fits sb.2) l ->
  exists k, serve_loop l acc size = Some (acc ++ map encoded (take k l)).
Proof.
  intros Hl. revert acc size. induction Hl as [|[q b] l Hb Hl IH]; intros acc size; cbn [serve_loop].
  { exists 0%nat. by rewrite app_nil_r. }
  rewrite (proj2 (Z.ltb_ge _ _)) by exact Hb.
  destruct (MAX_FRAME_BYTES <? Z.of_nat (length b)).
  { case_bool_decide as E; [exists 1%nat; by subst|exists 0%nat; by rewrite app_nil_r]. }
  destruct (_ || _); [exists 0%nat; by rewrite app_nil_r|].
  destruct (IH (acc ++ [mkRec q (b64_encode b)]) (size + Z.of_nat (length b))) as [k ->].
  exists (S k). by rewrite <-app_assoc.
Qed.

Lemma serve_loop_some l : Forall (fun sb => fits sb.2) l -> l <> [] ->
  exists k, (0 < k)%nat /\ serve_loop l [] 0 = Some (map encoded (take k l)).
Proof.
  intros Hl Hne. destruct Hl as [|[q b] l Hb Hl]; [done|]. cbn [serve_loop].
  rewrite (proj2 (Z.ltb_ge _ _)) by exact Hb.
  destruct (MAX_FRAME_BYTES <? Z.of_nat (length b)) eqn:Ef; [exists 1%nat; by split; [lia|]|].
  apply Z.ltb_ge in Ef. rewrite (proj2 (orb_false_iff _ _)) by (split; [done|apply Z.ltb_ge; lia]).
  destruct (serve_loop_prefix l ([] ++ [mkRec q (b64_encode b)]) (0 + Z.of_nat (length b)) Hl) as [k ->].
  exists (S k). split; [lia|done].
Qed.

Lemma decode_encoded l : decode_recs (map encoded l) = Ok l.
Proof.
  induction l as [|[q b] l IH]; [done|]. cbn [map decode_recs encoded payload_b64 rec_seq fst snd].
  pose proof (decode_encode B64 good_alpha_B64 b 0 ltac:(lia)) as E. cbn [replicate] in E.
  rewrite app_nil_r in E. unfold b64_decode, b64_encode. rewrite E. cbn [mbind outcome_bind].
  by rewrite IH.
Qed.

Lemma take_numbered k from w : take k (numbered from w) = numbered from (take k w).
Proof.
  revert k from. induction w as [|b w IH]; intros [|k] from; try done.
  rewrite numbered_cons. cbn [take]. rewrite numbered_cons. f_equal. apply IH.
Qed.

Lemma pull_served s ns ra j : store_ok s -> small_logs s -> log_holds s ns ra -> Forall fits ra ->
  (j < length ra)%nat ->
  exists m, (0 < length (take m (drop j ra)))%nat
    /\ pull_records s ns (Z.of_nat j + 1)
       = Ok (map encoded (numbered (Z.of_nat j + 1) (take m (drop j ra)))).
Proof.
  intros Hok Hsm Hlog Hfit Hj. destruct (log_window s ns (Z.of_nat j + 1) Hok Hsm ltac:(lia)) as (l & El & Hl & _).
  rewrite (Hl ra Hlog) in El. clear Hl.
  rewrite (proj2 (orb_false_iff _ _)) in El by (split; [apply Z.eqb_neq|apply Z.ltb_ge]; lia).
  rewrite Z.add_simpl_r, Nat2Z.id in El.
  set (w := take (Z.to_nat MAX_RECORDS) (drop j ra)) in El.
  assert (0 < length w)%nat as Hw by (unfold w, MAX_RECORDS; rewrite length_take, length_drop; lia).
  destruct (serve_loop_some (numbered (Z.of_nat j + 1) w)) as (k & Hk & Es).
  { apply Forall_forall. intros [q b] Hin. simpl. apply (list_elem_of_fmap_2 snd) in Hin.
    rewrite numbered_snd in Hin. simpl in Hin. assert (Forall fits w) as Hfw by (by apply Forall_take, Forall_drop).
    rewrite Forall_forall in Hfw. by apply Hfw. }
  { intros E. apply (f_equal (fmap snd)) in E. rewrite numbered_snd in E. rewrite E in Hw; simpl in Hw; lia. }
  exists (k `min` Z.to_nat MAX_RECORDS)%nat. rewrite <-take_take. fold w.
  split; [rewrite length_take; lia|]. unfold pull_records. rewrite El, Es. simpl.
  by rewrite take_numbered.
Qed.

(** ** Two runners on a reliable link *)

Definition requests_to (pid : bytes) (l : list action) : list SyncRequest :=
  omap (fun a => match a with
    | SendRequest p q => if bool_decide (p = pid) then Some q else None
    | _ => None
    end) l.
Definition new_actions (r r' : Runner) : list action := drop (length (out r)) (out r').

Lemma new_actions_app r r' l : out r' = out r ++ l -> new_actions r r' = l.
Proof. unfold new_actions. intros ->. apply drop_app_length. Qed.

Section link.
(** The leader [kA] serves from its environment [eA], the replica [kB] pulls
    from it as its only peer [pr]. *)
Context (eA eB : env) (HeA : env_ok eA) (HeB : env_ok eB).
Context (kA kB : Keypair) (ns : bytes) (pol : ConflictPolicy) (pr : Peer).
Let pidA : bytes := peer_id (public kA).
Let pidB : bytes := peer_id (public kB).
Let name : bytes := peer_name pr.

(** Delivers the replica's requests in order, each answered at once. *)
Fixpoint converse (fuel : nat) (ra rb : Runner) (q : list SyncRequest) : Runner * Runner :=
  match fuel, q with
  | S fuel, req :: q =>
      let ra' := (handle eA (Request pidB req) ra).1 in
      match new_actions ra ra' with
      | SendResponse _ resp :: _ =>
          let rb' := (handle eB (Response pidA resp) rb).1 in
          converse fuel ra' rb' (q ++ requests_to pidA (new_actions rb rb'))
      | _ => converse fuel ra' rb q
      end
  | _, _ => (ra, rb)
  end.

(** A tick of the replica and the exchange it starts; 34 deliveries are one
    hello, a chunk for each unit of the budget, and one to spare. *)
Definition sync_round (rr : Runner * Runner) : Runner * Runner :=
  let '(ra, rb) := rr in
  let rb' := (handle eB Tick rb).1 in
  converse 34 ra rb' (requests_to pidA (new_actions rb rb')).

(** The leader: one namespace with the log [la], the replica pinned. *)
Record leader (la : list bytes) (r : Runner) : Prop := {
  ld_kp : kp r = kA;
  ld_store : store_ok (store r);
  ld_ns : exists p, policies (store r) = {[ns := p]};
  ld_log : log_holds (store r) ns la;
  ld_small : small_logs (store r);
  ld_pinned : pinned_peer (cfg r) pidB;
  ld_pins : pins_valid (cfg r);
}.

(** The replica, with the context [c] of its peer and the log [lb], which its
    entries are derived from. *)
Record replica (la lb : list bytes) (c : PeerCtx) (r : Runner) : Prop := {
  rp_ok : runner_ok r;
  rp_peer : peer r = {[name := c]};
  rp_pid : c_pid c = Some pidA;
  rp_pin : c_pin c = Some (public kA);
  rp_cfg : peers (cfg r) = [pr];
  rp_policy : policies (store r) !! ns = Some pol;
  rp_log : log_holds (store r) ns lb;
  rp_follows : follows lb la;
  rp_mem : reads_from ns pol (ops_log (take (length lb) la)) (store r);
}.

Context (Haddr : is_Some (multiaddr (addr pr))).
Context (Hallow : forall l, peer_namespaces pr = Some l -> ns ∈ l).
Context (Hconn : is_connected eB pidA = true).

Lemma act_out a r : new_actions r (act a r) = [a].
Proof. by apply new_actions_app. Qed.

Lemma leader_act la a r : leader la r -> leader la (act a r).
Proof. intros []. by constructor. Qed.

(** The leader answers every request of the replica. *)
Lemma leader_full la r : leader la r -> exists n, inbound_access eA pidB r = Ok (Full n).
Proof.
  intros Hl. destruct (inbound_access_total eA pidB r (ld_pins _ _ Hl)) as [a Ha].
  pose proof (inbound_access_sound eA pidB r a HeA Ha) as Hs. pose proof (ld_pinned _ _ Hl) as Hp.
  destruct a; [done|by destruct Hs|eauto].
Qed.

Lemma leader_hello la r : leader la r ->
  handle eA (Request pidB ReqHello) r
  = (act (SendResponse pidB (RespHello (hello_response eA r))) r, Ok tt).
Proof.
  intros Hl. destruct (leader_full la r Hl) as [n Hn]. cbn [handle].
  unfold on_request, mbind, method_bind, self, lift. by rewrite Hn.
Qed.

Lemma leader_pull la r from l : leader la r -> pull_records (store r) ns from = Ok l ->
  handle eA (Request pidB (Pull ns from)) r
  = (act (SendResponse pidB (RespRecords (mkRecords ns l))) r, Ok tt).
Proof.
  intros Hl Hp. destruct (leader_full la r Hl) as [n Hn]. cbn [handle].
  unfold on_request, mbind, method_bind, self, lift. rewrite Hn.
  unfold serve_pull, mbind, method_bind, self, lift. by rewrite Hp.
Qed.

Lemma find_name la lb c r : replica la lb c r -> name_for_pid eB pidA r = Some name.
Proof.
  intros Hr. unfold name_for_pid. rewrite (rp_peer _ _ _ _ Hr).
  pose proof (HeB {[name := c]}) as Hp. rewrite map_to_list_singleton in Hp.
  apply Permutation_singleton_r in Hp as ->. cbn [find_walk].
  by rewrite bool_decide_eq_true_2 by apply Hr.
Qed.

Lemma log_head s lb : log_holds s ns lb -> exists h, head s ns = Some (Z.of_nat (length lb), h).
Proof.
  intros (L & d & HL & _ & Hi). apply is_log_facts in Hi as (Hs & _). unfold head. rewrite HL. simpl.
  rewrite Hs. eauto.
Qed.

Lemma checkpoint_log s lb : log_holds s ns lb -> log_holds (checkpoint s) ns lb.
Proof. intros (L & d & ? & ? & ?). by exists L, d. Qed.

Lemma replica_update la lb c c' r r' : replica la lb c r -> store r' = store r -> cfg r' = cfg r ->
  pending_dials r' = pending_dials r -> peer r' = {[name := c']} -> c_pid c' = c_pid c -> c_pin c' = c_pin c ->
  replica la lb c' r'.
Proof.
  intros [Hok Hpe Hpid Hpin Hcfg Hpol Hlog Hf Hm] Es Ec Ed Ep E1 E2.
  constructor; rewrite ?Es, ?Ec, ?E1, ?E2; try done.
  split; [rewrite Es; apply Hok|]. intros k n. rewrite Ed. intros Hk. apply Hok in Hk.
  rewrite Hpe in Hk. destruct (decide (n = name)) as [->|Hn]; [rewrite Ep, lookup_singleton_eq; eauto|].
  rewrite lookup_singleton_ne in Hk by done. by destruct Hk.
Qed.

(** What a step of the replica leads to: a further pull, or the end of the
    round. *)
Definition pulling (lb : list bytes) (target chunks : Z) (c : PeerCtx) (r : Runner) (q : list SyncRequest)
    : Prop :=
  c_phase c = Pulling ns target /\ round_chunks c = chunks /\ chunks < MAX_CHUNKS_PER_TICK
  /\ Z.of_nat (length lb) < target /\ pending_pulls r !! name = Some []
  /\ q = [Pull ns (Z.of_nat (length lb) + 1)].
Definition rested (c : PeerCtx) (q : list SyncRequest) : Prop := in_flight (c_phase c) = false /\ q = [].

Lemma alter_singleton_ctx f (c : PeerCtx) : alter f name {[name := c]} = ({[name := f c]} : gmap bytes PeerCtx).
Proof. rewrite alter_singleton. by rewrite decide_True. Qed.

Lemma requests_pull q : requests_to pidA [SendRequest pidA q] = [q].
Proof. unfold requests_to. simpl. by rewrite bool_decide_eq_true_2. Qed.

(** A pull asks for the record after the last one the replica has. *)
Lemma replica_send_pull la lb c r target : replica la lb c r -> Z.of_nat (length lb) + 1 < 2 ^ 64 ->
  exists r', send_pull name ns target r = (r', Ok tt)
    /\ replica la lb (ctx_phase (Pulling ns target) c) r'
    /\ out r' = out r ++ [SendRequest pidA (Pull ns (Z.of_nat (length lb) + 1))]
    /\ pending_pulls r' = pending_pulls r.
Proof.
  intros Hr Hlt. destruct (log_head _ _ (rp_log _ _ _ _ Hr)) as [h Hh].
  assert (peer r !! name = Some c) as Hc by (rewrite (rp_peer _ _ _ _ Hr); apply lookup_singleton_eq).
  eexists. split.
  { unfold send_pull, ctx_of, mbind, method_bind, self, lift, phase_set, update. rewrite Hc. cbn [or_panic].
    rewrite (rp_pid _ _ _ _ Hr). cbn [or_panic]. rewrite Hh, u64_small by (unfold is_u64; lia). done. }
  split_and!; [|done..]. eapply replica_update; [exact Hr|done..| |done|done].
  simpl. rewrite (rp_peer _ _ _ _ Hr). apply alter_singleton_ctx.
Qed.

Lemma replica_continue la lb c r target n :
  replica la lb c r -> c_phase c = Pulling ns target -> 0 <= round_chunks c < MAX_CHUNKS_PER_TICK ->
  pending_pulls r !! name = Some [] -> 0 < n -> Z.of_nat (length lb) + 1 < 2 ^ 64 ->
  exists c' r' l, records_applied name ns target n (Z.of_nat (length lb)) r = (r', Ok tt)
    /\ replica la lb c' r' /\ out r' = out r ++ l
    /\ (pulling lb target (round_chunks c + 1) c' r' (requests_to pidA l)
        \/ rested c' (requests_to pidA l)).
Proof.
  intros Hr Hph Hch Hpp Hn Hlt.
  assert (peer r !! name = Some c) as Hc by (rewrite (rp_peer _ _ _ _ Hr); apply lookup_singleton_eq).
  unfold MAX_CHUNKS_PER_TICK in Hch.
  set (c1 := ctx_chunks (round_chunks c + 1) c).
  set (r1 := with_peers (<[name := c1]> (peer r)) r).
  assert (replica la lb c1 r1) as Hr1.
  { eapply replica_update; [exact Hr|done..| |done|done]. simpl. rewrite (rp_peer _ _ _ _ Hr). apply insert_singleton_eq. }
  assert (forall p, replica la lb (ctx_phase p c1) (phase_set name p r1).1) as Hph1.
  { intros p. eapply replica_update; [exact Hr1|done..| |done|done]. simpl.
    rewrite (rp_peer _ _ _ _ Hr), insert_singleton_eq. apply alter_singleton_ctx. }
  assert (records_applied name ns target n (Z.of_nat (length lb)) r
    = (if MAX_CHUNKS_PER_TICK <=? round_chunks c + 1 then phase_set name Done r1
       else if Z.of_nat (length lb) <? target then send_pull name ns target r1
       else phase_set name Done (with_pulls (base.delete name (pending_pulls r1)) r1))) as E.
  { unfold records_applied. rewrite (proj2 (Z.eqb_neq n 0)) by lia.
    unfold ctx_of, mbind, method_bind, self, lift. rewrite Hc. cbn [or_panic].
    rewrite u64_small by (unfold is_u64; lia). cbn [update]. fold c1 r1.
    destruct (_ <=? _); [done|]. destruct (_ <? _); [done|]. change (pending_pulls r1) with (pending_pulls r). by rewrite Hpp. }
  rewrite E. clear E. unfold MAX_CHUNKS_PER_TICK at 1. destruct (32 <=? round_chunks c + 1) eqn:E1.
  { exists (ctx_phase Done c1), (phase_set name Done r1).1, []. rewrite app_nil_r.
    split_and!; [done|apply Hph1|done|by right]. }
  apply Z.leb_gt in E1. destruct (Z.of_nat (length lb) <? target) eqn:E2.
  - apply Z.ltb_lt in E2. destruct (replica_send_pull la lb c1 r1 target Hr1 Hlt) as (r' & Es & Hr' & Ho & Hp').
    exists (ctx_phase (Pulling ns target) c1), r', [SendRequest pidA (Pull ns (Z.of_nat (length lb) + 1))].
    split_and!; try done. left. split_and!; try done; [by rewrite Hp'|apply requests_pull].
  - eexists (ctx_phase Done c1), _, []. rewrite app_nil_r. split_and!; [reflexivity| |done|by right].
    eapply replica_update; [exact Hr1|done..| |done|done]. simpl.
    rewrite (rp_peer _ _ _ _ Hr), insert_singleton_eq. apply alter_singleton_ctx.
Qed.

(** The configuration lets the leader contribute to the namespace. *)
Lemma replica_allowed la lb c r : replica la lb c r -> allowed r name ns <> Some false.
Proof.
  intros Hr. unfold allowed, ConfigOps.peer. rewrite (rp_cfg _ _ _ _ Hr). cbn [find_peer].
  rewrite bool_decide_eq_true_2 by done. destruct (peer_namespaces pr) as [l|] eqn:El; [|done].
  cbn. rewrite bool_decide_eq_true_2 by (by apply Hallow). done.
Qed.

Lemma replica_store la lb lb' c r s : replica la lb c r -> store_ok s -> policies s = policies (store r) ->
  log_holds s ns lb' -> follows lb' la -> reads_from ns pol (ops_log (take (length lb') la)) s ->
  replica la lb' c (with_store s r).
Proof.
  intros [Hok Hpe Hpid Hpin Hcfg Hpol Hlog Hf Hm] Hs Hp Hl Hf' Hm'. constructor; try done.
  - by apply runner_ok_store.
  - simpl. by rewrite Hp.
Qed.

Lemma out_app_requests r1 r2 r3 l1 l2 : out r2 = out r1 ++ l1 -> out r3 = out r2 ++ l2 ->
  requests_to pidA l1 = [] -> requests_to pidA (new_actions r1 r3) = requests_to pidA l2.
Proof.
  intros E1 E2 E0. rewrite E1, <-app_assoc in E2. rewrite (new_actions_app _ _ _ E2).
  unfold requests_to in *. by rewrite omap_app, E0.
Qed.

(** The replica applies a whole chunk of the leader's log. *)
Lemma replica_records la lb c r target m :
  let w := take m (drop (length lb) la) in
  replica la lb c r -> chain_ok zero32 la -> distinct_versions la ->
  c_phase c = Pulling ns target -> 0 <= round_chunks c < MAX_CHUNKS_PER_TICK ->
  pending_pulls r !! name = Some [] -> (0 < length w)%nat -> Z.of_nat (length la) + 1 < 2 ^ 64 ->
  exists lb' c' r', handle eB (Response pidA (RespRecords
      (mkRecords ns (map encoded (numbered (Z.of_nat (length lb) + 1) w))))) r = (r', Ok tt)
    /\ replica la lb' c' r' /\ (length lb < length lb')%nat
    /\ (pulling lb' target (round_chunks c + 1) c' r' (requests_to pidA (new_actions r r'))
        \/ rested c' (requests_to pidA (new_actions r r'))).
Proof.
  intros w Hr Hch Hd Hph Hck Hpp Hw Hlt. pose proof (rp_policy _ _ _ _ Hr) as Hp.
  destruct (window_applies (store r) ns pol lb la m (ro_store r (rp_ok _ _ _ _ Hr)) Hp (rp_log _ _ _ _ Hr)
    (rp_follows _ _ _ _ Hr) Hch Hd (rp_mem _ _ _ _ Hr)) as (l & s' & lb' & Hv & Ha & Hok' & Hp' & Hlog' & Hlen & Hf' & Hm').
  fold w in Hv, Ha, Hlen. assert (length lb' <= length la)%nat as Hle by apply Hf'.
  cbn [handle]. unfold on_records, mbind, method_bind, self.
  rewrite (find_name _ _ _ _ Hr), (rp_peer _ _ _ _ Hr), lookup_singleton_eq. simpl. rewrite Hph.
  rewrite bool_decide_eq_true_2 by done. simpl.
  rewrite bool_decide_eq_false_2 by (by eapply replica_allowed).
  rewrite decode_encoded, Hv. unfold apply_parsed, mbind, method_bind, self. rewrite Ha. cbn [update].
  set (total := u64 _). set (s2 := if _ && _ then _ else _).
  assert (store_ok s2 /\ policies s2 = policies (store r) /\ log_holds s2 ns lb' /\ mem_of s2 = mem_of s')
    as (Hs2 & Hp2 & Hl2 & Hm2).
  { subst s2. destruct (_ && _); [|done]. split_and!; [by apply checkpoint_ok|done|by apply checkpoint_log|done]. }
  destruct (log_head _ _ Hl2) as [h Hh]. rewrite Hh. cbn [from_option fst].
  set (r1 := with_store s2 (with_applied total (with_store s' r))).
  assert (replica la lb' c r1) as Hr1.
  { pose proof (replica_store la lb lb' c r s2 Hr Hs2 Hp2 Hl2 Hf' (reads_from_mem _ _ _ _ _ Hm2 Hm')) as Hr2.
    eapply replica_update; [exact Hr2|done..| |done|done]. apply Hr2. }
  assert (exists r2 l1,
    ((if change_tx r then update (act (Changed ns)) else mret tt) : net_m unit) r1 = (r2, Ok tt)
    /\ replica la lb' c r2 /\ out r2 = out r ++ l1 /\ requests_to pidA l1 = []
    /\ pending_pulls r2 = pending_pulls r) as (r2 & l1 & E2 & Hr2 & Ho2 & Hq2 & Hpp2).
  { destruct (change_tx r).
    - exists (act (Changed ns) r1), [Changed ns]. split_and!; try done.
      eapply replica_update; [exact Hr1|done..| |done|done]. apply Hr1.
    - exists r1, []. split_and!; try done. by rewrite app_nil_r. }
  rewrite E2. destruct (replica_continue la lb' c r2 target (Z.of_nat (length w)) Hr2 Hph Hck)
    as (c' & r' & l2 & E3 & Hr' & Ho' & Hq'); [by rewrite Hpp2|lia|lia|].
  exists lb', c', r'. rewrite (out_app_requests r r2 r' l1 l2) by done.
  split_and!; try done. lia.
Qed.

Lemma leader_heads la r : leader la r ->
  exists h, hello_namespaces (hello_response eA r) = [mkNsHead ns (Z.of_nat (length la)) h].
Proof.
  intros Hl. destruct (ld_ns _ _ Hl) as [p Hp]. destruct (ld_log _ _ Hl) as (L & d & HL & _ & Hi).
  apply is_log_facts in Hi as (Hs & _). simpl. unfold namespaces_with_head, btree_iter. rewrite Hp, map_to_list_singleton.
  simpl. rewrite HL. simpl. rewrite Hs. eauto.
Qed.

(** A handshake with the leader starts a pull exactly when the replica is
    behind. *)
Lemma replica_hello la lb c r ra :
  leader la ra -> replica la lb c r -> round_chunks c = 0 -> Z.of_nat (length la) + 64000 < 2 ^ 64 ->
  exists c' r', handle eB (Response pidA (RespHello (hello_response eA ra))) r = (r', Ok tt)
    /\ replica la lb c' r'
    /\ (if decide (length lb < length la)%nat
        then exists target, target <= Z.of_nat (length la)
             /\ pulling lb target 0 c' r' (requests_to pidA (new_actions r r'))
        else rested c' (requests_to pidA (new_actions r r'))).
Proof.
  intros Hl Hr Hc0 Hlt. destruct (leader_heads _ _ Hl) as [hh Hns].
  assert (length lb <= length la)%nat as Hle by apply (rp_follows _ _ _ _ Hr).
  assert (peer r !! name = Some c) as Hc by (rewrite (rp_peer _ _ _ _ Hr); apply lookup_singleton_eq).
  assert (handle eB (Response pidA (RespHello (hello_response eA ra))) r
    = hello_accepted eB name (hello_response eA ra) r) as E.
  { cbn [handle]. unfold on_hello, mbind at 1, method_bind at 1, self at 1. rewrite (find_name _ _ _ _ Hr).
    cbn [host_id hello_response]. rewrite (ld_kp _ _ Hl), pk_roundtrip by apply length_public.
    unfold ctx_of, mbind, method_bind, self, lift. rewrite Hc. cbn [or_panic]. rewrite (rp_pin _ _ _ _ Hr).
    by rewrite bool_decide_eq_true_2. }
  rewrite E. clear E. unfold hello_accepted, mbind, method_bind, self, lift, update at 1.
  set (x := i64 _). destruct (median_some (default [] (skew r !! name)) x) as [m Hm].
  rewrite Hm. cbn [or_panic update]. set (r1 := with_store _ (with_skew _ r)).
  assert (replica la lb c r1) as Hr1.
  { assert (replica la lb c (with_store (set_peer_clock name m (store r)) r)) as Hr0.
    { apply (replica_store la lb lb); try done; [apply clock_ok, Hr|apply Hr|apply Hr|apply Hr]. }
    eapply replica_update; [exact Hr0|done..| |done|done]. apply Hr. }
  pose proof (rp_policy _ _ _ _ Hr1) as Hp. destruct (log_head _ _ (rp_log _ _ _ _ Hr1)) as [h Hh].
  rewrite Hns. cbn [omap list_omap]. unfold pull_of at 1. cbn [nh_ns nh_seq]. unfold policy. rewrite Hp, Hh.
  unfold MAX_RECORDS, MAX_CHUNKS_PER_TICK. rewrite u64_small by (unfold is_u64; lia).
  destruct (decide (length lb < length la)%nat) as [Hb|Hb].
  - rewrite (proj2 (Z.ltb_lt _ _)) by lia. cbv zeta.
    set (target := Z.min _ _). assert (Z.of_nat (length lb) < target) as Ht by lia.
    rewrite (proj2 (Z.ltb_lt _ _)) by done.
    set (r2 := with_pulls (<[name := []]> (pending_pulls r1)) r1).
    assert (replica la lb c r2) as Hr2 by (eapply replica_update; [exact Hr1|done..| |done|done]; apply Hr1).
    destruct (replica_send_pull la lb c r2 target Hr2) as (r' & Es & Hr' & Ho & Hpp); [lia|].
    exists (ctx_phase (Pulling ns target) c), r'. split_and!; [done|done|]. exists target.
    split; [subst target; lia|]. rewrite (new_actions_app r r' _ Ho). split_and!; try done; [by rewrite Hpp; apply lookup_insert_eq|apply requests_pull].
  - rewrite (proj2 (Z.ltb_ge _ _)) by lia. cbv zeta. eexists (ctx_phase Done c), _. split; [reflexivity|].
    split; [|split; [done|by rewrite (new_actions_app r _ []) by (by rewrite app_nil_r)]].
    eapply replica_update; [exact Hr1|done..| |done|done]. simpl. rewrite (rp_peer _ _ _ _ Hr).
    apply alter_singleton_ctx.
Qed.

(** A tick of an idle replica that is connected sends a hello. *)
Lemma replica_tick la lb c r : replica la lb c r -> in_flight (c_phase c) = false ->
  exists c' r', handle eB Tick r = (r', Ok tt) /\ replica la lb c' r' /\ round_chunks c' = 0
    /\ requests_to pidA (new_actions r r') = [ReqHello].
Proof.
  intros Hr Hfl. destruct Haddr as [a Ha].
  set (c' := ctx_phase AwaitingHello (ctx_phase Idle (ctx_chunks 0 (ctx_addr a c)))).
  set (r' := with_peers {[name := c']} (act (SendRequest pidA ReqHello) (with_applied 0 r))).
  assert (handle eB Tick r = (r', Ok tt)) as E.
  { cbn [handle]. unfold kick_all, mbind, method_bind, self, update. cbn [cfg with_applied].
    rewrite (rp_cfg _ _ _ _ Hr). cbn [for_each]. unfold mbind at 1, method_bind at 1.
    unfold kick_one. rewrite Ha. fold name. unfold mbind, method_bind, self, phase_set, update, kick.
    cbn [peer with_applied]. rewrite (rp_peer _ _ _ _ Hr), lookup_singleton_eq, Hfl.
    unfold mbind, method_bind, self, ctx_of, lift. cbn [peer with_peers with_applied].
    rewrite (rp_peer _ _ _ _ Hr), insert_singleton_eq, alter_singleton_ctx, lookup_singleton_eq.
    cbn [from_option c_phase ctx_phase in_flight]. unfold mbind, method_bind, self, lift.
    cbn [peer with_peers]. rewrite lookup_singleton_eq. cbn [or_panic c_pid ctx_phase ctx_chunks ctx_addr].
    rewrite (rp_pid _ _ _ _ Hr), Hconn. cbn [negb].
    unfold send_hello, mbind, method_bind, phase_set, update. cbn [peer act with_peers].
    rewrite alter_singleton_ctx. done. }
  exists c', r'. split_and!; try done.
  - eapply replica_update; [exact Hr|done..].
  - rewrite (new_actions_app r r' [SendRequest pidA ReqHello]) by done. apply requests_pull.
Qed.

(** The pulls of a round: the budget bounds them and each brings records. *)
Lemma converse_pulls la fuel : chain_ok zero32 la -> distinct_versions la -> Forall fits la ->
  Z.of_nat (length la) + 64000 < 2 ^ 64 ->
  forall lb c ra rb target k q, leader la ra -> replica la lb c rb ->
  pulling lb target k c rb q -> target <= Z.of_nat (length la) -> 0 <= k ->
  MAX_CHUNKS_PER_TICK - k <= Z.of_nat fuel ->
  exists lb' c' ra' rb', converse fuel ra rb q = (ra', rb') /\ leader la ra' /\ replica la lb' c' rb'
    /\ in_flight (c_phase c') = false /\ (length lb < length lb')%nat.
Proof.
  intros Hch Hd Hfit Hlt. induction fuel as [|fuel IH];
    intros lb c ra rb target k q Hl Hr (Hph & Hk & Hk32 & Ht & Hpp & ->) Hta Hk0 Hf; [lia|].
  destruct (pull_served (store ra) ns la (length lb) (ld_store _ _ Hl) (ld_small _ _ Hl) (ld_log _ _ Hl) Hfit)
    as (m & Hm & Ep); [lia|].
  destruct (replica_records la lb c rb target m Hr Hch Hd Hph) as (lb' & c' & rb' & Eb & Hr' & Hlen & Hq);
    [lia|done|done|lia|].
  cbn [converse]. rewrite (leader_pull la ra _ _ Hl Ep). cbn [fst]. rewrite act_out, Eb. cbn [fst app].
  pose proof (leader_act la (SendResponse pidB (RespRecords (mkRecords ns
    (map encoded (numbered (Z.of_nat (length lb) + 1) (take m (drop (length lb) la))))))) ra Hl) as Hl'.
  destruct Hq as [Hq|[Hq ->]].
  - destruct (IH lb' c' _ rb' target (round_chunks c + 1) _ Hl' Hr' Hq)
      as (lb2 & c2 & ra2 & rb2 & E2 & Hl2 & Hr2 & Hf2 & Hlen2); [lia..|].
    exists lb2, c2, ra2, rb2. split_and!; try done. lia.
  - exists lb', c', (act (SendResponse pidB (RespRecords (mkRecords ns
      (map encoded (numbered (Z.of_nat (length lb) + 1) (take m (drop (length lb) la))))))) ra), rb'.
    split_and!; try done. by destruct fuel.
Qed.

(** A handshake and the pulls it starts. *)
Lemma converse_hello la lb c ra rb fuel :
  distinct_versions la -> Forall fits la -> Z.of_nat (length la) + 64000 < 2 ^ 64 ->
  leader la ra -> replica la lb c rb -> round_chunks c = 0 -> MAX_CHUNKS_PER_TICK <= Z.of_nat fuel ->
  exists lb' c' ra' rb', converse (S fuel) ra rb [ReqHello] = (ra', rb') /\ leader la ra'
    /\ replica la lb' c' rb' /\ in_flight (c_phase c') = false
    /\ (if decide (length lb < length la)%nat then length lb < length lb' else length lb = length lb')%nat.
Proof.
  intros Hd Hfit Hlt Hl Hr Hc Hf. assert (chain_ok zero32 la) as Hch.
  { destruct (ld_log _ _ Hl) as (L & d & _ & _ & Hi). apply (is_log_facts _ _ _ Hi). }
  destruct (replica_hello la lb c rb ra Hl Hr Hc Hlt) as (c2 & rb2 & E2 & Hr2 & Hq2).
  cbn [converse]. rewrite (leader_hello la ra Hl). cbn [fst]. rewrite act_out, E2. cbn [fst app].
  pose proof (leader_act la (SendResponse pidB (RespHello (hello_response eA ra))) ra Hl) as Hl2.
  destruct (decide (length lb < length la)%nat) as [Hb|Hb].
  - destruct Hq2 as (target & Hta & Hq2).
    destruct (converse_pulls la fuel Hch Hd Hfit Hlt lb c2 _ rb2 target 0 _ Hl2 Hr2 Hq2)
      as (lb3 & c3 & ra3 & rb3 & E3 & Hl3 & Hr3 & Hf3 & Hlen3); [lia..|].
    by exists lb3, c3, ra3, rb3.
  - destruct Hq2 as [Hf2 ->]. exists lb, c2, (act (SendResponse pidB (RespHello (hello_response eA ra))) ra), rb2.
    split_and!; try done. by destruct fuel.
Qed.

(** One round: everything is as before it, with more records if the replica
    was behind. *)
Lemma sync_round_progress la lb c ra rb :
  distinct_versions la -> Forall fits la -> Z.of_nat (length la) + 64000 < 2 ^ 64 ->
  leader la ra -> replica la lb c rb -> in_flight (c_phase c) = false ->
  exists lb' c' ra' rb', sync_round (ra, rb) = (ra', rb') /\ leader la ra' /\ replica la lb' c' rb'
    /\ in_flight (c_phase c') = false
    /\ (if decide (length lb < length la)%nat then length lb < length lb' else length lb = length lb')%nat.
Proof.
  intros Hd Hfit Hlt Hl Hr Hfl.
  destruct (replica_tick la lb c rb Hr Hfl) as (c1 & rb1 & E1 & Hr1 & Hc1 & Hq1).
  destruct (converse_hello la lb c1 ra rb1 33 Hd Hfit Hlt Hl Hr1 Hc1)
    as (lb' & c' & ra' & rb' & E2 & Hrest); [done|].
  exists lb', c', ra', rb'. split; [|exact Hrest]. unfold sync_round. rewrite E1. cbn [fst].
  rewrite Hq1. exact E2.
Qed.

Lemma catches_up la lb c ra rb n :
  distinct_versions la -> Forall fits la -> Z.of_nat (length la) + 64000 < 2 ^ 64 ->
  leader la ra -> replica la lb c rb -> in_flight (c_phase c) = false ->
  (length la <= length lb + n)%nat ->
  exists lb' c' ra' rb', Nat.iter n sync_round (ra, rb) = (ra', rb')
    /\ leader la ra' /\ replica la lb' c' rb' /\ in_flight (c_phase c') = false /\ length lb' = length la.
Proof.
  intros Hd Hfit Hlt Hl Hr Hfl Hn.
  assert (exists lb' c' ra' rb', Nat.iter n sync_round (ra, rb) = (ra', rb') /\ leader la ra'
    /\ replica la lb' c' rb' /\ in_flight (c_phase c') = false
    /\ (length la `min` (length lb + n) <= length lb')%nat)
    as (lb' & c' & ra' & rb' & E & Hl' & Hr' & Hf' & Hlen).
  { clear Hn. induction n as [|n IH].
    - exists lb, c, ra, rb. split_and!; try done. lia.
    - destruct IH as (lb1 & c1 & ra1 & rb1 & E1 & Hl1 & Hr1 & Hf1 & Hlen1).
      destruct (sync_round_progress la lb1 c1 ra1 rb1 Hd Hfit Hlt Hl1 Hr1 Hf1)
        as (lb2 & c2 & ra2 & rb2 & E2 & Hl2 & Hr2 & Hf2 & Hlen2).
      exists lb2, c2, ra2, rb2. cbn [Nat.iter nat_rect]. change (nat_rect _ _ _ _) with (Nat.iter n sync_round (ra, rb)).
      rewrite E1, E2. split_and!; try done. case_decide; lia. }
  destruct (rp_follows _ _ _ _ Hr') as [Hle _]. exists lb', c', ra', rb'. split_and!; try done. lia.
Qed.

(** A replica with all records reads as the leader's log says. *)
Lemma caught_up la lb c r : replica la lb c r -> length lb = length la ->
  versions_of lb = versions_of la /\ reads_from ns pol (ops_log la) (store r).
Proof.
  intros Hr Hl. destruct (rp_follows _ _ _ _ Hr) as [_ Hv]. pose proof (rp_mem _ _ _ _ Hr) as Hm.
  by rewrite Hl, firstn_all in Hv, Hm.
Qed.

(** ** Properties *)


End link.

End net.

(** ** Witnesses *)

#[local] Existing Instance toy_sha256.
#[local] Existing Instance hex_plain.
#[local] Existing Instance toy_json.
#[local] Existing Instance toy_ed25519.
#[local] Existing Instance toy_config_text.
#[local] Existing Instance toy_libp2p.

Definition live_a : Keypair := mkKeypair (bs "leader").
Definition live_b : Keypair := mkKeypair (bs "replica").
Definition live_peer : Peer := mkPeer (bs "leader") (bs "/a") [] None.
Definition live_leader (s : Store) : Runner :=
  runner_new s live_a (mkConfig node_default [mkPeer (bs "replica") (bs "/b") (pk_to_string (public live_b)) None])
    (bs "a.toml") None false.
Definition live_ctx : PeerCtx := mkPeerCtx (bs "/a") (Some (public live_a)) (Some (public live_a)) Idle 0.
Definition live_replica : Runner :=
  with_peers {[bs "leader" := live_ctx]}
    (runner_new demo_store live_b (mkConfig node_default [live_peer]) (bs "b.toml") None true).

(** A store with one record on top of [demo_store]. *)
Lemma live_store : exists s b, store_ok s /\ policies s = {[bs "app" := PLww]} /\ log_holds s (bs "app") [b]
  /\ fits b /\ small_logs s.
Proof.
  destruct (apply_fresh_run demo_store (bs "app") PLww [] w1 demo_store_ok demo_policy demo_holds)
    as (s & h & _ & _ & Hok & Hp & Hlog & Hh); [apply (Forall_inv demo_writes_wf)|].
  exists s, (to_bytes w1 h). split_and!; try done.
  - unfold fits. rewrite length_to_bytes by done. vm_compute. discriminate.
  - intros ns L HL. destruct (proj1 (ok_dom s Hok ns)) as [p Hns]; [by eexists|].
    assert (ns = bs "app") as ->.
    { rewrite Hp in Hns. assert (policies demo_store = {[bs "app" := PLww]}) as E by vm_decide.
      rewrite E in Hns. by apply lookup_singleton_Some in Hns as [<- _]. }
    destruct Hlog as (L' & d & HL' & _ & Hi). simplify_eq. apply is_log_facts in Hi as (-> & _). done.
Qed.

Lemma live_leader_is s la : store_ok s -> policies s = {[bs "app" := PLww]} -> log_holds s (bs "app") la ->
  small_logs s -> leader live_a live_b (bs "app") la (live_leader s).
Proof.
  intros Hok Hp Hlog Hsm. constructor; try done; [by eexists|].
  exists (mkPeer (bs "replica") (bs "/b") (pk_to_string (public live_b)) None), (public live_b).
  split_and!; [left|vm_compute; discriminate|apply pk_roundtrip, length_public|done].
Qed.

Lemma live_replica_is la : replica live_a (bs "app") PLww live_peer la [] live_ctx live_replica.
Proof.
  constructor; [|done|done|done|done|reflexivity|apply demo_holds|split; [simpl; lia|done]|].
  - split; [apply demo_store_ok|]. intros key n.
    change (pending_dials live_replica) with (∅ : gmap bytes bytes). by rewrite lookup_empty.
  - exists [], (∅, ∅). split_and!; [done|vm_decide|]. intros k. cbn. split; apply lookup_empty.
Qed.


End NetLive.
