(* ===== verification/NetGaps.v ===== *)
(** Where mesh sync does not do what its comments promise: a pin is not
    checked against the connection, logs that diverged are never exchanged, a
    peer that was dialed again is never greeted, and malformed input ends the
    sync task. *)

From S2P Require Import Prelude Moves Crc32 LogFormat Log LogSpec Base64 Utf8 Text StoreTypes Store StoreSpec StoreFrame SyncSpec Snapshot Merge Ident Config Net NetSpec NetRun NetLive.
Import LogFormat Base64 Store StoreSpec Snapshot Merge Ident ConfigOps Net NetSpec NetRun NetLive.

Module NetGaps.

Section net.
Context `{Sha256, HexCrate, SerdeJson, Ed25519, ConfigText, Libp2p}.
Context (e : env) (He : env_ok e).

(** ** Pins and connections *)

(** The heads a peer claims are all at or below the local ones. *)
Definition not_ahead (s : Store) (h : HelloResponse) : Prop :=
  forall nh q x, nh ∈ hello_namespaces h -> head s (nh_ns nh) = Some (q, x) -> nh_seq nh <= q.

Lemma hello_matching_pin pid h r name c pk : name_for_pid e pid r = Some name -> peer r !! name = Some c ->
  c_pin c = Some pk -> pk_from_str (host_id h) = Ok pk ->
  handle e (Response pid (RespHello h)) r = hello_accepted e name h r.
Proof.
  intros Hn Hc Hp Hk. cbn [handle]. unfold on_hello, mbind at 1, method_bind at 1, self at 1. rewrite Hn, Hk.
  unfold ctx_of, mbind, method_bind, self, lift. rewrite Hc. cbn [or_panic]. rewrite Hp.
  by rewrite bool_decide_eq_true_2.
Qed.

(** A handshake whose claimed heads lie behind ends the round: the hashes of
    the heads are not compared. *)
Lemma hello_not_ahead name h r : not_ahead (store r) h ->
  exists m r', hello_accepted e name h r = (r', Ok tt) /\ out r' = out r
    /\ store r' = set_peer_clock name m (store r)
    /\ peer r' = alter (ctx_phase Done) name (peer r) /\ pending_pulls r' = pending_pulls r.
Proof.
  intros Hh. unfold hello_accepted, mbind, method_bind, self, lift, update at 1.
  set (x := i64 _). destruct (median_some (default [] (skew r !! name)) x) as [m Hm].
  rewrite Hm. cbn [or_panic update].
  assert (omap (pull_of (set_peer_clock name m (store r))) (hello_namespaces h) = []) as E.
  { unfold not_ahead in Hh. induction (hello_namespaces h) as [|nh l IH]; [done|]. cbn [omap list_omap].
    assert (pull_of (set_peer_clock name m (store r)) nh = None) as ->.
    { unfold pull_of. destruct (policy _ _); [|done]. change (head (set_peer_clock name m (store r)) (nh_ns nh))
        with (head (store r) (nh_ns nh)). destruct (head (store r) (nh_ns nh)) as [[q y]|] eqn:Eh; [|done].
      rewrite (proj2 (Z.ltb_ge _ _)); [done|]. eapply Hh; [left|done]. }
    apply IH. intros nh' q y Hin. apply Hh. by right. }
  cbn [store with_store with_skew]. rewrite E. exists m. eexists. split; [reflexivity|done].
Qed.

Lemma find_only pid name c r : peer r = {[name := c]} -> c_pid c = Some pid -> name_for_pid e pid r = Some name.
Proof.
  intros Hp Hc. unfold name_for_pid. rewrite Hp. pose proof (He {[name := c]}) as Hw.
  rewrite map_to_list_singleton in Hw. apply Permutation_singleton_r in Hw as ->. cbn [find_walk].
  by rewrite bool_decide_eq_true_2.
Qed.

(** One claimed head ahead of the local one makes the runner ask the
    connection for records. *)
Lemma hello_ahead name h r c pid ns seq y q x :
  peer r = {[name := c]} -> c_pid c = Some pid -> hello_namespaces h = [mkNsHead ns seq y] ->
  is_Some (policy (store r) ns) -> head (store r) ns = Some (q, x) -> 0 <= q < seq -> q + 64000 < 2 ^ 64 ->
  exists r', hello_accepted e name h r = (r', Ok tt)
    /\ out r' = out r ++ [SendRequest pid (Pull ns (q + 1))]
    /\ peer r' = {[name := ctx_phase (Pulling ns (Z.min seq (q + 64000))) c]}.
Proof.
  intros Hp Hpid Hns [po Hpo] Hh Hq Hlt. unfold hello_accepted, mbind, method_bind, self, lift, update at 1.
  set (z := i64 _). destruct (median_some (default [] (skew r !! name)) z) as [m Hm].
  rewrite Hm. cbn [or_panic update]. rewrite Hns. cbn [omap list_omap store with_store with_skew].
  assert (pull_of (set_peer_clock name m (store r)) (mkNsHead ns seq y) = Some (ns, Z.min seq (q + 64000))) as ->.
  { unfold pull_of. cbn [nh_ns nh_seq]. change (policy (set_peer_clock name m (store r)) ns) with (policy (store r) ns).
    change (head (set_peer_clock name m (store r)) ns) with (head (store r) ns). rewrite Hpo, Hh.
    rewrite (proj2 (Z.ltb_lt q seq)) by lia. unfold MAX_RECORDS, MAX_CHUNKS_PER_TICK.
    rewrite u64_small by (unfold is_u64; lia). cbv zeta. by rewrite (proj2 (Z.ltb_lt _ _)) by lia. }
  unfold send_pull, ctx_of, mbind, method_bind, self, lift. cbn [peer with_pulls with_store with_skew].
  rewrite Hp, lookup_singleton_eq. cbn [or_panic]. rewrite Hpid. cbn [or_panic store with_pulls with_store].
  change (head (set_peer_clock name m (store r)) ns) with (head (store r) ns). rewrite Hh, u64_small by (unfold is_u64; lia).
  eexists. split; [reflexivity|]. split; [done|]. simpl. rewrite Hp, alter_singleton. by rewrite decide_True.
Qed.

(** ** A peer that was dialed again *)

(** Bound to a connection, waiting for a dial, and no dial by address pending
    for it: the state a peer is in after [kick] dialed it by its id. *)
Definition parked (name pid : bytes) (r : Runner) : Prop :=
  (exists c, peer r !! name = Some c /\ c_phase c = WaitingDial /\ c_pid c = Some pid)
  /\ forall key, pending_dials r !! key <> Some name.

Section parked.
Context (name pid : bytes).

Definition stays (r r' : Runner) : Prop := parked name pid r -> parked name pid r'.
#[global] Instance stays_preorder : PreOrder stays.
Proof. split; unfold stays; [by intros r|intros r1 r2 r3; tauto]. Qed.

Lemma stays_other r r' n (f : option PeerCtx -> option PeerCtx) : n <> name ->
  peer r' = partial_alter f n (peer r) -> pending_dials r' = pending_dials r -> stays r r'.
Proof.
  intros Hn Ep Ed [(c & Hc & Hph & Hp) Hd]. split; [|by rewrite Ed].
  exists c. by rewrite Ep, lookup_partial_alter_ne.
Qed.

Lemma stays_same r r' : peer r' = peer r -> pending_dials r' = pending_dials r -> stays r r'.
Proof. intros Ep Ed [Hc Hd]. split; [by rewrite Ep|by rewrite Ed]. Qed.

(** Closes the updates of a handler that works on another peer [n]. *)
Ltac oth n := mv; try (match goal with |- stays ?r _ =>
  first [by apply stays_same|by eapply (stays_other r _ n)] end).

Context (n : bytes) (Hn : n <> name).

Lemma send_hello_stays p : always stays (send_hello n p).
Proof. unfold send_hello. oth n. Qed.
Lemma send_pull_stays ns t : always stays (send_pull n ns t).
Proof. unfold send_pull. oth n. Qed.
Lemma persist_pin_stays pk : always stays (persist_pin e n pk).
Proof. unfold persist_pin. oth n. Qed.
Lemma hello_accepted_stays h : always stays (hello_accepted e n h).
Proof. unfold hello_accepted. oth n. apply send_pull_stays. Qed.
Lemma records_applied_stays ns t k q : always stays (records_applied n ns t k q).
Proof. unfold records_applied. oth n; apply send_pull_stays. Qed.
Lemma apply_parsed_stays ns t l : always stays (apply_parsed n ns t l).
Proof. unfold apply_parsed. oth n. apply records_applied_stays. Qed.

Lemma kick_stays : always stays (kick e n).
Proof.
  unfold kick. oth n; [apply send_hello_stays| |].
  - intros [Hc Hd]. split; [done|]. intros k. simpl. rewrite lookup_delete_Some. by intros [_ ?%Hd].
  - intros [Hc Hd]. split; [done|]. intros k. simpl. rewrite lookup_insert_Some.
    intros [[_ ?]|[_ ?%Hd]]; done.
Qed.

End parked.

(** Events that do not report the loss of the connection [pid], nor answer a
    request made over it. *)
Definition spares (pid : bytes) (ev : event) : Prop :=
  match ev with
  | ConnectionClosed p | OutboundFailure p | Response p _ => p <> pid
  | OutgoingConnectionError o => exists p, o = Some p /\ p <> pid
  | _ => True
  end.

Lemma name_other name pid p r n : parked name pid r -> p <> pid -> name_for_pid e p r = Some n -> n <> name.
Proof.
  intros [(c & Hc & _ & Hp) _] Hne Hn ->. apply name_for_pid_Some in Hn as (c' & Hc' & Hp'); [|done].
  by simplify_eq.
Qed.

Lemma kick_one_stays name pid p r : stays name pid r (kick_one e p r).1.
Proof.
  destruct (decide (peer_name p = name)) as [E|E].
  - intros [(c & Hc & Hph & Hp) Hd]. unfold kick_one. rewrite E. destruct (multiaddr (addr p)) as [a|].
    2: { split; [by exists c|done]. }
    unfold mbind, method_bind, self, update. rewrite Hc, Hph. split; [|done].
    eexists. simpl. by rewrite lookup_insert_eq.
  - revert r. assert (always (stays name pid) (kick_one e p)) as Hk; [|exact Hk]. unfold kick_one.
    mv; try (match goal with |- stays _ _ ?r _ => by eapply (stays_other name pid r _ (peer_name p)) end);
      by apply kick_stays.
Qed.

Lemma handle_stays name pid ev r : spares pid ev -> stays name pid r (handle e ev r).1.
Proof.
  intros Hs Hpk. assert (forall p n, p <> pid -> name_for_pid e p r = Some n -> n <> name) as Ho
    by (intros; by eapply name_other).
  assert (forall p, p <> pid -> parked name pid (reset_name e p r).1) as Hreset.
  { intros p Hp. unfold reset_name, mbind, method_bind, self. destruct (name_for_pid e p r) as [n|] eqn:En; [|done].
    by eapply (stays_other name pid r _ n); [by eapply Ho|..]. }
  destruct ev as [|p d|p|o| |p q|p [h|rs|]|p|p]; cbn [handle spares] in *; try done; try by apply Hreset.
  - assert (moves (stays name pid) r (kick_all e)) as Hm; [|by apply Hm]. unfold kick_all.
    mv; [by apply stays_same|]. apply moves_for_each; [apply _|]. intros x r1. apply kick_one_stays.
  - destruct d as [key|]; [|done]. cbn [on_established]. unfold mbind at 1, method_bind at 1, self at 1.
    match goal with |- context [match ?x with Some _ => _ | None => _ end] => set (o := x) end.
    assert (forall n, o = Some n -> n <> name) as Hon.
    { destruct Hpk as [(c & Hc & Hph & Hp) Hd]. intros n. subst o. destruct (pending_dials r !! key) as [n'|] eqn:Ek.
      - intros [= ->] ->. by apply (Hd key).
      - intros (c' & Hc' & Hf)%find_walk_peer ->; [|done]. simplify_eq. rewrite Hp in Hf.
        by rewrite andb_false_r in Hf. }
    match goal with |- parked _ _ (?m r).1 => assert (moves (stays name pid) r m) as Hm; [|by apply Hm] end.
    mv; try done.
    + intros [Hc Hd]. split; [done|]. intros k. simpl. rewrite lookup_delete_Some. by intros [_ ?%Hd].
    + eapply (stays_other name pid _ _ l); [by apply Hon|done..].
    + apply send_hello_stays. by apply Hon.
  - unfold on_closed, mbind, method_bind, self. destruct (name_for_pid e p r) as [n|] eqn:En; [|done].
    case_bool_decide; [|done]. by eapply (stays_other name pid r _ n); [by eapply Ho|..].
  - destruct Hs as (p & -> & Hp). by apply Hreset.
  - pose proof (on_request_served e p q r He) as Hr. destruct (on_request e p q r) as [r' o].
    destruct Hr as [[_ ->]|[_ (resp & -> & _)]]; [done|]. by eapply (stays_same name pid r).
  - match goal with |- parked _ _ (?m r).1 => assert (moves (stays name pid) r m) as Hm; [|by apply Hm] end.
    unfold on_hello. mv; try done.
    all: assert (l <> name) as Hl by (by eapply Ho).
    all: try (by eapply (stays_other name pid _ _ l)); try by apply hello_accepted_stays.
    by apply persist_pin_stays.
  - match goal with |- parked _ _ (?m r).1 => assert (moves (stays name pid) r m) as Hm; [|by apply Hm] end.
    unfold on_records. mv; try done.
    all: assert (l <> name) as Hl by (by eapply Ho).
    all: try (by eapply (stays_other name pid _ _ l)). by apply apply_parsed_stays.
Qed.

(** ** Properties *)

(** C40: a pin does not protect the peer it was stored for: whoever answers at
    the configured address is greeted under any key, and when it then claims
    the pinned key, which it does not hold, it passes the check and is asked
    for records, over the connection authenticated as somebody else. *)
Theorem pinned_peer_impersonated pid key h r name c pk ns seq y q x :
  peer r = {[name := c]} -> c_phase c = WaitingDial -> c_pin c = Some pk ->
  pending_dials r !! key = Some name -> peer_id pk <> pid ->
  pk_from_str (host_id h) = Ok pk -> hello_namespaces h = [mkNsHead ns seq y] ->
  is_Some (policy (store r) ns) -> head (store r) ns = Some (q, x) -> 0 <= q < seq -> q + 64000 < 2 ^ 64 ->
  exists r1 r2, handle e (ConnectionEstablished pid (Some key)) r = (r1, Ok tt)
    /\ handle e (Response pid (RespHello h)) r1 = (r2, Ok tt)
    /\ out r2 = out r ++ [SendRequest pid ReqHello; SendRequest pid (Pull ns (q + 1))]
    /\ c_phase <$> peer r2 !! name = Some (Pulling ns (Z.min seq (q + 64000))).
Proof.
  intros Hp Hph Hpin Hd Hne Hk Hns Hpo Hh Hq Hlt.
  set (c1 := ctx_phase AwaitingHello (ctx_pid pid c)).
  set (r1 := with_peers {[name := c1]} (act (SendRequest pid ReqHello)
               (with_peers (<[name := ctx_pid pid c]> (peer r))
                  (with_dials (base.delete key (pending_dials r)) r)))).
  assert (handle e (ConnectionEstablished pid (Some key)) r = (r1, Ok tt)) as E1.
  { cbn [handle on_established]. unfold mbind, method_bind, self, update. rewrite Hd.
    unfold ctx_of, mbind, method_bind, self, lift. cbn [peer with_dials]. rewrite Hp, lookup_singleton_eq.
    cbn [or_panic]. rewrite bool_decide_eq_true_2 by done.
    unfold send_hello, mbind, method_bind, phase_set, update, r1, c1. cbn [peer act with_peers].
    rewrite Hp, insert_singleton_eq, alter_singleton. by rewrite decide_True. }
  destruct (hello_ahead name h r1 c1 pid ns seq y q x) as (r2 & E2 & Ho & Hp2); try done.
  exists r1, r2. split_and!; [done| | |].
  - rewrite (hello_matching_pin pid h r1 name c1 pk); try done; [by apply (find_only pid name c1)|].
    simpl. by rewrite lookup_singleton_eq.
  - rewrite Ho. simpl. by rewrite <-app_assoc.
  - rewrite Hp2, lookup_singleton_eq. done.
Qed.

(** Logs that diverged are not exchanged: when a pinned peer's logs are no
    longer than the local ones, whatever the hashes of the heads and whatever
    records they hold, the round ends with the handshake, nothing is asked
    for and only the clock estimate changes. *)
Theorem diverged_logs_not_exchanged pid h r name c pk :
  name_for_pid e pid r = Some name -> peer r !! name = Some c -> c_pin c = Some pk ->
  pk_from_str (host_id h) = Ok pk -> not_ahead (store r) h ->
  exists m r', handle e (Response pid (RespHello h)) r = (r', Ok tt) /\ out r' = out r
    /\ store r' = set_peer_clock name m (store r) /\ peer r' = alter (ctx_phase Done) name (peer r).
Proof.
  intros Hn Hc Hp Hk Hh. rewrite (hello_matching_pin pid h r name c pk) by done.
  destruct (hello_not_ahead name h r Hh) as (m & r' & E & Ho & Hs & Hpe & _). by exists m, r'.
Qed.

(** Input from the network can end the sync task: a handshake from an
    unpinned peer with 64 hex digits that are no point of the curve, a record
    that stops before its value length, and, once such digits are in the
    configuration as a pin, any request of a stranger, make the handler
    panic. *)
Theorem malformed_input_panics pid r :
  (forall h name c pk, name_for_pid e pid r = Some name -> peer r !! name = Some c -> c_pin c = None ->
     pk_from_str (host_id h) = Ok pk -> vk_from_bytes pk = false ->
     (handle e (Response pid (RespHello h)) r).2 = Panic)
  /\ (forall p pk l q, peers (cfg r) = p :: l -> pin p <> [] -> pk_from_str (pin p) = Ok pk ->
     vk_from_bytes pk = false -> (handle e (Request pid q) r).2 = Panic)
  /\ (forall rs name c t batch, name_for_pid e pid r = Some name -> peer r !! name = Some c ->
     c_phase c = Pulling (recs_ns rs) t -> allowed r name (recs_ns rs) <> Some false ->
     decode_recs (recs rs) = Ok batch -> verify_batch zero32 batch = Panic ->
     (handle e (Response pid (RespRecords rs)) r).2 = Panic).
Proof.
  split_and!.
  - intros h name c pk Hn Hc Hp Hk Hv. cbn [handle]. unfold on_hello, mbind at 1, method_bind at 1, self at 1.
    rewrite Hn, Hk. unfold ctx_of, mbind, method_bind, self, lift. rewrite Hc. cbn [or_panic].
    rewrite Hp. unfold peer_id_of. by rewrite Hv.
  - intros p pk l q Hl Hp Hk Hv. cbn [handle]. unfold on_request, mbind, method_bind, self, lift.
    unfold inbound_access. rewrite Hl. cbn [pinned_as]. rewrite bool_decide_eq_false_2, Hk by done.
    unfold peer_id_of. by rewrite Hv.
  - intros rs name c t batch Hn Hc Hph Ha Hd Hv. cbn [handle]. unfold on_records, mbind, method_bind, self.
    rewrite Hn, Hc. simpl. rewrite Hph. rewrite bool_decide_eq_true_2 by done. simpl.
    rewrite bool_decide_eq_false_2, Hd, Hv by done. done.
Qed.

End net.

Section redial.
Context `{Sha256, HexCrate, SerdeJson, Ed25519, ConfigText, Libp2p}.

(** A peer whose connection was lost and that is dialed again by its id is
    never greeted: once [kick] has dialed it, no event but the loss of the new
    connection (not its establishment, and no tick) moves it out of
    [WaitingDial], so no hello and no pull is sent for it. *)
Theorem redialed_peer_never_greeted e name pid c r l :
  peer r !! name = Some c -> c_pid c = Some pid -> in_flight (c_phase c) = false ->
  is_connected e pid = false -> (forall key, pending_dials r !! key <> Some name) ->
  Forall (fun i => match i with Event e' ev => env_ok e' /\ spares pid ev | External _ _ _ => True end) l ->
  exists r1, kick e name r = (r1, Ok tt) /\ DialPeer pid ∈ out r1
    /\ c_phase <$> peer (for_each input_step l r1).1 !! name = Some WaitingDial.
Proof.
  intros Hc Hp Hf Hcon Hd Hl.
  set (r1 := with_peers (alter (ctx_phase WaitingDial) name (peer r))
               (act (DialPeer pid) (act (AddPeerAddress pid (c_addr c)) r))).
  assert (kick e name r = (r1, Ok tt)) as E.
  { unfold kick, mbind, method_bind, self. rewrite Hc. cbn [from_option]. rewrite Hf.
    unfold ctx_of, mbind, method_bind, self, lift. rewrite Hc. cbn [or_panic]. by rewrite Hp, Hcon. }
  exists r1. split_and!; [done|simpl; set_solver|].
  assert (parked name pid r1) as Hpk.
  { split; [|done]. exists (ctx_phase WaitingDial c). simpl. by rewrite lookup_alter_eq, Hc. }
  clearbody r1. clear E. revert r1 Hpk. induction Hl as [|i l Hi Hl IH]; intros r1 Hpk.
  { destruct Hpk as [(c' & Hc' & Hph & _) _]. cbn. by rewrite Hc', <-Hph. }
  cbn [for_each]. unfold mbind, method_bind.
  assert (parked name pid (input_step i r1).1) as Hpk1.
  { destruct i as [e' ev|s0 c0 f0]; [|done]. destruct Hi as [He' Hs]. by apply handle_stays. }
  destruct (input_step i r1) as [r2 [[]|x|]]; cbn [fst] in *; [by apply IH| |];
    destruct Hpk1 as [(c' & Hc' & Hph & _) _]; by rewrite Hc', <-Hph.
Qed.

End redial.

(** ** Witnesses *)

#[local] Existing Instance toy_sha256.
#[local] Existing Instance hex_plain.
#[local] Existing Instance toy_json.
#[local] Existing Instance toy_config_text.
#[local] Existing Instance toy_libp2p.

(** Keys end in a zero byte; anything else is no key. *)
#[program] Definition strict_ed25519 : Ed25519 := {|
  verifying_key seed := resize 31 Byte.x00 seed ++ [Byte.x00];
  ed_sign seed m := resize 64 Byte.x00 (sha256 (Sha256:=toy_sha256) (seed ++ m));
  vk_from_bytes k := bool_decide (last k = Some Byte.x00);
  sig_from_slice s := bool_decide (length s = 64%nat);
  vk_verify _ _ _ := true;
|}.
Next Obligation. intros. cbv beta. by rewrite length_app, length_resize. Qed.
Next Obligation. intros. apply length_resize. Qed.
Next Obligation. intros. cbv beta. apply bool_decide_eq_true_2, last_snoc. Qed.
Next Obligation. intros. cbv beta. apply bool_decide_eq_true_2, length_resize. Qed.
Next Obligation. done. Qed.
#[local] Existing Instance strict_ed25519.

Definition gap_key : PublicKey := public (mkKeypair (bs "node2")).
Definition gap_config : Config := mkConfig node_default [mkPeer (bs "node2") (bs "/a") demo_key None].

(** The runner with node2 in a given state. *)
Definition gap_runner (pid : option bytes) (k : option PublicKey) (ph : Phase) : Runner :=
  with_dials {[bs "/a" := bs "node2"]}
    (with_peers {[bs "node2" := mkPeerCtx (bs "/a") pid k ph 0]}
       (runner_new demo_store (mkKeypair (bs "me")) gap_config (bs "c.toml") None false)).

Lemma pinned_peer_impersonated_witness :
  exists r1 r2, handle demo_env (ConnectionEstablished (bs "mallory") (Some (bs "/a")))
                  (gap_runner None (Some gap_key) WaitingDial) = (r1, Ok tt)
    /\ handle demo_env (Response (bs "mallory") (RespHello (mkHello (pk_to_string gap_key) 0
                          [mkNsHead (bs "app") 1 []]))) r1 = (r2, Ok tt)
    /\ out r2 = [] ++ [SendRequest (bs "mallory") ReqHello; SendRequest (bs "mallory") (Pull (bs "app") (0 + 1))]
    /\ c_phase <$> peer r2 !! bs "node2" = Some (Pulling (bs "app") (Z.min 1 (0 + 64000))).
Proof.
  apply (pinned_peer_impersonated demo_env demo_env_ok (bs "mallory") (bs "/a")
    (mkHello (pk_to_string gap_key) 0 [mkNsHead (bs "app") 1 []]) (gap_runner None (Some gap_key) WaitingDial)
    (bs "node2") (mkPeerCtx (bs "/a") None (Some gap_key) WaitingDial 0) gap_key (bs "app") 1 [] 0 zero32);
    try reflexivity.
  - discriminate.
  - by eexists.
  - split; [discriminate|reflexivity].
Defined.

Lemma diverged_logs_not_exchanged_witness :
  exists m r', handle demo_env (Response (bs "p") (RespHello (mkHello (pk_to_string gap_key) 0
                 [mkNsHead (bs "app") 0 (bs "another history")])))
                 (gap_runner (Some (bs "p")) (Some gap_key) AwaitingHello) = (r', Ok tt)
    /\ out r' = [] /\ store r' = set_peer_clock (bs "node2") m demo_store.
Proof.
  destruct (diverged_logs_not_exchanged demo_env (bs "p") (mkHello (pk_to_string gap_key) 0
    [mkNsHead (bs "app") 0 (bs "another history")]) (gap_runner (Some (bs "p")) (Some gap_key) AwaitingHello)
    (bs "node2") (mkPeerCtx (bs "/a") (Some (bs "p")) (Some gap_key) AwaitingHello 0) gap_key)
    as (m & r' & E & Ho & Hs & _); [vm_compute; reflexivity..| |exists m, r'; exact (conj E (conj Ho Hs))].
  intros nh q x Hin%list_elem_of_singleton Hh. subst nh.
  assert (q = 0) as -> by (vm_compute in Hh; by simplify_eq). discriminate.
Defined.

Lemma malformed_input_panics_witness :
  (handle demo_env (Response (bs "p") (RespHello (mkHello demo_key 0 [])))
     (gap_runner (Some (bs "p")) None AwaitingHello)).2 = Panic
  /\ (handle demo_env (Request (bs "stranger") ReqHello) (gap_runner None None Idle)).2 = Panic
  /\ (handle demo_env (Response (bs "p") (RespRecords (mkRecords (bs "app")
        [mkRec 1 (b64_encode (framed TAG_PUT zero32 (le_bytes 4 1 ++ bs "k" ++ le_bytes 8 5 ++ zero32 ++ zero32)))])))
        (gap_runner (Some (bs "p")) None (Pulling (bs "app") 1))).2 = Panic.
Proof.
  split_and!.
  - apply (proj1 (malformed_input_panics demo_env (bs "p") (gap_runner (Some (bs "p")) None AwaitingHello))
      _ (bs "node2") (mkPeerCtx (bs "/a") (Some (bs "p")) None AwaitingHello 0) demo_pid);
      vm_compute; reflexivity.
  - apply (proj1 (proj2 (malformed_input_panics demo_env (bs "stranger") (gap_runner None None Idle)))
      (mkPeer (bs "node2") (bs "/a") demo_key None) demo_pid []); vm_compute; reflexivity || discriminate.
  - eapply (proj2 (proj2 (malformed_input_panics demo_env (bs "p") (gap_runner (Some (bs "p")) None (Pulling (bs "app") 1))))
      _ (bs "node2") (mkPeerCtx (bs "/a") (Some (bs "p")) None (Pulling (bs "app") 1) 0) 1);
      vm_compute; reflexivity || discriminate.
Defined.

Lemma redialed_peer_never_greeted_witness :
  exists r1, kick (mkEnv 0 0 (fun _ => false) (fun _ => true) Written map_to_list) (bs "node2")
      (with_dials ∅ (gap_runner (Some (bs "p")) (Some gap_key) Done)) = (r1, Ok tt)
    /\ DialPeer (bs "p") ∈ out r1
    /\ c_phase <$> peer (for_each input_step [Event demo_env (ConnectionEstablished (bs "p") (Some (bs "/a")));
          Event demo_env Tick; Event demo_env Tick] r1).1 !! bs "node2" = Some WaitingDial.
Proof.
  apply (redialed_peer_never_greeted (mkEnv 0 0 (fun _ => false) (fun _ => true) Written map_to_list)
    (bs "node2") (bs "p") (mkPeerCtx (bs "/a") (Some (bs "p")) (Some gap_key) Done 0)); try reflexivity.
  - intros key. change (pending_dials _) with (∅ : gmap bytes bytes). by rewrite lookup_empty.
  - repeat (apply Forall_cons; split; [split; [apply demo_env_ok|exact I]|]). apply Forall_nil_2.
Defined.

End NetGaps.
