(* ===== verification/Query.v ===== *)
(** The query language ([src/query/mod.rs]): tokenizer, recursive-descent
    parser, statement classification and evaluation over a store. *)

From S2P Require Import Prelude Crc32 LogFormat Utf8 Text StoreTypes Store Hlc Ident.
Import Utf8 Text Store.

Module Query.

(** ** Values and errors *)

Inductive Value :=
| Null
| VBool (b : bool)
| Num (n : Z)
| Str (s : bytes)
| VList (l : list Value).

Inductive Tok :=
| TIdent (s : bytes)
| TStr (s : bytes)
| LParen
| RParen
| Comma.

(** The messages of the parser. *)
Inductive parse_msg :=
| EmptyExpression
| UnterminatedString
| InvalidEscape (c : byte)
| UnexpectedCharacter (c : byte)
| ExpectedName (t : Tok)
| ExpectedParen (name : bytes) (t : option Tok)
| UnterminatedCall
| UnexpectedComma
| ExpectedArgument
| TrailingTokens.

Inductive type_msg :=
| ReadOnlyStore
| NotRemote (fn : bytes)
| ArgCount (fn : bytes) (want got : nat)
| Usage (fn : bytes)
| ExpectedString (fn : bytes) (v : Value)
| ExpectedNumber (s : bytes)
| ExpectedNum (fn : bytes) (v : Value).

Inductive QueryError :=
| Parse (line col : Z) (msg : parse_msg)
| UnknownFn (name : bytes)
| TypeError (m : type_msg)
| EvalError (e : StorageError).

(** ** Syntax *)

Inductive Call := mkCall (name : bytes) (args : list Arg)
with Arg := AStr (s : bytes) | ACall (c : Call).

Definition name (c : Call) : bytes := let 'mkCall n _ := c in n.
Definition args (c : Call) : list Arg := let 'mkCall _ l := c in l.

Inductive StmtKind := ReadOnly | Mutating.

(** ** Tokenizer: the input from [pos] on, the line and the column *)

Record Tokenizer := mkTok { rest : bytes; line : Z; col : Z }.

Definition tok_new (src : bytes) : Tokenizer := mkTok src 1 1.
Definition tok_err {A} (t : Tokenizer) (m : parse_msg) : outcome QueryError A :=
  Err (Parse (line t) (col t) m).

Definition LF : byte := Byte.x0a.
Definition DQUOTE : byte := Byte.x22.
Definition BSLASH : byte := Byte.x5c.

(** [bump] on the character [c] followed by [l]. *)
Definition past (c : byte) (l : bytes) (t : Tokenizer) : Tokenizer :=
  if bool_decide (c = LF) then mkTok l (line t + 1) 1 else mkTok l (line t) (col t + 1).

Definition is_ascii_whitespace (c : byte) : bool :=
  bool_decide (c = Byte.x20) || bool_decide (c = Byte.x09) || bool_decide (c = LF)
  || bool_decide (c = Byte.x0c) || bool_decide (c = Byte.x0d).
Definition is_ascii_alphabetic (c : byte) : bool := in_range c 65 90 || in_range c 97 122.
Definition ident_start (c : byte) : bool := is_ascii_alphabetic c || bool_decide (c = Byte.x5f).
Definition ident_char (c : byte) : bool :=
  is_ascii_alphabetic c || in_range c 48 57 || bool_decide (c = Byte.x5f).

Fixpoint skip_loop (l : bytes) (t : Tokenizer) : Tokenizer :=
  match l with
  | c :: l => if is_ascii_whitespace c then skip_loop l (past c l t) else t
  | [] => t
  end.
Definition skip_ws (t : Tokenizer) : Tokenizer := skip_loop (rest t) t.

(** The loop over a string literal, its opening quote consumed. *)
Fixpoint string_loop (l : bytes) (t : Tokenizer) (s : bytes) : outcome QueryError (bytes * Tokenizer) :=
  match l with
  | [] => tok_err t UnterminatedString
  | c :: l =>
      let t := past c l t in
      if bool_decide (c = DQUOTE) then Ok (s, t)
      else if bool_decide (c = BSLASH) then
        match l with
        | [] => tok_err t UnterminatedString
        | e :: l =>
            let t := past e l t in
            if bool_decide (e = DQUOTE) then string_loop l t (s ++ [DQUOTE])
            else if bool_decide (e = BSLASH) then string_loop l t (s ++ [BSLASH])
            else if bool_decide (e = Byte.x6e) then string_loop l t (s ++ [LF])
            else if bool_decide (e = Byte.x74) then string_loop l t (s ++ [Byte.x09])
            else tok_err t (InvalidEscape e)
        end
      else string_loop l t (s ++ [c])
  end.

Fixpoint ident_loop (l : bytes) (t : Tokenizer) (s : bytes) : bytes * Tokenizer :=
  match l with
  | c :: l => if ident_char c then ident_loop l (past c l t) (s ++ [c]) else (s, t)
  | [] => (s, t)
  end.

Definition token (t : Tokenizer) : outcome QueryError (option Tok * Tokenizer) :=
  let t := skip_ws t in
  match rest t with
  | [] => Ok (None, t)
  | c :: l =>
      if bool_decide (c = Byte.x28) then Ok (Some LParen, past c l t)
      else if bool_decide (c = Byte.x29) then Ok (Some RParen, past c l t)
      else if bool_decide (c = Byte.x2c) then Ok (Some Comma, past c l t)
      else if bool_decide (c = DQUOTE) then
        '(s, t) ← string_loop l (past c l t) [];
        Ok (Some (TStr (from_utf8_lossy s)), t)
      else if ident_start c then
        let '(s, t) := ident_loop (c :: l) t [] in
        Ok (Some (TIdent (from_utf8_lossy s)), t)
      else tok_err t (UnexpectedCharacter c)
  end.

(** ** Parser

    [parse_args] is the loop of [parse_named_call] after its parenthesis; a
    token takes at least one character, so [length rest] rounds suffice. *)
Fixpoint parse_args (fuel : nat) (t : Tokenizer) (acc : list Arg)
    : outcome QueryError (list Arg * Tokenizer) :=
  match fuel with
  | O => Panic
  | S fuel =>
      '(o, t) ← token t;
      match o with
      | None => tok_err t UnterminatedCall
      | Some RParen => Ok (acc, t)
      | Some Comma => if bool_decide (length acc = 0%nat) then tok_err t UnexpectedComma
                      else parse_args fuel t acc
      | Some (TStr s) => parse_args fuel t (acc ++ [AStr s])
      | Some (TIdent n) =>
          '(o, t) ← token t;
          match o with
          | Some LParen =>
              '(l, t) ← parse_args fuel t [];
              parse_args fuel t (acc ++ [ACall (mkCall n l)])
          | o => tok_err t (ExpectedParen n o)
          end
      | Some LParen => tok_err t ExpectedArgument
      end
  end.

Definition parse_named_call (n : bytes) (t : Tokenizer) : outcome QueryError (Call * Tokenizer) :=
  '(o, t) ← token t;
  match o with
  | Some LParen =>
      '(l, t) ← parse_args (S (length (rest t))) t [];
      Ok (mkCall n l, t)
  | o => tok_err t (ExpectedParen n o)
  end.

Definition parse_call_inner (t : Tokenizer) : outcome QueryError (Call * Tokenizer) :=
  '(o, t) ← token t;
  match o with
  | Some (TIdent n) => parse_named_call n t
  | Some other => tok_err t (ExpectedName other)
  | None => tok_err t EmptyExpression
  end.

Definition parse_call (t : Tokenizer) : outcome QueryError (option Call * Tokenizer) :=
  let t := skip_ws t in
  match rest t with
  | [] => Ok (None, t)
  | _ => '(c, t) ← parse_call_inner t; Ok (Some c, t)
  end.

Definition expect_end (t : Tokenizer) : outcome QueryError unit :=
  let t := skip_ws t in
  match rest t with [] => Ok tt | _ => tok_err t TrailingTokens end.

(** The front end shared by [eval] and [classify]. *)
Definition parse_statement (src : bytes) : outcome QueryError Call :=
  '(o, t) ← parse_call (tok_new src);
  match o with
  | None => tok_err t EmptyExpression
  | Some c => _ ← expect_end t; Ok c
  end.

(** ** Classification *)

Definition is_mutator (n : bytes) : bool :=
  bool_decide (n = bs "put") || bool_decide (n = bs "del")
  || bool_decide (n = bs "index_create") || bool_decide (n = bs "index_drop").

Fixpoint contains_mutator (c : Call) : bool :=
  match c with
  | mkCall n l =>
      is_mutator n
      || (fix any (l : list Arg) : bool :=
            match l with
            | [] => false
            | ACall c :: l => contains_mutator c || any l
            | AStr _ :: l => any l
            end) l
  end.

Definition classify (src : bytes) : outcome QueryError StmtKind :=
  c ← parse_statement src;
  Ok (if contains_mutator c then Mutating else ReadOnly).

(** ** Evaluation *)

(** [q_write] tells the two arms of [StoreRef] apart; [q_ticks] counts the
    readings of the clock. *)
Record QueryCtx := mkCtx {
  q_store : Store;
  q_write : bool;
  q_scope : option bytes;
  q_host : Ident.PublicKey;
  q_remote : bool;
  q_ticks : nat;
}.

Abbreviation query_m := (method QueryCtx QueryError).

Definition with_store (s : Store) (q : QueryCtx) : QueryCtx :=
  mkCtx s (q_write q) (q_scope q) (q_host q) (q_remote q) (q_ticks q).
Definition with_scope (n : bytes) (q : QueryCtx) : QueryCtx :=
  mkCtx (q_store q) (q_write q) (Some n) (q_host q) (q_remote q) (q_ticks q).
Definition tick (q : QueryCtx) : QueryCtx :=
  mkCtx (q_store q) (q_write q) (q_scope q) (q_host q) (q_remote q) (S (q_ticks q)).

Definition latest_version (e : Entry) : option Version :=
  match e with
  | Lww v => Some v
  | Register vs => max_version vs
  end.

(** [latest_version(e).map(|v| lossy(v.value)).unwrap_or_default()] *)
Definition shown_value (e : Entry) : bytes :=
  match latest_version e with
  | Some v => from_utf8_lossy (value v)
  | None => []
  end.

Section query.
Context `{Sha256, HexCrate, SerdeJson}.

(** The readings of [Hlc::now] and the text of [serde_json::to_vec] on a list
    of strings. *)
Context (hlc_now : nat -> Z) (fields_text : list bytes -> bytes).

Definition read_clock : query_m Z :=
  q ← self; _ ← update tick; mret (hlc_now (q_ticks q)).

(** [ctx.store_mut()?.m(...)?] *)
Definition on_store {A} (m : store_m A) : query_m A := fun q =>
  if q_write q then
    let '(s, o) := m (q_store q) in (with_store s q, map_err EvalError o)
  else (q, Err (TypeError ReadOnlyStore)).

Definition scope_of : query_m bytes :=
  q ← self; lift (ok_or (EvalError NoScope) (q_scope q)).

(** An argument, as the two ways to evaluate it: [str_arg] and [num_arg]. *)
Record operand := mkOperand { str_arg : query_m bytes; num_arg : query_m Z }.

Definition str_operand (s : bytes) : operand :=
  mkOperand (mret s) (lift (ok_or (TypeError (ExpectedNumber s)) (parse_u64 s))).

(** A nested call named [fn], evaluated by [m]. *)
Definition call_operand (fn : bytes) (m : query_m Value) : operand :=
  mkOperand
    (v ← m; match v with
            | Str s => mret s
            | other => lift (Err (TypeError (ExpectedString fn other)))
            end)
    (v ← m; match v with
            | Num n => mret n
            | other => lift (Err (TypeError (ExpectedNum fn other)))
            end).

Definition argc (fn : bytes) (l : list operand) (n : nat) : query_m unit :=
  lift (guard_err (negb (length l =? n)%nat) (TypeError (ArgCount fn n (length l)))).

(** [&call.args[i]]. *)
Definition arg (l : list operand) (i : nat) : query_m operand := lift (or_panic (l !! i)).

Fixpoint str_args (l : list operand) : query_m (list bytes) :=
  match l with
  | [] => mret []
  | a :: l => s ← str_arg a; ss ← str_args l; mret (s :: ss)
  end.

(** Rows of the index with exactly the wanted value; the rows are sorted. *)
Fixpoint exact_rows (want : bytes) (rows : list nskey) : list Value :=
  match rows with
  | [] => []
  | (fv, k) :: rows => if negb (bool_decide (fv = want)) then []
                       else Str (from_utf8_lossy k) :: exact_rows want rows
  end.

Definition version_values (v : Version) : list Value :=
  [Str (hex_encode (replica v)); Num (hlc v); Str (from_utf8_lossy (value v))].

(** ** The functions *)

Definition fn_now (l : list operand) : query_m Value :=
  _ ← argc (bs "now") l 0; t ← read_clock; mret (Num (Hlc.ms t)).
Definition fn_hlc (l : list operand) : query_m Value :=
  _ ← argc (bs "hlc") l 0; t ← read_clock; mret (Num t).
Definition fn_before (l : list operand) : query_m Value :=
  _ ← argc (bs "before") l 2;
  a ← arg l 0; x ← num_arg a; b ← arg l 1; y ← num_arg b;
  mret (VBool (x <? y)).
Definition fn_clock_skew (l : list operand) : query_m Value :=
  _ ← argc (bs "clock_skew") l 1;
  a ← arg l 0; host ← str_arg a; q ← self;
  mret (match peer_clock (q_store q) host with
        | Some diff => Num (Z.max diff 0)
        | None => Null
        end).
Definition fn_use (l : list operand) : query_m Value :=
  _ ← argc (bs "use") l 1;
  q ← self; _ ← lift (guard_err (q_remote q) (TypeError (NotRemote (bs "use"))));
  a ← arg l 0; n ← str_arg a; q ← self;
  _ ← lift (guard_err (bool_decide (policy (q_store q) n = None)) (EvalError (NotFound n)));
  _ ← update (with_scope n);
  mret (VBool true).
Definition fn_create_ns (l : list operand) : query_m Value :=
  _ ← argc (bs "create_ns") l 1;
  q ← self; _ ← lift (guard_err (q_remote q) (TypeError (NotRemote (bs "create_ns"))));
  a ← arg l 0; n ← str_arg a;
  _ ← on_store (create_namespace n PLww);
  mret (VBool true).
Definition fn_get (l : list operand) : query_m Value :=
  _ ← argc (bs "get") l 1;
  ns ← scope_of; a ← arg l 0; k ← str_arg a; q ← self;
  mret (match get (q_store q) ns k with
        | None => Null
        | Some e => Str (shown_value e)
        end).
Definition fn_put (l : list operand) : query_m Value :=
  _ ← argc (bs "put") l 2;
  ns ← scope_of; a ← arg l 0; k ← str_arg a; b ← arg l 1; v ← str_arg b;
  t ← read_clock; q ← self;
  _ ← on_store (put ns k v t (q_host q) (q_host q) 0);
  mret (VBool true).
Definition fn_del (l : list operand) : query_m Value :=
  _ ← argc (bs "del") l 1;
  ns ← scope_of; a ← arg l 0; k ← str_arg a;
  t ← read_clock; q ← self;
  _ ← on_store (delete ns k t (q_host q) (q_host q));
  mret (VBool true).
Definition fn_scan (l : list operand) : query_m Value :=
  _ ← argc (bs "scan") l 1;
  ns ← scope_of; a ← arg l 0; prefix ← str_arg a; q ← self;
  mret (VList (mjoin (map (fun ke : bytes * Entry => [Str (from_utf8_lossy ke.1); Str (shown_value ke.2)])
                        (scan (q_store q) ns prefix)))).
Definition fn_get_all (l : list operand) : query_m Value :=
  _ ← argc (bs "get_all") l 1;
  ns ← scope_of; a ← arg l 0; k ← str_arg a; q ← self;
  mret (match get (q_store q) ns k with
        | Some (Lww v) => VList (version_values v)
        | Some (Register vs) => VList (mjoin (map version_values vs))
        | None => Null
        end).
Definition fn_index_create (l : list operand) : query_m Value :=
  _ ← lift (guard_err (bool_decide (length l = 0%nat)) (TypeError (Usage (bs "index_create"))));
  ns ← scope_of; fields ← str_args l;
  t ← read_clock; q ← self;
  _ ← on_store (set_index ns (Some (fields_text fields)) t (q_host q) (q_host q));
  mret (VBool true).
Definition fn_index_fields : query_m Value :=
  ns ← scope_of; q ← self;
  mret (VList (map Str (index_fields (q_store q) ns))).
Definition fn_index_drop : query_m Value :=
  ns ← scope_of; t ← read_clock; q ← self;
  _ ← on_store (set_index ns None t (q_host q) (q_host q));
  mret (VBool true).
Definition fn_by_index (l : list operand) : query_m Value :=
  _ ← lift (guard_err ((length l <? 2)%nat || (3 <? length l)%nat) (TypeError (Usage (bs "by_index"))));
  ns ← scope_of; a ← arg l 0; field ← str_arg a; b ← arg l 1; want ← str_arg b; q ← self;
  mret (VList (exact_rows want (index_lookup (q_store q) ns field want))).

Definition dispatch (fn : bytes) (l : list operand) : query_m Value :=
  if bool_decide (fn = bs "now") then fn_now l
  else if bool_decide (fn = bs "hlc") then fn_hlc l
  else if bool_decide (fn = bs "before") then fn_before l
  else if bool_decide (fn = bs "clock_skew") then fn_clock_skew l
  else if bool_decide (fn = bs "use") then fn_use l
  else if bool_decide (fn = bs "create_ns") then fn_create_ns l
  else if bool_decide (fn = bs "get") then fn_get l
  else if bool_decide (fn = bs "put") then fn_put l
  else if bool_decide (fn = bs "del") then fn_del l
  else if bool_decide (fn = bs "scan") then fn_scan l
  else if bool_decide (fn = bs "get_all") then fn_get_all l
  else if bool_decide (fn = bs "index_create") then fn_index_create l
  else if bool_decide (fn = bs "index_fields") then fn_index_fields
  else if bool_decide (fn = bs "index_drop") then fn_index_drop
  else if bool_decide (fn = bs "by_index") then fn_by_index l
  else lift (Err (UnknownFn fn)).

Fixpoint exec (c : Call) : query_m Value :=
  match c with
  | mkCall fn l =>
      dispatch fn
        ((fix operands (l : list Arg) : list operand :=
            match l with
            | [] => []
            | AStr s :: l => str_operand s :: operands l
            | ACall c :: l => call_operand (name c) (exec c) :: operands l
            end) l)
  end.

Definition eval (src : bytes) : query_m Value :=
  c ← lift (parse_statement src); exec c.

End query.
End Query.
