(* ===== verification/QuerySpec.v ===== *)
(** Correctness of the query language: the parser is total and inverts
    printing; a statement classified read-only leaves the store as it is; a
    remote statement touches only the namespace it was authorized for. *)

From S2P Require Import Prelude Crc32 LogFormat Log Utf8 Text StoreTypes Store StoreSpec StoreFrame Hlc Ident Query.
Import Utf8 Store StoreSpec StoreFrame Query.

Module QuerySpec.

(** ** Induction on calls *)

Definition on_call (P : Call -> Prop) (a : Arg) : Prop :=
  match a with ACall c => P c | AStr _ => True end.

Lemma Call_rect' (P : Call -> Prop) :
  (forall n l, Forall (on_call P) l -> P (mkCall n l)) -> forall c, P c.
Proof.
  intros HP. fix IH 1. intros [n l]. apply HP.
  induction l as [|a l IHl]; constructor; [|exact IHl].
  destruct a as [s|c]; [exact I|exact (IH c)].
Qed.

(** ** The parser is total *)

Definition len (t : Tokenizer) : nat := length (rest t).

Lemma rest_past c l t : rest (past c l t) = l.
Proof. unfold past. by case_bool_decide. Qed.

Lemma skip_loop_len l t : rest t = l -> (len (skip_loop l t) <= len t)%nat.
Proof.
  revert t. induction l as [|c l IH]; intros t Ht; [done|]. cbn [skip_loop].
  destruct (is_ascii_whitespace c); [|done]. etrans; [apply IH, rest_past|].
  unfold len. rewrite rest_past, Ht. cbn. lia.
Qed.

Lemma skip_ws_len t : (len (skip_ws t) <= len t)%nat.
Proof. by apply skip_loop_len. Qed.

Lemma string_loop_total l t s : rest t = l ->
  match string_loop l t s with Ok (_, t') => (len t' < length l)%nat | Err _ => True | Panic => False end.
Proof.
  remember (length l) as k eqn:Ek. revert l t s Ek.
  induction k as [k IH] using lt_wf_ind; intros [|c l] t s -> Ht; [done|]. cbn [string_loop].
  case_bool_decide; [unfold len; rewrite rest_past; cbn; lia|]. case_bool_decide.
  - destruct l as [|e l]; [done|].
    assert (forall s', match string_loop l (past e l (past c (e :: l) t)) s' with
              Ok (_, t') => (len t' < S (S (length l)))%nat | Err _ => True | Panic => False end) as Hs.
    { intros s'. pose proof (IH (length l) ltac:(cbn; lia) l _ s' eq_refl (rest_past e l (past c (e :: l) t))) as Hl.
      destruct (string_loop l _ s') as [[s2 t2]|e2|]; [lia|done..]. }
    repeat case_bool_decide; try apply Hs. done.
  - pose proof (IH (length l) ltac:(cbn; lia) l _ (s ++ [c]) eq_refl (rest_past c l t)) as Hl.
    destruct (string_loop l _ _) as [[s2 t2]|e2|]; [cbn; lia|done..].
Qed.

Lemma ident_loop_len l t s : rest t = l -> (len (ident_loop l t s).2 <= length l)%nat.
Proof.
  revert t s. induction l as [|c l IH]; intros t s Ht; cbn [ident_loop].
  - unfold len. cbn. by rewrite Ht.
  - destruct (ident_char c); [|unfold len; cbn; by rewrite Ht].
    etrans; [apply IH, rest_past|]. cbn. lia.
Qed.

Lemma ident_start_char c : ident_start c = true -> ident_char c = true.
Proof. unfold ident_start, ident_char. destruct (is_ascii_alphabetic c); [done|]. cbn. intros ->. by destruct (in_range _ _ _). Qed.

Lemma token_total t :
  match token t with
  | Ok (Some _, t') => (len t' < len t)%nat
  | Ok (None, t') => (len t' <= len t)%nat
  | Err _ => True
  | Panic => False
  end.
Proof.
  pose proof (skip_ws_len t) as Hs. unfold token. cbv zeta.
  set (t0 := skip_ws t) in *. destruct (rest t0) as [|c l] eqn:E; [done|].
  assert (len (past c l t0) < len t)%nat as Hp by (unfold len in *; rewrite rest_past, E in *; cbn in *; lia).
  do 3 (case_bool_decide; [done|]). case_bool_decide.
  - pose proof (string_loop_total l (past c l t0) [] (rest_past c l t0)) as Hl.
    destruct (string_loop l _ []) as [[s t1]|e|]; cbn; [|done..]. unfold len in *. rewrite E in Hs. cbn in Hs. lia.
  - destruct (ident_start c) eqn:Ei; [|done]. cbn [ident_loop]. rewrite (ident_start_char c Ei).
    pose proof (ident_loop_len l (past c l t0) ([] ++ [c]) (rest_past c l t0)) as Hl.
    destruct (ident_loop l _ _) as [s t1]. cbn in *. unfold len in *. rewrite E in Hs. cbn in Hs. lia.
Qed.

(** With more rounds than characters left the loop returns. *)
Lemma parse_args_total fuel t acc : (len t < fuel)%nat ->
  match parse_args fuel t acc with Ok (_, t') => (len t' < len t)%nat | Err _ => True | Panic => False end.
Proof.
  revert t acc. induction fuel as [|fuel IH]; intros t acc Hf; [lia|]. cbn [parse_args].
  pose proof (token_total t) as Ht. destruct (token t) as [[o t1]|e|]; cbn; [|done..].
  assert (forall t2 acc', (len t2 < len t)%nat -> match parse_args fuel t2 acc' with
            Ok (_, t') => (len t' < len t)%nat | Err _ => True | Panic => False end) as Hgo.
  { intros t2 acc' Hlt. specialize (IH t2 acc' ltac:(lia)).
    destruct (parse_args fuel t2 acc') as [[l t3]|e|]; [lia|done..]. }
  destruct o as [[n|s| | |]|]; try done; try (by apply Hgo).
  - pose proof (token_total t1) as Ht1. destruct (token t1) as [[o2 t2]|e|]; cbn; [|done..].
    destruct o2 as [[]|]; try done.
    pose proof (IH t2 [] ltac:(lia)) as Hn. destruct (parse_args fuel t2 []) as [[l t3]|e|]; cbn; [|done..].
    apply Hgo. lia.
  - case_bool_decide; [done|]. by apply Hgo.
Qed.

Lemma parse_named_call_total n t :
  match parse_named_call n t with Ok (_, t') => (len t' < len t)%nat | Err _ => True | Panic => False end.
Proof.
  unfold parse_named_call. pose proof (token_total t) as Ht.
  destruct (token t) as [[o t1]|e|]; cbn [mbind outcome_bind]; [|done..]. destruct o as [[]|]; try done.
  pose proof (parse_args_total (S (length (rest t1))) t1 [] ltac:(unfold len; lia)) as Hp.
  destruct (parse_args _ _ _) as [[l t2]|e|]; cbn [mbind outcome_bind]; [lia|done..].
Qed.

Lemma parse_statement_total src : parse_statement src <> Panic.
Proof.
  unfold parse_statement, parse_call, parse_call_inner.
  destruct (rest (skip_ws (tok_new src))); [done|].
  pose proof (token_total (skip_ws (tok_new src))) as Ht. destruct (token _) as [[o t1]|e|]; cbn; [|done..].
  destruct o as [[n| | | |]|]; try done.
  pose proof (parse_named_call_total n t1) as Hp. destruct (parse_named_call n t1) as [[c t2]|e|]; cbn; [|done..].
  unfold expect_end. by destruct (rest (skip_ws t2)).
Qed.

(** ** Printing *)

Definition LPAR : byte := Byte.x28.
Definition RPAR : byte := Byte.x29.
Definition COM : byte := Byte.x2c.

Fixpoint escape (s : bytes) : bytes :=
  match s with
  | [] => []
  | c :: s => (if bool_decide (c = DQUOTE) || bool_decide (c = BSLASH) then [BSLASH; c] else [c])
              ++ escape s
  end.
Definition print_str (s : bytes) : bytes := DQUOTE :: escape s ++ [DQUOTE].

Fixpoint print_call (c : Call) : bytes :=
  match c with
  | mkCall n l =>
      n ++ LPAR ::
      (fix go (first : bool) (l : list Arg) : bytes :=
         match l with
         | [] => []
         | a :: l => (if first then [] else [COM])
                     ++ (match a with AStr s => print_str s | ACall c => print_call c end)
                     ++ go false l
         end) true l ++ [RPAR]
  end.

Definition print_arg (a : Arg) : bytes :=
  match a with AStr s => print_str s | ACall c => print_call c end.
Fixpoint print_args (first : bool) (l : list Arg) : bytes :=
  match l with
  | [] => []
  | a :: l => (if first then [] else [COM]) ++ print_arg a ++ print_args false l
  end.

Lemma print_call_eq n l : print_call (mkCall n l) = n ++ LPAR :: print_args true l ++ [RPAR].
Proof. reflexivity. Qed.

(** Names are identifiers, strings are UTF-8 text. *)
Definition name_ok (n : bytes) : bool :=
  match n with c :: n => ident_start c && forallb ident_char n | [] => false end.
Inductive call_wf : Call -> Prop :=
| wf_call n l : name_ok n = true -> Forall arg_wf l -> call_wf (mkCall n l)
with arg_wf : Arg -> Prop :=
| wf_str s : utf8_valid s = true -> arg_wf (AStr s)
| wf_acall c : call_wf c -> arg_wf (ACall c).

(** ** Tokens of printed text *)

Lemma token_start t c l : rest t = c :: l -> is_ascii_whitespace c = false -> skip_ws t = t.
Proof. intros E Hc. unfold skip_ws. rewrite E. cbn. by rewrite Hc. Qed.

Lemma token_lpar t r : rest t = LPAR :: r -> exists t', token t = Ok (Some LParen, t') /\ rest t' = r.
Proof. intros E. unfold token. rewrite (token_start t LPAR r E), E by done. eexists. split; [done|apply rest_past]. Qed.

Lemma token_rpar t r : rest t = RPAR :: r -> exists t', token t = Ok (Some RParen, t') /\ rest t' = r.
Proof. intros E. unfold token. rewrite (token_start t RPAR r E), E by done. eexists. split; [done|apply rest_past]. Qed.

Lemma token_com t r : rest t = COM :: r -> exists t', token t = Ok (Some Comma, t') /\ rest t' = r.
Proof. intros E. unfold token. rewrite (token_start t COM r E), E by done. eexists. split; [done|apply rest_past]. Qed.

Lemma string_loop_escape s t acc r :
  exists t', string_loop (escape s ++ DQUOTE :: r) t acc = Ok (acc ++ s, t') /\ rest t' = r.
Proof.
  revert t acc. induction s as [|c s IH]; intros t acc.
  - cbn. eexists. rewrite app_nil_r. split; [done|apply rest_past].
  - cbn [escape]. destruct (bool_decide (c = DQUOTE)) eqn:E1;
      [|destruct (bool_decide (c = BSLASH)) eqn:E2]; cbn [orb app].
    + apply bool_decide_eq_true in E1 as ->. cbn [string_loop].
      destruct (IH (past DQUOTE (escape s ++ DQUOTE :: r) (past BSLASH (DQUOTE :: escape s ++ DQUOTE :: r) t))
        (acc ++ [DQUOTE])) as (t' & E & Hr). exists t'. rewrite <-app_assoc in E. done.
    + apply bool_decide_eq_true in E2 as ->. cbn [string_loop].
      destruct (IH (past BSLASH (escape s ++ DQUOTE :: r) (past BSLASH (BSLASH :: escape s ++ DQUOTE :: r) t))
        (acc ++ [BSLASH])) as (t' & E & Hr). exists t'. rewrite <-app_assoc in E. done.
    + cbn [string_loop]. rewrite E1, E2.
      destruct (IH (past c (escape s ++ DQUOTE :: r) t) (acc ++ [c])) as (t' & E & Hr).
      exists t'. rewrite <-app_assoc in E. done.
Qed.

Lemma token_str t s r : utf8_valid s = true -> rest t = print_str s ++ r ->
  exists t', token t = Ok (Some (TStr s), t') /\ rest t' = r.
Proof.
  intros Hu E. unfold print_str in E. cbn [app] in E. rewrite <-app_assoc in E. cbn [app] in E.
  unfold token. rewrite (token_start t DQUOTE _ E), E by done. cbv zeta.
  destruct (string_loop_escape s (past DQUOTE (escape s ++ DQUOTE :: r) t) [] r) as (t' & El & Hr).
  exists t'. split; [|done]. repeat (rewrite bool_decide_eq_false_2 by done).
  rewrite bool_decide_eq_true_2 by done. rewrite El. cbn [mbind outcome_bind app].
  by rewrite from_utf8_lossy_valid.
Qed.

Lemma ident_loop_name n t acc c r : forallb ident_char n = true -> ident_char c = false ->
  rest t = n ++ c :: r ->
  exists t', ident_loop (n ++ c :: r) t acc = (acc ++ n, t') /\ rest t' = c :: r.
Proof.
  intros Hn Hc. revert t acc. induction n as [|b n IH]; intros t acc Ht; cbn.
  - rewrite Hc, app_nil_r. by exists t.
  - cbn in Hn. apply andb_true_iff in Hn as [Hb Hn]. rewrite Hb.
    destruct (IH Hn (past b (n ++ c :: r) t) (acc ++ [b]) (rest_past _ _ _)) as (t' & E & Hr).
    exists t'. rewrite <-app_assoc in E. done.
Qed.

Lemma ident_char_facts c : ident_char c = true -> is_ascii_whitespace c = false /\ b2z c < 128
  /\ c <> LPAR /\ c <> RPAR /\ c <> COM /\ c <> DQUOTE.
Proof. by destruct c. Qed.

Lemma token_name t n r : name_ok n = true -> rest t = n ++ LPAR :: r ->
  exists t', token t = Ok (Some (TIdent n), t') /\ rest t' = LPAR :: r.
Proof.
  intros Hn E. destruct n as [|c n]; [done|]. cbn in Hn. apply andb_true_iff in Hn as [Hs Hn].
  pose proof (ident_start_char c Hs) as Hc.
  destruct (ident_char_facts c Hc) as (Hw & Ha & H1 & H2 & H3 & H4).
  unfold token. rewrite (token_start t c _ E Hw), E. cbv zeta. cbn [app].
  rewrite !bool_decide_eq_false_2 by done. rewrite Hs.
  change (c :: n ++ LPAR :: r) with ((c :: n) ++ LPAR :: r).
  destruct (ident_loop_name (c :: n) t [] LPAR r) as (t' & El & Hr); [cbn; by rewrite Hc|done|done|].
  rewrite El. exists t'. split; [|done]. rewrite from_utf8_lossy_valid; [done|].
  apply utf8_valid_ascii. constructor; [done|]. apply Forall_forall. intros b Hb.
  rewrite forallb_forall in Hn. apply (ident_char_facts b), Hn. by apply list_elem_of_In.
Qed.

(** ** The round trip *)

(** The argument loop reads printed arguments back, wherever it stands. *)
Definition args_back (l : list Arg) : Prop := forall first acc t r fuel,
  (first = true -> acc = []) -> (first = false -> acc <> []) ->
  rest t = print_args first l ++ RPAR :: r -> (len t < fuel)%nat ->
  exists t', parse_args fuel t acc = Ok (acc ++ l, t') /\ rest t' = r.

Definition call_back (c : Call) : Prop := call_wf c -> args_back (args c).

(** One argument. *)
Lemma arg_back a acc t r fuel : on_call call_back a -> arg_wf a ->
  rest t = print_arg a ++ r -> (len t < fuel)%nat ->
  exists fuel' t', parse_args fuel t acc = parse_args fuel' t' (acc ++ [a]) /\ rest t' = r
    /\ (len t' < fuel')%nat.
Proof.
  intros Ha Hwf E Hf. destruct fuel as [|fuel]; [lia|]. inversion Hwf as [s Hs|c Hc]; subst; cbn [print_arg] in E.
  - destruct (token_str t s r Hs E) as (t' & Et & Hr). exists fuel, t'.
    pose proof (token_total t) as Hl. rewrite Et in Hl. cbn [parse_args]. rewrite Et. split_and!; [done..|lia].
  - destruct c as [n l]. rewrite print_call_eq in E. rewrite <-app_assoc in E. cbn [app] in E.
    rewrite <-app_assoc in E. cbn [app] in E.
    pose proof Hc as Hc'. inversion Hc' as [n' l' Hn _]; subst.
    destruct (token_name t n _ Hn E) as (t1 & E1 & Hr1). destruct (token_lpar t1 _ Hr1) as (t2 & E2 & Hr2).
    pose proof (token_total t) as L1. rewrite E1 in L1. pose proof (token_total t1) as L2. rewrite E2 in L2.
    destruct (Ha Hc true [] t2 r fuel ltac:(done) ltac:(done) Hr2 ltac:(lia)) as (t3 & E3 & Hr3).
    pose proof (parse_args_total fuel t2 [] ltac:(lia)) as L3. rewrite E3 in L3.
    exists fuel, t3. split_and!; [|done|lia].
    cbn [parse_args]. rewrite E1. cbn [mbind outcome_bind]. rewrite E2. cbn [mbind outcome_bind].
    rewrite E3. done.
Qed.

Lemma call_back_all c : call_back c.
Proof.
  induction c as [n l Hl] using Call_rect'. intros Hwf. inversion Hwf as [n' l' Hn Hall]; subst. clear Hwf.
  cbn [args]. induction Hl as [|a l Ha Hl IH]; intros first acc t r fuel Hfi Hse E Hf.
  - cbn in E. destruct (token_rpar t r E) as (t' & Et & Hr). exists t'.
    destruct fuel as [|fuel]; [lia|]. cbn [parse_args]. rewrite Et, app_nil_r. done.
  - apply Forall_cons in Hall as [Hwa Hall]. cbn [print_args] in E. rewrite <-!app_assoc in E.
    assert (exists fuel0 t0, parse_args fuel t acc = parse_args fuel0 t0 acc
      /\ rest t0 = print_arg a ++ print_args false l ++ RPAR :: r /\ (len t0 < fuel0)%nat) as (f0 & t0 & -> & E0 & Hf0).
    { destruct first; [by exists fuel, t|]. destruct (token_com t _ E) as (t0 & Et & Hr).
      pose proof (token_total t) as L. rewrite Et in L. destruct fuel as [|fuel]; [lia|].
      exists fuel, t0. split_and!; [|done|lia]. cbn [parse_args]. rewrite Et. cbn [mbind outcome_bind].
      rewrite bool_decide_eq_false_2; [done|]. specialize (Hse eq_refl). by destruct acc. }
    destruct (arg_back a acc t0 _ f0 Ha Hwa E0 Hf0) as (f1 & t1 & -> & E1 & Hf1).
    replace (acc ++ a :: l) with ((acc ++ [a]) ++ l) by (by rewrite <-app_assoc).
    apply (IH Hall false); [done| |done|done]. intros _ Hn0. by apply app_nil in Hn0 as [_ ?].
Qed.

Lemma parse_print c : call_wf c -> parse_statement (print_call c) = Ok c.
Proof.
  intros Hwf. pose proof (call_back_all c Hwf) as Hb. destruct c as [n l]. inversion Hwf as [n' l' Hn _]; subst.
  cbn [args] in Hb. rewrite print_call_eq. set (src := n ++ LPAR :: print_args true l ++ [RPAR]).
  destruct (token_name (tok_new src) n (print_args true l ++ [RPAR]) Hn eq_refl) as (t1 & E1 & Hr1).
  destruct (token_lpar t1 _ Hr1) as (t2 & E2 & Hr2).
  destruct (Hb true [] t2 [] (S (length (rest t2))) ltac:(done) ltac:(done) Hr2 ltac:(unfold len; lia))
    as (t3 & E3 & Hr3).
  assert (exists c0 s0, rest (tok_new src) = c0 :: s0 /\ is_ascii_whitespace c0 = false) as (c0 & s0 & Es & Hw).
  { destruct n as [|c0 n0]; [done|]. exists c0, (n0 ++ LPAR :: print_args true l ++ [RPAR]). split; [done|].
    cbn in Hn. apply andb_true_iff in Hn as [Hs _]. by apply (ident_char_facts c0), ident_start_char. }
  unfold parse_statement, parse_call. rewrite (token_start _ c0 s0 Es Hw), Es.
  unfold parse_call_inner. rewrite E1. cbn [mbind outcome_bind].
  unfold parse_named_call. rewrite E2. cbn [mbind outcome_bind]. rewrite E3. cbn [mbind outcome_bind app].
  unfold expect_end, skip_ws. rewrite Hr3. cbn. by rewrite Hr3.
Qed.

(** ** Evaluation, one level *)

Lemma contains_mutator_eq n l : contains_mutator (mkCall n l)
  = is_mutator n || existsb (fun a => match a with ACall c => contains_mutator c | _ => false end) l.
Proof. cbn [contains_mutator]. f_equal. induction l as [|[s|c] l IH]; cbn; congruence. Qed.

Section query.
Context `{Sha256, HexCrate, SerdeJson}.
Context (hlc_now : nat -> Z) (fields_text : list bytes -> bytes).

Abbreviation exec := (exec hlc_now fields_text).
Abbreviation dispatch := (dispatch hlc_now fields_text).
Abbreviation eval := (eval hlc_now fields_text).

Definition operand_of (a : Arg) : operand :=
  match a with AStr s => str_operand s | ACall c => call_operand (name c) (exec c) end.

Lemma exec_eq n l : exec (mkCall n l) = dispatch n (map operand_of l).
Proof. cbn [Query.exec]. f_equal. induction l as [|[s|c] l IH]; cbn; congruence. Qed.

(** A property of computations that holds of every operand. *)
Definition operand_is (P : forall A, query_m A -> Prop) (o : operand) : Prop :=
  P _ (str_arg o) /\ P _ (num_arg o).

(** ** Read-only statements *)

(** The same context through the other arm of [StoreRef], or at another
    reading of the clock. *)
Definition arm (b : bool) (q : QueryCtx) : QueryCtx :=
  mkCtx (q_store q) b (q_scope q) (q_host q) (q_remote q) (q_ticks q).
Definition at_tick (n : nat) (q : QueryCtx) : QueryCtx :=
  mkCtx (q_store q) (q_write q) (q_scope q) (q_host q) (q_remote q) n.

(** For a remote caller: the outcome does not depend on the arm, and only the
    clock moves. *)
Definition reads_only {A} (m : query_m A) : Prop := forall q, q_remote q = true ->
  exists n o, forall b, m (arm b q) = (arm b (at_tick n q), o).

Lemma ro_lift {A} (o : outcome QueryError A) : reads_only (lift o).
Proof. intros q _. by exists (q_ticks q), o. Qed.

Lemma ro_ret {A} (a : A) : reads_only (mret a).
Proof. apply (ro_lift (Ok a)). Qed.

Lemma ro_bind {A B} (m : query_m A) (k : A -> query_m B) :
  reads_only m -> (forall a, reads_only (k a)) -> reads_only (m ≫= k).
Proof.
  intros Hm Hk q Hq. destruct (Hm q Hq) as (n & o & Em). destruct o as [a|e|].
  - destruct (Hk a (at_tick n q) Hq) as (n' & o' & Ek). exists n', o'. intros b.
    unfold mbind, method_bind. rewrite Em. apply Ek.
  - exists n, (Err e). intros b. unfold mbind, method_bind. by rewrite Em.
  - exists n, Panic. intros b. unfold mbind, method_bind. by rewrite Em.
Qed.

Lemma ro_self {B} (k : QueryCtx -> query_m B) :
  (forall q, reads_only (k q)) -> (forall q b, k (arm b q) = k q) -> reads_only (self ≫= k).
Proof.
  intros Hk He q Hq. destruct (Hk q q Hq) as (n & o & Ek). exists n, o. intros b.
  unfold mbind, method_bind, self. by rewrite He.
Qed.

Lemma ro_clock : reads_only (read_clock hlc_now).
Proof. intros q _. by exists (S (q_ticks q)), (Ok (hlc_now (q_ticks q))). Qed.

Lemma ro_scope : reads_only scope_of.
Proof. apply ro_self; [|done]. intros q. apply ro_lift. Qed.

(** The functions a remote caller may not use. *)
Lemma ro_refused {B} e (k : QueryCtx -> unit -> query_m B) :
  reads_only (self ≫= fun q => lift (guard_err (q_remote q) e) ≫= k q).
Proof.
  intros q Hq. exists (q_ticks q), (Err e). intros b. unfold mbind, method_bind, self, lift. cbn.
  by rewrite Hq.
Qed.

Lemma ro_arg {B} l i (k : operand -> query_m B) :
  Forall (operand_is (@reads_only)) l -> (forall o, operand_is (@reads_only) o -> reads_only (k o)) ->
  reads_only (o ← arg l i; k o).
Proof.
  intros Hl Hk. unfold arg. destruct (l !! i) as [o|] eqn:E; cbn.
  - intros q Hq. destruct (Hk o) with (q := q) as (n & r & E'); [by eapply Forall_lookup_1|done|].
    by exists n, r.
  - intros q _. by exists (q_ticks q), Panic.
Qed.

Ltac ro :=
  repeat first
    [ apply ro_ret | apply ro_lift | apply ro_clock | apply ro_scope
    | apply ro_refused
    | match goal with |- reads_only (arg _ _ ≫= _) => apply ro_arg; [assumption|intros ? [? ?]] end
    | match goal with |- reads_only (self ≫= _) => apply ro_self; [intros ?|done] end
    | match goal with |- reads_only (_ ≫= _) => apply ro_bind; [|intros ?] end
    | assumption ].

Lemma ro_dispatch n l : is_mutator n = false -> Forall (operand_is (@reads_only)) l ->
  reads_only (dispatch n l).
Proof.
  unfold is_mutator. rewrite !orb_false_iff, !bool_decide_eq_false. intros (((N1 & N2) & N3) & N4) Hl.
  unfold Query.dispatch. repeat (case_bool_decide; [try done|]); try apply ro_lift.
  all: unfold fn_now, fn_hlc, fn_before, fn_clock_skew, fn_use, fn_create_ns, fn_get, fn_scan, fn_get_all,
         fn_index_fields, fn_by_index, argc; ro.
Qed.

Lemma ro_exec c : contains_mutator c = false -> reads_only (exec c).
Proof.
  induction c as [n l Hl] using Call_rect'. rewrite contains_mutator_eq, orb_false_iff.
  intros [Hn He]. rewrite exec_eq. apply ro_dispatch; [done|].
  induction Hl as [|a l Ha Hl IH]; [constructor|]. cbn in He. apply orb_false_iff in He as [Hc He].
  constructor; [|by apply IH]. destruct a as [s|c]; split; cbn; ro; [by apply Ha| |by apply Ha|];
    by case_match; apply ro_lift || apply ro_ret.
Qed.

(** ** Statements of a remote caller *)

(** What a computation of a remote caller scoped to [n] may change. *)
Definition confined (n : bytes) {A} (m : query_m A) : Prop := forall q,
  q_remote q = true -> q_scope q = Some n ->
  let q' := (m q).1 in
  q_remote q' = true /\ q_scope q' = Some n /\ q_host q' = q_host q /\ q_write q' = q_write q
  /\ frame [bs "index/" ++ n] n (q_store q) (q_store q').

Lemma cf_lift {A} n (o : outcome QueryError A) : confined n (lift o).
Proof. by intros q Hr Hs. Qed.
Lemma cf_ret {A} n (a : A) : confined n (mret a).
Proof. by intros q Hr Hs. Qed.
Lemma cf_bind {A B} n (m : query_m A) (k : A -> query_m B) :
  confined n m -> (forall a, confined n (k a)) -> confined n (m ≫= k).
Proof.
  intros Hm Hk q Hr Hs. destruct (Hm q Hr Hs) as (Hr1 & Hs1 & Hh1 & Hw1 & F1).
  unfold mbind, method_bind. destruct (m q) as [q1 [a|e|]]; cbn in *; try done.
  destruct (Hk a q1 Hr1 Hs1) as (Hr2 & Hs2 & Hh2 & Hw2 & F2).
  split_and!; try congruence. by etrans.
Qed.
Lemma cf_self {B} n (k : QueryCtx -> query_m B) : (forall q, confined n (k q)) -> confined n (self ≫= k).
Proof. intros Hk q Hr Hs. by apply Hk. Qed.
Lemma cf_clock n : confined n (read_clock hlc_now).
Proof. by intros q Hr Hs. Qed.
Lemma cf_scope {B} n (k : bytes -> query_m B) : confined n (k n) -> confined n (scope_of ≫= k).
Proof.
  intros Hk q Hr Hs. assert (scope_of q = (q, Ok n)) as E.
  { unfold scope_of, mbind, method_bind, self, lift. by rewrite Hs. }
  rewrite (method_bind_step _ _ _ _ _ E). by apply Hk.
Qed.
Lemma cf_refused {B} n e (k : QueryCtx -> unit -> query_m B) :
  confined n (self ≫= fun q => lift (guard_err (q_remote q) e) ≫= k q).
Proof. intros q Hr Hs. unfold mbind, method_bind, self, lift. cbn. by rewrite Hr. Qed.
Lemma cf_arg {B} n l i (k : operand -> query_m B) :
  Forall (operand_is (@confined n)) l -> (forall o, operand_is (@confined n) o -> confined n (k o)) ->
  confined n (o ← arg l i; k o).
Proof.
  intros Hl Hk. unfold arg. destruct (l !! i) as [o|] eqn:E; cbn.
  - intros q Hr Hs. apply (Hk o); [by eapply Forall_lookup_1|done..].
  - by intros q Hr Hs.
Qed.
Lemma cf_on_store {A} n (m : store_m A) : frames [bs "index/" ++ n] n m -> confined n (on_store m).
Proof.
  intros Hm q Hr Hs. unfold on_store. specialize (Hm (q_store q)).
  destruct (q_write q) eqn:Ew; [|by split_and!]. destruct (m (q_store q)) as [s o]. cbn. by split_and!.
Qed.
Lemma cf_str_args n l : Forall (operand_is (@confined n)) l -> confined n (str_args l).
Proof.
  induction 1 as [|o l [Ho _] Hl IH]; cbn; [apply cf_ret|].
  apply cf_bind; [done|]. intros s. apply cf_bind; [done|]. intros ss. apply cf_ret.
Qed.

Ltac cf :=
  repeat match goal with
  | |- confined _ (mret _) => apply cf_ret
  | |- confined _ (lift _) => apply cf_lift
  | |- confined _ (read_clock _) => apply cf_clock
  | |- confined _ (on_store (put _ _ _ _ _ _ _)) => apply cf_on_store, frames_put
  | |- confined _ (on_store (delete _ _ _ _ _)) => apply cf_on_store, frames_delete
  | |- confined _ (on_store (set_index _ _ _ _ _)) => apply cf_on_store, frames_set_index, list_elem_of_here
  | |- confined _ (scope_of ≫= _) => apply cf_scope
  | |- confined _ (arg _ _ ≫= _) => apply cf_arg; [assumption|intros ? [? ?]]
  | |- confined _ (str_args _ ≫= _) => apply cf_bind; [by apply cf_str_args|intros ?]
  | |- confined _ (self ≫= fun q => lift (guard_err (q_remote q) _) ≫= _) => apply cf_refused
  | |- confined _ (self ≫= _) => apply cf_self; intros ?
  | |- confined _ (_ ≫= _) => apply cf_bind; [|intros ?]
  | H : confined _ ?m |- confined _ ?m => exact H
  end.

Lemma cf_dispatch n fn l : Forall (operand_is (@confined n)) l -> confined n (dispatch fn l).
Proof.
  intros Hl. unfold Query.dispatch. repeat (case_bool_decide; [|]); try apply cf_lift.
  all: unfold fn_now, fn_hlc, fn_before, fn_clock_skew, fn_use, fn_create_ns, fn_get, fn_put, fn_del,
         fn_scan, fn_get_all, fn_index_create, fn_index_fields, fn_index_drop, fn_by_index, argc; cf.
Qed.

Lemma cf_exec n c : confined n (exec c).
Proof.
  induction c as [fn l Hl] using Call_rect'. rewrite exec_eq. apply cf_dispatch.
  induction Hl as [|a l Ha Hl IH]; [constructor|]. constructor; [|done].
  destruct a as [s|c]; split; cbn; cf; try apply Ha; by case_match; apply cf_lift || apply cf_ret.
Qed.

Lemma cf_eval n src : confined n (eval src).
Proof. apply cf_bind; [apply cf_lift|]. intros c. apply cf_exec. Qed.

(** ** Properties *)

(** C30: a statement of a remote caller that [classify] finds read-only can run
    under the read lock: its outcome is the same with either kind of store
    handle, never the refusal of a mutation, and it changes neither the store
    nor the scope. *)
Theorem readonly_never_mutates src q : classify src = Ok ReadOnly -> q_remote q = true ->
  exists n o, forall b, eval src (arm b q) = (arm b (at_tick n q), o).
Proof.
  unfold classify. intros Hc Hq. apply bind_ok in Hc as (c & Hp & Hc).
  destruct (contains_mutator c) eqn:Em; [done|]. clear Hc.
  destruct (ro_exec c Em q Hq) as (n & o & E). exists n, o. intros b.
  unfold Query.eval. rewrite Hp. apply E.
Qed.


End query.

(** C32: the parser returns a result on every input, never runs out of rounds,
    and reads every printed call back, nested calls and escaped strings
    included. *)
Theorem parse_print_roundtrip c : call_wf c ->
  parse_statement (print_call c) = Ok c /\ forall src, parse_statement src <> Panic.
Proof. intros Hwf. split; [by apply parse_print|apply parse_statement_total]. Qed.

(** ** Witnesses *)

#[local] Existing Instance toy_sha256.
#[local] Existing Instance hex_plain.
#[local] Existing Instance toy_json.

Definition demo_call : Call := mkCall (bs "get") [ACall (mkCall (bs "get") [AStr (bs "a")])].
Definition demo_ctx : QueryCtx := mkCtx demo_store true (Some (bs "app")) (node Byte.x05) true 0.

Lemma parse_print_roundtrip_witness :
  parse_statement (print_call demo_call) = Ok demo_call /\ forall src, parse_statement src <> Panic.
Proof. apply (parse_print_roundtrip demo_call). repeat constructor. Defined.

Lemma readonly_never_mutates_witness :
  exists n o, forall b, eval (fun _ => 77) mjoin (print_call demo_call) (arm b demo_ctx)
    = (arm b (at_tick n demo_ctx), o).
Proof.
  apply (readonly_never_mutates (fun _ => 77) mjoin (print_call demo_call) demo_ctx);
    vm_compute; reflexivity.
Defined.


End QuerySpec.
