(* ===== verification/Server.v ===== *)
(** The HTTP API ([src/server/mod.rs]): the shared state, the authentication
    middleware, the admin and data handlers and the routes.

    A request is one step on the state.  What it reads of the world is its
    environment: the clocks, the randomness, which cache shards it finds
    locked and whether the configuration file can be written.  A handler
    answers with [Ok] or returns early with [Err], both a response. *)

From S2P Require Import Prelude Crc32 LogFormat Log Base64 Utf8 Text StoreTypes Store Hlc Ident Json Schema Config Caps Auth RateLimit Query.
Import Utf8 Text Store Json Config ConfigOps.

Module Server.

(** ** State *)

(** What a request sends to other tasks: the sync trigger and the change feed. *)
Inductive signal := SyncKick | Changed (ns : bytes).

Record AppState := mkApp {
  store : Store;
  root : Ident.PublicKey;
  keyring : Caps.RootKeyring;
  kp : Ident.Keypair;
  revocations : Caps.RevocationSet;
  host_name : bytes;
  quota : Z;
  sync_tx : bool;
  rev_epoch : Z;
  cap_cache : Auth.CapCache;
  token_cache : Caps.TokenCache;
  requests : Z;
  writes : Z;
  ratelimiter : RateLimit.RateLimiter;
  config : Config;
  config_path : bytes;
  config_file : option bytes;
  signals : list signal;
}.

Definition with_store (x : Store) (s : AppState) : AppState :=
  mkApp x (root s) (keyring s) (kp s) (revocations s) (host_name s) (quota s) (sync_tx s)
    (rev_epoch s) (cap_cache s) (token_cache s) (requests s) (writes s) (ratelimiter s)
    (config s) (config_path s) (config_file s) (signals s).
(** A revocation and the epoch move together, under the write lock. *)
Definition with_revocations (x : Caps.RevocationSet) (e : Z) (s : AppState) : AppState :=
  mkApp (store s) (root s) (keyring s) (kp s) x (host_name s) (quota s) (sync_tx s)
    e (cap_cache s) (token_cache s) (requests s) (writes s) (ratelimiter s)
    (config s) (config_path s) (config_file s) (signals s).
Definition with_cap_cache (x : Auth.CapCache) (s : AppState) : AppState :=
  mkApp (store s) (root s) (keyring s) (kp s) (revocations s) (host_name s) (quota s) (sync_tx s)
    (rev_epoch s) x (token_cache s) (requests s) (writes s) (ratelimiter s)
    (config s) (config_path s) (config_file s) (signals s).
Definition with_token_cache (x : Caps.TokenCache) (s : AppState) : AppState :=
  mkApp (store s) (root s) (keyring s) (kp s) (revocations s) (host_name s) (quota s) (sync_tx s)
    (rev_epoch s) (cap_cache s) x (requests s) (writes s) (ratelimiter s)
    (config s) (config_path s) (config_file s) (signals s).
Definition with_limiter (x : RateLimit.RateLimiter) (s : AppState) : AppState :=
  mkApp (store s) (root s) (keyring s) (kp s) (revocations s) (host_name s) (quota s) (sync_tx s)
    (rev_epoch s) (cap_cache s) (token_cache s) (requests s) (writes s) x
    (config s) (config_path s) (config_file s) (signals s).
Definition with_config (x : Config) (f : option bytes) (s : AppState) : AppState :=
  mkApp (store s) (root s) (keyring s) (kp s) (revocations s) (host_name s) (quota s) (sync_tx s)
    (rev_epoch s) (cap_cache s) (token_cache s) (requests s) (writes s) (ratelimiter s)
    x (config_path s) f (signals s).
Definition with_counts (r w : Z) (s : AppState) : AppState :=
  mkApp (store s) (root s) (keyring s) (kp s) (revocations s) (host_name s) (quota s) (sync_tx s)
    (rev_epoch s) (cap_cache s) (token_cache s) r w (ratelimiter s)
    (config s) (config_path s) (config_file s) (signals s).
Definition send (x : signal) (s : AppState) : AppState :=
  mkApp (store s) (root s) (keyring s) (kp s) (revocations s) (host_name s) (quota s) (sync_tx s)
    (rev_epoch s) (cap_cache s) (token_cache s) (requests s) (writes s) (ratelimiter s)
    (config s) (config_path s) (config_file s) (signals s ++ [x]).

Definition notify_sync (s : AppState) : AppState := if sync_tx s then send SyncKick s else s.
Definition notify_change (ns : bytes) (s : AppState) : AppState := send (Changed ns) s.
Definition bump_requests (s : AppState) : AppState := with_counts (u64 (requests s + 1)) (writes s) s.
Definition bump_writes (s : AppState) : AppState := with_counts (requests s) (u64 (writes s + 1)) s.

(** ** Requests and responses *)

Inductive Method := GET | PUT | DELETE | OTHER.

(** Error codes that carry a formatted message. *)
Inductive api_error :=
| Code (s : string)
| UnsupportedSchema (u : Schema.unsupported)
| SchemaViolation (v : Schema.violation)
| NotJson
| PeerRefused (e : config_error)
| AuthFailed (e : Auth.AuthError)
| StorageFailed (e : StorageError).

(** The outcome of one operation of a batch. *)
Inductive op_result :=
| OpError (e : api_error)
| OpSeq (seq : Z)
| OpValue (value_b64 : option bytes).

Inductive Body :=
| Json (v : jvalue)
| Raw (b : bytes)
| Failed (e : api_error)
| QueryValue (v : Query.Value)
| Results (l : list (option op_result))
| EventStream (ns : bytes) (since : Z).

Record Response := mkResponse { status : Z; body : Body }.

Definition ok_json (v : jvalue) : Response := mkResponse 200 (Json v).
Definition err_json (code : Z) (e : api_error) : Response := mkResponse code (Failed e).
Definition err_code (code : Z) (s : string) : Response := err_json code (Code s).

Definition auth_to_response (e : Auth.AuthError) : Response :=
  match e with
  | Auth.QuotaExceeded _ _ => err_code 409 "quota_exceeded"
  | _ => err_code 403 "forbidden"
  end.

(** The environment of a request: the readings of the wall clock and of
    [Hlc::now] in the order of the code, the eight random bytes of a nonce,
    what [try_lock] and the file system say, and whether a stream slot is free
    (Sse.v). *)
Record env := mkEnv {
  wall : nat -> Z;
  hlc_clock : nat -> Z;
  os_random : bytes;
  token_busy : bool;
  cap_busy : nat -> bool;
  cfg_io : write_result;
  sse_slot : bool;
}.

Abbreviation handler := (method AppState Response).

(** [return r] *)
Definition reply {A} (r : Response) : handler A := lift (Err r).
Definition reply_if (c : bool) (r : Response) : handler unit := lift (guard_err c r).

(** A method of the store, its result to be matched on. *)
Definition on_store {A E} (m : method Store E A) : handler (A + E) := fun s =>
  let '(st, o) := m (store s) in
  (with_store st s, match o with Ok a => Ok (inl a) | Err e => Ok (inr e) | Panic => Panic end).

(** ** Helpers *)

Definition policy_str (p : ConflictPolicy) : string :=
  match p with PLww => "lww" | CrdtRegister => "register" end.

Definition entry_expires_at (e : Entry) : Z :=
  match e with
  | Lww v => expires_at v
  | Register vs => default 0 (expires_at <$> max_version vs)
  end.

Definition live (now : Z) (v : Version) : bool := (expires_at v =? 0) || (now <? expires_at v).

Definition latest_value (e : Entry) (now : Z) : option bytes :=
  match e with
  | Lww v => if live now v then Some (value v) else None
  | Register vs => value <$> max_version (List.filter (live now) vs)
  end.

(** [key.rfind('/')] *)
Fixpoint rfind_go (c : byte) (l : bytes) (i : nat) (found : option nat) : option nat :=
  match l with
  | [] => found
  | b :: l => rfind_go c l (S i) (if bool_decide (b = c) then Some i else found)
  end.
Definition rfind (c : byte) (l : bytes) : option nat := rfind_go c l 0 None.

(** [key.trim_start_matches('/')] *)
Fixpoint trim_slashes (l : bytes) : bytes :=
  match l with
  | b :: rest => if bool_decide (b = Caps.SLASH) then trim_slashes rest else l
  | [] => []
  end.

Definition data_scope (t : Caps.Tier) (ns key host : bytes) : Caps.Scope :=
  let key := trim_slashes key in
  let prefix := match rfind Caps.SLASH key with
                | Some i => if (0 <? i)%nat then Some (take i key) else None
                | None => None
                end in
  Caps.mkScope host t ns prefix.

Definition l1_scope (s : AppState) : Caps.Scope := Caps.mkScope (host_name s) Caps.L1 (bs "*") None.

Definition url_decoded (s : bytes) : bytes := s.

Section server.
Context `{Sha256, HexCrate, SerdeJson, JsonFloat, Ed25519, CapJson, ConfigText, RateLimit.HashOrder}.
(** [serde_json::to_vec] on a list of strings. *)
Context (fields_text : list bytes -> bytes).
Context (e : env).

Definition version_json (v : Version) : jvalue :=
  jobj [("hlc", jnum (hlc v)); ("replica", JString (hex_encode (replica v))); ("seq", jnum (seq v));
        ("expires_at", jnum (expires_at v)); ("value_b64", JString (Base64.b64_encode (value v)))]%string.

(** The rows of a scan, without the expired ones. *)
Definition rows_json (rows : list (bytes * Entry)) (now : Z) : jvalue :=
  jobj [("entries", JArray (omap (fun '(k, en) =>
    (fun v => jobj [("key", JString (from_utf8_lossy k)); ("value_b64", JString (Base64.b64_encode v));
                    ("expires_at", jnum (entry_expires_at en))]) <$> latest_value en now) rows))]%string.

(** ** Authentication *)

Definition parse_cap_header (h : bytes) : option Caps.Capability :=
  rest ← strip_prefix (bs "Bearer ") h;
  b64 ← strip_prefix (bs "bmdb-cap:") rest;
  match Base64.b64url_decode b64 with
  | Ok b => text ← from_utf8 b;
            match Caps.from_json text with Ok c => Some c | _ => None end
  | _ => None
  end.

(** [state.ratelimiter.allow(key, now)] *)
Definition rate_ok (key : bytes) (now : Z) : handler bool := fun s =>
  let '(r, ok) := RateLimit.allow (ratelimiter s) key now in (with_limiter r s, Ok ok).

Definition rate_limit (key : bytes) (now : Z) : handler unit :=
  ok ← rate_ok key now; reply_if (negb ok) (err_code 429 "rate_limited").

(** The capability of a header, through the parse cache. *)
Definition header_cap (h : bytes) : handler (option Caps.Capability) :=
  s ← self;
  let digest := Caps.token_digest h in
  match Caps.token_get (token_cache s) digest (token_busy e) with
  | Some c => mret (Some c)
  | None =>
      match parse_cap_header h with
      | Some c => _ ← update (fun s => with_token_cache (Caps.token_put (token_cache s) digest c) s);
                  mret (Some c)
      | None => mret None
      end
  end.

(** The middleware: the capabilities it attaches to the request. *)
Definition auth_mw (header : option bytes) : handler (option (list Caps.Capability)) :=
  _ ← update bump_requests;
  let now := wall e 0 in
  match header with
  | None => _ ← rate_limit (bs "anon") now; mret None
  | Some h =>
      oc ← header_cap h;
      match oc with
      | Some c =>
          s ← self;
          let key := if bool_decide (Caps.host (Caps.scope c) = host_name s)
                     then hex_encode (Caps.token_digest h) else bs "anon" in
          _ ← rate_limit key now;
          mret (Some [c])
      | None => _ ← rate_limit (bs "anon") now; reply (err_code 401 "invalid_capability")
      end
  end.

Definition auth_l1_l2 (caps : option (list Caps.Capability)) (sc : Caps.Scope) (p : Caps.PermSet)
    (now : Z) : handler Ident.PublicKey :=
  caps ← lift (ok_or (err_code 401 "invalid_capability") caps);
  principal ← lift (ok_or (err_code 401 "invalid_capability") (Caps.subject <$> List.hd_error caps));
  s ← self;
  let '(cache, o) := Auth.authorize_cached sc principal p caps (keyring s) (revocations s) (host_name s)
                       now (cap_busy e) (rev_epoch s) (Some (cap_cache s)) in
  _ ← update (with_cap_cache (default (cap_cache s) cache));
  _ ← lift (map_err auth_to_response o);
  mret principal.

(** The admin check that opens every [/l1] handler. *)
Definition admin (caps : option (list Caps.Capability)) : handler Ident.PublicKey :=
  s ← self; auth_l1_l2 caps (l1_scope s) Caps.ADMIN (wall e 1).

Definition tier_of (ns : bytes) : Caps.Tier := if starts_with (bs "u/") ns then Caps.L3 else Caps.L2.

Definition data_auth (caps : option (list Caps.Capability)) (ns key : bytes) (p : Caps.PermSet)
    : handler (Ident.PublicKey * Caps.Tier) :=
  s ← self;
  let tier := tier_of ns in
  let sc := data_scope tier ns key (host_name s) in
  principal ← auth_l1_l2 caps sc p (wall e 1);
  mret (principal, tier).

(** ** Open routes *)

Definition healthz : handler Response := mret (ok_json (jobj [("ok", JBool true)]%string)).

Definition metrics : handler Response :=
  s ← self;
  mret (ok_json (jobj [("requests", jnum (requests s)); ("writes", jnum (writes s));
    ("namespaces", jnum (Z.of_nat (length (namespaces (store s)))))]%string)).

(** ** Namespaces *)

Abbreviation auth_caps := (option (list Caps.Capability)).

Definition l1_list_namespaces (caps : auth_caps) : handler Response :=
  _ ← admin caps; s ← self;
  mret (ok_json (JArray ((fun '(name, policy) =>
    jobj [("name", JString name); ("policy", jstr (policy_str policy))]%string)
      <$> namespaces (store s)))).

Definition l1_create_namespace (caps : auth_caps) (name policy : bytes) : handler Response :=
  _ ← admin caps;
  _ ← reply_if (starts_with (bs "u/") name) (err_code 403 "forbidden");
  p ← (if bool_decide (policy = bs "lww") then mret PLww
       else if bool_decide (policy = bs "register") then mret CrdtRegister
       else reply (err_code 400 "bad_request"));
  r ← on_store (create_namespace name p);
  mret (match r with
        | inl _ => ok_json (jobj [("ok", JBool true)]%string)
        | inr (NamespaceExists _) => err_code 409 "namespace_exists"
        | inr (BadName _) => err_code 400 "bad_request"
        | inr _ => err_code 500 "internal"
        end).

(** ** Peers *)

Definition opt_json {A} (f : A -> jvalue) (o : option A) : jvalue :=
  match o with Some a => f a | None => JNull end.

Definition l1_peers_list (caps : auth_caps) : handler Response :=
  _ ← admin caps; s ← self;
  mret (ok_json (jobj [("peers", JArray ((fun p =>
    jobj [("name", JString (peer_name p)); ("addr", JString (addr p)); ("pin", JString (pin p))]%string)
      <$> peers (config s)))]%string)).

Definition save_config : handler Response := fun s =>
  let '(file, o) := save (config s) (config_path s) (cfg_io e) (config_file s) in
  (with_config (config s) file s,
   Ok match o with
      | Ok _ => ok_json (jobj [("ok", JBool true)]%string)
      | _ => err_code 500 "config_save_failed"
      end).

Definition l1_peers_add (caps : auth_caps) (name addr pin : bytes) (namespaces : option (list bytes))
    : handler Response :=
  _ ← admin caps; s ← self;
  c ← lift (map_err (fun m => err_json 400 (PeerRefused m))
              (add_peer_scoped (config s) name addr pin namespaces));
  _ ← update (fun s => with_config c (config_file s) s);
  save_config.

Definition l1_peers_remove (caps : auth_caps) (name : bytes) : handler Response :=
  _ ← admin caps; s ← self;
  let '(c, found) := remove_peer (config s) name in
  _ ← update (fun s => with_config c (config_file s) s);
  _ ← reply_if (negb found) (err_code 404 "peer_not_found");
  save_config.

(** ** Schemas and indexes *)

(** [from_str(lossy(bytes)).unwrap_or(Null)] *)
Definition parse_or_null (b : bytes) : jvalue := default JNull (json_value (from_utf8_lossy b)).

(** A committed write: the sync trigger, the counter, the change feed. *)
Definition committed (ns : bytes) (s : AppState) : AppState :=
  notify_change ns (bump_writes (notify_sync s)).

Definition seq_json (seq : Z) : jvalue := jobj [("ok", JBool true); ("seq", jnum seq)]%string.

Definition needs_namespace (ns : bytes) : handler unit :=
  s ← self;
  reply_if (bool_decide (policy (store s) ns = None)) (err_code 404 "namespace_not_found").

Definition l1_schema_get (caps : auth_caps) (ns : bytes) : handler Response :=
  _ ← admin caps; s ← self;
  mret (match schema (store s) ns with
        | Some b => ok_json (parse_or_null b)
        | None => err_code 404 "no_schema"
        end).

Definition l1_schema_set (caps : auth_caps) (ns text : bytes) : handler Response :=
  _ ← admin caps;
  sch ← lift (ok_or (err_code 400 "bad_json") (json_value (from_utf8_lossy text)));
  _ ← lift (map_err (fun u => err_json 400 (UnsupportedSchema u)) (Schema.check_supported sch));
  _ ← needs_namespace ns; s ← self;
  r ← on_store (set_schema ns (Some text) (hlc_clock e 0) (root s) (root s));
  match r with
  | inl seq => _ ← update (committed ns); mret (ok_json (seq_json seq))
  | inr _ => mret (err_code 500 "internal")
  end.

Definition l1_schema_clear (caps : auth_caps) (ns : bytes) : handler Response :=
  _ ← admin caps;
  _ ← needs_namespace ns; s ← self;
  r ← on_store (set_schema ns None (hlc_clock e 0) (root s) (root s));
  match r with
  | inl seq => _ ← update (committed ns); mret (ok_json (seq_json seq))
  | inr _ => mret (err_code 500 "internal")
  end.

Definition l1_index_get (caps : auth_caps) (ns : bytes) : handler Response :=
  _ ← admin caps; s ← self;
  mret (match index_def (store s) ns with
        | Some b => ok_json (parse_or_null b)
        | None => err_code 404 "no_index"
        end).

Definition dedupe_fields (fields : list bytes) : list bytes :=
  fold_left (fun seen f => if bool_decide (f = []) || bool_decide (f ∈ seen) then seen else seen ++ [f])
    fields [].

Definition l1_index_set (caps : auth_caps) (ns text : bytes) : handler Response :=
  _ ← admin caps;
  fields ← lift (ok_or (err_code 400 "bad_index_def") (json_strings (from_utf8_lossy text)));
  let seen := dedupe_fields fields in
  _ ← needs_namespace ns; s ← self;
  r ← on_store (set_index ns (Some (fields_text seen)) (hlc_clock e 0) (root s) (root s));
  match r with
  | inl seq =>
      _ ← update (committed ns);
      mret (ok_json (jobj [("ok", JBool true); ("seq", jnum seq); ("fields", JArray (map JString seen))]%string))
  | inr _ => mret (err_code 500 "internal")
  end.

Definition l1_index_clear (caps : auth_caps) (ns : bytes) : handler Response :=
  _ ← admin caps;
  _ ← needs_namespace ns; s ← self;
  r ← on_store (set_index ns None (hlc_clock e 0) (root s) (root s));
  match r with
  | inl seq => _ ← update (committed ns); mret (ok_json (seq_json seq))
  | inr _ => mret (err_code 500 "internal")
  end.

(** ** Capabilities *)

Definition CAPS_LEDGER : bytes := bs "sys/caps".
Definition REVOCATION_LEDGER : bytes := bs "sys/revocations".

(** A ledger is text in the metadata; entries are appended to it. *)
Definition append_ledger (key entry : bytes) (s : AppState) : AppState :=
  let ledger := default [] (from_utf8_lossy <$> meta_get (store s) key) in
  with_store (meta_set key (ledger ++ entry) (store s)) s.

Definition TAB : byte := Byte.x09.

Definition l1_issue_cap (caps : auth_caps) (scope_url : bytes) (perm_names : list bytes)
    (expiry_ms : option Z) (to : option bytes) : handler Response :=
  principal ← admin caps; s ← self;
  target ← lift (match Caps.scope_parse scope_url with
    | Ok sc => if (bool_decide (Caps.tier sc = Caps.L2) || bool_decide (Caps.tier sc = Caps.L3))
                  && bool_decide (Caps.host sc = host_name s)
               then Ok sc else Err (err_code 400 "bad_request")
    | _ => Err (err_code 400 "bad_request") end);
  p ← lift (map_err (fun _ => err_code 400 "bad_request") (Caps.parse_list perm_names));
  subject ← lift (match to with
    | Some hex => map_err (fun _ => err_code 400 "bad_request") (Ident.pk_from_str hex)
    | None => Ok principal end);
  let cap := Caps.cap_sign_for target p expiry_ms (le_val (os_random e)) subject (kp s) in
  _ ← update (append_ledger CAPS_LEDGER (Caps.to_json cap ++ [NEWLINE]));
  v ← lift (or_panic (json_value (Caps.to_json cap)));
  mret (ok_json v).

Definition l1_list_caps (caps : auth_caps) : handler Response :=
  _ ← admin caps; s ← self;
  let ledger := default [] (meta_get (store s) CAPS_LEDGER) in
  mret (ok_json (JArray (omap (fun line =>
    if bool_decide (trim line = []) then None else json_value line) (lines (from_utf8_lossy ledger))))).

Definition l1_revoke (caps : auth_caps) (scope_url to : bytes) : handler Response :=
  _ ← admin caps;
  target ← lift (map_err (fun _ => err_code 400 "bad_request") (Caps.scope_parse scope_url));
  pk ← lift (map_err (fun _ => err_code 400 "bad_request") (Ident.pk_from_str to));
  let hex := Ident.pk_to_string pk in
  _ ← update (fun s => with_revocations (Caps.revoke_principal target hex (revocations s))
                         (u64 (rev_epoch s + 1)) s);
  _ ← update (append_ledger REVOCATION_LEDGER (Caps.to_url target ++ [TAB] ++ hex ++ [NEWLINE]));
  mret (ok_json (jobj [("ok", JBool true)]%string)).

(** ** Data *)

Abbreviation query_map := (gmap bytes bytes).

(** [query.get(k).and_then(|s| s.parse::<u64>().ok())] *)
Definition query_u64 (k : string) (q : query_map) : option Z := q !! bs k ≫= parse_u64.

(** [now + secs * 1000] for a positive number of seconds, which may wrap. *)
Definition ttl_expiry (now : Z) (secs : option Z) : Z :=
  match secs with
  | Some n => if 0 <? n then u64 (now + u64 (n * 1000)) else 0
  | None => 0
  end.

Definition handle_scan (caps : auth_caps) (ns : bytes) (query : query_map) : handler Response :=
  p ← lift (ok_or (err_code 400 "bad_request") (query !! bs "prefix"));
  _ ← data_auth caps ns [] Caps.READ; s ← self;
  mret (ok_json (rows_json (scan (store s) ns p) (wall e 2))).

(** The namespace a write goes to: an owner's is provisioned, any other must
    exist. *)
Definition writable_namespace (tier : Caps.Tier) (ns : bytes) (principal : Ident.PublicKey) : handler unit :=
  if bool_decide (tier = Caps.L3) then
    r ← on_store (Auth.ensure_l3_namespace principal);
    match r with inl _ => mret tt | inr err => reply (auth_to_response err) end
  else needs_namespace ns.

(** The value of a write, against the schema as it is parsed. *)
Definition conforms (sch : jvalue) (value : bytes) : outcome api_error unit :=
  match json_value (from_utf8_lossy value) with
  | Some v => map_err SchemaViolation (Schema.validate_schema sch v)
  | None => Err NotJson
  end.

Definition handle_get (caps : auth_caps) (ns key : bytes) (tier : Caps.Tier) (query : query_map)
    : handler Response :=
  let k := url_decoded key in
  match query !! bs "prefix" with
  | Some p =>
      s ← self;
      _ ← auth_l1_l2 caps (Caps.mkScope (host_name s) tier ns (Some p)) Caps.READ (wall e 2); s ← self;
      mret (ok_json (rows_json (scan (store s) ns p) (wall e 3)))
  | None =>
      s ← self;
      if bool_decide (query !! bs "versions" = Some (bs "true")) then
        let versions l := ok_json (jobj [("key", JString (from_utf8_lossy k));
                                         ("versions", JArray (map version_json l))]%string) in
        mret (match get (store s) ns k with
              | Some (Lww v) => versions [v]
              | Some (Register vs) => versions vs
              | None => err_code 404 "not_found"
              end)
      else
        mret (match get (store s) ns k ≫= fun en => latest_value en (wall e 2) with
              | Some v => mkResponse 200 (Raw v)
              | None => err_code 404 "not_found"
              end)
  end.

Definition handle_put (ns key : bytes) (principal : Ident.PublicKey) (tier : Caps.Tier)
    (query : query_map) (value : bytes) : handler Response :=
  let k := url_decoded key in
  _ ← writable_namespace tier ns principal; s ← self;
  _ ← lift (match schema (store s) ns with
      | Some b => map_err (err_json 400) (conforms (parse_or_null b) value)
      | None => Ok tt
      end);
  charged ← on_store (Auth.account_write ns (Z.of_nat (length value)) (quota s));
  _ ← lift (match charged with inl _ => Ok tt | inr err => Err (auth_to_response err) end);
  let expires_at := ttl_expiry (wall e 2) (query_u64 "ttl" query) in
  r ← on_store (put ns k value (hlc_clock e 0) (root s) principal expires_at);
  match r with
  | inl seq =>
      _ ← update (committed ns);
      mret (ok_json (jobj [("ok", JBool true); ("seq", jnum seq); ("expires_at", jnum expires_at)]%string))
  | inr _ => mret (err_code 500 "internal")
  end.

Definition handle_delete (ns key : bytes) (principal : Ident.PublicKey) : handler Response :=
  let k := url_decoded key in
  _ ← needs_namespace ns; s ← self;
  r ← on_store (delete ns k (hlc_clock e 0) (root s) principal);
  match r with
  | inl _ => _ ← update (committed ns); mret (ok_json (jobj [("ok", JBool true)]%string))
  | inr _ => mret (err_code 500 "internal")
  end.

Definition handle_data (caps : auth_caps) (ns key : bytes) (method : Method) (query : query_map)
    (value : bytes) : handler Response :=
  '(principal, tier) ← data_auth caps ns key (if method is GET then Caps.READ else Caps.WRITE);
  match method with
  | GET => handle_get caps ns key tier query
  | PUT => handle_put ns key principal tier query value
  | DELETE => handle_delete ns key principal
  | OTHER => mret (err_code 405 "method_not_allowed")
  end.

(** ** Queries *)

Definition run_ql (caps : auth_caps) (ns expr : bytes) : handler Response :=
  _ ← data_auth caps ns [] Caps.WRITE; s ← self;
  let ctx write := Query.mkCtx (store s) write (Some ns) (root s) true 0 in
  let answer o := match o with
    | Ok v => Ok (mkResponse 200 (QueryValue v))
    | Err _ => Ok (err_code 400 "query_error")
    | Panic => Panic end in
  match Query.classify expr with
  | Ok Query.Mutating =>
      let '(q, o) := Query.eval (hlc_clock e) fields_text expr (ctx true) in
      _ ← update (with_store (Query.q_store q)); lift (answer o)
  | Ok Query.ReadOnly => lift (answer (Query.eval (hlc_clock e) fields_text expr (ctx false)).2)
  | Err _ => mret (err_code 400 "query_error")
  | Panic => lift Panic
  end.

(** ** The change feed *)

Definition MAX_CHANGES : Z := 10000.

Definition head_json (h : Z * bytes) : jvalue :=
  jobj [("seq", jnum h.1); ("hash", JString (hex_encode h.2))]%string.

Definition handle_head (caps : auth_caps) (ns : bytes) : handler Response :=
  _ ← data_auth caps ns [] Caps.READ; s ← self;
  mret (match head (store s) ns with
        | Some h => ok_json (head_json h)
        | None => err_code 404 "namespace_not_found"
        end).

Definition change_json (seq : Z) (r : LogFormat.record) : jvalue :=
  jobj [("seq", jnum seq); ("key_b64", JString (Base64.b64_encode (LogFormat.key r)));
        ("value_b64", JString (Base64.b64_encode (LogFormat.value r)));
        ("del", JBool (bool_decide (LogFormat.tag r = LogFormat.TAG_DEL))); ("ttl", JBool (negb (LogFormat.expires_at r =? 0)%Z));
        ("expires_at", jnum (LogFormat.expires_at r)); ("hlc", jnum (LogFormat.hlc r));
        ("batch", JBool (bool_decide (LogFormat.tag r = LogFormat.TAG_BATCH)));
        ("ops", jnum (Z.of_nat (length (LogFormat.ops r))))]%string.

Fixpoint changes_json (l : list (Z * bytes)) : outcome Response (list jvalue) :=
  match l with
  | [] => Ok []
  | (seq, b) :: l =>
      v ← (match LogFormat.parse_chain b None with
           | Ok (r, _) => Ok (change_json seq r)
           | Err _ => Ok (jobj [("seq", jnum seq); ("parse_error", JBool true)]%string)
           | Panic => Panic
           end);
      vs ← changes_json l; Ok (v :: vs)
  end.

(** [log_records(..).unwrap_or_default()] *)
Definition log_tail (st : Store) (ns : bytes) (from max : Z) : outcome Response (list (Z * bytes)) :=
  match log_records st ns from max with Ok l => Ok l | Err _ => Ok [] | Panic => Panic end.

Definition handle_changes (caps : auth_caps) (ns : bytes) (query : query_map) : handler Response :=
  _ ← data_auth caps ns [] Caps.READ;
  let since := default 0 (query_u64 "since" query) in
  _ ← needs_namespace ns; s ← self;
  let h := opt_json head_json (head (store s) ns) in
  recs ← lift (log_tail (store s) ns (u64 (since + 1)) MAX_CHANGES);
  changes ← lift (changes_json (take (Z.to_nat MAX_CHANGES) recs));
  mret (ok_json (jobj [("since", jnum since); ("head", h); ("changes", JArray changes)]%string)).

Definition handle_conflicts (caps : auth_caps) (ns : bytes) : handler Response :=
  _ ← data_auth caps ns [] Caps.READ; s ← self;
  mret (ok_json (jobj [("conflicts", JArray (omap (fun '(k, en) =>
    match en with
    | Register vs =>
        if (1 <? length vs)%nat
        then Some (jobj [("key", JString (from_utf8_lossy k)); ("count", jnum (Z.of_nat (length vs)));
                         ("versions", JArray (map version_json vs))]%string)
        else None
    | Lww _ => None
    end) (scan (store s) ns [])))]%string)).

(** ** Batches *)

Definition MAX_BATCH : nat := 1000.
Definition MAX_BATCH_RECORD_BYTES : Z := 6 * 1024 * 1024.
Definition MAX_BATCH_GET_BYTES : Z := 8 * 1024 * 1024.

Definition op_name (op : jvalue) : bytes := default [] (field (bs "op") op ≫= as_str).
Definition op_key (op : jvalue) : option bytes := field (bs "key") op ≫= as_str.
Definition op_value (op : jvalue) : option bytes := field (bs "value_b64") op ≫= as_str.
Definition blen (b : bytes) : Z := Z.of_nat (length b).

(** What an operation adds to the estimate of the batch record's size. *)
Definition op_estimate (op : jvalue) : Z :=
  let key_len := default 0 (blen <$> op_key op) in
  if bool_decide (op_name op = bs "put") then
    93 + key_len + default 0 ((fun v => (blen v + 3) / 4 * 3) <$> op_value op)
  else if bool_decide (op_name op = bs "del") then 85 + key_len
  else 0.

Definition batch_estimate (ops : list jvalue) : Z := fold_left (fun est op => est + op_estimate op) ops 0.

(** The state of the first pass; [hlcs] and [walls] count clock readings. *)
Record batch := mkBatch {
  results : list (option op_result);
  accepted : list LogFormat.record;
  pending_gets : list (nat * bytes);
  pending_writes : list (nat * Z);
  hlcs : nat;
  walls : nat;
}.

Definition push_result (r : op_result) (b : batch) : batch :=
  mkBatch (results b ++ [Some r]) (accepted b) (pending_gets b) (pending_writes b) (hlcs b) (walls b).
Definition push_get (key : bytes) (b : batch) : batch :=
  mkBatch (results b ++ [None]) (accepted b) (pending_gets b ++ [(length (results b), key)])
    (pending_writes b) (hlcs b) (walls b).
Definition push_write (r : LogFormat.record) (size : Z) (timed : bool) (b : batch) : batch :=
  mkBatch (results b ++ [None]) (accepted b ++ [r]) (pending_gets b)
    (pending_writes b ++ [(length (results b), size)]) (S (hlcs b)) (if timed then S (walls b) else walls b).

(** The value of a [put]: decoded, and checked against the schema snapshot. *)
Definition batch_value (sch : option jvalue) (op : jvalue) : outcome api_error bytes :=
  v ← ok_or (Code "missing_value_b64") (op_value op);
  b ← map_err (fun _ => Code "bad_value_b64") (Base64.b64_decode v);
  _ ← (match sch with Some sch => conforms sch b | None => Ok tt end);
  Ok b.

Definition batch_op (sch : option jvalue) (rid pid : bytes) (op : jvalue) (b : batch)
    : outcome Response batch :=
  match op_key op with
  | None => Ok (push_result (OpError (Code "missing_key")) b)
  | Some key =>
      if bool_decide (op_name op = bs "get") then Ok (push_get key b)
      else if bool_decide (op_name op = bs "put") then
        match batch_value sch op with
        | Err err => Ok (push_result (OpError err) b)
        | Panic => Panic
        | Ok value =>
            let secs := field (bs "ttl") op ≫= as_u64 in
            let ex := ttl_expiry (wall e (2 + walls b)) secs in
            let tag := if ex =? 0 then LogFormat.TAG_PUT else LogFormat.TAG_PUT_TTL in
            Ok (push_write (LogFormat.mkRecord tag key (hlc_clock e (hlcs b)) rid pid value ex [])
                  (blen value) (match secs with Some n => 0 <? n | None => false end) b)
        end
      else if bool_decide (op_name op = bs "del") then
        Ok (push_write (LogFormat.mkRecord LogFormat.TAG_DEL key (hlc_clock e (hlcs b)) rid pid [] 0 [])
              0 false b)
      else Ok (push_result (OpError (Code "unknown_op")) b)
  end.

Fixpoint batch_ops (sch : option jvalue) (rid pid : bytes) (ops : list jvalue) (b : batch)
    : outcome Response batch :=
  match ops with
  | [] => Ok b
  | op :: ops => b ← batch_op sch rid pid op b; batch_ops sch rid pid ops b
  end.

(** The charges: an operation that does not fit is reported and left out. *)
Fixpoint charge_ops (ns : bytes) (l : list (LogFormat.record * (nat * Z)))
    (results : list (option op_result)) (applied : list LogFormat.record)
    : handler (list (option op_result) * list LogFormat.record) :=
  match l with
  | [] => mret (results, applied)
  | (rec, (i, size)) :: l =>
      s ← self;
      r ← on_store (Auth.account_write ns size (quota s));
      match r with
      | inl _ => charge_ops ns l results (applied ++ [rec])
      | inr err => charge_ops ns l (<[i := Some (OpError (AuthFailed err))]> results) applied
      end
  end.

(** Fill the slots of pending writes that are still open. *)
Definition fill (r : op_result) (pending : list (nat * Z)) (results : list (option op_result))
    : list (option op_result) :=
  fold_left (fun res p => match res !! p.1 with Some None => <[p.1 := Some r]> res | _ => res end)
    pending results.

(** The deferred reads; [over] is set by the first that passes the budget. *)
Fixpoint resolve_gets (st : Store) (ns : bytes) (now : Z) (l : list (nat * bytes)) (budget : Z)
    (over : bool) (results : list (option op_result)) : list (option op_result) :=
  match l with
  | [] => results
  | (i, key) :: l =>
      let too_large := Some (OpError (Code "batch_get_response_too_large")) in
      if over then resolve_gets st ns now l budget over (<[i := too_large]> results) else
      match get st ns key ≫= fun en => latest_value en now with
      | Some v =>
          if blen v <=? budget
          then resolve_gets st ns now l (budget - blen v) false
                 (<[i := Some (OpValue (Some (Base64.b64_encode v)))]> results)
          else resolve_gets st ns now l budget true (<[i := too_large]> results)
      | None => resolve_gets st ns now l budget false (<[i := Some (OpValue None)]> results)
      end
  end.

(** The atomic part, under the write lock: the open results, the sequence
    number of the batch record and whether there is one. *)
Definition apply_batch (ns : bytes) (principal : Ident.PublicKey) (tier : Caps.Tier) (b : batch)
    : handler (list (option op_result) * Z * bool) :=
  _ ← writable_namespace tier ns principal;
  '(res, applied) ← charge_ops ns (zip (accepted b) (pending_writes b)) (results b) [];
  if bool_decide (applied = []) then mret (res, 0, false) else
  r ← on_store (put_batch ns applied);
  match r with
  | inl seq =>
      _ ← update (fun s => Nat.iter (length applied) bump_writes s);
      mret (res, seq, true)
  | inr err => mret (fill (OpError (StorageFailed err)) (pending_writes b) res, 0, false)
  end.

(** [from_slice] *)
Definition json_bytes (b : bytes) : option jvalue := if utf8_valid b then json_value b else None.

Definition handle_batch (caps : auth_caps) (ns text : bytes) : handler Response :=
  parsed ← lift (ok_or (err_code 400 "bad_request") (json_bytes text));
  ops ← lift (ok_or (err_code 400 "missing_ops") (field (bs "ops") parsed ≫= as_array));
  _ ← reply_if (bool_decide (ops = [])) (err_code 400 "empty_batch");
  _ ← reply_if (MAX_BATCH <? length ops)%nat (err_code 400 "batch_too_large");
  '(principal, tier) ← data_auth caps ns [] Caps.WRITE;
  _ ← reply_if (MAX_BATCH_RECORD_BYTES <? batch_estimate ops) (err_code 413 "batch_too_large");
  s ← self;
  let sch := parse_or_null <$> schema (store s) ns in
  b ← lift (batch_ops sch (root s) principal ops (mkBatch [] [] [] [] 0 0));
  '(res, seq, mutated) ← apply_batch ns principal tier b; s ← self;
  let res := resolve_gets (store s) ns (wall e (2 + walls b)) (pending_gets b) MAX_BATCH_GET_BYTES false res in
  let res := fill (OpSeq seq) (pending_writes b) res in
  _ ← update (fun s => if mutated : bool then notify_change ns (notify_sync s) else s);
  mret (mkResponse 200 (Results res)).

(** ** Event streams *)

Definition handle_events (caps : auth_caps) (ns : bytes) (query : query_map) : handler Response :=
  _ ← data_auth caps ns [] Caps.READ;
  _ ← reply_if (negb (sse_slot e)) (err_code 503 "too_many_streams");
  mret (mkResponse 200 (EventStream ns (default 0 (query_u64 "since" query)))).

(** ** Routes *)

Inductive data_route :=
| Scan (query : query_map)
| Data (key : bytes) (method : Method) (query : query_map) (value : bytes)
| Ql (expr : bytes)
| Batch (text : bytes)
| Head
| Changes (query : query_map)
| Conflicts
| Events (query : query_map).

Inductive route :=
| ListNamespaces
| CreateNamespace (name : bytes) (policy : option bytes)
| SchemaGet (ns : bytes) | SchemaSet (ns text : bytes) | SchemaClear (ns : bytes)
| IndexGet (ns : bytes) | IndexSet (ns text : bytes) | IndexClear (ns : bytes)
| ListCaps
| IssueCap (scope : bytes) (perms : list bytes) (expiry_ms : option Z) (to : option bytes)
| PeersList
| PeersAdd (name addr pin : bytes) (namespaces : option (list bytes))
| PeersRemove (name : bytes)
| Revoke (scope to : bytes)
| L2 (ns : bytes) (r : data_route)
| L3 (pk : bytes) (r : data_route).

Definition default_policy : bytes := bs "lww".

(** The [/l2] routes name the namespace, the [/l3/u] ones its owner's key. *)
Definition l3_ns (pk : bytes) : bytes := bs "u/" ++ pk.

Definition l2_scan (caps : auth_caps) (ns : bytes) (q : query_map) := handle_scan caps ns q.
Definition l3_scan (caps : auth_caps) (pk : bytes) (q : query_map) := handle_scan caps (l3_ns pk) q.
Definition l2_data (caps : auth_caps) (ns key : bytes) (m : Method) (q : query_map) (v : bytes) :=
  handle_data caps ns key m q v.
Definition l3_data (caps : auth_caps) (pk key : bytes) (m : Method) (q : query_map) (v : bytes) :=
  handle_data caps (l3_ns pk) key m q v.
Definition l2_batch (caps : auth_caps) (ns text : bytes) := handle_batch caps ns text.
Definition l3_batch (caps : auth_caps) (pk text : bytes) := handle_batch caps (l3_ns pk) text.
Definition ql_l2 (caps : auth_caps) (ns expr : bytes) := run_ql caps ns expr.
Definition ql_l3 (caps : auth_caps) (pk expr : bytes) := run_ql caps (l3_ns pk) expr.
Definition l2_head (caps : auth_caps) (ns : bytes) := handle_head caps ns.
Definition l3_head (caps : auth_caps) (pk : bytes) := handle_head caps (l3_ns pk).
Definition l2_changes (caps : auth_caps) (ns : bytes) (q : query_map) := handle_changes caps ns q.
Definition l3_changes (caps : auth_caps) (pk : bytes) (q : query_map) := handle_changes caps (l3_ns pk) q.
Definition l2_conflicts (caps : auth_caps) (ns : bytes) := handle_conflicts caps ns.
Definition l3_conflicts (caps : auth_caps) (pk : bytes) := handle_conflicts caps (l3_ns pk).
Definition l2_events (caps : auth_caps) (ns : bytes) (q : query_map) := handle_events caps ns q.
Definition l3_events (caps : auth_caps) (pk : bytes) (q : query_map) := handle_events caps (l3_ns pk) q.

Definition l2_handler (caps : auth_caps) (ns : bytes) (r : data_route) : handler Response :=
  match r with
  | Scan q => l2_scan caps ns q
  | Data key m q v => l2_data caps ns key m q v
  | Ql expr => ql_l2 caps ns expr
  | Batch text => l2_batch caps ns text
  | Head => l2_head caps ns
  | Changes q => l2_changes caps ns q
  | Conflicts => l2_conflicts caps ns
  | Events q => l2_events caps ns q
  end.

Definition l3_handler (caps : auth_caps) (pk : bytes) (r : data_route) : handler Response :=
  match r with
  | Scan q => l3_scan caps pk q
  | Data key m q v => l3_data caps pk key m q v
  | Ql expr => ql_l3 caps pk expr
  | Batch text => l3_batch caps pk text
  | Head => l3_head caps pk
  | Changes q => l3_changes caps pk q
  | Conflicts => l3_conflicts caps pk
  | Events q => l3_events caps pk q
  end.

Definition route_handler (caps : auth_caps) (r : route) : handler Response :=
  match r with
  | ListNamespaces => l1_list_namespaces caps
  | CreateNamespace name policy => l1_create_namespace caps name (default default_policy policy)
  | SchemaGet ns => l1_schema_get caps ns
  | SchemaSet ns text => l1_schema_set caps ns text
  | SchemaClear ns => l1_schema_clear caps ns
  | IndexGet ns => l1_index_get caps ns
  | IndexSet ns text => l1_index_set caps ns text
  | IndexClear ns => l1_index_clear caps ns
  | ListCaps => l1_list_caps caps
  | IssueCap sc perms exp to => l1_issue_cap caps sc perms exp to
  | PeersList => l1_peers_list caps
  | PeersAdd name addr pin nss => l1_peers_add caps name addr pin nss
  | PeersRemove name => l1_peers_remove caps name
  | Revoke sc to => l1_revoke caps sc to
  | L2 ns r => l2_handler caps ns r
  | L3 pk r => l3_handler caps pk r
  end.

(** The protected router: the middleware, then the route's handler.  [None] is
    a request whose task panicked. *)
Definition app (header : option bytes) (r : route) (s : AppState) : AppState * option Response :=
  let '(s, o) := (caps ← auth_mw header; route_handler caps r) s in
  (s, match o with Ok x | Err x => Some x | Panic => None end).

End server.
End Server.
