(* ===== verification/ServerDemo.v ===== *)
(** A small API state and a request to it, on which the properties of the
    server are instantiated. *)

From S2P Require Import Prelude Crc32 LogFormat Log Base64 Utf8 Text StoreTypes Store StoreSpec Hlc Ident Json Schema SchemaSpec Config Caps CapsToy CapsSpec Auth RateLimit Query Server.
Import Utf8 Text Store StoreSpec Json Config ConfigOps Server.

Module ServerDemo.

#[local] Existing Instances toy_sha256 hex_plain toy_ed25519 CapsToy.toy_cap_json toy_config_text.
#[local] Existing Instances SchemaSpec.decimal_floats RateLimit.plain_order.

Definition root_kp : Ident.Keypair := CapsSpec.root_kp.
Definition alice : Ident.PublicKey := CapsSpec.alice.
Definition host : bytes := bs "api.test".

(** Texts the examples send, with what [serde_json] makes of them. *)
Definition batch_text : bytes := bs "{batch}".
Definition put_op (k v : string) : jvalue :=
  jobj [("op", jstr "put"); ("key", jstr k); ("value_b64", JString (Base64.b64_encode (bs v)))]%string.
Definition get_op (k : string) : jvalue := jobj [("op", jstr "get"); ("key", jstr k)]%string.
Definition demo_json : SerdeJson := {|
  json_value v :=
    if bool_decide (v = bs "red") then Some (jstr "red") else
    if bool_decide (v = batch_text) then
      Some (jobj [("ops", JArray [put_op "k" "v"; get_op "k"; jobj [("op", jstr "put")]%string])]%string)
    else None;
  json_strings v := if bool_decide (v = bs "[color]") then Some [bs "color"] else None;
|}.

(** Alice may read and write the whole of [app]. *)
Definition app_scope : Caps.Scope := Caps.mkScope host Caps.L2 (bs "app") None.
Definition app_cap : Caps.Capability :=
  Caps.cap_sign_for app_scope (Caps.perm_union Caps.READ Caps.WRITE) (Some 5000) 42 alice root_kp.
Definition bearer (c : Caps.Capability) : bytes :=
  bs "Bearer bmdb-cap:" ++ Base64.b64url_encode (Caps.to_json c).

Definition demo_env : env := mkEnv (fun _ => 10) (fun n => u64 (77 + Z.of_nat n)) [] false (fun _ => false)
  Written true.

Definition demo_app : AppState := mkApp demo_store (Ident.public root_kp)
  (Caps.keyring_current (Ident.public root_kp)) root_kp Caps.no_revocations host 1000 true 0
  Auth.cap_cache_new Caps.token_cache_new 0 0 (RateLimit.limiter_new true 600 60)
  config_default (bs "c") None [].

End ServerDemo.
