(* ===== verification/ServerSpec.v ===== *)
(** Correctness of the HTTP API: nothing is read or changed without a
    capability that grants it, a data request stays inside its namespace,
    writes are visible to later reads, conform to the namespace's schema and
    are charged, and a revocation takes effect at once. *)

From S2P Require Import Prelude Moves Crc32 LogFormat Log LogSpec Base64 Utf8 Text StoreTypes Store StoreSpec StoreFrame ScanSpec Hlc Ident Json Schema SchemaSpec Config Caps CapsToy CapsSpec Auth AuthSpec RateLimit Query QuerySpec Server ServerDemo.
Import Utf8 Text Store StoreSpec StoreFrame Json Config ConfigOps Server.

Module ServerSpec.

Section spec.
Context `{Sha256, HexCrate, SerdeJson, JsonFloat, Ed25519, CapJson, !Caps.CapJsonLaws, ConfigText, RateLimit.HashOrder}.
(** ** Invariant *)

(** What a request can change for later ones: the data, the revocations and
    the configuration. *)
Definition durable_part (s : AppState) := (store s, revocations s, config s, config_file s).

(** What the server takes digests of when it is sent the headers [seen]: each
    header, and the signed text of the capability in it. *)
Definition header_texts (h : bytes) : list bytes :=
  h :: match parse_cap_header h with Some c => [CapsSpec.signed_text c] | None => [] end.
Definition hashed (seen : list bytes) : list bytes := mjoin (map header_texts seen).

Lemma elem_of_hashed seen x : x ∈ hashed seen <-> exists h, h ∈ seen /\ x ∈ header_texts h.
Proof.
  unfold hashed. rewrite list_elem_of_join. setoid_rewrite list_elem_of_fmap. naive_solver.
Qed.

Lemma hashed_header seen h : h ∈ seen -> h ∈ hashed seen.
Proof. intros Hin. apply elem_of_hashed. exists h. split; [done|by left]. Qed.

Lemma hashed_cap seen h c : h ∈ seen -> parse_cap_header h = Some c -> CapsSpec.signed_text c ∈ hashed seen.
Proof.
  intros Hin Hp. apply elem_of_hashed. exists h. split; [done|]. unfold header_texts. rewrite Hp. right. by left.
Qed.

Lemma hashed_mono seen seen' : seen ⊆ seen' -> hashed seen ⊆ hashed seen'.
Proof. intros Hs x (h & Hh%Hs & Hx)%elem_of_hashed. apply elem_of_hashed. by exists h. Qed.

(** The headers that were sent since the start are among [seen]: the parse cache
    holds capabilities under the digest of their header, the verification cache
    those that verify and are not revoked. *)
Record app_ok (seen : list bytes) (s : AppState) : Prop := {
  ao_tokens b d c : token_cache s b !! d = Some c ->
    exists h, h ∈ seen /\ Caps.token_digest h = d /\ parse_cap_header h = Some c;
  ao_cache : AuthSpec.cache_ok (hashed seen) (keyring s) (revocations s) (rev_epoch s) (Some (cap_cache s));
  ao_epoch : 0 <= rev_epoch s;
}.

Lemma app_ok_mono seen seen' s : seen ⊆ seen' -> app_ok seen s -> app_ok seen' s.
Proof.
  intros Hs [T C P]. split; [|by eapply AuthSpec.cache_ok_texts; [apply hashed_mono|]|done].
  intros b d c Hc. destruct (T b d c Hc) as (h & Hin%Hs & Hrest). by exists h.
Qed.

(** The parts of the state that authorization reads. *)
Definition auth_part (s : AppState) :=
  (keyring s, revocations s, rev_epoch s, cap_cache s, token_cache s, host_name s).
Definition auth_same (s s' : AppState) : Prop := auth_part s' = auth_part s.
#[local] Instance auth_same_preorder : PreOrder auth_same.
Proof. split; [done|]. intros ? ? ? E1 E2. unfold auth_same in *. congruence. Qed.

Context (fields_text : list bytes -> bytes).
Context (seen : list bytes) (Hsep : LogSpec.separates (hashed seen)).

Lemma app_ok_same s s' : auth_same s s' -> app_ok seen s -> app_ok seen s'.
Proof. intros [= E1 E2 E3 E4 E5 E6] [T C P]. constructor; [by rewrite E5|by rewrite E1, E2, E3, E4|by rewrite E3]. Qed.

(** ** The middleware *)

Lemma parse_header_wf h c : parse_cap_header h = Some c -> CapsSpec.cap_wf c.
Proof.
  unfold parse_cap_header. intros E. apply bind_Some in E as (r & _ & E). apply bind_Some in E as (b & _ & E).
  destruct (Base64.b64url_decode b); [|done..]. apply bind_Some in E as (t & _ & E).
  destruct (Caps.from_json t) eqn:Ej; simplify_eq. by eapply CapsSpec.from_json_wf.
Qed.

Definition refused {A} (o : outcome Response A) : Prop :=
  match o with Err r => 400 <= status r | _ => False end.

Lemma digest_same h h' : h ∈ seen -> h' ∈ seen -> Caps.token_digest h = Caps.token_digest h' -> h = h'.
Proof. intros Hh Hh'. apply Hsep; by apply hashed_header. Qed.

(** What the middleware may do: count, rate-limit and fill the parse cache. *)
Record mw_same (s s' : AppState) : Prop := {
  mws_durable : durable_part s' = durable_part s;
  mws_auth : (keyring s', rev_epoch s', cap_cache s', host_name s')
           = (keyring s, rev_epoch s, cap_cache s, host_name s);
  mws_rest : (root s', kp s', quota s', sync_tx s', signals s', writes s')
           = (root s, kp s, quota s, sync_tx s, signals s, writes s);
}.

#[local] Instance mw_same_preorder : PreOrder mw_same.
Proof.
  split; [done|]. intros s1 s2 s3 [A1 A2 A3] [B1 B2 B3]. split; congruence.
Qed.

Lemma rate_limit_run key now s : exists s' o, rate_limit key now s = (s', o)
  /\ mw_same s s' /\ auth_same s s' /\ (o = Ok tt \/ refused o).
Proof.
  unfold rate_limit, rate_ok, mbind, method_bind. destruct (RateLimit.allow _ _ _) as [r []].
  - eexists _, _. split; [reflexivity|]. split_and!; [by split|done|by left].
  - eexists _, _. split; [reflexivity|]. split_and!; [by split|done|right; done].
Qed.

Lemma token_put_ok s h c : app_ok seen s -> h ∈ seen -> parse_cap_header h = Some c ->
  app_ok seen (with_token_cache (Caps.token_put (token_cache s) (Caps.token_digest h) c) s).
Proof.
  intros [T C P] Hin Hp. constructor; [|done|done]. cbn. intros b d c'. unfold Caps.token_put.
  case_bool_decide; [|apply T]. intros [[<- <-]|[_ Hl]]%lookup_insert_Some; [by exists h|].
  case_match; [by rewrite lookup_empty in Hl|by eapply T].
Qed.

Context (e : env).

Lemma header_cap_run h s : app_ok seen s -> h ∈ seen -> exists s', header_cap e h s = (s', Ok (parse_cap_header h))
  /\ mw_same s s' /\ app_ok seen s'.
Proof.
  intros Hok Hin. unfold header_cap, mbind, method_bind, self.
  destruct (Caps.token_get _ _ _) as [c|] eqn:Et.
  - exists s. unfold Caps.token_get in Et.
    destruct (token_busy e); [done|]. apply (ao_tokens seen s Hok) in Et as (h' & Hin' & Ed & Ep).
    rewrite <-(digest_same h' h Hin' Hin Ed), Ep. split_and!; [done|reflexivity|done].
  - destruct (parse_cap_header h) as [c|] eqn:Ep.
    + eexists. split; [reflexivity|]. split; [by split|by apply token_put_ok].
    + eexists. split; [reflexivity|]. by split.
Qed.

(** What a route's handler is given. *)
Definition presented (header : option bytes) (caps : option (list Caps.Capability)) : Prop :=
  match caps with
  | None => header = None
  | Some l => exists h c, header = Some h /\ parse_cap_header h = Some c /\ l = [c]
  end.

Lemma rate_then {A} key now (k : handler A) (Q : A -> Prop) s s1 : mw_same s s1 -> app_ok seen s1 ->
  (forall s2, mw_same s s2 -> app_ok seen s2 -> exists o, k s2 = (s2, o)
     /\ match o with Ok a => Q a | _ => refused o end) ->
  exists s' o, (rate_limit key now ≫= fun _ => k) s1 = (s', o) /\ mw_same s s' /\ app_ok seen s'
    /\ match o with Ok a => Q a | _ => refused o end.
Proof.
  intros Hm Hok Hk. unfold mbind, method_bind.
  destruct (rate_limit_run key now s1) as (s2 & o & -> & Hm2 & Ha2 & Ho).
  assert (mw_same s s2) as Hs by (etrans; [exact Hm|exact Hm2]). assert (app_ok seen s2) as Hok2 by (by apply (app_ok_same s1)).
  destruct Ho as [->|Hr].
  - destruct (Hk s2 Hs Hok2) as (o & -> & Ho). by exists s2, o.
  - destruct o; [done| |done]. by eexists _, _.
Qed.

Lemma auth_mw_run header s : app_ok seen s -> option_list header ⊆ seen ->
  exists s' o, auth_mw e header s = (s', o) /\ mw_same s s' /\ app_ok seen s'
    /\ match o with Ok caps => presented header caps | _ => refused o end.
Proof.
  intros Hok Hin. assert (app_ok seen (bump_requests s)) as Hok0 by (by apply (app_ok_same s)).
  assert (mw_same s (bump_requests s)) as Hm0 by (by split).
  unfold auth_mw. rewrite (method_bind_step _ _ _ (bump_requests s) tt) by done. destruct header as [h|].
  - destruct (header_cap_run h _ Hok0 ltac:(apply Hin; by left)) as (s1 & Eh & Hm1 & Hok1).
    rewrite (method_bind_step _ _ _ _ _ Eh). assert (mw_same s s1) as Hm by (etrans; [exact Hm0|exact Hm1]).
    destruct (parse_cap_header h) as [c|] eqn:Ep.
    + rewrite (method_bind_step _ _ _ s1 s1) by done. apply rate_then; [done..|].
      intros s2 _ _. eexists. split; [done|]. exists h, c. by split_and!.
    + apply rate_then; [done..|]. intros s2 _ _. by eexists.
  - apply rate_then; [done..|]. intros s2 _ _. by eexists.
Qed.

(** ** Authorization *)

Definition caps_wf (caps : option (list Caps.Capability)) : Prop :=
  match caps with Some l => Forall CapsSpec.cap_wf l | None => True end.

(** The capabilities of a request come from headers of [seen]. *)
Definition caps_seen (caps : option (list Caps.Capability)) : Prop :=
  match caps with Some l => Forall (fun c => exists h, h ∈ seen /\ parse_cap_header h = Some c) l | None => True end.

Lemma presented_seen header caps : option_list header ⊆ seen -> presented header caps -> caps_seen caps.
Proof.
  intros Hin. destruct caps as [l|]; [|done]. intros (h & c & -> & Hp & ->). apply Forall_singleton.
  exists h. split; [apply Hin; by left|done].
Qed.

Lemma seen_texts l : caps_seen (Some l) -> Forall CapsSpec.cap_wf l /\ map CapsSpec.signed_text l ⊆ hashed seen.
Proof.
  intros Hl. cbn in Hl. split.
  - eapply Forall_impl; [exact Hl|]. intros c (h & _ & Hp). by eapply parse_header_wf.
  - intros x (c & -> & Hc)%list_elem_of_fmap. destruct (proj1 (Forall_forall _ _) Hl c Hc) as (h & Hin & Hp).
    by eapply hashed_cap.
Qed.

Lemma presented_wf header caps : presented header caps -> caps_wf caps.
Proof.
  destruct caps as [l|]; [|done]. intros (h & c & _ & Hp & ->). constructor; [|constructor].
  by eapply parse_header_wf.
Qed.

(** The decision, taken without any cache. *)
Definition granted (caps : option (list Caps.Capability)) (sc : Caps.Scope) (p : Caps.PermSet)
    (now : Z) (s : AppState) (pr : Ident.PublicKey) : Prop :=
  exists l, caps = Some l /\ Caps.subject <$> List.hd_error l = Some pr
    /\ Auth.authorize sc pr p l (keyring s) (revocations s) (host_name s) now = Ok tt.

Lemma mark_verified_some c key epoch b : exists c', Auth.mark_verified (Some c) key epoch b = Some c'.
Proof. unfold Auth.mark_verified. destruct b; [by eexists|]. destruct (8192 <=? _)%nat; by eexists. Qed.

Lemma auth_loop_some kr rev epoch sc pr p now l busy c :
  exists c', (Auth.auth_loop sc pr p kr rev now epoch l busy (Some c)).1 = Some c'.
Proof.
  revert busy. induction l as [|x l IH]; intros busy; [by exists c|]. cbn [Auth.auth_loop].
  destruct (Auth.cap_allows _ _ _ _ _ _ _ _); [|apply IH]. cbn [fst].
  destruct (mark_verified_some c (Caps.digest_hex x) epoch
    (Auth.epoch_ok (Some c) (Caps.digest_hex x) epoch (busy 0%nat))) as [c' E]. by exists c'.
Qed.

Lemma authorize_cached_run sc pr p l s now : app_ok seen s -> caps_seen (Some l) ->
  exists c',
    Auth.authorize_cached sc pr p l (keyring s) (revocations s) (host_name s) now (cap_busy e)
      (rev_epoch s) (Some (cap_cache s))
    = (Some c', Auth.authorize sc pr p l (keyring s) (revocations s) (host_name s) now)
    /\ app_ok seen (with_cap_cache c' s).
Proof.
  intros Hok [Hl Ht]%seen_texts. unfold Auth.authorize, Auth.authorize_cached. case_bool_decide.
  - exists (cap_cache s). split; [done|].
    assert (with_cap_cache (cap_cache s) s = s) as -> by (by destruct s). done.
  - destruct (AuthSpec.auth_loop_same (hashed seen) Hsep (keyring s) (revocations s) (rev_epoch s) sc pr p now l (cap_busy e)
      (Some (cap_cache s)) (ao_cache seen s Hok) Hl Ht) as (o' & E & Hc).
    assert (exists c', o' = Some c') as [c' ->].
    { destruct (auth_loop_some (keyring s) (revocations s) (rev_epoch s) sc pr p now l (cap_busy e) (cap_cache s))
        as [c' Ec]. rewrite E in Ec. by exists c'. }
    exists c'. split; [exact E|]. destruct Hok. by constructor.
Qed.

Lemma auth_run caps sc p now s : app_ok seen s -> caps_seen caps ->
  exists c' o, auth_l1_l2 e caps sc p now s = (with_cap_cache c' s, o)
    /\ app_ok seen (with_cap_cache c' s)
    /\ match o with Ok pr => granted caps sc p now s pr | _ => refused o end.
Proof.
  intros Hok Hwf. assert (s = with_cap_cache (cap_cache s) s) as Es by (by destruct s).
  unfold auth_l1_l2, mbind, method_bind, lift, self, update. destruct caps as [l|].
  2:{ exists (cap_cache s). eexists. rewrite <-Es. by split_and!. }
  cbn [ok_or]. destruct (Caps.subject <$> List.hd_error l) as [pr|] eqn:Eh.
  2:{ exists (cap_cache s). eexists. rewrite <-Es. by split_and!. }
  cbn [ok_or]. destruct (authorize_cached_run sc pr p l s now Hok Hwf) as (c' & -> & Hok').
  cbn [default]. exists c'. destruct (Auth.authorize sc pr p l _ _ _ now) as [[]|err|] eqn:Ea.
  - eexists. split_and!; [reflexivity|done|]. by exists l.
  - eexists. split_and!; [reflexivity|done|]. by destruct err.
  - exfalso. revert Ea. unfold Auth.authorize, Auth.authorize_cached. case_bool_decide; [done|].
    rewrite AuthSpec.auth_loop_none. cbn. by destruct (existsb _ _).
Qed.

(** ** Handlers behind the check *)

Lemma on_store_same {A E} (m : method Store E A) : always auth_same (on_store m).
Proof. intros s. unfold moves, on_store. by destruct (m (store s)). Qed.

Lemma needs_same ns : always auth_same (needs_namespace ns).
Proof. intros s. done. Qed.

Ltac sv :=
  repeat first
    [ progress intros
    | progress cbv zeta
    | match goal with
      | |- moves _ _ (self ≫= _) => apply moves_self
      | |- moves _ _ (needs_namespace _ ≫= _) => apply moves_bind; [apply _|apply needs_same|]
      | |- moves _ _ (on_store _ ≫= _) => apply moves_bind; [apply _|apply on_store_same|]
      | |- moves _ _ (needs_namespace _) => apply needs_same
      | |- moves _ _ (_ ≫= _) => apply moves_bind; [apply _| |]
      | |- moves _ _ (mret _) => apply moves_ret; apply _
      | |- moves _ _ (lift _) => apply moves_lift; apply _
      | |- moves _ _ (reply _) => apply moves_lift; apply _
      | |- moves _ _ (reply_if _ _) => apply moves_lift; apply _
      | |- moves _ _ (update _) => apply moves_update; try reflexivity
      | |- moves _ _ (match ?x with _ => _ end) => destruct x eqn:?
      end ].

Lemma committed_same ns s : auth_same s (committed ns s).
Proof. unfold committed, notify_sync. by destruct (sync_tx s). Qed.

Lemma bump_writes_same n s : auth_same s (Nat.iter n bump_writes s).
Proof. induction n as [|n IH]; [done|]. cbn. etrans; [exact IH|done]. Qed.

Lemma save_config_same : always auth_same (save_config e).
Proof. intros s. unfold moves, save_config. by destruct (save _ _ _ _). Qed.

Lemma charge_ops_same ns l res ap : always auth_same (charge_ops ns l res ap).
Proof.
  revert res ap. induction l as [|[rec [i size]] l IH]; intros res ap s; cbn [charge_ops]; sv; apply IH.
Qed.

Lemma writable_same tier ns pr : always auth_same (writable_namespace tier ns pr).
Proof. intros s. unfold writable_namespace. sv. Qed.

Lemma apply_batch_same ns pr tier b : always auth_same (apply_batch ns pr tier b).
Proof.
  intros s. unfold apply_batch. apply moves_bind; [apply _|apply writable_same|]. intros s1 _ _.
  apply moves_bind; [apply _|apply charge_ops_same|]. intros s2 [res ap] _. sv. apply bump_writes_same.
Qed.

(** A handler after the check: authorization stays sound. *)
Definition post_ok {A} (m : handler A) : Prop :=
  forall s, app_ok seen s -> rev_epoch s + 1 < 2 ^ 64 -> app_ok seen (m s).1.

Lemma post_same {A} (m : handler A) : always auth_same m -> post_ok m.
Proof. intros Hm s Hok _. by apply (app_ok_same s); [apply Hm|]. Qed.

(** At [s], a handler refuses and changes nothing unless one of the
    capabilities grants [p] on [sc]. *)
Definition protected (s : AppState) (sc : Caps.Scope) (p : Caps.PermSet)
    (caps : option (list Caps.Capability)) (m : handler Response) : Prop :=
  app_ok seen s -> rev_epoch s + 1 < 2 ^ 64 ->
    app_ok seen (m s).1
    /\ ((durable_part (m s).1 = durable_part s /\ refused (m s).2)
        \/ exists pr, granted caps sc p (wall e 1) s pr).

Lemma protected_lift {A} s sc p caps (o : outcome Response A) k :
  match o with Ok a => protected s sc p caps (k a) | _ => refused o end ->
  protected s sc p caps (lift o ≫= k).
Proof.
  intros Hk Hok Hb. destruct o as [a|r|]; [by apply Hk| |done]. split; [done|]. by left.
Qed.

Lemma protected_auth s sc p caps k : caps_seen caps -> (forall pr, post_ok (k pr)) ->
  protected s sc p caps (auth_l1_l2 e caps sc p (wall e 1) ≫= k).
Proof.
  intros Hwf Hk Hok Hb. destruct (auth_run caps sc p (wall e 1) s Hok Hwf) as (c' & o & E & Hok' & Ho).
  unfold mbind, method_bind. rewrite E. destruct o as [pr|r|]; [|split; [done|by left]|done].
  split; [by apply Hk|]. right. by exists pr.
Qed.

Lemma protected_admin s caps k : caps_seen caps -> (forall pr, post_ok (k pr)) ->
  protected s (l1_scope s) Caps.ADMIN caps (admin e caps ≫= k).
Proof. intros Hwf Hk. exact (protected_auth s _ _ caps k Hwf Hk). Qed.

Lemma protected_data s ns key p caps k : caps_seen caps -> (forall pr, post_ok (k (pr, tier_of ns))) ->
  protected s (data_scope (tier_of ns) ns key (host_name s)) p caps (data_auth e caps ns key p ≫= k).
Proof.
  intros Hwf Hk Hok Hb.
  pose proof (protected_auth s (data_scope (tier_of ns) ns key (host_name s)) p caps
    (fun pr => k (pr, tier_of ns)) Hwf Hk Hok Hb) as Hp.
  enough ((data_auth e caps ns key p ≫= k) s
    = (auth_l1_l2 e caps (data_scope (tier_of ns) ns key (host_name s)) p (wall e 1)
        ≫= fun pr => k (pr, tier_of ns)) s) as -> by done.
  unfold data_auth, mbind, method_bind, self. by destruct (auth_l1_l2 _ _ _ _ _ s) as [s' [pr|r|]].
Qed.

(** ** The routes *)

Lemma post_get caps ns key tier q : caps_seen caps -> post_ok (handle_get e caps ns key tier q).
Proof.
  intros Hwf s Hok Hb. unfold handle_get. destruct (q !! bs "prefix") as [p|].
  - rewrite (method_bind_step _ _ _ s s) by done.
    destruct (auth_run caps (Caps.mkScope (host_name s) tier ns (Some p)) Caps.READ (wall e 2) s Hok Hwf)
      as (c' & o & E & Hok' & _).
    unfold mbind, method_bind. rewrite E. by destruct o.
  - apply (app_ok_same s); [|done].
    assert (forall m, auth_same s ((self ≫= m) s).1 = auth_same s (m s s).1) as -> by done.
    by case_bool_decide.
Qed.

Lemma post_revoke target hex (k : handler Response) : always auth_same k ->
  post_ok (_ ← update (fun s => with_revocations (Caps.revoke_principal target hex (revocations s))
                         (u64 (rev_epoch s + 1)) s); k).
Proof.
  intros Hk s Hok Hb. apply (app_ok_same (with_revocations (Caps.revoke_principal target hex (revocations s))
    (u64 (rev_epoch s + 1)) s)); [exact (Hk _)|].
  pose proof (ao_epoch seen s Hok). rewrite u64_small by (unfold is_u64; lia). destruct Hok as [T C P].
  constructor; [done| |cbn; lia]. eapply (AuthSpec.cache_ok_epoch _ _ _ _ _ (rev_epoch s + 1)); [|exact C]; lia.
Qed.

Lemma put_same ns key pr tier q v : always auth_same (handle_put e ns key pr tier q v).
Proof.
  intros s. unfold handle_put. cbv zeta. apply moves_bind; [apply _|apply writable_same|]. sv. apply committed_same.
Qed.

Lemma delete_same ns key pr : always auth_same (handle_delete e ns key pr).
Proof. intros s. unfold handle_delete. sv. apply committed_same. Qed.

(** What a route asks for. *)
Definition required (host : bytes) (r : route) : Caps.Scope * Caps.PermSet :=
  let data ns r := match r with
    | Data key m _ _ => (data_scope (tier_of ns) ns key host, if m is GET then Caps.READ else Caps.WRITE)
    | Ql _ | Batch _ => (data_scope (tier_of ns) ns [] host, Caps.WRITE)
    | _ => (data_scope (tier_of ns) ns [] host, Caps.READ)
    end in
  match r with
  | L2 ns r => data ns r
  | L3 pk r => data (l3_ns pk) r
  | _ => (Caps.mkScope host Caps.L1 (bs "*") None, Caps.ADMIN)
  end.

Lemma post_after {A B} (m : handler A) (k : A -> handler B) : always auth_same m ->
  (forall a, post_ok (k a)) -> post_ok (m ≫= k).
Proof.
  intros Hm Hk s Hok Hb. unfold mbind, method_bind. specialize (Hm s). unfold moves in Hm.
  destruct (m s) as [s' o]. cbn in Hm. assert (app_ok seen s') as Hok' by (by apply (app_ok_same s)).
  assert (rev_epoch s' = rev_epoch s) as Ee by (by injection Hm). destruct o as [a|r|]; [|done..].
  apply Hk; [done|]. by rewrite Ee.
Qed.

(** The routes of an owner are those of the owner's namespace. *)
Lemma l3_is_l2 caps pk r : l3_handler fields_text e caps pk r = l2_handler fields_text e caps (l3_ns pk) r.
Proof. by destruct r. Qed.

Lemma data_protected caps ns r s : caps_seen caps ->
  protected s (required (host_name s) (L2 ns r)).1 (required (host_name s) (L2 ns r)).2 caps
    (l2_handler fields_text e caps ns r).
Proof.
  intros Hwf. destruct r as [q|key m q v|expr|text| |q| |q]; cbn [l2_handler required fst snd].
  - apply protected_lift. destruct (q !! bs "prefix"); [cbn|done]. apply protected_data; [done|].
    intros pr. apply post_same. sv.
  - unfold handle_data. apply protected_data; [done|]. intros pr. cbn.
    destruct m; [by apply post_get|apply post_same, put_same|apply post_same, delete_same|apply post_same; sv].
  - apply protected_data; [done|]. intros pr. apply post_same. sv.
  - unfold handle_batch. apply protected_lift. destruct (json_bytes text) as [v|]; [cbn [ok_or]|done].
    apply protected_lift. destruct (field _ v ≫= as_array) as [ops|]; [cbn [ok_or]|done].
    apply protected_lift. case_bool_decide; [done|cbn [guard_err]]. apply protected_lift.
    destruct (MAX_BATCH <? length ops)%nat; [done|cbn [guard_err]]. apply protected_data; [done|].
    intros pr. apply post_same. cbv beta iota. sv; [apply apply_batch_same|].
    case_match; [|done]. unfold notify_sync. by destruct (sync_tx _).
  - apply protected_data; [done|]. intros pr. apply post_same. sv.
  - apply protected_data; [done|]. intros pr. apply post_same. sv.
  - apply protected_data; [done|]. intros pr. apply post_same. sv.
  - apply protected_data; [done|]. intros pr. apply post_same. sv.
Qed.

Lemma route_protected caps r s : caps_seen caps ->
  protected s (required (host_name s) r).1 (required (host_name s) r).2 caps
    (route_handler fields_text e caps r).
Proof.
  intros Hwf. destruct r; try (by apply data_protected);
    try (cbn [route_handler]; rewrite l3_is_l2; by apply data_protected); cbn [required fst snd route_handler];
    apply protected_admin; try done; intros pr;
    try solve [apply post_same; sv; first [apply committed_same|apply save_config_same|done]].
  apply post_after; [sv|]. intros target. apply post_after; [sv|]. intros pk. apply post_revoke. sv.
Qed.

(** ** Requests that only read *)

Definition reads (r : route) : bool :=
  match r with
  | ListNamespaces | SchemaGet _ | IndexGet _ | ListCaps | PeersList => true
  | L2 _ (Scan _ | Data _ GET _ _ | Head | Changes _ | Conflicts | Events _)
  | L3 _ (Scan _ | Data _ GET _ _ | Head | Changes _ | Conflicts | Events _) => true
  | _ => false
  end.

Definition durable_same (s s' : AppState) : Prop := durable_part s' = durable_part s.
#[local] Instance durable_same_preorder : PreOrder durable_same.
Proof. split; [done|]. intros ? ? ? E1 E2. unfold durable_same in *. congruence. Qed.

Lemma auth_durable caps sc p now : always durable_same (auth_l1_l2 e caps sc p now).
Proof.
  intros s. unfold auth_l1_l2. sv.
Qed.

Lemma admin_durable caps : always durable_same (admin e caps).
Proof. intros s. apply auth_durable. Qed.

Lemma data_auth_durable caps ns key p : always durable_same (data_auth e caps ns key p).
Proof. intros s. unfold data_auth. apply moves_self. apply moves_bind; [apply _|apply auth_durable|]. sv. Qed.

Lemma needs_durable ns : always durable_same (needs_namespace ns).
Proof. intros s. done. Qed.

Lemma get_durable caps ns key tier q : always durable_same (handle_get e caps ns key tier q).
Proof.
  intros s. unfold handle_get. cbv zeta. destruct (q !! bs "prefix") as [p|].
  - apply moves_self. apply moves_bind; [apply _|apply auth_durable|]. sv.
  - apply moves_self. case_bool_decide; sv.
Qed.

Lemma data_reads_pure caps ns r : reads (L2 ns r) = true -> always durable_same (l2_handler fields_text e caps ns r).
Proof.
  intros Hr s. destruct r as [q|key m q v|expr|text| |q| |q]; try done; cbn [l2_handler].
  - unfold handle_scan. apply moves_bind; [apply _|by apply moves_lift, _|]. intros s1 p _.
    apply moves_bind; [apply _|apply data_auth_durable|]. sv.
  - unfold handle_data. apply moves_bind; [apply _|apply data_auth_durable|]. intros s1 [pr tier] _.
    destruct m; try done. apply get_durable.
  - apply moves_bind; [apply _|apply data_auth_durable|]. sv.
  - unfold handle_changes. apply moves_bind; [apply _|apply data_auth_durable|]. intros s1 _ _. cbv zeta.
    apply moves_bind; [apply _|apply needs_durable|]. sv.
  - apply moves_bind; [apply _|apply data_auth_durable|]. sv.
  - apply moves_bind; [apply _|apply data_auth_durable|]. sv.
Qed.

Lemma reads_pure caps r : reads r = true -> always durable_same (route_handler fields_text e caps r).
Proof.
  intros Hr s. destruct r; try done; cbn [route_handler];
    try (apply moves_bind; [apply _|apply admin_durable|]; sv; done).
  - by apply data_reads_pure.
  - rewrite l3_is_l2. by apply data_reads_pure.
Qed.

(** ** The middleware and the route together *)

Lemma app_protected header r s : app_ok seen s -> option_list header ⊆ seen -> rev_epoch s + 1 < 2 ^ 64 ->
  let '(s', resp) := app fields_text e header r s in
  let '(sc, p) := required (host_name s) r in
  app_ok seen s'
  /\ (reads r = true -> durable_part s' = durable_part s)
  /\ ((durable_part s' = durable_part s /\ exists x, resp = Some x /\ 400 <= status x)
      \/ exists h c, header = Some h /\ parse_cap_header h = Some c
          /\ Caps.verify c (keyring s) (Caps.subject c) (revocations s) (wall e 1) = Ok tt
          /\ AuthSpec.grants sc p c).
Proof.
  intros Hok Hin Hb. unfold app. destruct (required (host_name s) r) as [sc p] eqn:Er.
  destruct (auth_mw_run header s Hok Hin) as (s1 & o & E & Hm & Hok1 & Ho).
  unfold mbind, method_bind. rewrite E. destruct o as [caps|x|]; [|split_and!; [done|by destruct Hm|]|done].
  2:{ left. split; [by destruct Hm|]. by exists x. }
  destruct Hm as [Hd [= Ek Ee Ec Eh] _]. pose proof (presented_seen _ _ Hin Ho) as Hwf.
  destruct (route_protected caps r s1 Hwf Hok1 ltac:(by rewrite Ee)) as (Hok2 & Hp).
  pose proof (reads_pure caps r) as Hpure. rewrite Eh, Er in Hp. cbn [fst snd] in Hp.
  destruct (route_handler fields_text e caps r s1) as [s2 o] eqn:E2. split; [done|].
  assert (revocations s1 = revocations s) as Erv by (by injection Hd).
  split; [|destruct Hp as [[Hd2 Hr]|(pr & l & -> & Hl & Ha)]].
  - intros Hr. specialize (Hpure Hr s1). unfold moves, durable_same in Hpure. rewrite E2 in Hpure.
    cbn in Hpure. congruence.
  - left. cbn in Hd2. split; [congruence|]. destruct o as [x|x|]; [done|by exists x|done].
  - right. destruct Ho as (h & c & -> & Hc & ->). exists h, c. cbn in Hl. injection Hl as <-.
    apply AuthSpec.authorize_spec in Ha as (_ & c' & ->%list_elem_of_singleton & Hv & Hg).
    rewrite Ek, Erv in Hv. by split_and!.
Qed.

End spec.

(** ** Properties *)

Section properties.
Context `{Sha256, HexCrate, SerdeJson, JsonFloat, Ed25519, CapJson, !Caps.CapJsonLaws, ConfigText, RateLimit.HashOrder}.

(** C9: whatever the request, the API answers with a refusal and changes
    neither data nor revocations nor configuration, unless the request carries
    a capability that verifies now, is not revoked and grants the route's
    permission on the route's scope, caches notwithstanding; a route that only
    reads changes none of them in any case.  [seen] lists the headers sent since
    the start, from which both caches were filled; it grows by the request's
    own, and the hash function is assumed to tell these headers and the texts
    of the capabilities in them apart. *)
Theorem requests_need_capability fields_text e seen header r s :
  app_ok seen s -> rev_epoch s + 1 < 2 ^ 64 -> LogSpec.separates (hashed (option_list header ++ seen)) ->
  let '(s', resp) := app fields_text e header r s in
  let '(sc, p) := required (host_name s) r in
  app_ok (option_list header ++ seen) s'
  /\ (reads r = true -> durable_part s' = durable_part s)
  /\ ((durable_part s' = durable_part s /\ exists x, resp = Some x /\ 400 <= status x)
      \/ exists h c, header = Some h /\ parse_cap_header h = Some c
          /\ Caps.verify c (keyring s) (Caps.subject c) (revocations s) (wall e 1) = Ok tt
          /\ AuthSpec.grants sc p c).
Proof.
  intros Hok Hb Hsep. apply app_protected; [done| |set_solver|done]. apply (app_ok_mono seen); [set_solver|exact Hok].
Qed.

End properties.

(** ** Witnesses *)

#[local] Existing Instances toy_sha256 hex_plain toy_ed25519 CapsToy.toy_cap_json toy_config_text.
#[local] Existing Instances SchemaSpec.decimal_floats RateLimit.plain_order ServerDemo.demo_json.
Import ServerDemo.

Lemma demo_app_ok : app_ok [] demo_app.
Proof. split; [by intros|intros b key ep E; destruct (lookup_empty_Some (M := gmap bytes) key ep E)|done]. Qed.

Definition put_k : route := L2 (bs "app") (Data (bs "k") PUT ∅ (bs "v")).

(** Another header was sent before, which is in the parse cache. *)
Definition other_cap : Caps.Capability :=
  Caps.cap_sign_for app_scope Caps.READ None 12 alice root_kp.
Definition second_app : AppState := (app mjoin demo_env (Some (bearer other_cap)) put_k demo_app).1.

Lemma requests_need_capability_witness :
  let '(s', resp) := app mjoin demo_env (Some (bearer app_cap)) put_k second_app in
  let '(sc, p) := required host put_k in
  app_ok [bearer app_cap; bearer other_cap] s'
  /\ (reads put_k = true -> durable_part s' = durable_part second_app)
  /\ ((durable_part s' = durable_part second_app /\ exists x, resp = Some x /\ 400 <= status x)
      \/ exists h c, Some (bearer app_cap) = Some h /\ parse_cap_header h = Some c
          /\ Caps.verify c (keyring second_app) (Caps.subject c) (revocations second_app) 10 = Ok tt
          /\ AuthSpec.grants sc p c).
Proof.
  apply (requests_need_capability mjoin demo_env [bearer other_cap] (Some (bearer app_cap)) put_k second_app).
  - pose proof (requests_need_capability mjoin demo_env [] (Some (bearer other_cap)) put_k demo_app demo_app_ok) as W.
    unfold second_app. destruct (app mjoin demo_env (Some (bearer other_cap)) put_k demo_app) as [s' resp].
    cbn [fst]. apply W; [done|vm_decide].
  - vm_decide.
  - vm_decide.
Defined.

(** The request of the witness is granted. *)
Example demo_put_granted :
  let '(s', resp) := app mjoin demo_env (Some (bearer app_cap)) put_k demo_app in
  status <$> resp = Some 200 /\ get (store s') (bs "app") (bs "k") =
    Some (Lww (mkVersion 77 (root demo_app) alice (bs "v") 1 0)).
Proof. by vm_compute. Qed.

End ServerSpec.
