(* ===== verification/ServerFrame.v ===== *)
(** Data requests stay inside their namespace: what the handlers of a data
    route leave alone, whatever they answer. *)

From S2P Require Import Prelude Moves Crc32 LogFormat Log LogSpec Base64 Utf8 Text StoreTypes Store StoreSpec StoreFrame Hlc Ident Json Schema SchemaSpec Config Caps CapsToy CapsSpec Auth AuthSpec RateLimit Query QuerySpec Server ServerDemo ServerSpec.
Import Utf8 Text Store StoreSpec StoreFrame Json Config ConfigOps Server ServerSpec.

Module ServerFrame.

Section spec.
Context `{Sha256, HexCrate, SerdeJson, JsonFloat, Ed25519, CapJson, !Caps.CapJsonLaws, ConfigText, RateLimit.HashOrder}.
Context (fields_text : list bytes -> bytes).

(** ** Stores *)

(** The metadata of namespace [n]. *)
Definition ns_keys (n : bytes) : list bytes := [bs "schema/" ++ n; bs "index/" ++ n; Auth.quota_key n].

(** Everything outside namespace [n] is as before; [n] itself may even have
    been created. *)
Record elsewhere (n : bytes) (s s' : Store) : Prop := {
  el_policies n' : n' <> n -> policies s' !! n' = policies s !! n';
  el_index n' k : n' <> n -> index s' !! (n', k) = index s !! (n', k);
  el_tombs n' k : n' <> n -> tombs s' !! (n', k) = tombs s !! (n', k);
  el_logs n' : n' <> n -> logs s' !! n' = logs s !! n';
  el_dirs d : d <> ns_dir n -> dirs (sdisk s') !! d = dirs (sdisk s) !! d;
  el_meta k : k ∉ ns_keys n -> meta s' !! k = meta s !! k;
  el_peers : peer_clocks s' = peer_clocks s;
  el_snap : snap (sdisk s') = snap (sdisk s);
}.

#[global] Instance elsewhere_preorder n : PreOrder (elsewhere n).
Proof.
  split; [intros s; by split|]. intros s1 s2 s3 F G.
  split; intros; rewrite ?(el_peers _ _ _ G), ?(el_snap _ _ _ G); try apply F.
  - rewrite (el_policies _ _ _ G) by done. by apply F.
  - rewrite (el_index _ _ _ G) by done. by apply F.
  - rewrite (el_tombs _ _ _ G) by done. by apply F.
  - rewrite (el_logs _ _ _ G) by done. by apply F.
  - rewrite (el_dirs _ _ _ G) by done. by apply F.
  - rewrite (el_meta _ _ _ G) by done. by apply F.
Qed.

Lemma frame_elsewhere mk n s s' : mk ⊆ ns_keys n -> frame mk n s s' -> elsewhere n s s'.
Proof.
  intros Hmk F. destruct F. split; try done; [by intros; congruence|]. intros k Hk. set_solver.
Qed.

Lemma frames_elsewhere {A} mk n (m : store_m A) : mk ⊆ ns_keys n -> frames mk n m -> always (elsewhere n) m.
Proof. intros Hmk Hm s. by apply (frame_elsewhere mk). Qed.

Lemma put_batch_frames n l : frames [] n (put_batch n l).
Proof.
  destruct l as [|o l]; [apply frames_lift|]. apply frames_bind; [apply frames_known|]. intros _.
  apply frames_bind; [apply frames_append_record|]. intros q.
  apply frames_bind; [|intros; apply frames_ret]. apply frames_for_each. intros x. apply frames_apply_local_op.
Qed.

Lemma create_elsewhere n p : always (elsewhere n) (create_namespace n p).
Proof.
  intros s. unfold create_namespace. apply moves_self. apply moves_lift_bind; [apply _|]. intros _ _.
  apply moves_lift_bind; [apply _|]. intros _ _. apply moves_lift_bind; [apply _|]. intros [[d L] w] _.
  apply moves_bind; [apply _|apply moves_update; split; intros; cbn; by rewrite ?lookup_insert_ne|].
  intros s4 _ _. apply moves_lift_bind; [apply _|]. intros _ _. cbv zeta.
  apply moves_bind; [apply _|apply moves_update; split; intros; cbn; by rewrite ?lookup_insert_ne|].
  intros s6 _ _.
  apply moves_bind; [apply _|apply moves_update; split; intros; cbn; by rewrite ?lookup_insert_ne|].
  intros s7 _ _. by apply moves_update.
Qed.

Lemma meta_set_elsewhere n k v s : k ∈ ns_keys n -> elsewhere n s (meta_set k v s).
Proof. intros Hk. split; try done. intros k' Hk'. cbn. apply lookup_insert_ne. set_solver. Qed.

Lemma account_elsewhere n d limit : always (elsewhere n) (Auth.account_write n d limit).
Proof.
  intros s. unfold Auth.account_write. apply moves_self. cbv zeta.
  apply moves_bind; [apply _|by apply moves_lift, _|]. intros s1 _ _. apply moves_update, meta_set_elsewhere.
  unfold ns_keys. set_solver.
Qed.

Lemma ensure_elsewhere pr n : bs "u/" ++ Ident.pk_to_string pr = n ->
  always (elsewhere n) (Auth.ensure_l3_namespace pr).
Proof.
  intros <- s. unfold Auth.ensure_l3_namespace. apply moves_self. cbv zeta. unfold moves, mbind, method_bind.
  destruct (policy s _); cbn; [reflexivity|]. unfold Auth.method_map_err.
  pose proof (create_elsewhere (bs "u/" ++ Ident.pk_to_string pr) PLww s) as Hc. unfold moves in Hc.
  destruct (create_namespace _ PLww s) as [s' [a|err|]]; exact Hc.
Qed.

(** ** Handlers *)

Definition fixed_part (s : AppState) :=
  (root s, keyring s, kp s, revocations s, host_name s, quota s, config s, config_file s).

Definition outside (n : bytes) (s s' : AppState) : Prop :=
  elsewhere n (store s) (store s') /\ fixed_part s' = fixed_part s.

#[global] Instance outside_preorder n : PreOrder (outside n).
Proof.
  split; [by split|]. intros s1 s2 s3 [A1 A2] [B1 B2]. split; [by etrans|congruence].
Qed.

Context (e : env).

Lemma on_store_outside {A E} n (m : method Store E A) : always (elsewhere n) m -> always (outside n) (on_store m).
Proof.
  intros Hm s. specialize (Hm (store s)). unfold moves, on_store in *. destruct (m (store s)) as [st o]. by split.
Qed.

Lemma committed_outside n ns s : outside n s (committed ns s).
Proof. unfold committed, notify_sync. by destruct (sync_tx s). Qed.

Lemma needs_outside n ns : always (outside n) (needs_namespace ns).
Proof. intros s. by split. Qed.

Lemma auth_outside n caps sc p now : always (outside n) (auth_l1_l2 e caps sc p now).
Proof.
  intros s. unfold auth_l1_l2. apply moves_bind; [apply _|by apply moves_lift, _|]. intros s1 l _.
  apply moves_bind; [apply _|by apply moves_lift, _|]. intros s2 pr _. apply moves_self.
  destruct (Auth.authorize_cached _ _ _ _ _ _ _ _ _ _ _) as [c o].
  apply moves_bind; [apply _|by apply moves_update|]. intros s3 _ _.
  apply moves_bind; [apply _|by apply moves_lift, _|]. intros. apply moves_ret, _.
Qed.

Ltac fv :=
  repeat first
    [ progress intros
    | progress cbv zeta
    | match goal with
      | |- moves _ _ (self ≫= _) => apply moves_self
      | |- moves _ _ (needs_namespace _ ≫= _) => apply moves_bind; [apply _|apply needs_outside|]
      | |- moves _ _ (auth_l1_l2 _ _ _ _ _ ≫= _) => apply moves_bind; [apply _|apply auth_outside|]
      | |- moves _ _ (on_store _ ≫= _) => apply moves_bind; [apply _|apply on_store_outside|]
      | |- moves _ _ (needs_namespace _) => apply needs_outside
      | |- moves _ _ (_ ≫= _) => apply moves_bind; [apply _| |]
      | |- moves _ _ (mret _) => apply moves_ret; apply _
      | |- moves _ _ (lift _) => apply moves_lift; apply _
      | |- moves _ _ (reply _) => apply moves_lift; apply _
      | |- moves _ _ (reply_if _ _) => apply moves_lift; apply _
      | |- moves _ _ (update (committed _)) => apply moves_update, committed_outside
      | |- moves _ _ (update _) => apply moves_update; try reflexivity
      | |- moves _ _ (match ?x with _ => _ end) => destruct x eqn:?
      end ].

(** A principal who may use namespace [n]: of an owner's namespace, the owner. *)
Definition owner_of (n : bytes) (pr : Ident.PublicKey) : Prop :=
  tier_of n = Caps.L3 -> bs "u/" ++ Ident.pk_to_string pr = n.

Lemma writable_outside n pr : owner_of n pr -> always (outside n) (writable_namespace (tier_of n) n pr).
Proof.
  intros Ho s. unfold writable_namespace. case_bool_decide as Ht; [|apply needs_outside].
  fv. apply ensure_elsewhere. by apply Ho.
Qed.

Lemma put_outside n key pr q v : owner_of n pr -> always (outside n) (handle_put e n key pr (tier_of n) q v).
Proof.
  intros Ho s. unfold handle_put. cbv zeta. apply moves_bind; [apply _|by apply writable_outside|]. fv.
  - apply account_elsewhere.
  - apply (frames_elsewhere []); [set_solver|apply frames_put].
Qed.

Lemma delete_outside n key pr : always (outside n) (handle_delete e n key pr).
Proof.
  intros s. unfold handle_delete. fv. apply (frames_elsewhere []); [set_solver|apply frames_delete].
Qed.

Lemma charge_outside n l res ap : always (outside n) (charge_ops n l res ap).
Proof.
  revert res ap. induction l as [|[rec [i size]] l IH]; intros res ap s; cbn [charge_ops]; fv; try apply IH.
  apply account_elsewhere.
Qed.

Lemma bump_writes_outside n k s : outside n s (Nat.iter k bump_writes s).
Proof. induction k as [|k IH]; [reflexivity|]. cbn. etrans; [exact IH|]. by split. Qed.

Lemma apply_batch_outside n pr b : owner_of n pr -> always (outside n) (apply_batch n pr (tier_of n) b).
Proof.
  intros Ho s. unfold apply_batch. apply moves_bind; [apply _|by apply writable_outside|]. intros s1 _ _.
  apply moves_bind; [apply _|apply charge_outside|]. intros s2 [res ap] _. fv.
  - apply (frames_elsewhere []); [set_solver|apply put_batch_frames].
  - apply bump_writes_outside.
Qed.

(** The check touches the verification cache only, and grants or refuses. *)
Lemma data_auth_cases caps ns key p s s1 o : data_auth e caps ns key p s = (s1, o) ->
  (exists c, s1 = with_cap_cache c s)
  /\ match o with
     | Ok (pr, tier) => tier = tier_of ns /\ owner_of ns pr
         /\ exists l, caps = Some l /\ Caps.subject <$> List.hd_error l = Some pr
     | Err x => 400 <= status x
     | Panic => False
     end.
Proof.
  assert (exists c, s = with_cap_cache c s) as Hs by (by exists (cap_cache s); destruct s).
  unfold data_auth, auth_l1_l2, mbind, method_bind, self, lift, update. cbv zeta.
  destruct caps as [l|]; cbn [ok_or]; [|intros [= <- <-]; by split].
  destruct (Caps.subject <$> List.hd_error l) as [pr|] eqn:Eh; cbn [ok_or]; [|intros [= <- <-]; by split].
  set (sc := data_scope (tier_of ns) ns key (host_name s)).
  pose proof (AuthSpec.authorize_settles sc pr p l (keyring s) (revocations s)
    (host_name s) (wall e 1) (cap_busy e) (rev_epoch s) (Some (cap_cache s))) as Hst.
  pose proof (AuthSpec.authorize_cached_grants sc pr p l (keyring s) (revocations s)
    (host_name s) (wall e 1) (cap_busy e) (rev_epoch s) (Some (cap_cache s))) as Hg.
  destruct (Auth.authorize_cached _ _ _ _ _ _ _ _ _ _ _) as [cache [[]|x|]]; cbn [map_err snd] in *; [| |done];
    intros [= <- <-]; (split; [by eexists|]).
  - split_and!; [done| |by exists l]. intros Ht. destruct (Hg eq_refl) as (c & _ & <- & Hc).
    unfold AuthSpec.grants in Hc. cbn in Hc. rewrite Ht in Hc. by destruct Hc as (_ & Hn & _).
  - by destruct x.
Qed.

Lemma data_then n caps key p s (k : _ -> handler Response) :
  (forall s' pr, owner_of n pr -> moves (outside n) s' (k (pr, tier_of n))) ->
  moves (outside n) s (data_auth e caps n key p ≫= k).
Proof.
  intros Hk. apply moves_bind; [apply _|unfold data_auth; fv|].
  intros s' [pr t] (_ & -> & Ho & _)%data_auth_cases. by apply Hk.
Qed.

Lemma ql_outside n caps expr : always (outside n) (run_ql fields_text e caps n expr).
Proof.
  intros s. unfold run_ql. apply data_then. intros s' pr _. apply moves_self. cbv zeta.
  destruct (Query.classify expr) as [[]|err|]; [fv| |fv..].
  match goal with |- moves _ _ (let '(q, o) := Query.eval ?h ?f ?x ?c in _) =>
    destruct (QuerySpec.cf_eval h f n x c eq_refl eq_refl) as (_ & _ & _ & _ & F);
    destruct (Query.eval h f x c) as [q o] end.
  apply moves_bind; [apply _|apply moves_update; split; [|done]|fv].
  apply (frame_elsewhere [bs "index/" ++ n]); [|exact F]. unfold ns_keys. set_solver.
Qed.

Lemma data_outside n caps r : always (outside n) (l2_handler fields_text e caps n r).
Proof.
  intros s. destruct r as [q|key m q v|expr|text| |q| |q]; cbn [l2_handler].
  - apply moves_lift_bind; [apply _|]. intros p _. apply data_then. intros s' pr _. fv.
  - unfold handle_data. apply data_then. intros s' pr Ho. destruct m.
    + unfold handle_get. fv.
    + by apply put_outside.
    + apply delete_outside.
    + fv.
  - apply ql_outside.
  - unfold handle_batch. do 4 (apply moves_lift_bind; [apply _|]; intros ? _). apply data_then.
    intros s' pr Ho. cbv beta iota. fv.
    + by apply apply_batch_outside.
    + case_match; [|reflexivity]. unfold notify_sync. destruct (sync_tx _); by split.
  - apply data_then. intros s' pr _. fv.
  - apply data_then. intros s' pr _. fv.
  - apply data_then. intros s' pr _. fv.
  - apply data_then. intros s' pr _. fv.
Qed.

(** The middleware counts, limits and fills the parse cache. *)
Lemma rate_limit_outside n key now : always (outside n) (rate_limit key now).
Proof.
  intros s. unfold rate_limit. apply moves_bind; [apply _| |fv]. unfold moves, rate_ok.
  by destruct (RateLimit.allow _ _ _).
Qed.

Lemma auth_mw_outside n header : always (outside n) (auth_mw e header).
Proof.
  intros s. unfold auth_mw. apply moves_bind; [apply _|by apply moves_update|]. intros s1 _ _. cbv zeta.
  assert (forall B r key (k : handler B), always (outside n) k ->
    moves (outside n) r (rate_limit key (wall e 0) ≫= fun _ => k)) as Hrate.
  { intros B r key k Hk. apply moves_bind; [apply _|apply rate_limit_outside|]. intros. apply Hk. }
  destruct header as [h|]; [|apply Hrate; intros ?; apply moves_ret, _].
  apply moves_bind; [apply _| |].
  - unfold header_cap. apply moves_self. cbv zeta. fv. by split.
  - intros s2 [c|] _; [apply moves_self; cbv zeta|]; apply Hrate; intros ?; fv.
Qed.


End spec.

(** ** Witness *)

#[local] Existing Instances toy_sha256 hex_plain toy_ed25519 CapsToy.toy_cap_json toy_config_text.
#[local] Existing Instances SchemaSpec.decimal_floats RateLimit.plain_order ServerDemo.demo_json.
Import ServerDemo.


End ServerFrame.
