(* ===== verification/ServerData.v ===== *)
(** What the data handlers do once a request is authorized: writes and the
    reads that follow them, batches, and the change feed. *)

From S2P Require Import Prelude Moves Crc32 LogFormat Log LogSpec Base64 Utf8 Text StoreTypes Store StoreSpec StoreFrame Hlc Ident Json Schema SchemaSpec Config Caps CapsToy CapsSpec Auth AuthSpec RateLimit Query Server ServerDemo ServerSpec ServerFrame.
Import Utf8 Text Store StoreSpec StoreFrame Json Config ConfigOps Server ServerSpec.

Module ServerData.

Section spec.
Context `{Sha256, HexCrate, SerdeJson, JsonFloat, Ed25519, CapJson, !Caps.CapJsonLaws, ConfigText, RateLimit.HashOrder}.

Abbreviation written := Auth.bytes_written.

(** ** Runs of the parts *)

Lemma needs_run {B} ns (k : unit -> handler B) s :
  (needs_namespace ns ≫= k) s
  = match policies (store s) !! ns with
    | Some _ => k tt s
    | None => (s, Err (err_code 404 "namespace_not_found"))
    end.
Proof.
  unfold needs_namespace, mbind, method_bind, self, reply_if, lift, policy. cbn.
  by destruct (policies (store s) !! ns).
Qed.

Lemma on_store_ok {A Er B} (m : method Store Er A) (k : A + Er -> handler B) s st a :
  m (store s) = (st, Ok a) -> (on_store m ≫= k) s = k (inl a) (with_store st s).
Proof. intros E. unfold on_store, mbind, method_bind. by rewrite E. Qed.

Lemma on_store_err {A Er B} (m : method Store Er A) (k : A + Er -> handler B) s st x :
  m (store s) = (st, Err x) -> (on_store m ≫= k) s = k (inr x) (with_store st s).
Proof. intros E. unfold on_store, mbind, method_bind. by rewrite E. Qed.

Lemma with_store_id s : with_store (store s) s = s.
Proof. by destruct s. Qed.

Lemma store_committed ns s : store (committed ns s) = store s.
Proof. unfold committed, notify_sync. by destruct (sync_tx s). Qed.

(** A charge goes on the ledger and nowhere else. *)
Lemma charged_ok st ns z rs : store_ok st -> log_holds st ns rs -> is_u64 z ->
  let st' := meta_set (Auth.quota_key ns) (le_bytes 8 z) st in
  store_ok st' /\ log_holds st' ns rs /\ (forall n k, get st' n k = get st n k)
  /\ (forall n, schema st' n = schema st n)
  /\ forall n, written st' n = if bool_decide (n = ns) then z else written st n.
Proof.
  intros Hok Hlog Hz. split_and!.
  - by apply bump_ok, with_meta_ok.
  - by eapply log_holds_same.
  - done.
  - intros n. unfold schema, meta_set. cbn. apply lookup_insert_ne. by unfold Auth.quota_key.
  - intros n. by apply AuthSpec.bytes_written_set.
Qed.

Lemma charged_frame st ns b : frame [Auth.quota_key ns] ns st (meta_set (Auth.quota_key ns) b st).
Proof.
  split; try done. intros k Hk. cbn. apply lookup_insert_ne. intros <-. apply Hk. by left.
Qed.

Lemma put_written st ns k v h r a x n : written (put ns k v h r a x st).1 n = written st n.
Proof.
  unfold Auth.bytes_written, meta_get.
  by rewrite (frame_meta _ _ _ _ (frames_put [] ns k v h r a x st)) by set_solver.
Qed.

(** ** Writing and reading back *)

(** The schema's verdict on a value. *)
Definition admitted (st : Store) (ns v : bytes) : outcome api_error unit :=
  match schema st ns with Some b => conforms (parse_or_null b) v | None => Ok tt end.

(** The record a [PUT] appends. *)
Definition put_record (e : env) (s : AppState) (key : bytes) (pr : Ident.PublicKey) (q : gmap bytes bytes)
    (v : bytes) : LogFormat.record :=
  let ex := ttl_expiry (wall e 2) (query_u64 "ttl" q) in
  LogFormat.mkRecord (if ex =? 0 then LogFormat.TAG_PUT else LogFormat.TAG_PUT_TTL) key
    (hlc_clock e 0) (root s) pr v ex [].

Lemma put_record_put e s k prin q v : is_put (put_record e s k prin q v) = true.
Proof. unfold is_put, put_record. apply bool_decide_eq_true. cbn. destruct (_ =? 0); auto. Qed.

(** What a committed write of [r] has done: one more record, its value shown,
    no other key and no other namespace changed, its size charged, one counter
    and the signals. *)
Record put_done (ns : bytes) (p : ConflictPolicy) (rs : list bytes) (r : LogFormat.record)
    (s s' : AppState) : Prop := {
  pd_rest : s' = committed ns (with_store (store s') s);
  pd_ok : store_ok (store s');
  pd_frame : frame [Auth.quota_key ns] ns (store s) (store s');
  pd_log : exists hd, length hd = 32%nat /\ log_holds (store s') ns (rs ++ [LogFormat.to_bytes r hd]);
  pd_get : get (store s') ns (LogFormat.key r)
    = Some (local_entry p (index (store s) !! (ns, LogFormat.key r))
              (op_version r (Z.of_nat (length rs) + 1)));
  pd_others n k : (n, k) <> (ns, LogFormat.key r) -> get (store s') n k = get (store s) n k;
  pd_quota n : written (store s') n
    = written (store s) n + (if bool_decide (n = ns) then blen (LogFormat.value r) else 0);
}.

(** A caller that may use [ns] at [tier]: an owner's namespace is written by its
    owner only, which is what authorization lets through. *)
Definition owns (tier : Caps.Tier) (ns : bytes) (pr : Ident.PublicKey) : Prop :=
  tier = Caps.L3 -> bs "u/" ++ Ident.pk_to_string pr = ns.

(** A namespace that exists is writable as it is. *)
Lemma writable_run {B} tier ns pr p (k : unit -> handler B) s : owns tier ns pr ->
  policies (store s) !! ns = Some p -> (writable_namespace tier ns pr ≫= k) s = k tt s.
Proof.
  intros Ho Hp. unfold writable_namespace. case_bool_decide as Ht; [|by rewrite needs_run, Hp].
  assert (Auth.ensure_l3_namespace pr (store s) = (store s, Ok ns)) as E.
  { unfold Auth.ensure_l3_namespace, mbind, method_bind, self, policy. cbv beta zeta. by rewrite (Ho Ht), Hp. }
  rewrite <-(with_store_id s) at 2. unfold mbind at 1, method_bind at 1. by rewrite (on_store_ok _ _ _ _ _ E).
Qed.

(** An owner's namespace that is missing is created first. *)
Lemma writable_create {B} ns pr (k : unit -> handler B) s : bs "u/" ++ Ident.pk_to_string pr = ns ->
  policies (store s) !! ns = None ->
  (writable_namespace Caps.L3 ns pr ≫= k) s
  = (let '(st, c) := create_namespace ns PLww (store s) in
     match c with
     | Ok _ => k tt (with_store st s)
     | Err _ => (with_store st s, Err (err_code 403 "forbidden"))
     | Panic => (with_store st s, Panic)
     end).
Proof.
  intros Ho Hp. unfold writable_namespace. rewrite bool_decide_eq_true_2 by done.
  unfold Auth.ensure_l3_namespace, on_store, mbind, method_bind, self, policy, Auth.method_map_err. cbv beta zeta.
  rewrite Ho, Hp. by destruct (create_namespace ns PLww (store s)) as [st [[]|x|]].
Qed.

Lemma created_policy ns p st st' : create_namespace ns p st = (st', Ok tt) -> policies st' !! ns = Some p.
Proof.
  unfold create_namespace. intros E. rewrite (method_bind_step self _ st st st eq_refl) in E.
  do 2 (apply method_bind_ok in E as (? & [] & [= <- _] & E)).
  apply method_bind_ok in E as (? & [[d L] w] & [= <- _] & E). apply method_bind_ok in E as (s1 & [] & _ & E).
  apply method_bind_ok in E as (? & [] & [= <- _] & E). cbv zeta in E.
  rewrite !(method_bind_step (update _) _ _ _ tt eq_refl) in E. injection E as <-. apply lookup_insert_eq.
Qed.

Lemma handle_put_run e ns key pr tier q v s p rs :
  let r := put_record e s key pr q v in
  store_ok (store s) -> policies (store s) !! ns = Some p -> log_holds (store s) ns rs ->
  owns tier ns pr -> LogFormat.wf_record r -> written (store s) ns + blen v < 2 ^ 64 ->
  let '(s', o) := handle_put e ns key pr tier q v s in
  match admitted (store s) ns v with
  | Err x => s' = s /\ o = Err (err_json 400 x)
  | Panic => o = Panic
  | Ok _ =>
      if quota s <? written (store s) ns + blen v
      then s' = s /\ o = Err (err_code 409 "quota_exceeded")
      else put_done ns p rs r s s'
        /\ o = Ok (ok_json (jobj [("ok", JBool true); ("seq", jnum (Z.of_nat (length rs) + 1));
                                  ("expires_at", jnum (LogFormat.expires_at r))]%string))
  end.
Proof.
  intros r Hok Hp Hlog Ho Hwf Hq. unfold handle_put, url_decoded. cbv zeta. rewrite (writable_run tier ns pr p) by done.
  rewrite (method_bind_step self _ s s s eq_refl). fold (admitted (store s) ns v).
  assert (forall B (k : unit -> handler B), (lift (match schema (store s) ns with
    | Some b => map_err (err_json 400) (conforms (parse_or_null b) v) | None => Ok tt end) ≫= k) s
    = match admitted (store s) ns v with Ok _ => k tt s | Err x => (s, Err (err_json 400 x)) | Panic => (s, Panic) end) as ->.
  { intros B k. unfold mbind, method_bind, lift, admitted. destruct (schema _ _); [|done]. by destruct (conforms _ _) as [[]| |]. }
  destruct (admitted (store s) ns v) as [[]|x|]; [|done..].
  pose proof (AuthSpec.bytes_written_range (store s) ns) as Hr. unfold is_u64, blen in *.
  pose proof (AuthSpec.account_write_run (store s) ns (Z.of_nat (length v)) (quota s)
    ltac:(unfold is_u64; lia)) as Ec.
  destruct (quota s <? _) eqn:Eq.
  { rewrite (on_store_err _ _ _ _ _ Ec), with_store_id. done. }
  rewrite (on_store_ok _ _ _ _ _ Ec). set (st1 := meta_set _ _ _).
  destruct (charged_ok (store s) ns (written (store s) ns + Z.of_nat (length v)) rs Hok Hlog
    ltac:(unfold is_u64; lia)) as (Hok1 & Hlog1 & Hget1 & _ & Hw1). fold st1 in Hok1, Hlog1, Hget1, Hw1.
  destruct (put_get st1 ns p rs key v (hlc_clock e 0) (root s) pr (LogFormat.expires_at r) Hok1 Hp Hlog1 Hwf)
    as (st2 & hd & Ep & Hlog2 & Hh2 & Hg2 & Ho2).
  rewrite (method_bind_step (lift (Ok tt)) _ _ _ _ eq_refl).
  rewrite (on_store_ok _ _ (with_store st1 s) st2 (Z.of_nat (length rs) + 1) Ep).
  rewrite (method_bind_step (update _) _ _ _ _ eq_refl). split; [|done].
  assert (with_store st2 (with_store st1 s) = with_store st2 s) as -> by done.
  split; rewrite ?store_committed; cbn [store with_store]; [done| | |by exists hd|exact Hg2| |].
  - pose proof (exec_keeps (OpPut ns key v (hlc_clock e 0) (root s) pr (LogFormat.expires_at r)) Hwf st1 Hok1) as Hk.
    revert Hk. cbn [exec]. unfold forget, mbind, method_bind. by rewrite Ep.
  - trans st1; [by apply charged_frame|].
    pose proof (frames_put [Auth.quota_key ns] ns key v (hlc_clock e 0) (root s) pr (LogFormat.expires_at r) st1) as Hfr. by rewrite Ep in Hfr.
  - intros n k Hne. by rewrite (Ho2 n k Hne).
  - intros n. assert (written st2 n = written st1 n) as -> by (rewrite <-(put_written st1 ns key v (hlc_clock e 0) (root s) pr (LogFormat.expires_at r) n); by rewrite Ep).
    rewrite Hw1. case_bool_decide; [subst; done|lia].
Qed.

Lemma admitted_settles st ns v : admitted st ns v <> Panic.
Proof.
  unfold admitted, conforms. destruct (schema st ns) as [b|]; [|done]. destruct (json_value _) as [x|]; [|done].
  pose proof (SchemaSpec.validate_settles (parse_or_null b) x (bs "$")) as Hv.
  unfold Schema.validate_schema. by destruct (Schema.validate_at _ _ _).
Qed.

(** A plain [GET] answers with the latest value that has not expired. *)
Lemma get_run e caps ns key tier q s : q !! bs "prefix" = None -> q !! bs "versions" <> Some (bs "true") ->
  handle_get e caps ns key tier q s
  = (s, Ok (match get (store s) ns key ≫= fun en => latest_value en (wall e 2) with
            | Some v => mkResponse 200 (Raw v)
            | None => err_code 404 "not_found"
            end)).
Proof. intros Hp Hv. unfold handle_get, url_decoded. rewrite Hp. cbv zeta. by rewrite bool_decide_eq_false_2. Qed.

(** C12: a [PUT] behind the check of its capability, on every branch, in a shared
    namespace or in one of its owner.  If the namespace is missing, a shared one
    answers 404 and nothing changes; an owner's is created, with 403 if that
    fails, and the request then goes on in it.  In a namespace that exists, a
    value the schema refuses answers 400 and a value that does not fit the quota
    answers 409; these change nothing, so no refused write is charged.
    Otherwise it answers 200 with the next sequence number after appending
    exactly one record, charging exactly the value's size, changing no other key
    and signalling the change.  A later plain [GET] reads the entry that the
    write leaves, which under the last-writer-wins policy answers with the value
    until it expires; in a register namespace it is the newest live version. *)
Theorem put_request e ns key pr tier q v s :
  let r := put_record e s key pr q v in
  let '(s', o) := handle_put e ns key pr tier q v s in
  store_ok (store s) -> owns tier ns pr -> LogFormat.wf_record r -> written (store s) ns + blen v < 2 ^ 64 ->
  match policies (store s) !! ns with
  | None =>
      if bool_decide (tier = Caps.L3) then
        let '(st, c) := create_namespace ns PLww (store s) in
        match c with
        | Ok _ => store_ok st /\ policies st !! ns = Some PLww
            /\ (s', o) = handle_put e ns key pr tier q v (with_store st s)
        | Err _ => s' = with_store st s /\ o = Err (err_code 403 "forbidden")
        | Panic => s' = with_store st s /\ o = Panic
        end
      else s' = s /\ o = Err (err_code 404 "namespace_not_found")
  | Some p =>
      match admitted (store s) ns v with
      | Err x => s' = s /\ o = Err (err_json 400 x)
      | Panic => False
      | Ok _ =>
          if quota s <? written (store s) ns + blen v
          then s' = s /\ o = Err (err_code 409 "quota_exceeded")
          else exists rs, log_holds (store s) ns rs /\ put_done ns p rs r s s'
            /\ o = Ok (ok_json (jobj [("ok", JBool true); ("seq", jnum (Z.of_nat (length rs) + 1));
                                      ("expires_at", jnum (LogFormat.expires_at r))]%string))
            /\ forall e' caps t q', q' !! bs "prefix" = None -> q' !! bs "versions" <> Some (bs "true") ->
                let entry := local_entry p (index (store s) !! (ns, key)) (op_version r (Z.of_nat (length rs) + 1)) in
                handle_get e' caps ns key t q' s'
                = (s', Ok (match latest_value entry (wall e' 2) with
                           | Some w => mkResponse 200 (Raw w)
                           | None => err_code 404 "not_found"
                           end))
                /\ (p = PLww -> LogFormat.expires_at r = 0 \/ wall e' 2 < LogFormat.expires_at r ->
                    latest_value entry (wall e' 2) = Some v)
      end
  end.
Proof.
  intros r. destruct (handle_put e ns key pr tier q v s) as [s' o] eqn:E. intros Hok Ho Hwf Hq.
  destruct (policies (store s) !! ns) as [p|] eqn:Hp.
  - destruct (ok_holds (store s) ns p Hok Hp) as (L & d & rs & HL & Hdir & Hi).
    assert (log_holds (store s) ns rs) as Hlog by (by exists L, d).
    pose proof (handle_put_run e ns key pr tier q v s p rs Hok Hp Hlog Ho Hwf Hq) as Hrun. rewrite E in Hrun.
    pose proof (admitted_settles (store s) ns v) as Hst. destruct (admitted (store s) ns v) as [[]|x|]; [|done..].
    destruct (quota s <? _); [done|]. destruct Hrun as [Hd Hres]. exists rs. split_and!; [done..|].
    intros e' caps t q' Hq1 Hq2 entry. split.
    + by rewrite get_run, (pd_get _ _ _ _ _ _ Hd : get (store s') ns key = _) by done.
    + intros -> Hex. unfold entry. cbn [local_entry latest_value]. unfold live, op_version. cbn [expires_at value].
      rewrite (proj2 (orb_true_iff _ _)); [done|]. rewrite Z.eqb_eq, Z.ltb_lt. exact Hex.
  - revert E. unfold handle_put. cbv zeta. case_bool_decide as Ht.
    + subst tier. rewrite writable_create by (exact (Ho eq_refl) || exact Hp).
      destruct (create_namespace ns PLww (store s)) as [st [[]|x|]] eqn:Ec; [|by intros [= <- <-]..].
      pose proof (created_policy _ _ _ _ Ec) as Hp'. pose proof (create_namespace_keeps ns PLww (store s) Hok) as Hok'.
      rewrite Ec in Hok'. rewrite (writable_run Caps.L3 ns pr PLww _ (with_store st s) Ho Hp'). by intros <-.
    + unfold writable_namespace. rewrite bool_decide_eq_false_2 by done. rewrite needs_run, Hp. by intros [= <- <-].
Qed.

End spec.

(** ** Witnesses *)

#[local] Existing Instances toy_sha256 hex_plain toy_ed25519 CapsToy.toy_cap_json toy_config_text.
#[local] Existing Instances SchemaSpec.decimal_floats RateLimit.plain_order ServerDemo.demo_json.
Import ServerDemo.

Lemma put_request_witness :
  exists s' rs, put_done (bs "app") PLww rs (put_record demo_env demo_app (bs "k") alice ∅ (bs "v")) demo_app s'
    /\ handle_get demo_env None (bs "app") (bs "k") Caps.L2 ∅ s' = (s', Ok (mkResponse 200 (Raw (bs "v")))).
Proof.
  pose proof (put_request demo_env (bs "app") (bs "k") alice Caps.L2 ∅ (bs "v") demo_app) as Hput. cbv zeta in Hput.
  destruct (handle_put demo_env (bs "app") (bs "k") alice Caps.L2 ∅ (bs "v") demo_app) as [s' o].
  destruct Hput as (rs & _ & Hd & _ & Hg); [apply demo_store_ok|done|wf_single|by vm_compute|].
  exists s', rs. split; [exact Hd|].
  destruct (Hg demo_env None Caps.L2 ∅) as [-> Hv]; [done|done|]. rewrite Hv by (done || by left). done.
Defined.

End ServerData.
