(* ===== verification/Cluster.v ===== *)
(** Two nodes: what a client writes through the API of one is what a client
    reads through the API of another that follows it.  The API and the mesh
    engine of a node share one store, so this joins [ServerData] (what a [PUT]
    commits) with [NetLive] (what a replica receives). *)

From S2P Require Import Prelude Moves Crc32 LogFormat Log LogSpec Base64 Utf8 Text StoreTypes Store StoreSpec StoreFrame SyncSpec Snapshot Merge Hlc Ident Json Schema SchemaSpec Config Caps CapsToy CapsSpec Auth AuthSpec RateLimit Net NetSpec NetRun NetLive Query Server ServerDemo ServerSpec ServerFrame ServerData.
Import LogFormat LogSpec Store StoreSpec StoreFrame SyncSpec Ident ConfigOps NetRun NetLive ServerData.

Module Cluster.

Section cluster.
Context `{Sha256, HexCrate, SerdeJson, JsonFloat, Ed25519, CapJson, !Caps.CapJsonLaws, ConfigText, RateLimit.HashOrder, Libp2p}.

(** ** Logs that grow *)

(** The last write of a key is what its log says of it. *)
Lemma log_shows_newest rs r hd : wf_record r -> is_put r = true -> length hd = 32%nat ->
  newest r (ops_log rs) -> log_shows (key r) (rs ++ [to_bytes r hd]) = Some (op_version r 0).
Proof.
  intros Hwf Hput Hh Hnew. unfold log_shows. rewrite ops_log_snoc, existsb_app by done.
  assert (existsb (del_on (key r)) (ops_log rs) = false) as ->.
  { apply not_true_iff_false. intros (o & Ho & Hd)%existsb_exists. unfold del_on in Hd.
    apply andb_true_iff in Hd as [Hk%bool_decide_eq_true Hd]. apply list_elem_of_In in Ho.
    destruct (proj1 (Forall_forall _ _) Hnew o Ho Hk) as [Hp _]. by rewrite Hp in Hd. }
  cbn [existsb orb]. unfold del_on. rewrite Hput, andb_false_r. cbn [orb].
  rewrite filter_app, fmap_app, filter_cons_True, filter_nil by (by split). cbn [fmap list_fmap].
  rewrite max_version_snoc. destruct (max_version _) as [b|] eqn:Eb; [|done].
  apply max_version_spec in Eb as [Hb _]. apply list_elem_of_fmap in Hb as (o & -> & [[Ho Hk] Hin]%list_elem_of_filter).
  destruct (proj1 (Forall_forall _ _) Hnew o Hin Hk) as [_ Hg]. change (vkey (op_version ?x 0)) with (stamp x). by rewrite Hg.
Qed.

Lemma fits_any r hd hd' : length hd = 32%nat -> length hd' = 32%nat -> fits (to_bytes r hd) -> fits (to_bytes r hd').
Proof. intros Hh Hh'. unfold fits. by rewrite !length_to_bytes. Qed.

(** ** The nodes *)

(** Node A with root key [kA], and node B that follows it as its only peer. *)
Context (eA eB : Net.env) (HeA : Net.env_ok eA) (HeB : Net.env_ok eB).
Context (kA kB : Keypair) (ns : bytes) (pr : Peer).
Context (Haddr : is_Some (multiaddr (addr pr))).
Context (Hallow : forall l, peer_namespaces pr = Some l -> ns ∈ l).
Context (Hconn : Net.is_connected eB (peer_id (public kA)) = true).

Abbreviation leader := (NetLive.leader kA kB ns).
Abbreviation replica := (NetLive.replica kA ns PLww pr).
Abbreviation rounds := (fun n => Nat.iter n (sync_round eA eB kA kB)).

Lemma distinct_snoc rs r hd : wf_record r -> length hd = 32%nat ->
  NoDup (omap version_at rs ++ [version_key r]) -> distinct_versions (rs ++ [to_bytes r hd]).
Proof.
  intros Hwf Hh. unfold distinct_versions. rewrite omap_app.
  assert (version_at (to_bytes r hd) = Some (version_key r)) as E.
  { unfold version_at. by rewrite (parse_chain_to_bytes r hd None Hwf Hh ltac:(by left)). }
  cbn [omap list_omap]. by rewrite E.
Qed.

(** A store whose entries come from a log that ends with [r] answers with [r]'s
    value while it lives. *)
Lemma get_newest e caps tier q sb rs r hd : reads_from ns PLww (ops_log (rs ++ [to_bytes r hd])) (Server.store sb) ->
  wf_record r -> is_put r = true -> length hd = 32%nat -> newest r (ops_log rs) ->
  q !! bs "prefix" = None -> q !! bs "versions" <> Some (bs "true") ->
  (expires_at r = 0 \/ Server.wall e 2 < expires_at r) ->
  Server.handle_get e caps ns (key r) tier q sb = (sb, Ok (Server.mkResponse 200 (Server.Raw (value r)))).
Proof.
  intros Hm Hwf Hput Hh Hnew Hq1 Hq2 Hex. pose proof (reads_from_shows ns PLww _ _ (key r) Hm) as Hsh.
  rewrite log_shows_newest in Hsh by done. rewrite get_run, (reads_from_lww _ _ _ _ Hm) by done.
  destruct (get (Server.store sb) ns (key r) ≫= latest_entry_value) as [w|]; [|done]. injection Hsh as Hw.
  cbn [fmap option_fmap option_map mbind option_bind Server.latest_value].
  assert (StoreTypes.value w = value r /\ StoreTypes.expires_at w = expires_at r) as [Ev Ex].
  { destruct w. unfold erase, op_version in Hw. cbn in *. by simplify_eq. }
  assert (Server.live (Server.wall e 2) w = true) as ->; [|by rewrite Ev].
  unfold Server.live. rewrite Ex. apply orb_true_iff. by rewrite Z.eqb_eq, Z.ltb_lt.
Qed.

(** After a [PUT] on A, A still leads, with the longer log. *)
Lemma leader_put p rs r s s' ra hd : Net.store ra = Server.store s -> leader rs ra ->
  put_done ns p rs r s s' -> log_holds (Server.store s') ns (rs ++ [to_bytes r hd]) ->
  Z.of_nat (length rs) + 64001 < 2 ^ 64 ->
  leader (rs ++ [to_bytes r hd]) (Net.with_store (Server.store s') ra).
Proof.
  intros Es [Hk Hok [p' Hp] Hl Hsm Hpin Hpv] Hd Hlog Hlt. constructor; try done.
  - apply (pd_ok _ _ _ _ _ _ Hd).
  - exists p'. cbn. by rewrite (frame_policies _ _ _ _ (pd_frame _ _ _ _ _ _ Hd)), <-Es.
  - intros n L HL. cbn in HL. destruct (decide (n = ns)) as [->|Hne].
    + destruct Hlog as (L' & d & HL' & _ & Hi). simplify_eq. apply is_log_facts in Hi as (-> & _).
      rewrite length_app. unfold Net.MAX_RECORDS. cbn [length]. lia.
    + rewrite (frame_logs _ _ _ _ (pd_frame _ _ _ _ _ _ Hd)), <-Es in HL by done. by apply (Hsm n).
Qed.

(** B follows the longer log as it followed the shorter one. *)
Lemma replica_longer rs x lb c rb : replica rs lb c rb -> replica (rs ++ x) lb c rb.
Proof.
  intros [A1 A2 A3 A4 A5 A6 A7 [Hle Hv] A9]. constructor; try done.
  - split; [rewrite length_app; lia|]. by rewrite take_app_le.
  - by rewrite take_app_le.
Qed.

(** C7: a write through the API of node A is read through the API of node B, which
    pulls from A alone the one namespace A has, under the last-writer-wins policy.
    A [PUT] on A, of its owner or in a shared namespace, either changes nothing
    and answers with an error, or answers 200; then, once B has had as many rounds
    of mesh sync as it is records behind, a plain [GET] of the key on B answers
    200 with the value, until the value expires.  A's log has no delete of the key
    and no write of a later time stamp ([newest]; a key that was ever deleted is
    not shown by a replica again), no record of the same kind, time and replica,
    and its records and the new one are of the size a pull may carry. *)
Theorem put_reaches_replica e key prin tier q v s ra rs lb c rb n :
  let r := put_record e s key prin q v in
  owns tier ns prin -> Net.store ra = Server.store s -> leader rs ra -> replica rs lb c rb -> Net.in_flight (Net.c_phase c) = false ->
  wf_record r -> newest r (ops_log rs) -> NoDup (omap version_at rs ++ [version_key r]) ->
  Forall fits rs -> fits (to_bytes r zero32) -> Z.of_nat (length rs) + 64001 < 2 ^ 64 ->
  Auth.bytes_written (Server.store s) ns + Z.of_nat (length v) < 2 ^ 64 -> (length rs < length lb + n)%nat ->
  let '(s', o) := Server.handle_put e ns key prin tier q v s in
  match o with
  | Ok x => Server.status x = 200 /\ exists ra' rb',
      rounds n (Net.with_store (Server.store s') ra, rb) = (ra', rb')
      /\ forall sb e' caps t q', Server.store sb = Net.store rb' ->
          q' !! bs "prefix" = None -> q' !! bs "versions" <> Some (bs "true") ->
          (expires_at r = 0 \/ Server.wall e' 2 < expires_at r) ->
          Server.handle_get e' caps ns key t q' sb = (sb, Ok (Server.mkResponse 200 (Server.Raw v)))
  | Err x => s' = s /\ 400 <= Server.status x
  | Panic => False
  end.
Proof.
  intros r Hown Es Hl Hr Hfl Hwf Hnew Hnd Hfit Hfr Hlt Hq Hn. destruct (ld_ns _ _ _ _ _ Hl) as [p Hp].
  assert (policies (Server.store s) !! ns = Some p) as Hps by (rewrite <-Es, Hp; apply lookup_singleton_eq).
  pose proof (handle_put_run e ns key prin tier q v s p rs) as Hrun. cbv zeta in Hrun. fold r in Hrun. rewrite <-Es in Hrun at 1 3.
  specialize (Hrun (ld_store _ _ _ _ _ Hl) Hps (ld_log _ _ _ _ _ Hl) Hown Hwf Hq).
  destruct (Server.handle_put e ns key prin tier q v s) as [s' o].
  pose proof (admitted_settles (Server.store s) ns v) as Hst. destruct (admitted (Server.store s) ns v) as [[]|x|]; [|by destruct Hrun as [-> ->]|done].
  destruct (Server.quota s <? _); [by destruct Hrun as [-> ->]|]. destruct Hrun as [Hd ->]. split; [done|].
  destruct (pd_log _ _ _ _ _ _ Hd) as (hd & Hh & Hlog). set (la := rs ++ [to_bytes r hd]) in *.
  destruct (catches_up eA eB HeA HeB kA kB ns PLww pr Haddr Hallow Hconn la lb c (Net.with_store (Server.store s') ra) rb n)
    as (lb' & c' & ra' & rb' & E & _ & Hr' & _ & Hlen);
    [by apply distinct_snoc| | |by eapply leader_put|by apply replica_longer|done| |].
  { apply Forall_app. split; [done|]. constructor; [|done]. by eapply (fits_any r zero32). }
  1,2: unfold la; rewrite length_app; cbn [length]; lia.
  exists ra', rb'. split; [exact E|]. intros sb e' caps t q' Esb Hq1 Hq2 Hex.
  apply (caught_up kA ns PLww pr la lb' c' rb' Hr') in Hlen as [_ Hm].
  rewrite <-Esb in Hm. apply (get_newest e' caps t q' sb rs r hd Hm); try done. apply put_record_put.
Qed.

End cluster.

(** ** Witness *)

#[local] Existing Instances toy_sha256 hex_plain toy_json toy_ed25519 CapsToy.toy_cap_json toy_config_text NetSpec.toy_libp2p.
#[local] Existing Instances SchemaSpec.decimal_floats RateLimit.plain_order.
Import ServerDemo.

Lemma demo_small : small_logs demo_store.
Proof.
  intros n L HL. destruct (proj1 (ok_dom demo_store demo_store_ok n)) as [p Hn]; [by eexists|].
  assert (policies demo_store = {[bs "app" := PLww]}) as E by vm_decide. rewrite E in Hn.
  apply lookup_singleton_Some in Hn as [<- _]. destruct demo_holds as (L' & d & HL' & _ & Hi).
  rewrite HL in HL'. injection HL' as <-. by apply is_log_facts in Hi as (-> & _).
Qed.

(** Alice puts a value on one node and reads it on the other one after a round. *)
Lemma put_reaches_replica_witness :
  let '(s', o) := Server.handle_put demo_env (bs "app") (bs "k") alice Caps.L2 ∅ (bs "v") demo_app in
  (Server.status <$> match o with Ok x => Some x | _ => None end) = Some 200
  /\ exists ra rb, Nat.iter 1 (sync_round NetSpec.demo_env NetSpec.demo_env live_a live_b)
      (Net.with_store (Server.store s') (live_leader demo_store), live_replica) = (ra, rb)
    /\ forall sb, Server.store sb = Net.store rb ->
        Server.handle_get demo_env None (bs "app") (bs "k") Caps.L2 ∅ sb
        = (sb, Ok (Server.mkResponse 200 (Server.Raw (bs "v")))).
Proof.
  pose proof (put_reaches_replica NetSpec.demo_env NetSpec.demo_env NetSpec.demo_env_ok NetSpec.demo_env_ok
    live_a live_b (bs "app") live_peer ltac:(by eexists) ltac:(discriminate) ltac:(reflexivity)
    demo_env (bs "k") alice Caps.L2 ∅ (bs "v") demo_app (live_leader demo_store) [] [] live_ctx live_replica 1) as W.
  cbv zeta in W.
  assert (match (Server.handle_put demo_env (bs "app") (bs "k") alice Caps.L2 ∅ (bs "v") demo_app).2 with
    | Ok _ => True | _ => False end) as Ho by (vm_compute; exact I).
  destruct (Server.handle_put demo_env (bs "app") (bs "k") alice Caps.L2 ∅ (bs "v") demo_app) as [s' o].
  cbn [snd] in Ho. destruct o as [x| |]; [|destruct Ho..].
  destruct W as (Hx & ra & rb & E & Hg).
  - done.
  - reflexivity.
  - apply live_leader_is; [apply demo_store_ok|vm_decide|apply demo_holds|apply demo_small].
  - apply live_replica_is.
  - reflexivity.
  - wf_single.
  - constructor.
  - apply NoDup_singleton.
  - constructor.
  - unfold fits. rewrite length_to_bytes by done. vm_compute. discriminate.
  - done.
  - by vm_compute.
  - simpl. lia.
  - split; [by rewrite <-Hx|]. exists ra, rb. split; [exact E|]. intros sb Hsb. apply Hg; [exact Hsb|done|done|by left].
Defined.

End Cluster.
