(* ===== verification/ServerBatch.v ===== *)
(** Batches: every operation is answered in its place and in one way only; the
    writes the quota covers become one log record, in the order of the request,
    whose size is bounded before anything is charged; and the reads observe the
    batch applied. *)

From S2P Require Import Prelude Moves Crc32 LogFormat Log LogSpec Base64 Utf8 Text StoreTypes Store StoreSpec StoreFrame Hlc Ident Json Schema SchemaSpec Config Caps CapsToy CapsSpec Auth AuthSpec RateLimit Query Server ServerDemo ServerSpec ServerFrame ServerData.
Import Utf8 Text Store StoreSpec StoreFrame Json Config ConfigOps Server ServerSpec ServerFrame ServerData.

Module ServerBatch.

Abbreviation slots := (list (option op_result)).

(** ** Filling slots *)

Lemma fill_snoc r pending p res : fill r (pending ++ [p]) res
  = match fill r pending res !! p.1 with Some None => <[p.1 := Some r]> (fill r pending res) | _ => fill r pending res end.
Proof. unfold fill. by rewrite fold_left_app. Qed.

Lemma fill_lookup r pending res i : fill r pending res !! i
  = match res !! i with
    | Some None => if bool_decide (i ∈ pending.*1) then Some (Some r) else Some None
    | x => x
    end.
Proof.
  induction pending as [|[j sz] pending IH] using rev_ind.
  { cbn. by destruct (res !! i) as [[a|]|]. }
  rewrite fill_snoc, fmap_app. cbn [fst fmap list_fmap].
  destruct (decide (i = j)) as [->|Hne].
  - rewrite (bool_decide_eq_true_2 (j ∈ _ ++ [j])) by set_solver.
    destruct (fill r pending res !! j) as [[a|]|] eqn:Ef;
      [rewrite Ef|rewrite list_lookup_insert_eq by (by eapply lookup_lt_Some)|rewrite Ef];
      destruct (res !! j) as [[x|]|]; repeat case_bool_decide; simplify_eq; done.
  - assert (bool_decide (i ∈ pending.*1 ++ [j]) = bool_decide (i ∈ pending.*1)) as ->
      by (apply bool_decide_ext; set_solver).
    rewrite <-IH. destruct (fill r pending res !! j) as [[a|]|]; [done| |done]. by rewrite list_lookup_insert_ne.
Qed.

(** The slots of [l] are closed with [a]. *)
Definition close_all (a : op_result) (l : list nat) (res : slots) : slots :=
  fold_left (fun res i => <[i := Some a]> res) l res.

Lemma close_all_cons a i l res : close_all a (i :: l) res = close_all a l (<[i := Some a]> res).
Proof. done. Qed.

Lemma length_close_all a l res : length (close_all a l res) = length res.
Proof. revert res. induction l as [|i l IH]; intros res; [done|]. by rewrite close_all_cons, IH, length_insert. Qed.

Lemma close_all_lookup a l res i : (i < length res)%nat ->
  close_all a l res !! i = if bool_decide (i ∈ l) then Some (Some a) else res !! i.
Proof.
  revert res. induction l as [|j l IH]; intros res Hi; [done|]. rewrite close_all_cons, IH by (by rewrite length_insert).
  destruct (decide (i ∈ l)) as [Hin|Hni].
  - rewrite !bool_decide_eq_true_2 by set_solver. done.
  - rewrite (bool_decide_eq_false_2 (i ∈ l)) by done. destruct (decide (i = j)) as [->|Hne].
    + rewrite bool_decide_eq_true_2 by set_solver. by rewrite list_lookup_insert_eq.
    + rewrite bool_decide_eq_false_2 by set_solver. by rewrite list_lookup_insert_ne.
Qed.

Section spec.
Context `{Sha256, HexCrate, SerdeJson, JsonFloat, Ed25519, CapJson, !Caps.CapJsonLaws, ConfigText, RateLimit.HashOrder}.
Context (e : env) (Hclock : forall n, is_u64 (hlc_clock e n)).

(** ** The first pass *)

Section pass.
Context (sch : option jvalue) (rid pid : bytes).

(** How an operation is answered: at once, by a read of the final state, or
    by its place in the batch record. *)
Inductive plan := Now (a : op_result) | Read (key : bytes) | Write.

Definition plan_of (op : jvalue) : plan :=
  match op_key op with
  | None => Now (OpError (Code "missing_key"))
  | Some key =>
      if bool_decide (op_name op = bs "get") then Read key
      else if bool_decide (op_name op = bs "put") then
        match batch_value sch op with Err x => Now (OpError x) | _ => Write end
      else if bool_decide (op_name op = bs "del") then Write
      else Now (OpError (Code "unknown_op"))
  end.

(** The record of a write that is the [n]-th of the batch, with [w] writes that
    expire before it: its own readings of the two clocks, key and decoded value
    of the operation, this node and the caller as its authors. *)
Definition op_ttl (op : jvalue) : option Z := field (bs "ttl") op ≫= as_u64.
Definition timed (op : jvalue) : bool :=
  bool_decide (op_name op = bs "put") && match op_ttl op with Some n => 0 <? n | None => false end.
Definition write_record (n w : nat) (op : jvalue) : LogFormat.record :=
  let key := default [] (op_key op) in
  if bool_decide (op_name op = bs "put") then
    let v := match batch_value sch op with Ok v => v | _ => [] end in
    let ex := ttl_expiry (wall e (2 + w)) (op_ttl op) in
    LogFormat.mkRecord (if ex =? 0 then LogFormat.TAG_PUT else LogFormat.TAG_PUT_TTL) key (hlc_clock e n) rid pid v ex []
  else LogFormat.mkRecord LogFormat.TAG_DEL key (hlc_clock e n) rid pid [] 0 [].

(** The writes of a batch and its reads, each with its position. *)
Fixpoint writes_from (i n w : nat) (ops : list jvalue) : list (nat * LogFormat.record) :=
  match ops with
  | [] => []
  | op :: ops =>
      match plan_of op with
      | Write => (i, write_record n w op) :: writes_from (S i) (S n) (if timed op then S w else w) ops
      | _ => writes_from (S i) n w ops
      end
  end.
Fixpoint reads_from (i : nat) (ops : list jvalue) : list (nat * bytes) :=
  match ops with
  | [] => []
  | op :: ops => match plan_of op with Read k => (i, k) :: reads_from (S i) ops | _ => reads_from (S i) ops end
  end.
Fixpoint timed_writes (ops : list jvalue) : nat :=
  match ops with
  | [] => 0
  | op :: ops => match plan_of op with Write => if timed op then S (timed_writes ops) else timed_writes ops | _ => timed_writes ops end
  end.
Definition slot_of (op : jvalue) : option op_result := match plan_of op with Now a => Some a | _ => None end.
Definition charges (ws : list (nat * LogFormat.record)) : list (nat * Z) :=
  map (fun ir => (ir.1, blen (LogFormat.value ir.2))) ws.

Lemma batch_value_settles op : batch_value sch op <> Panic.
Proof.
  unfold batch_value. destruct (op_value op) as [t|]; [|done]. cbn.
  pose proof (Base64.b64_decode_total t). destruct (Base64.b64_decode t) as [v| |]; try done. cbn.
  destruct sch as [s|]; [|done]. unfold conforms. destruct (json_value _) as [x|]; [|done].
  pose proof (SchemaSpec.validate_settles s x (bs "$")) as Hv. unfold Schema.validate_schema.
  by destruct (Schema.validate_at _ _ _).
Qed.

(** One operation, by its plan. *)
Lemma batch_op_run op b : batch_op e sch rid pid op b
  = Ok (match plan_of op with
        | Now a => push_result a b
        | Read k => push_get k b
        | Write => let r := write_record (hlcs b) (walls b) op in push_write r (blen (LogFormat.value r)) (timed op) b
        end).
Proof.
  unfold batch_op, plan_of, write_record, timed. destruct (op_key op) as [k|]; [|done].
  case_bool_decide as Hg; [done|]. case_bool_decide as Hp.
  - pose proof (batch_value_settles op). by destruct (batch_value sch op).
  - by case_bool_decide.
Qed.

Lemma batch_ops_run ops b : exists b', batch_ops e sch rid pid ops b = Ok b'
  /\ results b' = results b ++ map slot_of ops
  /\ (let ws := writes_from (length (results b)) (hlcs b) (walls b) ops in
      accepted b' = accepted b ++ ws.*2 /\ pending_writes b' = pending_writes b ++ charges ws)
  /\ pending_gets b' = pending_gets b ++ reads_from (length (results b)) ops
  /\ walls b' = (walls b + timed_writes ops)%nat.
Proof.
  revert b. induction ops as [|op ops IH]; intros b.
  { exists b. cbn. rewrite !app_nil_r. split_and!; done || lia. }
  cbn [batch_ops]. rewrite batch_op_run. cbn [mbind outcome_bind]. cbv zeta.
  assert (forall (r : option op_result), length (results b ++ [r]) = S (length (results b))) as Hl
    by (intros r; rewrite length_app; cbn; lia).
  destruct (plan_of op) as [a|k|] eqn:Ep;
    (edestruct IH as (b' & E & R & [A P] & G & W); exists b'; split; [exact E|]); revert R A P G W;
    cbn [results hlcs walls accepted pending_gets pending_writes push_result push_get push_write];
    rewrite !Hl, <-?(assoc_L (++)); intros -> -> -> -> ->; cbn [map writes_from reads_from timed_writes];
    unfold slot_of at 2; rewrite Ep; cbn [charges map fmap list_fmap fst snd]; try done.
  split_and!; [done..|]. destruct (timed op); lia.
Qed.

(** *** The size of the batch record *)

(** The bytes an operation takes in the batch record. *)
Definition op_size (r : LogFormat.record) : nat := S (length (LogFormat.payload_bytes r)).
Definition ops_size (l : list LogFormat.record) : nat := sum_list_with op_size l.

Lemma estimate_from n ops : fold_left (fun est op => est + op_estimate op) ops n = n + batch_estimate ops.
Proof.
  unfold batch_estimate. revert n. induction ops as [|op ops IH]; intros n; [cbn; lia|]. cbn [fold_left].
  rewrite IH, (IH (0 + _)). lia.
Qed.

Lemma estimate_cons op ops : batch_estimate (op :: ops) = op_estimate op + batch_estimate ops.
Proof. unfold batch_estimate at 1. cbn [fold_left]. by rewrite estimate_from. Qed.

Lemma op_estimate_nonneg op : 0 <= op_estimate op.
Proof.
  unfold op_estimate, blen. repeat case_bool_decide; destruct (op_key op); cbn; try lia;
    destruct (op_value op); cbn; Z.to_euclidean_division_equations; lia.
Qed.

Lemma batch_estimate_nonneg ops : 0 <= batch_estimate ops.
Proof. induction ops as [|op ops IH]; [done|]. rewrite estimate_cons. pose proof (op_estimate_nonneg op). lia. Qed.

Lemma ttl_u64 now secs : is_u64 (ttl_expiry now secs).
Proof.
  unfold ttl_expiry. destruct secs as [n|]; [|split; lia]. destruct (0 <? n); [apply u64_range|split; lia].
Qed.

(** What the estimate allows for the value of a [put] is what its text decodes
    to at most. *)
Lemma put_estimate op k v : op_key op = Some k -> op_name op = bs "put" -> batch_value sch op = Ok v ->
  93 + blen k + blen v <= op_estimate op.
Proof.
  intros Hk Hn Hv. unfold op_estimate. rewrite Hk, Hn, bool_decide_eq_true_2 by done.
  unfold batch_value in Hv. apply bind_ok in Hv as (t & Ht & Hv). destruct (op_value op) as [t'|]; [|done].
  injection Ht as ->. apply bind_ok in Hv as (v' & Hd & Hv). apply bind_ok in Hv as (_ & _ & [= ->]).
  destruct (Base64.b64_decode t) as [v'| |] eqn:Ed; try done. injection Hd as ->.
  apply Base64.b64_decode_length in Ed. cbn [fmap option_fmap option_map default from_option id]. unfold blen.
  assert (Z.of_nat ((length t + 3) / 4 * 3)%nat = (Z.of_nat (length t) + 3) / 4 * 3) as E
    by (by rewrite Nat2Z.inj_mul, Nat2Z.inj_div, Nat2Z.inj_add).
  lia.
Qed.

Lemma del_estimate op k : op_key op = Some k -> op_name op = bs "del" -> op_estimate op = 85 + blen k.
Proof.
  intros Hk Hn. unfold op_estimate. by rewrite Hk, Hn, bool_decide_eq_false_2, bool_decide_eq_true_2 by done.
Qed.

(** Within the cap a write is a well-formed operation that takes no more than
    its estimate. *)
Lemma write_record_ok n w op : length rid = 32%nat -> length pid = 32%nat -> plan_of op = Write -> op_estimate op <= MAX_BATCH_RECORD_BYTES ->
  let r := write_record n w op in
  LogFormat.valid_sub_tag (LogFormat.tag r) = true /\ LogFormat.wf_op r /\ Z.of_nat (op_size r) <= op_estimate op.
Proof.
  intros Hrid Hpid Hp Hest. cbv zeta. unfold plan_of in Hp. destruct (op_key op) as [k|] eqn:Ek; [|done].
  case_bool_decide as Hg; [done|]. unfold MAX_BATCH_RECORD_BYTES in Hest.
  enough (LogFormat.valid_sub_tag (LogFormat.tag (write_record n w op)) = true
    /\ LogFormat.wf_op (write_record n w op)
    /\ (LogFormat.wf_op (write_record n w op) -> Z.of_nat (op_size (write_record n w op)) <= op_estimate op)) as (?&?&?) by auto.
  unfold op_size, write_record. rewrite Ek. cbn [default from_option id]. cbv zeta. case_bool_decide as Hput.
  - pose proof (batch_value_settles op) as Hst. destruct (batch_value sch op) as [v|x|] eqn:Ev; [|done..].
    pose proof (put_estimate op k v Ek Hput Ev) as Hle. pose proof (ttl_u64 (wall e (2 + w)) (op_ttl op)) as Hex.
    set (ex := ttl_expiry _ _) in *. unfold blen in *. split_and!.
    + apply LogFormat.valid_sub_tag_iff. cbn. destruct (ex =? 0); auto.
    + unfold LogFormat.wf_op. cbn. split_and!; try done; try apply Hclock; try apply Hex; try lia.
      destruct (Z.eqb_spec ex 0); [done|]. intros Hne. by destruct Hne.
    + intros Hwf. rewrite (LogFormat.length_payload_bytes _ Hwf). cbn. destruct (bool_decide _); lia.
  - case_bool_decide as Hdel; [|done]. rewrite (del_estimate op k Ek Hdel) in *. unfold blen in *. split_and!.
    + apply LogFormat.valid_sub_tag_iff. cbn. auto.
    + unfold LogFormat.wf_op. cbn. split_and!; try done; try apply Hclock; lia.
    + intros Hwf. rewrite (LogFormat.length_payload_bytes _ Hwf). cbn [LogFormat.tag LogFormat.key LogFormat.value].
      rewrite bool_decide_eq_false_2 by done. cbn [length]. lia.
Qed.

Lemma writes_ok i n w ops : length rid = 32%nat -> length pid = 32%nat -> batch_estimate ops <= MAX_BATCH_RECORD_BYTES ->
  let l := (writes_from i n w ops).*2 in
  Forall (fun r => LogFormat.valid_sub_tag (LogFormat.tag r) = true /\ LogFormat.wf_op r) l
  /\ Z.of_nat (ops_size l) <= batch_estimate ops.
Proof.
  intros Hrid Hpid. revert i n w. induction ops as [|op ops IH]; intros i n w Hest; cbv zeta in *; [done|]. rewrite estimate_cons in Hest |- *.
  pose proof (op_estimate_nonneg op). pose proof (batch_estimate_nonneg ops). cbn [writes_from].
  destruct (plan_of op) eqn:Ep;
    [destruct (IH (S i) n w) as [F Hz]; [lia|]; split; [done|lia]..|].
  destruct (IH (S i) (S n) (if timed op then S w else w)) as [F Hz]; [lia|].
  destruct (write_record_ok n w op Hrid Hpid Ep) as (Ht & Hwf & Hs); [lia|]. cbn [fmap list_fmap snd]. split; [by constructor|].
  unfold ops_size in *. cbn [sum_list_with]. lia.
Qed.

(** *** Positions *)

Lemma writes_slots i n w ops j : j ∈ (writes_from i n w ops).*1 <->
  exists op, (i <= j)%nat /\ ops !! (j - i)%nat = Some op /\ plan_of op = Write.
Proof.
  revert i n w. induction ops as [|op ops IH]; intros i n w.
  { split; [by intros ?%not_elem_of_nil|]. by intros (op & _ & ? & _). }
  assert (forall n w, j ∈ (writes_from (S i) n w ops).*1 <->
    exists op', (i < j)%nat /\ (op :: ops) !! (j - i)%nat = Some op' /\ plan_of op' = Write) as Hrest.
  { intros n' w'. rewrite IH. split; intros (op' & Hj & Hop & Hp); exists op'; (split; [lia|split; [|done]]);
      destruct (j - i)%nat as [|m] eqn:Em; try lia; revert Hop; replace (j - S i)%nat with m by lia; done. }
  assert (plan_of op <> Write -> (exists op', (i < j)%nat /\ (op :: ops) !! (j - i)%nat = Some op' /\ plan_of op' = Write)
    <-> (exists op', (i <= j)%nat /\ (op :: ops) !! (j - i)%nat = Some op' /\ plan_of op' = Write)) as Hne.
  { intros Hop. split; intros (op' & Hj & Hl & Hp); exists op'; (split; [|done]); [lia|].
    destruct (decide (j = i)) as [->|]; [|lia]. rewrite Nat.sub_diag in Hl. injection Hl as ->. done. }
  cbn [writes_from]. destruct (plan_of op) eqn:Ep; [rewrite Hrest; by apply Hne..|].
  cbn [fmap list_fmap fst]. rewrite elem_of_cons, Hrest. split.
  - intros [->|(op' & Hj & Hl & Hp)]; [|exists op'; split; [lia|done]].
    exists op. rewrite Nat.sub_diag. by split_and!.
  - intros (op' & Hj & Hl & Hp). destruct (decide (j = i)) as [->|]; [by left|right]. exists op'. split; [lia|done].
Qed.

Lemma reads_slots i ops j k : (j, k) ∈ reads_from i ops <->
  exists op, (i <= j)%nat /\ ops !! (j - i)%nat = Some op /\ plan_of op = Read k.
Proof.
  revert i. induction ops as [|op ops IH]; intros i.
  { split; [by intros ?%not_elem_of_nil|]. by intros (op & _ & ? & _). }
  assert ((j, k) ∈ reads_from (S i) ops <->
    exists op', (i < j)%nat /\ (op :: ops) !! (j - i)%nat = Some op' /\ plan_of op' = Read k) as Hrest.
  { rewrite IH. split; intros (op' & Hj & Hop & Hp); exists op'; (split; [lia|split; [|done]]);
      destruct (j - i)%nat as [|m] eqn:Em; try lia; revert Hop; replace (j - S i)%nat with m by lia; done. }
  assert ((j, k) ∈ reads_from i (op :: ops) <-> (j = i /\ plan_of op = Read k) \/ (j, k) ∈ reads_from (S i) ops) as ->.
  { cbn [reads_from]. destruct (plan_of op) as [a|k'|]; [naive_solver| |naive_solver].
    rewrite elem_of_cons. naive_solver. }
  rewrite Hrest. split.
  - intros [[-> Hp]|(op' & Hj & Hl & Hp)]; [|exists op'; split; [lia|done]].
    exists op. rewrite Nat.sub_diag. by split_and!.
  - intros (op' & Hj & Hl & Hp). destruct (decide (j = i)) as [->|]; [left|right; exists op'; split; [lia|done]].
    rewrite Nat.sub_diag in Hl. injection Hl as ->. done.
Qed.

Lemma reads_nodup i ops : NoDup (reads_from i ops).*1.
Proof.
  revert i. induction ops as [|op ops IH]; intros i; [constructor|]. cbn [reads_from].
  destruct (plan_of op) as [a|k|]; [apply IH| |apply IH]. cbn [fmap list_fmap fst]. constructor; [|apply IH].
  intros ([j k'] & -> & Hin)%list_elem_of_fmap. apply reads_slots in Hin as (op' & Hj & _). cbn in Hj. lia.
Qed.

End pass.

Abbreviation written := Auth.bytes_written.

(** ** Charging *)

Definition over_quota (ns : bytes) (limit : Z) : op_result :=
  OpError (AuthFailed (Auth.QuotaExceeded ns limit)).

(** Of the writes [l], in order, those that fit when [used] bytes of [limit] are
    used already, and the positions of the others. *)
Fixpoint fitting (limit used : Z) (l : list (nat * LogFormat.record)) : list (nat * LogFormat.record) :=
  match l with
  | [] => []
  | (i, r) :: l =>
      if limit <? used + blen (LogFormat.value r) then fitting limit used l
      else (i, r) :: fitting limit (used + blen (LogFormat.value r)) l
  end.
Fixpoint refused_at (limit used : Z) (l : list (nat * LogFormat.record)) : list nat :=
  match l with
  | [] => []
  | (i, r) :: l =>
      if limit <? used + blen (LogFormat.value r) then i :: refused_at limit used l
      else refused_at limit (used + blen (LogFormat.value r)) l
  end.

Lemma fitting_sublist limit used l : fitting limit used l `sublist_of` l.
Proof. revert used. induction l as [|[i r] l IH]; intros used; cbn; [constructor|]. destruct (_ <? _); by constructor. Qed.

Lemma refused_fitting limit used l i : NoDup l.*1 -> i ∈ l.*1 -> i ∈ refused_at limit used l <-> i ∉ (fitting limit used l).*1.
Proof.
  revert used. induction l as [|[j r] l IH]; intros used Hnd Hi; [by apply not_elem_of_nil in Hi|].
  cbn [fmap list_fmap fst] in Hnd, Hi. apply NoDup_cons in Hnd as [Hj Hnd].
  assert (forall used, (fitting limit used l).*1 `sublist_of` l.*1) as Hsub by (intros; apply fmap_sublist, fitting_sublist).
  assert (forall used i, i ∈ refused_at limit used l -> i ∈ l.*1) as Href.
  { clear. induction l as [|[j r] l IH]; intros used i; [done|]. cbn. destruct (_ <? _); set_solver. }
  cbn [refused_at fitting]. destruct (_ <? _).
  - rewrite elem_of_cons. destruct (decide (i = j)) as [->|Hne]; [|rewrite <-IH by set_solver; naive_solver].
    split; [|by left]. intros _ Hin. by apply Hj, (elem_of_sublist _ _ _ Hin (Hsub _)).
  - cbn [fmap list_fmap fst]. rewrite not_elem_of_cons. destruct (decide (i = j)) as [->|Hne].
    + split; [|naive_solver]. intros Hin. by destruct Hj; apply Href in Hin.
    + rewrite IH by set_solver. naive_solver.
Qed.

Definition values_total (l : list LogFormat.record) : Z := foldr (fun r acc => blen (LogFormat.value r) + acc) 0 l.

Lemma values_nonneg l : 0 <= values_total l.
Proof. induction l as [|r l IH]; [done|]. cbn. fold (values_total l). unfold blen. lia. Qed.

Lemma values_le_size l : values_total l <= Z.of_nat (ops_size l).
Proof.
  induction l as [|r l IH]; [done|]. cbn [values_total foldr]. fold (values_total l).
  change (ops_size (r :: l)) with (op_size r + ops_size l)%nat.
  enough (length (LogFormat.value r) <= op_size r)%nat by (unfold blen; lia).
  unfold op_size, LogFormat.payload_bytes. rewrite !length_app. lia.
Qed.

(** A store after charges to [ns]: only the ledger has changed. *)
Record recharged (ns : bytes) (rs : list bytes) (total : Z) (st st' : Store) : Prop := {
  rc_ok : store_ok st';
  rc_log : log_holds st' ns rs;
  rc_policies : policies st' = policies st;
  rc_mem : mem_of st' = mem_of st;
  rc_written n : written st' n = written st n + (if bool_decide (n = ns) then total else 0);
}.

Lemma charge_run ns l : forall res ap s rs, store_ok (store s) -> log_holds (store s) ns rs ->
  written (store s) ns + values_total l.*2 < 2 ^ 64 ->
  let kept := fitting (quota s) (written (store s) ns) l in
  exists st', charge_ops ns (zip l.*2 (charges l)) res ap s
      = (with_store st' s, Ok (close_all (over_quota ns (quota s)) (refused_at (quota s) (written (store s) ns) l) res,
                               ap ++ kept.*2))
    /\ recharged ns rs (values_total kept.*2) (store s) st'
    /\ (kept <> [] -> written st' ns <= quota s).
Proof.
  induction l as [|[i r] l IH]; intros res ap s rs Hok Hlog Ht; cbv zeta.
  { exists (store s). cbn. rewrite with_store_id, app_nil_r. split_and!; [done| |done].
    split; try done. intros n. case_bool_decide; lia. }
  cbn [fmap list_fmap snd values_total foldr] in Ht. fold (values_total l.*2) in Ht. pose proof (values_nonneg l.*2).
  pose proof (AuthSpec.bytes_written_range (store s) ns) as Hr. unfold is_u64 in Hr.
  pose proof (AuthSpec.account_write_run (store s) ns (blen (LogFormat.value r)) (quota s)
    ltac:(unfold is_u64, blen in *; lia)) as Ec.
  cbn [fmap list_fmap zip_with zip charges map charge_ops fitting refused_at fst snd]. fold (charges l).
  rewrite (method_bind_step self _ s s s eq_refl).
  destruct (quota s <? written (store s) ns + blen (LogFormat.value r)) eqn:Eq.
  - rewrite (on_store_err _ _ _ _ _ Ec), with_store_id.
    apply (IH (<[i := Some (over_quota ns (quota s))]> res) ap s rs Hok Hlog). unfold blen in *. lia.
  - rewrite (on_store_ok _ _ _ _ _ Ec). set (st1 := meta_set _ _ _).
    destruct (charged_ok (store s) ns (written (store s) ns + blen (LogFormat.value r)) rs Hok Hlog
      ltac:(unfold is_u64, blen in *; lia)) as (Hok1 & Hlog1 & _ & _ & Hw1).
    fold st1 in Hok1, Hlog1, Hw1. pose proof (Hw1 ns) as Hwn. rewrite bool_decide_eq_true_2 in Hwn by done.
    destruct (IH res (ap ++ [r]) (with_store st1 s) rs Hok1 Hlog1) as (st' & E & Hrc & Hq).
    { cbn [store with_store]. lia. }
    cbn [store with_store quota] in *. rewrite Hwn in E, Hrc, Hq. set (kept := fitting _ _ l) in *.
    exists st'. apply Z.ltb_ge in Eq. destruct Hrc as [R1 R2 R3 R4 R5]. split_and!.
    + rewrite E. cbn [fmap list_fmap snd with_store]. by rewrite <-app_assoc.
    + split; [done|done|by rewrite R3|by rewrite R4|]. intros n. rewrite R5, Hw1.
      cbn [fmap list_fmap snd values_total foldr]. fold (values_total kept.*2). case_bool_decide; subst; lia.
    + intros _. destruct (decide (kept = [])) as [Ek|]; [|by apply Hq]. rewrite R5, Hwn, bool_decide_eq_true_2, Ek by done.
      cbn. lia.
Qed.

(** ** The batch record *)

Lemma batch_payload_length l : length (LogFormat.batch_payload l) = (4 + ops_size l)%nat.
Proof.
  unfold LogFormat.batch_payload. rewrite length_app, length_le_bytes. f_equal.
  induction l as [|r l IH]; [done|]. rewrite fmap_cons, mjoin_cons, length_app, IH. done.
Qed.

Lemma ops_size_sublist k l : k `sublist_of` l -> (ops_size k <= ops_size l)%nat.
Proof. induction 1; unfold ops_size in *; cbn; lia. Qed.

Lemma batch_record_wf o l :
  Forall (fun r => LogFormat.valid_sub_tag (LogFormat.tag r) = true /\ LogFormat.wf_op r) (o :: l) ->
  Z.of_nat (ops_size (o :: l)) <= MAX_BATCH_RECORD_BYTES -> LogFormat.wf_record (batch_record o (o :: l)).
Proof.
  intros Hf Hs. right. unfold batch_record. cbn [LogFormat.tag LogFormat.key LogFormat.value LogFormat.expires_at LogFormat.ops
    LogFormat.hlc LogFormat.replica LogFormat.author]. split_and!; try done.
  rewrite batch_payload_length. unfold MAX_BATCH_RECORD_BYTES in Hs. lia.
Qed.

Lemma put_batch_written st ns l n : written (put_batch ns l st).1 n = written st n.
Proof.
  unfold Auth.bytes_written, meta_get.
  by rewrite (frame_meta _ _ _ _ (ServerFrame.put_batch_frames ns l st)) by set_solver.
Qed.

Lemma store_iter n s : store (Nat.iter n bump_writes s) = store s.
Proof. induction n as [|n IH]; [done|]. exact IH. Qed.

(** The store after a batch that applied [applied]. *)
Record batch_stored (ns : bytes) (p : ConflictPolicy) (rs : list bytes) (applied : list LogFormat.record)
    (st st' : Store) : Prop := {
  bs_log : match applied with
    | [] => log_holds st' ns rs
    | o :: _ => exists hd, length hd = 32%nat /\ log_holds st' ns (rs ++ [LogFormat.to_bytes (batch_record o applied) hd])
    end;
  bs_mem : mem_of st' = fold_left (local_step p ns (Z.of_nat (length rs) + 1)) applied (mem_of st);
  bs_written n : written st' n = written st n + (if bool_decide (n = ns) then values_total applied else 0);
}.

Lemma sub_op_data r : LogFormat.valid_sub_tag (LogFormat.tag r) = true -> is_data r.
Proof. rewrite LogFormat.valid_sub_tag_iff. unfold is_data, is_put. rewrite bool_decide_eq_true. naive_solver. Qed.

Lemma put_batch_run st ns p rs applied total st0 :
  recharged ns rs (values_total applied) st0 st -> policies st !! ns = Some p -> applied <> [] ->
  Forall (fun r => LogFormat.valid_sub_tag (LogFormat.tag r) = true /\ LogFormat.wf_op r) applied ->
  Z.of_nat (ops_size applied) <= total -> total <= MAX_BATCH_RECORD_BYTES ->
  exists st', put_batch ns applied st = (st', Ok (Z.of_nat (length rs) + 1))
    /\ batch_stored ns p rs applied st0 st'.
Proof.
  intros [R1 R2 R3 R4 R5] Hp Hne Hwf Hs Ht. destruct applied as [|o l]; [done|].
  assert (Forall is_data (o :: l)) as Hd
    by (eapply Forall_impl; [exact Hwf|]; intros r [Hv _]; by apply sub_op_data).
  destruct (write_run st ns p rs (batch_record o (o :: l)) (o :: l) R1 Hp R2
    (batch_record_wf o l Hwf ltac:(lia)) Hd) as (st' & hd & E & Hm & Hlog & Hhd).
  assert (put_batch ns (o :: l) st = (st', Ok (Z.of_nat (length rs) + 1))) as Epb
    by (rewrite <-E; exact (known_ns_run st ns p _ Hp)).
  exists st'. split; [done|]. split; [by exists hd|by rewrite Hm, R4|].
  intros n. pose proof (put_batch_written st ns (o :: l) n) as Hw. rewrite Epb in Hw. cbn [fst] in Hw. by rewrite Hw, R5.
Qed.

(** Charges and record together: the writes that fit are applied in order. *)
Lemma apply_batch_run ns pr tier b s p rs l :
  store_ok (store s) -> policies (store s) !! ns = Some p -> log_holds (store s) ns rs -> owns tier ns pr ->
  accepted b = l.*2 -> pending_writes b = charges l ->
  Forall (fun r => LogFormat.valid_sub_tag (LogFormat.tag r) = true /\ LogFormat.wf_op r) l.*2 ->
  Z.of_nat (ops_size l.*2) <= MAX_BATCH_RECORD_BYTES ->
  written (store s) ns + MAX_BATCH_RECORD_BYTES < 2 ^ 64 ->
  let kept := fitting (quota s) (written (store s) ns) l in
  exists st', apply_batch ns pr tier b s
    = (Nat.iter (length kept) bump_writes (with_store st' s),
       Ok (close_all (over_quota ns (quota s)) (refused_at (quota s) (written (store s) ns) l) (results b),
           if bool_decide (kept = []) then 0 else Z.of_nat (length rs) + 1, negb (bool_decide (kept = []))))
    /\ batch_stored ns p rs kept.*2 (store s) st'
    /\ (kept <> [] -> written st' ns <= quota s).
Proof.
  intros Hok Hp Hlog Ho Ha Hw Hwf Hsz Ht kept. unfold apply_batch. rewrite (writable_run tier ns pr p) by done.
  pose proof (values_le_size l.*2). rewrite Ha, Hw.
  destruct (charge_run ns l (results b) [] s rs Hok Hlog) as (st1 & E & Hrc & Hq); [lia|]. fold kept in E, Hrc, Hq.
  rewrite (method_bind_step _ _ _ _ _ E). cbn [List.app].
  assert (bool_decide (kept.*2 = []) = bool_decide (kept = [])) as Eb
    by (apply bool_decide_ext; destruct kept; done).
  rewrite Eb. assert (kept `sublist_of` l) as Hsub by apply fitting_sublist. clearbody kept. clear Eb.
  case_bool_decide as Hne.
  { subst kept. exists st1. split_and!; [done| |done]. destruct Hrc. by split. }
  destruct (put_batch_run st1 ns p rs kept.*2 MAX_BATCH_RECORD_BYTES (store s) Hrc) as (st' & Epb & Hst).
  { by rewrite (rc_policies _ _ _ _ _ Hrc). }
  { by destruct kept. }
  { apply Forall_forall. intros r Hr. apply (proj1 (Forall_forall _ _) Hwf). eapply elem_of_sublist; [exact Hr|].
    by apply fmap_sublist. }
  { pose proof (ops_size_sublist kept.*2 l.*2 ltac:(by apply fmap_sublist)). lia. }
  { done. }
  exists st'. rewrite (on_store_ok _ _ (with_store st1 s) _ _ Epb), length_fmap. split_and!; [done|done|].
  intros _. rewrite (bs_written _ _ _ _ _ _ Hst), <-(rc_written _ _ _ _ _ Hrc). by apply Hq.
Qed.

(** ** The deferred reads *)

Definition too_large : op_result := OpError (Code "batch_get_response_too_large").

Definition read_value (st : Store) (ns : bytes) (now : Z) (k : bytes) : option bytes :=
  get st ns k ≫= fun en => latest_value en now.
Definition read_size (st : Store) (ns : bytes) (now : Z) (k : bytes) : Z := default 0 (blen <$> read_value st ns now k).
Definition reads_total (st : Store) (ns : bytes) (now : Z) (l : list (nat * bytes)) : Z :=
  foldr (fun ik acc => read_size st ns now ik.2 + acc) 0 l.

(** A read is answered with the value while the values so far fit the budget. *)
Definition read_answer (st : Store) (ns : bytes) (now : Z) (k : bytes) (fits : bool) : op_result :=
  if fits then OpValue (Base64.b64_encode <$> read_value st ns now k) else too_large.

Lemma read_size_nonneg st ns now k : 0 <= read_size st ns now k.
Proof. unfold read_size. destruct (read_value st ns now k); cbn; unfold blen; lia. Qed.

Lemma reads_total_nonneg st ns now l : 0 <= reads_total st ns now l.
Proof. induction l as [|ik l IH]; [done|]. cbn. fold (reads_total st ns now l). pose proof (read_size_nonneg st ns now ik.2). lia. Qed.

(** One read fills its slot and decides how the rest goes on. *)
Lemma resolve_gets_cons st ns now i k l budget over res :
  let fits := negb over && (read_size st ns now k <=? budget) in
  0 <= budget -> resolve_gets st ns now ((i, k) :: l) budget over res
  = resolve_gets st ns now l (if fits then budget - read_size st ns now k else budget) (negb fits)
      (<[i := Some (read_answer st ns now k fits)]> res).
Proof.
  intros fits Hb. subst fits. unfold read_answer, read_size. cbn [resolve_gets]. fold (read_value st ns now k).
  destruct over; [done|]. cbn [negb andb]. destruct (read_value st ns now k) as [v|]; cbn [fmap option_fmap option_map default from_option id].
  - by destruct (blen v <=? budget).
  - rewrite (proj2 (Z.leb_le _ _) Hb), Z.sub_0_r. done.
Qed.

Lemma resolve_gets_other st ns now l : forall budget over res i, 0 <= budget -> i ∉ l.*1 ->
  resolve_gets st ns now l budget over res !! i = res !! i.
Proof.
  induction l as [|[j k] l IH]; intros budget over res i Hb Hi; [done|]. cbn [fmap list_fmap fst] in Hi.
  rewrite resolve_gets_cons by done. apply not_elem_of_cons in Hi as [Hij Hi].
  pose proof (read_size_nonneg st ns now k). rewrite IH; [by rewrite list_lookup_insert_ne| |done].
  destruct (_ && _) eqn:E; [|done]. apply andb_true_iff in E as [_ ?%Z.leb_le]. lia.
Qed.

Lemma length_resolve_gets st ns now l : forall budget over res,
  length (resolve_gets st ns now l budget over res) = length res.
Proof.
  induction l as [|[j k] l IH]; intros budget over res; [done|]. cbn [resolve_gets].
  destruct over; [|destruct (get st ns k ≫= _); [destruct (_ <=? _)|]]; by rewrite IH, length_insert.
Qed.

(** The [j]-th read. *)
Lemma resolve_gets_lookup st ns now l : NoDup l.*1 -> forall budget over res j i k, 0 <= budget ->
  l !! j = Some (i, k) -> (i < length res)%nat ->
  resolve_gets st ns now l budget over res !! i
  = Some (Some (read_answer st ns now k (negb over && (reads_total st ns now (take (S j) l) <=? budget)))).
Proof.
  induction l as [|[i0 k0] l IH]; intros Hnd budget over res j i k Hb Hj Hi; [done|].
  cbn [fmap list_fmap fst] in Hnd. apply NoDup_cons in Hnd as [Hni Hnd]. rewrite resolve_gets_cons by done.
  pose proof (read_size_nonneg st ns now k0) as Hs0.
  assert (0 <= (if negb over && (read_size st ns now k0 <=? budget) then budget - read_size st ns now k0 else budget)) as Hb'.
  { destruct (_ && _) eqn:E; [|done]. apply andb_true_iff in E as [_ ?%Z.leb_le]. lia. }
  destruct j as [|j]; cbn [lookup list_lookup] in Hj.
  - injection Hj as -> ->. rewrite resolve_gets_other by done. rewrite list_lookup_insert_eq by done. do 2 f_equal.
    cbn [take reads_total foldr snd]. by rewrite Z.add_0_r.
  - change (l !! j = Some (i, k)) in Hj. rewrite (IH Hnd _ _ _ j i k Hb' Hj) by (by rewrite length_insert).
    do 3 f_equal. cbn [take]. change (reads_total st ns now ((i0, k0) :: take (S j) l))
      with (read_size st ns now k0 + reads_total st ns now (take (S j) l)).
    pose proof (reads_total_nonneg st ns now (take (S j) l)). destruct over; [done|]. cbn [negb andb].
    destruct (Z.leb_spec (read_size st ns now k0) budget); cbn [negb andb].
    + apply eq_true_iff_eq. rewrite !Z.leb_le. lia.
    + symmetry. apply Z.leb_gt. lia.
Qed.

(** ** The answers *)

(** The bytes of the value an answer carries. *)
Definition carried (a : option op_result) : Z :=
  match a with
  | Some (OpValue (Some t)) => match Base64.b64_decode t with Ok v => blen v | _ => 0 end
  | _ => 0
  end.
Definition carried_all (res : slots) : Z := foldr (fun a acc => carried a + acc) 0 res.

Lemma carried_encoded v : carried (Some (OpValue (Some (Base64.b64_encode v)))) = blen v.
Proof.
  cbn [carried]. pose proof (Base64.decode_encode _ Base64.good_alpha_B64 v 0 ltac:(lia)) as Hd.
  cbn [replicate] in Hd. rewrite app_nil_r in Hd. unfold Base64.b64_decode, Base64.b64_encode. by rewrite Hd.
Qed.

Lemma carried_snoc res a : carried_all (res ++ [a]) = carried_all res + carried a.
Proof. induction res as [|b res IH]; cbn; [lia|]. fold (carried_all (res ++ [a])) (carried_all res). lia. Qed.

Lemma plan_now sch op a : plan_of sch op = Now a -> carried (Some a) = 0.
Proof.
  unfold plan_of. destruct (op_key op); [|by intros [= <-]]. case_bool_decide; [done|].
  case_bool_decide; [destruct (batch_value sch op); try done; by intros [= <-]|].
  case_bool_decide; [done|]. by intros [= <-].
Qed.

Section answers.
Context (sch : option jvalue) (rid pid ns : bytes) (limit used : Z) (st' : Store) (now seq : Z) (ops : list jvalue).

Abbreviation plan_of := (plan_of sch).
Definition batch_writes : list (nat * LogFormat.record) := writes_from sch rid pid 0 0 0 ops.
Definition covered : list (nat * LogFormat.record) := fitting limit used batch_writes.

(** The bytes of the values that the reads among [l] would carry. *)
Definition reads_size (l : list jvalue) : Z :=
  foldr (fun op acc => match plan_of op with Read k => read_size st' ns now k | _ => 0 end + acc) 0 l.

(** The answer to the [i]-th operation [op]: at once when it is malformed or
    refused by the schema; a read with the value after the batch, or, once the
    values up to it exceed the budget, that it is too large; a write with the
    batch's sequence number if the quota covers it after the writes before it,
    and else that it does not. *)
Definition answer (i : nat) (op : jvalue) : op_result :=
  match plan_of op with
  | Now a => a
  | Read k => read_answer st' ns now k (reads_size (take (S i) ops) <=? MAX_BATCH_GET_BYTES)
  | Write => if bool_decide (i ∈ covered.*1) then OpSeq seq else over_quota ns limit
  end.
Definition batch_answers : slots := imap (fun i op => Some (answer i op)) ops.

Lemma reads_prefix o l i op k : l !! i = Some op -> plan_of op = Read k ->
  exists j, reads_from sch o l !! j = Some ((o + i)%nat, k)
    /\ reads_total st' ns now (take (S j) (reads_from sch o l)) = reads_size (take (S i) l).
Proof.
  revert o i. induction l as [|op0 l IH]; intros o i Hi Hp; [done|].
  destruct i as [|i].
  { injection Hi as ->. exists 0%nat. cbn [reads_from]. rewrite Hp. cbn [take lookup list_lookup reads_total reads_size foldr snd].
    rewrite Hp, Nat.add_0_r, !Z.add_0_r. by split. }
  destruct (IH (S o) i Hi Hp) as (j & Hj & Ht). replace (S o + i)%nat with (o + S i)%nat in Hj by lia.
  cbn [take] in *. change (reads_size (op0 :: take (S i) l))
    with (match plan_of op0 with Read k => read_size st' ns now k | _ => 0 end + reads_size (take (S i) l)).
  cbn [reads_from]. destruct (plan_of op0) as [a|k0|]; [exists j; split; [done|rewrite Ht; lia]| |exists j; split; [done|rewrite Ht; lia]].
  exists (S j). split; [done|]. cbn [take].
  change (reads_total st' ns now ((o, k0) :: ?x)) with (read_size st' ns now k0 + reads_total st' ns now x). by rewrite Ht.
Qed.

Lemma writes_nodup i n w l : NoDup (writes_from sch rid pid i n w l).*1.
Proof.
  revert i n w. induction l as [|op l IH]; intros i n w; [constructor|]. cbn [writes_from].
  destruct (plan_of op) as [a|k|]; [apply IH..|]. cbn [fmap list_fmap fst]. constructor; [|apply IH].
  rewrite writes_slots. intros (op' & Hj & _). lia.
Qed.

(** What the code computes are the answers. *)
Lemma answers_run :
  fill (OpSeq seq) (charges batch_writes)
    (resolve_gets st' ns now (reads_from sch 0 ops) MAX_BATCH_GET_BYTES false
      (close_all (over_quota ns limit) (refused_at limit used batch_writes) (map (slot_of sch) ops)))
  = batch_answers.
Proof.
  apply list_eq. intros i. unfold batch_answers. rewrite list_lookup_imap, fill_lookup.
  assert ((charges batch_writes).*1 = batch_writes.*1) as -> by (unfold charges; by rewrite <-list_fmap_compose).
  set (res1 := close_all _ _ _). assert (length res1 = length ops) as Hl1 by (by unfold res1; rewrite length_close_all, length_map).
  destruct (ops !! i) as [op|] eqn:Hi; cbn [fmap option_fmap option_map].
  2:{ rewrite (lookup_ge_None_2 (resolve_gets _ _ _ _ _ _ _)); [done|]. rewrite length_resolve_gets, Hl1.
      by apply lookup_ge_None. }
  pose proof (lookup_lt_Some _ _ _ Hi) as Hlt.
  assert (res1 !! i = if bool_decide (i ∈ refused_at limit used batch_writes) then Some (Some (over_quota ns limit))
    else Some (slot_of sch op)) as E1.
  { unfold res1. rewrite close_all_lookup by (by rewrite length_map). by rewrite list_lookup_fmap, Hi. }
  pose proof (writes_slots sch rid pid 0 0 0 ops i) as Hw. fold batch_writes in Hw. rewrite Nat.sub_0_r in Hw.
  assert (i ∈ refused_at limit used batch_writes -> plan_of op = Write) as Href.
  { intros Hin. enough (i ∈ batch_writes.*1) as (op' & _ & Hi' & Hp)%Hw by congruence.
    revert Hin. clear. generalize used. induction batch_writes as [|[j r] l IH]; intros u; [done|]. cbn.
    destruct (_ <? _); set_solver. }
  assert (plan_of op = Write <-> i ∈ batch_writes.*1) as Hwi.
  { rewrite Hw. split; [intros Hp; exists op; split_and!; [lia|done..]|]. intros (op' & _ & Hi' & Hp). congruence. }
  assert ((forall k, plan_of op <> Read k) -> resolve_gets st' ns now (reads_from sch 0 ops) MAX_BATCH_GET_BYTES false res1 !! i
    = res1 !! i) as Hother.
  { intros Hnr. apply resolve_gets_other; [done|]. intros ([j k] & -> & Hin)%list_elem_of_fmap.
    apply reads_slots in Hin as (op' & _ & Hi' & Hp). cbn in Hi. rewrite Nat.sub_0_r in Hi'. apply (Hnr k). congruence. }
  unfold answer. destruct (plan_of op) as [a|k|] eqn:Hp.
  - rewrite Hother, E1, bool_decide_eq_false_2 by (done || by intros ?%Href). unfold slot_of. by rewrite Hp.
  - destruct (reads_prefix 0 ops i op k Hi Hp) as (j & Hj & Ht).
    rewrite (resolve_gets_lookup st' ns now _ (reads_nodup sch 0 ops) _ _ _ j i k) by (done || lia). by rewrite Ht.
  - assert (i ∈ batch_writes.*1) as Hin by (by apply Hwi).
    pose proof (refused_fitting limit used batch_writes i (writes_nodup 0 0 0 ops) Hin) as Hrf. fold covered in Hrf.
    rewrite Hother, E1 by done. destruct (decide (i ∈ covered.*1)) as [Hc|Hc].
    + rewrite (bool_decide_eq_false_2 (i ∈ refused_at _ _ _)) by naive_solver. unfold slot_of. rewrite Hp.
      by rewrite !bool_decide_eq_true_2 by done.
    + rewrite (bool_decide_eq_true_2 (i ∈ refused_at _ _ _)), (bool_decide_eq_false_2 (i ∈ covered.*1)) by naive_solver. done.
Qed.

Lemma reads_size_snoc l op : reads_size (l ++ [op])
  = reads_size l + match plan_of op with Read k => read_size st' ns now k | _ => 0 end.
Proof. induction l as [|op' l IH]; cbn; [lia|]. fold (reads_size (l ++ [op])) (reads_size l). lia. Qed.

Lemma carried_answer i op : carried (Some (answer i op))
  = match plan_of op with
    | Read k => if reads_size (take (S i) ops) <=? MAX_BATCH_GET_BYTES then read_size st' ns now k else 0
    | _ => 0
    end.
Proof.
  unfold answer. destruct (plan_of op) as [a|k|] eqn:Hp; [by eapply plan_now| |by destruct (bool_decide _)].
  unfold read_answer, read_size. destruct (_ <=? _); [|done].
  destruct (read_value st' ns now k) as [v|]; [apply carried_encoded|done].
Qed.

Lemma batch_answers_bounded : carried_all batch_answers <= MAX_BATCH_GET_BYTES.
Proof.
  enough (forall n, (n <= length ops)%nat -> let c := carried_all (take n batch_answers) in
    c <= MAX_BATCH_GET_BYTES /\ c <= reads_size (take n ops)) as Hn.
  { destruct (Hn (length ops) ltac:(done)) as [Hc _]. rewrite take_ge in Hc; [done|]. unfold batch_answers. by rewrite length_imap. }
  induction n as [|n IH]; intros Hn; cbv zeta; [by cbn|]. destruct (IH ltac:(lia)) as [Hc1 Hc2].
  destruct (lookup_lt_is_Some_2 ops n ltac:(lia)) as [op Hop].
  assert (batch_answers !! n = Some (Some (answer n op))) as Ha by (unfold batch_answers; by rewrite list_lookup_imap, Hop).
  rewrite (take_S_r _ _ _ Ha), carried_snoc, carried_answer. rewrite (take_S_r _ _ _ Hop), reads_size_snoc.
  destruct (plan_of op) as [a|k|]; [lia| |lia]. pose proof (read_size_nonneg st' ns now k).
  destruct (Z.leb_spec (reads_size (take n ops) + read_size st' ns now k) MAX_BATCH_GET_BYTES); lia.
Qed.

End answers.

(** ** The whole request *)

Lemma iter_part n s : (signals (Nat.iter n bump_writes s), sync_tx (Nat.iter n bump_writes s)) = (signals s, sync_tx s).
Proof. induction n as [|n IH]; [done|]. exact IH. Qed.

Section request.
Context (s : AppState) (ns : bytes) (pr : Ident.PublicKey) (ops : list jvalue).

Definition batch_schema : option jvalue := parse_or_null <$> schema (store s) ns.

(** The writes that a batch applies: of those the schema admits, in the order of
    the request, the ones that fit the quota. *)
Definition applied : list (nat * LogFormat.record) :=
  covered batch_schema (root s) pr (quota s) (written (store s) ns) ops.

(** The answers, when the batch leaves [st'] and its record has number [seq]. *)
Definition served_answers (st' : Store) (seq : Z) : slots :=
  batch_answers batch_schema (root s) pr ns (quota s) (written (store s) ns) st'
    (wall e (2 + timed_writes batch_schema ops)) seq ops.

(** What the batch has done to the server. *)
Record batch_served (p : ConflictPolicy) (rs : list bytes) (s' : AppState) : Prop := {
  sv_stored : batch_stored ns p rs applied.*2 (store s) (store s');
  sv_quota : applied <> [] -> written (store s') ns <= quota s;
  sv_record : Z.of_nat (ops_size applied.*2) <= MAX_BATCH_RECORD_BYTES;
  sv_signals : signals s' = signals s ++ (if bool_decide (applied = []) then []
    else (if sync_tx s then [SyncKick] else []) ++ [Changed ns]);
}.

(** The number of the record is not answered when there is none. *)
Lemma served_answers_none st' seq seq' : applied = [] -> served_answers st' seq = served_answers st' seq'.
Proof.
  intros Ha. unfold served_answers, batch_answers. apply imap_ext. intros i op _. f_equal. unfold answer.
  fold applied. rewrite Ha. destruct (plan_of _ op); done.
Qed.

Lemma batch_tail p rs : store_ok (store s) -> policies (store s) !! ns = Some p ->
  log_holds (store s) ns rs -> owns (tier_of ns) ns pr -> length (root s) = 32%nat -> length pr = 32%nat ->
  written (store s) ns + MAX_BATCH_RECORD_BYTES < 2 ^ 64 -> batch_estimate ops <= MAX_BATCH_RECORD_BYTES ->
  exists s', (
    b ← lift (batch_ops e batch_schema (root s) pr ops (mkBatch [] [] [] [] 0 0));
    '(res, seq, mutated) ← apply_batch ns pr (tier_of ns) b; s ← self;
    let res := resolve_gets (store s) ns (wall e (2 + walls b)) (pending_gets b) MAX_BATCH_GET_BYTES false res in
    let res := fill (OpSeq seq) (pending_writes b) res in
    _ ← update (fun s => if mutated : bool then notify_change ns (notify_sync s) else s);
    mret (mkResponse 200 (Results res)) : handler Response) s
    = (s', Ok (mkResponse 200 (Results (served_answers (store s') (Z.of_nat (length rs) + 1)))))
  /\ batch_served p rs s'.
Proof.
  intros Hok Hp Hlog Ho Hroot Hpr Hw Hest.
  destruct (batch_ops_run batch_schema (root s) pr ops (mkBatch [] [] [] [] 0 0)) as (b & Eb & Er & [Ea Epw] & Eg & Ewl).
  cbn [results accepted pending_gets pending_writes walls hlcs length List.app Nat.add] in Er, Ea, Epw, Eg, Ewl.
  rewrite (method_bind_step (lift _) _ s s b) by (unfold lift; by rewrite Eb).
  destruct (writes_ok batch_schema (root s) pr 0 0 0 ops Hroot Hpr Hest) as [Hwf Hsz].
  destruct (apply_batch_run ns pr (tier_of ns) b s p rs _ Hok Hp Hlog Ho Ea Epw Hwf ltac:(lia) Hw) as (st' & E & Hst & Hq).
  change (fitting _ _ _) with applied in E, Hst, Hq.
  rewrite (method_bind_step _ _ _ _ _ E). cbv beta iota. set (s1 := Nat.iter _ _ _).
  assert (store s1 = st') as Es1 by apply store_iter.
  assert ((signals s1, sync_tx s1) = (signals s, sync_tx s)) as [= Esig Esync] by (etrans; [apply iter_part|done]).
  rewrite (method_bind_step self _ s1 s1 s1 eq_refl). cbv zeta. rewrite (method_bind_step (update _) _ _ _ _ eq_refl).
  rewrite Es1, Er, Epw, Eg, Ewl. unfold mret, method_ret.
  pose proof (answers_run batch_schema (root s) pr ns (quota s) (written (store s) ns) st'
    (wall e (2 + timed_writes batch_schema ops)) (if bool_decide (applied = []) then 0 else Z.of_nat (length rs) + 1) ops) as Han.
  unfold batch_writes in Han. rewrite Han. clear Han.
  assert (forall t, store (if negb (bool_decide (applied = [])) then notify_change ns (notify_sync t) else t) = store t) as Est.
  { intros t. destruct (negb _); [|done]. unfold notify_sync. by destruct (sync_tx t). }
  eexists. split.
  - rewrite Est, Es1. do 4 f_equal. fold (served_answers st' (if bool_decide (applied = []) then 0 else Z.of_nat (length rs) + 1)).
    case_bool_decide; [by apply served_answers_none|done].
  - split; rewrite ?Est, ?Es1; [done|done| |].
    + pose proof (ops_size_sublist applied.*2 _ (fmap_sublist _ _ _ (fitting_sublist (quota s) (written (store s) ns)
        (batch_writes batch_schema (root s) pr ops)))). unfold batch_writes in *. lia.
    + case_bool_decide; cbn [negb]; [by rewrite app_nil_r|]. unfold notify_change, send. cbn [signals].
      unfold notify_sync. rewrite Esync. destruct (sync_tx s); cbn [signals send]; rewrite Esig; by rewrite <-?app_assoc.
Qed.
End request.

(** The operations a request asks for. *)
Definition batch_parsed (text : bytes) : option (list jvalue) := (json_bytes text ≫= field (bs "ops")) ≫= as_array.

(** C13: a batch request in a namespace that exists, shared or its owner's.  It is
    refused and changes no data exactly when it is malformed, has no operation
    or more than the limit, could make too large a record, or is not authorized.
    Otherwise every operation is answered in its place, and in one way only: a
    malformed one or one the schema refuses with its error; a write, in the order
    of the request, with the sequence number of the batch record if the quota
    covers it after the writes before it, and with the quota's refusal if not; a
    read with the value it has after the whole batch, as long as the values up to
    it fit the budget, and else as too large.  The writes that fit, in their
    order and with their own readings of the clocks, are one log record of
    bounded size and are charged exactly; the last of them on a key decides what
    it shows; and one change is signalled exactly when something was written. *)
Theorem batch_request caps ns text s p rs :
  store_ok (store s) -> policies (store s) !! ns = Some p -> log_holds (store s) ns rs ->
  caps_wf caps -> length (root s) = 32%nat -> written (store s) ns + MAX_BATCH_RECORD_BYTES < 2 ^ 64 ->
  let '(s', o) := handle_batch e caps ns text s in
  match o with
  | Ok x => exists ops pr, batch_parsed text = Some ops
      /\ ops <> [] /\ (length ops <= MAX_BATCH)%nat /\ batch_estimate ops <= MAX_BATCH_RECORD_BYTES
      /\ (data_auth e caps ns [] Caps.WRITE s).2 = Ok (pr, tier_of ns)
      /\ (let answers := served_answers s ns pr ops (store s') (Z.of_nat (length rs) + 1) in
          x = mkResponse 200 (Results answers) /\ carried_all answers <= MAX_BATCH_GET_BYTES)
      /\ batch_served s ns pr ops p rs s'
      /\ (p = PLww -> forall k, get (store s') ns k =
           match last_on k (applied s ns pr ops).*2 with
           | None => get (store s) ns k
           | Some r => if is_put r then Some (Lww (op_version r (Z.of_nat (length rs) + 1))) else None
           end)
  | Err x => durable_part s' = durable_part s /\ 400 <= status x
      /\ forall ops, batch_parsed text = Some ops -> ops <> [] -> (length ops <= MAX_BATCH)%nat ->
           batch_estimate ops <= MAX_BATCH_RECORD_BYTES ->
           exists y, (data_auth e caps ns [] Caps.WRITE s).2 = Err y
  | Panic => False
  end.
Proof.
  intros Hok Hp Hlog Hwf Hroot Hw. unfold handle_batch, batch_parsed.
  destruct (json_bytes text) as [parsed|]; [|by split_and!].
  rewrite (method_bind_step (lift (ok_or _ (Some parsed))) _ s s parsed eq_refl).
  change (Some parsed ≫= field (bs "ops")) with (field (bs "ops") parsed).
  destruct (field (bs "ops") parsed ≫= as_array) as [ops|]; [|by split_and!].
  rewrite (method_bind_step (lift (ok_or _ (Some ops))) _ s s ops eq_refl).
  case_bool_decide as Hne; [split_and!; [done|done|naive_solver]|].
  rewrite (method_bind_step (reply_if false _) _ s s tt eq_refl).
  destruct (Nat.ltb_spec MAX_BATCH (length ops)) as [Hlen|Hlen]; [split_and!; [done|done|intros ? [= <-]; lia]|].
  rewrite (method_bind_step (reply_if false _) _ s s tt eq_refl).
  unfold mbind at 1, method_bind at 1.
  destruct (data_auth e caps ns [] Caps.WRITE s) as [s1 o] eqn:Ed.
  destruct (data_auth_cases _ _ _ _ _ _ _ _ Ed) as [[c ->] Ho]. destruct o as [[pr tier]|x|]; [| |done].
  2:{ split_and!; [done|done|]. intros. by exists x. }
  destruct Ho as (-> & Hown & l & -> & Hl).
  assert (length pr = 32%nat) as Hpr.
  { destruct l as [|c0 l]; [done|]. injection Hl as <-. by apply Forall_cons in Hwf as [[] _]. }
  destruct (Z.ltb_spec MAX_BATCH_RECORD_BYTES (batch_estimate ops)) as [Hb|Hest]; [split_and!; [done|done|intros ? [= <-]; lia]|].
  rewrite (method_bind_step (reply_if false _) _ _ _ tt eq_refl). set (s1 := with_cap_cache c s).
  rewrite (method_bind_step self _ s1 s1 s1 eq_refl). cbv zeta.
  destruct (batch_tail s1 ns pr ops p rs Hok Hp Hlog Hown Hroot Hpr Hw Hest) as (s' & E & Hs).
  unfold batch_schema in E. cbv zeta in E. rewrite E. exists ops, pr.
  assert (batch_served s ns pr ops p rs s') as Hs' by (by destruct Hs). split_and!; [done..| |done|].
  - apply batch_answers_bounded.
  - intros -> k. rewrite !get_shown, (bs_mem _ _ _ _ _ _ (sv_stored _ _ _ _ _ _ _ Hs')). apply fold_local_shown.
Qed.

End spec.

(** ** Witness *)

#[local] Existing Instances toy_sha256 hex_plain toy_ed25519 CapsToy.toy_cap_json toy_config_text.
#[local] Existing Instances SchemaSpec.decimal_floats RateLimit.plain_order ServerDemo.demo_json.
Import ServerDemo.

Lemma app_cap_wf : CapsSpec.cap_wf app_cap.
Proof.
  split; [split_and!; [done|vm_decide|left; split_and!; [done|vm_decide|done]]|vm_compute; by split..| | |]; by vm_compute.
Qed.

Lemma batch_request_witness :
  let '(s', o) := handle_batch demo_env (Some [app_cap]) (bs "app") batch_text demo_app in
  o = Ok (mkResponse 200 (Results [Some (OpSeq 1); Some (OpValue (Some (Base64.b64_encode (bs "v"))));
                                   Some (OpError (Code "missing_key"))]))
  /\ batch_served demo_env demo_app (bs "app") alice [put_op "k" "v"; get_op "k"; jobj [("op", jstr "put")]%string] PLww [] s'.
Proof.
  pose proof (batch_request demo_env ltac:(intros n; apply u64_range) (Some [app_cap]) (bs "app") batch_text demo_app
    PLww [] demo_store_ok demo_policy demo_holds) as Hb.
  assert ((handle_batch demo_env (Some [app_cap]) (bs "app") batch_text demo_app).2
    = Ok (mkResponse 200 (Results [Some (OpSeq 1); Some (OpValue (Some (Base64.b64_encode (bs "v"))));
                                   Some (OpError (Code "missing_key"))]))) as Eo by (vm_compute; reflexivity).
  assert ((data_auth demo_env (Some [app_cap]) (bs "app") [] Caps.WRITE demo_app).2 = Ok (alice, Caps.L2)) as Ea
    by (vm_compute; reflexivity).
  destruct (handle_batch demo_env (Some [app_cap]) (bs "app") batch_text demo_app) as [s' o].
  cbn [snd] in Eo. subst o. split; [done|].
  destruct Hb as (ops & pr & Ej & _ & _ & _ & Ed & _ & Hs & _); [apply Forall_singleton, app_cap_wf|done|vm_compute; done|].
  rewrite Ea in Ed. injection Ed as <-. vm_compute in Ej. injection Ej as <-. exact Hs.
Defined.

End ServerBatch.
