(* ===== verification/Sse.v ===== *)
(** Event streams ([src/server/mod.rs]): the process-wide count of open
    streams, taken and released by concurrent tasks, and the stream that
    follows the log of a namespace. *)

From S2P Require Import Prelude Crc32 LogFormat Log StoreTypes Store Hlc Json Caps Server.
Import Store Server.

Module Sse.

(** ** Slots *)

Definition MAX_SSE_CONNS : Z := 256.

(** Where a task is: in the loop of [acquire_sse_slot], having loaded [cur],
    or holding a slot while its stream lives. *)
Inductive task := AtLoad | AtCas (cur : Z) | Streaming.
#[global] Instance task_eq_dec : EqDecision task.
Proof. solve_decision. Defined.

Record pool := mkPool { SSE_CONNS : Z; tasks : gmap nat task }.

Inductive event := Tau | Acquired (t : nat) | Refused (t : nat) | Dropped (t : nat).

(** Each constructor is one atomic access of the counter.  A load reads the
    count as it is; the code's load is relaxed and may, on weak hardware, read
    an earlier count.  That concerns only when a connection is refused or its
    exchange fails: the exchange reads the count as it is in the code too. *)
Inductive step : pool -> event -> pool -> Prop :=
| StepConnect n ts t : ts !! t = None -> step (mkPool n ts) Tau (mkPool n (<[t := AtLoad]> ts))
| StepFull n ts t : ts !! t = Some AtLoad -> MAX_SSE_CONNS <= n ->
    step (mkPool n ts) (Refused t) (mkPool n (base.delete t ts))
| StepLoad n ts t : ts !! t = Some AtLoad -> n < MAX_SSE_CONNS ->
    step (mkPool n ts) Tau (mkPool n (<[t := AtCas n]> ts))
| StepCasOk n ts t : ts !! t = Some (AtCas n) ->
    step (mkPool n ts) (Acquired t) (mkPool (u64 (n + 1)) (<[t := Streaming]> ts))
(** The weak exchange may fail even when the count is the expected one. *)
| StepCasFail n ts t cur : ts !! t = Some (AtCas cur) ->
    step (mkPool n ts) Tau (mkPool n (<[t := AtLoad]> ts))
(** The stream ends or its client goes away: the slot is dropped. *)
| StepDrop n ts t : ts !! t = Some Streaming ->
    step (mkPool n ts) (Dropped t) (mkPool (u64 (n - 1)) (base.delete t ts)).

Definition init : pool := mkPool 0 ∅.

Inductive reachable : pool -> Prop :=
| ReachInit : reachable init
| ReachStep p ev p' : reachable p -> step p ev p' -> reachable p'.

(** ** The stream *)

Record sse_event := mkEvent { ev_ns : bytes; ev_seq : Z; ev_hash : bytes }.

(** What waiting on the change feed gives: a namespace that changed, or an
    error. *)
Inductive recv := Notified (ns : bytes) | RecvError.

Section stream.
Context `{Sha256, HexCrate, SerdeJson}.

(** At most one record after the cursor, with the hash of the log there. *)
Definition drain (st : Store) (ns : bytes) (cursor : Z) : outcome Response (option sse_event) :=
  recs ← log_tail st ns (u64 (cursor + 1)) 1;
  match recs with
  | [] => Ok None
  | (seq, b) :: _ =>
      prev ← (match LogFormat.parse_chain b None with
              | Ok (_, prev) => Ok prev
              | Err _ => Ok (replicate 32 Byte.x00)
              | Panic => Panic
              end);
      Ok (Some (mkEvent ns seq (LogFormat.record_hash prev b)))
  end.

(** The rounds of the loop: each reads the store as it then is, and waits when
    there is nothing to read.  The events sent, and whether the stream has
    ended. *)
Fixpoint sse_events (ns : bytes) (cursor : Z) (rounds : list (Store * recv))
    : outcome Response (list sse_event * bool) :=
  match rounds with
  | [] => Ok ([], false)
  | (st, r) :: rounds =>
      ev ← drain st ns cursor;
      match ev with
      | Some ev => '(l, ended) ← sse_events ns (ev_seq ev) rounds; Ok (ev :: l, ended)
      | None => match r with Notified _ => sse_events ns cursor rounds | RecvError => Ok ([], true) end
      end
  end.

End stream.

(** ** The slots are counted exactly *)

Definition live (ts : gmap nat task) : nat := size (filter (fun x => x.2 = Streaming) ts).

Lemma live_insert ts t x : ts !! t <> Some Streaming -> x <> Streaming -> live (<[t := x]> ts) = live ts.
Proof.
  intros Ht Hx. unfold live. rewrite map_filter_insert_False by done. f_equal. apply map_eq. intros i.
  apply option_eq. intros y. rewrite !map_lookup_filter_Some. destruct (decide (i = t)) as [->|Hne].
  - rewrite lookup_delete_eq. cbn. split; [by intros [? _]|]. intros [E Ey]. subst. by destruct Ht.
  - by rewrite lookup_delete_ne.
Qed.

Lemma live_open ts t : ts !! t <> Some Streaming -> live (<[t := Streaming]> ts) = S (live ts).
Proof.
  intros Ht. unfold live. rewrite map_filter_insert_True by done. apply map_size_insert_None.
  apply map_lookup_filter_None. right. intros x Hx Ex. cbn in Ex. subst. by destruct Ht.
Qed.

Lemma live_delete ts t : ts !! t <> Some Streaming -> live (base.delete t ts) = live ts.
Proof.
  intros Ht. unfold live. rewrite map_filter_delete, delete_id; [done|].
  apply map_lookup_filter_None. right. intros x Hx Ex. cbn in Ex. subst. by destruct Ht.
Qed.

Lemma live_close ts t : ts !! t = Some Streaming -> S (live (base.delete t ts)) = live ts.
Proof.
  intros Ht. assert (base.delete t ts !! t <> Some Streaming) as Hd by (by rewrite lookup_delete_eq).
  rewrite <-(live_open _ t Hd), insert_delete_eq, insert_id by done. done.
Qed.

Definition task_ok (x : task) : Prop := match x with AtCas cur => 0 <= cur < MAX_SSE_CONNS | _ => True end.

Record pool_ok (p : pool) : Prop := {
  po_count : SSE_CONNS p = Z.of_nat (live (tasks p));
  po_cap : SSE_CONNS p <= MAX_SSE_CONNS;
  po_tasks : map_Forall (fun _ => task_ok) (tasks p);
}.

Lemma pool_step_ok p ev p' : pool_ok p -> step p ev p' -> pool_ok p'.
Proof.
  intros [Hc Hm Ht] Hs. destruct Hs as [n ts t E|n ts t E Hn|n ts t E Hn|n ts t E|n ts t cur E|n ts t E];
    cbn in *; pose proof (fun x => Ht t x) as Htt.
  - split; cbn; [rewrite live_insert by (by rewrite ?E); done|done|by apply map_Forall_insert_2].
  - split; cbn; [rewrite live_delete by (by rewrite E); done|done|by apply map_Forall_delete].
  - split; cbn; [rewrite live_insert by (by rewrite ?E); done|done|apply map_Forall_insert_2; [cbn; lia|done]].
  - specialize (Htt _ E). cbn in Htt. unfold MAX_SSE_CONNS in *.
    split; cbn; unfold MAX_SSE_CONNS; rewrite ?u64_small by (unfold is_u64; lia);
      [rewrite live_open by (by rewrite E); lia|lia|by apply map_Forall_insert_2].
  - split; cbn; [rewrite live_insert by (by rewrite ?E); done|done|by apply map_Forall_insert_2].
  - pose proof (live_close ts t E). unfold MAX_SSE_CONNS in *.
    split; cbn; unfold MAX_SSE_CONNS; rewrite ?u64_small by (unfold is_u64; lia); [lia|lia|by apply map_Forall_delete].
Qed.

Lemma reachable_ok p : reachable p -> pool_ok p.
Proof.
  induction 1 as [|p ev p' _ IH Hs]; [split; cbn; [done|done|apply map_Forall_empty]|]. by eapply pool_step_ok.
Qed.

(** C15: however connections interleave, the counter is the number of streams that
    live, never above the cap; a connection is refused only while the cap is
    reached, and a stream that ends always gives its slot back. *)
Theorem sse_slots_exact p : reachable p ->
  SSE_CONNS p = Z.of_nat (live (tasks p)) /\ SSE_CONNS p <= MAX_SSE_CONNS
  /\ forall ev p', step p ev p' ->
       match ev with
       | Refused _ => Z.of_nat (live (tasks p)) = MAX_SSE_CONNS /\ live (tasks p') = live (tasks p)
       | Acquired _ => live (tasks p') = S (live (tasks p))
       | Dropped _ => S (live (tasks p')) = live (tasks p)
       | Tau => live (tasks p') = live (tasks p)
       end.
Proof.
  intros Hr. destruct (reachable_ok p Hr) as [Hc Hm Ht]. split_and!; [done..|]. intros ev p' Hs.
  destruct Hs as [n ts t E|n ts t E Hn|n ts t E Hn|n ts t E|n ts t cur E|n ts t E]; cbn in *.
  - by rewrite live_insert by (by rewrite ?E).
  - split; [lia|]. by rewrite live_delete by (by rewrite E).
  - by rewrite live_insert by (by rewrite ?E).
  - by rewrite live_open by (by rewrite E).
  - by rewrite live_insert by (by rewrite ?E).
  - by apply live_close.
Qed.

(** One stream: connected, loaded, open. *)
Definition one_stream : pool := mkPool 1 {[7%nat := Streaming]}.

Lemma one_stream_reachable : reachable one_stream.
Proof.
  apply (ReachStep (mkPool 0 (<[7%nat := AtCas 0]> (<[7%nat := AtLoad]> ∅))) (Acquired 7)).
  - apply (ReachStep (mkPool 0 (<[7%nat := AtLoad]> ∅)) Tau); [|by apply StepLoad].
    apply (ReachStep init Tau); [apply ReachInit|by apply StepConnect].
  - unfold one_stream. replace {[7%nat := Streaming]} with
      (<[7%nat := Streaming]> (<[7%nat := AtCas 0]> (<[7%nat := AtLoad]> (∅ : gmap nat task)))) by (by vm_compute).
    by apply (StepCasOk 0).
Qed.

Lemma sse_slots_exact_witness : SSE_CONNS one_stream = 1 /\ Z.of_nat (live (tasks one_stream)) = 1.
Proof. destruct (sse_slots_exact one_stream one_stream_reachable) as (<- & _). by split. Defined.

End Sse.
