(* ===== verification/ServerFeed.v ===== *)
(** The change feed and the event streams: both list the records of a
    namespace's log in order, without a gap and without a repetition. *)

From S2P Require Import Prelude Moves Crc32 LogFormat Log LogSpec Base64 Utf8 Text StoreTypes Store StoreSpec StoreFrame SyncSpec Hlc Ident Json Schema SchemaSpec Config Caps CapsToy CapsSpec Auth AuthSpec RateLimit Query Server ServerDemo ServerSpec ServerFrame ServerData  Sse.
Import Utf8 Text Store StoreSpec StoreFrame Json Config ConfigOps Server ServerSpec ServerData.

Module ServerFeed.

Section spec.
Context `{Sha256, HexCrate, SerdeJson, JsonFloat, Ed25519, CapJson, !Caps.CapJsonLaws, ConfigText, RateLimit.HashOrder}.

Abbreviation numbered := LogSpec.numbered.

(** ** Reading the log *)

(** The [max] records after [since]. *)
Definition page (rs : list bytes) (since max : Z) : list (Z * bytes) :=
  numbered (since + 1) (take (Z.to_nat max) (drop (Z.to_nat since) rs)).

Lemma log_tail_page st ns rs since max : log_holds st ns rs -> 0 <= since -> since + 1 < 2 ^ 64 -> 0 < max ->
  Z.of_nat (length rs) + max < 2 ^ 64 ->
  log_tail st ns (u64 (since + 1)) max = Ok (page rs since max).
Proof.
  intros (L & d & HL & Hd & Hlog) Hs Hu Hm Hr. rewrite u64_small by (unfold is_u64; lia).
  destruct (LogSpec.is_log_facts _ _ _ Hlog) as (Hseq & _ & _). unfold log_tail, log_records. rewrite HL.
  rewrite (dir_of_eq _ _ _ Hd). destruct (decide (Z.of_nat (length rs) < since + 1)) as [Hlt|Hge].
  - unfold Log.read_records. rewrite Hseq. rewrite (proj2 (Z.ltb_lt _ _) Hlt), orb_true_r.
    unfold page. by rewrite drop_ge, take_nil by lia.
  - destruct Hlog as (ss & s0 & Hrep & <-).
    rewrite (LogSpec.read_records_rep _ _ _ _ (since + 1) max Hrep) by (unfold is_u64; lia).
    rewrite (proj2 (Z.eqb_neq max 0)) by lia. unfold page. by rewrite Z.add_simpl_r.
Qed.

(** The rest of the log after a page starts where the page ends. *)
Lemma page_rest rs since max : 0 <= since ->
  drop (Z.to_nat since) rs = (page rs since max).*2 ++ drop (Z.to_nat (since + Z.of_nat (length (page rs since max)))) rs.
Proof.
  intros Hs. unfold page, LogSpec.numbered. set (w := take _ _).
  assert (length (seqZ (since + 1) (Z.of_nat (length w))) = length w) as Hl by (rewrite length_seqZ; lia).
  rewrite snd_zip by lia. rewrite length_zip_with, Hl, Nat.min_id.
  rewrite <-(take_drop (Z.to_nat max) (drop (Z.to_nat since) rs)) at 1. fold w. f_equal.
  rewrite drop_drop. destruct (decide (Z.to_nat since + Z.to_nat max <= length rs)%nat).
  - unfold w. rewrite length_take, length_drop. f_equal. lia.
  - rewrite !drop_ge; [done|..]; unfold w; rewrite ?length_take, ?length_drop; lia.
Qed.

(** Every record of a log parses, and its hash is the head after it. *)
Lemma chain_lookup h rs i l : LogSpec.chain_ok h rs -> rs !! i = Some l ->
  exists r, LogFormat.parse_chain l None = Ok (r, LogSpec.fhead h (take i rs))
    /\ LogFormat.record_hash (LogSpec.fhead h (take i rs)) l = LogSpec.fhead h (take (S i) rs).
Proof.
  revert h i. induction rs as [|l' rs IH]; intros h i Hch Hi; [done|]. destruct Hch as [[r Hp] Hc]. destruct i as [|i].
  - injection Hi as ->. exists r. split; [by eapply SyncSpec.parse_chain_unchecked|done].
  - destruct (IH (LogFormat.record_hash h l') i Hc Hi) as (r' & Hp' & Hh). by exists r'.
Qed.

(** ** The change feed *)

(** How the feed shows record [l] at [seq]. *)
Definition change_of (x : Z * bytes) : jvalue :=
  match LogFormat.parse_chain x.2 None with Ok (r, _) => change_json x.1 r | _ => JNull end.

Lemma changes_parsed l :
  Forall (fun x : Z * bytes => exists r p, LogFormat.parse_chain x.2 None = Ok (r, p)) l ->
  changes_json l = Ok (change_of <$> l).
Proof.
  induction 1 as [|[seq b] l (r & p & E) _ IH]; [done|]. cbn [changes_json fmap list_fmap]. cbn [snd] in E.
  assert (change_of (seq, b) = change_json seq r) as -> by (unfold change_of; cbn [fst snd]; by rewrite E).
  by rewrite IH, E.
Qed.

Lemma page_parsed st ns rs since max : log_holds st ns rs ->
  Forall (fun x : Z * bytes => exists r p, LogFormat.parse_chain x.2 None = Ok (r, p)) (page rs since max).
Proof.
  intros (L & d & _ & _ & Hlog). destruct (LogSpec.is_log_facts _ _ _ Hlog) as (_ & _ & Hc).
  apply Forall_forall. intros [q b] Hin. apply elem_of_zip_r in Hin.
  apply elem_of_take in Hin as (i & Hin & _). rewrite lookup_drop in Hin.
  destruct (chain_lookup _ _ _ _ Hc Hin) as (r & Hp & _). cbn. eauto.
Qed.

Lemma page_short rs since max : 0 <= since -> take (Z.to_nat max) (page rs since max) = page rs since max.
Proof.
  intros Hs. apply take_ge. unfold page, LogSpec.numbered. rewrite length_zip_with, length_seqZ, length_take. lia.
Qed.

(** The change feed.  A poll of an existing namespace is refused by the
    check, or lists exactly the records after [since], oldest first, each with
    its sequence number and fields, at most [MAX_CHANGES] of them, beside the
    current head.  Nothing is lost between pages: the records after the last
    one listed are the rest of the log, and a page that is not full ends at the
    head. *)
Theorem changes_gapless e caps ns q s p rs since :
  policies (store s) !! ns = Some p -> log_holds (store s) ns rs ->
  since = default 0 (query_u64 "since" q) -> 0 <= since -> since + 1 < 2 ^ 64 ->
  Z.of_nat (length rs) + MAX_CHANGES < 2 ^ 64 ->
  let '(s', o) := handle_changes e caps ns q s in
  let listed := page rs since MAX_CHANGES in
  store s' = store s
  /\ match o with
     | Err x => 400 <= status x
     | Panic => False
     | Ok x => x = ok_json (jobj [("since", jnum since);
           ("head", head_json (Z.of_nat (length rs), LogSpec.fhead LogFormat.zero32 rs));
           ("changes", JArray (change_of <$> listed))]%string)
     end
  /\ drop (Z.to_nat since) rs = listed.*2 ++ drop (Z.to_nat (since + Z.of_nat (length listed))) rs
  /\ (Z.of_nat (length listed) < MAX_CHANGES -> since <= Z.of_nat (length rs) ->
       since + Z.of_nat (length listed) = Z.of_nat (length rs)).
Proof.
  intros Hp Hlog Hsince Hs Hu Hr. unfold handle_changes. rewrite <-Hsince. unfold mbind at 1, method_bind at 1.
  destruct (data_auth e caps ns [] Caps.READ s) as [s1 o] eqn:Ed.
  destruct (ServerFrame.data_auth_cases e caps ns [] Caps.READ s s1 o Ed) as [[c ->] Ho].
  assert (drop (Z.to_nat since) rs = (page rs since MAX_CHANGES).*2
    ++ drop (Z.to_nat (since + Z.of_nat (length (page rs since MAX_CHANGES)))) rs) as Hrest
    by (exact (page_rest rs since MAX_CHANGES Hs)).
  assert (Z.of_nat (length (page rs since MAX_CHANGES)) < MAX_CHANGES -> since <= Z.of_nat (length rs) ->
    since + Z.of_nat (length (page rs since MAX_CHANGES)) = Z.of_nat (length rs)) as Hend.
  { unfold page, LogSpec.numbered. rewrite length_zip_with, length_seqZ, length_take, length_drop.
    unfold MAX_CHANGES. lia. }
  destruct o as [[pr tier]|x|]; [|done..]. cbv zeta. rewrite needs_run. cbn [store with_cap_cache]. rewrite Hp.
  rewrite (method_bind_step self _ _ _ _ eq_refl). cbn [store with_cap_cache].
  rewrite (log_tail_page (store s) ns rs since MAX_CHANGES Hlog Hs Hu eq_refl Hr).
  rewrite (method_bind_step (lift (Ok (page rs since MAX_CHANGES))) _ _ _ _ eq_refl).
  rewrite (page_short rs since MAX_CHANGES Hs).
  rewrite (changes_parsed _ (page_parsed _ _ _ since MAX_CHANGES Hlog)).
  rewrite (method_bind_step (lift (Ok _)) _ _ _ _ eq_refl).
  split_and!; [done| |done|done]. destruct Hlog as (L & d & HL & _ & Hlog).
  destruct (LogSpec.is_log_facts _ _ _ Hlog) as (Hseq & Hhead & _). unfold head. rewrite HL. cbn. by rewrite Hseq, Hhead.
Qed.

(** ** Event streams *)

(** The event of record [q]: its number and the head of the log after it. *)
Definition event_at (ns : bytes) (rs : list bytes) (q : Z) : Sse.sse_event :=
  Sse.mkEvent ns q (LogSpec.fhead LogFormat.zero32 (take (Z.to_nat q) rs)).

Lemma drain_run st ns rs cur : log_holds st ns rs -> 0 <= cur -> cur + 1 < 2 ^ 64 ->
  Z.of_nat (length rs) + 1 < 2 ^ 64 ->
  Sse.drain st ns cur = Ok (if cur <? Z.of_nat (length rs) then Some (event_at ns rs (cur + 1)) else None).
Proof.
  intros Hlog Hc Hu Hr. unfold Sse.drain. rewrite (log_tail_page st ns rs cur 1 Hlog Hc Hu eq_refl Hr).
  cbn [mbind outcome_bind]. destruct Hlog as (L & d & _ & _ & Hlog).
  destruct (LogSpec.is_log_facts _ _ _ Hlog) as (_ & _ & Hch).
  destruct (Z.ltb_spec cur (Z.of_nat (length rs))) as [Hlt|Hge].
  - destruct (lookup_lt_is_Some_2 rs (Z.to_nat cur)) as [l Hl]; [lia|]. unfold page.
    rewrite (drop_S rs l (Z.to_nat cur) Hl). change (Z.to_nat 1) with 1%nat. cbn [take]. rewrite LogSpec.numbered_cons.
    destruct (chain_lookup _ _ _ _ Hch Hl) as (r & -> & Hh). cbn. unfold event_at.
    replace (Z.to_nat (cur + 1)) with (S (Z.to_nat cur)) by lia. by rewrite <-Hh.
  - unfold page. by rewrite drop_ge by lia.
Qed.

Lemma event_at_prefix ns rs k q : (Z.to_nat q <= k)%nat -> event_at ns (take k rs) q = event_at ns rs q.
Proof. intros Hk. unfold event_at. by rewrite take_take, Nat.min_l. Qed.

(** What a stream has sent after [rounds], having to send [goal] records before
    it counts as complete. *)
Definition streamed (ns : bytes) (rs : list bytes) (rounds : list (Store * Sse.recv)) (since goal : Z) : Prop :=
  exists n ended, Sse.sse_events ns since rounds = Ok (event_at ns rs <$> seqZ (since + 1) (Z.of_nat n), ended)
  /\ since + Z.of_nat n <= Z.of_nat (length rs)
  /\ (ended = true -> exists st, (st, Sse.RecvError) ∈ rounds)
  /\ (ended = false -> Z.of_nat (length rs) - since <= goal -> since + Z.of_nat n = Z.of_nat (length rs)).

Lemma round_streamed ns rs st r rounds since goal k : log_holds st ns (take k rs) ->
  0 <= since <= Z.of_nat (length rs) -> Z.of_nat (length rs) + 1 < 2 ^ 64 ->
  (since < Z.of_nat (length rs) -> streamed ns rs rounds (since + 1) (goal - 1)) ->
  (Z.of_nat (length (take k rs)) <= since -> streamed ns rs rounds since goal) ->
  streamed ns rs ((st, r) :: rounds) since goal.
Proof.
  intros Hlog Hb Hl Hnext Hwait. unfold streamed. cbn [Sse.sse_events].
  rewrite length_take in Hwait.
  rewrite (drain_run st ns (take k rs) since Hlog) by (rewrite ?length_take; lia). rewrite length_take.
  destruct (Z.ltb_spec since (Z.of_nat (k `min` length rs))) as [Hlt|Hge]; cbn [mbind outcome_bind].
  - destruct Hnext as (n & ended & E & Hn & He & Hg); [lia|]. cbn [Sse.ev_seq event_at]. rewrite E.
    exists (S n), ended. split_and!; [|lia| |].
    + cbn [mbind outcome_bind]. rewrite event_at_prefix by lia.
      replace (Z.of_nat (S n)) with (Z.succ (Z.of_nat n)) by lia. rewrite (seqZ_cons (since + 1) (Z.succ _)) by lia.
      rewrite Z.pred_succ. replace (Z.succ (since + 1)) with (since + 1 + 1) by lia. done.
    + intros Ee. destruct (He Ee) as [st' Hst]. exists st'. by right.
    + intros Ee Hgo. specialize (Hg Ee ltac:(lia)). lia.
  - specialize (Hwait ltac:(lia)). destruct r as [n'|].
    + destruct Hwait as (n & ended & E & Hn & He & Hg). exists n, ended. split_and!; [done|done| |done].
      intros Ee. destruct (He Ee) as [st' Hst]. exists st'. by right.
    + exists 0%nat, true. split_and!; [done|lia| |done]. intros _. exists st. by left.
Qed.

Lemma settled_streamed ns rs settled since :
  Forall (fun x : Store * Sse.recv => log_holds x.1 ns rs) settled ->
  0 <= since <= Z.of_nat (length rs) -> Z.of_nat (length rs) + 1 < 2 ^ 64 ->
  streamed ns rs settled since (Z.of_nat (length settled)).
Proof.
  intros Hs Hb Hl. revert since Hb. induction Hs as [|[st r] l Hx Hs IH]; intros since Hb.
  { exists 0%nat, false. cbn. split_and!; [done|lia|done|lia]. }
  apply (round_streamed ns rs st r l since _ (length rs)); [by rewrite firstn_all|done|done| |].
  - intros Hlt. cbn [length]. replace (Z.of_nat (S (length l)) - 1) with (Z.of_nat (length l)) by lia. apply IH. lia.
  - rewrite firstn_all. intros Hge. destruct (IH since Hb) as (n & ended & E & Hn & He & Hg).
    exists n, ended. split_and!; [done..|]. intros Ee _. lia.
Qed.

(** C14: an event stream.  While the log grows, whatever else happens on the
    change feed, the stream sends one event for each record after [since], in
    order, without gap or repetition, each with the head of the log after its
    record.  It ends only when the feed reports an error; as long as it has
    not, once the log stops growing it sends every record within as many
    rounds as are missing. *)
Theorem stream_gapless ns rs rounds settled since :
  Forall (fun x : Store * Sse.recv => exists k, log_holds x.1 ns (take k rs)) rounds ->
  Forall (fun x : Store * Sse.recv => log_holds x.1 ns rs) settled ->
  0 <= since <= Z.of_nat (length rs) -> Z.of_nat (length rs) + 1 < 2 ^ 64 ->
  exists n ended, Sse.sse_events ns since (rounds ++ settled)
    = Ok (event_at ns rs <$> seqZ (since + 1) (Z.of_nat n), ended)
  /\ since + Z.of_nat n <= Z.of_nat (length rs)
  /\ (ended = true -> exists st, (st, Sse.RecvError) ∈ rounds ++ settled)
  /\ (ended = false -> Z.of_nat (length rs) - since <= Z.of_nat (length settled) ->
       since + Z.of_nat n = Z.of_nat (length rs)).
Proof.
  intros Hr Hs Hb Hl. change (streamed ns rs (rounds ++ settled) since (Z.of_nat (length settled))). revert since Hb.
  induction Hr as [|[st r] l [k Hx] Hr IH]; intros since Hb; [by apply settled_streamed|].
  change (((st, r) :: l) ++ settled) with ((st, r) :: (l ++ settled)).
  apply (round_streamed ns rs st r _ since _ k); [done..| |intros _; by apply IH].
  intros Hlt. destruct (IH (since + 1) ltac:(lia)) as (n & ended & E & Hn & He & Hg).
  exists n, ended. split_and!; [done..|]. intros Ee Hgo. apply Hg; [done|]. lia.
Qed.

End spec.

(** ** Witnesses *)

#[local] Existing Instances toy_sha256 hex_plain toy_ed25519 CapsToy.toy_cap_json toy_config_text.
#[local] Existing Instances SchemaSpec.decimal_floats RateLimit.plain_order ServerDemo.demo_json.
Import ServerDemo.

(** The demo store after one write. *)
Definition one_write : Store :=
  (put (bs "app") (bs "k") (bs "v") 7 (StoreSpec.node Byte.x01) (StoreSpec.node Byte.x02) 0 demo_store).1.

Lemma one_write_holds : policies one_write !! bs "app" = Some PLww
  /\ exists l, log_holds one_write (bs "app") [l].
Proof.
  split; [exact (eq_trans (f_equal (fun m => m !! bs "app") (frame_policies _ _ _ _ (frames_put [] (bs "app") (bs "k")
    (bs "v") 7 (StoreSpec.node Byte.x01) (StoreSpec.node Byte.x02) 0 demo_store))) demo_policy)|].
  destruct (put_get demo_store (bs "app") PLww [] (bs "k") (bs "v") 7 (StoreSpec.node Byte.x01) (StoreSpec.node Byte.x02) 0)
    as (st & hd & E & Hlog & _); [apply demo_store_ok|reflexivity|apply demo_holds|wf_single|].
  unfold one_write. rewrite E. eauto.
Qed.

Lemma changes_gapless_witness :
  exists l x, log_holds one_write (bs "app") [l]
    /\ (handle_changes demo_env (Some [app_cap]) (bs "app") ∅ (with_store one_write demo_app)).2 = Ok x
    /\ x = ok_json (jobj [("since", jnum 0); ("head", head_json (1, LogSpec.fhead LogFormat.zero32 [l]));
          ("changes", JArray [change_of (1, l)])]%string).
Proof.
  destruct one_write_holds as [Hp [l Hl]]. exists l.
  pose proof (changes_gapless demo_env (Some [app_cap]) (bs "app") ∅ (with_store one_write demo_app) PLww [l] 0 Hp Hl
    eq_refl ltac:(done) ltac:(done) ltac:(done)) as Hc.
  assert (match (handle_changes demo_env (Some [app_cap]) (bs "app") ∅ (with_store one_write demo_app)).2 with
    Ok _ => true | _ => false end = true) as Eo by (vm_compute; reflexivity).
  destruct (handle_changes demo_env (Some [app_cap]) (bs "app") ∅ (with_store one_write demo_app)) as [s' [x|x|]];
    [|done..]. destruct Hc as (_ & -> & _). by eexists.
Defined.

Lemma stream_gapless_witness :
  exists l, Sse.sse_events (bs "app") 0 [(one_write, Sse.Notified (bs "app"))]
    = Ok ([event_at (bs "app") [l] 1], false).
Proof.
  destruct one_write_holds as [_ [l Hl]]. exists l.
  destruct (stream_gapless (bs "app") [l] [] [(one_write, Sse.Notified (bs "app"))] 0) as (n & ended & E & Hn & He & Hg);
    [constructor|by apply Forall_singleton|done|done|].
  destruct ended.
  - destruct He as [st Hst]; [done|]. exfalso. apply list_elem_of_singleton in Hst. discriminate Hst.
  - specialize (Hg eq_refl ltac:(done)). cbn in Hg. assert (n = 1%nat) as -> by lia. exact E.
Defined.
End ServerFeed.
