(* ===== verification/ServerGaps.v ===== *)
(** Where the API differs from what its comments promise, on concrete
    requests. *)

From S2P Require Import Prelude Moves Crc32 LogFormat Log LogSpec Base64 Utf8 Text StoreTypes Store StoreSpec Hlc Ident Json Schema SchemaSpec Config Caps CapsToy CapsSpec Auth AuthSpec RateLimit Query Server ServerDemo ServerSpec ServerFeed.
Import Utf8 Text Store StoreSpec Json Config ConfigOps Server ServerDemo ServerSpec ServerFeed.

Module ServerGaps.

#[local] Existing Instances toy_sha256 hex_plain toy_ed25519 CapsToy.toy_cap_json toy_config_text.
#[local] Existing Instances SchemaSpec.decimal_floats RateLimit.plain_order ServerDemo.demo_json.

(** ** Prefixes *)

(** Alice may read what lies below [a]. *)
Definition a_cap : Caps.Capability :=
  Caps.cap_sign_for (Caps.mkScope host Caps.L2 (bs "app") (Some (bs "a"))) Caps.READ (Some 5000) 43 alice root_kp.

Definition put_to (k v : string) (s : AppState) : AppState :=
  (app mjoin demo_env (Some (bearer app_cap)) (L2 (bs "app") (Data (bs k) PUT ∅ (bs v))) s).1.
Definition two_keys : AppState := put_to "a/x" "mine" (put_to "abc/x" "other" demo_app).

(** A capability is for whole segments, a scan is for bytes: the key [abc/x],
    which the capability does not cover, is refused by name and listed by a
    scan of the prefix [a]. *)
Theorem scan_escapes_prefix :
  let ask k q := (app mjoin demo_env (Some (bearer a_cap)) (L2 (bs "app") (Data (bs k) GET q [])) two_keys).2 in
  status <$> ask "abc/x"%string ∅ = Some 403
  /\ exists l, ask "a/any"%string {[bs "prefix" := bs "a"]} = Some (ok_json (rows_json l 10))
     /\ bs "abc/x" ∈ l.*1.
Proof. split; [by vm_compute|]. exists (scan (store two_keys) (bs "app") (bs "a")). split; [by vm_compute|by vm_decide]. Qed.

(** ** Queries *)

(** The same state with a quota of three bytes. *)
Definition tight_app : AppState := mkApp demo_store (Ident.public root_kp)
  (Caps.keyring_current (Ident.public root_kp)) root_kp Caps.no_revocations host 3 true 0
  Auth.cap_cache_new Caps.token_cache_new 0 0 (RateLimit.limiter_new true 600 60)
  config_default (bs "c") None [].

Definition quoted (s : string) : bytes := [Query.DQUOTE] ++ bs s ++ [Query.DQUOTE].
Definition put_expr : bytes := bs "put(" ++ quoted "k" ++ bs ", " ++ quoted "four" ++ bs ")".

(** A write through the query language is neither charged nor signalled: a value
    that a [PUT] refuses for the quota is stored, and no stream is woken. *)
Theorem query_put_uncounted :
  let ask r := app mjoin demo_env (Some (bearer app_cap)) (L2 (bs "app") r) tight_app in
  let s' := (ask (Ql put_expr)).1 in
  status <$> (ask (Data (bs "k") PUT ∅ (bs "four"))).2 = Some 409
  /\ status <$> (ask (Ql put_expr)).2 = Some 200
  /\ (get (store s') (bs "app") (bs "k") ≫= fun en => latest_value en 10) = Some (bs "four")
  /\ Auth.bytes_written (store s') (bs "app") = 0 /\ signals s' = [] /\ writes s' = 0.
Proof. by vm_compute. Qed.

(** ** The change feed *)

(** Polling with the previous head, as the comment of the feed has it, skips what
    a full page left out: the next page is empty although records were never
    listed.  Gapless is polling with the last sequence number listed. *)
Theorem polling_head_skips rs since : 0 <= since -> since + MAX_CHANGES < Z.of_nat (length rs) ->
  let listed := page rs since MAX_CHANGES in
  Z.of_nat (length listed) = MAX_CHANGES
  /\ page rs (Z.of_nat (length rs)) MAX_CHANGES = []
  /\ exists r, rs !! Z.to_nat (since + MAX_CHANGES) = Some r /\ (since + MAX_CHANGES + 1, r) ∉ listed.
Proof.
  intros Hs Hlen. cbv zeta. assert (0 < MAX_CHANGES) by done. assert (forall since', 0 <= since' ->
    Z.of_nat (length (page rs since' MAX_CHANGES)) = Z.min MAX_CHANGES (Z.max 0 (Z.of_nat (length rs) - since'))) as Hl.
  { intros since' Hs'. unfold page, LogSpec.numbered. rewrite length_zip_with, length_seqZ, length_take, length_drop. lia. }
  split; [rewrite Hl by done; lia|]. split; [apply nil_length_inv; specialize (Hl (Z.of_nat (length rs))); lia|].
  destruct (lookup_lt_is_Some_2 rs (Z.to_nat (since + MAX_CHANGES))) as [r Hr]; [lia|]. exists r. split; [done|].
  unfold page, LogSpec.numbered. intros Hin%elem_of_zip_l. apply elem_of_seqZ in Hin. rewrite length_take in Hin. lia.
Qed.

End ServerGaps.
