(* ===== verification/Tls.v ===== *)
(** TLS termination ([src/server/tls.rs]): the certificate and the key that a
    listener is built from, and the loop that accepts connections, with the
    time its handshakes take.  [rustls] and [rustls_pemfile] are a class. *)

From S2P Require Import Prelude Config.
Import Config.

(** [rustls_pemfile]'s readers, [PrivateKeyDer::try_from] on a DER, and
    [ServerConfig::builder] up to [with_single_cert]; [None] is an error.  The
    code relies on no law of them. *)
Class Rustls := {
  server_config : Type;
  private_key : Type;
  certs : bytes -> option (list bytes);
  pkcs8_private_keys : bytes -> option (list bytes);
  ec_private_keys : bytes -> option (list bytes);
  rsa_private_keys : bytes -> option (list bytes);
  private_key_der : bytes -> option private_key;
  with_single_cert : list bytes -> private_key -> option server_config;
}.

Module Tls.

Inductive key_kind := Pkcs8 | Sec1 | Rsa.
#[global] Instance key_kind_eq_dec : EqDecision key_kind.
Proof. solve_decision. Defined.

Inductive tls_error :=
| OpenCert (path : bytes)
| ReadCerts (path : bytes)
| NoCertificates (path : bytes)
| ReadKey (path : bytes)
| MalformedKey (kind : key_kind)
| ParseKey (kind : key_kind)
| NoPrivateKey (path : bytes)
| InvalidCertKey (path : bytes)
| BindFailed (addr : bytes).

Section tls.
Context `{Rustls}.

(** The listener: the address it is bound to, the configuration of its
    acceptor and the protocols that it offers. *)
Record TlsListener := mkListener {
  inner : bytes;
  acceptor : server_config;
  alpn_protocols : list bytes;
}.

(** ** Certificate and key *)

(** [file] is what a path holds, when it can be read. *)
Context (file : bytes -> option bytes).

Definition load_certs (path : bytes) : outcome tls_error (list bytes) :=
  text ← ok_or (OpenCert path) (file path);
  ders ← ok_or (ReadCerts path) (certs text);
  _ ← guard_err (bool_decide (ders = [])) (NoCertificates path);
  Ok ders.

Definition private_keys (kind : key_kind) : bytes -> option (list bytes) :=
  match kind with Pkcs8 => pkcs8_private_keys | Sec1 => ec_private_keys | Rsa => rsa_private_keys end.

Definition first_key_der (text : bytes) (kind : key_kind) : outcome tls_error (option private_key) :=
  match private_keys kind text with
  | Some (v :: _) => d ← ok_or (MalformedKey kind) (private_key_der v); Ok (Some d)
  | Some [] => Ok None
  | None => Err (ParseKey kind)
  end.

Fixpoint key_of_kinds (path text : bytes) (kinds : list key_kind) : outcome tls_error private_key :=
  match kinds with
  | [] => Err (NoPrivateKey path)
  | kind :: kinds =>
      found ← first_key_der text kind;
      match found with Some der => Ok der | None => key_of_kinds path text kinds end
  end.

Definition load_key (path : bytes) : outcome tls_error private_key :=
  text ← ok_or (ReadKey path) (file path);
  key_of_kinds path text [Pkcs8; Sec1; Rsa].

Definition ALPN : list bytes := [bs "h2"; bs "http/1.1"].

(** [bound] says whether the socket can be bound. *)
Definition build (bound : bool) (addr : bytes) (t : Tls) : outcome tls_error TlsListener :=
  cert_chain ← load_certs (cert_path t);
  key_der ← load_key (key_path t);
  c ← ok_or (InvalidCertKey (cert_path t)) (with_single_cert cert_chain key_der);
  _ ← guard_err (negb bound) (BindFailed addr);
  Ok (mkListener addr c ALPN).

End tls.

(** ** Accepting *)

Definition HANDSHAKE_MS : Z := 5000.

(** What reaches the socket, in order: an error of [accept], or a connection
    with the time its handshake would take and whether it would succeed. *)
Inductive arrival :=
| AcceptError (at_ms : Z)
| Connect (at_ms : Z) (peer : nat) (needs : Z) (succeeds : bool).

Definition arrives (a : arrival) : Z := match a with AcceptError t | Connect t _ _ _ => t end.

(** The next connection, the time it is handed over and what is left; [None]
    while the loop waits. *)
Fixpoint accept (now : Z) (l : list arrival) : option (nat * Z * list arrival) :=
  match l with
  | [] => None
  | a :: l =>
      let t := Z.max now (arrives a) in
      match a with
      | AcceptError _ => accept t l
      | Connect _ p needs ok =>
          if ok && (needs <=? HANDSHAKE_MS) then Some (p, t + needs, l)
          else accept (t + Z.min needs HANDSHAKE_MS) l
      end
  end.

(** The server accepts again as soon as it was handed a connection; [fuel]
    bounds the number of connections. *)
Fixpoint serve (fuel : nat) (now : Z) (l : list arrival) : list (nat * Z) :=
  match fuel, accept now l with
  | S fuel, Some (p, t, l) => (p, t) :: serve fuel t l
  | _, _ => []
  end.

(** ** The key that is used *)

Section keys.
Context `{Rustls}.

Lemma key_of_kinds_iff path text kinds d :
  key_of_kinds path text kinds = Ok d <->
  exists before kind after v rest, kinds = before ++ kind :: after
    /\ Forall (fun k => private_keys k text = Some []) before
    /\ private_keys kind text = Some (v :: rest) /\ private_key_der v = Some d.
Proof.
  split.
  - induction kinds as [|k kinds IH]; cbn [key_of_kinds]; [done|]. unfold first_key_der.
    destruct (private_keys k text) as [[|v rest]|] eqn:Ek; cbn [mbind outcome_bind]; [| |done].
    + intros (b & k' & af & v & r & -> & Hb & Hk & Hd)%IH. exists (k :: b), k', af, v, r.
      split_and!; [done|by constructor|done..].
    + destruct (private_key_der v) as [d'|] eqn:Ed; [|done]. intros [= <-].
      exists [], k, kinds, v, rest. by split_and!.
  - intros (b & k & af & v & r & -> & Hb & Hk & Hd). induction Hb as [|k' b Hk' Hb IH];
      cbn [key_of_kinds app]; unfold first_key_der.
    + by rewrite Hk, Hd.
    + rewrite Hk'. exact IH.
Qed.

(** A listener is built exactly from the certificates of the one file and the
    first key of the other one, by the order PKCS#8, SEC1, PKCS#1; a format that
    does not parse is an error also when a later one would do. *)
Theorem build_iff file bound addr t L :
  build file bound addr t = Ok L <->
  exists ctext ders ktext before kind after v rest d c,
    file (cert_path t) = Some ctext /\ certs ctext = Some ders /\ ders <> []
    /\ file (key_path t) = Some ktext /\ [Pkcs8; Sec1; Rsa] = before ++ kind :: after
    /\ Forall (fun k => private_keys k ktext = Some []) before
    /\ private_keys kind ktext = Some (v :: rest) /\ private_key_der v = Some d
    /\ with_single_cert ders d = Some c /\ bound = true /\ L = mkListener addr c ALPN.
Proof.
  unfold build, load_certs, load_key. split.
  - destruct (file (cert_path t)) as [ct|]; [|done]. cbn [ok_or mbind outcome_bind].
    destruct (certs ct) as [ders|] eqn:Ec; [|done]. cbn [ok_or mbind outcome_bind].
    case_bool_decide as Hne; [done|]. cbn [guard_err mbind outcome_bind].
    destruct (file (key_path t)) as [kt|]; [|done]. cbn [ok_or mbind outcome_bind].
    destruct (key_of_kinds _ _ _) as [d|?|] eqn:Ek; [|done..]. cbn [mbind outcome_bind].
    destruct (with_single_cert ders d) as [c|] eqn:Ew; [|done]. destruct bound; [|done]. intros [= <-].
    apply key_of_kinds_iff in Ek as (b & k & af & v & r & E & Hb & Hk & Hd).
    exists ct, ders, kt, b, k, af, v, r, d, c. by split_and!.
  - intros (ct & ders & kt & b & k & af & v & r & d & c & -> & Ec & Hne & -> & E & Hb & Hk & Hd & Ew & -> & ->).
    cbn [ok_or mbind outcome_bind]. rewrite Ec. cbn [ok_or mbind outcome_bind].
    rewrite bool_decide_eq_false_2 by done. cbn [guard_err mbind outcome_bind].
    rewrite (proj2 (key_of_kinds_iff (key_path t) kt _ d)) by (exists b, k, af, v, r; by split_and!).
    cbn [mbind outcome_bind]. by rewrite Ew.
Qed.
End keys.

(** ** Who is served, and when *)

Definition good (a : arrival) : option nat :=
  match a with Connect _ p needs true => if needs <=? HANDSHAKE_MS then Some p else None | _ => None end.

Lemma accept_step now a l : accept now (a :: l) =
  match good a, a with
  | Some p, Connect _ _ needs _ => Some (p, Z.max now (arrives a) + needs, l)
  | _, Connect _ _ needs _ => accept (Z.max now (arrives a) + Z.min needs HANDSHAKE_MS) l
  | _, AcceptError _ => accept (Z.max now (arrives a)) l
  end.
Proof. destruct a as [|t p needs []]; cbn; [done| |done]. by destruct (needs <=? HANDSHAKE_MS). Qed.

(** Exactly the clients whose handshake ends in time are served, in order:
    no client that hangs, and no error of the socket, ends the loop. *)
Theorem served_exactly fuel now l : (length l <= fuel)%nat -> (serve fuel now l).*1 = omap good l.
Proof.
  revert fuel now. induction l as [|a l IH]; intros fuel now Hl; [by destruct fuel|].
  destruct fuel as [|fuel]; [cbn in Hl; lia|]. cbn [serve length] in *.
  rewrite accept_step. cbn [omap list_omap]. destruct (good a) as [p|] eqn:Eg.
  - destruct a as [|t q needs ok]; [done|]. cbn. f_equal. apply IH. lia.
  - destruct a as [t|t q needs ok]; apply (IH (S fuel)); lia.
Qed.

(** A client waits at most five seconds for each one before it. *)
Theorem served_in_time pre now t p needs post :
  Forall (fun a => arrives a <= t) pre -> Forall (fun a => match a with Connect _ _ n _ => 0 <= n | _ => True end) pre ->
  0 <= needs <= HANDSHAKE_MS ->
  let l := pre ++ Connect t p needs true :: post in
  exists t', (p, t') ∈ serve (length l) now l
    /\ t' <= Z.max now t + HANDSHAKE_MS * Z.of_nat (length pre) + needs.
Proof.
  intros Hpre Hn Hneeds l. enough (forall fuel, (length l <= fuel)%nat -> exists t', (p, t') ∈ serve fuel now l
    /\ t' <= Z.max now t + HANDSHAKE_MS * Z.of_nat (length pre) + needs) as W by (by apply W).
  subst l. revert now Hn. induction Hpre as [|a pre Ha Hpre IH]; intros now Hn fuel Hf.
  - destruct fuel as [|fuel]; [cbn in Hf; lia|]. cbn [app serve]. rewrite accept_step. cbn [good].
    rewrite (proj2 (Z.leb_le needs HANDSHAKE_MS)) by lia. eexists. split; [by left|]. cbn. lia.
  - inversion Hn as [|? ? Hna Hn']; subst. destruct fuel as [|fuel]; [cbn in Hf; lia|]. cbn [app length] in Hf.
    cbn [app serve]. rewrite accept_step. unfold HANDSHAKE_MS in *. destruct (good a) as [q|] eqn:Eg.
    + destruct a as [|ta q' na []]; [done| |done]. cbn in Eg. destruct (na <=? _) eqn:En; [|done].
      destruct (IH (Z.max now ta + na) Hn' fuel ltac:(lia)) as (t' & Hin & Ht). exists t'.
      split; [by right|]. apply Z.leb_le in En. unfold HANDSHAKE_MS in *. cbn [arrives length] in *. lia.
    + set (now' := match a with Connect _ _ n _ => Z.max now (arrives a) + Z.min n 5000 | _ => Z.max now (arrives a) end).
      destruct (IH now' Hn' (S fuel) ltac:(lia)) as (t' & Hin & Ht). exists t'.
      split; [by destruct a|]. subst now'. destruct a; cbn [arrives length] in *; lia.
Qed.

(** And no less: the handshakes are made one after the other, so clients that
    connect and send nothing hold up everyone behind them. *)
Theorem hanging_clients_delay n now p needs (q : nat) : 0 <= needs <= HANDSHAKE_MS ->
  let hang := Connect now q (HANDSHAKE_MS + 1) true in
  serve (S n) now (replicate n hang ++ [Connect now p needs true])
  = [(p, now + HANDSHAKE_MS * Z.of_nat n + needs)].
Proof.
  intros Hn hang. enough (forall d, 0 <= d -> accept (now + d) (replicate n hang ++ [Connect now p needs true])
    = Some (p, now + d + HANDSHAKE_MS * Z.of_nat n + needs, [])) as W.
  { specialize (W 0 ltac:(lia)). rewrite !Z.add_0_r in W. cbn [serve]. rewrite W. by destruct n. }
  unfold HANDSHAKE_MS in *. induction n as [|n IH]; intros d Hd; cbn [replicate app]; rewrite accept_step; cbn [good hang].
  - unfold HANDSHAKE_MS. rewrite (proj2 (Z.leb_le needs 5000)) by lia. cbn. do 2 f_equal. f_equal. lia.
  - subst hang. cbn [arrives]. unfold HANDSHAKE_MS. replace (5000 + 1 <=? 5000) with false by done.
    replace (Z.max (now + d) now + Z.min (5000 + 1) 5000) with (now + (d + 5000)) by lia.
    rewrite IH by lia. do 2 f_equal. f_equal. lia.
Qed.

End Tls.
