(* ===== verification/Daemon.v ===== *)
(** The daemon ([src/bin/bunnymeshdbd.rs]): how it starts from a data
    directory (key file, store, admin capability, revocations, keyring), and
    the tasks that run beside the API. *)

From S2P Require Import Prelude Crc32 LogFormat Log Base64 Utf8 Text StoreTypes Store Snapshot Hlc Ident Json Schema Config Caps Rotate Auth RateLimit Query Server.
Import Utf8 Text Store Snapshot Json Config ConfigOps Server.

Module Daemon.

(** What ends the process before it serves. *)
Inductive boot_error :=
| FatalInit (e : Rotate.rotate_error)
| FatalMeta (e : Rotate.rotate_error)
| FatalOpen (e : StorageError)
| FatalNoFuse
| FatalProvision (e : StorageError)
| FatalMount.

(** What a start reads of the world: random bytes for a new key and for the
    nonce of the admin capability, the clock, and whether a mount works. *)
Record boot_env := mkBoot {
  seed : bytes;
  nonce : bytes;
  boot_ms : Z;
  dev_fuse : bool;
  mounts : bool;
}.

Abbreviation datadir_m := (method Rotate.datadir boot_error).

Section daemon.
Context `{Sha256, HexCrate, SerdeJson, JsonFloat, Ed25519, CapJson, ConfigText, RateLimit.HashOrder}.

(** The key: of the file, or a new one when there is no file. *)
Definition boot_key (w : boot_env) : datadir_m Ident.Keypair :=
  d ← self;
  match Rotate.load d with
  | Ok kp => mret kp
  | Err err =>
      if bool_decide (Rotate.meta_bin d = None)
      then Auth.method_map_err FatalInit (Rotate.init (seed w))
      else lift (Err (FatalMeta err))
  | Panic => lift Panic
  end.

Definition boot_store (dur : bool) (now : Z) : datadir_m Store :=
  d ← self;
  let '(dk, r) := open_durable dur now (Rotate.data_disk d) in
  _ ← update (Rotate.set_disk dk);
  lift (map_err FatalOpen r).

(** The admin capability is issued once and kept in the metadata. *)
Definition boot_admin (host : bytes) (kp : Ident.Keypair) (w : boot_env) (s : Store) : Store :=
  match meta_get s Rotate.ADMIN_CAP with
  | Some _ => s
  | None =>
      let cap := Caps.cap_sign (Caps.mkScope host Caps.L1 (bs "*") None) Caps.ADMIN None
                   (le_val (nonce w)) kp in
      meta_set Rotate.ADMIN_CAP (Caps.to_header cap) s
  end.

(** One line of the ledger; whatever does not parse is skipped. *)
Definition replay_line (revs : Caps.RevocationSet) (line : bytes) : Caps.RevocationSet :=
  let line := trim line in
  if bool_decide (line = []) then revs else
  match split_once TAB line with
  | Some (scope_s, to_s) =>
      match Caps.scope_parse scope_s, Ident.pk_from_str to_s with
      | Ok scope, Ok to => Caps.revoke_principal scope (Ident.pk_to_string to) revs
      | _, _ => revs
      end
  | None => revs
  end.

Definition load_revocations (s : Store) : Caps.RevocationSet :=
  match meta_get s REVOCATION_LEDGER with
  | Some v => fold_left replay_line (lines (from_utf8_lossy v)) Caps.no_revocations
  | None => Caps.no_revocations
  end.

Definition app_state (cfg : Config) (path : bytes) (file : option bytes) (kp : Ident.Keypair) (s : Store)
    : AppState :=
  let root := Ident.public kp in
  let rl := Config.ratelimit (Config.node cfg) in
  mkApp s root (Caps.mkKeyring root (Rotate.chain_of s)) kp (load_revocations s)
    (node_name (Config.node cfg)) (l3_default_quota (l3 (Config.node cfg))) (mesh_sync (Config.node cfg)) 0
    Auth.cap_cache_new Caps.token_cache_new 0 0
    (RateLimit.limiter_new (enabled rl) (max_requests rl) (window_secs rl)) cfg path file [].

(** The owner namespace of the root, when a mount was asked for. *)
Definition boot_mount (mount : bool) (w : boot_env) (s : AppState) : outcome boot_error AppState :=
  if negb mount then Ok s else
  _ ← guard_err (negb (dev_fuse w)) FatalNoFuse;
  let ns := bs "u/" ++ Ident.pk_to_string (root s) in
  s ← (match policy (store s) ns with
       | Some _ => Ok s
       | None => let '(st, o) := create_namespace ns PLww (store s) in
                 _ ← map_err FatalProvision o; Ok (with_store st s)
       end);
  _ ← guard_err (negb (mounts w)) FatalMount;
  Ok s.

(** [run], up to serving.  [path] is the configuration file, [file] what is
    in it. *)
Definition boot (cfg : Config) (path : bytes) (file : option bytes) (mount : bool) (w : boot_env)
    : datadir_m AppState :=
  kp ← boot_key w;
  s ← boot_store (durable_writes (Config.node cfg)) (boot_ms w);
  let s := boot_admin (node_name (Config.node cfg)) kp w s in
  lift (boot_mount mount w (app_state cfg path file kp s)).

(** ** While it runs *)

(** The checkpoint task, and the checkpoint on a signal. *)
Definition ckpt (s : AppState) : AppState := with_store (checkpoint (store s)) s.

(** The compaction task, when it is configured. *)
Definition gc (now : Z) (s : AppState) : AppState :=
  if 0 <? gc_interval_secs (Config.node (config s)) then with_store (gc_live now (store s)).1 s else s.

(** What happens to the shared state: a request, a batch of records or a clock
    estimate from the mesh, a checkpoint, a compaction. *)
Inductive event :=
| Request (e : env) (header : option bytes) (r : route)
| MeshRecords (ns : bytes) (l : list LogFormat.record)
| MeshClock (name : bytes) (diff : Z)
| Checkpoint
| Compact (now : Z).

Context (fields_text : list bytes -> bytes).

Definition happen (s : AppState) (ev : event) : AppState :=
  match ev with
  | Request e header r => (app fields_text e header r s).1
  | MeshRecords ns l => with_store (apply_synced_batch ns l (store s)).1 s
  | MeshClock name diff => with_store (set_peer_clock name diff (store s)) s
  | Checkpoint => ckpt s
  | Compact now => gc now s
  end.

Definition run (evs : list event) (s : AppState) : AppState := fold_left happen evs s.

End daemon.
End Daemon.
