(* ===== verification/DaemonSpec.v ===== *)
(** Restarts: a revocation takes effect at once and for good.  No request, no
    mesh record and no maintenance task changes the revocation ledger, except
    that a revocation appends to it, and a start reads back exactly the
    revocations that were in force. *)

From S2P Require Import Prelude Moves Crc32 LogFormat Log LogSpec Base64 Utf8 Text StoreTypes Store StoreSpec StoreFrame Snapshot SnapshotSpec Hlc Ident Json Schema SchemaSpec Config Caps CapsToy CapsSpec Rotate Auth AuthSpec RateLimit Query QuerySpec Server ServerDemo ServerSpec ServerFrame Daemon.
Import Utf8 Text Store StoreSpec StoreFrame Snapshot SnapshotSpec Json Config ConfigOps Server ServerSpec Daemon.

Module DaemonSpec.

Section spec.
Context `{Sha256, HexCrate, SerdeJson, JsonFloat, Ed25519, CapJson, !Caps.CapJsonLaws, ConfigText, RateLimit.HashOrder}.
Context (fields_text : list bytes -> bytes).

(** ** Stores *)

Definition ledger_of (st : Store) : option bytes := meta st !! REVOCATION_LEDGER.
Definition same_ledger (st st' : Store) : Prop := ledger_of st' = ledger_of st.
#[global] Instance same_ledger_preorder : PreOrder same_ledger.
Proof. split; [done|]. intros ? ? ? E1 E2. unfold same_ledger in *. congruence. Qed.

Lemma frames_ledger {A} mk n (m : store_m A) : REVOCATION_LEDGER ∉ mk -> frames mk n m -> always same_ledger m.
Proof. intros Hk Hm s. exact (frame_meta _ _ _ _ (Hm s) _ Hk). Qed.

(** The metadata of a namespace is not the ledger. *)
Lemma ledger_not_def n : REVOCATION_LEDGER ∉ def_keys n.
Proof. unfold def_keys. rewrite !not_elem_of_cons. split_and!; [done|done|apply not_elem_of_nil]. Qed.

Lemma frames_set_schema mk n v h r a : (bs "schema/" ++ n) ∈ mk -> frames mk n (set_schema n v h r a).
Proof.
  intros Hk. apply frames_bind; [apply frames_known|]. intros _.
  apply frames_bind; [apply frames_append_record|]. intros q.
  apply frames_bind; [apply frames_update; intros s; by apply frame_set_or_clear|]. intros _.
  apply frames_bind; [apply frames_update; intros s; apply frame_bump|]. intros _. apply frames_ret.
Qed.

Lemma create_ledger n p : always same_ledger (create_namespace n p).
Proof.
  intros s. pose proof (ServerFrame.create_elsewhere n p s) as Hc.
  apply (ServerFrame.el_meta _ _ _ Hc). unfold ServerFrame.ns_keys, Auth.quota_key.
  rewrite !not_elem_of_cons. split_and!; [done..|apply not_elem_of_nil].
Qed.

Lemma account_ledger n d limit : always same_ledger (Auth.account_write n d limit).
Proof.
  intros s. pose proof (ServerFrame.account_elsewhere n d limit s) as Hc.
  apply (ServerFrame.el_meta _ _ _ Hc). unfold ServerFrame.ns_keys, Auth.quota_key.
  rewrite !not_elem_of_cons. split_and!; [done..|apply not_elem_of_nil].
Qed.

Lemma ensure_ledger pr : always same_ledger (Auth.ensure_l3_namespace pr).
Proof.
  intros s. pose proof (ServerFrame.ensure_elsewhere pr _ eq_refl s) as Hc.
  apply (ServerFrame.el_meta _ _ _ Hc). unfold ServerFrame.ns_keys, Auth.quota_key.
  rewrite !not_elem_of_cons. split_and!; [done..|apply not_elem_of_nil].
Qed.

Lemma reapply_ledger n recs : always same_ledger (reapply n recs).
Proof.
  induction recs as [|[q b] recs IH]; intros s; [done|]. cbn [reapply].
  destruct (LogFormat.parse_chain b None) as [[r p]|x|]; [|apply IH|done].
  apply moves_bind; [apply _|apply (frames_ledger (def_keys n) n); [apply ledger_not_def|apply frames_apply_record]|].
  intros s1 _ _. apply IH.
Qed.

Lemma gc_ledger now : always same_ledger (gc_live now).
Proof.
  intros s. unfold gc_live. apply moves_self. apply moves_lift_bind; [apply _|]. intros _ _.
  apply moves_bind; [apply _| |intros s1 n _; apply moves_bind; [apply _|by apply moves_update|intros; apply moves_ret, _]].
  generalize 0. generalize ((namespaces s).*1). intros l. revert s.
  induction l as [|ns l IH]; intros s k; [done|]. cbn [gc_all]. apply moves_bind; [apply _| |intros s1 n _; apply IH].
  unfold gc_ns. apply moves_self. cbv zeta. apply moves_bind; [apply _| |intros; apply moves_self, moves_ret, _].
  destruct (live_records s ns now); [apply moves_ret, _|]. apply moves_bind; [apply _|by apply moves_update|]. intros s1 _ _.
  apply moves_lift_bind; [apply _|]. intros [[d L] w] _. apply moves_bind; [apply _|by apply moves_update|]. intros s2 _ _.
  apply moves_bind; [apply _|by apply moves_update|]. intros s3 _ _.
  apply moves_bind; [apply _|by apply moves_update|]. intros s4 _ _. apply moves_self. apply reapply_ledger.
Qed.

(** ** Requests *)

(** Neither the revocations nor their ledger have changed. *)
Definition unrevoked (s s' : AppState) : Prop :=
  same_ledger (store s) (store s') /\ revocations s' = revocations s.
#[global] Instance unrevoked_preorder : PreOrder unrevoked.
Proof. split; [by split|]. intros ? ? ? [A1 A2] [B1 B2]. split; [by etrans|congruence]. Qed.

Lemma on_store_unrevoked {A E} (m : method Store E A) : always same_ledger m -> always unrevoked (on_store m).
Proof. intros Hm s. specialize (Hm (store s)). unfold moves, on_store in *. by destruct (m (store s)). Qed.

Context (e : env).

Lemma auth_unrevoked caps sc p now : always unrevoked (auth_l1_l2 e caps sc p now).
Proof.
  intros s. unfold auth_l1_l2. apply moves_bind; [apply _|by apply moves_lift, _|]. intros s1 l _.
  apply moves_bind; [apply _|by apply moves_lift, _|]. intros s2 pr _. apply moves_self.
  destruct (Auth.authorize_cached _ _ _ _ _ _ _ _ _ _ _) as [c o].
  apply moves_bind; [apply _|by apply moves_update|]. intros s3 _ _.
  apply moves_bind; [apply _|by apply moves_lift, _|]. intros. apply moves_ret, _.
Qed.

Lemma admin_unrevoked caps : always unrevoked (admin e caps).
Proof. intros s. apply moves_self, auth_unrevoked. Qed.

Lemma data_auth_unrevoked caps ns key p : always unrevoked (data_auth e caps ns key p).
Proof.
  intros s. apply moves_self. cbv zeta. apply moves_bind; [apply _|apply auth_unrevoked|]. intros. apply moves_ret, _.
Qed.

Lemma needs_unrevoked ns : always unrevoked (needs_namespace ns).
Proof. intros s. by split. Qed.

Lemma committed_unrevoked ns s : unrevoked s (committed ns s).
Proof. unfold committed, notify_sync. by destruct (sync_tx s). Qed.

Ltac uv :=
  repeat first
    [ progress intros
    | progress cbv zeta
    | match goal with
      | |- moves _ _ (self ≫= _) => apply moves_self
      | |- moves _ _ (needs_namespace _ ≫= _) => apply moves_bind; [apply _|apply needs_unrevoked|]
      | |- moves _ _ (admin _ _ ≫= _) => apply moves_bind; [apply _|apply admin_unrevoked|]
      | |- moves _ _ (data_auth _ _ _ _ _ ≫= _) => apply moves_bind; [apply _|apply data_auth_unrevoked|]
      | |- moves _ _ (auth_l1_l2 _ _ _ _ _ ≫= _) => apply moves_bind; [apply _|apply auth_unrevoked|]
      | |- moves _ _ (on_store _ ≫= _) => apply moves_bind; [apply _|apply on_store_unrevoked|]
      | |- moves _ _ (needs_namespace _) => apply needs_unrevoked
      | |- moves _ _ (_ ≫= _) => apply moves_bind; [apply _| |]
      | |- moves _ _ (mret _) => apply moves_ret; apply _
      | |- moves _ _ (lift _) => apply moves_lift; apply _
      | |- moves _ _ (reply _) => apply moves_lift; apply _
      | |- moves _ _ (reply_if _ _) => apply moves_lift; apply _
      | |- moves _ _ (update (committed _)) => apply moves_update, committed_unrevoked
      | |- moves _ _ (update _) => apply moves_update; try reflexivity
      | |- moves same_ledger _ (create_namespace _ _) => apply create_ledger
      | |- moves same_ledger _ (Auth.account_write _ _ _) => apply account_ledger
      | |- moves same_ledger _ (Auth.ensure_l3_namespace _) => apply ensure_ledger
      | |- moves same_ledger _ (set_schema ?n _ _ _ _) =>
          apply (frames_ledger (def_keys n) n); [apply ledger_not_def|apply frames_set_schema; by left]
      | |- moves same_ledger _ (set_index ?n _ _ _ _) =>
          apply (frames_ledger (def_keys n) n); [apply ledger_not_def|apply frames_set_index; by right; left]
      | |- moves same_ledger _ (put ?n _ _ _ _ _ _) => apply (frames_ledger [] n); [apply not_elem_of_nil|apply frames_put]
      | |- moves same_ledger _ (delete ?n _ _ _ _) => apply (frames_ledger [] n); [apply not_elem_of_nil|apply frames_delete]
      | |- moves same_ledger _ (put_batch ?n _) =>
          apply (frames_ledger [] n); [apply not_elem_of_nil|apply ServerFrame.put_batch_frames]
      | |- moves _ _ (match ?x with _ => _ end) => destruct x eqn:?
      end ].

Lemma writable_unrevoked tier ns pr : always unrevoked (writable_namespace tier ns pr).
Proof. intros s. unfold writable_namespace. uv. Qed.

Lemma charge_unrevoked ns l res ap : always unrevoked (charge_ops ns l res ap).
Proof. revert res ap. induction l as [|[r [i sz]] l IH]; intros res ap s; cbn [charge_ops]; uv; apply IH. Qed.

Lemma bumps_unrevoked n s : unrevoked s (Nat.iter n bump_writes s).
Proof. induction n as [|n IH]; [done|]. cbn. etrans; [exact IH|done]. Qed.

Lemma ql_unrevoked caps ns expr : always unrevoked (run_ql fields_text e caps ns expr).
Proof.
  intros s. unfold run_ql. uv.
  match goal with E : Query.eval ?h ?f ?x ?c = (?q, _) |- _ =>
    destruct (QuerySpec.cf_eval h f ns x c eq_refl eq_refl) as (_ & _ & _ & _ & F); rewrite E in F end.
  split; [|done]. apply (frame_meta _ _ _ _ F). by rewrite list_elem_of_singleton.
Qed.

Lemma data_unrevoked caps ns r : always unrevoked (l2_handler fields_text e caps ns r).
Proof.
  intros s. destruct r as [q|key m q v|expr|text| |q| |q]; cbn [l2_handler]; [| |apply ql_unrevoked|..].
  - unfold l2_scan, handle_scan. uv.
  - unfold l2_data, handle_data. uv; unfold handle_get, handle_put, handle_delete; uv; try apply writable_unrevoked.
  - unfold l2_batch, handle_batch. uv; [|case_match; [|reflexivity]; unfold notify_sync; by destruct (sync_tx _)].
    unfold apply_batch. uv; [apply writable_unrevoked|apply charge_unrevoked|apply bumps_unrevoked].
  - unfold l2_head, handle_head. uv.
  - unfold l2_changes, handle_changes. uv.
  - unfold l2_conflicts, handle_conflicts. uv.
  - unfold l2_events, handle_events. uv.
Qed.

Lemma caps_ledger_unrevoked entry s : unrevoked s (append_ledger CAPS_LEDGER entry s).
Proof. split; [|done]. cbn. unfold same_ledger, ledger_of. cbn. by apply lookup_insert_ne. Qed.

Lemma save_unrevoked : always unrevoked (save_config e).
Proof. intros s. unfold moves, save_config. by destruct (save _ _ _ _). Qed.

(** The entry that a revocation appends. *)
Definition entry_line (x : Caps.Scope * Ident.PublicKey) : bytes :=
  Caps.to_url x.1 ++ [TAB] ++ Ident.pk_to_string x.2 ++ [NEWLINE].

Definition revoke_entry (revs : Caps.RevocationSet) (x : Caps.Scope * Ident.PublicKey) : Caps.RevocationSet :=
  Caps.revoke_principal x.1 (Ident.pk_to_string x.2) revs.

(** One more revocation, in force and on the ledger. *)
Definition revoked_by (x : Caps.Scope * Ident.PublicKey) (s s' : AppState) : Prop :=
  revocations s' = revoke_entry (revocations s) x
  /\ ledger_of (store s') = Some (default [] (from_utf8_lossy <$> ledger_of (store s)) ++ entry_line x).

Lemma route_unrevoked caps r s :
  unrevoked s (route_handler fields_text e caps r s).1
  \/ exists url to x, r = Revoke url to /\ Caps.scope_parse url = Ok x.1 /\ Ident.pk_from_str to = Ok x.2
      /\ revoked_by x s (route_handler fields_text e caps r s).1.
Proof.
  destruct r; cbn [route_handler];
    try (left; match goal with |- unrevoked ?x (?m ?x).1 => change (moves unrevoked x m) end;
    first [apply data_unrevoked|rewrite l3_is_l2; apply data_unrevoked
      |unfold l1_list_namespaces, l1_create_namespace, l1_schema_get, l1_schema_set, l1_schema_clear, l1_index_get,
         l1_index_set, l1_index_clear, l1_list_caps, l1_issue_cap, l1_peers_list, l1_peers_add, l1_peers_remove;
       uv; first [apply caps_ledger_unrevoked|apply save_unrevoked|done]]).
  pose proof (admin_unrevoked caps s) as Ha. unfold moves in Ha. unfold l1_revoke.
  destruct (admin e caps s) as [s1 [pr|x|]] eqn:Ea; cbn [fst] in Ha;
    [|left; unfold mbind, method_bind; by rewrite Ea..]. rewrite (method_bind_step _ _ _ _ _ Ea).
  destruct (Caps.scope_parse scope) as [sc|x|] eqn:Es; [|by left..].
  cbn [map_err]. rewrite (method_bind_step (lift (Ok sc)) _ s1 s1 sc eq_refl).
  destruct (Ident.pk_from_str to) as [pk|x|] eqn:Ep; [|by left..].
  cbn [map_err]. rewrite (method_bind_step (lift (Ok pk)) _ s1 s1 pk eq_refl). cbv zeta. right.
  rewrite !(method_bind_step (update _) _ _ _ tt eq_refl).
  exists scope, to, (sc, pk). split_and!; [done..|]. destruct Ha as [A1 A2]. split.
  - unfold revoke_entry. cbn. by rewrite <-A2.
  - unfold same_ledger in A1. rewrite <-A1. exact (lookup_insert_eq (meta (store s1)) REVOCATION_LEDGER _).
Qed.

Lemma mw_unrevoked header : always unrevoked (auth_mw e header).
Proof.
  assert (forall key now, always unrevoked (rate_limit key now)) as Hr.
  { intros key now s. unfold rate_limit. uv. unfold moves, rate_ok. by destruct (RateLimit.allow _ _ _). }
  intros s. unfold auth_mw. uv; try apply Hr; [by split|]. unfold header_cap. uv. by split.
Qed.

Lemma app_unrevoked header r s :
  unrevoked s (app fields_text e header r s).1
  \/ exists url to x, r = Revoke url to /\ Caps.scope_parse url = Ok x.1 /\ Ident.pk_from_str to = Ok x.2
      /\ revoked_by x s (app fields_text e header r s).1.
Proof.
  unfold app, mbind, method_bind. pose proof (mw_unrevoked header s) as Hm. unfold moves in Hm.
  destruct (auth_mw e header s) as [s1 [caps|x|]]; cbn [fst] in *; [|by left..].
  destruct (route_unrevoked caps r s1) as [Hu|(url & to & x & Hr & Hs & Hp & [Hv Hl])];
    destruct (route_handler fields_text e caps r s1) as [s2 o]; cbn [fst] in *; [left; by etrans|right].
  exists url, to, x. split_and!; [done..|]. destruct Hm as [M1 M2]. unfold same_ledger in M1.
  split; [by rewrite Hv, M2|by rewrite Hl, M1].
Qed.

End spec.

(** ** The ledger *)

Section ledger.
Context `{Sha256, HexCrate, SerdeJson, JsonFloat, Ed25519, CapJson, !Caps.CapJsonLaws, ConfigText, RateLimit.HashOrder}.

(** Entries whose URL is printable ASCII without blanks. *)
Definition plain_entry (x : Caps.Scope * Ident.PublicKey) : Prop :=
  CapsSpec.scope_wf x.1 /\ Forall (fun b => plain b = true) (Caps.to_url x.1) /\ length x.2 = 32%nat.

Lemma plain_not b c : plain b = true -> plain c = false -> b <> c.
Proof. congruence. Qed.

Lemma hex_plain_text l : Forall (fun b => plain b = true) (hex_encode l).
Proof.
  apply Forall_forall. intros b Hb. pose proof (hex_encode_digits l) as Hd. rewrite forallb_forall in Hd.
  apply list_elem_of_In in Hb. apply Hd in Hb. revert Hb. unfold is_lower_hex, plain, in_range.
  rewrite !orb_true_iff, !andb_true_iff, !Z.leb_le. lia.
Qed.

Lemma plain_notin c l : plain c = false -> Forall (fun b => plain b = true) l -> c ∉ l.
Proof. intros Hc Hl Hin. rewrite Forall_forall in Hl. specialize (Hl c Hin). congruence. Qed.

(** Trimming keeps what neither starts nor ends with white space. *)
Lemma trim_ends l b c : plain b = true -> plain c = true -> List.hd_error l = Some b -> last l = Some c -> trim l = l.
Proof.
  intros Hb Hc Eb Ec. assert (trim_start l = l) as Hs.
  { apply strip_front_id; [|vm_decide]. intros w x Hw Hx. apply white_space_heads; [done|].
    destruct l; simplify_eq/=. done. }
  unfold trim. rewrite Hs. unfold trim_end. rewrite strip_front_id, reverse_involutive; [done| |vm_decide].
  intros w x Hw Hx. apply white_space_ends; [done|]. rewrite <-head_reverse in Ec. congruence.
Qed.

Definition entry_text (x : Caps.Scope * Ident.PublicKey) : bytes := Caps.to_url x.1 ++ [TAB] ++ Ident.pk_to_string x.2.

Lemma entry_line_text x : entry_line x = entry_text x ++ [NEWLINE].
Proof. unfold entry_line, entry_text. by rewrite <-!app_assoc. Qed.

Lemma entry_hex x : plain_entry x -> exists a c, Ident.pk_to_string x.2 = a ++ [c] /\ plain c = true.
Proof.
  intros (_ & _ & Hl). unfold Ident.pk_to_string. pose proof (hex_plain_text x.2) as Hp.
  destruct (hex_encode x.2) as [|c a _] eqn:E using rev_ind.
  - pose proof (hex_encode_length x.2) as Hn. rewrite E in Hn. cbn in Hn. lia.
  - exists a, c. split; [done|]. by apply Forall_app in Hp as [_ [? _]%Forall_cons].
Qed.

Lemma replay_entry revs x : plain_entry x -> replay_line revs (entry_text x) = revoke_entry revs x.
Proof.
  intros Hx. pose proof Hx as (Hwf & Hu & Hl). destruct (entry_hex x Hx) as (a & c & Eh & Hc).
  assert (exists u, Caps.to_url x.1 = bs "b" ++ u) as [u Eu] by (unfold Caps.to_url; by eexists).
  assert (trim (entry_text x) = entry_text x) as Et.
  { apply (trim_ends _ Byte.x62 c); [done|done|unfold entry_text; by rewrite Eu|].
    unfold entry_text. rewrite Eh, app_assoc, app_assoc, last_snoc. done. }
  unfold replay_line. rewrite Et. rewrite bool_decide_eq_false_2 by (unfold entry_text; by rewrite Eu).
  unfold entry_text. cbn [List.app]. rewrite split_once_app by (apply plain_notin; done).
  rewrite CapsSpec.scope_parse_to_url by done. rewrite Ident.pk_roundtrip by done. done.
Qed.

Lemma entry_newline x : plain_entry x -> NEWLINE ∉ entry_text x /\ CARRIAGE_RETURN ∉ entry_text x.
Proof.
  intros (_ & Hu & _). pose proof (hex_plain_text x.2) as Hp. unfold entry_text, Ident.pk_to_string.
  rewrite !elem_of_app, !list_elem_of_singleton.
  split; intros [Hin|[Hin|Hin]]; try done; by apply plain_notin in Hin.
Qed.

Lemma replay_entries entries revs : Forall plain_entry entries ->
  fold_left replay_line (lines (mjoin (entry_line <$> entries))) revs = fold_left revoke_entry entries revs.
Proof.
  intros Hf. revert revs. induction Hf as [|x entries Hx Hf IH]; intros revs; [done|].
  rewrite fmap_cons, mjoin_cons, entry_line_text, <-app_assoc. cbn [List.app]. destruct (entry_newline x Hx) as [Hn Hr].
  rewrite lines_cons, strip_cr_id by done. cbn [fold_left]. rewrite replay_entry by done. apply IH.
Qed.

Lemma ledger_utf8 entries : Forall plain_entry entries -> utf8_valid (mjoin (entry_line <$> entries)) = true.
Proof.
  intros Hf. apply utf8_valid_ascii. induction Hf as [|x entries (_ & Hu & _) Hf IH]; [constructor|].
  rewrite fmap_cons, mjoin_cons. apply Forall_app. split; [|done]. unfold entry_line, Ident.pk_to_string.
  assert (forall b, plain b = true -> b2z b < 128) as Hp
    by (intros b; unfold plain, in_range; rewrite andb_true_iff, !Z.leb_le; lia).
  rewrite !Forall_app, !Forall_singleton. split_and!; try done;
    (eapply Forall_impl; [|exact Hp]); [done|apply hex_plain_text].
Qed.

(** The ledger lists the revocations in force. *)
Definition ledger_ok (s : AppState) : Prop :=
  exists entries, Forall plain_entry entries
    /\ default [] (ledger_of (store s)) = mjoin (entry_line <$> entries)
    /\ revocations s = fold_left revoke_entry entries Caps.no_revocations.

Lemma ledger_loads s st : ledger_ok s -> ledger_of st = ledger_of (store s) -> load_revocations st = revocations s.
Proof.
  intros (entries & Hf & El & Er) E. unfold load_revocations, meta_get. fold (ledger_of st). rewrite E, Er.
  destruct (ledger_of (store s)) as [v|]; cbn in El.
  - subst v. rewrite from_utf8_lossy_valid by (by apply ledger_utf8). by apply replay_entries.
  - destruct entries as [|x entries]; [done|]. exfalso. rewrite fmap_cons, mjoin_cons in El.
    unfold entry_line in El. by destruct (Caps.to_url x.1).
Qed.

Lemma unrevoked_ledger s s' : unrevoked s s' -> ledger_ok s -> ledger_ok s'.
Proof. intros [E1 E2] (entries & Hf & El & Er). exists entries. unfold same_ledger in E1. rewrite E1, E2. done. Qed.

Lemma revoked_ledger x s s' : plain_entry x -> revoked_by x s s' -> ledger_ok s -> ledger_ok s'.
Proof.
  intros Hx [E1 E2] (entries & Hf & El & Er). exists (entries ++ [x]). split_and!.
  - apply Forall_app. by split; [|constructor].
  - rewrite E2, fmap_app, LogSpec.mjoin_app. cbn [fmap list_fmap]. rewrite mjoin_cons, app_nil_r.
    cbn [default from_option id]. f_equal.
    destruct (ledger_of (store s)) as [v|]; cbn in *; [|done]. subst v. apply from_utf8_lossy_valid. by apply ledger_utf8.
  - by rewrite E1, Er, fold_left_app.
Qed.

(** ** Runs and restarts *)

Context (fields_text : list bytes -> bytes).

(** Revocations are asked for with plain URLs. *)
Definition plain_event (ev : event) : Prop :=
  match ev with Request _ _ (Revoke url _) => Forall (fun b => plain b = true) url | _ => True end.

(** A state whose store can be reopened after a checkpoint. *)
Record restartable (s : AppState) : Prop := {
  rt_ok : store_ok (store s);
  rt_snap : snap_ok (store s);
  rt_tidy : tidy (store s);
  rt_created : is_Some (meta (store s) !! CREATED_MS);
}.

(** The header an event sends. *)
Definition event_headers (ev : event) : list bytes :=
  match ev with Request _ header _ => option_list header | _ => [] end.

(** From one state to a later one, through events and through restarts on the
    directory of a last checkpoint; the list holds the headers that were sent. *)
Inductive reaches : list bytes -> AppState -> AppState -> Prop :=
| ReachRefl s : reaches [] s s
| ReachEvent hs s s1 ev : reaches hs s s1 -> plain_event ev -> rev_epoch s1 + 1 < 2 ^ 64 ->
    reaches (event_headers ev ++ hs) s (happen fields_text s1 ev)
| ReachRestart hs s s1 d d' cfg path file mount w s2 : reaches hs s s1 -> restartable s1 ->
    durable_writes (Config.node cfg) = durable (store s1) ->
    Rotate.data_disk d = sdisk (checkpoint (store s1)) ->
    boot cfg path file mount w d = (d', Ok s2) -> reaches hs s s2.

Lemma happen_ledger s ev : plain_event ev -> ledger_ok s ->
  ledger_ok (happen fields_text s ev) /\ Caps.by_principal (revocations s) ⊆ Caps.by_principal (revocations (happen fields_text s ev)).
Proof.
  intros Hp Hl. assert (forall s', unrevoked s s' ->
    ledger_ok s' /\ Caps.by_principal (revocations s) ⊆ Caps.by_principal (revocations s')) as Hu.
  { intros s' Hu. split; [by apply (unrevoked_ledger s)|]. destruct Hu as [_ ->]. done. }
  destruct ev as [e header r|ns l|name diff| |now]; cbn [happen].
  - destruct (app_unrevoked fields_text e header r s) as [|(url & to & x & -> & Hs & Hk & Hr)]; [by apply Hu|].
    assert (plain_entry x) as Hx.
    { apply CapsSpec.scope_parse_inv in Hs as [Hwf Eu]. apply Ident.pk_from_str_length in Hk.
      split_and!; [done| |done]. by rewrite Eu. }
    split; [by eapply revoked_ledger|]. destruct Hr as [-> _]. cbn. set_solver.
  - apply Hu. split; [|done]. apply (frames_ledger (def_keys ns) ns (apply_synced_batch ns l));
      [apply ledger_not_def|apply frames_apply_synced_batch].
  - by apply Hu.
  - by apply Hu.
  - apply Hu. unfold gc. destruct (0 <? _); [|done]. split; [|done]. apply gc_ledger.
Qed.

(** A start reads back the revocations of the state that was checkpointed. *)
Lemma boot_revocations s cfg path file mount w d d' s' : ledger_ok s -> restartable s ->
  durable_writes (Config.node cfg) = durable (store s) ->
  Rotate.data_disk d = sdisk (checkpoint (store s)) ->
  boot cfg path file mount w d = (d', Ok s') ->
  revocations s' = revocations s /\ ledger_ok s' /\ rev_epoch s' = 0
  /\ cap_cache s' = Auth.cap_cache_new /\ token_cache s' = Caps.token_cache_new.
Proof.
  intros Hl [R1 R2 R3 R4] Ed Edk Eb. unfold boot in Eb.
  apply method_bind_ok in Eb as (d1 & kp & Ek & Eb). apply method_bind_ok in Eb as (d2 & st & Es & Eb).
  assert (Rotate.data_disk d1 = Rotate.data_disk d) as Ed1.
  { revert Ek. unfold boot_key. rewrite (method_bind_step self _ d d d eq_refl).
    destruct (Rotate.load d) as [k|x|]; [by intros [= <- _]| |done]. case_bool_decide; [|done].
    unfold Auth.method_map_err, Rotate.init, mbind, method_bind, self, lift. cbn.
    destruct (guard_err _ _) as [[]| |]; [|by intros [= <- _]..]. unfold Rotate.on_disk.
    destruct (Rotate.writes_left d); by intros [= <- _]. }
  assert (meta st = meta (store s)) as Em.
  { revert Es. unfold boot_store. rewrite (method_bind_step self _ d1 d1 d1 eq_refl), Ed1, Edk, Ed.
    destruct (reopen_run (store s) (boot_ms w) R1 R2 R3 R4) as (st' & -> & _ & _ & _ & _ & _ & Em & _).
    rewrite (method_bind_step (update _) _ _ _ tt eq_refl). cbn. by intros [= _ <-]. }
  cbv zeta in Eb. injection Eb as <- Eb. set (host := node_name (Config.node cfg)) in *.
  assert (ledger_of (boot_admin host kp w st) = ledger_of (store s)) as Elg.
  { unfold boot_admin, meta_get, ledger_of. rewrite Em. destruct (meta (store s) !! Rotate.ADMIN_CAP); [by rewrite Em|].
    cbn. rewrite Em. by apply lookup_insert_ne. }
  set (s1 := app_state cfg path file kp (boot_admin host kp w st)) in *.
  assert (revocations s1 = revocations s) as Er1 by (by apply ledger_loads).
  assert (unrevoked s1 s' /\ rev_epoch s' = 0 /\ cap_cache s' = Auth.cap_cache_new
    /\ token_cache s' = Caps.token_cache_new) as (Hu & He & Hc & Ht).
  { revert Eb. unfold boot_mount. destruct mount; [|by intros [= <-]]. cbn [negb].
    destruct (dev_fuse w); [|done]. cbn [negb guard_err mbind outcome_bind].
    destruct (policy (store s1) _); [|pose proof (create_ledger (bs "u/" ++ Ident.pk_to_string (root s1)) PLww (store s1)) as Hcr;
      unfold moves in Hcr; destruct (create_namespace _ PLww (store s1)) as [st2 [[]|x|]]]; try done;
      cbn [map_err mbind outcome_bind]; (destruct (mounts w); [|done]); cbn [negb guard_err mbind outcome_bind];
      intros [= <-]; done. }
  split_and!; [destruct Hu as [_ ->]; done| |done..].
  apply (unrevoked_ledger s1 s' Hu). destruct Hl as (entries & Hf & El & Er). exists entries.
  split_and!; [done| |by rewrite Er1]. rewrite <-El. f_equal. exact Elg.
Qed.

(** ** A revocation is final *)

Lemma fresh_app_ok seen s : rev_epoch s = 0 -> cap_cache s = Auth.cap_cache_new -> token_cache s = Caps.token_cache_new ->
  app_ok seen s.
Proof.
  intros E1 E2 E3. split; [by rewrite E3|rewrite E2|by rewrite E1].
  intros b key ep E. destruct (lookup_empty_Some (M := gmap bytes) key ep E).
Qed.

Section sent.
Context (seen : list bytes) (Hsep : LogSpec.separates (hashed seen)).

Lemma happen_ok s ev : app_ok seen s -> event_headers ev ⊆ seen -> rev_epoch s + 1 < 2 ^ 64 ->
  app_ok seen (happen fields_text s ev).
Proof.
  intros Hok Hin Hb. destruct ev as [e header r|ns l|name diff| |now]; cbn [happen].
  - pose proof (app_protected fields_text seen Hsep e header r s Hok Hin Hb) as Hp. destruct (app _ _ _ _ _) as [s' resp].
    destruct (required (host_name s) r) as [sc p]. apply Hp.
  - by apply (app_ok_same seen s).
  - by apply (app_ok_same seen s).
  - by apply (app_ok_same seen s).
  - apply (app_ok_same seen s); [|done]. unfold gc. by destruct (0 <? _).
Qed.

Lemma reaches_keeps hs s s' : reaches hs s s' -> hs ⊆ seen -> app_ok seen s -> ledger_ok s ->
  app_ok seen s' /\ ledger_ok s' /\ Caps.by_principal (revocations s) ⊆ Caps.by_principal (revocations s').
Proof.
  induction 1 as [s|hs s s1 ev _ IH Hp Hb|hs s s1 d d' cfg path file mount w s2 _ IH Hrt Ed Edk Eb]; intros Hin Hok Hl.
  - by split_and!.
  - destruct (IH ltac:(set_solver) Hok Hl) as (Hok1 & Hl1 & Hsub).
    destruct (happen_ledger s1 ev Hp Hl1) as [Hl2 Hsub2].
    split_and!; [apply happen_ok; [done|set_solver|done]|done|]. by etrans.
  - destruct (IH Hin Hok Hl) as (Hok1 & Hl1 & Hsub).
    destruct (boot_revocations s1 cfg path file mount w d d' s2 Hl1 Hrt Ed Edk Eb) as (Er & Hl2 & E1 & E2 & E3).
    split_and!; [by apply fresh_app_ok|done|by rewrite Er].
Qed.

(** A revocation that was answered as done is in force. *)
Lemma admin_refuses e caps s : match (admin e caps s).2 with Ok _ => True | Err x => 400 <= status x | Panic => False end.
Proof.
  unfold admin, auth_l1_l2, mbind, method_bind, self, lift, update. destruct caps as [l|]; cbn [ok_or]; [|done].
  destruct (Caps.subject <$> List.hd_error l) as [pr|]; cbn [ok_or]; [|done].
  pose proof (AuthSpec.authorize_settles (l1_scope s) pr Caps.ADMIN l (keyring s) (revocations s)
    (host_name s) (wall e 1) (cap_busy e) (rev_epoch s) (Some (cap_cache s))) as Hst.
  destruct (Auth.authorize_cached _ _ _ _ _ _ _ _ _ _ _) as [cache [[]|x|]]; cbn in *; [done| |done]. by destruct x.
Qed.

Lemma revoke_done e caps url to s s' x sc pk : l1_revoke e caps url to s = (s', x) ->
  (forall y, x = Ok y \/ x = Err y -> status y = 200) -> x <> Panic ->
  Caps.scope_parse url = Ok sc -> Ident.pk_from_str to = Ok pk ->
  (Caps.to_url sc, Ident.pk_to_string pk) ∈ Caps.by_principal (revocations s').
Proof.
  unfold l1_revoke. intros E Hx Hnp Es Ep. pose proof (admin_refuses e caps s) as Ha.
  destruct (admin e caps s) as [s1 [pr|y|]] eqn:Ea; cbn [snd] in Ha; [| |done].
  - rewrite (method_bind_step _ _ _ _ _ Ea), Es, Ep in E. cbn [map_err] in E.
    rewrite (method_bind_step (lift (Ok sc)) _ s1 s1 sc eq_refl), (method_bind_step (lift (Ok pk)) _ s1 s1 pk eq_refl) in E.
    cbv zeta in E. rewrite !(method_bind_step (update _) _ _ _ tt eq_refl) in E. injection E as <- _. cbn. set_solver.
  - unfold mbind, method_bind in E. rewrite Ea in E. injection E as <- <-. specialize (Hx y (or_intror eq_refl)). lia.
Qed.

Lemma revoke_accepted e h url to s s' x sc pk : app_ok seen s -> option_list h ⊆ seen ->
  app fields_text e h (Revoke url to) s = (s', Some x) -> status x = 200 ->
  Caps.scope_parse url = Ok sc -> Ident.pk_from_str to = Ok pk ->
  (Caps.to_url sc, Ident.pk_to_string pk) ∈ Caps.by_principal (revocations s').
Proof.
  intros Hok Hin E Hx Hsc Hpk. destruct (auth_mw_run seen Hsep e h s Hok Hin) as (sm & o & Em & _ & _ & Ho).
  unfold app, mbind, method_bind in E. rewrite Em in E.
  destruct o as [caps|y|]; [|injection E as _ <-; cbn in Ho; lia|done].
  cbn [route_handler] in E. destruct (l1_revoke e caps url to sm) as [s1 o] eqn:El.
  destruct o as [y|y|]; injection E as -> Ey; try done; subst y;
    (eapply revoke_done; [exact El| |done|done|done]); intros y [[= <-]|[= <-]]; done.
Qed.
End sent.

(** What is revoked does not verify. *)
Lemma revoked_never_verifies c kr revs now :
  (Caps.to_url (Caps.scope c), Ident.pk_to_string (Caps.subject c)) ∈ Caps.by_principal revs ->
  Caps.verify c kr (Caps.subject c) revs now <> Ok tt.
Proof.
  intros Hin. unfold Caps.verify, Caps.is_revoked. rewrite (bool_decide_eq_true_2 _ Hin). cbn [orb].
  destruct (Caps.check_sig c kr); [|done..]. cbn [mbind outcome_bind].
  destruct (guard_err _ Caps.Malformed); [|done..]. cbn [mbind outcome_bind].
  by destruct (Caps.check_expiry c now).
Qed.

(** C11: a revocation is final.  Once a revocation has been answered with success,
    every later request that presents a capability of that scope and subject is
    refused and changes nothing, whatever caches held, whatever requests, mesh
    records, checkpoints and compactions came in between, and across restarts on
    the directory of a last checkpoint.  Revocations, this one and those in
    between, are asked for with URLs of printable ASCII without blanks (one with a
    tab may be lost, [revocation_with_tab_forgotten]), and the epoch counter does
    not wrap.  The hash function is assumed to tell apart the headers that were sent, those of
    [seen] before the revocation and those of [hs] after it, and the texts of the
    capabilities in them. *)
Theorem revocation_is_final seen hs e0 h0 url to s s0 x s1 e h c r :
  app_ok seen s -> ledger_ok s -> rev_epoch s + 1 < 2 ^ 64 -> Forall (fun b => plain b = true) url ->
  app fields_text e0 h0 (Revoke url to) s = (s0, Some x) -> status x = 200 ->
  reaches hs s0 s1 -> rev_epoch s1 + 1 < 2 ^ 64 -> parse_cap_header h = Some c ->
  Caps.scope_parse url = Ok (Caps.scope c) -> Ident.pk_from_str to = Ok (Caps.subject c) ->
  LogSpec.separates (hashed (h :: hs ++ option_list h0 ++ seen)) ->
  let '(s2, resp) := app fields_text e (Some h) r s1 in
  durable_part s2 = durable_part s1 /\ exists y, resp = Some y /\ 400 <= status y.
Proof.
  intros Hok Hl Hb Hplain Erev Hx Hreach Hb1 Hc Hsc Hpk Hsep.
  set (all := h :: hs ++ option_list h0 ++ seen) in *. set (ev := Request e0 h0 (Revoke url to)).
  assert (app_ok all s) as Hoka by (apply (app_ok_mono seen); [subst all; set_solver|done]).
  assert (option_list h0 ⊆ all /\ hs ⊆ all /\ option_list (Some h) ⊆ all) as (Hi0 & His & Hih)
    by (subst all; cbn; set_solver).
  assert (happen fields_text s ev = s0) as Es0 by (cbn; by rewrite Erev).
  pose proof (revoke_accepted all Hsep e0 h0 url to s s0 x _ _ Hoka Hi0 Erev Hx Hsc Hpk) as Hin.
  pose proof (happen_ok all Hsep s ev Hoka Hi0 Hb) as Hok0. rewrite Es0 in Hok0.
  destruct (happen_ledger s ev Hplain Hl) as [Hl0 _]. rewrite Es0 in Hl0.
  destruct (reaches_keeps all Hsep hs s0 s1 Hreach His Hok0 Hl0) as (Hok1 & _ & Hsub).
  pose proof (app_protected fields_text all Hsep e (Some h) r s1 Hok1 Hih Hb1) as Hp.
  destruct (app fields_text e (Some h) r s1) as [s2 resp]. destruct (required (host_name s1) r) as [sc p].
  destruct Hp as (_ & _ & [Href|(h' & c' & [= <-] & Hc' & Hv & _)]); [done|].
  assert (c' = c) as -> by congruence. by destruct (revoked_never_verifies c _ _ _ (Hsub _ Hin) Hv).
Qed.

End ledger.

(** ** Witness *)

#[local] Existing Instances toy_sha256 hex_plain toy_ed25519 CapsToy.toy_cap_json toy_config_text.
#[local] Existing Instances SchemaSpec.decimal_floats RateLimit.plain_order ServerDemo.demo_json.
Import ServerDemo.

(** The root may administer the node. *)
Definition admin_cap : Caps.Capability :=
  Caps.cap_sign (Caps.mkScope host Caps.L1 (bs "*") None) Caps.ADMIN None 7 root_kp.
Definition revoke_alice : route := Revoke (Caps.to_url app_scope) (Ident.pk_to_string alice).

Lemma demo_ledger_ok : ledger_ok demo_app.
Proof. exists []. by split_and!. Qed.

(** Alice's request was served, so both caches hold her capability. *)
Definition put_event : event := Request demo_env (Some (bearer app_cap)) put_k.
Definition asked : AppState := happen mjoin demo_app put_event.

Lemma asked_ok : app_ok [bearer app_cap] asked.
Proof.
  apply (happen_ok mjoin [bearer app_cap] ltac:(vm_decide) demo_app put_event);
    [apply (app_ok_mono []); [set_solver|exact demo_app_ok]|intros x Hx; exact Hx|reflexivity].
Qed.

Lemma asked_ledger_ok : ledger_ok asked.
Proof. exact (proj1 (happen_ledger mjoin demo_app put_event I demo_ledger_ok)). Qed.

Lemma asked_epoch : rev_epoch asked = 0.
Proof. by vm_compute. Qed.

(** The request is granted before the revocation, and refused after it and after
    another request. *)
Lemma revocation_is_final_witness :
  let s0 := (app mjoin demo_env (Some (bearer admin_cap)) revoke_alice asked).1 in
  let s1 := happen mjoin s0 put_event in
  (status <$> (app mjoin demo_env (Some (bearer app_cap)) put_k asked).2 = Some 200)
  /\ let '(s2, resp) := app mjoin demo_env (Some (bearer app_cap)) put_k s1 in
     durable_part s2 = durable_part s1 /\ exists y, resp = Some y /\ 400 <= status y.
Proof.
  cbv zeta. split; [by vm_compute|].
  assert ((status <$> (app mjoin demo_env (Some (bearer admin_cap)) revoke_alice asked).2) = Some 200
    /\ rev_epoch (app mjoin demo_env (Some (bearer admin_cap)) revoke_alice asked).1 = 1
    /\ rev_epoch (happen mjoin (app mjoin demo_env (Some (bearer admin_cap)) revoke_alice asked).1 put_event) = 1)
    as (Ex & Ee & Ee1) by (by vm_compute).
  destruct (app mjoin demo_env (Some (bearer admin_cap)) revoke_alice asked) as [s0 [x|]] eqn:E; [|done].
  cbn [fst snd] in *. injection Ex as Ex.
  pose proof (ReachEvent mjoin [] s0 s0 put_event (ReachRefl mjoin s0) I ltac:(by rewrite Ee)) as Hreach.
  apply (revocation_is_final mjoin [bearer app_cap] _ demo_env (Some (bearer admin_cap))
    (Caps.to_url app_scope) (Ident.pk_to_string alice) asked s0 x _ demo_env (bearer app_cap) app_cap put_k
    asked_ok asked_ledger_ok ltac:(by rewrite asked_epoch) ltac:(by apply (bool_decide_unpack _); vm_compute) E Ex Hreach);
    [by rewrite Ee1|by vm_compute|by vm_compute|by vm_compute|vm_decide].
Defined.

(** A scope whose prefix has a tab. *)
Definition tab_scope : Caps.Scope := Caps.mkScope host Caps.L2 (bs "app") (Some (bs "x" ++ [TAB] ++ bs "y")).

(** Its revocation is in force until the daemon restarts: the line of the ledger
    is split at the first tab, and what is left of the scope is another one. *)
Theorem revocation_with_tab_forgotten :
  let s := (app mjoin demo_env (Some (bearer admin_cap)) (Revoke (Caps.to_url tab_scope) (Ident.pk_to_string alice)) demo_app).1 in
  Caps.is_revoked (revocations s) tab_scope (Ident.pk_to_string alice) 1 = true
  /\ Caps.is_revoked (load_revocations (store s)) tab_scope (Ident.pk_to_string alice) 1 = false.
Proof. by vm_compute. Qed.

End DaemonSpec.
