(* ===== verification/DaemonGaps.v ===== *)
(** What a killed daemon forgets: the metadata of the store is written by
    checkpoints only, so what a request answered between two of them may be
    undone by a crash, although the records themselves are in the logs. *)

From S2P Require Import Prelude Moves Crc32 LogFormat Log LogSpec Base64 Utf8 Text StoreTypes Store StoreSpec StoreFrame Snapshot SnapshotSpec Hlc Ident Json Schema SchemaSpec Config Caps CapsToy CapsSpec Rotate Auth AuthSpec RateLimit Query QuerySpec Server ServerDemo ServerSpec ServerFrame ServerBatch Daemon DaemonSpec.
Import Utf8 Text Store StoreSpec StoreFrame Snapshot SnapshotSpec Json Config ConfigOps Server ServerSpec Daemon DaemonSpec.

Module DaemonGaps.

(** ** Requests that write nothing *)

Section gaps.
Context `{Sha256, HexCrate, SerdeJson, JsonFloat, Ed25519, CapJson, ConfigText, RateLimit.HashOrder}.
Context (fields_text : list bytes -> bytes) (e : env).

Definition same_disk (s s' : AppState) : Prop := sdisk (store s') = sdisk (store s).
#[global] Instance same_disk_preorder : PreOrder same_disk.
Proof. split; [by intros ?|intros a b c; unfold same_disk; by intros -> ->]. Qed.

Ltac keep :=
  repeat first
    [ progress intros
    | progress cbv zeta
    | match goal with
      | |- moves _ _ (self ≫= _) => apply moves_self
      | |- moves _ _ (admin _ _ ≫= _) => apply moves_bind; [apply _| |]
      | |- moves _ _ (_ ≫= _) => apply moves_bind; [apply _| |]
      | |- moves _ _ (mret _) => apply moves_ret; apply _
      | |- moves _ _ (lift _) => apply moves_lift; apply _
      | |- moves _ _ (update _) => apply moves_update; reflexivity
      | |- moves _ _ (let '(_, _) := ?x in _) => destruct x eqn:?
      end ].

Lemma admin_same_disk caps : always same_disk (admin e caps).
Proof. intros s. unfold admin, auth_l1_l2. keep. Qed.

(** A revocation and the issue of a capability change the metadata in memory;
    neither writes a byte to the data directory. *)
Theorem revocation_not_written caps url to : always same_disk (l1_revoke e caps url to).
Proof. intros s. unfold l1_revoke. keep; apply admin_same_disk. Qed.

Theorem issue_not_written caps url perms expiry to : always same_disk (l1_issue_cap e caps url perms expiry to).
Proof. intros s. unfold l1_issue_cap. keep; try apply admin_same_disk. Qed.

End gaps.

(** ** A node that runs *)

#[local] Existing Instances toy_sha256 hex_plain toy_ed25519 CapsToy.toy_cap_json toy_config_text.
#[local] Existing Instances SchemaSpec.decimal_floats RateLimit.plain_order ServerDemo.demo_json.
Import ServerDemo.

Definition start_env : boot_env := mkBoot [] (replicate 8 Byte.x01) 1700000000000 true true.
Definition demo_cfg : Config :=
  mkConfig (mkNode host (bs "d") [] [] 1 false 1 false 0 (mkRatelimit true 600 60) None (l3 node_default)) [].

(** The directory of a node that was checkpointed, and what a daemon that is
    killed in state [s] leaves of it. *)
Definition node_dir : Rotate.datadir :=
  Rotate.mkData (Some (Rotate.meta_bytes root_kp)) None (sdisk (checkpoint demo_store)) 9.
Definition killed (s : AppState) : Rotate.datadir := Rotate.set_disk (sdisk (store s)) node_dir.
Definition started (d : Rotate.datadir) : AppState :=
  match (boot demo_cfg (bs "c") None false start_env d).2 with Ok s => s | _ => demo_app end.

Abbreviation request c r s := (app mjoin demo_env (Some (bearer c)) r s).

(** The daemon answers a revocation with success and refuses the capability;
    it is killed before the next checkpoint, started again, and the capability
    is accepted. *)
Theorem crash_forgets_revocation :
  let s := started node_dir in
  let '(s1, x) := request admin_cap revoke_alice s in
  status <$> x = Some 200
  /\ status <$> (request app_cap put_k s1).2 = Some 403
  /\ status <$> (request app_cap put_k (started (killed s1))).2 = Some 200.
Proof. by vm_compute. Qed.

(** A write that is charged to the quota survives the crash, its charge does
    not. *)
Theorem crash_forgets_charge :
  let s := started node_dir in
  let '(s1, x) := request app_cap put_k s in
  let s2 := started (killed s1) in
  status <$> x = Some 200
  /\ 0 < Auth.bytes_written (store s1) (bs "app")
  /\ is_Some (get (store s2) (bs "app") (bs "k"))
  /\ Auth.bytes_written (store s2) (bs "app") = 0.
Proof. vm_compute. split_and!; [done..|by eexists|done]. Qed.

End DaemonGaps.
