(* ===== verification/Fs.v ===== *)
(** The file system of [src/fs/mod.rs]: the keys below [fs/] of the owner
    namespace as a tree, served to the kernel as one callback per request.
    Directories are derived from the keys; a handle opened for writing buffers
    the whole file until it is flushed. *)

From S2P Require Import Prelude Crc32 LogFormat Log Utf8 StoreTypes Store.
Import Store.

(** The order in which the inode table, a [HashMap], is walked. *)
Class InoOrder := {
  ino_iter : gmap Z bytes -> list (Z * bytes);
  ino_iter_perm m : ino_iter m ≡ₚ map_to_list m;
}.

#[program] Definition plain_inos : InoOrder := {| ino_iter m := map_to_list m |}.
Next Obligation. done. Qed.

Module Fs.

Definition ROOT_INO : Z := 1.
Definition INO_CAP : Z := 100000.
Definition INO_EVICT_TO : Z := INO_CAP / 2.
Definition SLASH : byte := Byte.x2f.

(** [libc] on Linux. *)
Definition O_TRUNC : Z := 512.
Definition O_APPEND : Z := 1024.

Inductive Errno := EIO | ENOENT | ENOSYS | EACCES | ENOSPC.
#[global] Instance Errno_eq_dec : EqDecision Errno.
Proof. solve_decision. Defined.

Record Handle := mkHandle { ino : Z; data : bytes; dirty : bool; append : bool }.

Record MeshFs := mkFs {
  store : Store;
  ns : bytes;
  owner_uid : Z;
  ino_map : gmap Z bytes;
  next_ino : Z;
  bufs : gmap Z Handle;
  next_fh : Z;
}.

Definition with_store (st : Store) (f : MeshFs) : MeshFs :=
  mkFs st (ns f) (owner_uid f) (ino_map f) (next_ino f) (bufs f) (next_fh f).
Definition with_inos (m : gmap Z bytes) (next : Z) (f : MeshFs) : MeshFs :=
  mkFs (store f) (ns f) (owner_uid f) m next (bufs f) (next_fh f).
Definition with_bufs (b : gmap Z Handle) (next : Z) (f : MeshFs) : MeshFs :=
  mkFs (store f) (ns f) (owner_uid f) (ino_map f) (next_ino f) b next.

Record FileAttr := mkAttr {
  attr_ino : Z;
  size : Z;
  blocks : Z;
  mtime_secs : Z;
  directory : bool;
  perm : Z;
  nlink : Z;
  uid : Z;
  gid : Z;
}.

Record dirent := mkDirent { de_ino : Z; de_offset : Z; de_dir : bool; de_name : bytes }.

(** What a callback reads of the world: the wall clock and the logical clock
    at its successive readings, and whether the kernel's buffer for directory
    entries, after those added so far, has no room for one more. *)
Record env := mkEnv {
  now_ms : nat -> Z;
  hlc_now : nat -> Z;
  full : list dirent -> dirent -> bool;
}.

Inductive OpenAccMode := O_RDONLY | O_WRONLY | O_RDWR.
Record OpenFlags := mkFlags { acc_mode : OpenAccMode; bits : Z }.

Abbreviation blen b := (Z.of_nat (length b)).
Abbreviation fs_m := (method MeshFs Errno).

(** ** Paths *)

(** The name of the immediate child that a key below a directory belongs to,
    and whether the key goes on below it. *)
Definition child_name (rel : bytes) : option (bytes * bool) :=
  if bool_decide (rel = []) || bool_decide (Byte.x00 ∈ rel) then None else
  let seg_len := default (length rel) (fst <$> list_find (eq SLASH) rel) in
  if bool_decide (seg_len = 0%nat) then None else
  let seg := take seg_len rel in
  if bool_decide (seg = bs ".") || bool_decide (seg = bs "..") then None else
  Some (take seg_len rel, (seg_len <? length rel)%nat).

Definition join_child (parent name : bytes) : bytes :=
  if bool_decide (parent = []) then name else parent ++ [SLASH] ++ name.

Definition key_of (path : bytes) : bytes := bs "fs/" ++ path.

Definition dir_prefix (path : bytes) : bytes :=
  let p := bs "fs/" ++ path in
  if bool_decide (last p = Some SLASH) then p else p ++ [SLASH].

(** ** Reads of the store *)

Definition unexpired (now : Z) (v : Version) : bool := (expires_at v =? 0) || (now <? expires_at v).
Definition expiring (now : Z) (v : Version) : bool := negb (expires_at v =? 0) && (now <? expires_at v).

(** [max_by(|a, b| (a.hlc, b.replica).cmp(&(b.hlc, b.replica)))]: the last of
    the greatest. *)
Definition max_by_hlc (vs : list Version) : option Version :=
  match vs with
  | [] => None
  | v :: vs => Some (fold_left (fun a b =>
      match cmp (hlc a, replica b) (hlc b, replica b) with Gt => a | _ => b end) vs v)
  end.

Definition winner (f : MeshFs) (path : bytes) (now : Z) : option Version :=
  e ← get (store f) (ns f) (key_of path);
  match e with
  | Lww v => if unexpired now v then Some v else None
  | Register vs => max_by_hlc (List.filter (unexpired now) vs)
  end.

Definition latest_info (f : MeshFs) (path : bytes) (now : Z) : option (Z * Z) :=
  (fun v => (blen (value v), hlc v)) <$> winner f path now.
Definition read_value (f : MeshFs) (path : bytes) (now : Z) : option bytes :=
  value <$> winner f path now.
Definition latest_hlc (f : MeshFs) (path : bytes) (now : Z) : option Z :=
  snd <$> latest_info f path now.

Definition file_exists (f : MeshFs) (path : bytes) (now : Z) : bool :=
  bool_decide (is_Some (latest_info f path now)).

Definition dir_exists (f : MeshFs) (path : bytes) : bool :=
  let prefix := dir_prefix path in
  existsb (fun k => (length prefix <=? length k)%nat) (scan_keys (store f) (ns f) prefix).

Definition live_expires_at (f : MeshFs) (path : bytes) (now : Z) : Z :=
  match get (store f) (ns f) (key_of path) with
  | Some (Lww v) => if expiring now v then expires_at v else 0
  | Some (Register vs) => default 0 (expires_at <$> max_by_hlc (List.filter (expiring now) vs))
  | None => 0
  end.

Definition authorized_self (f : MeshFs) : bool := bool_decide (is_Some (policy (store f) (ns f))).

(** ** Inodes *)

Definition path_of (f : MeshFs) (i : Z) : option bytes :=
  if i =? ROOT_INO then Some [] else ino_map f !! i.

(** The loop that makes room; its bound is computed anew in each round. *)
Fixpoint evict_loop (doomed : list Z) (removed : Z) (m : gmap Z bytes) : gmap Z bytes :=
  if removed <? u64 (Z.of_nat (base.size m) - INO_EVICT_TO) then
    match doomed with
    | [] => m
    | i :: doomed => evict_loop doomed (u64 (removed + 1)) (base.delete i m)
    end
  else m.

Section fs.
Context `{Sha256, HexCrate, SerdeJson, InoOrder}.

Definition mesh_fs_new (st : Store) (root_pk : bytes) (uid : Z) : MeshFs :=
  mkFs st (bs "u/" ++ hex_encode root_pk) uid {[ROOT_INO := []]} 2 ∅ 1.

Definition evict (f : MeshFs) : gmap Z bytes :=
  let protected := (fun h : Z * Handle => ino h.2) <$> map_to_list (bufs f) in
  let doomed := filter (fun i => i ∉ protected) (ino_iter (ino_map f)).*1 in
  evict_loop (reverse doomed) 0 (ino_map f).

Definition ino_for (path : bytes) : fs_m Z :=
  f ← self;
  match list_find (fun e : Z * bytes => e.2 = path) (ino_iter (ino_map f)) with
  | Some (_, (i, _)) => mret i
  | None =>
      let i := next_ino f in
      let m := if INO_CAP <=? Z.of_nat (base.size (ino_map f)) then evict f else ino_map f in
      _ ← update (with_inos (<[i := path]> m) (u64 (i + 1)));
      mret i
  end.

Definition attr_of (f : MeshFs) (i : Z) (is_dir : bool) (sz mtime : Z) : FileAttr :=
  mkAttr i sz ((sz + 511) / 512) mtime is_dir (if is_dir then 493 else 420) (if is_dir then 2 else 1)
    (owner_uid f) (owner_uid f).

Definition attr (path : bytes) (is_dir : bool) (now : Z) : fs_m FileAttr :=
  f ← self;
  let '(sz, mtime) := if is_dir then (0, 0) else
    match latest_info f path now with Some (l, h) => (l, h / 1000) | None => (0, 0) end in
  i ← ino_for path;
  mret (attr_of f i is_dir sz mtime).

(** [let Some(path) = self.path_of(ino) else { EIO }] *)
Definition need_path (i : Z) : fs_m bytes := f ← self; lift (ok_or EIO (path_of f i)).
Definition need (c : bool) (e : Errno) : fs_m unit := lift (guard_err (negb c) e).

(** ** Writes to the store *)

Definition on_store {A} (e : Errno) (m : store_m A) : fs_m A := fun f =>
  let '(st, o) := m (store f) in (with_store st f, map_err (fun _ => e) o).

(** [let _ = store.put(...)] *)
Definition ignoring {A} (m : store_m A) : fs_m unit := fun f =>
  let '(st, o) := m (store f) in
  (with_store st f, match o with Panic => Panic | _ => Ok tt end).

Definition rid_arr (f : MeshFs) : bytes :=
  let rid := default [] (hex_decode (drop 2 (ns f))) in
  if bool_decide (length rid = 32%nat) then rid else replicate 32 Byte.x00.

Definition commit_ttl (now hlc : Z) (path d : bytes) (ttl_hint : option Z) : fs_m unit :=
  f ← self;
  _ ← need (authorized_self f) EACCES;
  let ex := match ttl_hint with
            | None => live_expires_at f path now
            | Some h => if negb (h =? 0) && (now <? h) then h else 0
            end in
  _ ← on_store ENOSPC (put (ns f) (key_of path) d hlc (rid_arr f) (rid_arr f) ex);
  mret tt.

Definition commit (now hlc : Z) (path d : bytes) : fs_m unit := commit_ttl now hlc path d None.

Definition delete_path (hlc : Z) (path : bytes) : fs_m unit :=
  f ← self;
  _ ← need (authorized_self f) EACCES;
  _ ← need (negb (bool_decide (path = []))) ENOENT;
  _ ← on_store EIO (delete (ns f) (key_of path) hlc (rid_arr f) (rid_arr f));
  mret tt.

Definition delete_all_under (hlc : Z) (path : bytes) : fs_m unit :=
  f ← self;
  _ ← need (authorized_self f) EACCES;
  for_each (fun k => _ ← on_store EIO (delete (ns f) k hlc (rid_arr f) (rid_arr f)); mret tt)
    (scan_keys (store f) (ns f) (dir_prefix path)).

(** ** Callbacks *)

Context (e : env).

Definition lookup (parent : Z) (name : bytes) : fs_m FileAttr :=
  parent_path ← need_path parent;
  let path := join_child parent_path name in
  f ← self;
  let is_dir := dir_exists f path in
  let is_file := file_exists f path (now_ms e 0) in
  _ ← need (is_dir || is_file) ENOENT;
  attr path is_dir (now_ms e 1).

Definition getattr (i : Z) : fs_m FileAttr :=
  path ← need_path i;
  if i =? ROOT_INO then attr [] true (now_ms e 0) else
  f ← self;
  let is_dir := dir_exists f path in
  let is_file := file_exists f path (now_ms e 0) in
  _ ← need (is_dir || is_file) ENOENT;
  attr path is_dir (now_ms e 1).

Definition add_child (prefix : bytes) (children : gmap bytes bool) (k : bytes) : gmap bytes bool :=
  match child_name (drop (length prefix) k) with
  | Some (name, is_dir) => <[name := is_dir]> children
  | None => children
  end.

Definition children_of (f : MeshFs) (path : bytes) : gmap bytes bool :=
  let prefix := dir_prefix path in
  fold_left (add_child prefix) (scan_keys (store f) (ns f) prefix) ∅.

Definition entries_of (children : gmap bytes bool) : list (Z * bytes * bool) :=
  [(1, bs ".", true); (2, bs "..", true)]
  ++ imap (fun i '(name, is_dir) => (Z.of_nat i + 3, name, is_dir)) (btree_iter children).

Fixpoint readdir_loop (path : bytes) (offset : Z) (entries : list (Z * bytes * bool)) (out : list dirent)
    : fs_m (list dirent) :=
  match entries with
  | [] => mret out
  | (o, name, is_dir) :: entries =>
      if o <=? offset then readdir_loop path offset entries out else
      let child_path := join_child path name in
      if is_dir then
        a ← attr child_path true (now_ms e (Z.to_nat o));
        let d := mkDirent (attr_ino a) o true name in
        if full e out d then mret out else readdir_loop path offset entries (out ++ [d])
      else
        f ← self;
        match latest_info f child_path (now_ms e (Z.to_nat o)) with
        | Some _ =>
            i ← ino_for child_path;
            let d := mkDirent i o false name in
            if full e out d then mret out else readdir_loop path offset entries (out ++ [d])
        | None => readdir_loop path offset entries out
        end
  end.

Definition readdir (i : Z) (offset : Z) : fs_m (list dirent) :=
  path ← need_path i;
  f ← self;
  readdir_loop path offset (entries_of (children_of f path)) [].

(** The handle; 0 for a read-only one. *)
Definition open (i : Z) (flags : OpenFlags) : fs_m Z :=
  path ← need_path i;
  f ← self;
  _ ← need (file_exists f path (now_ms e 0)) ENOENT;
  match acc_mode flags with
  | O_RDONLY => mret 0
  | _ =>
      let trunc := negb (Z.land (bits flags) O_TRUNC =? 0) in
      let app := negb (Z.land (bits flags) O_APPEND =? 0) in
      let d := if trunc then [] else default [] (read_value f path (now_ms e 1)) in
      let fh := next_fh f in
      _ ← update (fun f => with_bufs (<[fh := mkHandle i d trunc app]> (bufs f)) (u64 (fh + 1)) f);
      mret fh
  end.

Definition read (i : Z) (offset sz : Z) : fs_m bytes :=
  f ← self;
  match path_of f i ≫= fun path => read_value f path (now_ms e 0) with
  | Some b =>
      let start := offset in
      let stop := Z.min (u64 (start + sz)) (blen b) in
      if blen b <=? start then mret []
      else if stop <? start then lift Panic
      else mret (take (Z.to_nat (stop - start)) (drop (Z.to_nat start) b))
  | None => lift (Err ENOENT)
  end.

Definition set_handle (fh : Z) (h : Handle) (f : MeshFs) : MeshFs :=
  with_bufs (<[fh := h]> (bufs f)) (next_fh f) f.

(** The number of bytes written. *)
Definition write (i fh offset : Z) (d : bytes) : fs_m Z :=
  _ ← need_path i;
  f ← self;
  h ← lift (ok_or EIO (bufs f !! fh));
  let off := if append h then blen (data h) else offset in
  let stop := u64 (off + blen d) in
  let buf := if blen (data h) <? stop then resize (Z.to_nat stop) Byte.x00 (data h) else data h in
  if (stop <? off) || (blen buf <? stop) then
    _ ← update (set_handle fh (mkHandle (ino h) buf (dirty h) (append h)));
    lift Panic
  else
    let buf := take (Z.to_nat off) buf ++ d ++ drop (Z.to_nat stop) buf in
    _ ← update (set_handle fh (mkHandle (ino h) buf true (append h)));
    mret (blen d mod 2 ^ 32).

Definition drop_handle (fh : Z) (f : MeshFs) : MeshFs :=
  with_bufs (base.delete fh (bufs f)) (next_fh f) f.

Definition flush (i fh : Z) : fs_m unit :=
  path ← need_path i;
  f ← self;
  _ ← update (drop_handle fh);
  match bufs f !! fh with
  | Some h => if dirty h then commit (now_ms e 0) (hlc_now e 0) path (data h) else mret tt
  | None => mret tt
  end.

Definition release (i fh : Z) : fs_m unit := update (drop_handle fh).

Definition create (parent : Z) (name : bytes) : fs_m (FileAttr * Z) :=
  parent_path ← need_path parent;
  let path := join_child parent_path name in
  _ ← commit (now_ms e 0) (hlc_now e 0) path [];
  a ← attr path false (now_ms e 1);
  f ← self;
  let fh := next_fh f in
  _ ← update (fun f => with_bufs (bufs f) (u64 (fh + 1)) f);
  i ← ino_for path;
  _ ← update (set_handle fh (mkHandle i [] false false));
  mret (a, fh).

Definition mkdir (parent : Z) (name : bytes) : fs_m FileAttr :=
  parent_path ← need_path parent;
  let path := join_child parent_path name in
  f ← self;
  _ ← need (authorized_self f) EACCES;
  let marker := bs "fs/" ++ path ++ [SLASH] in
  _ ← ignoring (put (ns f) marker [] (hlc_now e 0) (rid_arr f) (rid_arr f) 0);
  attr path true (now_ms e 0).

Definition unlink (parent : Z) (name : bytes) : fs_m unit :=
  parent_path ← need_path parent;
  delete_path (hlc_now e 0) (join_child parent_path name).

Definition rmdir (parent : Z) (name : bytes) : fs_m unit :=
  parent_path ← need_path parent;
  let path := join_child parent_path name in
  _ ← delete_all_under (hlc_now e 0) path;
  delete_path (hlc_now e 1) path.

(** One key of a directory that is renamed. *)
Definition move_key (old_pref new_pref k : bytes) : fs_m unit :=
  f ← self;
  let nk := new_pref ++ drop (length old_pref) k in
  match get (store f) (ns f) k with
  | Some (Lww v) =>
      _ ← on_store EIO (put (ns f) nk (value v) (hlc_now e 0) (rid_arr f) (rid_arr f) (expires_at v));
      _ ← on_store EIO (delete (ns f) k (hlc_now e 0) (rid_arr f) (rid_arr f));
      mret tt
  | Some (Register _) => lift (Err EIO)
  | None => mret tt
  end.

Definition rename (parent : Z) (name : bytes) (newparent : Z) (newname : bytes) (flags_empty : bool) : fs_m unit :=
  _ ← need flags_empty ENOSYS;
  f ← self;
  old_parent ← need_path parent;
  new_parent ← need_path newparent;
  let from := join_child old_parent name in
  let to := join_child new_parent newname in
  if bool_decide (from = to) then mret tt else
  _ ← need (authorized_self f) EACCES;
  if file_exists f from (now_ms e 0) then
    match read_value f from (now_ms e 1) with
    | Some d =>
        let ttl := live_expires_at f from (now_ms e 2) in
        _ ← commit_ttl (now_ms e 3) (hlc_now e 0) to d (Some ttl);
        delete_path (hlc_now e 1) from
    | None => lift (Err ENOENT)
    end
  else if dir_exists f from then
    let old_pref := dir_prefix from in
    let new_pref := dir_prefix to in
    for_each (move_key old_pref new_pref) (scan_keys (store f) (ns f) old_pref)
  else mret tt.

(** [data.truncate(n)] or [data.resize(n, 0)] *)
Definition resized (n : Z) (d : bytes) : bytes := resize (Z.to_nat n) Byte.x00 d.

Definition setattr (i : Z) (sz : option Z) (fh : option Z) : fs_m FileAttr :=
  path ← need_path i;
  if i =? ROOT_INO then attr [] true (now_ms e 0) else
  f ← self;
  if dir_exists f path then attr path true (now_ms e 0) else
  _ ← need (file_exists f path (now_ms e 0)) ENOENT;
  match sz with
  | None => attr path false (now_ms e 3)
  | Some new_size =>
      match fh ≫= fun fh => (fun h => (fh, h)) <$> bufs f !! fh with
      | Some (fh, h) =>
          let h' := if new_size =? blen (data h) then h
                    else mkHandle (ino h) (resized new_size (data h)) true (append h) in
          _ ← update (set_handle fh h');
          mret (attr_of f i false new_size (default 0 (latest_hlc f path (now_ms e 1)) / 1000))
      | None =>
          let d := default [] (read_value f path (now_ms e 1)) in
          _ ← commit (now_ms e 2) (hlc_now e 0) path (resized new_size d);
          attr path false (now_ms e 3)
      end
  end.

Definition access (i : Z) : fs_m unit := mret tt.
Definition readlink (i : Z) : fs_m bytes := lift (Err ENOSYS).
Definition getxattr (i : Z) (name : bytes) : fs_m bytes := lift (Err ENOSYS).
Definition listxattr (i : Z) : fs_m bytes := lift (Err ENOSYS).

(** ** Requests *)

Inductive request :=
| Lookup (parent : Z) (name : bytes)
| Getattr (i : Z)
| Readdir (i offset : Z)
| Open (i : Z) (flags : OpenFlags)
| Read (i offset sz : Z)
| Write (i fh offset : Z) (d : bytes)
| Flush (i fh : Z)
| Release (i fh : Z)
| Create (parent : Z) (name : bytes)
| Mkdir (parent : Z) (name : bytes)
| Unlink (parent : Z) (name : bytes)
| Rmdir (parent : Z) (name : bytes)
| Rename (parent : Z) (name : bytes) (newparent : Z) (newname : bytes) (flags_empty : bool)
| Setattr (i : Z) (sz fh : option Z)
| Access (i : Z)
| Readlink (i : Z)
| Getxattr (i : Z) (name : bytes)
| Listxattr (i : Z).

Inductive answer :=
| AEntry (a : FileAttr)
| ADir (l : list dirent)
| AOpened (fh : Z)
| AData (b : bytes)
| AWritten (n : Z)
| AOk
| ACreated (a : FileAttr) (fh : Z).

Definition serve (r : request) : fs_m answer :=
  match r with
  | Lookup p n => x ← lookup p n; mret (AEntry x)
  | Getattr i => x ← getattr i; mret (AEntry x)
  | Readdir i o => x ← readdir i o; mret (ADir x)
  | Open i fl => x ← open i fl; mret (AOpened x)
  | Read i o n => x ← read i o n; mret (AData x)
  | Write i fh o d => x ← write i fh o d; mret (AWritten x)
  | Flush i fh => _ ← flush i fh; mret AOk
  | Release i fh => _ ← release i fh; mret AOk
  | Create p n => '(a, fh) ← create p n; mret (ACreated a fh)
  | Mkdir p n => x ← mkdir p n; mret (AEntry x)
  | Unlink p n => _ ← unlink p n; mret AOk
  | Rmdir p n => _ ← rmdir p n; mret AOk
  | Rename p n p' n' fl => _ ← rename p n p' n' fl; mret AOk
  | Setattr i sz fh => x ← setattr i sz fh; mret (AEntry x)
  | Access i => _ ← access i; mret AOk
  | Readlink i => x ← readlink i; mret (AData x)
  | Getxattr i n => x ← getxattr i n; mret (AData x)
  | Listxattr i => x ← listxattr i; mret (AData x)
  end.

End fs.
End Fs.
