(* ===== verification/FsDemo.v ===== *)
(** A small mount on which the properties of the file system are
    instantiated: a note at the root and two files in a directory, one of
    them with an expiry. *)

From S2P Require Import Prelude Crc32 LogFormat Log Utf8 StoreTypes Store StoreSpec Fs.
Import Store StoreSpec Fs.

Module FsDemo.

#[local] Existing Instances toy_sha256 hex_plain toy_json plain_inos.

Definition owner : bytes := node Byte.x2a.
Definition home : bytes := bs "u/" ++ hex_encode owner.

Definition demo_put (k v : string) (ex : Z) : op := OpPut home (bs "fs/" ++ bs k) (bs v) 7 owner owner ex.
Definition demo_files : list op :=
  [OpCreate home PLww; demo_put "note" "hello" 0; demo_put "d/a" "aa" 0; demo_put "d/b" "bb" 5000].

Definition files_store : Store := run_ops demo_files (empty_store false).

Lemma files_store_ok : store_ok files_store.
Proof.
  unfold files_store, run_ops, demo_files. cbn [fold_left].
  repeat (apply exec_keeps; [first [exact I|wf_single]|]). apply empty_store_ok.
Qed.

(** The note has inode 2, the directory inode 3. *)
Definition demo_mount : MeshFs :=
  with_inos (<[2 := bs "note"]> (<[3 := bs "d"]> {[ROOT_INO := []]})) 4 (mesh_fs_new files_store owner 1000).

Definition demo_env : env := mkEnv (fun _ => 10) (fun n => u64 (77 + Z.of_nat n)) (fun out _ => (2 <=? length out)%nat).

End FsDemo.
