(* ===== verification/FsSpec.v ===== *)
(** What the mounted file system does to the store: it stays below [fs/] of
    its namespace, and nothing is committed unless something was written. *)

From S2P Require Import Prelude Moves Crc32 LogFormat Log LogSpec Utf8 StoreTypes Store StoreSpec StoreFrame Fs FsDemo.
Import Store StoreSpec StoreFrame Fs.

Module FsSpec.

Section spec.
Context `{Sha256, HexCrate, SerdeJson, InoOrder}.

(** ** One key of the store *)

(** Only key [k] of namespace [n] may have changed among the keys of [n]. *)
Definition at_key (n k : bytes) (s s' : Store) : Prop :=
  forall k', k' <> k -> index s' !! (n, k') = index s !! (n, k') /\ tombs s' !! (n, k') = tombs s !! (n, k').
#[global] Instance at_key_preorder n k : PreOrder (at_key n k).
Proof.
  split; [by intros s k' _|]. intros s1 s2 s3 A B k' Hk. destruct (A k' Hk), (B k' Hk). split; congruence.
Qed.

Lemma at_key_mem n k s s' : index s' = index s -> tombs s' = tombs s -> at_key n k s s'.
Proof. intros Hi Ht k' _. by rewrite Hi, Ht. Qed.
Lemma at_key_sec n k s s' : same_but_sec s s' -> at_key n k s s'.
Proof. intros (_ & Hi & Ht & _). by apply at_key_mem. Qed.

Lemma at_key_index n k s m : (forall k', k' <> k -> m !! (n, k') = index s !! (n, k')) -> at_key n k s (with_index m s).
Proof. intros Hm k' Hk. by rewrite <-(Hm k' Hk). Qed.

Lemma append_at_key n k r : always (at_key n k) (append_record n r).
Proof.
  intros s. apply moves_self. apply moves_lift_bind; [apply _|]. intros L _. apply moves_lift_bind; [apply _|].
  intros [[d L'] q] _. apply moves_bind; [apply _|by apply moves_update, at_key_mem|]. intros. apply moves_ret, _.
Qed.

Lemma local_at_key n o q : always (at_key n (LogFormat.key o)) (apply_local_op n o q).
Proof.
  assert (forall s', at_key n (LogFormat.key o) s' (with_tombs (base.delete (n, LogFormat.key o) (tombs s')) s')) as Ht.
  { intros s' k' Hk. cbn. by rewrite lookup_delete_ne by congruence. }
  assert (forall e s', at_key n (LogFormat.key o) s' (with_index (<[(n, LogFormat.key o) := e]> (index s')) s')) as Hi.
  { intros e s'. apply at_key_index. intros k' Hk. by rewrite lookup_insert_ne by congruence. }
  intros s. apply moves_self. apply moves_lift_bind; [apply _|]. intros p _.
  apply moves_bind; [apply _| |intros; by apply moves_update, at_key_mem].
  case_bool_decide; [|case_bool_decide; [|apply moves_lift, _]].
  - apply moves_bind; [apply _|apply moves_update, Ht|]. intros s1 _ _.
    apply moves_bind; [apply _| |intros; apply moves_update, at_key_sec, refresh_sec_same].
    destruct p; [apply moves_update, Hi|]. unfold push_register. apply moves_self.
    repeat case_match; try apply moves_update; try apply Hi; apply moves_lift, _.
  - apply moves_update. unfold apply_del. etrans; [|apply at_key_sec, remove_sec_same].
    intros k' Hk. cbn. by rewrite lookup_delete_ne, lookup_insert_ne by congruence.
Qed.

Lemma put_at_key n k v h r a ex : always (at_key n k) (put n k v h r a ex).
Proof.
  intros s. apply moves_self. apply moves_lift_bind; [apply _|]. intros L _.
  apply moves_bind; [apply _|apply append_at_key|]. intros s1 q _.
  apply moves_bind; [apply _| |intros; apply moves_ret, _].
  by apply (local_at_key n (LogFormat.mkRecord _ k h r a v ex [])).
Qed.

Lemma delete_at_key n k h r a : always (at_key n k) (delete n k h r a).
Proof.
  intros s. apply moves_bind; [apply _|apply moves_self, moves_lift_bind; [apply _|intros; apply moves_ret, _]|].
  intros s1 _ _. apply moves_bind; [apply _|apply append_at_key|]. intros s2 q _.
  apply moves_bind; [apply _| |intros; apply moves_ret, _].
  by apply (local_at_key n (LogFormat.mkRecord LogFormat.TAG_DEL k h r a [] 0 [])).
Qed.

(** ** Confinement *)

Definition below (k : bytes) : bool := starts_with (bs "fs/") k.

Record confined (f f' : MeshFs) : Prop := {
  cf_ns : ns f' = ns f;
  cf_owner : owner_uid f' = owner_uid f;
  cf_frame : frame [] (ns f) (store f) (store f');
  cf_keys k : below k = false -> index (store f') !! (ns f, k) = index (store f) !! (ns f, k)
    /\ tombs (store f') !! (ns f, k) = tombs (store f) !! (ns f, k);
}.

#[global] Instance confined_preorder : PreOrder confined.
Proof.
  split; [intros f; split; [done..|reflexivity|done]|]. intros f1 f2 f3 [A1 A2 A3 A4] [B1 B2 B3 B4]. rewrite A1 in *.
  split; [congruence..|by etrans|]. intros k Hk. destruct (A4 k Hk), (B4 k Hk). split; congruence.
Qed.

(** Only the tables of the mount have changed. *)
Definition stored_same (f f' : MeshFs) : Prop := store f' = store f /\ ns f' = ns f /\ owner_uid f' = owner_uid f.
#[global] Instance stored_same_preorder : PreOrder stored_same.
Proof. split; [by intros|]. unfold stored_same. intros ? ? ? (?&?&?) (?&?&?). split_and!; congruence. Qed.

Lemma stored_confined f f' : stored_same f f' -> confined f f'.
Proof. intros (E1 & E2 & E3). split; [done..|by rewrite E1|by rewrite E1]. Qed.

Lemma key_of_below p : below (key_of p) = true.
Proof. unfold below. apply starts_with_spec. by eexists. Qed.
Lemma dir_prefix_below p : below (dir_prefix p) = true.
Proof. unfold below, dir_prefix. apply starts_with_spec. case_bool_decide; [by eexists|]. rewrite <-app_assoc. by eexists. Qed.
Lemma below_app p q : below p = true -> below (p ++ q) = true.
Proof. unfold below. rewrite !starts_with_spec. intros [r ->]. rewrite <-app_assoc. by eexists. Qed.

(** The same for a mount of namespace [n]. *)
Definition within (n : bytes) (f f' : MeshFs) : Prop := ns f = n -> confined f f'.
#[global] Instance within_preorder n : PreOrder (within n).
Proof.
  split; [by intros f _|]. intros f1 f2 f3 A B Hn. specialize (A Hn). etrans; [exact A|]. apply B.
  by rewrite (cf_ns _ _ A).
Qed.

Lemma within_ns {A} n (m : fs_m A) f : (ns f = n -> moves (within n) f m) -> moves (within n) f m.
Proof. intros Hm Hn. by apply Hm. Qed.

Lemma on_store_within {A} er n (m : store_m A) k : below k = true ->
  frames [] n m -> always (at_key n k) m -> always (within n) (on_store er m).
Proof.
  intros Hk Hf Ha f Hn. specialize (Hf (store f)). specialize (Ha (store f)). unfold moves, on_store in *. subst n.
  destruct (m (store f)) as [st o]. split; [done..|]. intros k' Hk'. apply Ha. intros ->. congruence.
Qed.

Lemma put_within er n k v h r a ex : below k = true -> always (within n) (on_store er (put n k v h r a ex)).
Proof. intros Hk. eapply on_store_within; [done|apply frames_put|intros s; apply put_at_key]. Qed.
Lemma delete_within er n k h r a : below k = true -> always (within n) (on_store er (delete n k h r a)).
Proof. intros Hk. eapply on_store_within; [done|apply frames_delete|intros s; apply delete_at_key]. Qed.

Lemma ignoring_within {A} n (m : store_m A) : always (within n) (on_store EIO m) -> always (within n) (ignoring m).
Proof. intros Hm f Hn. specialize (Hm f Hn). unfold moves, ignoring, on_store in *. by destruct (m (store f)). Qed.

(** ** Callbacks *)

Context (e : env).

(** Requests that only look. *)
Definition looks (r : request) : bool :=
  match r with
  | Lookup _ _ | Getattr _ | Readdir _ _ | Read _ _ _ | Access _ | Readlink _ | Getxattr _ _ | Listxattr _ => true
  | Setattr _ None _ => true
  | _ => false
  end.

(** A relation that does not see the inode table. *)
Section tables.
Context (R : relation MeshFs) `{!PreOrder R} (Hino : forall f m n, R f (with_inos m n f)).

Lemma ino_for_moves path : always R (ino_for path).
Proof.
  intros f. apply moves_self. case_match; [case_match; case_match; apply moves_ret, _|].
  apply moves_bind; [apply _|by apply moves_update|]. intros. apply moves_ret, _.
Qed.

Lemma attr_moves path d now : always R (attr path d now).
Proof.
  intros f. apply moves_self. case_match. apply moves_bind; [apply _|apply ino_for_moves|]. intros. apply moves_ret, _.
Qed.

Lemma need_path_then {A} i f (k : bytes -> fs_m A) :
  (forall p, path_of f i = Some p -> moves R f (k p)) -> moves R f (need_path i ≫= k).
Proof.
  intros Hk. unfold moves, need_path, mbind, method_bind, self, lift. cbn.
  destruct (path_of f i) as [p|]; [by apply Hk|done].
Qed.

Lemma need_path_moves i : always R (need_path i).
Proof. intros f. apply moves_self, moves_lift, _. Qed.

Ltac lo :=
  repeat first
    [ progress intros
    | progress cbv zeta
    | match goal with
      | |- moves _ _ (self ≫= _) => apply moves_self
      | |- moves _ _ (need_path _ ≫= _) => apply moves_bind; [apply _|apply need_path_moves|]
      | |- moves _ _ (attr _ _ _ ≫= _) => apply moves_bind; [apply _|apply attr_moves|]
      | |- moves _ _ (ino_for _ ≫= _) => apply moves_bind; [apply _|apply ino_for_moves|]
      | |- moves _ _ (attr _ _ _) => apply attr_moves
      | |- moves _ _ (need _ _ ≫= _) => apply moves_lift_bind; [apply _|]
      | |- moves _ _ (_ ≫= _) => apply moves_bind; [apply _| |]
      | |- moves _ _ (mret _) => apply moves_ret; apply _
      | |- moves _ _ (lift _) => apply moves_lift; apply _
      | |- moves _ _ (match ?x with _ => _ end) => destruct x
      end ].

Lemma readdir_loop_moves path offset l out : always R (readdir_loop e path offset l out).
Proof. revert out. induction l as [|[[o name] d] l IH]; intros out f; cbn [readdir_loop]; lo; apply IH. Qed.

Lemma looks_moves r : looks r = true -> always R (serve e r).
Proof.
  intros Hr f. destruct r; try done; cbn [serve].
  - unfold lookup. lo.
  - unfold getattr. lo.
  - unfold readdir. lo. apply readdir_loop_moves.
  - unfold read. lo.
  - unfold setattr. destruct sz; [done|]. lo.
  - unfold access. lo.
  - unfold readlink. lo.
  - unfold getxattr. lo.
  - unfold listxattr. lo.
Qed.

End tables.

(** A relation that does not see the handles either, as the store's. *)
Definition volatile (r : request) : bool :=
  match r with Open _ _ | Write _ _ _ _ | Release _ _ => true | _ => looks r end.

Ltac st :=
  repeat first
    [ progress intros
    | progress cbv zeta
    | match goal with
      | |- moves _ _ (self ≫= _) => apply moves_self
      | |- moves _ _ (need_path _ ≫= _) => apply moves_bind; [apply _|apply need_path_moves, _|]
      | |- moves _ _ (lift _ ≫= _) => apply moves_lift_bind; [apply _|]
      | |- moves _ _ (need _ _ ≫= _) => apply moves_lift_bind; [apply _|]
      | |- moves _ _ (_ ≫= _) => apply moves_bind; [apply _| |]
      | |- moves _ _ (mret _) => apply moves_ret; apply _
      | |- moves _ _ (lift _) => apply moves_lift; apply _
      | |- moves _ _ (update _) => by apply moves_update
      | |- moves _ _ (match ?x with _ => _ end) => destruct x
      end ].

Lemma volatile_stored r : volatile r = true -> always stored_same (serve e r).
Proof.
  destruct (looks r) eqn:Hl; [intros _; by apply looks_moves; [apply _|..]|].
  intros Hr f. destruct r; simplify_eq/=.
  - unfold open. st.
  - unfold write. st.
  - unfold release. st.
  - congruence.
Qed.

Lemma stored_within {A} n (m : fs_m A) : always stored_same m -> always (within n) m.
Proof. intros Hm f _. apply stored_confined, Hm. Qed.

Lemma within_inos n f m k : within n f (with_inos m k f).
Proof. intros _. by apply stored_confined. Qed.

Lemma commit_within n now hl path d ttl : always (within n) (commit_ttl now hl path d ttl).
Proof.
  intros f. apply within_ns. intros <-. apply moves_self. apply moves_lift_bind; [apply _|]. intros _ _.
  apply moves_bind; [apply _|apply put_within, key_of_below|]. intros. apply moves_ret, _.
Qed.

Lemma delete_path_within n hl path : always (within n) (delete_path hl path).
Proof.
  intros f. apply within_ns. intros <-. apply moves_self. apply moves_lift_bind; [apply _|]. intros _ _.
  apply moves_lift_bind; [apply _|]. intros _ _.
  apply moves_bind; [apply _|apply delete_within, key_of_below|]. intros. apply moves_ret, _.
Qed.

Lemma scan_keys_starts s n p k : k ∈ scan_keys s n p -> starts_with p k = true.
Proof.
  unfold scan_keys. generalize (range_from (index s) (n, [])). intros l.
  induction l as [|[[n' k'] en] l IH]; cbn; [by rewrite elem_of_nil|].
  destruct (negb _); [by rewrite elem_of_nil|].
  destruct (bool_decide (p = []) || starts_with p k') eqn:E; [|done]. rewrite fmap_cons, elem_of_cons.
  intros [->|Hk]; [|by apply IH]. apply orb_true_iff in E as [E%bool_decide_eq_true|]; [|done].
  subst p. by apply starts_with_spec; eexists.
Qed.

Lemma below_under p k : starts_with (dir_prefix p) k = true -> below k = true.
Proof. rewrite starts_with_spec. intros [r ->]. apply below_app, dir_prefix_below. Qed.

(** A loop over keys below a directory. *)
Lemma for_keys_within n p (m : bytes -> fs_m unit) l : (forall k, k ∈ l -> starts_with (dir_prefix p) k = true) ->
  (forall k, below k = true -> always (within n) (m k)) -> always (within n) (for_each m l).
Proof.
  intros Hl Hm. induction l as [|k l IH]; intros f; cbn [for_each]; [apply moves_ret, _|].
  apply moves_bind; [apply _| |]. { apply Hm, (below_under p), Hl. by left. }
  intros. apply IH. intros. apply Hl. by right.
Qed.

Lemma delete_all_within n hl path : always (within n) (delete_all_under hl path).
Proof.
  intros f. apply within_ns. intros <-. apply moves_self. apply moves_lift_bind; [apply _|]. intros _ _.
  apply (for_keys_within _ path); [intros; by eapply scan_keys_starts|]. intros k Hk f'.
  apply moves_bind; [apply _|by apply delete_within|]. intros. apply moves_ret, _.
Qed.

Lemma move_key_within n o p k : below k = true -> always (within n) (move_key e o (dir_prefix p) k).
Proof.
  intros Hk f. apply within_ns. intros <-. apply moves_self. cbv zeta. case_match; [|apply moves_ret, _].
  case_match; [|apply moves_lift, _].
  apply moves_bind; [apply _|apply put_within, below_app, dir_prefix_below|]. intros.
  apply moves_bind; [apply _|by apply delete_within|]. intros. apply moves_ret, _.
Qed.

Ltac wi :=
  repeat first
    [ progress intros
    | progress cbv zeta
    | match goal with
      | |- moves _ _ (self ≫= _) => apply moves_self
      | |- moves _ _ (need_path _ ≫= _) => apply moves_bind; [apply _|apply need_path_moves, _|]
      | |- moves _ _ (attr _ _ _ ≫= _) => apply moves_bind; [apply _|apply attr_moves; [apply _|apply within_inos]|]
      | |- moves _ _ (ino_for _ ≫= _) => apply moves_bind; [apply _|apply ino_for_moves; [apply _|apply within_inos]|]
      | |- moves _ _ (attr _ _ _) => apply attr_moves; [apply _|apply within_inos]
      | |- moves _ _ (lift _ ≫= _) => apply moves_lift_bind; [apply _|]
      | |- moves _ _ (need _ _ ≫= _) => apply moves_lift_bind; [apply _|]
      | |- moves _ _ (_ ≫= _) => apply moves_bind; [apply _| |]
      | |- moves _ _ (mret _) => apply moves_ret; apply _
      | |- moves _ _ (lift _) => apply moves_lift; apply _
      | |- moves _ _ (commit _ _ _ _) => apply commit_within
      | |- moves _ _ (commit_ttl _ _ _ _ _) => apply commit_within
      | |- moves _ _ (delete_path _ _) => apply delete_path_within
      | |- moves _ _ (delete_all_under _ _) => apply delete_all_within
      | |- moves _ _ (for_each (move_key _ _ _) _) => eapply for_keys_within; [|intros; by apply move_key_within]
      | |- moves _ _ (update _) => by apply moves_update; intros _; apply stored_confined
      | |- moves _ _ (match ?x with _ => _ end) => destruct x
      end ].

(** Every request stays below [fs/] of the mount's namespace. *)
Lemma serve_within n r : always (within n) (serve e r).
Proof.
  destruct (volatile r) eqn:Hr; [by apply stored_within, volatile_stored|].
  intros f. destruct r; try done; cbn [serve].
  - unfold flush. wi.
  - unfold create. wi.
  - unfold mkdir. apply moves_bind; [apply _| |wi].
    apply moves_bind; [apply _|apply need_path_moves, _|]. intros f1 pp _. apply within_ns. intros <-.
    apply moves_self. apply moves_lift_bind; [apply _|]. intros _ _.
    apply moves_bind; [apply _|apply ignoring_within, put_within|wi].
    unfold below. apply starts_with_spec. by eexists.
  - unfold unlink. wi.
  - unfold rmdir. wi.
  - unfold rename. wi. by eapply scan_keys_starts.
  - unfold setattr. wi.
Qed.

(** ** No namespace, no writes *)

Definition closed (f f' : MeshFs) : Prop := policies (store f) !! ns f = None -> stored_same f f'.
#[global] Instance closed_preorder : PreOrder closed.
Proof.
  split; [done|]. intros f1 f2 f3 A B Hf. specialize (A Hf). etrans; [exact A|]. apply B. destruct A as (-> & -> & _). done.
Qed.

Lemma closed_need {A} f er (m : fs_m A) : moves closed f (need (authorized_self f) er ≫= fun _ => m).
Proof. intros Hf. unfold authorized_self, policy. by rewrite Hf. Qed.

Lemma commit_closed now hl path d ttl : always closed (commit_ttl now hl path d ttl).
Proof. intros f. apply moves_self, closed_need. Qed.
Lemma delete_path_closed hl path : always closed (delete_path hl path).
Proof. intros f. apply moves_self, closed_need. Qed.
Lemma delete_all_closed hl path : always closed (delete_all_under hl path).
Proof. intros f. apply moves_self, closed_need. Qed.

Ltac cl :=
  repeat first
    [ progress intros
    | progress cbv zeta
    | match goal with
      | |- moves _ _ (self ≫= _) => apply moves_self
      | |- moves _ _ (need_path _ ≫= _) => apply moves_bind; [apply _|apply need_path_moves, _|]
      | |- moves _ _ (attr _ _ _ ≫= _) => apply moves_bind; [apply _|by apply attr_moves; [apply _|]|]
      | |- moves _ _ (ino_for _ ≫= _) => apply moves_bind; [apply _|by apply ino_for_moves; [apply _|]|]
      | |- moves _ _ (attr _ _ _) => by apply attr_moves; [apply _|]
      | |- moves _ _ (need (authorized_self _) _ ≫= _) => apply closed_need
      | |- moves _ _ (need _ _ ≫= _) => apply moves_lift_bind; [apply _|]
      | |- moves _ _ (_ ≫= _) => apply moves_bind; [apply _| |]
      | |- moves _ _ (mret _) => apply moves_ret; apply _
      | |- moves _ _ (lift _) => apply moves_lift; apply _
      | |- moves _ _ (commit _ _ _ _) => apply commit_closed
      | |- moves _ _ (commit_ttl _ _ _ _ _) => apply commit_closed
      | |- moves _ _ (delete_path _ _) => apply delete_path_closed
      | |- moves _ _ (delete_all_under _ _) => apply delete_all_closed
      | |- moves _ _ (update _) => by apply moves_update
      | |- moves _ _ (match ?x with _ => _ end) => destruct x
      end ].

Lemma serve_closed r : always closed (serve e r).
Proof.
  destruct (volatile r) eqn:Hr; [intros f _; by apply volatile_stored|].
  intros f. destruct r; try done; cbn [serve].
  - unfold flush. cl.
  - unfold create. cl.
  - unfold mkdir. cl.
  - unfold unlink. cl.
  - unfold rmdir. cl.
  - unfold rename. apply moves_bind; [apply _| |cl]. apply moves_lift_bind; [apply _|]. intros _ _. apply moves_self.
    do 2 (apply need_path_then; [apply _|]; intros ? _). cbv zeta. case_bool_decide; [apply moves_ret, _|apply closed_need].
  - unfold setattr. cl.
Qed.

(** ** Clean sessions *)

(** Neither a write nor a truncation. *)
Definition writes_nothing (r : request) : bool :=
  match r with
  | Write _ _ _ _ => false
  | Open _ fl => (Z.land (bits fl) O_TRUNC =? 0)
  | Flush _ _ => true
  | _ => volatile r
  end.

Definition no_dirty (f : MeshFs) : Prop := map_Forall (fun _ h => dirty h = false) (bufs f).

(** The handles change as [open] and [release] do. *)
Definition clean (f f' : MeshFs) : Prop := no_dirty f -> stored_same f f' /\ no_dirty f'.
#[global] Instance clean_preorder : PreOrder clean.
Proof. split; [by intros f|]. intros f1 f2 f3 A B Hf. destruct (A Hf) as [A1 A2], (B A2) as [B1 B2]. split; [by etrans|done]. Qed.

Lemma clean_inos f m n : clean f (with_inos m n f).
Proof. done. Qed.

Lemma no_dirty_open f fh h : no_dirty f -> dirty h = false -> map_Forall (fun _ h => dirty h = false) (<[fh := h]> (bufs f)).
Proof. intros Hf Hh. by apply map_Forall_insert_2. Qed.
Lemma no_dirty_drop f fh : no_dirty f -> no_dirty (drop_handle fh f).
Proof. apply map_Forall_delete. Qed.

Lemma clean_if {A} (m : fs_m A) f : (no_dirty f -> moves clean f m) -> moves clean f m.
Proof. intros Hm Hf. by apply Hm. Qed.

Lemma clean_serve r : writes_nothing r = true -> always clean (serve e r).
Proof.
  destruct (looks r) eqn:Hl; [intros _; by apply looks_moves; [apply _|..]|].
  intros Hr f. destruct r; simplify_eq/=; try done.
  - apply moves_bind; [apply _| |intros; apply moves_ret, _]. apply moves_bind; [apply _|apply need_path_moves, _|].
    intros f1 path _. apply moves_self. apply moves_lift_bind; [apply _|]. intros _ _. cbv zeta. rewrite Hr. cbn [negb].
    destruct (acc_mode flags); [apply moves_ret, _|..];
      (apply moves_bind; [apply _|apply moves_update|intros; apply moves_ret, _]);
      intros Hf; (split; [done|by apply no_dirty_open]).
  - apply moves_bind; [apply _| |intros; apply moves_ret, _]. apply moves_bind; [apply _|apply need_path_moves, _|].
    intros f1 path _. apply clean_if. intros Hf. apply moves_self.
    apply moves_bind; [apply _|apply moves_update; split; [done|by apply no_dirty_drop]|]. intros f2 [] _.
    destruct (bufs f1 !! fh) as [h|] eqn:E; [rewrite (Hf fh h E)|]; apply moves_ret, _.
  - apply moves_bind; [apply _| |intros; apply moves_ret, _]. apply moves_update. intros Hf. split; [done|by apply no_dirty_drop].
  - congruence.
Qed.

End spec.

(** ** Sessions *)

Section sessions.
Context `{Sha256, HexCrate, SerdeJson, InoOrder}.

(** What the kernel asks for, one request after the other, with the answers. *)
Fixpoint serve_all (l : list (env * request)) (f : MeshFs) : MeshFs * list (outcome Errno answer) :=
  match l with
  | [] => (f, [])
  | x :: l => let '(f1, a) := serve x.1 x.2 f in let '(f2, ans) := serve_all l f1 in (f2, a :: ans)
  end.
Definition run (l : list (env * request)) (f : MeshFs) : MeshFs := (serve_all l f).1.

Lemma run_cons x l f : run (x :: l) f = run l (serve x.1 x.2 f).1.
Proof. unfold run. cbn. destruct (serve x.1 x.2 f) as [f1 a]. cbn. by destruct (serve_all l f1). Qed.

Lemma run_moves (R : relation MeshFs) `{!PreOrder R} l f :
  (forall x f, x ∈ l -> R f (serve x.1 x.2 f).1) -> R f (run l f).
Proof.
  revert f. induction l as [|x l IH]; intros f Hl; [done|]. rewrite run_cons. etrans; [apply Hl; by left|]. apply IH.
  intros y f' Hy. apply Hl. by right.
Qed.

(** C17: the mount stays in its part of the store.  Whatever the kernel asks for,
    in any order and also when a request fails halfway, nothing outside the
    namespace of the mount changes, and within it no key outside [fs/]; without
    the namespace nothing changes at all; and as long as nothing is written,
    truncated, made, removed or renamed, opening, reading and closing files
    leave the store as it is, so no clean close commits anything. *)
Theorem fs_confined l f :
  let f' := run l f in
  confined f f'
  /\ (forall n k, n <> ns f \/ starts_with (bs "fs/") k = false -> get (store f') n k = get (store f) n k)
  /\ (policies (store f) !! ns f = None -> store f' = store f)
  /\ (no_dirty f -> Forall (fun x => writes_nothing x.2 = true) l -> store f' = store f).
Proof.
  cbv zeta. assert (confined f (run l f)) as Hc.
  { apply (run_moves (within (ns f))); [|done]. intros x g _. apply serve_within. }
  split_and!; [done| | |].
  - intros n k Hnk. unfold get. destruct (decide (n = ns f)) as [->|Hn].
    + destruct Hnk as [|Hk]; [done|]. destruct (cf_keys _ _ Hc k Hk) as [-> ->]. done.
    + by rewrite (frame_tombs _ _ _ _ (cf_frame _ _ Hc)), (frame_index _ _ _ _ (cf_frame _ _ Hc)).
  - intros Hp. apply (run_moves closed); [|done]. intros x g _. apply serve_closed.
  - intros Hd Hl. apply (run_moves clean); [|done]. intros x g Hx. apply clean_serve.
    rewrite Forall_forall in Hl. by apply Hl.
Qed.

End sessions.
End FsSpec.
