(* ===== verification/FsFile.v ===== *)
(** Files through the mount: what is written through a handle is what later
    reads return, and a rename moves content and expiry. *)

From S2P Require Import Prelude Moves Crc32 LogFormat Log LogSpec Utf8 StoreTypes Store StoreSpec StoreFrame ScanSpec Fs FsDemo FsSpec.
Import Store StoreSpec StoreFrame Fs FsSpec.

Module FsFile.

Section files.
Context `{Sha256, HexCrate, SerdeJson, InoOrder}.

(** ** Single writes to a mounted namespace *)

(** A mount as the daemon makes it: the namespace of a key, last writer wins. *)
Record mounted (f : MeshFs) : Prop := {
  mt_store : store_ok (store f);
  mt_policy : policies (store f) !! ns f = Some PLww;
  mt_ns : exists root, length root = 32%nat /\ ns f = bs "u/" ++ hex_encode root;
}.

(** Everything but the store. *)
Definition tables (f : MeshFs) := (ns f, owner_uid f, ino_map f, next_ino f, bufs f, next_fh f).

(** The entry of key [k] is now [o]; other keys are as before. *)
Record changed (k : bytes) (o : option Entry) (f f' : MeshFs) : Prop := {
  ch_tables : tables f' = tables f;
  ch_mounted : mounted f';
  ch_index : index (store f') !! (ns f, k) = o;
  ch_tomb : tombs (store f') !! (ns f, k) <> None <-> o = None;
  ch_index_other k' : k' <> k -> index (store f') !! (ns f, k') = index (store f) !! (ns f, k');
  ch_tombs_other k' : k' <> k -> tombs (store f') !! (ns f, k') = tombs (store f) !! (ns f, k');
  ch_log rs : log_holds (store f) (ns f) rs -> exists r, log_holds (store f') (ns f) (rs ++ [r]);
}.

Lemma ch_ns k o f f' : changed k o f f' -> ns f' = ns f.
Proof. intros C. by injection (ch_tables _ _ _ _ C). Qed.

Lemma ch_get k o f f' : changed k o f f' -> get (store f') (ns f) k = o.
Proof.
  intros C. unfold get. rewrite (ch_index _ _ _ _ C). destruct (tombs (store f') !! (ns f, k)) eqn:E; [|done].
  symmetry. apply (ch_tomb _ _ _ _ C). by rewrite E.
Qed.
Lemma ch_get_other k o f f' k' : changed k o f f' -> k' <> k -> get (store f') (ns f) k' = get (store f) (ns f) k'.
Proof. intros C Hk. unfold get. by rewrite (ch_index_other _ _ _ _ C), (ch_tombs_other _ _ _ _ C). Qed.

Lemma rid_length f : mounted f -> length (rid_arr f) = 32%nat.
Proof.
  intros [_ _ (root & Hl & En)]. unfold rid_arr. rewrite En.
  change (drop 2 (bs "u/" ++ hex_encode root)) with (hex_encode root).
  rewrite hex_decode_encode. cbn. by rewrite bool_decide_eq_true_2.
Qed.

(** The writes of the mount are authored by the key the namespace belongs to. *)
Lemma rid_root f root : length root = 32%nat -> ns f = bs "u/" ++ hex_encode root -> rid_arr f = root.
Proof.
  intros Hl En. unfold rid_arr. rewrite En. change (drop 2 (bs "u/" ++ hex_encode root)) with (hex_encode root).
  rewrite hex_decode_encode. cbn. by rewrite bool_decide_eq_true_2.
Qed.

(** A key and a value that fit a record. *)
Definition fits (k d : bytes) : Prop := blen k + blen d + 128 < 2 ^ 32.

Lemma put_record_wf k h rep d ex : is_u64 h -> length rep = 32%nat -> fits k d -> is_u64 ex ->
  LogFormat.wf_record (LogFormat.mkRecord (if ex =? 0 then LogFormat.TAG_PUT else LogFormat.TAG_PUT_TTL) k h rep rep d ex []).
Proof.
  unfold fits. intros Hh Hr Hf Hx. left. split_and!; [by destruct (ex =? 0)|by destruct (ex =? 0)| |].
  - split_and!; cbn; try done; try lia. destruct (Z.eqb_spec ex 0); [done|]. by intros [].
  - unfold LogFormat.payload_bytes. cbn [LogFormat.tag LogFormat.key LogFormat.replica LogFormat.author LogFormat.value].
    rewrite !length_app, !length_le_bytes, Hr. case_bool_decide; rewrite ?length_le_bytes; cbn [length]; lia.
Qed.

Lemma delete_record_wf k h rep : is_u64 h -> length rep = 32%nat -> fits k [] ->
  LogFormat.wf_record (LogFormat.mkRecord LogFormat.TAG_DEL k h rep rep [] 0 []).
Proof.
  unfold fits. cbn. intros Hh Hr Hf. left. split_and!; [done|done| |].
  - split_and!; cbn; try done; lia.
  - unfold LogFormat.payload_bytes. cbn [LogFormat.tag LogFormat.key LogFormat.replica LogFormat.author LogFormat.value].
    rewrite !length_app, !length_le_bytes, Hr. case_bool_decide; [done|]. cbn [length]. lia.
Qed.

Lemma holds_log f : mounted f -> exists rs, log_holds (store f) (ns f) rs.
Proof. intros [Hok Hp _]. destruct (ok_holds _ _ _ Hok Hp) as (L & d & rs & HL). by exists rs, L, d. Qed.

(** A write that ran as one local step of the store. *)
Lemma step_changed {A} er (m : store_m A) f st a o k :
  m (store f) = (st, Ok a) -> mounted f -> store_ok st -> frame [] (ns f) (store f) st ->
  (forall rs, log_holds (store f) (ns f) rs -> exists r, log_holds st (ns f) (rs ++ [r])) ->
  match o with
  | Some x => mem_of st = (<[(ns f, k) := x]> (index (store f)), base.delete (ns f, k) (tombs (store f)))
  | None => exists h, mem_of st = (base.delete (ns f, k) (index (store f)), <[(ns f, k) := h]> (tombs (store f)))
  end ->
  on_store er m f = (with_store st f, Ok a) /\ changed k o f (with_store st f).
Proof.
  intros E [Hok Hp Hn] Hok' Hfr Hl Hm. unfold on_store. rewrite E. split; [done|].
  assert (forall k', k' <> k -> (ns f, k') <> (ns f, k)) as Hne by congruence.
  split; [done|split; [done| |done]|..|exact Hl]; cbn.
  { by rewrite (frame_policies _ _ _ _ Hfr). }
  all: destruct o as [x|]; [|destruct Hm as [h Hm]]; injection Hm as Ei Et; rewrite ?Ei, ?Et.
  - apply lookup_insert_eq.
  - apply lookup_delete_eq.
  - rewrite lookup_delete_eq. naive_solver.
  - rewrite lookup_insert_eq. naive_solver.
  - intros k' Hk. apply lookup_insert_ne. intros ?. by destruct (Hne k' Hk).
  - intros k' Hk. apply lookup_delete_ne. intros ?. by destruct (Hne k' Hk).
  - intros k' Hk. apply lookup_delete_ne. intros ?. by destruct (Hne k' Hk).
  - intros k' Hk. apply lookup_insert_ne. intros ?. by destruct (Hne k' Hk).
Qed.

Lemma put_changed er k d h ex f : mounted f -> is_u64 h -> fits k d -> is_u64 ex ->
  exists f' n, on_store er (put (ns f) k d h (rid_arr f) (rid_arr f) ex) f = (f', Ok n)
    /\ changed k (Some (Lww (mkVersion h (rid_arr f) (rid_arr f) d n ex))) f f'.
Proof.
  intros Hm Hh Hf Hx. pose proof Hm as [Hok Hp Hn]. pose proof (rid_length f Hm) as Hr.
  destruct (holds_log f Hm) as [rs Hl]. pose proof (put_record_wf k h (rid_arr f) d ex Hh Hr Hf Hx) as Hwf.
  pose proof (fun rs Hl => put_run (store f) (ns f) PLww rs k d h (rid_arr f) (rid_arr f) ex Hok Hp Hl Hwf) as Hrun.
  destruct (Hrun rs Hl) as (st & hd & E & Hmem & Hl' & _). exists (with_store st f), (Z.of_nat (length rs) + 1).
  apply step_changed; [done|done| | | |].
  - pose proof (exec_keeps (OpPut (ns f) k d h (rid_arr f) (rid_arr f) ex) Hwf (store f) Hok) as Hk.
    revert Hk. cbn [exec]. unfold forget, mbind, method_bind. by rewrite E.
  - pose proof (frames_put [] (ns f) k d h (rid_arr f) (rid_arr f) ex (store f)) as Hfr. by rewrite E in Hfr.
  - intros rs' Hrs. destruct (Hrun rs' Hrs) as (st' & hd' & E' & _ & Hl2 & _). rewrite E in E'. simplify_eq. by eexists.
  - rewrite Hmem. unfold local_step, is_put. cbn [LogFormat.tag LogFormat.key]. rewrite bool_decide_eq_true_2; [done|].
    destruct (ex =? 0); [by left|by right].
Qed.

Lemma delete_changed er k h f : mounted f -> is_u64 h -> fits k [] ->
  exists f' n, on_store er (delete (ns f) k h (rid_arr f) (rid_arr f)) f = (f', Ok n) /\ changed k None f f'.
Proof.
  intros Hm Hh Hf. pose proof Hm as [Hok Hp Hn]. pose proof (rid_length f Hm) as Hr.
  destruct (holds_log f Hm) as [rs Hl]. pose proof (delete_record_wf k h (rid_arr f) Hh Hr Hf) as Hwf.
  pose proof (fun rs Hl => delete_run (store f) (ns f) PLww rs k h (rid_arr f) (rid_arr f) Hok Hp Hl Hwf) as Hrun.
  destruct (Hrun rs Hl) as (st & hd & E & Hmem & Hl'). exists (with_store st f), (Z.of_nat (length rs) + 1).
  apply step_changed; [done|done| | | |].
  - pose proof (exec_keeps (OpDelete (ns f) k h (rid_arr f) (rid_arr f)) Hwf (store f) Hok) as Hk.
    revert Hk. cbn [exec]. unfold forget, mbind, method_bind. by rewrite E.
  - pose proof (frames_delete [] (ns f) k h (rid_arr f) (rid_arr f) (store f)) as Hfr. by rewrite E in Hfr.
  - intros rs' Hrs. destruct (Hrun rs' Hrs) as (st' & hd' & E' & _ & Hl2). rewrite E in E'. simplify_eq. by eexists.
  - by exists h.
Qed.

Lemma authorized f : mounted f -> authorized_self f = true.
Proof. intros [_ Hp _]. unfold authorized_self, policy. rewrite Hp. by apply bool_decide_eq_true. Qed.

(** The expiry a commit gives: that of the hint, or of the value it replaces. *)
Definition commit_expiry (f : MeshFs) (path : bytes) (now : Z) (hint : option Z) : Z :=
  match hint with
  | None => live_expires_at f path now
  | Some h => if negb (h =? 0) && (now <? h) then h else 0
  end.

Lemma commit_run now h path d hint f : mounted f -> is_u64 h -> fits (key_of path) d ->
  is_u64 (commit_expiry f path now hint) ->
  exists f' n, commit_ttl now h path d hint f = (f', Ok tt)
    /\ changed (key_of path) (Some (Lww (mkVersion h (rid_arr f) (rid_arr f) d n (commit_expiry f path now hint)))) f f'.
Proof.
  intros Hm Hh Hf Hx. destruct (put_changed ENOSPC (key_of path) d h _ f Hm Hh Hf Hx) as (f' & n & E & C).
  exists f', n. split; [|done]. unfold commit_ttl. rewrite (method_bind_step self _ f f f eq_refl), authorized by done.
  rewrite (method_bind_step (need true EACCES) _ f f tt eq_refl). cbv zeta. fold (commit_expiry f path now hint).
  by rewrite (method_bind_step _ _ _ _ _ E).
Qed.

Lemma delete_path_run h path f : mounted f -> is_u64 h -> fits (key_of path) [] -> path <> [] ->
  exists f', delete_path h path f = (f', Ok tt) /\ changed (key_of path) None f f'.
Proof.
  intros Hm Hh Hf Hne. destruct (delete_changed EIO (key_of path) h f Hm Hh Hf) as (f' & n & E & C).
  exists f'. split; [|done]. unfold delete_path. rewrite (method_bind_step self _ f f f eq_refl), authorized by done.
  rewrite (method_bind_step (need true EACCES) _ f f tt eq_refl), bool_decide_eq_false_2 by done.
  rewrite (method_bind_step (need (negb false) ENOENT) _ f f tt eq_refl). by rewrite (method_bind_step _ _ _ _ _ E).
Qed.

(** ** The content of a file *)

(** [pwrite] on an array of bytes that is zero past its end. *)
Definition pwrite (b : bytes) (off : nat) (d : bytes) : bytes :=
  let b := resize (Nat.max (length b) (off + length d)) Byte.x00 b in
  take off b ++ d ++ drop (off + length d) b.

Lemma pwrite_length b off d : length (pwrite b off d) = Nat.max (length b) (off + length d).
Proof. unfold pwrite. rewrite !length_app, length_take, length_drop, length_resize. lia. Qed.

(** Byte by byte: the bytes written, the bytes there before, zeros between. *)
Lemma pwrite_byte b off d j : pwrite b off d !! j =
  if decide (off <= j < off + length d)%nat then d !! (j - off)%nat
  else if decide (j < length b)%nat then b !! j
  else if decide (j < off)%nat then Some Byte.x00 else None.
Proof.
  unfold pwrite. set (m := Nat.max _ _). assert (length (take off (resize m Byte.x00 b)) = off) as Ht
    by (rewrite length_take, length_resize; lia).
  destruct (decide (j < off)%nat) as [Hj|Hj].
  - rewrite decide_False by lia. rewrite lookup_app_l by lia. rewrite lookup_take_lt by lia.
    destruct (decide (j < length b)%nat); [by rewrite lookup_resize by lia|by rewrite lookup_resize_new by lia].
  - rewrite lookup_app_r by lia. rewrite Ht. destruct (decide (j < off + length d)%nat) as [Hd|Hd].
    + rewrite decide_True by lia. by rewrite lookup_app_l by lia.
    + rewrite decide_False by lia. rewrite lookup_app_r by lia. rewrite lookup_drop.
      replace (off + length d + (j - off - length d))%nat with j by lia.
      destruct (decide (j < length b)%nat); [by rewrite lookup_resize by lia|].
      apply lookup_ge_None_2. rewrite length_resize. lia.
Qed.

(** The content a handle holds after some writes; an appending one ignores
    the offsets. *)
Definition written (h : Handle) (ws : list (Z * bytes)) : bytes :=
  fold_left (fun b w => pwrite b (if append h then length b else Z.to_nat w.1) w.2) ws (data h).

Definition slice (b : bytes) (off sz : Z) : bytes := take (Z.to_nat sz) (drop (Z.to_nat off) b).

Context (e : env).

Lemma fs_write_run i fh off d f p h : path_of f i = Some p -> bufs f !! fh = Some h ->
  0 <= off -> (if append h then blen (data h) else off) + blen d < 2 ^ 64 -> blen d < 2 ^ 32 ->
  write i fh off d f = (set_handle fh (mkHandle (ino h) (written h [(off, d)]) true (append h)) f, Ok (blen d)).
Proof.
  intros Hp Hh Ho Hb Hd. unfold write, need_path.
  rewrite (method_bind_step _ _ f f p) by (unfold mbind, method_bind, self, lift; cbn; by rewrite Hp).
  rewrite (method_bind_step self _ f f f eq_refl).
  rewrite (method_bind_step (lift _) _ f f h) by (unfold lift; by rewrite Hh). cbv zeta.
  set (o := if append h then blen (data h) else off) in *. assert (0 <= o) by (unfold o; case_match; lia).
  rewrite u64_small by (unfold is_u64; lia).
  set (buf := if blen (data h) <? o + blen d then resize (Z.to_nat (o + blen d)) Byte.x00 (data h) else data h).
  assert (buf = resize (Nat.max (length (data h)) (Z.to_nat o + length d)) Byte.x00 (data h)) as Eb.
  { unfold buf. destruct (Z.ltb_spec (blen (data h)) (o + blen d)); [f_equal; lia|].
    symmetry. apply resize_all_alt. lia. }
  assert (length buf = Nat.max (length (data h)) (Z.to_nat o + length d)) as El by (by rewrite Eb, length_resize).
  replace (o + blen d <? o) with false by lia. replace (blen buf <? o + blen d) with false by lia. cbn [orb].
  rewrite (method_bind_step (update _) _ _ _ tt eq_refl). rewrite Z.mod_small by lia.
  unfold written, mret, method_ret. cbn [fold_left fst snd]. do 4 f_equal. unfold pwrite.
  replace (if append h then length (data h) else Z.to_nat off) with (Z.to_nat o) by (unfold o; case_match; lia).
  rewrite <-Eb. repeat f_equal. lia.
Qed.

Lemma written_cons h h' w ws : data h' = written h [w] -> append h' = append h -> written h' ws = written h (w :: ws).
Proof. intros Hd Ha. unfold written. rewrite Hd, Ha. done. Qed.

Lemma written_grows h ws : (length (data h) <= length (written h ws))%nat
  /\ Forall (fun w => ((if append h then length (data h) else Z.to_nat w.1) + length w.2 <= length (written h ws))%nat) ws.
Proof.
  unfold written. generalize (data h) as b. induction ws as [|w ws IH]; intros b; [done|]. cbn [fold_left].
  set (b' := pwrite b _ w.2). destruct (IH b') as [Hl Hf].
  assert (length b <= length b' /\ (if append h then length b else Z.to_nat w.1) + length w.2 <= length b')%nat as [Hb Hw]
    by (unfold b'; rewrite pwrite_length; lia).
  split; [lia|]. constructor; [lia|]. eapply Forall_impl; [exact Hf|]. intros x. cbv beta. case_match; lia.
Qed.

Lemma read_run i off sz f p v : path_of f i = Some p -> get (store f) (ns f) (key_of p) = Some (Lww v) ->
  unexpired (now_ms e 0) v = true -> 0 <= off -> 0 <= sz -> off + sz < 2 ^ 64 ->
  read e i off sz f = (f, Ok (slice (value v) off sz)).
Proof.
  intros Hp Hg Hu Ho Hs Hb. unfold read. rewrite (method_bind_step self _ f f f eq_refl), Hp. cbn [mbind option_bind].
  unfold read_value, winner. rewrite Hg. cbn [mbind option_bind]. rewrite Hu. cbn [fmap option_fmap option_map].
  cbv zeta. rewrite u64_small by (unfold is_u64; lia). unfold slice.
  destruct (Z.leb_spec (blen (value v)) off).
  - rewrite drop_ge by lia. by rewrite take_nil.
  - replace (Z.min (off + sz) (blen (value v)) <? off) with false by lia. unfold mret, method_ret. do 2 f_equal.
    destruct (Z.min_spec (off + sz) (blen (value v))) as [[? ->]|[? ->]]; [f_equal; lia|].
    rewrite !take_ge; [done|rewrite length_drop; lia..].
Qed.

End files.

Section session.
Context `{Sha256, HexCrate, SerdeJson, InoOrder}.

Lemma serve_all_app l1 l2 f : serve_all (l1 ++ l2) f =
  let '(f1, a1) := serve_all l1 f in let '(f2, a2) := serve_all l2 f1 in (f2, a1 ++ a2).
Proof.
  revert f. induction l1 as [|x l1 IH]; intros f; [cbn; by destruct (serve_all l2 f)|].
  cbn [List.app serve_all]. destruct (serve x.1 x.2 f) as [f1 a]. rewrite IH. destruct (serve_all l1 f1) as [f2 a1].
  by destruct (serve_all l2 f2).
Qed.

(** The writes of a session through handle [fh] of inode [i]. *)
Definition write_of (i fh : Z) (w : env * (Z * bytes)) : env * request := (w.1, Write i fh w.2.1 w.2.2).
Definition write_answer (w : env * (Z * bytes)) : outcome Errno answer := Ok (AWritten (blen w.2.2)).

Lemma writes_run i fh ws f p h : path_of f i = Some p -> bufs f !! fh = Some h ->
  Forall (fun w : env * (Z * bytes) => 0 <= w.2.1) ws -> blen (written h ws.*2) < 2 ^ 32 ->
  serve_all (write_of i fh <$> ws) f
  = (match ws with [] => f | _ => set_handle fh (mkHandle (ino h) (written h ws.*2) true (append h)) f end,
     write_answer <$> ws).
Proof.
  intros Hp Hh Hw Hb. revert f h Hp Hh Hb. induction Hw as [|[e [off d]] ws Ho Hw IH]; intros f h Hp Hh Hb; [done|].
  cbn in Ho. change (blen (written h ((off, d) :: ws.*2)) < 2 ^ 32) in Hb. destruct (written_grows h ((off, d) :: ws.*2)) as [Hg [Hg2 _]%Forall_cons]. cbn [fst snd] in Hg2.
  set (h' := mkHandle (ino h) (written h [(off, d)]) true (append h)).
  assert (written h' ws.*2 = written h ((off, d) :: ws.*2)) as Ew by (by apply written_cons).
  assert (serve e (Write i fh off d) f = (set_handle fh h' f, Ok (AWritten (blen d)))) as Es.
  { cbn [serve]. rewrite (method_bind_step _ _ _ _ _ (fs_write_run i fh off d f p h Hp Hh Ho
      ltac:(destruct (append h); lia) ltac:(destruct (append h); lia))). done. }
  cbn [fmap list_fmap serve_all]. unfold write_of at 1 2. cbn [fst snd]. rewrite Es.
  rewrite (IH (set_handle fh h' f) h'); [|done|cbn; apply lookup_insert_eq|by rewrite Ew].
  rewrite Ew. f_equal. destruct ws as [|w ws]; [done|]. unfold set_handle, with_bufs. cbn. by rewrite insert_insert_eq.
Qed.

Lemma flush_run e i fh f p h : path_of f i = Some p -> bufs f !! fh = Some h -> dirty h = true ->
  flush e i fh f = commit (now_ms e 0) (hlc_now e 0) p (data h) (drop_handle fh f).
Proof.
  intros Hp Hh Hd. unfold flush, need_path.
  rewrite (method_bind_step _ _ f f p) by (unfold mbind, method_bind, self, lift; cbn; by rewrite Hp).
  rewrite (method_bind_step self _ f f f eq_refl), (method_bind_step (update _) _ _ _ tt eq_refl). by rewrite Hh, Hd.
Qed.

(** A session through an open handle. *)
Lemma session_run e1 e2 i fh f p h ws off sz :
  let content := written h ws.*2 in
  let ex := live_expires_at f p (now_ms e1 0) in
  mounted f -> path_of f i = Some p -> bufs f !! fh = Some h -> dirty h = true \/ ws <> [] ->
  Forall (fun w : env * (Z * bytes) => 0 <= w.2.1) ws -> fits (key_of p) content ->
  is_u64 (hlc_now e1 0) -> is_u64 ex -> ex = 0 \/ now_ms e2 0 < ex ->
  0 <= off -> 0 <= sz -> off + sz < 2 ^ 64 ->
  exists f' n, serve_all ((write_of i fh <$> ws) ++ [(e1, Flush i fh); (e2, Read i off sz)]) f
      = (f', (write_answer <$> ws) ++ [Ok AOk; Ok (AData (slice content off sz))])
    /\ tables f' = tables (drop_handle fh f) /\ mounted f'
    /\ get (store f') (ns f) (key_of p) = Some (Lww (mkVersion (hlc_now e1 0) (rid_arr f) (rid_arr f) content n ex))
    /\ (forall k, k <> key_of p -> get (store f') (ns f) k = get (store f) (ns f) k)
    /\ (forall rs, log_holds (store f) (ns f) rs -> exists r, log_holds (store f') (ns f) (rs ++ [r])).
Proof.
  intros content ex Hm Hp Hh Hd Hw Hf Hhl Hex Hlive Ho Hs Hb. set (h' := mkHandle (ino h) content true (append h)).
  assert (blen content < 2 ^ 32) as Hc by (unfold fits in Hf; lia).
  rewrite serve_all_app, (writes_run i fh ws f p h Hp Hh Hw Hc).
  set (f1 := match ws with [] => f | _ => _ end).
  assert (store f1 = store f /\ ns f1 = ns f /\ path_of f1 i = Some p /\ drop_handle fh f1 = drop_handle fh f
    /\ exists hh, bufs f1 !! fh = Some hh /\ dirty hh = true /\ data hh = content) as (Es & En & Hp1 & Edr & hh & Hh1 & Hd1 & Ec).
  { unfold f1, content. destruct ws as [|w ws]; [|split_and!; try done].
    - destruct Hd as [Hd|]; [|done]. split_and!; [done..|]. by exists h.
    - unfold drop_handle, set_handle, with_bufs. cbn. by rewrite delete_insert_eq.
    - exists h'. cbn. by rewrite lookup_insert_eq. }
  cbn [serve_all fst snd]. set (f2 := drop_handle fh f) in *.
  destruct (commit_run (now_ms e1 0) (hlc_now e1 0) p content None f2) as (f' & n & Ef & C); [|done..|].
  { destruct Hm as [A B D]. by split. }
  assert (serve e1 (Flush i fh) f1 = (f', Ok AOk)) as ->.
  { cbn [serve]. unfold mbind, method_bind. rewrite (flush_run e1 i fh f1 p hh), Edr, Ec by done. unfold commit. by rewrite Ef. }
  pose proof (ch_ns _ _ _ _ C) as En'. change (ns f' = ns f) in En'.
  assert (path_of f' i = Some p) as Hp'.
  { rewrite <-Hp. unfold path_of. injection (ch_tables _ _ _ _ C) as _ _ Ei _ _ _. by rewrite Ei. }
  pose proof (ch_get _ _ _ _ C) as Hg. pose proof Hg as Hg2. change (ns f2) with (ns f) in Hg, Hg2. rewrite <-En' in Hg2.
  assert (serve e2 (Read i off sz) f' = (f', Ok (AData (slice content off sz)))) as ->.
  { cbn [serve]. unfold mbind, method_bind. rewrite (read_run e2 i off sz f' p _ Hp' Hg2); [done| |done..].
    unfold unexpired. cbn. apply orb_true_iff. destruct Hlive; [left; by apply Z.eqb_eq|right; by apply Z.ltb_lt]. }
  exists f', n. split_and!; [done|exact (ch_tables _ _ _ _ C)|exact (ch_mounted _ _ _ _ C)|exact Hg| |].
  - intros k Hk. exact (ch_get_other _ _ _ _ k C Hk).
  - exact (ch_log _ _ _ _ C).
Qed.

(** The handle that [open] gives. *)
Definition opened_handle (i : Z) (fl : OpenFlags) (b : bytes) : Handle :=
  let trunc := negb (Z.land (bits fl) O_TRUNC =? 0) in
  mkHandle i (if trunc then [] else b) trunc (negb (Z.land (bits fl) O_APPEND =? 0)).

Lemma open_run e i fl f p v : path_of f i = Some p -> get (store f) (ns f) (key_of p) = Some (Lww v) ->
  unexpired (now_ms e 0) v = true -> unexpired (now_ms e 1) v = true -> acc_mode fl <> O_RDONLY ->
  open e i fl f = (with_bufs (<[next_fh f := opened_handle i fl (value v)]> (bufs f)) (u64 (next_fh f + 1)) f, Ok (next_fh f)).
Proof.
  intros Hp Hg U0 U1 Ha. unfold open, need_path.
  rewrite (method_bind_step _ _ f f p) by (unfold mbind, method_bind, self, lift; cbn; by rewrite Hp).
  rewrite (method_bind_step self _ f f f eq_refl). unfold file_exists, latest_info, read_value, winner. rewrite Hg.
  cbn [mbind option_bind]. rewrite U0, U1. rewrite (method_bind_step (need _ _) _ f f tt) by done. cbv zeta.
  destruct (acc_mode fl); [done|..]; by rewrite (method_bind_step (update _) _ _ _ tt eq_refl).
Qed.

(** C16: what is written is what is read.  A file is opened for writing, written to,
    closed, and a range of it is read: every request succeeds and every write
    reports its length; the close appends one record, by the key the namespace
    belongs to; the read returns exactly that range of the file that the writes
    make of its content, or of the empty file when it was truncated, each at its
    offset or, when it was opened to append, at the end; no other key changes,
    and an expiry the file had is kept. *)
Theorem file_session e0 e1 e2 i fl f p v ws off sz :
  let fh := next_fh f in
  let h := opened_handle i fl (value v) in
  let content := written h ws.*2 in
  let ex := live_expires_at f p (now_ms e1 0) in
  mounted f -> path_of f i = Some p -> get (store f) (ns f) (key_of p) = Some (Lww v) ->
  unexpired (now_ms e0 0) v = true -> unexpired (now_ms e0 1) v = true ->
  acc_mode fl <> O_RDONLY -> dirty h = true \/ ws <> [] ->
  Forall (fun w : env * (Z * bytes) => 0 <= w.2.1) ws -> fits (key_of p) content ->
  is_u64 (hlc_now e1 0) -> is_u64 ex -> ex = 0 \/ now_ms e2 0 < ex ->
  0 <= off -> 0 <= sz -> off + sz < 2 ^ 64 ->
  exists f' n, serve_all ((e0, Open i fl) :: (write_of i fh <$> ws) ++ [(e1, Flush i fh); (e2, Read i off sz)]) f
      = (f', Ok (AOpened fh) :: (write_answer <$> ws) ++ [Ok AOk; Ok (AData (slice content off sz))])
    /\ get (store f') (ns f) (key_of p) = Some (Lww (mkVersion (hlc_now e1 0) (rid_arr f) (rid_arr f) content n ex))
    /\ (forall k, k <> key_of p -> get (store f') (ns f) k = get (store f) (ns f) k)
    /\ (forall rs, log_holds (store f) (ns f) rs -> exists r, log_holds (store f') (ns f) (rs ++ [r])).
Proof.
  intros fh h content ex Hm Hp Hg U0 U1 Ha Hd Hw Hf Hhl Hex Hlive Ho Hs Hb.
  pose proof (open_run e0 i fl f p v Hp Hg U0 U1 Ha) as Eo. fold fh h in Eo. set (f1 := with_bufs _ _ f) in Eo.
  destruct (session_run e1 e2 i fh f1 p h ws off sz) as (f' & n & Es & _ & _ & Hg' & Hoth & Hlog); try done.
  { destruct Hm as [A B D]. by split. } { cbn. apply lookup_insert_eq. }
  exists f', n. cbn [serve_all fst snd]. assert (serve e0 (Open i fl) f = (f1, Ok (AOpened fh))) as ->.
  { cbn [serve]. by rewrite (method_bind_step _ _ _ _ _ Eo). }
  rewrite Es. by split_and!.
Qed.

End session.

(** ** Witness *)

#[local] Existing Instances toy_sha256 hex_plain toy_json plain_inos.
Import FsDemo.

Lemma demo_mounted : mounted demo_mount.
Proof. split; [apply files_store_ok|reflexivity|]. by exists owner. Qed.

(** "hello" becomes "heLLo!", and its end is read. *)
Lemma file_session_witness :
  let f := demo_mount in
  let fh := next_fh f in
  let ws := [(demo_env, (2, bs "LL")); (demo_env, (5, bs "!"))] in
  exists f' n, serve_all ((demo_env, Open 2 (mkFlags O_RDWR 0)) :: (write_of 2 fh <$> ws)
        ++ [(demo_env, Flush 2 fh); (demo_env, Read 2 3 10)]) f
      = (f', Ok (AOpened fh) :: (write_answer <$> ws) ++ [Ok AOk; Ok (AData (bs "Lo!"))])
    /\ get (store f') (ns f) (key_of (bs "note")) = Some (Lww (mkVersion (hlc_now demo_env 0) owner owner (bs "heLLo!") n 0))
    /\ (forall k, k <> key_of (bs "note") -> get (store f') (ns f) k = get (store f) (ns f) k)
    /\ (forall rs, log_holds (store f) (ns f) rs -> exists r, log_holds (store f') (ns f) (rs ++ [r])).
Proof.
  cbv zeta. pose proof (file_session demo_env demo_env demo_env 2 (mkFlags O_RDWR 0) demo_mount (bs "note")
    (mkVersion 7 owner owner (bs "hello") 1 0) [(demo_env, (2, bs "LL")); (demo_env, (5, bs "!"))] 3 10) as W.
  cbv zeta in W. assert (live_expires_at demo_mount (bs "note") (now_ms demo_env 0) = 0) as Ex by (by vm_compute).
  assert (written (opened_handle 2 (mkFlags O_RDWR 0) (bs "hello")) [(2, bs "LL"); (5, bs "!")] = bs "heLLo!") as Ew
    by (by vm_compute).
  cbn [value fmap list_fmap snd] in W. rewrite Ex, Ew in W.
  assert (slice (bs "heLLo!") 3 10 = bs "Lo!") as Es by (by vm_compute).
  assert (rid_arr demo_mount = owner) as Er by (by vm_compute). rewrite Es, Er in W.
  specialize (W demo_mounted ltac:(by vm_compute) ltac:(by vm_compute) ltac:(done) ltac:(done) ltac:(done) ltac:(by right)
    ltac:(by repeat constructor) ltac:(by vm_compute) (u64_range _) ltac:(unfold is_u64; lia) ltac:(by left)
    ltac:(done) ltac:(done) ltac:(done)). exact W.
Defined.

End FsFile.
