(* ===== verification/FsRename.v ===== *)
(** Renaming and removing through the mount: a renamed file or directory is
    found under its new name, content and expiry included, and a removed
    directory leaves nothing behind. *)

From S2P Require Import Prelude Moves Crc32 LogFormat Log LogSpec Utf8 StoreTypes Store StoreSpec StoreFrame ScanSpec Fs FsDemo FsSpec FsFile.
Import Store StoreSpec StoreFrame Fs FsSpec FsFile.

Module FsRename.

Section rename.
Context `{Sha256, HexCrate, SerdeJson, InoOrder}.

(** ** Loops over the keys of a directory *)

Lemma mounted_lww f k en : mounted f -> get (store f) (ns f) k = Some en -> exists v, en = Lww v.
Proof.
  intros [Hok Hp _] Hg. unfold get in Hg. destruct (tombs (store f) !! (ns f, k)); [done|].
  destruct (ok_shape _ Hok _ _ _ Hg) as (p & Hp' & Hs). rewrite Hp in Hp'. simplify_eq. destruct en; [by eexists|done].
Qed.

Lemma elem_of_scan_keys s n p k : k ∈ scan_keys s n p <-> is_Some (index s !! (n, k)) /\ starts_with p k = true.
Proof.
  change (scan_keys s n p) with (scan s n p).*1. rewrite list_elem_of_fmap. split.
  - intros ([k' en] & -> & Hin). apply ScanSpec.elem_of_scan in Hin as [Hi Hs]. split; [by eexists|done].
  - intros [[en Hi] Hs]. exists (k, en). split; [done|]. by apply ScanSpec.elem_of_scan.
Qed.

Lemma NoDup_scan_keys s n p : NoDup (scan_keys s n p).
Proof. apply (ScanSpec.scan_sorted s n p). Qed.

(** A key that shows a value is listed. *)
Lemma shown_listed s n p k en : get s n k = Some en -> starts_with p k = true -> k ∈ scan_keys s n p.
Proof.
  intros Hg Hs. apply elem_of_scan_keys. split; [|done]. unfold get in Hg. destruct (tombs s !! (n, k)); [done|]. by eexists.
Qed.

Lemma tables_ns f f' : tables f' = tables f -> ns f' = ns f.
Proof. intros E. by injection E. Qed.

Lemma tables_rid f f' : tables f' = tables f -> rid_arr f' = rid_arr f.
Proof. intros E. unfold rid_arr. by rewrite (tables_ns _ _ E). Qed.

Context (e : env).

(** ** Directories *)

Section directory.
Context (old new : bytes) (f0 : MeshFs).
Context (Hh : is_u64 (hlc_now e 0)).
(** Neither directory is in the other. *)
Context (Hdis : forall r r', new ++ r <> old ++ r').
(** What is stored fits a record under either name. *)
Context (Hfit : forall r v, get (store f0) (ns f0) (old ++ r) = Some (Lww v) ->
  fits (old ++ r) [] /\ fits (new ++ r) (value v) /\ is_u64 (expires_at v)).

(** The version that the move leaves. *)
Definition moved (v : Version) (n : Z) : Version :=
  mkVersion (hlc_now e 0) (rid_arr f0) (rid_arr f0) (value v) n (expires_at v).

(** The keys [l] have been moved. *)
Record moved_to (l : list bytes) (f f' : MeshFs) : Prop := {
  mv_tables : tables f' = tables f;
  mv_mounted : mounted f';
  mv_gone k : k ∈ l -> get (store f') (ns f) k = None;
  mv_there r v : old ++ r ∈ l -> get (store f) (ns f) (old ++ r) = Some (Lww v) ->
    exists n, get (store f') (ns f) (new ++ r) = Some (Lww (moved v n));
  mv_other k : k ∉ l -> (forall r, k = new ++ r -> old ++ r ∈ l -> get (store f) (ns f) (old ++ r) = None) ->
    get (store f') (ns f) k = get (store f) (ns f) k;
}.

Lemma move_key_run r f : mounted f -> tables f = tables f0 ->
  get (store f) (ns f) (old ++ r) = get (store f0) (ns f0) (old ++ r) ->
  exists f', move_key e old new (old ++ r) f = (f', Ok tt) /\ moved_to [old ++ r] f f'.
Proof.
  intros Hm Ht Hg. unfold move_key. rewrite (method_bind_step self _ f f f eq_refl). cbv zeta.
  rewrite drop_app_length. destruct (get (store f) (ns f) (old ++ r)) as [en|] eqn:Eg.
  2:{ exists f. split; [done|]. split; [done|done| | |done].
    - intros k ->%list_elem_of_singleton. done.
    - intros r' v [= ->%app_inv_head]%list_elem_of_singleton Hv. congruence. }
  destruct (mounted_lww f _ _ Hm Eg) as [v ->]. destruct (Hfit r v (eq_sym Hg)) as (F1 & F2 & F3).
  destruct (put_changed EIO (new ++ r) (value v) (hlc_now e 0) (expires_at v) f Hm Hh F2 F3) as (f1 & n & E1 & C1).
  rewrite (method_bind_step _ _ _ _ _ E1).
  destruct (delete_changed EIO (old ++ r) (hlc_now e 0) f1 (ch_mounted _ _ _ _ C1) Hh F1) as (f2 & n2 & E2 & C2).
  pose proof (ch_ns _ _ _ _ C1) as En1. rewrite En1, (tables_rid f f1 (ch_tables _ _ _ _ C1)) in E2.
  rewrite (method_bind_step _ _ _ _ _ E2). exists f2. split; [done|].
  assert (forall k, k <> old ++ r -> k <> new ++ r -> get (store f2) (ns f) k = get (store f) (ns f) k) as Hoth.
  { intros k K1 K2. rewrite <-En1. rewrite (ch_get_other _ _ _ _ k C2 K1), En1. by apply (ch_get_other _ _ _ _ k C1). }
  split.
  - rewrite (ch_tables _ _ _ _ C2). exact (ch_tables _ _ _ _ C1).
  - exact (ch_mounted _ _ _ _ C2).
  - intros k ->%list_elem_of_singleton. rewrite <-En1. exact (ch_get _ _ _ _ C2).
  - intros r' v' [= ->%app_inv_head]%list_elem_of_singleton Hv. rewrite Eg in Hv. injection Hv as <-. exists n.
    rewrite <-En1. rewrite (ch_get_other _ _ _ _ (new ++ r) C2 (Hdis r r)), En1.
    rewrite (ch_get _ _ _ _ C1). unfold moved. by rewrite <-(tables_rid _ _ Ht).
  - intros k Hk Hn. rewrite list_elem_of_singleton in Hk. destruct (decide (k = new ++ r)) as [->|Hne]; [|by apply Hoth].
    specialize (Hn r eq_refl). rewrite Eg in Hn. specialize (Hn ltac:(by apply list_elem_of_singleton)). done.
Qed.

Lemma move_keys_run l f : mounted f -> tables f = tables f0 -> NoDup l -> Forall (fun k => exists r, k = old ++ r) l ->
  (forall k, k ∈ l -> get (store f) (ns f) k = get (store f0) (ns f0) k) ->
  exists f', for_each (move_key e old new) l f = (f', Ok tt) /\ moved_to l f f'.
Proof.
  intros Hm Ht Hnd Hl. revert f Hm Ht. induction Hl as [|k l [r ->] Hl IH]; intros f Hm Ht Hg.
  { exists f. split; [done|]. split; [done|done|by intros k ?%elem_of_nil|by intros r v ?%elem_of_nil|done]. }
  apply NoDup_cons in Hnd as [Hk Hnd]. destruct (move_key_run r f Hm Ht (Hg _ ltac:(by left))) as (f1 & E1 & M1).
  pose proof (mv_tables _ _ _ M1) as T1. pose proof (tables_ns _ _ T1) as N1.
  assert (forall k, k ∈ l -> get (store f1) (ns f) k = get (store f) (ns f) k) as Hsame.
  { intros k Hin. apply (mv_other _ _ _ M1).
    - rewrite list_elem_of_singleton. intros ->. done.
    - intros r' -> _. rewrite Forall_forall in Hl. destruct (Hl _ Hin) as [r'' E]. by destruct (Hdis r' r''). }
  destruct (IH Hnd f1 (mv_mounted _ _ _ M1)) as (f2 & E2 & M2); [congruence| |].
  { intros k Hin. rewrite N1, (Hsame k Hin). apply Hg. by right. }
  exists f2. cbn [for_each]. rewrite (method_bind_step _ _ _ _ _ E1). split; [done|].
  pose proof (mv_gone _ _ _ M2) as G2. pose proof (mv_there _ _ _ M2) as R2. pose proof (mv_other _ _ _ M2) as O2.
  rewrite N1 in G2, R2, O2. rewrite Forall_forall in Hl. split.
  - rewrite (mv_tables _ _ _ M2). done.
  - exact (mv_mounted _ _ _ M2).
  - intros k [->|Hin]%elem_of_cons; [|by apply G2]. rewrite O2; [|done|].
    + apply (mv_gone _ _ _ M1). by left.
    + intros r' E. by destruct (Hdis r' r).
  - intros r' v [E%app_inv_head|Hin]%elem_of_cons Hv; [subst r'|].
    + destruct (mv_there _ _ _ M1 r v ltac:(by left) Hv) as [n Hn]. exists n. rewrite O2; [done| |].
      * intros Hin. destruct (Hl _ Hin) as [r'' E]. by destruct (Hdis r r'').
      * intros r' <-%app_inv_head Hin. done.
    + rewrite <-(Hsame _ Hin) in Hv. by apply R2.
  - intros k Hk' Hn. apply not_elem_of_cons in Hk' as [K1 K2]. rewrite O2; [|done|].
    + apply (mv_other _ _ _ M1); [by rewrite list_elem_of_singleton|]. intros r' -> ->%list_elem_of_singleton%app_inv_head.
      apply Hn; [done|by left].
    + intros r' -> Hin. rewrite (Hsame _ Hin). apply Hn; [done|by right].
Qed.

End directory.
Lemma need_path_run {A} i f p (k : bytes -> fs_m A) : path_of f i = Some p -> (need_path i ≫= k) f = k p f.
Proof. intros Hp. unfold need_path, mbind, method_bind, self, lift. cbn. by rewrite Hp. Qed.

(** Directories neither of which is in the other share no keys. *)
Lemma apart old new : starts_with old new = false -> starts_with new old = false -> forall r r', new ++ r <> old ++ r'.
Proof.
  intros H12 H21 r r' E. assert (old `prefix_of` new ++ r) as Hp by (rewrite E; by apply prefix_app_r).
  destruct (prefix_weak_total old new (new ++ r)) as [[x ->]|[x ->]]; [done|by apply prefix_app_r| |].
  - assert (starts_with old (old ++ x) = true) by (apply starts_with_spec; by eexists). congruence.
  - assert (starts_with new (new ++ x) = true) by (apply starts_with_spec; by eexists). congruence.
Qed.

(** C19: renaming a directory moves everything in it.  Unless one of the two lies in
    the other, every value below the old name is found at the same place below
    the new name, with its content and expiry and as a write of the mount's key;
    nothing is left below the old name; and every other key, among them what the
    new name held at other places, is as before. *)
Theorem rename_moves_directory f parent pp name newparent np newname :
  let from := join_child pp name in
  let to := join_child np newname in
  let old := dir_prefix from in
  let new := dir_prefix to in
  mounted f -> path_of f parent = Some pp -> path_of f newparent = Some np ->
  from <> to -> file_exists f from (now_ms e 0) = false -> dir_exists f from = true ->
  starts_with old new = false -> starts_with new old = false -> is_u64 (hlc_now e 0) ->
  (forall r v, get (store f) (ns f) (old ++ r) = Some (Lww v) ->
     fits (old ++ r) [] /\ fits (new ++ r) (value v) /\ is_u64 (expires_at v)) ->
  exists f', rename e parent name newparent newname true f = (f', Ok tt)
    /\ tables f' = tables f /\ mounted f'
    /\ (forall r, get (store f') (ns f) (old ++ r) = None)
    /\ (forall r v, get (store f) (ns f) (old ++ r) = Some (Lww v) ->
          exists n, get (store f') (ns f) (new ++ r) = Some (Lww (moved f v n)))
    /\ (forall k, starts_with old k = false ->
          (forall r, k = new ++ r -> get (store f) (ns f) (old ++ r) = None) ->
          get (store f') (ns f) k = get (store f) (ns f) k).
Proof.
  intros from to old new Hm Hp Hnp Hne Hnf Hd H12 H21 Hh Hfit. unfold rename.
  rewrite (method_bind_step (need true ENOSYS) _ f f tt eq_refl), (method_bind_step self _ f f f eq_refl).
  rewrite (need_path_run _ _ _ _ Hp), (need_path_run _ _ _ _ Hnp). cbv zeta. fold from to old new.
  rewrite bool_decide_eq_false_2, authorized by done. rewrite (method_bind_step (need true EACCES) _ f f tt eq_refl).
  rewrite Hnf, Hd. set (l := scan_keys (store f) (ns f) old).
  destruct (move_keys_run old new f Hh (apart old new H12 H21) Hfit l f Hm eq_refl (NoDup_scan_keys _ _ _)) as (f' & E & [T M G R O]).
  { apply Forall_forall. intros k [_ [r ->]%starts_with_spec]%elem_of_scan_keys. by eexists. }
  { done. }
  exists f'. split_and!; [done..| | |].
  - intros r. destruct (get (store f) (ns f) (old ++ r)) as [en|] eqn:Eg.
    + apply G, (shown_listed _ _ _ _ _ Eg). apply starts_with_spec. by eexists.
    + destruct (decide (old ++ r ∈ l)) as [Hin|Hin]; [by apply G|]. rewrite O; [done..|].
      intros r' E'. by destruct (apart old new H12 H21 r' r).
  - intros r v Hv. apply (R r v); [|done]. apply (shown_listed _ _ _ _ _ Hv), starts_with_spec. by eexists.
  - intros k Hk Hn. apply O; [|intros r -> _; by apply Hn]. intros [_ Hs]%elem_of_scan_keys. congruence.
Qed.

(** A renamed file. *)
Lemma rename_file f parent pp name newparent np newname v :
  let from := join_child pp name in
  let to := join_child np newname in
  mounted f -> path_of f parent = Some pp -> path_of f newparent = Some np -> from <> to -> from <> [] ->
  get (store f) (ns f) (key_of from) = Some (Lww v) ->
  (forall n, (n < 4)%nat -> unexpired (now_ms e n) v = true) ->
  fits (key_of from) [] -> fits (key_of to) (value v) -> is_u64 (expires_at v) ->
  is_u64 (hlc_now e 0) -> is_u64 (hlc_now e 1) ->
  exists f' n, rename e parent name newparent newname true f = (f', Ok tt)
    /\ tables f' = tables f /\ mounted f'
    /\ get (store f') (ns f) (key_of to) = Some (Lww (moved f v n))
    /\ get (store f') (ns f) (key_of from) = None
    /\ (forall k, k <> key_of from -> k <> key_of to -> get (store f') (ns f) k = get (store f) (ns f) k).
Proof.
  intros from to Hm Hp Hnp Hne Hroot Hg Hu F1 F2 Hx Hh0 Hh1. unfold rename.
  rewrite (method_bind_step (need true ENOSYS) _ f f tt eq_refl), (method_bind_step self _ f f f eq_refl).
  rewrite (need_path_run _ _ _ _ Hp), (need_path_run _ _ _ _ Hnp). cbv zeta. fold from to.
  rewrite bool_decide_eq_false_2, authorized by done. rewrite (method_bind_step (need true EACCES) _ f f tt eq_refl).
  unfold file_exists, latest_info, read_value, winner. rewrite Hg. cbn [mbind option_bind].
  rewrite (Hu 0%nat), (Hu 1%nat) by lia. cbn [fmap option_fmap option_map]. rewrite bool_decide_eq_true_2 by done.
  assert (commit_expiry f to (now_ms e 3) (Some (live_expires_at f from (now_ms e 2))) = expires_at v) as Ex.
  { unfold commit_expiry, live_expires_at, expiring. rewrite Hg. pose proof (Hu 2%nat ltac:(lia)) as U2.
    pose proof (Hu 3%nat ltac:(lia)) as U3. unfold unexpired in U2, U3.
    destruct (Z.eqb_spec (expires_at v) 0) as [->|]; [done|]. cbn in U2, U3. rewrite U2. cbn.
    rewrite U3, (proj2 (Z.eqb_neq _ _)) by done. done. }
  destruct (commit_run (now_ms e 3) (hlc_now e 0) to (value v) (Some (live_expires_at f from (now_ms e 2))) f Hm Hh0 F2)
    as (f1 & n & E1 & C1); [by rewrite Ex|]. rewrite Ex in C1. rewrite (method_bind_step _ _ _ _ _ E1).
  destruct (delete_path_run (hlc_now e 1) from f1 (ch_mounted _ _ _ _ C1) Hh1 F1 Hroot) as (f2 & E2 & C2).
  pose proof (ch_ns _ _ _ _ C1) as N1. assert (key_of to <> key_of from) as Hk by (intros ?%app_inv_head; congruence).
  exists f2, n. split_and!; [done|rewrite (ch_tables _ _ _ _ C2); exact (ch_tables _ _ _ _ C1)|exact (ch_mounted _ _ _ _ C2)|..].
  - rewrite <-N1, (ch_get_other _ _ _ _ _ C2 Hk), N1. exact (ch_get _ _ _ _ C1).
  - rewrite <-N1. exact (ch_get _ _ _ _ C2).
  - intros k K1 K2. rewrite <-N1, (ch_get_other _ _ _ _ k C2 K1), N1. exact (ch_get_other _ _ _ _ k C1 K2).
Qed.

End rename.

(** ** Witness *)

#[local] Existing Instances toy_sha256 hex_plain toy_json plain_inos.
Import FsDemo.

Lemma demo_below v r : get (store demo_mount) (ns demo_mount) (dir_prefix (bs "d") ++ r) = Some (Lww v) ->
  (r = bs "a" /\ value v = bs "aa" /\ expires_at v = 0) \/ (r = bs "b" /\ value v = bs "bb" /\ expires_at v = 5000).
Proof.
  intros Hg. assert (dir_prefix (bs "d") ++ r ∈ scan_keys (store demo_mount) (ns demo_mount) (dir_prefix (bs "d"))) as Hin.
  { apply (shown_listed _ _ _ _ _ Hg), starts_with_spec. by eexists. }
  assert (scan_keys (store demo_mount) (ns demo_mount) (dir_prefix (bs "d"))
    = [dir_prefix (bs "d") ++ bs "a"; dir_prefix (bs "d") ++ bs "b"]) as E by (by vm_compute).
  assert (get (store demo_mount) (ns demo_mount) (dir_prefix (bs "d") ++ bs "a")
    = Some (Lww (mkVersion 7 owner owner (bs "aa") 2 0))) as Ea by (by vm_compute).
  assert (get (store demo_mount) (ns demo_mount) (dir_prefix (bs "d") ++ bs "b")
    = Some (Lww (mkVersion 7 owner owner (bs "bb") 3 5000))) as Eb by (by vm_compute).
  rewrite E, !elem_of_cons, elem_of_nil in Hin. destruct Hin as [Er|[Er|[]]]; apply app_inv_head in Er; subst r.
  - rewrite Ea in Hg. injection Hg as <-. left. split_and!; reflexivity.
  - rewrite Eb in Hg. injection Hg as <-. right. split_and!; reflexivity.
Qed.

Lemma demo_fits r v : get (store demo_mount) (ns demo_mount) (dir_prefix (bs "d") ++ r) = Some (Lww v) ->
  fits (dir_prefix (bs "d") ++ r) [] /\ fits (dir_prefix (bs "e") ++ r) (value v) /\ is_u64 (expires_at v).
Proof. intros [(-> & -> & ->)|(-> & -> & ->)]%demo_below; (split; [by vm_compute|split; [by vm_compute|unfold is_u64; lia]]). Qed.

(** [d] becomes [e], with both files. *)
Lemma rename_moves_directory_witness :
  let f := demo_mount in
  exists f', rename demo_env ROOT_INO (bs "d") ROOT_INO (bs "e") true f = (f', Ok tt)
    /\ tables f' = tables f /\ mounted f'
    /\ (forall r, get (store f') (ns f) (bs "fs/d/" ++ r) = None)
    /\ (forall r v, get (store f) (ns f) (bs "fs/d/" ++ r) = Some (Lww v) ->
          exists n, get (store f') (ns f) (bs "fs/e/" ++ r) = Some (Lww (moved demo_env f v n)))
    /\ (forall k, starts_with (bs "fs/d/") k = false ->
          (forall r, k = bs "fs/e/" ++ r -> get (store f) (ns f) (bs "fs/d/" ++ r) = None) ->
          get (store f') (ns f) k = get (store f) (ns f) k).
Proof.
  cbv zeta. pose proof (rename_moves_directory demo_env demo_mount ROOT_INO [] (bs "d") ROOT_INO [] (bs "e")) as W.
  cbv zeta in W. change (dir_prefix (join_child [] (bs "d"))) with (bs "fs/d/") in W.
  change (dir_prefix (join_child [] (bs "e"))) with (bs "fs/e/") in W.
  exact (W demo_mounted eq_refl eq_refl ltac:(done) ltac:(by vm_compute) ltac:(by vm_compute) ltac:(done) ltac:(done)
    (u64_range _) demo_fits).
Defined.

End FsRename.
