(* ===== verification/FsDir.v ===== *)
(** Directories of the mount: what a listing shows, that it agrees with
    looking names up, and that reading it page by page shows everything once. *)

From S2P Require Import Prelude Moves Crc32 LogFormat Log LogSpec Utf8 StoreTypes Store StoreSpec StoreFrame ScanSpec Fs FsDemo FsSpec FsFile FsRename.
Import Store StoreSpec StoreFrame Fs FsSpec FsFile FsRename.

Module FsDir.

Section dir.
Context `{Sha256, HexCrate, SerdeJson, InoOrder}.

(** ** Names *)

(** A name the kernel can ask for. *)
Record good_name (n : bytes) : Prop := {
  gn_some : n <> [];
  gn_flat : SLASH ∉ n;
  gn_dot : n <> bs ".";
  gn_dots : n <> bs "..";
}.

Definition NUL : byte := Byte.x00.

Lemma find_none n : SLASH ∉ n -> list_find (eq SLASH) n = None.
Proof. intros Hn. apply list_find_None, Forall_forall. intros b Hb <-. done. Qed.

Lemma find_first n r : SLASH ∉ n -> list_find (eq SLASH) (n ++ SLASH :: r) = Some (length n, SLASH).
Proof.
  intros Hn. apply list_find_Some. split_and!; [|done|].
  - by rewrite lookup_app_r, Nat.sub_diag by lia.
  - intros j y Hj Hlt Hy. subst y. rewrite lookup_app_l in Hj by done. by apply Hn, list_elem_of_lookup_2 with j.
Qed.

(** A path is one segment, or a segment and what follows it. *)
Lemma segments rel : SLASH ∉ rel \/ exists n r, rel = n ++ SLASH :: r /\ SLASH ∉ n.
Proof.
  induction rel as [|b rel IH]; [left; apply not_elem_of_nil|]. destruct (decide (b = SLASH)) as [->|Hb].
  { right. exists [], rel. split; [done|apply not_elem_of_nil]. }
  destruct IH as [Hn|(n & r & -> & Hn)]; [left|right; exists (b :: n), r; split; [done|]]; by apply not_elem_of_cons.
Qed.

(** The name of a segment, unless it is one the kernel has no use for. *)
Definition clean_name (n : bytes) (d : bool) : option (bytes * bool) :=
  if bool_decide (n = []) || (bool_decide (n = bs ".") || bool_decide (n = bs "..")) then None else Some (n, d).

Lemma child_name_run n o : SLASH ∉ n -> child_name (n ++ match o with Some r => SLASH :: r | None => [] end) =
  if bool_decide (NUL ∈ n ++ match o with Some r => SLASH :: r | None => [] end) then None
  else clean_name n (bool_decide (is_Some o)).
Proof.
  intros Hn. unfold child_name, clean_name. set (rel := n ++ _). change Byte.x00 with NUL.
  destruct (bool_decide (NUL ∈ rel)); [by rewrite orb_true_r|]. rewrite orb_false_r.
  destruct o as [r|]; subst rel.
  - rewrite (bool_decide_eq_false_2 (n ++ SLASH :: r = [])) by (by destruct n). rewrite find_first by done. cbn [fmap option_fmap option_map fst default from_option id].
    rewrite take_app_length, length_app. cbn [length]. destruct n as [|b n]; [done|].
    rewrite (bool_decide_eq_false_2 (length (b :: n) = 0%nat)) by done. rewrite (bool_decide_eq_false_2 (b :: n = [])) by done.
    cbn [orb]. rewrite (bool_decide_eq_true_2 (is_Some (Some r))) by done. destruct (_ || _); [done|]. do 2 f_equal. apply Nat.ltb_lt. lia.
  - rewrite app_nil_r. rewrite find_none by done. cbn [fmap option_fmap option_map default from_option id].
    rewrite take_ge, Nat.ltb_irrefl by done. destruct n as [|b n]; [done|].
    rewrite (bool_decide_eq_false_2 (b :: n = [])) by done. cbn [orb].
    rewrite (bool_decide_eq_false_2 (length (b :: n) = 0%nat)) by done.
    by rewrite (bool_decide_eq_false_2 (is_Some None)) by (by intros []).
Qed.

Lemma clean_name_good n d x : SLASH ∉ n -> clean_name n d = Some x <-> good_name n /\ x = (n, d).
Proof.
  intros Hn. unfold clean_name. repeat case_bool_decide; cbn; (split; [intros [= <-]; split; [by split|done]|intros [[] ->]; done]) ||
    (split; [done|intros [[] _]; done]).
Qed.

(** The child a key below a directory belongs to. *)
Lemma child_name_spec rel n d : child_name rel = Some (n, d) <->
  NUL ∉ rel /\ good_name n /\ if d then exists r, rel = n ++ SLASH :: r else rel = n.
Proof.
  assert (exists m o, rel = m ++ match o with Some r => SLASH :: r | None => [] end /\ SLASH ∉ m) as (m & o & Er & Hm).
  { destruct (segments rel) as [Hn|(m & r & -> & Hn)]; [exists rel, None; by rewrite app_nil_r|by exists m, (Some r)]. }
  rewrite Er at 1. rewrite child_name_run, <-Er by done. case_bool_decide; [naive_solver|].
  rewrite (clean_name_good m) by done. split.
  - intros [Hg [= -> ->]]. split_and!; [done..|]. destruct o as [r|]; cbn; [by exists r|by rewrite app_nil_r in Er].
  - intros (_ & Hg & Hd). assert (n = m /\ d = bool_decide (is_Some o)) as [-> ->]; [|done].
    pose proof (gn_flat n Hg) as Hn. destruct d; [destruct Hd as [r Hd]; rewrite Hd in Er|rewrite Hd in Er]; destruct o as [r'|].
    + apply (f_equal (split_once SLASH)) in Er. rewrite !split_once_app in Er by done. by simplify_eq.
    + exfalso. apply Hm. rewrite app_nil_r in Er. rewrite <-Er. set_solver.
    + exfalso. apply Hn. rewrite Er. set_solver.
    + rewrite app_nil_r in Er. done.
Qed.

(** ** The children of a directory *)

Lemma longer_not_below (a : bytes) b r : ~ cle (a ++ b :: r) a.
Proof.
  unfold cle. intros Hc. apply Hc. clear Hc. change (list_cmp (a ++ b :: r) a = Gt).
  induction a as [|x a IH]; [done|]. cbn [list_cmp List.app]. by rewrite cmp_refl.
Qed.

Definition has_child (prefix : bytes) (l : list bytes) (n : bytes) (d : bool) : Prop :=
  exists k, k ∈ l /\ child_name (drop (length prefix) k) = Some (n, d).

Lemma has_child_snoc prefix l k n d :
  has_child prefix (l ++ [k]) n d <-> has_child prefix l n d \/ child_name (drop (length prefix) k) = Some (n, d).
Proof. unfold has_child. setoid_rewrite elem_of_app. setoid_rewrite list_elem_of_singleton. naive_solver. Qed.

(** In key order a file comes before what lies below its name, so a name that is
    both is listed as a directory. *)
Lemma fold_children prefix l n d : StronglySorted cle l -> Forall (fun k => starts_with prefix k = true) l ->
  fold_left (add_child prefix) l ∅ !! n = Some d
  <-> has_child prefix l n d /\ (d = false -> ~ has_child prefix l n true).
Proof.
  intros Hs Hp. revert d. induction l as [|k l IH] using rev_ind; intros d.
  { cbn. rewrite lookup_empty. split; [done|]. intros [(k & Hk & _) _]. by apply elem_of_nil in Hk. }
  apply Forall_app in Hp as [Hp [[r ->]%starts_with_spec _]%Forall_cons].
  assert (forall x, x ∈ l -> cle x (prefix ++ r)) as Hle.
  { intros x Hx. eapply (StronglySorted_app_1_elem_of cle l [prefix ++ r]); [done..|by left]. }
  specialize (IH (StronglySorted_app_1_l _ _ _ Hs) Hp). rewrite fold_left_app. cbn [fold_left].
  unfold add_child at 1. rewrite !has_child_snoc, drop_app_length.
  destruct (child_name r) as [[m dm]|] eqn:Ec; [|rewrite IH; naive_solver].
  destruct (decide (m = n)) as [->|Hne]; [|rewrite lookup_insert_ne, IH by done; naive_solver].
  rewrite lookup_insert_eq. split; [|].
  - intros [= ->]. split; [by right|]. intros -> [(k & Hk & Hc)|]; [|congruence].
    pose proof (Hle k Hk) as Hkr. rewrite Forall_forall in Hp. destruct (proj1 (starts_with_spec _ _) (Hp k Hk)) as [r' ->].
    rewrite drop_app_length in Hc. apply child_name_spec in Hc as (_ & _ & r'' & ->).
    apply child_name_spec in Ec as (_ & _ & ->). rewrite app_assoc in Hkr. by apply longer_not_below in Hkr.
  - intros [[Hl|[= ->]] Hd]; [|done]. destruct dm, d; try done; [by destruct Hd; [|right]|].
    exfalso. destruct Hl as (k & Hk & Hc).
    pose proof (Hle k Hk) as Hkr. rewrite Forall_forall in Hp. destruct (proj1 (starts_with_spec _ _) (Hp k Hk)) as [r' ->].
    rewrite drop_app_length in Hc. apply child_name_spec in Hc as (_ & _ & r'' & ->).
    apply child_name_spec in Ec as (_ & _ & ->). rewrite app_assoc in Hkr. by apply longer_not_below in Hkr.
Qed.

(** There is a key at, or below, a name of a directory, one the kernel can see. *)
Definition stored_at (f : MeshFs) (k : bytes) : Prop := is_Some (index (store f) !! (ns f, k)).
Definition stored_below (f : MeshFs) (prefix n : bytes) : Prop :=
  exists r, stored_at f (prefix ++ n ++ SLASH :: r) /\ NUL ∉ n ++ SLASH :: r.

Lemma scan_keys_sorted s n p : StronglySorted cle (scan_keys s n p).
Proof.
  change (scan_keys s n p) with (scan s n p).*1. destruct (ScanSpec.scan_sorted s n p) as [Hs _]. revert Hs.
  induction 1 as [|x l Hs IH Hf]; cbn; [constructor|]. constructor; [done|]. apply Forall_fmap. exact Hf.
Qed.

Lemma children_spec f path n (d : bool) : children_of f path !! n = Some d <->
  good_name n /\ NUL ∉ n /\
  if d then stored_below f (dir_prefix path) n
  else stored_at f (dir_prefix path ++ n) /\ ~ stored_below f (dir_prefix path) n.
Proof.
  unfold children_of. cbv zeta. set (p := dir_prefix path). set (l := scan_keys (store f) (ns f) p).
  assert (forall d : bool, has_child p l n d <-> good_name n /\ NUL ∉ n /\
    if d then stored_below f p n else stored_at f (p ++ n)) as Hc.
  { intros d'. split.
    - intros (k & [Hi [r ->]%starts_with_spec]%elem_of_scan_keys & Hc). rewrite drop_app_length in Hc.
      apply child_name_spec in Hc as (Hn & Hg & Hd). destruct d'; [destruct Hd as [r' ->]|subst r]; split_and!; try done.
      + set_solver.
      + by exists r'.
    - intros (Hg & Hn & Hd). assert (exists r, stored_at f (p ++ r) /\ child_name r = Some (n, d')) as (r & Hi & Hc).
      { destruct d'; [destruct Hd as (r & Hi & Hr); exists (n ++ SLASH :: r)|exists n]; (split; [done|]);
          apply child_name_spec; by eauto. }
      exists (p ++ r). rewrite drop_app_length. split; [|done]. apply elem_of_scan_keys. split; [done|].
      apply starts_with_spec. by eexists. }
  rewrite fold_children, !Hc; [|apply scan_keys_sorted|].
  - destruct d; [|clear Hc]; naive_solver.
  - apply Forall_forall. intros k Hk. by apply elem_of_scan_keys in Hk as [_ ?].
Qed.

(** ** Inodes without eviction *)

Record inos_ok (f : MeshFs) : Prop := {
  in_inj i j p : ino_map f !! i = Some p -> ino_map f !! j = Some p -> i = j;
  in_fresh i p : ino_map f !! i = Some p -> i < next_ino f;
  in_next : 2 <= next_ino f;
  in_root p : ino_map f !! ROOT_INO = Some p -> p = [];
}.

Definition registered (f : MeshFs) : list bytes := (map_to_list (ino_map f)).*2.
Lemma elem_of_registered f p : p ∈ registered f <-> exists i, ino_map f !! i = Some p.
Proof.
  unfold registered. rewrite list_elem_of_fmap. split.
  - intros ([i q] & -> & Hi%elem_of_map_to_list). by exists i.
  - intros [i Hi%elem_of_map_to_list]. by exists (i, p).
Qed.

(** The paths among [ps] that have no inode yet; there is room for them. *)
Definition missing (f : MeshFs) (ps : list bytes) : Z := blen (filter (fun p => p ∉ registered f) ps).
Definition roomy (f : MeshFs) (ps : list bytes) : Prop :=
  Z.of_nat (base.size (ino_map f)) + missing f ps < INO_CAP /\ next_ino f + missing f ps < 2 ^ 64.

(** Inodes have only been added. *)
Record grows (ps : list bytes) (f f' : MeshFs) : Prop := {
  gr_stored : stored_same f f';
  gr_inos : ino_map f ⊆ ino_map f';
  gr_ok : inos_ok f -> inos_ok f';
  gr_room : roomy f ps -> roomy f' ps;
  gr_rest : bufs f' = bufs f /\ next_fh f' = next_fh f;
}.
#[global] Instance grows_preorder ps : PreOrder (grows ps).
Proof.
  split; [intros f; split; by try reflexivity|]. intros f1 f2 f3 [A1 A2 A3 A4 [A5 A6]] [B1 B2 B3 B4 [B5 B6]].
  split; [by etrans..|auto|auto|split; congruence].
Qed.

Lemma find_registered f p : inos_ok f -> match list_find (fun x : Z * bytes => x.2 = p) (ino_iter (ino_map f)) with
  | Some (_, (i, _)) => ino_map f !! i = Some p
  | None => p ∉ registered f
  end.
Proof.
  intros Hok. destruct (list_find _ _) as [[j [i q]]|] eqn:E.
  - apply list_find_Some in E as (Hl & Hq & _). cbn in Hq. subst q. apply list_elem_of_lookup_2 in Hl.
    rewrite ino_iter_perm in Hl. by apply elem_of_map_to_list.
  - apply list_find_None in E. intros [i Hi]%elem_of_registered. rewrite Forall_forall in E.
    apply (E (i, p)); [|done]. rewrite ino_iter_perm. by apply elem_of_map_to_list.
Qed.

(** A path that has an inode keeps it. *)
Lemma ino_for_known f i p : inos_ok f -> ino_map f !! i = Some p -> ino_for p f = (f, Ok i).
Proof.
  intros Hok Hi. unfold ino_for. rewrite (method_bind_step self _ f f f eq_refl).
  pose proof (find_registered f p Hok) as Hf. destruct (list_find _ _) as [[j [i' q]]|].
  - by rewrite (in_inj f Hok i' i p).
  - destruct Hf. apply elem_of_registered. by exists i.
Qed.

Lemma missing_drops f f' p ps : p ∈ ps -> p ∉ registered f -> (forall q, q ∈ registered f' <-> q = p \/ q ∈ registered f) ->
  missing f' ps + 1 <= missing f ps.
Proof.
  unfold missing. intros Hp Hn Hr. assert (forall l, (length (filter (fun q => q ∉ registered f') l) <=
    length (filter (fun q => q ∉ registered f) l))%nat) as Hle.
  { intros l. induction l as [|q l IH]; [done|]. rewrite !filter_cons. repeat case_decide; cbn; try lia.
    exfalso. naive_solver. }
  induction ps as [|q ps IH]; [by apply elem_of_nil in Hp|]. rewrite !filter_cons. apply elem_of_cons in Hp as [->|Hp].
  - rewrite decide_False by (intros Hq; apply Hq, Hr; by left). rewrite decide_True by done. cbn. specialize (Hle ps). lia.
  - specialize (IH Hp). repeat case_decide; cbn; try lia.
    exfalso. naive_solver.
Qed.

Lemma ino_for_grows f p ps : inos_ok f -> roomy f ps -> p ∈ ps ->
  exists f' i, ino_for p f = (f', Ok i) /\ grows ps f f' /\ ino_map f' !! i = Some p.
Proof.
  intros Hok Hroom Hp. destruct (decide (p ∈ registered f)) as [[i Hi]%elem_of_registered|Hn].
  { exists f, i. by rewrite (ino_for_known f i p). }
  pose proof Hroom as [R1 R2]. pose proof (find_registered f p Hok) as Hf. unfold ino_for.
  rewrite (method_bind_step self _ f f f eq_refl). destruct (list_find _ _) as [[j [i q]]|].
  { destruct Hn. apply elem_of_registered. by exists i. }
  assert (0 <= missing f ps) by (unfold missing; lia). rewrite (proj2 (Z.leb_gt _ _)) by lia. cbv zeta.
  set (f' := with_inos (<[next_ino f := p]> (ino_map f)) (u64 (next_ino f + 1)) f).
  exists f', (next_ino f). split; [done|].
  assert (ino_map f !! next_ino f = None) as Hnone.
  { destruct (ino_map f !! next_ino f) as [q|] eqn:E; [|done]. pose proof (in_fresh f Hok _ _ E). lia. }
  assert (forall q, q ∈ registered f' <-> q = p \/ q ∈ registered f) as Hreg.
  { intros q. rewrite !elem_of_registered. cbn. setoid_rewrite lookup_insert_Some. split.
    - intros [i [[_ ->]|[_ Hi]]]; [by left|right; by eexists].
    - intros [->|[i Hi]]; [exists (next_ino f); by left|]. exists i. right. split; [|done]. intros <-. congruence. }
  pose proof (missing_drops f f' p ps Hp Hn Hreg) as Hm. assert (0 <= missing f' ps) by (unfold missing; lia).
  assert (next_ino f' = next_ino f + 1) as En.
  { cbn. apply u64_small. pose proof (in_next f Hok). unfold is_u64. lia. }
  split; [|apply lookup_insert_eq]. split; [done|by apply insert_subseteq| | |done].
  - intros _. destruct Hok as [A B C D]. split.
    + intros i j q. cbn. rewrite !lookup_insert_Some. intros [[<- <-]|[Hi1 Hi2]] [[<- Hj]|[Hj1 Hj2]]; try done.
      * destruct Hn. apply elem_of_registered. by exists j.
      * subst q. destruct Hn. apply elem_of_registered. by exists i.
      * by eapply A.
    + intros i q. rewrite En. cbn. rewrite lookup_insert_Some. intros [[<- _]|[_ Hi]]; [lia|]. specialize (B _ _ Hi). lia.
    + lia.
    + intros q. cbn. rewrite lookup_insert_Some. intros [[? _]|[_ Hi]]; [unfold ROOT_INO in *; lia|by eapply D].
  - intros _. split; [|lia]. cbn [ino_map with_inos f']. rewrite map_size_insert_None by done. lia.
Qed.

(** ** Listings *)

Abbreviation entry := (Z * bytes * bool)%type.
Definition view (d : dirent) : entry := (de_offset d, de_name d, de_dir d).

(** An entry past the offset; a file only while it has not expired. *)
Definition shown (f : MeshFs) (path : bytes) (now offset : Z) (x : entry) : Prop :=
  offset < x.1.1 /\ (x.2 = true \/ is_Some (latest_info f (join_child path x.1.2) now)).
#[global] Instance shown_dec f path now offset x : Decision (shown f path now offset x).
Proof. unfold shown. apply _. Defined.

Lemma latest_info_same f f' p now : stored_same f f' -> latest_info f' p now = latest_info f p now.
Proof. intros (Es & En & _). unfold latest_info, winner. by rewrite Es, En. Qed.

Lemma shown_same f f' path now offset (l : list entry) : stored_same f f' ->
  filter (shown f' path now offset) l = filter (shown f path now offset) l.
Proof.
  intros Hs. apply list_filter_iff. intros x. unfold shown. by rewrite (latest_info_same f f' _ _ Hs).
Qed.

Definition numbered_in (f : MeshFs) (path : bytes) (d : dirent) : Prop :=
  ino_map f !! de_ino d = Some (join_child path (de_name d)).

Lemma numbered_grows ps f f' path l : grows ps f f' -> Forall (numbered_in f path) l -> Forall (numbered_in f' path) l.
Proof. intros G Hl. eapply Forall_impl; [exact Hl|]. intros d Hd. eapply lookup_weaken; [exact Hd|apply (gr_inos _ _ _ G)]. Qed.

(** One page: the entries shown, in order, up to the first that does not fit. *)
Definition page_of (e : env) (path : bytes) (now offset : Z) (entries : list entry) (out : list dirent)
    (f f' : MeshFs) (l : list dirent) : Prop :=
  Forall (numbered_in f' path) l
  /\ exists rest, filter (shown f path now offset) entries = (view <$> l) ++ rest
     /\ (rest = [] \/ exists d, full e (out ++ l) d = true).

Lemma readdir_loop_run e path now offset ps : (forall n, now_ms e n = now) ->
  forall entries out f, inos_ok f -> roomy f ps -> Forall (fun x => join_child path x.1.2 ∈ ps) entries ->
  exists f' l, readdir_loop e path offset entries out f = (f', Ok (out ++ l)) /\ grows ps f f'
    /\ page_of e path now offset entries out f f' l.
Proof.
  intros Hnow entries. induction entries as [|[[o n] d] entries IH]; intros out f Hok Hroom Hps.
  { exists f, []. rewrite app_nil_r. split; [done|]. split; [reflexivity|]. split; [constructor|]. exists []. split; [done|by left]. }
  apply Forall_cons in Hps as [Hp Hps]. cbn [fst snd] in Hp. cbn [readdir_loop].
  destruct (Z.leb_spec o offset) as [Ho|Ho].
  { destruct (IH out f Hok Hroom Hps) as (f' & l & E & G & Hpg). exists f', l. split; [done|]. split; [done|].
    unfold page_of. rewrite filter_cons, decide_False by (unfold shown; cbn; lia). done. }
  (** An entry that is added, or does not fit. *)
  assert (forall (k : Z -> fs_m (list dirent)), shown f path now offset (o, n, d) ->
    (forall i, k i = let x := mkDirent i o d n in
       if full e out x then mret out else readdir_loop e path offset entries (out ++ [x])) ->
    exists f' l, (ino_for (join_child path n) ≫= k) f = (f', Ok (out ++ l)) /\ grows ps f f'
      /\ page_of e path now offset ((o, n, d) :: entries) out f f' l) as Hadd.
  { intros k Hsh Hk. destruct (ino_for_grows f _ ps Hok Hroom Hp) as (f1 & i & Ei & G & Hi).
    rewrite (method_bind_step _ _ _ _ _ Ei), Hk. cbv zeta. set (x := mkDirent i o d n).
    unfold page_of. rewrite filter_cons, decide_True by done. destruct (full e out x) eqn:Ef.
    - exists f1, []. rewrite app_nil_r. split; [done|]. split; [done|]. split; [constructor|]. eexists. split; [done|]. right.
      by exists x.
    - destruct (IH (out ++ [x]) f1 (gr_ok _ _ _ G Hok) (gr_room _ _ _ G Hroom) Hps) as (f2 & l & E2 & G2 & Hn & rest & Er & Hr).
      exists f2, (x :: l). rewrite E2, <-app_assoc. split; [done|]. split; [by etrans|]. split.
      + constructor; [|done]. eapply lookup_weaken; [exact Hi|apply (gr_inos _ _ _ G2)].
      + exists rest. rewrite (shown_same f f1) in Er by apply (gr_stored _ _ _ G). rewrite Er. split; [done|].
        by rewrite <-app_assoc in Hr. }
  destruct d.
  - assert (shown f path now offset (o, n, true)) as Hsh by (split; [done|by left]). unfold attr.
    destruct (Hadd (fun i => let x := mkDirent i o true n in
       if full e out x then mret out else readdir_loop e path offset entries (out ++ [x])) Hsh ltac:(done)) as (f' & l & E & Hrest).
    exists f', l. split; [|exact Hrest]. rewrite <-E. unfold mbind, method_bind, self, mret, method_ret.
    by destruct (ino_for (join_child path n) f) as [f1 [i|x|]].
  - rewrite (method_bind_step self _ f f f eq_refl), Hnow.
    destruct (latest_info f (join_child path n) now) as [y|] eqn:El.
    + apply Hadd; [|done]. split; [done|]. right. cbn. by rewrite El.
    + destruct (IH out f Hok Hroom Hps) as (f' & l & E & G & Hpg). exists f', l. split; [done|]. split; [done|].
      unfold page_of. rewrite filter_cons, decide_False; [done|]. intros [_ [|[z Hz]]]; cbn in *; congruence.
Qed.

(** ** Pages *)

(** The kernel reads on from the last offset it got until a page is empty. *)
Fixpoint read_pages (es : list env) (i offset : Z) (f : MeshFs) : option (MeshFs * list dirent) :=
  match es with
  | [] => None
  | e :: es =>
      match readdir e i offset f with
      | (f1, Ok []) => Some (f1, [])
      | (f1, Ok (d :: l)) =>
          '(f2, more) ← read_pages es i (List.last (de_offset <$> l) (de_offset d)) f1;
          Some (f2, (d :: l) ++ more)
      | _ => None
      end
  end.

Definition before (a b : entry) : Prop := a.1.1 < b.1.1.

Lemma entries_sorted (c : gmap bytes bool) : StronglySorted before (entries_of c).
Proof.
  assert (forall (l : list (bytes * bool)) k, StronglySorted before
    (imap (fun i '(n, d) => (Z.of_nat i + k, n, d)) l) /\
    Forall (fun x : entry => k <= x.1.1) (imap (fun i '(n, d) => (Z.of_nat i + k, n, d)) l)) as Hi.
  { intros l. induction l as [|[n d] l IH]; intros k; [split; constructor|]. rewrite imap_cons. destruct (IH (k + 1)) as [S1 F1].
    rewrite (imap_ext _ (fun i '(n, d) => (Z.of_nat i + (k + 1), n, d))) by (intros i [m b] _; cbn; do 2 f_equal; lia).
    split; constructor; try done; (eapply Forall_impl; [exact F1|]); intros x; unfold before; cbn; lia. }
  unfold entries_of. destruct (Hi (btree_iter c) 3) as [S F].
  assert (Forall (before (2, bs "..", true)) (imap (fun i '(n, d) => (Z.of_nat i + 3, n, d)) (btree_iter c))) as F2.
  { eapply Forall_impl; [exact F|]. intros x. unfold before. cbn. lia. }
  constructor; [by constructor|]. constructor; [by unfold before|]. eapply Forall_impl; [exact F2|].
  intros x. unfold before. cbn. lia.
Qed.

Lemma filter_none {A} (P : A -> Prop) `{forall x, Decision (P x)} l : Forall (fun x => ~ P x) l -> filter P l = [].
Proof. induction 1 as [|x l Hx Hl IH]; [done|]. by rewrite filter_cons_False. Qed.
Lemma filter_every {A} (P : A -> Prop) `{forall x, Decision (P x)} l : Forall P l -> filter P l = l.
Proof. induction 1 as [|x l Hx Hl IH]; [done|]. by rewrite filter_cons_True, IH. Qed.

(** What is shown after the last entry of a page is the rest. *)
Lemma shown_rest f path now offset entries a rest (o : Z) : StronglySorted before entries ->
  filter (shown f path now offset) entries = a ++ rest -> offset <= o ->
  Forall (fun x : entry => x.1.1 <= o) a -> Forall (fun x : entry => o < x.1.1) rest ->
  filter (shown f path now o) entries = rest.
Proof.
  intros Hs Hf Ho Ha Hr. assert (filter (shown f path now o) entries
    = filter (fun x : entry => o < x.1.1) (filter (shown f path now offset) entries)) as ->.
  { rewrite list_filter_filter. apply list_filter_iff. intros x. unfold shown. intuition lia. }
  rewrite Hf, filter_app. rewrite (filter_none _ a); [|eapply Forall_impl; [exact Ha|]; cbn; intros; lia].
  cbn. by apply filter_every.
Qed.

Lemma path_of_grows ps f f' i p : grows ps f f' -> path_of f i = Some p -> path_of f' i = Some p.
Proof. intros G. unfold path_of. destruct (i =? ROOT_INO); [done|]. intros Hi. eapply lookup_weaken; [exact Hi|apply (gr_inos _ _ _ G)]. Qed.

Lemma children_same f f' path : stored_same f f' -> children_of f' path = children_of f path.
Proof. intros (Es & En & _). unfold children_of. by rewrite Es, En. Qed.

(** The paths of a directory's entries. *)
Definition entry_paths (f : MeshFs) (path : bytes) : list bytes :=
  (fun x : entry => join_child path x.1.2) <$> entries_of (children_of f path).

Definition listing (f : MeshFs) (path : bytes) (now offset : Z) : list entry :=
  filter (shown f path now offset) (entries_of (children_of f path)).

Lemma sorted_split (a rest : list entry) o : StronglySorted before (a ++ rest) -> (exists l x, a = l ++ [x] /\ x.1.1 = o) ->
  Forall (fun x : entry => x.1.1 <= o) a /\ Forall (fun x : entry => o < x.1.1) rest.
Proof.
  intros Hs (l & x & -> & <-). split.
  - apply Forall_app. split; [|constructor; [lia|constructor]]. apply Forall_forall. intros y Hy.
    assert (before y x); [|unfold before in *; lia]. apply StronglySorted_app_1_l in Hs.
    eapply (StronglySorted_app_1_elem_of before l [x]); [done..|by left].
  - apply Forall_forall. intros y Hy. eapply (StronglySorted_app_1_elem_of before (l ++ [x]) rest); [done| |done].
    apply elem_of_app. right. by left.
Qed.

Lemma last_view d l : exists l' x, view <$> (d :: l) = l' ++ [x] /\ x.1.1 = List.last (de_offset <$> l) (de_offset d).
Proof.
  destruct l as [|y l _] using rev_ind; [by exists [], (view d)|]. exists (view <$> (d :: l)), (view y).
  rewrite fmap_cons, !fmap_app, fmap_cons. cbn. by rewrite List.last_last.
Qed.

Lemma read_pages_run es now i path : Forall (fun e => (forall n, now_ms e n = now) /\ forall d, full e [] d = false) es ->
  forall offset f, path_of f i = Some path -> inos_ok f -> roomy f (entry_paths f path) ->
  (length (listing f path now offset) < length es)%nat ->
  exists f' l, read_pages es i offset f = Some (f', l) /\ grows (entry_paths f path) f f'
    /\ Forall (numbered_in f' path) l /\ view <$> l = listing f path now offset.
Proof.
  induction 1 as [|e es [Hnow Hfull] Hes IH]; intros offset f Hp Hok Hroom Hlen; [cbn in Hlen; lia|].
  set (ps := entry_paths f path) in *. set (entries := entries_of (children_of f path)).
  assert (Forall (fun x : entry => join_child path x.1.2 ∈ ps) entries) as Hps.
  { apply Forall_forall. intros x Hx. apply list_elem_of_fmap. by exists x. }
  destruct (readdir_loop_run e path now offset ps Hnow entries [] f Hok Hroom Hps) as (f1 & l & E & G & Hn & rest & Er & Hr).
  assert (readdir e i offset f = (f1, Ok l)) as Erd.
  { unfold readdir. by rewrite (need_path_run _ _ _ _ Hp), (method_bind_step self _ f f f eq_refl). }
  cbn [read_pages]. rewrite Erd. fold entries in Er. change (filter _ entries) with (listing f path now offset) in Er.
  destruct l as [|d l].
  - exists f1, []. split_and!; [done..|]. cbn in *. destruct Hr as [->|[d Hd]]; [done|]. by rewrite Hfull in Hd.
  - set (o := List.last (de_offset <$> l) (de_offset d)). destruct (last_view d l) as (l' & x & El & Ex). fold o in Ex.
    pose proof (entries_sorted (children_of f path)) as Hs. assert (StronglySorted before (listing f path now offset)) as Hs2
      by (by apply ScanSpec.sorted_filter).
    assert (offset < o) as Ho.
    { assert (x ∈ listing f path now offset) as [Hx _]%list_elem_of_filter by (rewrite Er, El; set_solver).
      destruct Hx as [Hx _]. lia. }
    destruct (sorted_split (view <$> d :: l) rest o) as [Ha Hb]; [by rewrite <-Er|by exists l', x|].
    pose proof (shown_rest f path now offset entries (view <$> d :: l) rest o Hs Er ltac:(lia) Ha Hb) as Erest.
    pose proof (gr_stored _ _ _ G) as Hst. pose proof (children_same f f1 path Hst) as Ech.
    assert (entry_paths f1 path = ps) as Eps by (unfold entry_paths, ps; by rewrite Ech).
    assert (listing f1 path now o = rest) as Els by (unfold listing; by rewrite Ech, (shown_same f f1)).
    destruct (IH o f1) as (f2 & more & E2 & G2 & Hn2 & Ev); [by eapply path_of_grows|by apply (gr_ok _ _ _ G)
      |rewrite Eps; by apply (gr_room _ _ _ G)| |].
    { rewrite Els. rewrite Er, length_app, length_fmap in Hlen. cbn in Hlen. lia. }
    rewrite Eps in G2. rewrite Els in Ev. exists f2, ((d :: l) ++ more). rewrite E2. split_and!; [done|by etrans| |].
    + apply Forall_app. split; [by eapply numbered_grows|done].
    + by rewrite fmap_app, Ev, Er.
Qed.

(** ** Looking names up *)

Lemma last_good n : good_name n -> last n <> Some SLASH.
Proof. intros Hg Hl. apply (gn_flat n Hg). by apply last_Some_elem_of. Qed.

Lemma dir_prefix_child path n : last path <> Some SLASH -> good_name n ->
  key_of (join_child path n) = dir_prefix path ++ n /\ dir_prefix (join_child path n) = dir_prefix path ++ n ++ [SLASH].
Proof.
  intros Hl Hg. assert (forall a, last (a ++ n) <> Some SLASH) as Hn.
  { intros a. rewrite last_app. pose proof (last_good n Hg). destruct (last n) eqn:E; [done|].
    apply last_None in E. by destruct (gn_some n Hg). }
  unfold key_of, dir_prefix, join_child. destruct (decide (path = [])) as [->|Hne].
  - rewrite !(bool_decide_eq_true_2 ([] = [])) by done. rewrite (bool_decide_eq_true_2 (last (bs "fs/" ++ []) = Some SLASH)) by done.
    rewrite bool_decide_eq_false_2 by apply Hn. by rewrite app_nil_r, <-app_assoc.
  - rewrite !(bool_decide_eq_false_2 (path = [])) by done.
    assert (last (bs "fs/" ++ path) <> Some SLASH) as Hlp.
    { rewrite last_app. destruct (last path) eqn:E; [done|]. by apply last_None in E. }
    rewrite (bool_decide_eq_false_2 (last (bs "fs/" ++ path) = Some SLASH)) by done.
    rewrite bool_decide_eq_false_2 by (rewrite !app_assoc; apply Hn). by rewrite <-!app_assoc.
Qed.

Lemma dir_exists_spec f p : dir_exists f p = true <-> exists r, stored_at f (dir_prefix p ++ r).
Proof.
  unfold dir_exists. cbv zeta. rewrite existsb_exists. split.
  - intros (k & Hk & _). apply list_elem_of_In, elem_of_scan_keys in Hk as [Hi [r ->]%starts_with_spec]. by exists r.
  - intros [r Hr]. exists (dir_prefix p ++ r). split.
    + apply list_elem_of_In, elem_of_scan_keys. split; [done|]. apply starts_with_spec. by eexists.
    + apply Nat.leb_le. rewrite length_app. lia.
Qed.

(** What a lookup of a name finds. *)
Definition found (f : MeshFs) (path n : bytes) (now : Z) : option bool :=
  if dir_exists f (join_child path n) then Some true
  else if file_exists f (join_child path n) now then Some false else None.

Lemma lookup_run e i path n f j now : (forall n, now_ms e n = now) -> path_of f i = Some path -> inos_ok f ->
  ino_map f !! j = Some (join_child path n) ->
  match found f path n now with
  | Some d => exists a, lookup e i n f = (f, Ok a) /\ attr_ino a = j /\ directory a = d
  | None => lookup e i n f = (f, Err ENOENT)
  end.
Proof.
  intros Hnow Hp Hok Hj. unfold lookup, found. rewrite (need_path_run _ _ _ _ Hp). cbv zeta.
  rewrite (method_bind_step self _ f f f eq_refl), !Hnow.
  destruct (dir_exists f (join_child path n)), (file_exists f (join_child path n) now); cbn [orb]; try done;
    rewrite (method_bind_step (need true ENOENT) _ f f tt eq_refl); unfold attr;
    rewrite (method_bind_step self _ f f f eq_refl); cbv beta iota zeta; try case_match;
    rewrite (method_bind_step _ _ _ _ _ (ino_for_known f j _ Hok Hj)); by eexists.
Qed.

(** A lookup finds what the listing shows. *)
Lemma found_children f path n now d : last path <> Some SLASH -> good_name n ->
  (forall k, stored_at f (dir_prefix path ++ k) -> NUL ∉ k) ->
  found f path n now = Some d
  <-> children_of f path !! n = Some d /\ (d = true \/ is_Some (latest_info f (join_child path n) now)).
Proof.
  intros Hl Hg Hnul. destruct (dir_prefix_child path n Hl Hg) as [Ek Ed].
  assert (dir_exists f (join_child path n) = true <-> stored_below f (dir_prefix path) n) as Hd.
  { rewrite dir_exists_spec, Ed. unfold stored_below. split; intros [r Hr].
    - rewrite <-!app_assoc in Hr. exists r. split; [done|]. by apply Hnul.
    - exists r. rewrite <-!app_assoc. apply Hr. }
  assert (is_Some (latest_info f (join_child path n) now) -> stored_at f (dir_prefix path ++ n)) as Hf.
  { unfold latest_info, winner. rewrite Ek. intros [x Hx]. unfold get in Hx.
    destruct (tombs (store f) !! (ns f, dir_prefix path ++ n)); [done|]. unfold stored_at.
    by destruct (index (store f) !! (ns f, dir_prefix path ++ n)). }
  rewrite children_spec. unfold found, file_exists.
  assert (stored_below f (dir_prefix path) n -> NUL ∉ n) as Hn1 by (intros (r & _ & Hr); set_solver).
  destruct (dir_exists f (join_child path n)) eqn:Ede.
  - pose proof (proj1 Hd eq_refl) as Hb. split; [intros [= <-]; split_and!; auto|]. destruct d; [done|]. naive_solver.
  - assert (~ stored_below f (dir_prefix path) n) as Hb by (intros ?%Hd; done).
    case_bool_decide as Hi; destruct d; (split; [intros [=]|]); try naive_solver.
Qed.

Lemma listed_iff f path now n d : good_name n ->
  (exists o, (o, n, d) ∈ listing f path now 0)
  <-> children_of f path !! n = Some d /\ (d = true \/ is_Some (latest_info f (join_child path n) now)).
Proof.
  intros Hg. unfold listing. setoid_rewrite list_elem_of_filter. unfold entries_of.
  setoid_rewrite elem_of_app. setoid_rewrite elem_of_lookup_imap. split.
  - intros (o & [_ Hs] & [Hin|(k & [m b] & [= -> -> ->] & Hk)]).
    + exfalso. rewrite !elem_of_cons, elem_of_nil in Hin.
      destruct Hin as [E|[E|[]]]; injection E as _ E _; [by apply (gn_dot n Hg)|by apply (gn_dots n Hg)].
    + split; [|done]. apply elem_of_btree_iter. by apply list_elem_of_lookup_2 with k.
  - intros [Hc Hs]. apply elem_of_btree_iter, list_elem_of_lookup in Hc as [k Hk].
    exists (Z.of_nat k + 3). split; [split; [cbn; lia|done]|]. right. by exists k, (n, d).
Qed.

Lemma listing_names f path now : NoDup ((fun x : entry => x.1.2) <$> listing f path now 0).
Proof.
  eapply sublist_NoDup; [|apply fmap_sublist, sublist_filter]. unfold entries_of. rewrite fmap_app, fmap_imap.
  assert (imap (fun i => (fun x : entry => x.1.2) ∘ (fun '(n, d) => (Z.of_nat i + 3, n, d))) (btree_iter (children_of f path))
    = (btree_iter (children_of f path)).*1) as ->.
  { generalize (btree_iter (children_of f path)). intros l. rewrite <-imap_const. apply imap_ext. by intros i [n d] _. }
  assert (forall n, n ∈ (btree_iter (children_of f path)).*1 -> good_name n) as Hg.
  { intros n ([m d] & -> & Hin)%list_elem_of_fmap. apply elem_of_btree_iter, children_spec in Hin. apply Hin. }
  cbn [fmap list_fmap fst snd List.app]. rewrite !NoDup_cons. split_and!; [| |apply NoDup_fst_btree_iter].
  - rewrite elem_of_cons. intros [|Hin%Hg]; [done|]. by apply (gn_dot _ Hin).
  - intros Hin%Hg. by apply (gn_dots _ Hin).
Qed.

(** C18: a directory is listed exactly.  Read page by page, however many entries
    fit a page as long as one does, the listing ends after as many pages as it
    has entries plus one; it shows every name once; a name it shows looks up to
    the inode and the kind shown, and a name that looks up is shown: names below
    which there is a key are directories, names of unexpired files are files.
    Nothing is written. *)
Theorem directory_listed es now i path f :
  path_of f i = Some path -> last path <> Some SLASH -> inos_ok f -> roomy f (entry_paths f path) ->
  (forall k, stored_at f (dir_prefix path ++ k) -> NUL ∉ k) ->
  Forall (fun e => (forall n, now_ms e n = now) /\ forall d, full e [] d = false) es ->
  (length (listing f path now 0) < length es)%nat ->
  exists f' l, read_pages es i 0 f = Some (f', l) /\ stored_same f f'
    /\ NoDup (de_name <$> l)
    /\ (forall d, d ∈ l -> good_name (de_name d) -> forall e, (forall n, now_ms e n = now) ->
          exists a, lookup e i (de_name d) f' = (f', Ok a) /\ attr_ino a = de_ino d /\ directory a = de_dir d)
    /\ (forall n, good_name n -> is_Some (found f' path n now) -> exists d, d ∈ l /\ de_name d = n).
Proof.
  intros Hp Hl Hok Hroom Hnul Hes Hlen.
  destruct (read_pages_run es now i path Hes 0 f Hp Hok Hroom Hlen) as (f' & l & E & G & Hn & Ev).
  pose proof (gr_stored _ _ _ G) as Hst. pose proof Hst as (Es & En & _). pose proof (gr_ok _ _ _ G Hok) as Hok'.
  assert (forall n d, good_name n -> found f' path n now = Some d <-> exists o, (o, n, d) ∈ view <$> l) as Hf.
  { intros n d Hg. rewrite Ev, (listed_iff f path now n d Hg), found_children; [|done|done|].
    - by rewrite (children_same f f'), (latest_info_same f f') by done.
    - unfold stored_at. by rewrite Es, En. }
  exists f', l. split_and!; [done|done| | |].
  - pose proof (listing_names f path now) as Hnd. rewrite <-Ev, <-list_fmap_compose in Hnd. exact Hnd.
  - intros d Hd Hg e Hnow. rewrite Forall_forall in Hn.
    pose proof (lookup_run e i path (de_name d) f' (de_ino d) now Hnow (path_of_grows _ _ _ _ _ G Hp) Hok' (Hn d Hd)) as Hlk.
    rewrite (proj2 (Hf (de_name d) (de_dir d) Hg)) in Hlk; [done|]. exists (de_offset d).
    apply list_elem_of_fmap. by exists d.
  - intros n Hg [d Hd]. apply Hf in Hd as [o (x & Ex & Hx)%list_elem_of_fmap]; [|done]. exists x.
    injection Ex as _ -> _. done.
Qed.

End dir.

(** ** Witness *)

#[local] Existing Instances toy_sha256 hex_plain toy_json plain_inos.
Import FsDemo.

Lemma demo_inos_ok : inos_ok demo_mount.
Proof.
  assert (forall i p, ino_map demo_mount !! i = Some p ->
    (i = 2 /\ p = bs "note") \/ (i = 3 /\ p = bs "d") \/ (i = 1 /\ p = [])) as Hm.
  { intros i p. cbn [demo_mount ino_map with_inos]. rewrite !lookup_insert_Some, lookup_singleton_Some. unfold ROOT_INO. naive_solver. }
  split.
  - intros i j p [[-> ->]|[[-> ->]|[-> ->]]]%Hm [[-> E]|[[-> E]|[-> E]]]%Hm; done.
  - intros i p Hi%Hm. cbn. lia.
  - done.
  - intros p [[? _]|[[? _]|[_ ->]]]%Hm; done.
Qed.

(** The listing of [d], two entries a page: [.], [..], [a] and [b]. *)
Lemma directory_listed_witness :
  let f := demo_mount in
  exists f' l, read_pages (replicate 5 demo_env) 3 0 f = Some (f', l) /\ stored_same f f'
    /\ NoDup (de_name <$> l)
    /\ (forall d, d ∈ l -> good_name (de_name d) -> forall e, (forall n, now_ms e n = 10) ->
          exists a, lookup e 3 (de_name d) f' = (f', Ok a) /\ attr_ino a = de_ino d /\ directory a = de_dir d)
    /\ (forall n, good_name n -> is_Some (found f' (bs "d") n 10) -> exists d, d ∈ l /\ de_name d = n).
Proof.
  cbv zeta. apply (directory_listed (replicate 5 demo_env) 10 3 (bs "d") demo_mount).
  - reflexivity.
  - discriminate.
  - apply demo_inos_ok.
  - split; by vm_compute.
  - intros k Hk. assert (dir_prefix (bs "d") ++ k ∈ scan_keys (store demo_mount) (ns demo_mount) (dir_prefix (bs "d"))) as Hin
      by (apply elem_of_scan_keys; split; [exact Hk|apply starts_with_spec; by eexists]).
    assert (scan_keys (store demo_mount) (ns demo_mount) (dir_prefix (bs "d"))
      = [dir_prefix (bs "d") ++ bs "a"; dir_prefix (bs "d") ++ bs "b"]) as E by (by vm_compute).
    rewrite E, !elem_of_cons, elem_of_nil in Hin. clear Hk E.
    destruct Hin as [Er|[Er|[]]]; apply app_inv_head in Er; subst k; by vm_decide.
  - by repeat constructor.
  - by vm_compute.
Defined.

Example demo_pages : (fun x : MeshFs * list dirent => de_name <$> x.2) <$> read_pages (replicate 5 demo_env) 3 0 demo_mount
  = Some [bs "."; bs ".."; bs "a"; bs "b"].
Proof. by vm_compute. Qed.

End FsDir.
