(* ===== verification/FsInode.v ===== *)
(** The inode table and the write handles: whatever is requested and evicted,
    inodes name one path each, and the inode of a file open for writing keeps
    its path. *)

From S2P Require Import Prelude Moves Crc32 LogFormat Log LogSpec Utf8 StoreTypes Store StoreSpec StoreFrame ScanSpec Fs FsDemo FsSpec FsFile FsRename FsDir.
Import Store StoreSpec StoreFrame Fs FsSpec FsFile FsRename FsDir.

Module FsInode.

Section inode.
Context `{Sha256, HexCrate, SerdeJson, InoOrder}.

Record fs_inv (f : MeshFs) : Prop := {
  fi_inos : inos_ok f;
  fi_path fh h : bufs f !! fh = Some h -> is_Some (path_of f (ino h));
  fi_fresh fh h : bufs f !! fh = Some h -> fh < next_fh f;
  fi_next : 1 <= next_fh f;
}.

(** ** Steps *)

(** From [f] to [f'] at most [n] numbers were given out; the invariant still
    holds; and a handle that was open before and is open after is on the same
    inode, which has the same path. *)
Record advanced (n : Z) (f f' : MeshFs) : Prop := {
  ad_inv : fs_inv f';
  ad_ino : next_ino f <= next_ino f' <= next_ino f + n;
  ad_fh : next_fh f <= next_fh f' <= next_fh f + n;
  ad_handle fh h' : fh < next_fh f -> bufs f' !! fh = Some h' ->
    exists h, bufs f !! fh = Some h /\ ino h' = ino h /\ path_of f' (ino h) = path_of f (ino h);
}.

Definition advances (n : Z) (f f' : MeshFs) : Prop :=
  fs_inv f -> next_ino f + n < 2 ^ 64 -> next_fh f + n < 2 ^ 64 -> advanced n f f'.

Lemma advances_trans a b f1 f2 f3 : 0 <= a -> 0 <= b -> advances a f1 f2 -> advances b f2 f3 -> advances (a + b) f1 f3.
Proof.
  intros Ha Hb A B I1 N1 N2. destruct (A I1 ltac:(lia) ltac:(lia)) as [A1 A2 A3 A4].
  destruct (B A1 ltac:(lia) ltac:(lia)) as [B1 B2 B3 B4]. split; [done|lia|lia|].
  intros fh h'' Hfh Hh. destruct (B4 fh h'' ltac:(lia) Hh) as (h' & Hh' & Ei & Ep).
  destruct (A4 fh h' Hfh Hh') as (h & Hh0 & Ei0 & Ep0). exists h. rewrite Ei, Ei0 in *. split_and!; [done|congruence|congruence].
Qed.

Lemma advances_weaken a b f f' : 0 <= a <= b -> advances a f f' -> advances b f f'.
Proof. intros Hab A I1 N1 N2. destruct (A I1 ltac:(lia) ltac:(lia)) as [A1 A2 A3 A4]. split; [done|lia|lia|done]. Qed.

(** Steps that give out no numbers. *)
Lemma advances_refl f : advances 0 f f.
Proof. intros I N1 N2. split; [done|lia|lia|]. intros fh h _ Hh. by exists h. Qed.
#[local] Instance advances_zero : PreOrder (advances 0).
Proof. split; [intros f; apply advances_refl|]. intros f1 f2 f3 A B. by apply (advances_trans 0 0 f1 f2 f3). Qed.

Lemma advances_store f f' : tables f' = tables f -> advances 0 f f'.
Proof.
  intros E [[A B C D] I1 I2 I3] N1 N2. destruct f as [st n u m ni b nf], f' as [st' n' u' m' ni' b' nf'].
  unfold tables in E. cbn in E. simplify_eq. split; [split; [by split|done..]|cbn; lia|cbn; lia|].
  intros fh h _ Hh. by exists h.
Qed.

Lemma advances_handle f fh h h' : bufs f !! fh = Some h -> ino h' = ino h -> advances 0 f (set_handle fh h' f).
Proof.
  intros Hh Ei [I0 I1 I2 I3] N1 N2. split; [split|cbn; lia|cbn; lia|].
  - by destruct I0 as [A B C D].
  - intros k g. cbn. rewrite lookup_insert_Some. intros [[<- <-]|[_ Hg]]; [|by apply (I1 k)].
    rewrite Ei. by apply (I1 fh h Hh).
  - intros k g. cbn. rewrite lookup_insert_Some. intros [[<- <-]|[_ Hg]]; [by apply (I2 fh h)|by apply (I2 k g)].
  - done.
  - intros k g _. cbn. rewrite lookup_insert_Some. intros [[<- <-]|[_ Hg]]; [by exists h|by exists g].
Qed.

Lemma advances_drop f fh : advances 0 f (drop_handle fh f).
Proof.
  intros [I0 I1 I2 I3] N1 N2. split; [split|cbn; lia|cbn; lia|].
  - by destruct I0 as [A B C D].
  - intros k g. cbn. rewrite lookup_delete_Some. intros [_ Hg]. by apply (I1 k).
  - intros k g. cbn. rewrite lookup_delete_Some. intros [_ Hg]. by apply (I2 k g).
  - done.
  - intros k g _. cbn. rewrite lookup_delete_Some. intros [_ Hg]. by exists g.
Qed.

(** A new handle on a known inode. *)
Lemma advances_open f h : is_Some (path_of f (ino h)) ->
  advances 1 f (with_bufs (<[next_fh f := h]> (bufs f)) (u64 (next_fh f + 1)) f).
Proof.
  intros Hp [I0 I1 I2 I3] N1 N2. assert (u64 (next_fh f + 1) = next_fh f + 1) as En by (apply u64_small; unfold is_u64; lia).
  split; [split|cbn; lia|cbn; lia|].
  - by destruct I0 as [A B C D].
  - intros k g. cbn. rewrite lookup_insert_Some. intros [[<- <-]|[_ Hg]]; [done|by apply (I1 k)].
  - intros k g. cbn. rewrite En, lookup_insert_Some. intros [[<- <-]|[_ Hg]]; [lia|]. specialize (I2 k g Hg). lia.
  - cbn. lia.
  - intros k g Hk. cbn. rewrite lookup_insert_Some. intros [[<- <-]|[_ Hg]]; [lia|by exists g].
Qed.

(** ** Eviction *)

Lemma evict_loop_kept l removed m : evict_loop l removed m ⊆ m
  /\ forall i p, i ∉ l -> m !! i = Some p -> evict_loop l removed m !! i = Some p.
Proof.
  revert removed m. induction l as [|j l IH]; intros removed m; cbn [evict_loop]; case_match; try done.
  destruct (IH (u64 (removed + 1)) (base.delete j m)) as [Hs Hk]. split.
  - etrans; [exact Hs|apply delete_subseteq].
  - intros i p [Hij Hi]%not_elem_of_cons Hm. apply Hk; [done|]. by rewrite lookup_delete_ne.
Qed.

(** The inodes of open handles are not evicted. *)
Lemma evict_kept f : evict f ⊆ ino_map f
  /\ forall fh h (p : bytes), bufs f !! fh = Some h -> ino_map f !! ino h = Some p -> evict f !! ino h = Some p.
Proof.
  unfold evict. cbv zeta. destruct (evict_loop_kept (reverse (filter (fun i => i ∉ (fun h : Z * Handle => ino h.2) <$> map_to_list (bufs f))
    (ino_iter (ino_map f)).*1)) 0 (ino_map f)) as [Hs Hk]. split; [done|].
  intros fh h p Hh Hp. apply Hk; [|done]. rewrite elem_of_reverse, list_elem_of_filter. intros [Hn _]. apply Hn.
  apply list_elem_of_fmap. exists (fh, h). split; [done|]. by apply elem_of_map_to_list.
Qed.

Lemma ino_for_advances p f : advances 1 f (ino_for p f).1
  /\ (fs_inv f -> next_ino f + 1 < 2 ^ 64 -> exists i, (ino_for p f).2 = Ok i /\ path_of (ino_for p f).1 i = Some p).
Proof.
  unfold ino_for. rewrite (method_bind_step self _ f f f eq_refl).
  destruct (list_find _ _) as [[k [i q]]|] eqn:Ef.
  { cbn. split; [apply (advances_weaken 0); [lia|apply advances_refl]|]. intros [I0 _ _ _] _. exists i. split; [done|].
    pose proof (find_registered f p I0) as Hf. rewrite Ef in Hf. unfold path_of. destruct (Z.eqb_spec i ROOT_INO); [|done].
    subst i. by rewrite (in_root f I0 p Hf). }
  set (m := if INO_CAP <=? Z.of_nat (base.size (ino_map f)) then evict f else ino_map f).
  rewrite (method_bind_step (update _) _ _ _ tt eq_refl). cbn [fst snd mret method_ret].
  set (f' := with_inos (<[next_ino f := p]> m) (u64 (next_ino f + 1)) f). cbv zeta.
  assert (m ⊆ ino_map f /\ forall fh h (q : bytes), bufs f !! fh = Some h -> ino_map f !! ino h = Some q -> m !! ino h = Some q) as [Hs Hk].
  { unfold m. case_match; [apply evict_kept|done]. }
  assert (forall i q, m !! i = Some q -> ino_map f !! i = Some q) as Hsub by (intros i q Hi; by eapply lookup_weaken).
  split.
  - intros [I0 I1 I2 I3] N1 N2. pose proof I0 as [A B C D]. pose proof (find_registered f p I0) as Hreg. rewrite Ef in Hreg.
    assert (u64 (next_ino f + 1) = next_ino f + 1) as En by (apply u64_small; unfold is_u64; lia).
    assert (forall fh h, bufs f !! fh = Some h -> path_of f' (ino h) = path_of f (ino h)) as Hpath.
    { intros fh h Hh. destruct (I1 fh h Hh) as [q Hq]. rewrite Hq. unfold path_of in *. cbn.
      destruct (ino h =? ROOT_INO); [done|]. pose proof (B _ _ Hq). rewrite lookup_insert_ne by lia. by eapply Hk. }
    assert (forall i, m !! i <> Some p) as Hnp.
    { intros i Hi. apply Hreg, elem_of_registered. exists i. by apply Hsub. }
    split; [split|cbn; lia|cbn; lia|].
    + split.
      * intros i j q. cbn. rewrite !lookup_insert_Some. intros [[<- <-]|[_ Hi]] [[<- Hj]|[_ Hj]]; try done.
        -- by destruct (Hnp j).
        -- subst q. by destruct (Hnp i).
        -- by eapply A; apply Hsub.
      * intros i q. cbn. rewrite En, lookup_insert_Some. intros [[<- _]|[_ Hi]]; [lia|]. pose proof (B _ _ (Hsub _ _ Hi)). lia.
      * cbn. lia.
      * intros q. cbn. rewrite lookup_insert_Some. intros [[? _]|[_ Hi]]; [unfold ROOT_INO in *; lia|by apply D, Hsub].
    + intros fh h Hh. rewrite (Hpath fh h Hh). by apply (I1 fh).
    + done.
    + done.
    + intros fh h _ Hh. exists h. split_and!; [done|done|by apply (Hpath fh)].
  - intros [I0 _ _ _] N1. exists (next_ino f). split; [done|]. unfold path_of. pose proof (in_next f I0).
    rewrite (proj2 (Z.eqb_neq _ _)) by (unfold ROOT_INO; lia). cbn. apply lookup_insert_eq.
Qed.

(** ** Callbacks *)

Definition spends {A} (n : Z) (f : MeshFs) (m : fs_m A) : Prop := advances n f (m f).1.

Lemma spends_ret {A} n f (a : A) : 0 <= n -> spends n f (mret a).
Proof. intros Hn. apply (advances_weaken 0); [lia|apply advances_refl]. Qed.
Lemma spends_lift {A} n f (o : outcome Errno A) : 0 <= n -> spends n f (lift o).
Proof. intros Hn. apply (advances_weaken 0); [lia|apply advances_refl]. Qed.
Lemma spends_bind {A B} a b f (m : fs_m A) (k : A -> fs_m B) : 0 <= a -> 0 <= b -> spends a f m ->
  (forall f1 x, m f = (f1, Ok x) -> spends b f1 (k x)) -> spends (a + b) f (m ≫= k).
Proof.
  intros Ha Hb Hm Hk. unfold spends, mbind, method_bind in *. destruct (m f) as [f1 [x|x|]] eqn:E; cbn in Hm;
    [|apply (advances_weaken a); [lia|done]..]. apply (advances_trans a b f f1); [done..|by apply Hk].
Qed.
Lemma spends_free {A B} b f (m : fs_m A) (k : A -> fs_m B) : 0 <= b -> spends 0 f m ->
  (forall f1 x, m f = (f1, Ok x) -> spends b f1 (k x)) -> spends b f (m ≫= k).
Proof. intros Hb Hm Hk. by apply (spends_bind 0 b). Qed.
Lemma spends_self {B} n f (k : MeshFs -> fs_m B) : spends n f (k f) -> spends n f (self ≫= k).
Proof. done. Qed.
Lemma spends_path {B} n i f (k : bytes -> fs_m B) : 0 <= n -> (forall p, path_of f i = Some p -> spends n f (k p)) ->
  spends n f (need_path i ≫= k).
Proof.
  intros Hn Hk. unfold spends, need_path, mbind, method_bind, self, lift. cbn.
  destruct (path_of f i) as [p|]; [by apply Hk|]. apply (advances_weaken 0); [lia|apply advances_refl].
Qed.
Lemma spends_need {B} n c er f (k : unit -> fs_m B) : 0 <= n -> spends n f (k tt) -> spends n f (need c er ≫= k).
Proof.
  intros Hn Hk. unfold spends, need, mbind, method_bind, lift. destruct c; cbn; [exact Hk|].
  apply (advances_weaken 0); [lia|apply advances_refl].
Qed.

Lemma on_store_spends {A} er (m : store_m A) f : spends 0 f (on_store er m).
Proof. apply advances_store. unfold on_store. by destruct (m (store f)). Qed.

Lemma attr_spends p d now f : spends 1 f (attr p d now).
Proof.
  apply spends_self. case_match. apply (spends_bind 1 0); [lia|lia|apply ino_for_advances|]. intros. by apply spends_ret.
Qed.

Lemma commit_spends now h p d ttl f : spends 0 f (commit_ttl now h p d ttl).
Proof.
  apply spends_self, spends_need; [done|]. apply spends_free; [done|apply on_store_spends|]. intros. by apply spends_ret.
Qed.
Lemma delete_path_spends h p f : spends 0 f (delete_path h p).
Proof.
  apply spends_self, spends_need, spends_need; [done..|]. apply spends_free; [done|apply on_store_spends|]. intros. by apply spends_ret.
Qed.
Lemma for_each_spends {A} (m : A -> fs_m unit) l f : (forall x f, spends 0 f (m x)) -> spends 0 f (for_each m l).
Proof. intros Hm. apply (moves_for_each (advances 0)). intros x g. apply Hm. Qed.
Lemma delete_all_spends h p f : spends 0 f (delete_all_under h p).
Proof.
  apply spends_self, spends_need; [done|]. apply for_each_spends. intros k g.
  apply spends_free; [done|apply on_store_spends|]. intros. by apply spends_ret.
Qed.

Context (e : env).

Lemma move_key_spends o n k f : spends 0 f (move_key e o n k).
Proof.
  apply spends_self. cbv zeta. case_match; [case_match|]; [|by apply spends_lift|by apply spends_ret].
  apply spends_free; [done|apply on_store_spends|]. intros.
  apply spends_free; [done|apply on_store_spends|]. intros. by apply spends_ret.
Qed.

Lemma readdir_loop_spends path offset l out f : spends (blen l) f (readdir_loop e path offset l out).
Proof.
  revert out f. induction l as [|[[o n] d] l IH]; intros out f; cbn [readdir_loop]; [by apply spends_ret|].
  assert (forall out f, spends (blen ((o, n, d) :: l)) f (readdir_loop e path offset l out)) as Hl.
  { intros out' f'. apply (advances_weaken (blen l)); [cbn [length]; lia|apply IH]. }
  case_match; [apply Hl|]. cbv zeta. replace (blen ((o, n, d) :: l)) with (1 + blen l) in * by (cbn [length]; lia).
  destruct d.
  - apply spends_bind; [lia|lia|apply attr_spends|]. intros. case_match; [apply spends_ret; lia|apply IH].
  - apply spends_self. case_match; [|apply Hl].
    apply spends_bind; [lia|lia|apply ino_for_advances|]. intros. case_match; [apply spends_ret; lia|apply IH].
Qed.

(** The numbers a request may give out. *)
Definition budget (f : MeshFs) (r : request) : Z :=
  match r with
  | Readdir i _ => match path_of f i with Some p => Z.of_nat (base.size (children_of f p)) + 2 | None => 0 end
  | Create _ _ => 3
  | _ => 1
  end.

Lemma length_entries (c : gmap bytes bool) : length (entries_of c) = (base.size c + 2)%nat.
Proof. unfold entries_of. rewrite length_app, length_imap, length_btree_iter. cbn. lia. Qed.

Lemma spends_then {A B} n f (m : fs_m A) (g : A -> B) : 0 <= n -> spends n f m -> spends n f (x ← m; mret (g x)).
Proof.
  intros Hn Hm. replace n with (n + 0) by lia. apply spends_bind; [lia|lia|done|]. intros. by apply spends_ret.
Qed.

(** The handle of a created file, on the inode of its path. *)
Lemma advances_created f p f2 i : (ino_for p (with_bufs (bufs f) (u64 (next_fh f + 1)) f)) = (f2, Ok i) ->
  advances 2 f (set_handle (next_fh f) (mkHandle i [] false false) f2).
Proof.
  set (f1 := with_bufs (bufs f) (u64 (next_fh f + 1)) f). intros E I N1 N2. pose proof I as [I0 I1 I2 I3].
  assert (u64 (next_fh f + 1) = next_fh f + 1) as En by (apply u64_small; unfold is_u64; lia).
  assert (advanced 1 f f1) as [A1 A2 A3 A4].
  { split; [split|cbn; lia|cbn; lia|].
    - by destruct I0 as [A B C D].
    - done.
    - intros fh h Hh. specialize (I2 fh h Hh). cbn. lia.
    - cbn. lia.
    - intros fh h _ Hh. by exists h. }
  destruct (ino_for_advances p f1) as [Hadv Hi]. rewrite E in Hadv, Hi. cbn [fst snd] in Hadv, Hi.
  cbn in A2, A3. rewrite En in A3. destruct (Hadv A1) as [B1 B2 B3 B4]; [cbn; lia|cbn; lia|].
  destruct (Hi A1 ltac:(cbn; lia)) as (i' & [= <-] & Hp). cbn [next_ino next_fh f1 with_bufs] in B2, B3, B4. rewrite En in B3, B4.
  destruct B1 as [J0 J1 J2 J3]. split; [split|cbn; lia|cbn; lia|].
  - by destruct J0 as [A B C D].
  - intros fh h. cbn. rewrite lookup_insert_Some. intros [[<- <-]|[_ Hh]]; [by exists p|by apply (J1 fh)].
  - intros fh h. cbn. rewrite lookup_insert_Some. intros [[<- <-]|[_ Hh]]; [lia|by apply (J2 fh h)].
  - done.
  - intros fh h Hfh. cbn. rewrite lookup_insert_Some. intros [[<- <-]|[_ Hh]]; [lia|].
    destruct (B4 fh h ltac:(lia) Hh) as (h1 & Hh1 & Ei & Ep). by exists h1.
Qed.

Lemma create_spends parent n f : spends 3 f (create e parent n).
Proof.
  apply spends_path; [lia|]. intros pp _. cbv zeta. apply spends_free; [lia|apply commit_spends|]. intros f1 [] _.
  apply (spends_bind 1 2); [lia|lia|apply attr_spends|]. intros f2 a _. apply spends_self. cbv zeta. unfold spends.
  rewrite (method_bind_step (update _) _ _ _ tt eq_refl). set (f3 := with_bufs _ _ f2).
  unfold mbind, method_bind. destruct (ino_for (join_child pp n) f3) as [f4 o] eqn:E.
  destruct o as [i|x|]; [by apply (advances_created f2 _ f4 i E)|..].
  all: destruct (ino_for_advances (join_child pp n) f3) as [Hadv _]; rewrite E in Hadv; cbn [fst] in Hadv.
  all: unfold ino_for in E; rewrite (method_bind_step self _ f3 f3 f3 eq_refl) in E.
  all: destruct (list_find _ _) as [[? [? ?]]|]; [done|]; by rewrite (method_bind_step (update _) _ _ _ tt eq_refl) in E.
Qed.

Lemma readdir_spends i o f : spends (budget f (Readdir i o)) f (readdir e i o).
Proof.
  cbn [budget]. destruct (path_of f i) as [p|] eqn:Hp.
  - apply spends_path; [lia|]. intros p' [= <-]%(eq_trans (eq_sym Hp)). apply spends_self.
    replace (Z.of_nat (base.size (children_of f p)) + 2) with (blen (entries_of (children_of f p))) by (rewrite length_entries; lia).
    apply readdir_loop_spends.
  - apply spends_path; [lia|]. intros p' Hp'. congruence.
Qed.

Lemma write_spends i fh o d f : spends 1 f (write i fh o d).
Proof.
  apply spends_path; [lia|]. intros p Hp. apply spends_self.
  unfold spends, lift, mbind at 1, method_bind at 1. destruct (bufs f !! fh) as [h|] eqn:Hh; cbn [ok_or];
    [|apply (advances_weaken 0); [lia|apply advances_refl]]. cbv zeta.
  case_match; rewrite (method_bind_step (update _) _ _ _ tt eq_refl); cbn;
    (apply (advances_weaken 0); [lia|]); by apply (advances_handle f fh h).
Qed.

Lemma rename_spends p n p' n' fl f : spends 1 f (rename e p n p' n' fl).
Proof.
  apply spends_need; [lia|]. apply spends_self.
  apply spends_path; [lia|]. intros pp _. apply spends_path; [lia|]. intros np _. cbv zeta.
  case_match; [by apply spends_ret|]. apply spends_need; [lia|]. apply (advances_weaken 0); [lia|].
  case_match; [|case_match; [apply for_each_spends, move_key_spends|by apply spends_ret]].
  case_match; [|by apply spends_lift]. apply spends_free; [lia|apply commit_spends|]. intros. apply delete_path_spends.
Qed.

Lemma setattr_spends i sz fh f : spends 1 f (setattr e i sz fh).
Proof.
  apply spends_path; [lia|]. intros p _. case_match; [apply attr_spends|]. apply spends_self.
  case_match; [apply attr_spends|]. apply spends_need; [lia|]. case_match; [|apply attr_spends].
  destruct (fh ≫= _) as [[k h]|] eqn:Ek.
  - cbv zeta. apply spends_free; [lia| |intros; by apply spends_ret].
    destruct fh as [k'|]; [|done]. cbn in Ek. destruct (bufs f !! k') as [h'|] eqn:Hh; [|done]. injection Ek as <- <-.
    apply (advances_handle f k' h'); [done|]. by case_match.
  - cbv zeta. apply spends_free; [lia|apply commit_spends|]. intros. apply attr_spends.
Qed.

Lemma serve_advances r f : spends (budget f r) f (serve e r).
Proof.
  destruct r; cbn [serve budget].
  - apply spends_then; [lia|]. apply spends_path; [lia|]. intros pp _. apply spends_self, spends_need; [lia|]. apply attr_spends.
  - apply spends_then; [lia|]. apply spends_path; [lia|]. intros pp _. case_match; [apply attr_spends|].
    apply spends_self, spends_need; [lia|]. apply attr_spends.
  - apply spends_then; [|apply readdir_spends]. destruct (path_of f i); lia.
  - apply spends_then; [lia|]. apply spends_path; [lia|]. intros p Hp. apply spends_self, spends_need; [lia|]. cbv zeta.
    destruct (acc_mode flags); [by apply spends_ret|..]; (apply (spends_bind 1 0); [lia|lia| |intros; by apply spends_ret]);
      apply advances_open; by exists p.
  - apply spends_then; [lia|]. apply spends_self. cbv zeta.
    repeat case_match; first [by apply spends_ret|by apply spends_lift].
  - apply spends_then; [lia|apply write_spends].
  - apply (spends_then 1 f _ (fun _ => AOk)); [lia|]. apply spends_path; [lia|]. intros p _. apply spends_self.
    apply spends_free; [lia|apply advances_drop|]. intros f1 [] _.
    repeat case_match; try (by apply spends_ret). apply (advances_weaken 0); [lia|apply commit_spends].
  - apply (spends_then 1 f _ (fun _ => AOk)); [lia|]. apply (advances_weaken 0); [lia|apply advances_drop].
  - replace 3 with (3 + 0) by lia. apply spends_bind; [lia|lia|apply create_spends|]. intros f1 [a fh] _. by apply spends_ret.
  - apply spends_then; [lia|]. apply spends_path; [lia|]. intros pp _. apply spends_self, spends_need; [lia|]. cbv zeta.
    apply spends_free; [lia| |intros; apply attr_spends]. apply advances_store. unfold ignoring.
    by destruct (put _ _ _ _ _ _ _ _).
  - apply (spends_then 1 f _ (fun _ => AOk)); [lia|]. apply spends_path; [lia|]. intros pp _.
    apply (advances_weaken 0); [lia|apply delete_path_spends].
  - apply (spends_then 1 f _ (fun _ => AOk)); [lia|]. apply spends_path; [lia|]. intros pp _.
    apply spends_free; [lia|apply delete_all_spends|]. intros. apply (advances_weaken 0); [lia|apply delete_path_spends].
  - apply (spends_then 1 f _ (fun _ => AOk)); [lia|apply rename_spends].
  - apply spends_then; [lia|apply setattr_spends].
  - by apply (spends_then 1 f _ (fun _ => AOk)), spends_ret.
  - by apply spends_then, spends_lift.
  - by apply spends_then, spends_lift.
  - by apply spends_then, spends_lift.
Qed.

End inode.

Section runs.
Context `{Sha256, HexCrate, SerdeJson, InoOrder}.

Lemma mesh_fs_new_inv st pk u : fs_inv (mesh_fs_new st pk u).
Proof.
  split; [split| | |done].
  - intros i j p. cbn [mesh_fs_new ino_map next_ino bufs next_fh]. rewrite !lookup_singleton_Some. intros [<- _] [<- _]. done.
  - intros i p. cbn [mesh_fs_new ino_map next_ino bufs next_fh]. rewrite lookup_singleton_Some. intros [<- _]. done.
  - done.
  - intros p. cbn [mesh_fs_new ino_map next_ino bufs next_fh]. rewrite lookup_singleton_Some. by intros [_ <-].
  - intros fh h. cbn [mesh_fs_new ino_map next_ino bufs next_fh]. by rewrite lookup_empty.
  - intros fh h. cbn [mesh_fs_new ino_map next_ino bufs next_fh]. by rewrite lookup_empty.
Qed.

(** The numbers that a sequence of requests may give out. *)
Fixpoint spent (l : list (env * request)) (f : MeshFs) : Z :=
  match l with [] => 0 | x :: l => budget f x.2 + spent l (serve x.1 x.2 f).1 end.

Lemma budget_nonneg f r : 0 <= budget f r.
Proof. destruct r; cbn; try lia. case_match; lia. Qed.
Lemma spent_nonneg l f : 0 <= spent l f.
Proof. revert f. induction l as [|x l IH]; intros f; cbn; [done|]. pose proof (budget_nonneg f x.2). specialize (IH (serve x.1 x.2 f).1). lia. Qed.

Lemma run_advances l f : advances (spent l f) f (run l f).
Proof.
  revert f. induction l as [|x l IH]; intros f; [apply advances_refl|]. rewrite run_cons. cbn [spent].
  apply (advances_trans _ _ f (serve x.1 x.2 f).1); [apply budget_nonneg|apply spent_nonneg|apply serve_advances|apply IH].
Qed.

(** C20: inodes and write handles stay sound.  From a mount in a sound state, as
    a fresh one is, whatever is requested and however the full inode table is
    pruned, and while fewer than 2^64 numbers are given out: inode 1 is the root
    directory; any other path is the path of at most one inode (of at most one
    entry of the table, for the root path, whose entry may be pruned and given
    another number); and a handle opened for writing that was open before and
    is open after is on the same inode, which still has the same path, so what
    is flushed goes to the file that was opened.  An [open] for reading records
    no handle, and nothing is claimed of its inode: pruning may remove it. *)
Theorem handles_keep_their_file l f :
  fs_inv f -> next_ino f + spent l f < 2 ^ 64 -> next_fh f + spent l f < 2 ^ 64 ->
  let f' := run l f in
  fs_inv f'
  /\ path_of f' ROOT_INO = Some []
  /\ (forall i j p, p <> [] -> path_of f' i = Some p -> path_of f' j = Some p -> i = j)
  /\ (forall i j p, ino_map f' !! i = Some p -> ino_map f' !! j = Some p -> i = j)
  /\ forall fh h', fh < next_fh f -> bufs f' !! fh = Some h' ->
       exists h p, bufs f !! fh = Some h /\ ino h' = ino h /\ path_of f (ino h) = Some p /\ path_of f' (ino h) = Some p.
Proof.
  intros I N1 N2. cbv zeta. destruct (run_advances l f I N1 N2) as [A1 _ _ A4]. pose proof (in_inj _ (fi_inos _ A1)) as Hinj.
  split_and!; [done|done| |done|].
  { unfold path_of. intros i j p Hp. destruct (i =? ROOT_INO); [congruence|]. destruct (j =? ROOT_INO); [congruence|]. apply Hinj. }
  intros fh h' Hfh Hh. destruct (A4 fh h' Hfh Hh) as (h & Hh0 & Ei & Ep). destruct (fi_path f I fh h Hh0) as [p Hp].
  exists h, p. split_and!; [done..|congruence].
Qed.

End runs.

(** ** Witness *)

#[local] Existing Instances toy_sha256 hex_plain toy_json plain_inos.
Import FsDemo.

(** The note is open for writing, as handle 1. *)
Definition demo_opened : MeshFs := set_handle 1 (mkHandle 2 (bs "hello") false false) (with_bufs ∅ 2 demo_mount).

Lemma demo_opened_inv : fs_inv demo_opened.
Proof.
  split; [by destruct demo_inos_ok| | |done].
  - intros fh h. cbn. rewrite lookup_insert_Some, lookup_empty. intros [[<- <-]|[_ ?]]; [|done]. by exists (bs "note").
  - intros fh h. cbn. rewrite lookup_insert_Some, lookup_empty. intros [[<- <-]|[_ ?]]; done.
Qed.

Lemma handles_keep_their_file_witness :
  let l := [(demo_env, Readdir 3 0); (demo_env, Write 2 1 0 (bs "J")); (demo_env, Create ROOT_INO (bs "new"))] in
  let f' := run l demo_opened in
  fs_inv f'
  /\ path_of f' ROOT_INO = Some []
  /\ (forall i j p, p <> [] -> path_of f' i = Some p -> path_of f' j = Some p -> i = j)
  /\ (forall i j p, ino_map f' !! i = Some p -> ino_map f' !! j = Some p -> i = j)
  /\ forall fh h', fh < 2 -> bufs f' !! fh = Some h' ->
       exists h p, bufs demo_opened !! fh = Some h /\ ino h' = ino h
         /\ path_of demo_opened (ino h) = Some p /\ path_of f' (ino h) = Some p.
Proof.
  apply (handles_keep_their_file [(demo_env, Readdir 3 0); (demo_env, Write 2 1 0 (bs "J")); (demo_env, Create ROOT_INO (bs "new"))]
    demo_opened demo_opened_inv); by vm_compute.
Defined.

End FsInode.
