(* ===== verification/FsGaps.v ===== *)
(** Where the file system differs from what its comments, or the calls it
    answers, promise. *)

From S2P Require Import Prelude Moves Crc32 LogFormat Log LogSpec Utf8 StoreTypes Store StoreSpec Hlc Config Caps Auth RateLimit Query Json Schema Server Fs FsDemo FsSpec FsFile FsRename FsDir FsInode.
Import Store StoreSpec Fs FsSpec FsFile FsRename FsDir FsInode.

Module FsGaps.

Section gaps.
Context `{Sha256, HexCrate, SerdeJson, InoOrder}.

(** ** Modification times *)

(** A logical timestamp is milliseconds shifted by 16 bits, and its thousandth
    is taken for seconds: a file written at time [t] shows a modification time
    65536 times too late. *)
Theorem mtime_not_seconds e i path n f j v t : (forall k, now_ms e k = t) -> path_of f i = Some path -> inos_ok f ->
  ino_map f !! j = Some (join_child path n) -> dir_exists f (join_child path n) = false ->
  get (store f) (ns f) (key_of (join_child path n)) = Some (Lww v) ->
  0 <= t < 2 ^ 48 -> expires_at v = 0 -> hlc v = Hlc.base_of t ->
  exists a, lookup e i n f = (f, Ok a) /\ mtime_secs a = t * 65536 / 1000.
Proof.
  intros Hnow Hp Hok Hj Hd Hg Ht Hx Hv. unfold lookup. rewrite (need_path_run _ _ _ _ Hp). cbv zeta.
  rewrite (method_bind_step self _ f f f eq_refl), !Hnow, Hd. cbn [orb].
  assert (latest_info f (join_child path n) t = Some (blen (value v), t * 65536)) as El.
  { unfold latest_info, winner. rewrite Hg. cbn [mbind option_bind]. unfold unexpired. rewrite Hx. cbn. rewrite Hv.
    unfold Hlc.base_of, Hlc.PHYS_SHIFT. rewrite Z.shiftl_mul_pow2 by lia. change (2 ^ 16) with 65536.
    rewrite u64_small by (unfold is_u64; lia). done. }
  unfold file_exists. rewrite El, bool_decide_eq_true_2 by done.
  rewrite (method_bind_step (need true ENOENT) _ f f tt eq_refl). unfold attr.
  rewrite (method_bind_step self _ f f f eq_refl), El. cbv beta iota zeta.
  rewrite (method_bind_step _ _ _ _ _ (ino_for_known f j _ Hok Hj)). by eexists.
Qed.

(** ** Handles *)

(** A flush ends the handle, although the kernel flushes at every close of a
    descriptor, of a duplicated one too: later writes through it fail. *)
Theorem flush_ends_handle e e' i fh off d f p : path_of f i = Some p ->
  (serve e' (Write i fh off d) (serve e (Flush i fh) f).1).2 = Err EIO.
Proof.
  intros Hp. set (f' := (serve e (Flush i fh) f).1).
  assert (bufs f' !! fh = None /\ path_of f' i = Some p) as [Hb Hp'].
  { assert (f' = (flush e i fh f).1) as ->.
    { unfold f'. cbn [serve]. unfold mbind, method_bind. by destruct (flush e i fh f) as [g [x|x|]]. }
    unfold flush. rewrite (need_path_run _ _ _ _ Hp).
    rewrite (method_bind_step self _ f f f eq_refl), (method_bind_step (update _) _ _ _ tt eq_refl).
    set (g := drop_handle fh f). assert (bufs g !! fh = None /\ path_of g i = Some p) as Hg by (split; [apply lookup_delete_eq|exact Hp]).
    destruct (bufs f !! fh) as [h|]; [|exact Hg]. destruct (dirty h); [|exact Hg].
    unfold commit, commit_ttl. rewrite (method_bind_step self _ g g g eq_refl).
    destruct (authorized_self g); [|exact Hg]. rewrite (method_bind_step (need true EACCES) _ g g tt eq_refl).
    cbv zeta. unfold on_store, mbind, method_bind. destruct (put _ _ _ _ _ _ _ _) as [st [x|x|]]; exact Hg. }
  assert (write i fh off d f' = (f', Err EIO)) as Ew.
  { unfold write. rewrite (need_path_run _ _ _ _ Hp'), (method_bind_step self _ f' f' f' eq_refl).
    unfold mbind, method_bind, lift. by rewrite Hb. }
  cbn [serve]. unfold mbind, method_bind. by rewrite Ew.
Qed.

(** ** Eviction *)

(** The bound of the loop shrinks with the table, so a full table of which no
    entry is in use is pruned to three quarters, not to [INO_EVICT_TO]. *)
Lemma evict_loop_size l removed m : NoDup l -> Forall (fun i => is_Some (m !! i)) l ->
  0 <= removed -> INO_EVICT_TO <= Z.of_nat (base.size m) < 2 ^ 63 ->
  Z.of_nat (base.size m) - INO_EVICT_TO <= removed + 2 * blen l ->
  let k := Z.max 0 ((Z.of_nat (base.size m) - INO_EVICT_TO - removed + 1) / 2) in
  removed + k < 2 ^ 63 ->
  Z.of_nat (base.size (evict_loop l removed m)) = Z.of_nat (base.size m) - k.
Proof.
  assert (INO_EVICT_TO = 50000) as Hto by done. intros Hnd Hl. revert removed m Hl. induction Hnd as [|i l Hi Hnd IH]; intros removed m Hl Hr Hm Hlen k Hk.
  - cbn [evict_loop]. assert (k = 0) by (unfold k; cbn [length] in Hlen; Z.to_euclidean_division_equations; lia). case_match; lia.
  - cbn [evict_loop]. rewrite u64_small by (unfold is_u64; lia). apply Forall_cons in Hl as [[p Hp] Hl].
    destruct (Z.ltb_spec removed (Z.of_nat (base.size m) - INO_EVICT_TO)) as [Hlt|Hge]; [|unfold k; Z.to_euclidean_division_equations; lia].
    assert (base.size m = S (base.size (base.delete i m))) as Es.
    { rewrite map_size_delete_Some by (by eexists). destruct (decide (base.size m = 0%nat)) as [E|]; [|lia].
      apply map_size_empty_inv in E. subst m. by rewrite lookup_empty in Hp. }
    assert (1 <= k) by (unfold k; Z.to_euclidean_division_equations; lia).
    rewrite u64_small by (unfold is_u64; lia).
    rewrite IH; [unfold k; Z.to_euclidean_division_equations; lia| |lia|lia|cbn [length] in Hlen; lia
      |unfold k in Hk; Z.to_euclidean_division_equations; lia].
    apply Forall_forall. intros j Hj. rewrite Forall_forall in Hl. rewrite lookup_delete_ne; [by apply Hl|]. by intros ->.
Qed.

Theorem eviction_stops_early f : bufs f = ∅ -> Z.of_nat (base.size (ino_map f)) = INO_CAP ->
  Z.of_nat (base.size (evict f)) = 75000.
Proof.
  intros Hb Hs. unfold evict. cbv zeta. rewrite Hb, map_to_list_empty. cbn [fmap list_fmap].
  set (l := (ino_iter (ino_map f)).*1). assert (filter (fun i => i ∉ []) l = l) as ->.
  { apply filter_every, Forall_forall. intros i _. apply not_elem_of_nil. }
  assert (l ≡ₚ (map_to_list (ino_map f)).*1) as Hperm by (apply fmap_Permutation, ino_iter_perm).
  assert (length (reverse l) = base.size (ino_map f)) as El.
  { rewrite length_reverse, Hperm, length_fmap. apply length_map_to_list. }
  rewrite evict_loop_size.
  - rewrite Hs. done.
  - rewrite reverse_Permutation, Hperm. apply NoDup_fst_map_to_list.
  - rewrite reverse_Permutation, Hperm. apply Forall_fmap, Forall_forall. intros [i p] Hip%elem_of_map_to_list. by eexists.
  - done.
  - rewrite Hs. done.
  - rewrite El, Hs. done.
  - rewrite Hs. done.
Qed.

(** Pruning does not spare the root directory: when the entry of the root comes
    last in the order of the table, the next new path removes it, and from then
    on the attributes of the root carry another inode than the one the root is
    asked for by. *)
Theorem root_renumbered e p f : inos_ok f -> next_ino f + 1 < 2 ^ 64 ->
  bufs f = ∅ -> Z.of_nat (base.size (ino_map f)) = INO_CAP ->
  last (ino_iter (ino_map f)) = Some (ROOT_INO, []) -> p <> [] -> p ∉ registered f ->
  exists f2 a, serve e (Getattr ROOT_INO) (ino_for p f).1 = (f2, Ok (AEntry a))
    /\ attr_ino a = next_ino f + 1 /\ attr_ino a <> ROOT_INO.
Proof.
  intros Hok Hn Hb Hs Hl Hp Hr. pose proof Hok as [Hinj Hfresh Hnext _].
  assert (u64 (next_ino f + 1) = next_ino f + 1) as En by (apply u64_small; unfold is_u64; lia).
  assert (evict f ⊆ base.delete ROOT_INO (ino_map f)) as Hsub.
  { unfold evict. cbv zeta. rewrite Hb, map_to_list_empty. cbn [fmap list_fmap].
    rewrite filter_every by (apply Forall_forall; intros i _; apply not_elem_of_nil).
    apply last_Some in Hl as [l ->]. rewrite fmap_app, reverse_app. cbn [fmap list_fmap fst reverse rev_append app].
    cbn [evict_loop]. rewrite Hs. cbn [Z.ltb]. apply evict_loop_kept. }
  set (f1 := with_inos (<[next_ino f := p]> (evict f)) (next_ino f + 1) f).
  assert ((ino_for p f).1 = f1) as ->.
  { unfold ino_for. rewrite (method_bind_step self _ f f f eq_refl).
    pose proof (find_registered f p Hok) as Hf. destruct (list_find _ _) as [[j [i q]]|].
    - destruct Hr. apply elem_of_registered. by exists i.
    - rewrite Hs, Z.leb_refl, En. done. }
  assert (forall i, ino_map f1 !! i <> Some []) as Hno.
  { intros i. cbn. rewrite lookup_insert_Some. intros [[_ ->]|[_ Hi]]; [done|].
    assert (base.delete ROOT_INO (ino_map f) !! i = Some []) as Hd by (by eapply lookup_weaken).
    apply lookup_delete_Some in Hd as [Hne Hd]. apply Hne, (Hinj ROOT_INO i []); [|done].
    apply last_Some in Hl as [l El]. apply elem_of_map_to_list. rewrite <-(ino_iter_perm (ino_map f)), El. set_solver. }
  assert (exists f2, ino_for [] f1 = (f2, Ok (next_ino f + 1))) as [f2 E].
  { unfold ino_for. rewrite (method_bind_step self _ f1 f1 f1 eq_refl).
    destruct (list_find _ _) as [[j [i q]]|] eqn:Ef; [|by eexists].
    apply list_find_Some in Ef as (Hi & Hq & _). cbn in Hq. subst q. destruct (Hno i).
    apply elem_of_map_to_list. rewrite <-(ino_iter_perm (ino_map f1)). by eapply list_elem_of_lookup_2. }
  exists f2, (attr_of f1 (next_ino f + 1) true 0 0). split_and!; [|done|cbn; unfold ROOT_INO; lia].
  cbn [serve]. rewrite (method_bind_step _ _ f1 f2 (attr_of f1 (next_ino f + 1) true 0 0)); [done|].
  unfold getattr. rewrite (need_path_run ROOT_INO f1 [] _ eq_refl). change (ROOT_INO =? ROOT_INO) with true.
  cbv iota. unfold attr. rewrite (method_bind_step self _ f1 f1 f1 eq_refl). cbv beta iota zeta.
  by rewrite (method_bind_step _ _ _ _ _ E).
Qed.

(** ** Conflicting versions *)

(** Of two versions of the same time the mount reads the one that came last,
    where the API reads the one of the greater replica: the comparison takes the
    replica of the same version on both sides. *)
Theorem tie_read_differently f path now a b : get (store f) (ns f) (key_of path) = Some (Register [a; b]) ->
  hlc a = hlc b -> cmp (replica a) (replica b) = Gt -> expires_at a = 0 -> expires_at b = 0 ->
  read_value f path now = Some (value b) /\ Server.latest_value (Register [a; b]) now = Some (value a).
Proof.
  intros Hg Hh Hr Ha Hb. split.
  - unfold read_value, winner. rewrite Hg. cbn [mbind option_bind List.filter]. unfold unexpired. rewrite Ha, Hb. cbn [Z.eqb orb].
    unfold max_by_hlc. cbn [fold_left]. by rewrite Hh, cmp_refl.
  - unfold Server.latest_value. cbn [List.filter]. unfold Server.live. rewrite Ha, Hb. cbn [Z.eqb orb].
    unfold max_version. cbn [fold_left]. unfold geb, vkey. rewrite cmp_pair. cbn [fst snd]. rewrite Hh, cmp_refl.
    by rewrite (cmp_opp (replica a)), Hr.
Qed.

End gaps.

(** ** On the example mount *)

#[local] Existing Instances toy_sha256 hex_plain toy_json plain_inos.
Import FsDemo.

(** Two handles that append: the second to close overwrites what the first
    appended, although an appending write is to land at the end of the current
    value. *)
Theorem append_lost :
  let flags := mkFlags O_WRONLY O_APPEND in
  let f := run [(demo_env, Open 2 flags); (demo_env, Open 2 flags); (demo_env, Write 2 1 0 (bs " one"));
                (demo_env, Write 2 2 0 (bs " two")); (demo_env, Flush 2 1); (demo_env, Flush 2 2)] demo_mount in
  read_value f (bs "note") 10 = Some (bs "hello two").
Proof. by vm_compute. Qed.

(** A file renamed while it is open: closing it brings the old name back, and
    the new name keeps the old content. *)
Theorem rename_splits_open_file :
  let f := run [(demo_env, Open 2 (mkFlags O_WRONLY 0)); (demo_env, Write 2 1 0 (bs "HELLO"));
                (demo_env, Rename ROOT_INO (bs "note") ROOT_INO (bs "memo") true); (demo_env, Flush 2 1)] demo_mount in
  read_value f (bs "note") 10 = Some (bs "HELLO") /\ read_value f (bs "memo") 10 = Some (bs "hello").
Proof. by vm_compute. Qed.

(** Removing a directory that is not empty removes what is in it. *)
Theorem rmdir_removes_files :
  let '(f, o) := serve demo_env (Rmdir ROOT_INO (bs "d")) demo_mount in
  o = Ok AOk /\ file_exists demo_mount (bs "d/a") 10 = true /\ file_exists f (bs "d/a") 10 = false.
Proof. by vm_compute. Qed.

End FsGaps.
