(* ===== verification/Cli.v ===== *)
(** The command line tool ([src/bin/bunnymeshdb.rs]): backup and restore of a
    data directory, clearing a pin, and the interactive loop; [init],
    [compact] and [rotate-key] call [Rotate.init], [Snapshot.compact_dir] and
    [Rotate.rotate_root] and add nothing.  The restored node is the node that
    was backed up. *)

From S2P Require Import Prelude Crc32 LogFormat Log LogSpec Base64 Utf8 Text StoreTypes Store StoreSpec StoreFrame Snapshot SnapshotSpec Hlc Ident Config Caps CapsToy Rotate RotateSpec Query.
Import Utf8 Text Store StoreSpec Snapshot SnapshotSpec Config ConfigOps Rotate RotateSpec.

Module Cli.

(** ** Copies *)

(** A file of the source replaces the one of the destination; what the source
    does not have stays. *)
Definition copy_file (src dst : option bytes) : option bytes :=
  match src with Some b => Some b | None => dst end.

Definition copy_segments (src dst : Log.nsdir) : Log.nsdir :=
  Log.mkDir (Log.segs src ∪ Log.segs dst) (copy_file (Log.sidecar src) (Log.sidecar dst)).

(** [copy_tree] on the files of a data directory. *)
Definition copy_tree (src dst : datadir) : datadir :=
  mkData (copy_file (meta_bin src) (meta_bin dst)) (copy_file (meta_tmp src) (meta_tmp dst))
    (mkDisk (copy_file (snap (data_disk src)) (snap (data_disk dst)))
       (union_with (fun a b => Some (copy_segments a b)) (dirs (data_disk src)) (dirs (data_disk dst))))
    (writes_left dst).

Inductive cli_error :=
| OpenStore (e : StorageError)
| HasNode
| NoPeer (name : bytes)
| BadConfig (e : config_error)
| BadMeta (e : rotate_error).

Section cli.
Context `{Sha256, HexCrate, SerdeJson, Ed25519, CapJson, ConfigText}.

(** The directory is opened and checkpointed, then copied. *)
Definition backup (now : Z) (data out : datadir) : datadir * datadir * outcome cli_error unit :=
  let '(d, r) := open_durable false now (data_disk data) in
  let data := set_disk d data in
  match r with
  | Ok s => let data := set_disk (sdisk (checkpoint s)) data in (data, copy_tree data out, Ok tt)
  | Err err => (data, out, Err (OpenStore err))
  | Panic => (data, out, Panic)
  end.

Definition restore (from data : datadir) : datadir * outcome cli_error unit :=
  if bool_decide (is_Some (meta_bin data)) then (data, Err HasNode) else (copy_tree from data, Ok tt).

(** What is left in the configuration file. *)
Definition untrust (path name : bytes) (io : write_result) (file : option bytes)
    : option bytes * outcome cli_error unit :=
  match ConfigOps.load path file with
  | Ok cfg =>
      match peer cfg name with
      | Some _ =>
          let '(file, o) := save (peer_mut name (with_pin []) cfg) path io file in (file, map_err BadConfig o)
      | None => (file, Err (NoPeer name))
      end
  | Err err => (file, Err (BadConfig err))
  | Panic => (file, Panic)
  end.

Section repl.
Context (clock : nat -> Z) (fields_text : list bytes -> bytes).

(** The lines read, up to the end of the input, a line that is not UTF-8, or
    [exit]; each answer is printed, an error as well. *)
Fixpoint repl (input : list bytes) (ctx : Query.QueryCtx) : Query.QueryCtx * list (outcome Query.QueryError Query.Value) :=
  match input with
  | [] => (ctx, [])
  | line :: input =>
      if negb (utf8_valid line) then (ctx, []) else
      let trimmed := trim line in
      if bool_decide (trimmed = []) then repl input ctx
      else if bool_decide (trimmed = bs "exit") then (ctx, [])
      else let '(ctx, o) := Query.eval clock fields_text trimmed ctx in
           match o with
           | Panic => (ctx, [o])
           | _ => let '(ctx, out) := repl input ctx in (ctx, o :: out)
           end
  end.

Definition cmd_repl (now : Z) (input : list bytes) (data : datadir)
    : datadir * outcome cli_error (list (outcome Query.QueryError Query.Value)) :=
  match Rotate.load data with
  | Ok kp =>
      let '(d, r) := open_durable false now (data_disk data) in
      match r with
      | Ok s => let '(ctx, out) := repl input (Query.mkCtx s true None (Ident.public kp) false 0) in
                (set_disk (sdisk (Query.q_store ctx)) data, Ok out)
      | Err err => (set_disk d data, Err (OpenStore err))
      | Panic => (set_disk d data, Panic)
      end
  | Err err => (data, Err (BadMeta err))
  | Panic => (data, Panic)
  end.
End repl.
(** ** Copies into an empty directory *)

Definition empty_dir (w : nat) : datadir := mkData None None (mkDisk None ∅) w.

Lemma copy_into_empty src w : copy_tree src (empty_dir w) = mkData (meta_bin src) (meta_tmp src) (data_disk src) w.
Proof.
  unfold copy_tree, empty_dir. cbn. destruct src as [m t [sn ds] wl]. cbn. f_equal; [by destruct m|by destruct t|].
  f_equal; [by destruct sn|]. apply map_eq. intros k. rewrite lookup_union_with, lookup_empty. by destruct (ds !! k).
Qed.

(** Two stores of the same node. *)
Definition same_node (s s' : Store) : Prop :=
  logs s' = logs s /\ policies s' = policies s /\ index s' = index s /\ tombs s' = tombs s /\ meta s' = meta s
  /\ peer_clocks s' = peer_clocks s /\ revision s' = revision s /\ forall ns k, get s' ns k = get s ns k.

Lemma same_node_trans a b c : same_node a b -> same_node b c -> same_node a c.
Proof. intros (?&?&?&?&?&?&?&?) (?&?&?&?&?&?&?&?). split_and!; intros; etrans; eauto. Qed.

Lemma reopen_clean s now : clean s -> let d := sdisk (checkpoint s) in
  exists s', open_durable false now d = (d, Ok s') /\ clean s' /\ same_node s s'.
Proof.
  intros Hc d. destruct (reopen_run s now (cl_ok s Hc) (cl_snap s Hc) (cl_tidy s Hc) (cl_created s Hc))
    as (s' & E & Ed & El & Ep & Ei & Et & Em & Ec & Er & Edu & Eg).
  exists s'. rewrite (cl_durable s Hc) in E. split_and!; try done.
  eapply clean_eq; try done. by rewrite Ed.
Qed.

(** C33: a backup restores the node.  The data directory of a node with root key
    [kp] and state [s] is backed up into an empty directory and restored into
    another one: both commands succeed, the restored directory has the same root
    key, and opening it gives the state that was backed up: every log, policy,
    entry, tombstone, peer clock and all metadata, so that every read answers as
    before; the backed up directory still opens to that state as well.  A
    directory that holds a node already is not restored over. *)
Theorem backup_restores kp s data now now' w w' :
  at_rest kp s data ->
  let '(data', out, o) := backup now data (empty_dir w) in
  let '(target, o') := restore out (empty_dir w') in
  o = Ok tt /\ o' = Ok tt
  /\ Rotate.load target = Ok kp /\ Rotate.load data' = Ok kp
  /\ (exists s', open_durable false now' (data_disk target) = (data_disk target, Ok s') /\ same_node s s')
  /\ (exists s', open_durable false now' (data_disk data') = (data_disk data', Ok s') /\ same_node s s')
  /\ forall other, is_Some (meta_bin other) -> restore out other = (other, Err HasNode).
Proof.
  intros Hr. destruct (reopen_clean s now (ar_clean _ _ _ Hr)) as (s1 & E1 & Hc1 & Hn1).
  destruct (reopen_clean s1 now' Hc1) as (s2 & E2 & _ & Hn2).
  unfold backup. rewrite (ar_disk _ _ _ Hr), E1. cbv zeta. rewrite copy_into_empty.
  unfold restore. cbn [meta_bin empty_dir]. rewrite (bool_decide_eq_false_2 (is_Some None)) by (by intros []).
  rewrite copy_into_empty. split_and!; [done|done|..].
  1,2: apply load_meta; [apply (ar_meta _ _ _ Hr)|apply (ar_seed _ _ _ Hr)].
  1,2: exists s2; split; [exact E2|by eapply same_node_trans].
  intros other Ho. by rewrite bool_decide_eq_true_2.
Qed.

(** A backup into a directory that holds an older one leaves what the node no
    longer has: a segment dropped by a compaction stays among the new ones. *)
Theorem backup_keeps_stale_segments now data s d out n old k b :
  open_durable false now (data_disk data) = (d, Ok s) ->
  dirs (data_disk out) !! n = Some old -> Log.segs old !! k = Some b ->
  (forall cur, dirs (sdisk (checkpoint s)) !! n = Some cur -> Log.segs cur !! k = None) ->
  exists new, dirs (data_disk (backup now data out).1.2) !! n = Some new /\ Log.segs new !! k = Some b.
Proof.
  intros Eo Ho Hk Hc. unfold backup. rewrite Eo. cbn [fst snd copy_tree data_disk set_disk dirs].
  rewrite lookup_union_with, Ho. destruct (dirs (sdisk (checkpoint s)) !! n) as [cur|]; [|by exists old].
  eexists. split; [done|]. cbn [copy_segments Log.segs]. rewrite lookup_union_r; [done|by apply Hc].
Qed.

(** [untrust] clears the pin of one peer and changes nothing else that a later
    load reads. *)
Lemma untrust_clears path name cfg file p t :
  ConfigOps.load path file = Ok cfg -> peer cfg name = Some p ->
  to_toml (peer_mut name (with_pin []) cfg) = Some t ->
  untrust path name Written file = (Some t, Ok tt) /\ from_toml t = Some (peer_mut name (with_pin []) cfg).
Proof.
  intros El Ep Et. unfold untrust, save. rewrite El, Ep, Et. split; [done|]. by apply toml_roundtrip in Et as [_ ?].
Qed.

End cli.

(** ** Witness *)

#[local] Existing Instances toy_sha256 hex_plain toy_json toy_ed25519 CapsToy.toy_cap_json.

(** A node with an entry and a tombstone, and an interrupted rotation's key file. *)
Lemma backup_restores_witness :
  let '(data', out, o) := backup 5 (demo_dir (Some demo_seed) 2) (empty_dir 1) in
  let '(target, o') := restore out (empty_dir 1) in
  o = Ok tt /\ o' = Ok tt /\ Rotate.load target = Ok demo_kp /\ meta_tmp target = Some demo_seed
  /\ exists s', open_durable false 9 (data_disk target) = (data_disk target, Ok s')
      /\ get s' (bs "app") (bs "k") = get saved (bs "app") (bs "k").
Proof.
  pose proof (backup_restores demo_kp saved (demo_dir (Some demo_seed) 2) 5 9 1 1 (demo_at_rest _ _)) as W.
  assert (meta_tmp (restore (backup 5 (demo_dir (Some demo_seed) 2) (empty_dir 1)).1.2 (empty_dir 1)).1
    = Some demo_seed) as T by (vm_compute; reflexivity).
  destruct (backup _ _ _) as [[data' out] o]. cbn [fst snd] in T.
  destruct (restore out _) as [target o']. destruct W as (A & B & C & _ & (s' & D & E) & _).
  split; [exact A|]. split; [exact B|]. split; [exact C|]. split; [exact T|].
  exists s'. split; [exact D|]. apply E.
Defined.

End Cli.
